(* ===== verification/_CoqProject ===== *)
-Q . S2P
Prelude.v
Status.v
CommandRules.v
Buffer.v
BufferInv.v
BufferWorld.v
RespParser.v
CoSocket.v
CoroutineSignal.v
Config.v
BackendChannel.v
ChannelInv.v
ChannelProps.v
ChannelStop.v
ChannelSend.v
BackendPool.v
ClientSession.v
Worker.v
SessionInv.v
WorkerInv.v
WorkerSteps.v
WorkerFrame.v
WorkerProps.v
PoolStop.v
SessionEnd.v
Delivery.v
DataFlow.v
PathOps.v
DataPath.v
WorkerDemo.v
InputReady.v
ProxyServer.v
Double.v
NumberText.v
ProxyBench.v
BenchReport.v
