(* ===== verification/Prelude.v ===== *)
(** * Verification of the Redis proxy

    A proxy process accepts Redis clients, checks each command against a table of
    allowed commands, and forwards what it admits over a few shared connections to
    one Redis server.  One thread accepts connections and hands them to workers in
    turn; each worker is a thread that runs coroutines: two per client session, up
    to two per connection to Redis, and one that opens and destroys sessions.  This
    library models that program from [src/] and proves what it promises.

    ** Parts, and where they are modelled

    - [Prelude]: this file.  Bytes, machine integers, generic lemmas, and [ST], code
      over a store that may go wrong, with its rules [wp].
    - [Status]: include/redis_proxy/status.h.
    - [CommandRules]: src/command_rules.cpp.  [Default] is the table, entry by entry.
    - [Buffer] (src/buffer.cpp): blocks with a 32-bit reference count, slices, chains,
      the pool that recycles blocks and I/O buffers, over an explicit heap in which
      handles share blocks.  [BufferInv] has the ownership invariant and a
      specification per operation, [BufferWorld] sequences of operations on any
      number of buffers and chains.
    - [RespParser] (src/resp_parser.cpp): the growing arena of [unpack], [peekFrame]
      and [nextReplyFrame].  [peek_bytes] and [next_bytes] are the same on the
      readable bytes; [peekFrame_spec] and [nextReplyFrame_spec] relate the two, and
      sessions and channels are modelled over the latter.
    - [CoSocket] (src/co_socket.cpp): descriptors, [connectTo], [readSome], [writeAll].
    - [CoroutineSignal] (src/coroutine_signal.cpp): over the interface [CoCond].
    - [Config] (src/config.cpp): file, command line and validation.
    - [BackendChannel] (src/backend_channel.cpp): one connection to Redis shared by
      many sessions.  [ChannelInv]: the specification, a queue of reply slots, and
      the invariant.  [ChannelProps], [ChannelStop], [ChannelSend]: the properties.
    - [BackendPool] (src/backend_pool.cpp): choosing a connection.
    - [ClientSession] (src/client_session.cpp): what happens inside one session, with
      its invariant in [SessionInv].
    - [Worker] (src/worker.cpp, and the parts of src/client_session.cpp that call the
      pool or the worker): the state that the coroutines of a thread share, with the
      callbacks between channels and sessions.  [WorkerInv], [WorkerSteps]: the
      invariant and that every step keeps it.  [WorkerFrame]: what steps leave alone.
      [WorkerProps], [PoolStop], [SessionEnd], [Delivery], [InputReady]: the properties.
      [DataFlow], [PathOps], [DataPath]: from the byte strings of this model to the blocks of
      [Buffer].  [WorkerDemo]: a run.
    - [ProxyServer] (src/proxy_server.cpp, src/main.cpp): the acceptor, the
      interleaving of the threads, start-up.
    - [ProxyBench] (bench/proxy_bench.cpp): the load generator that measures the
      proxy from outside; its environment answers one call after the other.
      A write on a broken connection raises SIGPIPE, which kills it.
      [BenchReport]: its [main], the line it prints, and how
      bench/run_single_worker_qps.sh reads that line.  [Double]: the two
      floating-point operations it uses, over the binary64 format of [SpecFloat];
      [NumberText]: how a stream prints a number, and a reader of such texts.

    ** How code is modelled

    A class is a record with the members of the class; an operation is a function
    with the name of the method, prefixed where two classes share it.  [std::size_t]
    that measures memory is [nat]; counters and sizes that are configured or that
    wrap are [Z], with the wrap-around ([u32], [u64]) written where the code
    computes.  A coroutine is cut at its points of suspension: a program counter
    ([RunPc], [ReaderPc], [SessionReader], [SessionWriter], [MainPc], [AcceptPc]) says
    where it is, and a step runs it to the next one with the answer of the kernel as
    an argument.  [channel_step], [worker_step] and [server_step] are these machines,
    [channel_enabled], [worker_enabled] and [server_enabled] say which steps can be
    taken, and the [reachable] predicates close over them.  A worker is one thread,
    so its steps do not overlap; the only state shared between threads, the queue of
    accepted descriptors, is accessed in the steps the lock and the atomic flag
    allow.  [None] is undefined behaviour (a dangling pointer, an index out of range)
    or a loop out of fuel; the theorems rule out both.  Every step reports what it
    did; the trace of a worker is what its histories and the monitor of [Delivery]
    read.  Sessions and channels hold byte strings where the program has buffers and
    chains; [DataFlow] replays the trace on the strings alone, [PathOps] turns its
    events into calls of src/buffer.cpp, and [DataPath] runs them on shared blocks.

    ** What the theorems show

    - Clients: responses come in the order of the requests
      ([responses_in_order]); each reply answers the command it was given for
      ([replies_answer_their_commands]); a session that ends without abort has
      answered everything ([graceful_end_is_complete]); no byte is lost or invented
      ([client_bytes_conserved]), and what is taken from a client is what its channel
      sends ([replies_answer_their_commands]); only admitted commands are forwarded
      ([only_admitted_commands_forwarded]).
    - Life cycle: nothing goes wrong in any reachable state of a worker or of the
      process ([worker_never_goes_wrong], [proxy_never_goes_wrong]); no channel refers
      to a session that is gone ([no_dangling_owner]); counters of sessions and
      channels agree ([pending_replies_exact], [channel_counters]); sessions finish
      once ([finished_exactly_once]); no accepted client is forgotten
      ([no_descriptor_lost], [clients_round_robin]).
    - Wake-ups: no coroutine sleeps through its work ([channel_no_lost_wakeup],
      [session_no_lost_wakeup], [signal_remembers]) or asks for bytes while a complete
      request or reply is buffered ([input_never_waits]), which its next step takes
      ([complete_request_taken], [complete_reply_dispatched]); a queued batch is sent within a
      bounded number of the writer's steps ([queued_batch_is_sent]); a stopped channel
      stops ([stop_terminates]), stopping the pool leaves nobody waiting ([pool_stop_stops]),
      a session that was aborted, or drains and has all its replies, ends
      ([settled_session_ends]).
    - Channels: the refinement to a queue of reply slots ([channel_refines_fifo],
      [replies_in_order]), descriptors closed only when unused
      ([socket_closed_when_quiet], [descriptors_conserved]), the choice of a channel
      ([select_spec]).
    - Buffers: the refinement to byte strings and exact reference counts
      ([buffer_refines_bytes], [refcounts_exact]); in every run of a worker the buffers
      hold the strings of its state ([worker_bytes_in_buffers]).
    - Parsing and I/O: termination and memory bound of the arena ([unpack_total],
      [unpack_equals_reference]), framing ([peekFrame_spec], [nextReplyFrame_spec],
      [peek_streaming]), [writeAll] under partial I/O, and exactly what [readSome]
      appends and returns for any answers of the kernel ([readSome_spec]).
    - Rules and configuration: the accepted commands and the errors, the bounds a
      loaded configuration satisfies, what the number parsers accept, and that a
      file of settings, blanks and comments does what its settings say
      ([config_file_roundtrip]).
    - The load generator counts the completed rounds exactly and, unless the size of
      a round is negative, no more than the replies it read, however they arrive in
      pieces ([bench_counts_served]); unless it is told to run for no time, the rate it
      prints is the quotient up to a relative error of 5.0001e-6, which the script
      reads correctly below a million and wrongly above ([bench_rate_printed]).

    ** Fuel

    Loops that wait on a signal run twice at most, since the first [wait] uses up a
    pending notification.  [scan_loop] consumes a byte per round, the arena doubles,
    [append] and [consume] use up bytes or blocks: the fuel is the number of these,
    and a totality theorem accompanies every such loop.  [exponent10] looks through
    the decimal exponents of a double.  [writeAll] and [readSome]
    take the list of the kernel's answers instead.

    ** Parameters

    The coroutine library, the connection helpers and the decoder are other projects:
    [CoCond] with [CoCondLaws] (one waiter; a signal makes it runnable), [FdNotifier]
    (readable after a notification), [UnpackOne] with [UnpackOneLaws] (a decoder that
    depends on nothing but the bytes and the arena; [UnpackOneStreams] where values
    arrive in pieces), [PackError], [PackCommand], [Endpoint_parse], the file system,
    how the C library spells a NaN, and [SetOrder], the order of a hash set.  Each
    has an instance.

    ** Not modelled

    The contents of other projects; failure to create a thread, and [Worker::join],
    which nothing calls; destructors at process exit; messages on standard error.
    Memory exhaustion is modelled only where the code handles it (the arena of
    [unpack]).  What is left of the sources are declarations, includes and accessors
    that the records' fields stand for.  Batches of 2^32 commands or more are excluded by hypothesis where
    the code would cut their count to 32 bits; so are clients with nearly 2^64
    replies outstanding. *)

From Stdlib Require Export Ascii.
From stdpp Require Export base tactics strings gmap numbers relations option list.


#[global] Arguments Nat.min : simpl never.
#[global] Arguments Nat.sub : simpl never.

(** ** Bytes and strings *)

(** A [char] of the program is an 8-bit [ascii]; a [std::string_view] over raw
    memory is a list of them. *)
Abbreviation byte := Ascii.ascii.
Abbreviation bytes := (list Ascii.ascii).

(** The bytes of a string. *)
Abbreviation str := String.list_ascii_of_string.

(** ** Machine integers *)

Definition u16_max : Z := 65535.

(** [uint32_t] and [std::size_t] arithmetic wraps around. *)
Definition u32 (z : Z) : Z := (z `mod` 2 ^ 32)%Z.
Definition u64 (z : Z) : Z := (z `mod` 2 ^ 64)%Z.

Lemma u32_small z : (0 <= z < 2 ^ 32)%Z -> u32 z = z.
Proof. apply Z.mod_small. Qed.

Lemma u64_small z : (0 <= z < 2 ^ 64)%Z -> u64 z = z.
Proof. apply Z.mod_small. Qed.

Lemma u32_range z : (0 <= u32 z < 2 ^ 32)%Z.
Proof. apply Z.mod_pos_bound. lia. Qed.

Lemma u64_range z : (0 <= u64 z < 2 ^ 64)%Z.
Proof. apply Z.mod_pos_bound. lia. Qed.

Lemma u64_add x y : u64 (u64 x + u64 y) = u64 (x + y).
Proof. unfold u64. by rewrite <-Z.add_mod by lia. Qed.

(** [autorewrite with width] removes the wrap-around where nothing overflows. *)
Create Rewrite HintDb width.
#[export] Hint Rewrite u32_small u64_small using lia : width.

(** ** Lists and maps *)

(** Building a map by a sequence of insertions. *)
Lemma foldl_insert_list_to_map {K A} `{Countable K} (l : list (K * A)) (m : gmap K A) :
  foldl (λ m e, <[e.1 := e.2]> m) m l = list_to_map (reverse l) ∪ m.
Proof.
  revert m. induction l as [|[k a] l IH]; intros m; simpl.
  - by rewrite (left_id_L ∅ (∪)).
  - rewrite IH, reverse_cons, list_to_map_app. simpl.
    by rewrite <-(assoc_L (∪)), insert_empty, <-insert_union_singleton_l.
Qed.

Lemma foldl_delete_lookup {K A} `{Countable K} (l : list K) (m : gmap K A) b :
  foldl (λ m a, delete a m) m l !! b = if decide (b ∈ l) then None else m !! b.
Proof.
  revert m. induction l as [|a l IH]; intros m; simpl; [done|].
  rewrite IH. destruct (decide (b = a)) as [->|Hab].
  - rewrite lookup_delete_eq. repeat case_decide; set_solver.
  - rewrite lookup_delete_ne by done. repeat case_decide; set_solver.
Qed.

Lemma foldl_fmap_r {A B C} (f : C → B → C) (g : A → B) (l : list A) (c : C) :
  foldl f c (g <$> l) = foldl (λ c x, f c (g x)) c l.
Proof. revert c. induction l as [|x l IH]; intros c; simpl; auto. Qed.

Lemma foldl_ext {A B} (f g : B → A → B) (l : list A) (b0 : B) :
  (∀ b x, f b x = g b x) → foldl f b0 l = foldl g b0 l.
Proof. intros Hfg. revert b0. induction l as [|x l IH]; intros b0; simpl; [done|]. by rewrite Hfg, IH. Qed.

(** A window of a list depends only on the prefix that contains it. *)
Lemma take_drop_prefix {A} (off len e : nat) (d d' : list A) :
  off + len ≤ e → take e d' = take e d →
  take len (drop off d') = take len (drop off d).
Proof.
  intros Hle Ht. rewrite !take_drop_commute.
  apply (f_equal (take (off + len))) in Ht. rewrite !take_take in Ht.
  by rewrite !Nat.min_l in Ht by lia; rewrite Ht.
Qed.

(** ** Stateful code that may go wrong

    [ST S A] is code that reads and writes a store [S] and returns an [A].
    [None] stands for behaviour the C++ standard leaves undefined (a dangling
    pointer, an access outside an array) and for a loop that has not finished
    within its fuel; a theorem that establishes [wp] rules both out. *)
Definition ST (S A : Type) : Type := S → option (A * S).

#[global] Instance ST_ret {S} : MRet (ST S) := λ A x s, Some (x, s).
#[global] Instance ST_bind {S} : MBind (ST S) := λ A B k m s,
  match m s with Some (a, s') => k a s' | None => None end.

Definition st_get {S} : ST S S := λ s, Some (s, s).
Definition st_put {S} (s : S) : ST S unit := λ _, Some (tt, s).
Definition st_wrong {S A} : ST S A := λ _, None.
Definition st_opt {S A} (o : option A) : ST S A := λ s, (λ a, (a, s)) <$> o.
Definition st_assert {S} (P : Prop) `{Decision P} : ST S unit :=
  if decide P then mret tt else st_wrong.

(** [wp m Q s]: run on [s], [m] does not go wrong and ends with a result and a
    store that satisfy [Q]. *)
Definition wp {S A} (m : ST S A) (Q : A → S → Prop) (s : S) : Prop :=
  match m s with Some (a, s') => Q a s' | None => False end.

Section wp.
Context {S A B : Type}.
Implicit Types (s : S) (m : ST S A).

Lemma wp_ret (x : A) Q s : Q x s → wp (mret x) Q s.
Proof. done. Qed.

Lemma wp_bind m (k : A → ST S B) Q s :
  wp m (λ a, wp (k a) Q) s → wp (m ≫= k) Q s.
Proof. unfold wp, mbind, ST_bind. by destruct (m s) as [[a s']|]. Qed.

Lemma wp_bind_inv m (k : A → ST S B) Q s :
  wp (m ≫= k) Q s → wp m (λ a, wp (k a) Q) s.
Proof. unfold wp, mbind, ST_bind. by destruct (m s) as [[a s']|]. Qed.

Lemma wp_mono m (Q Q' : A → S → Prop) s :
  wp m Q s → (∀ a s', Q a s' → Q' a s') → wp m Q' s.
Proof. unfold wp. destruct (m s) as [[a s']|]; auto. Qed.

Lemma wp_get (Q : S → S → Prop) s : Q s s → wp st_get Q s.
Proof. done. Qed.

Lemma wp_put (Q : unit → S → Prop) s s' : Q tt s' → wp (st_put s') Q s.
Proof. done. Qed.

Lemma wp_opt (o : option A) a (Q : A → S → Prop) s :
  o = Some a → Q a s → wp (st_opt o) Q s.
Proof. by intros ->. Qed.

Lemma wp_assert (P : Prop) `{Decision P} (Q : unit → S → Prop) s :
  P → Q tt s → wp (st_assert P) Q s.
Proof. intros HP HQ. unfold st_assert. by rewrite decide_True. Qed.

Lemma wp_run m Q s :
  wp m Q s → ∃ a s', m s = Some (a, s') ∧ Q a s'.
Proof. unfold wp. destruct (m s) as [[a s']|]; [eauto|done]. Qed.
End wp.

Lemma imap_seq {A B} (f : nat → B) (k : list A) : imap (λ i _, f i) k = f <$> seq 0 (length k).
Proof.
  revert f. induction k as [|x k IH]; intros f; [done|]. rewrite imap_cons. csimpl. f_equal.
  rewrite <-fmap_S_seq, <-list_fmap_compose. apply (IH (f ∘ S)).
Qed.

(** A sequence that ran ran its two parts. *)
Lemma ST_bind_Some {S A B} (m : ST S A) (k : A → ST S B) s r :
  (m ≫= k) s = Some r → ∃ a s', m s = Some (a, s') ∧ k a s' = Some r.
Proof. unfold mbind, ST_bind. destruct (m s) as [[a s']|]; [eauto|done]. Qed.

Lemma st_opt_Some {S A} (o : option A) (s s' : S) a : st_opt o s = Some (a, s') → o = Some a ∧ s' = s.
Proof. unfold st_opt. destruct o; simpl; [|done]. by intros [= -> ->]. Qed.

Lemma wp_bind_assoc {S A B C} (m : ST S A) (k : A → ST S B) (k' : B → ST S C) Q s :
  wp ((m ≫= k) ≫= k') Q s → wp (m ≫= λ a, k a ≫= k') Q s.
Proof. unfold wp, mbind, ST_bind. by destruct (m s) as [[a s']|]. Qed.

(** [wp_bind_on H] runs the first command of a sequence with the specification
    [H] and continues with its postcondition. *)
Tactic Notation "wp_bind_on" uconstr(H) :=
  apply wp_bind; eapply wp_mono; [eapply H|].
