(* ===== verification/Status.v ===== *)
(** * Status: the error values of the proxy (include/redis_proxy/status.h) *)
From S2P Require Import Prelude.

Inductive StatusCode :=
  | kOk
  | kInvalidArgument
  | kIoError
  | kProtocolError
  | kClosed.

#[global] Instance StatusCode_eq_dec : EqDecision StatusCode.
Proof. solve_decision. Defined.

Record Status := mkStatus { code_ : StatusCode; message_ : string }.

#[global] Instance Status_eq_dec : EqDecision Status.
Proof. solve_decision. Defined.

Definition Status_Ok : Status := mkStatus kOk "".
Definition Status_InvalidArgument (m : string) : Status := mkStatus kInvalidArgument m.
Definition Status_IoError (m : string) : Status := mkStatus kIoError m.
Definition Status_ProtocolError (m : string) : Status := mkStatus kProtocolError m.
Definition Status_Closed (m : string) : Status := mkStatus kClosed m.

Definition Status_ok (s : Status) : bool := bool_decide (code_ s = kOk).
