(* ===== verification/CommandRules.v ===== *)
(** * CommandRules: the command allow-list (src/command_rules.cpp)

    [CommandRules] is the [unordered_map] from upper-case command names to
    rules; [Default] is the table the proxy starts with; [validate] is the
    check [ClientSession::readerLoop] applies to every parsed command.  The
    theorems characterise [validate] on the default table completely: which
    commands and argument counts pass, and which error every other one gets. *)
From S2P Require Import Prelude Status.

(** ** Data *)

Record CommandRule := mkCommandRule {
  allowed : bool;
  min_argc : Z;
  max_argc : Z;
  read : bool;
  write : bool;
  dangerous : bool
}.

Abbreviation CommandRules := (gmap string CommandRule).

(** ** Operations *)

(** [std::toupper] in the "C" locale on an [unsigned char]: exactly the letters
    a-z are mapped. *)
Definition toupper (c : ascii) : ascii :=
  let n := N_of_ascii c in
  if decide (97 <= n <= 122)%N then ascii_of_N (n - 32) else c.

Fixpoint normalize (command : string) : string :=
  match command with
  | EmptyString => EmptyString
  | String c rest => String (toupper c) (normalize rest)
  end.

Definition allow (command : string) (min_argc max_argc : Z) (read write : bool)
    (rules : CommandRules) : CommandRules :=
  <[normalize command := mkCommandRule true min_argc max_argc read write false]> rules.

Definition deny (command : string) (rules : CommandRules) : CommandRules :=
  <[normalize command := mkCommandRule false 0 0 false false true]> rules.

(** The [rules.allow(...)] statements of [Default], in source order, and the
    [denied] array. *)
Definition default_allowed : list (string * Z * Z * bool * bool) :=
  [("PING", 1, 2, true, false);
   ("GET", 2, 2, true, false);
   ("MGET", 2, u16_max, true, false);
   ("SET", 3, u16_max, false, true);
   ("MSET", 3, u16_max, false, true);
   ("MSETNX", 3, u16_max, false, true);
   ("GETSET", 3, 3, false, true);
   ("SETNX", 3, 3, false, true);
   ("SETEX", 4, 4, false, true);
   ("PSETEX", 4, 4, false, true);
   ("GETEX", 2, u16_max, true, false);
   ("GETDEL", 2, 2, false, true);
   ("APPEND", 3, 3, false, true);
   ("STRLEN", 2, 2, true, false);
   ("GETRANGE", 4, 4, true, false);
   ("SETRANGE", 4, 4, false, true);
   ("INCR", 2, 2, false, true);
   ("DECR", 2, 2, false, true);
   ("INCRBY", 3, 3, false, true);
   ("DECRBY", 3, 3, false, true);
   ("INCRBYFLOAT", 3, 3, false, true);
   ("SADD", 3, u16_max, false, true);
   ("SREM", 3, u16_max, false, true);
   ("SMEMBERS", 2, 2, true, false);
   ("SISMEMBER", 3, 3, true, false);
   ("SMISMEMBER", 3, u16_max, true, false);
   ("SCARD", 2, 2, true, false);
   ("SPOP", 2, 3, false, true);
   ("SRANDMEMBER", 2, 3, true, false);
   ("SMOVE", 4, 4, false, true);
   ("SINTER", 2, u16_max, true, false);
   ("SINTERSTORE", 3, u16_max, false, true);
   ("SUNION", 2, u16_max, true, false);
   ("SUNIONSTORE", 3, u16_max, false, true);
   ("SDIFF", 2, u16_max, true, false);
   ("SDIFFSTORE", 3, u16_max, false, true);
   ("LPUSH", 3, u16_max, false, true);
   ("RPUSH", 3, u16_max, false, true);
   ("LPUSHX", 3, u16_max, false, true);
   ("RPUSHX", 3, u16_max, false, true);
   ("LPOP", 2, 3, false, true);
   ("RPOP", 2, 3, false, true);
   ("LLEN", 2, 2, true, false);
   ("LRANGE", 4, 4, true, false);
   ("LINDEX", 3, 3, true, false);
   ("LSET", 4, 4, false, true);
   ("LINSERT", 5, 5, false, true);
   ("LREM", 4, 4, false, true);
   ("LTRIM", 4, 4, false, true);
   ("LPOS", 3, u16_max, true, false);
   ("LMOVE", 5, 5, false, true);
   ("RPOPLPUSH", 3, 3, false, true);
   ("HSET", 4, u16_max, false, true);
   ("HGET", 3, 3, true, false);
   ("HMSET", 4, u16_max, false, true);
   ("HMGET", 3, u16_max, true, false);
   ("HGETALL", 2, 2, true, false);
   ("HDEL", 3, u16_max, false, true);
   ("HEXISTS", 3, 3, true, false);
   ("HKEYS", 2, 2, true, false);
   ("HVALS", 2, 2, true, false);
   ("HLEN", 2, 2, true, false);
   ("HINCRBY", 4, 4, false, true);
   ("HINCRBYFLOAT", 4, 4, false, true);
   ("HSETNX", 4, 4, false, true);
   ("HSTRLEN", 3, 3, true, false);
   ("HRANDFIELD", 2, 3, true, false);
   ("ZADD", 4, u16_max, false, true);
   ("ZREM", 3, u16_max, false, true);
   ("ZSCORE", 3, 3, true, false);
   ("ZMSCORE", 3, u16_max, true, false);
   ("ZINCRBY", 4, 4, false, true);
   ("ZCARD", 2, 2, true, false);
   ("ZCOUNT", 4, 4, true, false);
   ("ZLEXCOUNT", 4, 4, true, false);
   ("ZRANGE", 4, u16_max, true, false);
   ("ZREVRANGE", 4, u16_max, true, false);
   ("ZRANGEBYSCORE", 4, u16_max, true, false);
   ("ZREVRANGEBYSCORE", 4, u16_max, true, false);
   ("ZRANGEBYLEX", 4, u16_max, true, false);
   ("ZREVRANGEBYLEX", 4, u16_max, true, false);
   ("ZRANGESTORE", 5, u16_max, false, true);
   ("ZRANK", 3, 3, true, false);
   ("ZREVRANK", 3, 3, true, false);
   ("ZREMRANGEBYRANK", 4, 4, false, true);
   ("ZREMRANGEBYSCORE", 4, 4, false, true);
   ("ZREMRANGEBYLEX", 4, 4, false, true);
   ("ZPOPMIN", 2, 3, false, true);
   ("ZPOPMAX", 2, 3, false, true);
   ("ZINTER", 3, u16_max, true, false);
   ("ZINTERSTORE", 3, u16_max, false, true);
   ("ZUNION", 3, u16_max, true, false);
   ("ZUNIONSTORE", 3, u16_max, false, true);
   ("ZDIFF", 3, u16_max, true, false);
   ("ZDIFFSTORE", 3, u16_max, false, true);
   ("ZRANDMEMBER", 2, 3, true, false);
   ("EXPIREAT", 3, 4, false, true);
   ("PTTL", 2, 2, true, false);
   ("PERSIST", 2, 2, false, true);
   ("TYPE", 2, 2, true, false);
   ("RENAME", 3, 3, false, true);
   ("RENAMENX", 3, 3, false, true);
   ("UNLINK", 2, u16_max, false, true);
   ("TOUCH", 2, u16_max, false, true);
   ("DEL", 2, u16_max, false, true);
   ("EXISTS", 2, u16_max, true, false);
   ("EXPIRE", 3, 4, false, true);
   ("TTL", 2, 2, true, false)]%Z.

Definition default_denied : list string :=
  ["AUTH"; "SELECT"; "CLIENT"; "HELLO"; "MULTI"; "EXEC"; "DISCARD"; "WATCH";
   "UNWATCH"; "SUBSCRIBE"; "PSUBSCRIBE"; "SSUBSCRIBE"; "UNSUBSCRIBE";
   "PUNSUBSCRIBE"; "SUNSUBSCRIBE"; "PUBLISH"; "PUBSUB"; "SPUBLISH"; "BLPOP";
   "BRPOP"; "BLMOVE"; "BLMPOP"; "BZPOPMIN"; "BZPOPMAX"; "BZMPOP";
   "BRPOPLPUSH"; "XREAD"; "XREADGROUP"; "DEBUG"; "MODULE"; "CONFIG";
   "SHUTDOWN"; "SAVE"; "BGSAVE"; "BGREWRITEAOF"; "FLUSHDB"; "FLUSHALL";
   "KEYS"; "SCAN"; "SCRIPT"; "EVAL"; "EVALSHA"; "FUNCTION"; "ACL"; "MONITOR";
   "SYNC"; "PSYNC"].

(** The body of [Default]: the [allow] statements, then the loop over [denied]. *)
Definition build_rules (allow_rows : list (string * Z * Z * bool * bool))
    (deny_names : list string) : CommandRules :=
  let rules := foldl (λ rules '(command, lo, hi, r, w), allow command lo hi r w rules)
                     ∅ allow_rows in
  foldl (λ rules command, deny command rules) rules deny_names.

Definition Default : CommandRules := build_rules default_allowed default_denied.

Definition validate (rules : CommandRules) (command : string) (argc : Z) : Status :=
  match rules !! normalize command with
  | None => Status_ProtocolError "ERR proxy rejected unknown command"
  | Some rule =>
      if negb (allowed rule) || dangerous rule then
        Status_ProtocolError "ERR proxy rejected command"
      else if bool_decide (argc < min_argc rule)%Z || bool_decide (argc > max_argc rule)%Z then
        Status_ProtocolError "ERR wrong number of arguments"
      else Status_Ok
  end.

Definition setRuleForTest (command : string) (rule : CommandRule)
    (rules : CommandRules) : CommandRules :=
  <[normalize command := rule]> rules.

(** ** The default table as an association list *)

Definition allow_entry (row : string * Z * Z * bool * bool) : string * CommandRule :=
  let '(command, lo, hi, r, w) := row in (command, mkCommandRule true lo hi r w false).

Definition deny_entry (command : string) : string * CommandRule :=
  (command, mkCommandRule false 0 0 false false true).

Definition entries (allow_rows : list (string * Z * Z * bool * bool))
    (deny_names : list string) : list (string * CommandRule) :=
  (allow_entry <$> allow_rows) ++ (deny_entry <$> deny_names).

Definition default_entries : list (string * CommandRule) :=
  entries default_allowed default_denied.

(** A row of the allow table is sane: a command counts itself, the bounds are
    ordered 16-bit numbers, and it is classified as a read or as a write. *)
Definition row_ok (row : string * Z * Z * bool * bool) : bool :=
  let '(command, lo, hi, r, w) := row in
  bool_decide (1 <= lo <= hi)%Z && bool_decide (hi <= u16_max)%Z && xorb r w.

(** ** Lemmas *)

Lemma toupper_idemp c : toupper (toupper c) = toupper c.
Proof. destruct c as [[] [] [] [] [] [] [] []]; reflexivity. Qed.

Lemma normalize_idemp s : normalize (normalize s) = normalize s.
Proof. induction s as [|c s IH]; simpl; [done|]. by rewrite toupper_idemp, IH. Qed.

(** The lemmas hold for any two tables of upper-case names without repetition. *)
Section tables.
Context (A : list (string * Z * Z * bool * bool)) (D : list string).
Context (Hnodup : NoDup (entries A D).*1).
Context (Hupper : Forall (λ k, normalize k = k) (entries A D).*1).

(** [allow] and [deny] insert normalized names, so the table is built by
    inserting the normalized entries one after the other. *)
Lemma build_rules_foldl :
  build_rules A D =
  foldl (λ m e, <[e.1 := e.2]> m) ∅ (prod_map normalize id <$> entries A D).
Proof.
  unfold build_rules, entries.
  rewrite foldl_fmap_r, foldl_app, !foldl_fmap_r.
  erewrite (foldl_ext _ _ A); [done|].
  by intros rules [[[[? ?] ?] ?] ?].
Qed.

Lemma build_rules_map : build_rules A D = list_to_map (entries A D).
Proof.
  rewrite build_rules_foldl.
  assert (prod_map normalize id <$> entries A D = entries A D) as ->.
  { rewrite <-(list_fmap_id (entries A D)) at 2. apply list_fmap_ext.
    intros i [k rule] Hi. unfold prod_map. simpl. f_equal.
    apply (proj1 (list.Forall_forall _ _) Hupper).
    apply list_elem_of_fmap. exists (k, rule). split; [done|].
    by eapply list_elem_of_lookup_2. }
  rewrite foldl_insert_list_to_map, (right_id_L ∅ (∪)).
  apply list_to_map_proper; [|apply reverse_Permutation].
  by rewrite fmap_reverse, reverse_Permutation.
Qed.

Lemma build_rules_lookup k rule :
  build_rules A D !! k = Some rule ↔ (k, rule) ∈ entries A D.
Proof. rewrite build_rules_map. symmetry. by apply elem_of_list_to_map. Qed.

Lemma build_rules_allowed k lo hi r w :
  (k, lo, hi, r, w) ∈ A →
  build_rules A D !! k = Some (mkCommandRule true lo hi r w false).
Proof.
  intros Hin. apply build_rules_lookup, elem_of_app. left.
  apply list_elem_of_fmap. by exists (k, lo, hi, r, w).
Qed.

Lemma build_rules_denied k :
  k ∈ D → build_rules A D !! k = Some (mkCommandRule false 0 0 false false true).
Proof.
  intros Hin. apply build_rules_lookup, elem_of_app. right.
  apply list_elem_of_fmap. by exists k.
Qed.

Lemma build_rules_None k : build_rules A D !! k = None ↔ k ∉ (entries A D).*1.
Proof. rewrite build_rules_map. symmetry. apply not_elem_of_list_to_map. Qed.

(** A name is a row of the allow table, or a denied name, or neither. *)
Lemma build_rules_classify k :
  (∃ lo hi r w, (k, lo, hi, r, w) ∈ A ∧
     build_rules A D !! k = Some (mkCommandRule true lo hi r w false)) ∨
  (k ∈ D ∧ build_rules A D !! k = Some (mkCommandRule false 0 0 false false true)) ∨
  build_rules A D !! k = None.
Proof.
  destruct (build_rules A D !! k) as [rule|] eqn:E; [|by auto].
  apply build_rules_lookup in E. unfold entries in E.
  rewrite elem_of_app, !list_elem_of_fmap in E.
  destruct E as [([[[[? ?] ?] ?] ?] & Heq & Hin)|(c & Heq & Hin)];
    cbn in Heq; injection Heq as -> ->; [left; by repeat eexists|by auto].
Qed.

Lemma validate_ok_iff command argc :
  Status_ok (validate (build_rules A D) command argc) = true ↔
  ∃ lo hi r w, (normalize command, lo, hi, r, w) ∈ A ∧ (lo <= argc <= hi)%Z.
Proof.
  unfold validate. split.
  - destruct (build_rules_classify (normalize command)) as
      [(lo & hi & r & w & Hin & ->)|[[Hin ->]| ->]]; simpl; [|done..].
    case_bool_decide; [done|]. case_bool_decide; [done|]. simpl.
    intros _. exists lo, hi, r, w. split; [done|lia].
  - intros (lo & hi & r & w & Hin & Hr).
    rewrite (build_rules_allowed _ _ _ _ _ Hin). simpl.
    by rewrite !bool_decide_eq_false_2 by lia.
Qed.

Lemma validate_errors command argc :
  (validate (build_rules A D) command argc = Status_ProtocolError "ERR proxy rejected command"
     ↔ normalize command ∈ D) ∧
  (validate (build_rules A D) command argc = Status_ProtocolError "ERR wrong number of arguments"
     ↔ ∃ lo hi r w, (normalize command, lo, hi, r, w) ∈ A ∧ (argc < lo ∨ hi < argc)%Z) ∧
  (validate (build_rules A D) command argc
     = Status_ProtocolError "ERR proxy rejected unknown command"
     ↔ normalize command ∉ (entries A D).*1).
Proof.
  rewrite <-build_rules_None. unfold validate.
  assert (normalize command ∈ D → build_rules A D !! normalize command =
            Some (mkCommandRule false 0 0 false false true)) as HD
    by apply build_rules_denied.
  assert (∀ lo hi r w, (normalize command, lo, hi, r, w) ∈ A →
            build_rules A D !! normalize command = Some (mkCommandRule true lo hi r w false))
    as HA by (intros *; apply build_rules_allowed).
  destruct (build_rules_classify (normalize command)) as
    [(lo & hi & r & w & Hin & HE)|[[Hin HE]|HE]]; rewrite HE in HD, HA |- *; simpl.
  - assert (∀ lo' hi' r' w', (normalize command, lo', hi', r', w') ∈ A → lo' = lo ∧ hi' = hi)
      as Hfun by (intros * Hin'%HA; by simplify_eq).
    do 2 case_bool_decide; simpl; split_and!; split; try done;
      try (intros _; exists lo, hi, r, w; split; [done|lia]);
      try (by intros ?%HD); intros (? & ? & ? & ? & [-> ->]%Hfun & ?); lia.
  - split_and!; split; try done. intros (? & ? & ? & ? & ?%HA & ?); done.
  - split_and!; split; try done; [by intros ?%HD|].
    intros (? & ? & ? & ? & ?%HA & ?); done.
Qed.
End tables.

Lemma default_entries_nodup : NoDup default_entries.*1.
Proof. apply (bool_decide_unpack _). vm_compute. exact I. Qed.

Lemma default_entries_upper : Forall (λ k, normalize k = k) default_entries.*1.
Proof. apply (bool_decide_unpack _). vm_compute. exact I. Qed.

(** ** Properties *)

(** C25: With the default rules a command passes validation exactly when its
    upper-cased name is a row of the allow table and its argument count lies
    between the row's bounds. *)
Theorem validate_default_ok_iff (command : string) (argc : Z) :
  Status_ok (validate Default command argc) = true ↔
  ∃ lo hi r w, (normalize command, lo, hi, r, w) ∈ default_allowed ∧ (lo <= argc <= hi)%Z.
Proof. apply validate_ok_iff; [apply default_entries_nodup|apply default_entries_upper]. Qed.

(** C26: Every other outcome of the default table is one of three protocol
    errors, each on exactly its own inputs: a denied command (in any letter
    case, with any number of arguments) is rejected as such, a known command
    with a count outside its bounds gets the arity error, and anything else is
    unknown. *)
Theorem validate_default_errors (command : string) (argc : Z) :
  (validate Default command argc = Status_ProtocolError "ERR proxy rejected command"
     ↔ normalize command ∈ default_denied) ∧
  (validate Default command argc = Status_ProtocolError "ERR wrong number of arguments"
     ↔ ∃ lo hi r w, (normalize command, lo, hi, r, w) ∈ default_allowed ∧
                    (argc < lo ∨ hi < argc)%Z) ∧
  (validate Default command argc = Status_ProtocolError "ERR proxy rejected unknown command"
     ↔ normalize command ∉ default_entries.*1).
Proof. apply validate_errors; [apply default_entries_nodup|apply default_entries_upper]. Qed.

(** Validation does not depend on the letter case of the command, for any
    table: a name and its upper-cased form get the same answer. *)
Theorem validate_case_insensitive (rules : CommandRules) (c c' : string) (argc : Z) :
  normalize c = normalize c' → validate rules c argc = validate rules c' argc ∧
  validate rules (normalize c) argc = validate rules c argc.
Proof. unfold validate. intros ->. by rewrite normalize_idemp. Qed.

(** The rule updates are local: after [deny] the command is rejected with
    every argument count, after [setRuleForTest] it follows the new rule, and
    in both cases no other command changes its answer. *)
Theorem rule_update_local (rules : CommandRules) (c c' : string) (rule : CommandRule) (argc : Z) :
  validate (deny c rules) c argc = Status_ProtocolError "ERR proxy rejected command" ∧
  (Status_ok (validate (setRuleForTest c rule rules) c argc) = true ↔
     allowed rule = true ∧ dangerous rule = false ∧ (min_argc rule <= argc <= max_argc rule)%Z) ∧
  (normalize c' ≠ normalize c →
     validate (deny c rules) c' argc = validate rules c' argc ∧
     validate (setRuleForTest c rule rules) c' argc = validate rules c' argc).
Proof.
  unfold validate, deny, setRuleForTest. rewrite !lookup_insert_eq. split_and!.
  - done.
  - destruct (allowed rule), (dangerous rule); simpl;
      try (split; [done|by intros (? & ? & ?)]).
    case_bool_decide; simpl; [split; [done|intros (_ & _ & ?); lia]|].
    case_bool_decide; simpl; [split; [done|intros (_ & _ & ?); lia]|].
    split; [intros _; split_and!; [done|done|lia|lia]|done].
  - intros Hne. by rewrite !lookup_insert_ne.
Qed.

(** Every row of the allow table is sane (1 <= min <= max <= UINT16_MAX, a
    read or a write and not both), its name is already upper case, and no name
    appears twice or in both tables, so the order of the statements of
    [Default] does not matter. *)
Theorem default_table_sane :
  forallb row_ok default_allowed = true ∧
  (∀ k, k ∈ default_entries.*1 → normalize k = k) ∧
  NoDup default_entries.*1 ∧
  (∀ es, es ≡ₚ default_entries → Default = list_to_map es).
Proof.
  split_and!.
  - vm_compute. reflexivity.
  - apply list.Forall_forall, default_entries_upper.
  - apply default_entries_nodup.
  - intros es Hp. unfold Default.
    rewrite (build_rules_map _ _ default_entries_nodup default_entries_upper). symmetry.
    apply list_to_map_proper; [|exact Hp].
    rewrite Hp. apply default_entries_nodup.
Qed.
