(* ===== verification/Buffer.v ===== *)
(** * Buffer: reference-counted blocks, slices, chains and I/O buffers
    (include/redis_proxy/buffer.h, src/buffer.cpp)

    The store is a [BlockPool]: its free list and the blocks it created.  Slices
    and I/O buffers hold pointers into that store, so that two of them may share
    a block, exactly as in the program; a block goes back to the free list when
    its reference count drops to zero.  Quantities of type [std::size_t] that
    measure memory are [nat]; the 32-bit reference count is a [Z] kept modulo
    2^32.  Undefined behaviour (a dangling pointer, a copy past the end of a
    block) makes an operation go wrong. *)
From S2P Require Import Prelude.

(** ** Data *)

(** The address of a [BufferBlock]. *)
Abbreviation ptr := nat.

Record BufferBlock := mkBufferBlock {
  data_ : bytes;
  capacity_ : nat;
  begin_ : nat;
  end_ : nat;
  refcount_ : Z
}.

(** [free_] is the vector of recycled blocks, its [back()] first; [heap] holds
    the blocks allocated so far, at the addresses below [brk]; [uninit] is what
    [new char[capacity]] finds in memory. *)
Record BlockPool := mkBlockPool {
  block_size_ : nat;
  free_ : list ptr;
  heap : gmap ptr BufferBlock;
  brk : ptr;
  uninit : ptr → nat → byte
}.

Record BufferSlice := mkBufferSlice {
  block_ : option ptr;
  offset_ : nat;
  length_ : nat
}.

Record BufferChain := mkBufferChain {
  slices_ : list BufferSlice;
  total_ : nat
}.

Record IoBuffer := mkIoBuffer {
  blocks_ : list ptr;
  readable_bytes_ : nat;
  linearized_ : bytes;
  linearized_offset_ : nat
}.

(** ** BufferBlock *)

Definition BufferBlock_new (memory : nat → byte) (capacity : nat) : BufferBlock :=
  mkBufferBlock (memory <$> seq 0 capacity) capacity 0 0 1.

Definition BufferBlock_writableBytes (b : BufferBlock) : nat := capacity_ b - end_ b.

Definition BufferBlock_size (b : BufferBlock) : nat := end_ b - begin_ b.

Definition BufferBlock_advanceEnd (n : nat) (b : BufferBlock) : BufferBlock :=
  mkBufferBlock (data_ b) (capacity_ b) (begin_ b) (end_ b + n) (refcount_ b).

Definition BufferBlock_consume (n : nat) (b : BufferBlock) : BufferBlock :=
  mkBufferBlock (data_ b) (capacity_ b) (Nat.min (end_ b) (begin_ b + n)) (end_ b) (refcount_ b).

Definition BufferBlock_reset (b : BufferBlock) : BufferBlock :=
  mkBufferBlock (data_ b) (capacity_ b) 0 0 1.

Definition set_refcount (r : Z) (b : BufferBlock) : BufferBlock :=
  mkBufferBlock (data_ b) (capacity_ b) (begin_ b) (end_ b) r.

(** ** The store *)

Definition set_heap (h : gmap ptr BufferBlock) (pool : BlockPool) : BlockPool :=
  mkBlockPool (block_size_ pool) (free_ pool) h (brk pool) (uninit pool).

Definition set_free (l : list ptr) (pool : BlockPool) : BlockPool :=
  mkBlockPool (block_size_ pool) l (heap pool) (brk pool) (uninit pool).

Definition deref (p : ptr) : ST BlockPool BufferBlock :=
  pool ← st_get; st_opt (heap pool !! p).

Definition store (p : ptr) (b : BufferBlock) : ST BlockPool unit :=
  pool ← st_get; st_put (set_heap (<[p := b]> (heap pool)) pool).

(** [memcpy] into the block at [p]: out of bounds goes wrong. *)
Definition memcpy (p : ptr) (off : nat) (src : bytes) : ST BlockPool unit :=
  b ← deref p;
  st_assert (off + length src ≤ length (data_ b));;
  store p (mkBufferBlock (take off (data_ b) ++ src ++ drop (off + length src) (data_ b))
                         (capacity_ b) (begin_ b) (end_ b) (refcount_ b)).

Definition BufferBlock_retain (p : ptr) : ST BlockPool unit :=
  b ← deref p; store p (set_refcount (u32 (refcount_ b + 1)) b).

Definition BlockPool_new (block_size : nat) (memory : ptr → nat → byte) : BlockPool :=
  mkBlockPool block_size [] ∅ 0 memory.

Definition BlockPool_acquire : ST BlockPool ptr :=
  pool ← st_get;
  match free_ pool with
  | [] =>
      let p := brk pool in
      st_put (mkBlockPool (block_size_ pool) []
                (<[p := BufferBlock_new (uninit pool p) (block_size_ pool)]> (heap pool))
                (S p) (uninit pool));;
      mret p
  | p :: rest =>
      st_put (set_free rest pool);;
      b ← deref p;
      store p (BufferBlock_reset b);;
      mret p
  end.

Definition BlockPool_recycle (p : ptr) : ST BlockPool unit :=
  b ← deref p;
  store p (BufferBlock_reset b);;
  pool ← st_get;
  st_put (set_free (p :: free_ pool) pool).

Definition BufferBlock_release (p : ptr) : ST BlockPool unit :=
  b ← deref p;
  let r := u32 (refcount_ b - 1) in
  store p (set_refcount r b);;
  if decide (r = 0%Z) then BlockPool_recycle p else mret tt.

(** ** BufferSlice *)

Definition BufferSlice_empty_slice : BufferSlice := mkBufferSlice None 0 0.

Definition retain_opt (block : option ptr) : ST BlockPool unit :=
  match block with Some p => BufferBlock_retain p | None => mret tt end.

(** [BufferSlice::retain(block, offset, length)] *)
Definition BufferSlice_retain (block : option ptr) (offset length : nat) :
    ST BlockPool BufferSlice :=
  retain_opt block;; mret (mkBufferSlice block offset length).

(** The copy constructor. *)
Definition BufferSlice_copy (other : BufferSlice) : ST BlockPool BufferSlice :=
  BufferSlice_retain (block_ other) (offset_ other) (length_ other).

(** [reset()]; it is also the destructor. *)
Definition BufferSlice_reset (s : BufferSlice) : ST BlockPool BufferSlice :=
  match block_ s with
  | Some p => BufferBlock_release p
  | None => mret tt
  end;;
  mret (mkBufferSlice None (offset_ s) 0).

(** The move constructor: the new slice and what is left of the old one. *)
Definition BufferSlice_move (other : BufferSlice) : BufferSlice * BufferSlice :=
  (other, mkBufferSlice None (offset_ other) 0).

(** [*this = other] for two different objects; assigning an object to itself
    does nothing. *)
Definition BufferSlice_assign (this other : BufferSlice) : ST BlockPool BufferSlice :=
  BufferSlice_reset this;;
  retain_opt (block_ other);;
  mret (mkBufferSlice (block_ other) (offset_ other) (length_ other)).

(** [*this = std::move(other)]: the new [*this] and the new [other]. *)
Definition BufferSlice_assign_move (this other : BufferSlice) :
    ST BlockPool (BufferSlice * BufferSlice) :=
  BufferSlice_reset this;;
  mret (BufferSlice_move other).

(** The characters [data()[0 .. size())]. *)
Definition BufferSlice_bytes (s : BufferSlice) : ST BlockPool bytes :=
  p ← st_opt (block_ s);
  b ← deref p;
  st_assert (offset_ s + length_ s ≤ length (data_ b));;
  mret (take (length_ s) (drop (offset_ s) (data_ b))).

Definition BufferSlice_size (s : BufferSlice) : nat := length_ s.

Definition BufferSlice_empty (s : BufferSlice) : bool := bool_decide (BufferSlice_size s = 0).

(** ** BufferChain *)

Definition BufferChain_new : BufferChain := mkBufferChain [] 0.

(** [append] takes its argument by value and moves it into the vector, which
    leaves every reference count alone. *)
Definition BufferChain_append (slice : BufferSlice) (c : BufferChain) : BufferChain :=
  mkBufferChain (slices_ c ++ [slice]) (total_ c + length_ slice).

(** [appendChain]: this chain, and the emptied argument. *)
Definition BufferChain_appendChain (this chain : BufferChain) : BufferChain * BufferChain :=
  (foldl (λ c s, BufferChain_append s c) this (slices_ chain), BufferChain_new).

Definition BufferChain_move (other : BufferChain) : BufferChain * BufferChain :=
  (other, BufferChain_new).

Fixpoint reset_slices (l : list BufferSlice) : ST BlockPool unit :=
  match l with
  | [] => mret tt
  | s :: l => BufferSlice_reset s;; reset_slices l
  end.

(** The defaulted copy constructor copies the slices one by one. *)
Fixpoint copy_slices (l : list BufferSlice) : ST BlockPool (list BufferSlice) :=
  match l with
  | [] => mret []
  | s :: l => s' ← BufferSlice_copy s; l' ← copy_slices l; mret (s' :: l')
  end.

Definition BufferChain_copy (other : BufferChain) : ST BlockPool BufferChain :=
  l ← copy_slices (slices_ other); mret (mkBufferChain l (total_ other)).

(** [this = std::move(other)]: the vector's move assignment destroys the old slices. *)
Definition BufferChain_assign_move (this other : BufferChain) :
    ST BlockPool (BufferChain * BufferChain) :=
  reset_slices (slices_ this);; mret (BufferChain_move other).

(** Copy assignment of a vector that has room: slice by slice, then what one of
    the two has more than the other. *)
Fixpoint assign_slices (this other : list BufferSlice) : ST BlockPool (list BufferSlice) :=
  match this, other with
  | [], other => copy_slices other
  | this, [] => reset_slices this;; mret []
  | s :: this, o :: other =>
      s' ← BufferSlice_assign s o; l ← assign_slices this other; mret (s' :: l)
  end.

(** [this = other], defaulted, for two different chains.  Without [room] in the
    vector of [this] the slices are copied to new memory first. *)
Definition BufferChain_assign (room : bool) (this other : BufferChain) : ST BlockPool BufferChain :=
  l ← (if room then assign_slices (slices_ this) (slices_ other)
       else l ← copy_slices (slices_ other); reset_slices (slices_ this);; mret l);
  mret (mkBufferChain l (total_ other)).

Definition BufferChain_destroy (c : BufferChain) : ST BlockPool unit :=
  reset_slices (slices_ c).

Fixpoint concat_slices (l : list BufferSlice) : ST BlockPool bytes :=
  match l with
  | [] => mret []
  | s :: l =>
      here ← BufferSlice_bytes s;
      rest ← concat_slices l;
      mret (here ++ rest)
  end.

Definition BufferChain_toStringForTest (c : BufferChain) : ST BlockPool bytes :=
  concat_slices (slices_ c).

Definition BufferChain_size (c : BufferChain) : nat := total_ c.

Definition BufferChain_empty (c : BufferChain) : bool := bool_decide (BufferChain_size c = 0).

(** How many blocks wait to be used again. *)
Definition BlockPool_freeCountForTest (pool : BlockPool) : nat := length (free_ pool).

(** ** IoBuffer *)

Definition IoBuffer_new : IoBuffer := mkIoBuffer [] 0 [] 0.

Fixpoint release_blocks (l : list ptr) : ST BlockPool unit :=
  match l with
  | [] => mret tt
  | p :: l => BufferBlock_release p;; release_blocks l
  end.

(** [clear()]; it is also the destructor. *)
Definition IoBuffer_clear (io : IoBuffer) : ST BlockPool IoBuffer :=
  release_blocks (blocks_ io);; mret IoBuffer_new.

(** [blocks_.back()]; undefined on an empty deque. *)
Definition IoBuffer_back (io : IoBuffer) : ST BlockPool ptr := st_opt (last (blocks_ io)).

(** The result is the buffer, the write position (block and offset) and
    [*writable]. *)
Definition IoBuffer_reserveWritable (io : IoBuffer) :
    ST BlockPool (IoBuffer * (ptr * nat) * nat) :=
  full ← match last (blocks_ io) with
         | None => mret true
         | Some p => b ← deref p; mret (bool_decide (BufferBlock_writableBytes b = 0))
         end;
  io' ← (if (full : bool) then
           p ← BlockPool_acquire;
           mret (mkIoBuffer (blocks_ io ++ [p]) (readable_bytes_ io) (linearized_ io)
                            (linearized_offset_ io))
         else mret io);
  p ← IoBuffer_back io';
  b ← deref p;
  mret (io', (p, end_ b), BufferBlock_writableBytes b).

Definition IoBuffer_commitWrite (io : IoBuffer) (n : nat) : ST BlockPool IoBuffer :=
  p ← IoBuffer_back io;
  b ← deref p;
  store p (BufferBlock_advanceEnd n b);;
  mret (mkIoBuffer (blocks_ io) (readable_bytes_ io + n) [] 0).

(** The [while (!data.empty())] loop.  Each round copies at least one byte when
    blocks have a positive size, so [length data] rounds are enough. *)
Fixpoint IoBuffer_append_loop (fuel : nat) (io : IoBuffer) (data : bytes) :
    ST BlockPool IoBuffer :=
  match data with
  | [] => mret io
  | _ :: _ =>
      match fuel with
      | 0 => st_wrong
      | S fuel =>
          '(io, (p, off), writable) ← IoBuffer_reserveWritable io;
          let n := Nat.min writable (length data) in
          memcpy p off (take n data);;
          io ← IoBuffer_commitWrite io n;
          IoBuffer_append_loop fuel io (drop n data)
      end
  end.

Definition IoBuffer_append (io : IoBuffer) (data : bytes) : ST BlockPool IoBuffer :=
  IoBuffer_append_loop (length data) io data.

Definition IoBuffer_readableBytes (io : IoBuffer) : nat := readable_bytes_ io.

(** The [while (n > 0 && !blocks_.empty())] loop.  Every round but the last
    removes a block. *)
Fixpoint consume_loop (fuel : nat) (blocks : list ptr) (n : nat) : ST BlockPool (list ptr) :=
  match n, blocks with
  | 0, _ | _, [] => mret blocks
  | _, p :: rest =>
      match fuel with
      | 0 => st_wrong
      | S fuel =>
          b ← deref p;
          let take := Nat.min n (BufferBlock_size b) in
          let b := BufferBlock_consume take b in
          store p b;;
          let n := n - take in
          if decide (BufferBlock_size b = 0) then
            BufferBlock_release p;; consume_loop fuel rest n
          else consume_loop fuel blocks n
      end
  end.

Definition IoBuffer_consume (io : IoBuffer) (n : nat) : ST BlockPool IoBuffer :=
  let n := Nat.min n (readable_bytes_ io) in
  let offset := if decide (linearized_ io = []) then linearized_offset_ io
                else linearized_offset_ io + n in
  blocks ← consume_loop (S (length (blocks_ io))) (blocks_ io) n;
  mret (mkIoBuffer blocks (readable_bytes_ io - n) (linearized_ io) offset).

(** The bytes [data() + begin() .. data() + end()) of a block. *)
Definition block_bytes (b : BufferBlock) : bytes :=
  take (BufferBlock_size b) (drop (begin_ b) (data_ b)).

Fixpoint linearize (l : list ptr) : ST BlockPool bytes :=
  match l with
  | [] => mret []
  | p :: l => b ← deref p; rest ← linearize l; mret (block_bytes b ++ rest)
  end.

(** [substr] throws when the offset is past the end. *)
Definition substr (s : bytes) (off : nat) : ST BlockPool bytes :=
  st_assert (off ≤ length s);; mret (drop off s).

Definition IoBuffer_readableView (io : IoBuffer) : ST BlockPool (IoBuffer * bytes) :=
  if decide (readable_bytes_ io = 0) then mret (io, []) else
  p ← st_opt (head (blocks_ io));
  b ← deref p;
  if decide (BufferBlock_size b = readable_bytes_ io) then mret (io, block_bytes b) else
  io ← (if decide (linearized_ io = []) then
          lin ← linearize (blocks_ io);
          mret (mkIoBuffer (blocks_ io) (readable_bytes_ io) lin 0)
        else mret io);
  view ← substr (linearized_ io) (linearized_offset_ io);
  mret (io, view).

(** The [for] loop of [slicePrefix], which stops when [remaining] is zero. *)
Fixpoint slice_loop (l : list ptr) (remaining : nat) (chain : BufferChain) :
    ST BlockPool BufferChain :=
  match l with
  | [] => mret chain
  | p :: l =>
      b ← deref p;
      let take := Nat.min remaining (BufferBlock_size b) in
      s ← BufferSlice_retain (Some p) (begin_ b) take;
      let chain := BufferChain_append s chain in
      let remaining := remaining - take in
      if decide (remaining = 0) then mret chain else slice_loop l remaining chain
  end.

Definition IoBuffer_slicePrefix (io : IoBuffer) (n : nat) :
    ST BlockPool (IoBuffer * BufferChain) :=
  if decide (n = 0) then mret (io, BufferChain_new) else
  chain ← slice_loop (blocks_ io) n BufferChain_new;
  io ← IoBuffer_consume io n;
  mret (io, chain).

Definition MakeBufferChain (data : bytes) : ST BlockPool BufferChain :=
  input ← IoBuffer_append IoBuffer_new data;
  '(input, chain) ← IoBuffer_slicePrefix input (length data);
  IoBuffer_clear input;;
  mret chain.
