(* ===== verification/BufferInv.v ===== *)
(** * BufferInv: ownership of blocks and the byte-queue refinement of IoBuffer

    [pool_inv pool own] is the invariant of the block store: [own] lists every
    reference that buffers and slices hold, with multiplicity.  A block's count
    is its multiplicity in [own], free blocks are referenced by nobody, and
    every block is referenced or free.  [IoBuffer_repr] relates an I/O buffer
    to the bytes it holds.  Each operation is proved never to go wrong, to act
    on those bytes as a queue, and to leave what everybody else sees alone
    ([io_step]). *)
From S2P Require Import Prelude Buffer.

(** ** What a pointer shows *)

(** The part of a block that its users see: everything but the count. *)
Definition view (h : BlockPool) (p : ptr) : option (bytes * nat * nat) :=
  (λ b, (data_ b, begin_ b, end_ b)) <$> heap h !! p.

Definition ptr_bytes (h : BlockPool) (p : ptr) : bytes :=
  match view h p with Some (d, s, e) => take (e - s) (drop s d) | None => [] end.

Definition blocks_bytes (h : BlockPool) (l : list ptr) : bytes := l ≫= ptr_bytes h.

(** The bytes a block showed so far stay where they are. *)
Definition grows (h h' : BlockPool) (p : ptr) : Prop :=
  ∀ d s e, view h p = Some (d, s, e) →
    ∃ d' s' e', view h' p = Some (d', s', e') ∧ e ≤ e' ∧
                take e d' = take e d ∧ length d' = length d.

(** ** The invariant of the store *)

Definition refs (p : ptr) (own : list ptr) : nat := length (filter (λ q, q = p) own).

Record block_wf (size : nat) (b : BufferBlock) : Prop := {
  bw_data : length (data_ b) = size;
  bw_capacity : capacity_ b = size;
  bw_begin : begin_ b ≤ end_ b;
  bw_end : end_ b ≤ size
}.

Record pool_inv (h : BlockPool) (own : list ptr) : Prop := {
  pi_pos : 0 < block_size_ h;
  pi_wf : ∀ p b, heap h !! p = Some b → block_wf (block_size_ h) b;
  pi_brk : ∀ p, is_Some (heap h !! p) ↔ p < brk h;
  pi_free_nodup : NoDup (free_ h);
  pi_free : ∀ p, p ∈ free_ h → p < brk h ∧ p ∉ own;
  pi_own : ∀ p, p ∈ own → p < brk h;
  pi_count : ∀ p b, p ∈ own → heap h !! p = Some b → refcount_ b = Z.of_nat (refs p own);
  pi_cover : ∀ p, p < brk h → p ∈ free_ h ∨ p ∈ own;
  pi_len : (Z.of_nat (length own) < 2 ^ 32)%Z
}.

(** ** Lemmas on views and counts *)

Lemma view_Some h p b : heap h !! p = Some b → view h p = Some (data_ b, begin_ b, end_ b).
Proof. unfold view. by intros ->. Qed.

(** A new pool. *)
Lemma pool_inv_new block_size memory :
  0 < block_size → pool_inv (BlockPool_new block_size memory) [].
Proof.
  split; simpl; try done; try (intros; lia); try (intros p Hp; by apply elem_of_nil in Hp).
  - intros p. rewrite lookup_empty. split; [by intros []|lia].
  - constructor.
Qed.

Lemma view_inv h p d s e :
  view h p = Some (d, s, e) →
  ∃ b, heap h !! p = Some b ∧ data_ b = d ∧ begin_ b = s ∧ end_ b = e.
Proof. unfold view. destruct (heap h !! p) as [b|]; [|done]. simpl. intros. simplify_eq. eauto. Qed.

Lemma ptr_bytes_Some h p b : heap h !! p = Some b → ptr_bytes h p = block_bytes b.
Proof. intros Hp. unfold ptr_bytes. by rewrite (view_Some _ _ _ Hp). Qed.

Lemma ptr_bytes_ext h h' p : view h' p = view h p → ptr_bytes h' p = ptr_bytes h p.
Proof. unfold ptr_bytes. by intros ->. Qed.

Lemma blocks_bytes_ext h h' l :
  (∀ p, p ∈ l → view h' p = view h p) → blocks_bytes h' l = blocks_bytes h l.
Proof.
  unfold blocks_bytes. induction l as [|p l IH]; intros Hv; csimpl; [done|].
  rewrite (ptr_bytes_ext h h') by (apply Hv; left). rewrite IH; [done|].
  intros q Hq. apply Hv. by right.
Qed.

Lemma blocks_bytes_app h l k : blocks_bytes h (l ++ k) = blocks_bytes h l ++ blocks_bytes h k.
Proof. apply bind_app. Qed.

Lemma blocks_bytes_cons h p l : blocks_bytes h (p :: l) = ptr_bytes h p ++ blocks_bytes h l.
Proof. done. Qed.

Lemma grows_view h h' p : view h' p = view h p → grows h h' p.
Proof. intros Hv d s e Hp. exists d, s, e. rewrite Hv. auto. Qed.

Lemma grows_trans h1 h2 h3 p : grows h1 h2 p → grows h2 h3 p → grows h1 h3 p.
Proof.
  intros H12 H23 d s e Hv. destruct (H12 _ _ _ Hv) as (d2 & s2 & e2 & Hv2 & Hle & Ht & Hl).
  destruct (H23 _ _ _ Hv2) as (d3 & s3 & e3 & Hv3 & Hle' & Ht' & Hl').
  exists d3, s3, e3. split_and!; [done|lia| |lia].
  rewrite <-Ht. apply (f_equal (take e)) in Ht'. rewrite !take_take in Ht'.
  by rewrite !Nat.min_l in Ht' by lia.
Qed.

Lemma refs_cons_eq p own : refs p (p :: own) = S (refs p own).
Proof. unfold refs. by rewrite filter_cons_True. Qed.

Lemma refs_cons_ne p q own : q ≠ p → refs p (q :: own) = refs p own.
Proof. intros. unfold refs. by rewrite filter_cons_False. Qed.

Lemma refs_0 p own : refs p own = 0 ↔ p ∉ own.
Proof.
  unfold refs. rewrite length_zero_iff_nil. split.
  - intros Hf Hin. apply (not_elem_of_nil p). rewrite <-Hf. by apply list_elem_of_filter.
  - intros Hn. apply elem_of_nil_inv. intros q [-> Hq]%list_elem_of_filter. done.
Qed.

Lemma refs_le p own : refs p own ≤ length own.
Proof. apply length_filter. Qed.

#[global] Instance refs_proper p : Proper ((≡ₚ) ==> (=)) (refs p).
Proof. intros l k Hlk. unfold refs. by rewrite Hlk. Qed.

(** The invariant does not care about the order of the references. *)
#[global] Instance pool_inv_proper h : Proper ((≡ₚ) ==> iff) (pool_inv h).
Proof.
  assert (∀ l k, l ≡ₚ k → pool_inv h l → pool_inv h k) as Hp.
  { intros l k Hlk []. split; try done; intros *; rewrite <-Hlk; eauto. }
  intros l k Hlk. split; apply Hp; done.
Qed.

(** ** The store operations *)

Lemma wp_deref p b Q h : heap h !! p = Some b → Q b h → wp (deref p) Q h.
Proof. intros Hp HQ. unfold deref. apply wp_bind, wp_get. by eapply wp_opt. Qed.

Lemma wp_store p b (Q : unit → BlockPool → Prop) h :
  Q tt (set_heap (<[p := b]> (heap h)) h) → wp (store p b) Q h.
Proof. intros HQ. unfold store. by apply wp_bind, wp_get, wp_put. Qed.

Lemma view_set_heap_eq h p b :
  view (set_heap (<[p := b]> (heap h)) h) p = Some (data_ b, begin_ b, end_ b).
Proof. unfold view. simpl. by rewrite lookup_insert_eq. Qed.

Lemma view_set_heap_ne h p q b :
  q ≠ p → view (set_heap (<[p := b]> (heap h)) h) q = view h q.
Proof. intros. unfold view. simpl. by rewrite lookup_insert_ne. Qed.

(** Writing a well-formed block back keeps the invariant when the counts do. *)
Lemma pool_inv_insert h own own' p b b0 :
  pool_inv h own →
  heap h !! p = Some b0 →
  block_wf (block_size_ h) b →
  (∀ q, q ∈ own' ↔ q ∈ own) →
  (Z.of_nat (length own') < 2 ^ 32)%Z →
  (p ∈ own → refcount_ b = Z.of_nat (refs p own')) →
  (∀ q, q ≠ p → refs q own' = refs q own) →
  pool_inv (set_heap (<[p := b]> (heap h)) h) own'.
Proof.
  intros Hinv Hp Hwf Hiff Hlen Hrc Hne. destruct Hinv. split; simpl; try done.
  - intros q c Hq. destruct (decide (q = p)) as [->|?].
    + rewrite lookup_insert_eq in Hq. by simplify_eq.
    + rewrite lookup_insert_ne in Hq by done. eauto.
  - intros q. destruct (decide (q = p)) as [->|?].
    + rewrite lookup_insert_eq, <-pi_brk0, Hp. by split; eauto.
    + by rewrite lookup_insert_ne.
  - intros q Hq. rewrite Hiff. eauto.
  - intros q Hq. apply pi_own0. by apply Hiff.
  - intros q c Hq Hc. apply Hiff in Hq. destruct (decide (q = p)) as [->|?].
    + rewrite lookup_insert_eq in Hc. simplify_eq. eauto.
    + rewrite lookup_insert_ne in Hc by done. rewrite Hne by done. eauto.
  - intros q Hq. rewrite Hiff. eauto.
Qed.

Lemma pool_inv_lookup h own p :
  pool_inv h own → p ∈ own →
  ∃ b, heap h !! p = Some b ∧ block_wf (block_size_ h) b ∧ refcount_ b = Z.of_nat (refs p own).
Proof.
  intros Hinv Hp. destruct (proj2 (pi_brk _ _ Hinv p) (pi_own _ _ Hinv p Hp)) as [b Hb].
  eauto 10 using pi_wf, pi_count.
Qed.

Lemma wp_retain h own p :
  pool_inv h own → p ∈ own → (Z.of_nat (length own) + 1 < 2 ^ 32)%Z →
  wp (BufferBlock_retain p)
     (λ _ h', pool_inv h' (p :: own) ∧ (∀ q, view h' q = view h q) ∧
              block_size_ h' = block_size_ h) h.
Proof.
  intros Hinv Hin Hlen. destruct (pool_inv_lookup _ _ _ Hinv Hin) as (b & Hb & Hwf & Hrc).
  apply wp_bind, (wp_deref _ _ _ _ Hb), wp_store. split_and!; [|intros q|done].
  - eapply pool_inv_insert; simpl; eauto.
    + by destruct Hwf.
    + set_solver.
    + lia.
    + intros _. rewrite refs_cons_eq, Hrc. pose proof (refs_le p own).
      autorewrite with width. lia.
    + intros q Hq. by apply refs_cons_ne.
  - destruct (decide (q = p)) as [->|?].
    + by rewrite view_set_heap_eq, (view_Some _ _ _ Hb).
    + by apply view_set_heap_ne.
Qed.

(** Giving up a reference that is not the last one. *)
Lemma release_shared h own p b :
  pool_inv h (p :: own) → p ∈ own → heap h !! p = Some b →
  pool_inv (set_heap (<[p := set_refcount (refcount_ b - 1) b]> (heap h)) h) own.
Proof.
  intros Hinv Hin Hb. pose proof (pi_len _ _ Hinv) as Hlen. simpl in Hlen.
  eapply pool_inv_insert; simpl; eauto.
  - by destruct (pi_wf _ _ Hinv _ _ Hb).
  - set_solver.
  - lia.
  - intros _. rewrite (pi_count _ _ Hinv p b) by (done || left). rewrite refs_cons_eq. lia.
  - intros q Hq. by rewrite refs_cons_ne.
Qed.

(** Giving up the last reference: the block is reset and freed. *)
Lemma release_last h own p b :
  pool_inv h (p :: own) → p ∉ own → heap h !! p = Some b →
  pool_inv (set_free (p :: free_ h)
             (set_heap (<[p := BufferBlock_reset b]> (heap h)) h)) own.
Proof.
  intros Hinv Hin Hb. destruct Hinv. simpl in *. split; simpl; try done.
  - intros q c Hq. destruct (decide (q = p)) as [->|?].
    + rewrite lookup_insert_eq in Hq. simplify_eq.
      destruct (pi_wf0 _ _ Hb). by split; simpl; lia.
    + rewrite lookup_insert_ne in Hq by done. eauto.
  - intros q. destruct (decide (q = p)) as [->|?].
    + rewrite lookup_insert_eq, <-pi_brk0, Hb. by split; eauto.
    + by rewrite lookup_insert_ne.
  - apply NoDup_cons. split; [|done]. intros [_ Hp]%pi_free0. apply Hp. left.
  - intros q [->|Hq]%elem_of_cons; [split; [apply pi_own0; left|done]|].
    destruct (pi_free0 _ Hq). set_solver.
  - intros q Hq. apply pi_own0. by right.
  - intros q c Hq Hc. rewrite lookup_insert_ne in Hc by set_solver.
    rewrite (pi_count0 q c); [|by right|done]. rewrite refs_cons_ne; [done|set_solver].
  - intros q Hq. destruct (pi_cover0 q Hq) as [?|[->|?]%elem_of_cons]; set_solver.
  - lia.
Qed.

Lemma wp_release h own p :
  pool_inv h (p :: own) →
  wp (BufferBlock_release p)
     (λ _ h', pool_inv h' own ∧ (∀ q, q ∈ own → view h' q = view h q) ∧
              block_size_ h' = block_size_ h) h.
Proof.
  intros Hinv. destruct (pool_inv_lookup _ _ p Hinv) as (b & Hb & Hwf & Hrc); [left|].
  pose proof (pi_len _ _ Hinv) as Hlen. simpl in Hlen. pose proof (refs_le p own).
  rewrite refs_cons_eq in Hrc.
  apply wp_bind, (wp_deref _ _ _ _ Hb), wp_bind, wp_store.
  rewrite (u32_small (refcount_ b - 1)) by lia.
  case_decide as Hz.
  - assert (p ∉ own) as Hp by (apply refs_0; lia).
    apply wp_bind. eapply wp_deref; [simpl; apply lookup_insert_eq|].
    apply wp_bind, wp_store, wp_bind, wp_get, wp_put.
    unfold set_heap, set_free. simpl. rewrite insert_insert_eq.
    split_and!; [by apply (release_last _ _ _ b)| |done].
    intros q Hq. unfold view. simpl. rewrite lookup_insert_ne; [done|]. by intros ->.
  - assert (p ∈ own) as Hp.
    { destruct (decide (p ∈ own)) as [|Hn]; [done|]. apply refs_0 in Hn. lia. }
    apply wp_ret. split_and!; [by apply release_shared| |done].
    intros q Hq. destruct (decide (q = p)) as [->|?].
    + by rewrite view_set_heap_eq, (view_Some _ _ _ Hb).
    + by apply view_set_heap_ne.
Qed.

(** A fresh block extends the store, a recycled one leaves the free list. *)
Lemma acquire_new h own :
  pool_inv h own → free_ h = [] → (Z.of_nat (length own) + 1 < 2 ^ 32)%Z →
  pool_inv (mkBlockPool (block_size_ h) []
              (<[brk h := BufferBlock_new (uninit h (brk h)) (block_size_ h)]> (heap h))
              (S (brk h)) (uninit h)) (brk h :: own).
Proof.
  intros Hinv Hfree Hlen. destruct Hinv.
  assert (brk h ∉ own) as Hb by (intros ?%pi_own0; lia).
  split; simpl; try done.
  - intros q c Hq. destruct (decide (q = brk h)) as [->|?].
    + rewrite lookup_insert_eq in Hq. simplify_eq. split; simpl; try lia.
      by rewrite length_fmap, length_seq.
    + rewrite lookup_insert_ne in Hq by done. eauto.
  - intros q. destruct (decide (q = brk h)) as [->|?].
    + rewrite lookup_insert_eq. split; eauto with lia.
    + rewrite lookup_insert_ne, pi_brk0 by done. lia.
  - constructor.
  - intros q Hq. by apply elem_of_nil in Hq.
  - intros q [->|Hq]%elem_of_cons; [lia|]. apply pi_own0 in Hq. lia.
  - intros q c Hq Hc. destruct (decide (q = brk h)) as [->|?].
    + rewrite lookup_insert_eq in Hc. simplify_eq.
      apply refs_0 in Hb. rewrite refs_cons_eq, Hb. done.
    + rewrite lookup_insert_ne in Hc by done. rewrite refs_cons_ne by done.
      apply pi_count0; [|done]. set_solver.
  - intros q Hq. right. destruct (decide (q = brk h)) as [->|?]; [left|].
    destruct (pi_cover0 q) as [Hf|?]; [lia| |by right].
    rewrite Hfree in Hf. by apply elem_of_nil in Hf.
  - lia.
Qed.

Lemma acquire_recycled h own p rest b :
  pool_inv h own → free_ h = p :: rest → heap h !! p = Some b →
  (Z.of_nat (length own) + 1 < 2 ^ 32)%Z →
  pool_inv (set_heap (<[p := BufferBlock_reset b]> (heap h)) (set_free rest h)) (p :: own).
Proof.
  intros Hinv Hfree Hb Hlen. destruct Hinv. rewrite Hfree in *.
  destruct (pi_free0 p) as [Hlt Hp]; [left|].
  apply NoDup_cons in pi_free_nodup0 as [Hpr Hnd].
  split; simpl; try done.
  - intros q c Hq. destruct (decide (q = p)) as [->|?].
    + rewrite lookup_insert_eq in Hq. simplify_eq.
      destruct (pi_wf0 _ _ Hb). by split; simpl; lia.
    + rewrite lookup_insert_ne in Hq by done. eauto.
  - intros q. destruct (decide (q = p)) as [->|?].
    + rewrite lookup_insert_eq. split; eauto.
    + by rewrite lookup_insert_ne.
  - intros q Hq. destruct (pi_free0 q) as [? ?]; [by right|]. set_solver.
  - intros q [->|Hq]%elem_of_cons; eauto.
  - intros q c Hq Hc. destruct (decide (q = p)) as [->|?].
    + rewrite lookup_insert_eq in Hc. simplify_eq.
      apply refs_0 in Hp. by rewrite refs_cons_eq, Hp.
    + rewrite lookup_insert_ne in Hc by done. rewrite refs_cons_ne by done.
      apply pi_count0; [|done]. set_solver.
  - intros q Hq. destruct (pi_cover0 q Hq) as [[->|?]%elem_of_cons|?]; set_solver.
  - lia.
Qed.

Lemma wp_acquire h own :
  pool_inv h own → (Z.of_nat (length own) + 1 < 2 ^ 32)%Z →
  wp BlockPool_acquire
     (λ p h', (p ∉ own) ∧ pool_inv h' (p :: own) ∧
              (∀ q, q ≠ p → view h' q = view h q) ∧
              (∃ d, view h' p = Some (d, 0, 0)) ∧
              block_size_ h' = block_size_ h) h.
Proof.
  intros Hinv Hlen. apply wp_bind, wp_get. destruct (free_ h) as [|p rest] eqn:Hfree.
  - apply wp_bind, wp_put, wp_ret. split_and!; try done.
    + intros ?%(pi_own _ _ Hinv). lia.
    + by apply acquire_new.
    + intros q Hq. unfold view. simpl. by rewrite lookup_insert_ne.
    + unfold view. simpl. rewrite lookup_insert_eq. by eexists.
  - destruct (pi_free _ _ Hinv p) as [Hlt Hp]; [rewrite Hfree; left|].
    destruct (proj2 (pi_brk _ _ Hinv p) Hlt) as [b Hb].
    apply wp_bind, wp_put, wp_bind. eapply wp_deref; [exact Hb|].
    apply wp_bind, wp_store, wp_ret. split_and!; try done.
    + by apply (acquire_recycled h own p rest b).
    + intros q Hq. unfold view. simpl. by rewrite lookup_insert_ne.
    + unfold view. simpl. rewrite lookup_insert_eq. by eexists.
Qed.

(** ** Representation of buffers, slices and chains *)

Record IoBuffer_repr (h : BlockPool) (io : IoBuffer) (bs : bytes) : Prop := {
  ir_nodup : NoDup (blocks_ io);
  ir_bytes : blocks_bytes h (blocks_ io) = bs;
  ir_size : readable_bytes_ io = length bs;
  ir_lin : linearized_ io = [] ∨
           (linearized_offset_ io ≤ length (linearized_ io) ∧
            drop (linearized_offset_ io) (linearized_ io) = bs)
}.

(** What an operation on the buffer with the blocks [bl] does to everybody else,
    who holds the references [F]: blocks of others are untouched, shared blocks
    only grow, and blocks that join the buffer were nobody's. *)
Record io_step (bl bl' F : list ptr) (h h' : BlockPool) : Prop := {
  st_keep : ∀ q, q ∈ F → q ∉ bl → view h' q = view h q;
  st_grow : ∀ q, q ∈ F → grows h h' q;
  st_fresh : ∀ q, q ∈ bl' → q ∈ bl ∨ q ∉ F;
  st_size : block_size_ h' = block_size_ h
}.

Definition slice_ptrs (s : BufferSlice) : list ptr := option_list (block_ s).
Definition chain_ptrs (c : BufferChain) : list ptr := slices_ c ≫= slice_ptrs.

(** A slice shows bytes its block has already received. *)
Definition slice_ok (h : BlockPool) (s : BufferSlice) : Prop :=
  ∃ p d b e, block_ s = Some p ∧ view h p = Some (d, b, e) ∧
             offset_ s + length_ s ≤ e ∧ offset_ s + length_ s ≤ length d.

Definition slice_bytes (h : BlockPool) (s : BufferSlice) : bytes :=
  match block_ s ≫= view h with
  | Some (d, _, _) => take (length_ s) (drop (offset_ s) d)
  | None => []
  end.

Record chain_repr (h : BlockPool) (c : BufferChain) (bs : bytes) : Prop := {
  cr_ok : Forall (slice_ok h) (slices_ c);
  cr_bytes : slices_ c ≫= slice_bytes h = bs;
  cr_total : total_ c = length bs
}.

Lemma io_step_refl bl F h : io_step bl bl F h h.
Proof. split; [done| |by left|done]. intros q _. by apply grows_view. Qed.

Lemma io_step_trans bl1 bl2 bl3 F h1 h2 h3 :
  io_step bl1 bl2 F h1 h2 → io_step bl2 bl3 F h2 h3 → io_step bl1 bl3 F h1 h3.
Proof.
  intros [K1 G1 F1 S1] [K2 G2 F2 S2]. split.
  - intros q Hq Hn. rewrite K2; [by apply K1|done|]. intros [?|?]%F1; done.
  - intros q Hq. eapply grows_trans; eauto.
  - intros q [?|?]%F2; [|by right]. by apply F1.
  - by rewrite S2.
Qed.

Lemma io_step_views bl bl' F h h' :
  (∀ q, q ∈ F → view h' q = view h q) → block_size_ h' = block_size_ h →
  (∀ q, q ∈ bl' → q ∈ bl ∨ q ∉ F) → io_step bl bl' F h h'.
Proof. intros Hv Hs Hf. split; auto. intros q Hq. by apply grows_view, Hv. Qed.

Lemma io_step_weaken bl bl' F F' h h' :
  (∀ q, q ∈ F' → q ∈ F) → io_step bl bl' F h h' → io_step bl bl' F' h h'.
Proof. intros Hsub [K G Fr S]. split; auto. intros q [?|?]%Fr; auto. Qed.

Lemma slice_stable h h' s :
  (∀ p, p ∈ slice_ptrs s → grows h h' p) → slice_ok h s →
  slice_ok h' s ∧ slice_bytes h' s = slice_bytes h s.
Proof.
  intros Hg (p & d & b & e & Hp & Hv & Hle & Hd).
  destruct (Hg p) with (d := d) (s := b) (e := e) as (d' & b' & e' & Hv' & Hle' & Ht & Hl); [|done|].
  { unfold slice_ptrs. rewrite Hp. left. }
  split.
  - exists p, d', b', e'. split_and!; [done..|lia|lia].
  - unfold slice_bytes. rewrite Hp. simpl. rewrite Hv, Hv'.
    by apply (take_drop_prefix _ _ e).
Qed.

Lemma chain_stable h h' c bs :
  (∀ p, p ∈ chain_ptrs c → grows h h' p) → chain_repr h c bs → chain_repr h' c bs.
Proof.
  intros Hg [Hok Hb Ht]. unfold chain_ptrs in Hg.
  assert (Forall (slice_ok h') (slices_ c) ∧
          slices_ c ≫= slice_bytes h' = slices_ c ≫= slice_bytes h) as [? ?].
  { clear Hb Ht. induction Hok as [|s l Hs Hl IH]; csimpl in *; [done|].
    destruct (slice_stable h h' s) as [? ->]; [set_solver|done|].
    destruct IH as [? ->]; [set_solver|]. auto. }
  split; [done|congruence|done].
Qed.

(** [size()] and [empty()] tell the truth about the bytes. *)
Lemma chain_size h c bs :
  chain_repr h c bs → BufferChain_size c = length bs ∧ (BufferChain_empty c = true ↔ bs = []).
Proof.
  intros [_ _ Ht]. unfold BufferChain_empty, BufferChain_size. split; [done|].
  by rewrite bool_decide_eq_true, Ht, length_zero_iff_nil.
Qed.

Lemma chain_repr_empty h : chain_repr h BufferChain_new [].
Proof. by repeat constructor. Qed.

Lemma chain_repr_append h c s bs :
  chain_repr h c bs → slice_ok h s → chain_repr h (BufferChain_append s c) (bs ++ slice_bytes h s).
Proof.
  intros [Hok Hb Ht] Hs. pose proof Hs as (p & d & b & e & Hp & Hv & _ & Hle).
  split; simpl.
  - by apply Forall_app; auto.
  - rewrite bind_app, Hb. csimpl. by rewrite app_nil_r.
  - rewrite Ht, length_app. f_equal. unfold slice_bytes. rewrite Hp. simpl. rewrite Hv.
    rewrite length_take, length_drop. lia.
Qed.

Lemma chain_ptrs_append c s : chain_ptrs (BufferChain_append s c) = chain_ptrs c ++ slice_ptrs s.
Proof. unfold chain_ptrs. simpl. rewrite bind_app. csimpl. by rewrite app_nil_r. Qed.

Lemma chain_append_slices h c l bs :
  chain_repr h c bs → Forall (slice_ok h) l →
  chain_repr h (foldl (λ c s, BufferChain_append s c) c l) (bs ++ (l ≫= slice_bytes h)) ∧
  chain_ptrs (foldl (λ c s, BufferChain_append s c) c l) = chain_ptrs c ++ (l ≫= slice_ptrs).
Proof.
  intros Hc Hl. revert c bs Hc. induction Hl as [|s l Hs Hl IH]; intros c bs Hc; csimpl.
  - by rewrite !app_nil_r.
  - destruct (IH (BufferChain_append s c) (bs ++ slice_bytes h s)) as [IH1 IH2];
      [by apply chain_repr_append|].
    rewrite IH2, chain_ptrs_append, !(assoc_L (++)). done.
Qed.

(** ** Writing *)

(** Storing a block with the same count. *)
Lemma wp_update h own p b b' :
  pool_inv h own → heap h !! p = Some b →
  block_wf (block_size_ h) b' → refcount_ b' = refcount_ b →
  wp (store p b')
     (λ _ h', pool_inv h' own ∧ heap h' !! p = Some b' ∧
              (∀ q, q ≠ p → view h' q = view h q) ∧ block_size_ h' = block_size_ h) h.
Proof.
  intros Hinv Hb Hwf Hrc. apply wp_store. split_and!; [| | |done].
  - eapply pool_inv_insert; [done..|by eapply pi_len| |done].
    intros Hp. rewrite Hrc. by eapply pi_count.
  - simpl. apply lookup_insert_eq.
  - intros q Hq. by apply view_set_heap_ne.
Qed.

(** The result of [reserveWritable]: the same contents, and room in the last block. *)
Definition reserve_post (io : IoBuffer) (F : list ptr) (bs : bytes) (h : BlockPool)
    (r : IoBuffer * (ptr * nat) * nat) (h' : BlockPool) : Prop :=
  let '(io', (p, off), w) := r in
  pool_inv h' (blocks_ io' ++ F) ∧ IoBuffer_repr h' io' bs ∧
  io_step (blocks_ io) (blocks_ io') F h h' ∧
  last (blocks_ io') = Some p ∧ length (blocks_ io') ≤ S (length (blocks_ io)) ∧
  (∃ d s, view h' p = Some (d, s, off)) ∧
  off + w = block_size_ h' ∧ 0 < w.

Lemma wp_reserve_tail h h' F io io' bs p :
  pool_inv h' (blocks_ io' ++ F) → IoBuffer_repr h' io' bs →
  io_step (blocks_ io) (blocks_ io') F h h' →
  last (blocks_ io') = Some p → length (blocks_ io') ≤ S (length (blocks_ io)) →
  (∀ b, heap h' !! p = Some b → end_ b < block_size_ h') →
  wp (p ← IoBuffer_back io'; b ← deref p;
      mret (io', (p, end_ b), BufferBlock_writableBytes b)) (reserve_post io F bs h) h'.
Proof.
  intros Hinv Hr Hst Hlast Hlen Hroom.
  destruct (pool_inv_lookup _ _ p Hinv) as (b & Hb & [] & _).
  { apply elem_of_app. left. by apply last_Some_elem_of. }
  apply wp_bind. eapply wp_opt; [done|]. apply wp_bind. eapply wp_deref; [done|].
  apply wp_ret. specialize (Hroom b Hb). unfold BufferBlock_writableBytes.
  unfold reserve_post. split_and!; try done; [|lia|lia].
  exists (data_ b), (begin_ b). by apply view_Some.
Qed.

Lemma wp_reserve_acquire h F io bs :
  pool_inv h (blocks_ io ++ F) → IoBuffer_repr h io bs →
  (Z.of_nat (length (blocks_ io ++ F)) + 1 < 2 ^ 32)%Z →
  wp (p ← BlockPool_acquire;
      mret (mkIoBuffer (blocks_ io ++ [p]) (readable_bytes_ io) (linearized_ io)
                       (linearized_offset_ io)))
     (λ io', wp (p ← IoBuffer_back io'; b ← deref p;
                 mret (io', (p, end_ b), BufferBlock_writableBytes b))
                (reserve_post io F bs h)) h.
Proof.
  intros Hinv [Hnd Hb Hs Hlin] Hlen. wp_bind_on wp_acquire; [done..|].
  intros p h' (Hp & Hinv' & Hv & (d & Hvp) & Hsz). apply wp_ret.
  assert (∀ q, q ∈ blocks_ io ++ F → view h' q = view h q) as Hv'.
  { intros q Hq. apply Hv. by intros ->. }
  eapply wp_reserve_tail; simpl.
  - rewrite <-(assoc_L (++)). simpl. by rewrite <-Permutation_middle.
  - split; simpl; try done.
    + apply NoDup_app. split_and!; [done| |apply NoDup_singleton]. set_solver.
    + rewrite blocks_bytes_app, (blocks_bytes_ext h h') by set_solver.
      rewrite Hb. unfold blocks_bytes. csimpl. unfold ptr_bytes. rewrite Hvp.
      by rewrite !app_nil_r.
  - apply io_step_views; [set_solver|done|]. intros q. rewrite elem_of_app.
    intros [?| ->%list_elem_of_singleton]; [by left|right; set_solver].
  - apply last_snoc.
  - rewrite length_app. simpl. lia.
  - intros b Hb'. rewrite (view_Some _ _ _ Hb') in Hvp. simplify_eq.
    pose proof (pi_pos _ _ Hinv'). lia.
Qed.

Lemma wp_reserveWritable h F io bs :
  pool_inv h (blocks_ io ++ F) → IoBuffer_repr h io bs →
  (Z.of_nat (length (blocks_ io ++ F)) + 1 < 2 ^ 32)%Z →
  wp (IoBuffer_reserveWritable io) (reserve_post io F bs h) h.
Proof.
  intros Hinv Hr Hlen. apply wp_bind.
  destruct (last (blocks_ io)) as [p|] eqn:Hlast; [|apply wp_ret].
  - destruct (pool_inv_lookup _ _ p Hinv) as (b & Hb & [] & _).
    { apply elem_of_app. left. by apply last_Some_elem_of. }
    apply wp_bind. eapply wp_deref; [done|]. apply wp_ret.
    case_bool_decide as Hw; apply wp_bind; [by apply wp_reserve_acquire|].
    apply wp_ret. eapply wp_reserve_tail; eauto using io_step_refl.
    intros b' Hb'. simplify_eq. unfold BufferBlock_writableBytes in Hw. lia.
  - apply wp_bind. by apply wp_reserve_acquire.
Qed.

(** Copying [src] to the end of the last block and committing it appends it. *)
Lemma wp_write_commit h F io bs p d s e src :
  pool_inv h (blocks_ io ++ F) → IoBuffer_repr h io bs →
  last (blocks_ io) = Some p → view h p = Some (d, s, e) →
  e + length src ≤ block_size_ h →
  wp (memcpy p e src;; IoBuffer_commitWrite io (length src))
     (λ io' h', pool_inv h' (blocks_ io' ++ F) ∧ IoBuffer_repr h' io' (bs ++ src) ∧
                blocks_ io' = blocks_ io ∧ io_step (blocks_ io) (blocks_ io') F h h') h.
Proof.
  intros Hinv [Hnd Hbytes Hs Hlin] Hlast Hv Hle.
  apply view_inv in Hv as (b & Hb & <- & <- & <-).
  pose proof (pi_wf _ _ Hinv _ _ Hb) as [Hd Hc Hbe He].
  set (d' := take (end_ b) (data_ b) ++ src ++ drop (end_ b + length src) (data_ b)).
  assert (length d' = length (data_ b)) as Hd'.
  { unfold d'. rewrite !length_app, length_take, length_drop. lia. }
  apply wp_bind, wp_bind, (wp_deref _ _ _ _ Hb), wp_bind, wp_assert; [lia|]. fold d'.
  eapply wp_mono; [eapply wp_update; [done|exact Hb|split; simpl; lia|done]|].
  intros _ h1 (Hinv1 & Hb1 & Hv1 & Hs1).
  apply wp_bind. eapply wp_opt; [done|]. apply wp_bind, (wp_deref _ _ _ _ Hb1), wp_bind.
  eapply wp_mono; [eapply wp_update; [done|exact Hb1|split; simpl; lia|done]|].
  intros _ h2 (Hinv2 & Hb2 & Hv2 & Hs2). apply wp_ret. simpl in *.
  assert (∀ q, q ≠ p → view h2 q = view h q) as Hv' by (intros q Hq; rewrite Hv2, Hv1; auto).
  apply last_Some in Hlast as [l Hl]. rewrite Hl in Hnd.
  apply NoDup_app in Hnd as (Hnd & Hpl & Hnd').
  split_and!; try done.
  - split; simpl; [rewrite Hl; by apply NoDup_app| | |by left].
    + rewrite Hl, blocks_bytes_app in *. subst bs.
      rewrite (blocks_bytes_ext h h2) by (intros q Hq; apply Hv'; set_solver).
      rewrite <-(assoc_L (++)). f_equal. unfold blocks_bytes. csimpl. rewrite !app_nil_r.
      rewrite (ptr_bytes_Some _ _ _ Hb2), (ptr_bytes_Some _ _ _ Hb).
      unfold block_bytes, BufferBlock_size. simpl. unfold d'.
      rewrite drop_app_le by (rewrite length_take; lia).
      rewrite take_app_ge, length_drop, length_take by (rewrite length_drop, length_take; lia).
      rewrite !take_drop_commute.
      replace (begin_ b + (end_ b - begin_ b)) with (end_ b) by lia. f_equal.
      by rewrite take_app_length' by lia.
    + rewrite length_app. lia.
  - split; [| |by left|congruence].
    + intros q _ Hq. apply Hv'. intros ->. apply Hq. rewrite Hl. set_solver.
    + intros q _. destruct (decide (q = p)) as [->|?]; [|by apply grows_view, Hv'].
      intros dd ss ee Hve. rewrite (view_Some _ _ _ Hb) in Hve. simplify_eq.
      rewrite (view_Some _ _ _ Hb2). simpl. do 3 eexists. split_and!; [done|lia| |done].
      unfold d'. rewrite take_app_le by (rewrite length_take; lia).
      by rewrite take_take, Nat.min_id.
Qed.

(** What an operation that keeps hold of [extra] promises: the invariant, the
    new contents, and nothing changes for the others. *)
Record io_post (io : IoBuffer) (extra F : list ptr) (bs : bytes) (h : BlockPool)
    (io' : IoBuffer) (h' : BlockPool) : Prop := {
  ip_inv : pool_inv h' (blocks_ io' ++ extra ++ F);
  ip_repr : IoBuffer_repr h' io' bs;
  ip_step : io_step (blocks_ io) (blocks_ io') F h h'
}.

Lemma reserve_io_post io F bs h io' pos n h' :
  reserve_post io F bs h (io', pos, n) h' → io_post io [] F bs h io' h'.
Proof. destruct pos. by intros (? & ? & ? & _). Qed.

Lemma append_loop_step fuel io data :
  data ≠ [] →
  IoBuffer_append_loop (S fuel) io data =
    ('(io, (p, off), writable) ← IoBuffer_reserveWritable io;
     let n := Nat.min writable (length data) in
     memcpy p off (take n data);;
     io ← IoBuffer_commitWrite io n;
     IoBuffer_append_loop fuel io (drop n data)).
Proof. by destruct data. Qed.

Lemma wp_append_loop fuel h F io bs data :
  length data ≤ fuel →
  pool_inv h (blocks_ io ++ F) → IoBuffer_repr h io bs →
  (Z.of_nat (length (blocks_ io ++ F) + length data) < 2 ^ 32)%Z →
  wp (IoBuffer_append_loop fuel io data)
     (λ io' h', io_post io [] F (bs ++ data) h io' h' ∧
                length (blocks_ io') ≤ length (blocks_ io) + length data) h.
Proof.
  revert h io bs data. induction fuel as [|fuel IH]; intros h io bs dd Hfuel Hinv Hr Hlen;
    (destruct (decide (dd = [])) as [->|Hne];
     [rewrite app_nil_r; split; [split; eauto using io_step_refl|lia]|]);
    assert (0 < length dd) by (destruct dd; [done|simpl; lia]); [lia|].
  rewrite append_loop_step by done.
  wp_bind_on wp_reserveWritable; [done..|lia|].
  intros [[io1 [p off]] w] h1 (Hinv1 & Hr1 & Hst1 & Hlast & Hl1 & (d & s & Hv) & Hw & Hpos).
  simpl. set (n := Nat.min w (length dd)).
  assert (0 < n ≤ length dd) by (unfold n; lia).
  assert (length (take n dd) = n) as Hn by (rewrite length_take; lia).
  pose proof (wp_write_commit h1 F io1 bs p d s off (take n dd) Hinv1 Hr1 Hlast Hv
                ltac:(lia)) as Hwc.
  rewrite Hn in Hwc.
  apply wp_bind_assoc. apply wp_bind. eapply wp_mono; [exact Hwc|].
  intros io2 h2 (Hinv2 & Hr2 & Hbl & Hst2). eapply wp_mono.
  - apply (IH h2 io2 (bs ++ take n dd)); [rewrite length_drop; lia|done..|].
    rewrite Hbl, length_drop. rewrite !length_app in *. lia.
  - rewrite length_drop. intros io3 h3 [[Hinv3 Hr3 Hst3] Hl3].
    split; [split; [done| |]|rewrite Hbl in Hl3; lia].
    + by rewrite <-(assoc_L (++)), take_drop in Hr3.
    + eauto using io_step_trans.
Qed.

Lemma wp_append h F io bs data :
  pool_inv h (blocks_ io ++ F) → IoBuffer_repr h io bs →
  (Z.of_nat (length (blocks_ io ++ F) + length data) < 2 ^ 32)%Z →
  wp (IoBuffer_append io data) 
     (λ io' h', io_post io [] F (bs ++ data) h io' h' ∧
                length (blocks_ io') ≤ length (blocks_ io) + length data) h.
Proof. by apply wp_append_loop. Qed.

(** ** Reading *)

Lemma length_block_bytes size b : block_wf size b → length (block_bytes b) = BufferBlock_size b.
Proof.
  intros []. unfold block_bytes, BufferBlock_size. rewrite length_take, length_drop. lia.
Qed.

Lemma block_bytes_consume size b n :
  block_wf size b → n ≤ BufferBlock_size b → block_bytes (BufferBlock_consume n b) = drop n (block_bytes b).
Proof.
  intros []. unfold block_bytes, BufferBlock_size, BufferBlock_consume. simpl. intros Hn.
  rewrite Nat.min_r by lia.
  replace (end_ b - begin_ b) with (n + (end_ b - (begin_ b + n))) by lia.
  by rewrite <-take_drop_commute, drop_drop.
Qed.

Lemma consume_wf size n b : block_wf size b → block_wf size (BufferBlock_consume n b).
Proof. intros []. split; simpl; lia. Qed.

Lemma grows_consume h h' p b n :
  heap h !! p = Some b → heap h' !! p = Some (BufferBlock_consume n b) → grows h h' p.
Proof.
  intros Hb Hb' d s e Hv. rewrite (view_Some _ _ _ Hb) in Hv. simplify_eq.
  rewrite (view_Some _ _ _ Hb'). simpl. do 3 eexists. split_and!; done.
Qed.

(** One round of the loop shrinks the first block. *)
Lemma consume_store_step h h' F p rest b n :
  heap h !! p = Some b → heap h' !! p = Some (BufferBlock_consume n b) →
  (∀ q, q ≠ p → view h' q = view h q) → block_size_ h' = block_size_ h →
  io_step (p :: rest) (p :: rest) F h h'.
Proof.
  intros Hb Hb' Hv Hs. split; [|intros q _|by left|done].
  - intros q _ Hq. apply Hv. set_solver.
  - destruct (decide (q = p)) as [->|?]; [by eapply grows_consume|by apply grows_view, Hv].
Qed.

Lemma wp_consume_loop fuel h F l n :
  length l < fuel → NoDup l → pool_inv h (l ++ F) → n ≤ length (blocks_bytes h l) →
  wp (consume_loop fuel l n)
     (λ l' h', pool_inv h' (l' ++ F) ∧ NoDup l' ∧
               blocks_bytes h' l' = drop n (blocks_bytes h l) ∧ io_step l l' F h h') h.
Proof.
  revert h l n. induction fuel as [|fuel IH]; intros h l n Hfuel Hnd Hinv Hn; [lia|].
  destruct n as [|n]; simpl; [by eauto using wp_ret, io_step_refl|].
  destruct l as [|p rest]; [by eauto using wp_ret, io_step_refl|].
  apply NoDup_cons in Hnd as [Hp Hnd]. simpl in Hfuel.
  destruct (pool_inv_lookup _ _ p Hinv) as (b & Hb & Hwf & _); [left|].
  rewrite blocks_bytes_cons, (ptr_bytes_Some _ _ _ Hb) in Hn |- *.
  rewrite length_app, (length_block_bytes _ _ Hwf) in Hn.
  apply wp_bind, (wp_deref _ _ _ _ Hb). set (k := Nat.min (S n) (BufferBlock_size b)).
  apply wp_bind. eapply wp_mono.
  { eapply wp_update; [exact Hinv|exact Hb|by apply consume_wf|done]. }
  intros _ h1 (Hinv1 & Hb1 & Hv1 & Hs1).
  pose proof (consume_store_step h h1 F p rest b k Hb Hb1 Hv1 Hs1) as Hst1.
  assert (blocks_bytes h1 rest = blocks_bytes h rest) as Hrest1.
  { apply blocks_bytes_ext. intros q Hq. apply Hv1. set_solver. }
  case_decide as Hz; unfold BufferBlock_size in Hz; simpl in Hz; pose proof Hwf as [].
  - assert (k = BufferBlock_size b) as Hk by (unfold k, BufferBlock_size in *; lia).
    apply wp_bind. eapply wp_mono; [apply (wp_release h1 (rest ++ F) p), Hinv1|].
    intros _ h2 (Hinv2 & Hv2 & Hs2).
    assert (blocks_bytes h2 rest = blocks_bytes h rest) as Hrest2.
    { rewrite <-Hrest1. apply blocks_bytes_ext. set_solver. }
    eapply wp_mono; [apply (IH h2 rest (S n - k)); [lia|done..|rewrite Hrest2; lia]|].
    intros l' h3 (Hinv3 & Hnd3 & Hb3 & Hst3). split_and!; [done|done| |].
    + rewrite Hb3, Hrest2, drop_app_ge, (length_block_bytes _ _ Hwf), Hk; [done|].
      rewrite (length_block_bytes _ _ Hwf). unfold k in Hk. lia.
    + eapply io_step_trans; [exact Hst1|]. eapply io_step_trans; [|exact Hst3].
      apply io_step_views; [set_solver|done|set_solver].
  - assert (k = S n) as Hk by (unfold k, BufferBlock_size in *; lia). rewrite Hk in *.
    assert (S n ≤ BufferBlock_size b) by (unfold k in Hk; lia).
    rewrite Nat.sub_diag. destruct fuel as [|fuel]; [lia|]. simpl. apply wp_ret.
    split_and!; [done|by apply NoDup_cons| |done].
    rewrite blocks_bytes_cons, Hrest1, (ptr_bytes_Some _ _ _ Hb1).
    rewrite (block_bytes_consume _ _ _ Hwf), drop_app_le; [done| |done].
    by rewrite (length_block_bytes _ _ Hwf).
Qed.

Lemma wp_consume h F io bs n :
  pool_inv h (blocks_ io ++ F) → IoBuffer_repr h io bs →
  wp (IoBuffer_consume io n) (io_post io [] F (drop n bs) h) h.
Proof.
  intros Hinv [Hnd Hb Hs Hlin].
  assert (drop (Nat.min n (length bs)) bs = drop n bs) as Hdrop.
  { destruct (decide (n ≤ length bs)); [by rewrite Nat.min_l|].
    rewrite !drop_ge by lia. done. }
  wp_bind_on wp_consume_loop; [lia|done..|rewrite Hs, Hb; lia|].
  intros l' h' (Hinv' & Hnd' & Hb' & Hst). apply wp_ret.
  rewrite Hs, Hb, Hdrop in *. split; simpl; [done| |done].
  split; simpl; [done|done|rewrite length_drop; lia|].
  destruct Hlin as [?|[Hoff Hlin]]; [by left|right].
  assert (linearized_offset_ io + length bs = length (linearized_ io)) as Hlen.
  { rewrite <-Hlin, length_drop. lia. }
  case_decide as Hnil.
  - rewrite Hnil in *. simpl in *. split; [lia|].
    assert (bs = []) as -> by (apply nil_length_inv; lia). by rewrite !drop_nil.
  - split; [lia|]. by rewrite <-Hdrop, <-Hlin, drop_drop, Hlin.
Qed.

Lemma wp_slice_loop h own l n chain cs :
  pool_inv h own → (∀ p, p ∈ l → p ∈ own) →
  (Z.of_nat (length own + length l) < 2 ^ 32)%Z → chain_repr h chain cs →
  wp (slice_loop l n chain)
     (λ c h', ∃ new, chain_ptrs c = chain_ptrs chain ++ new ∧ pool_inv h' (new ++ own) ∧
              chain_repr h' c (cs ++ take n (blocks_bytes h l)) ∧
              (∀ q, view h' q = view h q) ∧ block_size_ h' = block_size_ h) h.
Proof.
  revert h own n chain cs.
  induction l as [|p l IH]; intros h own n chain cs Hinv Hl Hlen Hc.
  { apply wp_ret. exists []. unfold blocks_bytes. simpl. rewrite take_nil, !app_nil_r. done. }
  destruct (pool_inv_lookup _ _ p Hinv) as (b & Hb & Hwf & _); [apply Hl; left|].
  pose proof Hwf as []. simpl in Hlen.
  apply wp_bind, (wp_deref _ _ _ _ Hb). set (k := Nat.min n (BufferBlock_size b)).
  apply wp_bind, wp_bind. eapply wp_mono; [eapply wp_retain; [done|apply Hl; left|lia]|].
  intros _ h1 (Hinv1 & Hv1 & Hs1). apply wp_ret.
  set (s := mkBufferSlice (Some p) (begin_ b) k).
  assert (slice_ok h1 s) as Hok.
  { exists p, (data_ b), (begin_ b), (end_ b). rewrite Hv1, (view_Some _ _ _ Hb). simpl.
    unfold k, BufferBlock_size. split_and!; [done..|lia|lia]. }
  assert (slice_bytes h1 s = take n (block_bytes b)) as Hsb.
  { unfold slice_bytes. simpl. rewrite Hv1, (view_Some _ _ _ Hb).
    unfold block_bytes. by rewrite take_take. }
  assert (chain_repr h1 chain cs) as Hc1 by (eapply chain_stable; [|done]; auto using grows_view).
  pose proof (chain_repr_append _ _ _ _ Hc1 Hok) as Hc2. rewrite Hsb in Hc2.
  rewrite blocks_bytes_cons, (ptr_bytes_Some _ _ _ Hb), take_app, (length_block_bytes _ _ Hwf).
  cbv zeta beta. fold k s. case_decide as Hz.
  - apply wp_ret. exists [p]. replace (n - BufferBlock_size b) with 0 by (unfold k in Hz; lia).
    rewrite take_0, app_nil_r. split_and!; [apply chain_ptrs_append|done..].
  - eapply wp_mono.
    { eapply (IH h1 (p :: own) (n - k)); [done|set_solver|simpl; lia|exact Hc2]. }
    intros c h2 (new & Hptrs & Hinv2 & Hc3 & Hv2 & Hs2). exists (p :: new). split_and!.
    + by rewrite Hptrs, chain_ptrs_append, <-(assoc_L (++)).
    + simpl. by rewrite Permutation_middle.
    + rewrite (assoc_L (++)). replace (n - BufferBlock_size b) with (n - k) by (unfold k in *; lia).
      by rewrite (blocks_bytes_ext h h1) in Hc3 by auto.
    + intros q. by rewrite Hv2.
    + congruence.
Qed.

Lemma wp_slicePrefix h F io bs n :
  pool_inv h (blocks_ io ++ F) → IoBuffer_repr h io bs →
  (Z.of_nat (length (blocks_ io ++ F) + length (blocks_ io)) < 2 ^ 32)%Z →
  wp (IoBuffer_slicePrefix io n)
     (λ '(io', c) h', io_post io (chain_ptrs c) F (drop n bs) h io' h' ∧
                      chain_repr h' c (take n bs)) h.
Proof.
  intros Hinv Hr Hlen. unfold IoBuffer_slicePrefix. case_decide as Hn.
  { subst n. apply wp_ret. rewrite drop_0, take_0. split; [|apply chain_repr_empty].
    split; [done|done|apply io_step_refl]. }
  wp_bind_on wp_slice_loop; [done|set_solver|done|apply chain_repr_empty|].
  intros c h1 (new & Hptrs & Hinv1 & Hc & Hv1 & Hs1). simpl in *. subst new.
  assert (IoBuffer_repr h1 io bs) as Hr1.
  { destruct Hr. split; try done. by rewrite (blocks_bytes_ext h h1). }
  assert (pool_inv h1 (blocks_ io ++ chain_ptrs c ++ F)) as Hinv1'.
  { by rewrite (Permutation_app_swap_app (blocks_ io)). }
  wp_bind_on wp_consume; [exact Hinv1'|exact Hr1|].
  intros io2 h2 [Hinv2 Hr2 Hst2]. apply wp_ret. split.
  - split; [done|done|]. eapply io_step_trans.
    + apply (io_step_views _ (blocks_ io)); [auto|done|by left].
    + eapply io_step_weaken; [|done]. set_solver.
  - destruct Hr as [_ <- _ _]. eapply chain_stable; [|exact Hc].
    intros p Hp. apply (st_grow _ _ _ _ _ Hst2). set_solver.
Qed.

Lemma wp_linearize h own l :
  pool_inv h own → (∀ p, p ∈ l → p ∈ own) →
  wp (linearize l) (λ bs h', bs = blocks_bytes h l ∧ h' = h) h.
Proof.
  intros Hinv. induction l as [|p l IH]; intros Hl; [by apply wp_ret|].
  destruct (pool_inv_lookup _ _ p Hinv) as (b & Hb & _); [apply Hl; left|].
  apply wp_bind, (wp_deref _ _ _ _ Hb). wp_bind_on IH; [set_solver|].
  intros bs h' [-> ->]. apply wp_ret. split; [|done].
  by rewrite blocks_bytes_cons, (ptr_bytes_Some _ _ _ Hb).
Qed.

(** [readableView] shows the contents, changes nothing but its cache, and the
    cache it leaves is consistent. *)
Lemma wp_readableView h F io bs :
  pool_inv h (blocks_ io ++ F) → IoBuffer_repr h io bs →
  wp (IoBuffer_readableView io)
     (λ '(io', v) h', v = bs ∧ h' = h ∧ blocks_ io' = blocks_ io ∧ IoBuffer_repr h io' bs) h.
Proof.
  intros Hinv Hr. pose proof Hr as [Hnd Hb Hs Hlin].
  unfold IoBuffer_readableView. case_decide as Hz.
  { apply wp_ret. split_and!; try done. symmetry. apply nil_length_inv. lia. }
  destruct (blocks_ io) as [|p rest] eqn:Hbl.
  { subst bs. simpl in *. lia. }
  destruct (pool_inv_lookup _ _ p Hinv) as (b & Hp & Hwf & _); [left|].
  apply wp_bind, (wp_opt _ p); [done|]. apply wp_bind, (wp_deref _ _ _ _ Hp).
  case_decide as Hone.
  { apply wp_ret. split_and!; try done.
    rewrite blocks_bytes_cons, (ptr_bytes_Some _ _ _ Hp) in Hb.
    apply (f_equal length) in Hb as Hl. rewrite length_app, (length_block_bytes _ _ Hwf) in Hl.
    assert (blocks_bytes h rest = []) as Hrest by (apply nil_length_inv; lia).
    by rewrite Hrest, app_nil_r in Hb. }
  apply wp_bind. case_decide as Hnil.
  - wp_bind_on wp_linearize; [exact Hinv|set_solver|].
    intros lin h' [-> ->]. apply wp_ret, wp_bind. rewrite Hb. simpl.
    apply wp_bind, wp_assert; [lia|]. apply wp_ret, wp_ret. rewrite drop_0.
    split_and!; try done. split; simpl; try done. right. rewrite drop_0. split; [lia|done].
  - apply wp_ret, wp_bind, wp_bind. destruct Hlin as [?|[Hoff Hlin]]; [done|].
    apply wp_assert; [done|]. apply wp_ret, wp_ret. done.
Qed.

(** ** Giving references back *)

Lemma wp_release_blocks h F l :
  pool_inv h (l ++ F) →
  wp (release_blocks l)
     (λ _ h', pool_inv h' F ∧ (∀ q, q ∈ F → view h' q = view h q) ∧
              block_size_ h' = block_size_ h) h.
Proof.
  revert h. induction l as [|p l IH]; intros h Hinv; [by apply wp_ret|].
  wp_bind_on wp_release; [exact Hinv|]. intros _ h1 (Hinv1 & Hv1 & Hs1).
  eapply wp_mono; [by apply IH|]. intros _ h2 (Hinv2 & Hv2 & Hs2).
  split_and!; [done| |congruence]. intros q Hq. rewrite Hv2 by done. apply Hv1. set_solver.
Qed.

Lemma wp_clear h F io :
  pool_inv h (blocks_ io ++ F) →
  wp (IoBuffer_clear io) (λ io' h', io' = IoBuffer_new ∧ io_post io [] F [] h io' h') h.
Proof.
  intros Hinv. wp_bind_on wp_release_blocks; [exact Hinv|]. intros _ h1 (Hinv1 & Hv1 & Hs1).
  apply wp_ret. split; [done|]. split; [done| |].
  - split; simpl; try done; [constructor|by left].
  - apply io_step_views; [done..|]. intros q Hq. by apply elem_of_nil in Hq.
Qed.

Lemma wp_slice_reset h F s :
  pool_inv h (slice_ptrs s ++ F) →
  wp (BufferSlice_reset s)
     (λ _ h', pool_inv h' F ∧ (∀ q, q ∈ F → view h' q = view h q) ∧
              block_size_ h' = block_size_ h) h.
Proof.
  intros Hinv. apply wp_bind. unfold slice_ptrs in Hinv. destruct (block_ s); simpl in Hinv.
  - eapply wp_mono; [by apply wp_release|]. intros [] h1 Hpost. by apply wp_ret.
  - by apply wp_ret, wp_ret.
Qed.

Lemma wp_reset_slices h F l :
  pool_inv h ((l ≫= slice_ptrs) ++ F) →
  wp (reset_slices l)
     (λ _ h', pool_inv h' F ∧ (∀ q, q ∈ F → view h' q = view h q) ∧
              block_size_ h' = block_size_ h) h.
Proof.
  revert h. induction l as [|s l IH]; intros h Hinv; [by apply wp_ret|].
  csimpl in Hinv. rewrite <-(assoc_L (++)) in Hinv.
  wp_bind_on wp_slice_reset; [exact Hinv|]. intros _ h1 (Hinv1 & Hv1 & Hs1).
  eapply wp_mono; [by apply IH|]. intros _ h2 (Hinv2 & Hv2 & Hs2).
  split_and!; [done| |congruence]. intros q Hq. rewrite Hv2 by done. apply Hv1. set_solver.
Qed.

Lemma wp_toString h c bs :
  chain_repr h c bs → wp (BufferChain_toStringForTest c) (λ r h', r = bs ∧ h' = h) h.
Proof.
  intros [Hok <- _]. unfold BufferChain_toStringForTest.
  induction Hok as [|s l Hs Hl IH]; [by apply wp_ret|]. csimpl.
  destruct Hs as (p & d & b & e & Hp & Hv & _ & Hle).
  pose proof Hv as (blk & Hb & <- & _)%view_inv. apply wp_bind, wp_bind.
  eapply wp_opt; [done|]. apply wp_bind, (wp_deref _ _ _ _ Hb), wp_bind, wp_assert; [done|].
  apply wp_ret. wp_bind_on IH. intros r h' [-> ->]. apply wp_ret.
  split; [|done]. unfold slice_bytes at 2. by rewrite Hp; simpl; rewrite Hv.
Qed.

Lemma wp_MakeBufferChain h F data :
  pool_inv h F → (Z.of_nat (length F + 3 * length data) < 2 ^ 32)%Z →
  wp (MakeBufferChain data)
     (λ c h', pool_inv h' (chain_ptrs c ++ F) ∧ chain_repr h' c data ∧ io_step [] [] F h h') h.
Proof.
  intros Hinv Hlen.
  wp_bind_on (wp_append h F IoBuffer_new []); [done| |simpl; lia|].
  { split; simpl; try done; [constructor|by left]. }
  simpl. intros io h1 [[Hinv1 Hr1 Hst1] Hl1]. simpl in *.
  wp_bind_on wp_slicePrefix; [exact Hinv1|exact Hr1|rewrite length_app; lia|].
  intros [io2 c] h2 [[Hinv2 Hr2 Hst2] Hc].
  apply wp_bind, wp_bind.
  eapply wp_mono; [apply (wp_release_blocks h2 (chain_ptrs c ++ F)), Hinv2|].
  intros _ h3 (Hinv3 & Hv3 & Hs3). apply wp_ret, wp_ret. split_and!; [done| |].
  - rewrite take_ge in Hc by lia. eapply chain_stable; [|exact Hc].
    intros p Hp. apply grows_view, Hv3. set_solver.
  - eapply io_step_trans; [exact Hst1|]. eapply io_step_trans; [exact Hst2|].
    apply io_step_views; [set_solver|done|set_solver].
Qed.

(** ** Slices and chains as owners *)

Lemma wp_retain_opt h own o :
  pool_inv h own → (∀ p, o = Some p → p ∈ own) → (Z.of_nat (length own) + 1 < 2 ^ 32)%Z →
  wp (retain_opt o)
     (λ _ h', pool_inv h' (option_list o ++ own) ∧ (∀ q, view h' q = view h q) ∧
              block_size_ h' = block_size_ h) h.
Proof.
  intros Hinv Ho Hlen. destruct o as [p|]; [by apply wp_retain; auto|by apply wp_ret].
Qed.

Lemma wp_copy_slices h own l :
  pool_inv h own → (∀ p, p ∈ (l ≫= slice_ptrs) → p ∈ own) →
  (Z.of_nat (length own + length l) < 2 ^ 32)%Z →
  wp (copy_slices l)
     (λ l' h', l' = l ∧ pool_inv h' ((l ≫= slice_ptrs) ++ own) ∧
               (∀ q, view h' q = view h q) ∧ block_size_ h' = block_size_ h) h.
Proof.
  revert h own. induction l as [|[o off len] l IH]; intros h own Hinv Hl Hlen; [by apply wp_ret|].
  csimpl in *. apply wp_bind, wp_bind. eapply wp_mono.
  { apply (wp_retain_opt h own o); [done| |lia]. intros p ->. apply Hl. set_solver. }
  intros _ h1 (Hinv1 & Hv1 & Hs1). apply wp_ret. eapply wp_bind, wp_mono.
  { apply (IH h1 (option_list o ++ own)); [done|set_solver|].
    rewrite length_app. destruct o; simpl; lia. }
  intros l' h2 (-> & Hinv2 & Hv2 & Hs2). apply wp_ret. split_and!; [done| | |congruence].
  - unfold slice_ptrs at 1. simpl. rewrite <-(assoc_L (++)).
    by rewrite (Permutation_app_swap_app (option_list o)).
  - intros q. by rewrite Hv2.
Qed.

(** A copied chain shows the same bytes and owns its own references. *)
Lemma wp_chain_copy h own c bs :
  pool_inv h own → (∀ p, p ∈ chain_ptrs c → p ∈ own) →
  (Z.of_nat (length own + length (slices_ c)) < 2 ^ 32)%Z → chain_repr h c bs →
  wp (BufferChain_copy c)
     (λ c' h', pool_inv h' (chain_ptrs c' ++ own) ∧ chain_repr h' c' bs ∧
               (∀ q, view h' q = view h q) ∧ block_size_ h' = block_size_ h) h.
Proof.
  intros Hinv Hown Hlen Hc. wp_bind_on wp_copy_slices; [done..|].
  intros l h' (-> & Hinv' & Hv & Hs). apply wp_ret. destruct c as [l t]. simpl.
  split_and!; [done| |done..]. eapply chain_stable; [|exact Hc].
  intros p _. by apply grows_view.
Qed.

(** Copy assignment: the old references are given back, the new ones shared with
    [F], where those of [other] are. *)
Lemma wp_slice_assign h F this other :
  pool_inv h (slice_ptrs this ++ F) → (∀ p, p ∈ slice_ptrs other → p ∈ F) →
  (Z.of_nat (length F) + 1 < 2 ^ 32)%Z →
  wp (BufferSlice_assign this other)
     (λ s h', s = other ∧ pool_inv h' (slice_ptrs other ++ F) ∧
              (∀ q, q ∈ F → view h' q = view h q) ∧ block_size_ h' = block_size_ h) h.
Proof.
  intros Hinv Hin Hlen. wp_bind_on wp_slice_reset; [exact Hinv|]. intros _ h1 (Hinv1 & Hv1 & Hs1).
  destruct other as [o off len].
  wp_bind_on (wp_retain_opt h1 F o Hinv1); [|done|].
  { intros p ->. apply Hin. by left. }
  intros _ h2 (Hinv2 & Hv2 & Hs2). apply wp_ret. split_and!; [done..| |congruence].
  intros q Hq. rewrite Hv2. auto.
Qed.

Lemma wp_assign_slices h F this other :
  pool_inv h ((this ≫= slice_ptrs) ++ F) → (∀ p, p ∈ other ≫= slice_ptrs → p ∈ F) →
  (Z.of_nat (length (this ≫= slice_ptrs) + length F + length other) < 2 ^ 32)%Z →
  wp (assign_slices this other)
     (λ l h', l = other ∧ pool_inv h' ((other ≫= slice_ptrs) ++ F) ∧
              (∀ q, q ∈ F → view h' q = view h q) ∧ block_size_ h' = block_size_ h) h.
Proof.
  revert h F other. induction this as [|s this IH]; intros h F other Hinv Hin Hlen.
  { simpl in *. eapply wp_mono; [by apply (wp_copy_slices h F); [done..|lia]|].
    intros l h' (-> & ? & ? & ?). by split_and!. }
  destruct other as [|o other].
  { wp_bind_on (wp_reset_slices h F (s :: this)); [exact Hinv|]. intros _ h1 (Hinv1 & Hv1 & Hs1).
    by apply wp_ret. }
  csimpl in *. rewrite <-(assoc_L (++)) in Hinv. rewrite length_app in Hlen.
  wp_bind_on (wp_slice_assign h ((this ≫= slice_ptrs) ++ F) s o); [done|set_solver|rewrite length_app; lia|].
  intros ? h1 (-> & Hinv1 & Hv1 & Hs1). rewrite (Permutation_app_swap_app (slice_ptrs o)) in Hinv1.
  wp_bind_on (IH h1 (slice_ptrs o ++ F) other); [done|set_solver| |].
  { rewrite length_app. unfold slice_ptrs at 2. destruct (block_ o); simpl; lia. }
  intros l h2 (-> & Hinv2 & Hv2 & Hs2). apply wp_ret. split_and!; [done| | |congruence].
  - by rewrite <-(assoc_L (++)), (Permutation_app_swap_app (slice_ptrs o)).
  - intros q Hq. rewrite Hv2 by set_solver. apply Hv1. set_solver.
Qed.

Lemma wp_chain_assign room h F this other bs :
  pool_inv h (chain_ptrs this ++ F) → (∀ p, p ∈ chain_ptrs other → p ∈ F) →
  (Z.of_nat (length (chain_ptrs this) + length F + length (slices_ other)) < 2 ^ 32)%Z →
  chain_repr h other bs →
  wp (BufferChain_assign room this other)
     (λ c h', pool_inv h' (chain_ptrs c ++ F) ∧ chain_repr h' c bs ∧
              (∀ q, q ∈ F → view h' q = view h q) ∧ block_size_ h' = block_size_ h) h.
Proof.
  intros Hinv Hin Hlen Hc. apply wp_bind. eapply (wp_mono _ (λ l h',
    l = slices_ other ∧ pool_inv h' ((slices_ other ≫= slice_ptrs) ++ F) ∧
    (∀ q, q ∈ F → view h' q = view h q) ∧ block_size_ h' = block_size_ h)).
  - destruct room; [by apply wp_assign_slices|].
    wp_bind_on (wp_copy_slices h (chain_ptrs this ++ F) (slices_ other));
      [done|set_solver|rewrite length_app; lia|].
    intros l h1 (-> & Hinv1 & Hv1 & Hs1). rewrite (Permutation_app_swap_app (slices_ other ≫= slice_ptrs)) in Hinv1.
    wp_bind_on (wp_reset_slices h1 _ (slices_ this)); [exact Hinv1|].
    intros _ h2 (Hinv2 & Hv2 & Hs2). apply wp_ret. split_and!; [done..| |congruence].
    intros q Hq. rewrite Hv2 by set_solver. apply Hv1.
  - intros l h' (-> & Hinv' & Hv & Hs). apply wp_ret. destruct other as [l t]. simpl in *.
    split_and!; [done| |done..]. eapply chain_stable; [|exact Hc].
    intros p Hp. by apply grows_view, Hv, Hin.
Qed.

Lemma wp_chain_assign_move h F this other :
  pool_inv h (chain_ptrs this ++ F) →
  wp (BufferChain_assign_move this other)
     (λ r h', r = (other, BufferChain_new) ∧ pool_inv h' F ∧
              (∀ q, q ∈ F → view h' q = view h q) ∧ block_size_ h' = block_size_ h) h.
Proof.
  intros Hinv. wp_bind_on wp_reset_slices; [exact Hinv|]. intros [] h1 Hpost. by apply wp_ret.
Qed.
