(* ===== verification/BufferWorld.v ===== *)
(** * BufferWorld: the buffer subsystem refines independent byte strings

    A [world] is everything that lives on one worker's [BlockPool]: I/O buffers
    and chains, which share blocks.  [run_op] runs an operation of
    src/buffer.cpp on it.  The specification [aworld] knows no blocks: a buffer
    is a byte queue and a chain an immutable byte string.  [run_op_step]
    shows that every operation on every world does exactly what the
    specification says, never goes wrong, and never disturbs another object. *)
From S2P Require Import Prelude Buffer BufferInv.

(** ** Operations *)

Inductive op :=
  | NewIo (i : nat)
  | Append (i : nat) (data : bytes)
  | Consume (i n : nat)
  | View (i : nat)
  | SlicePrefix (i n c : nat)
  | Clear (i : nat)
  | DestroyIo (i : nat)
  | Make (c : nat) (data : bytes)
  | AppendChain (c c' : nat)
  | CopyChain (c c' : nat)
  | AssignChain (room : bool) (c c' : nat)
  | MoveChain (c c' : nat)
  | DestroyChain (c : nat)
  | ReadChain (c : nat)
  | Reserve (i : nat).

Record world := mkWorld {
  w_pool : BlockPool;
  w_ios : gmap nat IoBuffer;
  w_chains : gmap nat BufferChain
}.

Record aworld := mkAworld { a_ios : gmap nat bytes; a_chains : gmap nat bytes }.

(** The concrete machine: what an operation returns is the bytes it shows. *)
Definition run_op (o : op) (w : world) : option (bytes * world) :=
  let ios := w_ios w in
  let chains := w_chains w in
  let run {A} (m : ST BlockPool A) (k : A → BlockPool → bytes * world) :=
    '(a, h) ← m (w_pool w); Some (k a h) in
  match o with
  | NewIo i => Some ([], mkWorld (w_pool w) (<[i := IoBuffer_new]> ios) chains)
  | Append i data =>
      io ← ios !! i;
      run (IoBuffer_append io data) (λ io h, ([], mkWorld h (<[i := io]> ios) chains))
  | Consume i n =>
      io ← ios !! i;
      run (IoBuffer_consume io n) (λ io h, ([], mkWorld h (<[i := io]> ios) chains))
  | View i =>
      io ← ios !! i;
      run (IoBuffer_readableView io) (λ '(io, v) h, (v, mkWorld h (<[i := io]> ios) chains))
  | SlicePrefix i n c =>
      io ← ios !! i;
      run (IoBuffer_slicePrefix io n)
          (λ '(io, ch) h, ([], mkWorld h (<[i := io]> ios) (<[c := ch]> chains)))
  | Clear i =>
      io ← ios !! i;
      run (IoBuffer_clear io) (λ io h, ([], mkWorld h (<[i := io]> ios) chains))
  | DestroyIo i =>
      io ← ios !! i;
      run (IoBuffer_clear io) (λ _ h, ([], mkWorld h (delete i ios) chains))
  | Make c data =>
      run (MakeBufferChain data) (λ ch h, ([], mkWorld h ios (<[c := ch]> chains)))
  | AppendChain c c' =>
      ch ← chains !! c; ch' ← chains !! c';
      let '(ch, ch') := BufferChain_appendChain ch ch' in
      Some ([], mkWorld (w_pool w) ios (<[c := ch]> (<[c' := ch']> chains)))
  | CopyChain c c' =>
      ch ← chains !! c;
      run (BufferChain_copy ch) (λ ch' h, ([], mkWorld h ios (<[c' := ch']> chains)))
  | AssignChain room c c' =>
      ch ← chains !! c; ch' ← chains !! c';
      if decide (c = c') then Some ([], w) else
      run (BufferChain_assign room ch ch') (λ ch h, ([], mkWorld h ios (<[c := ch]> chains)))
  | MoveChain c c' =>
      ch ← chains !! c; ch' ← chains !! c';
      if decide (c = c') then Some ([], w) else
      run (BufferChain_assign_move ch ch')
          (λ '(ch, ch') h, ([], mkWorld h ios (<[c := ch]> (<[c' := ch']> chains))))
  | DestroyChain c =>
      ch ← chains !! c;
      run (BufferChain_destroy ch) (λ _ h, ([], mkWorld h ios (delete c chains)))
  | ReadChain c =>
      ch ← chains !! c;
      run (BufferChain_toStringForTest ch) (λ v h, (v, mkWorld h ios chains))
  | Reserve i =>
      io ← ios !! i;
      run (IoBuffer_reserveWritable io) (λ '(io, _, _) h, ([], mkWorld h (<[i := io]> ios) chains))
  end.

(** The specification. *)
Definition arun_op (o : op) (a : aworld) : option (bytes * aworld) :=
  let ios := a_ios a in
  let chains := a_chains a in
  match o with
  | NewIo i => Some ([], mkAworld (<[i := []]> ios) chains)
  | Append i data => q ← ios !! i; Some ([], mkAworld (<[i := q ++ data]> ios) chains)
  | Consume i n => q ← ios !! i; Some ([], mkAworld (<[i := drop n q]> ios) chains)
  | View i => q ← ios !! i; Some (q, a)
  | SlicePrefix i n c =>
      q ← ios !! i;
      Some ([], mkAworld (<[i := drop n q]> ios) (<[c := take n q]> chains))
  | Clear i => _ ← ios !! i; Some ([], mkAworld (<[i := []]> ios) chains)
  | DestroyIo i => _ ← ios !! i; Some ([], mkAworld (delete i ios) chains)
  | Make c data => Some ([], mkAworld ios (<[c := data]> chains))
  | AppendChain c c' =>
      x ← chains !! c; y ← chains !! c';
      Some ([], mkAworld ios (<[c := x ++ y]> (<[c' := []]> chains)))
  | CopyChain c c' => x ← chains !! c; Some ([], mkAworld ios (<[c' := x]> chains))
  | AssignChain _ c c' =>
      _ ← chains !! c; y ← chains !! c'; Some ([], mkAworld ios (<[c := y]> chains))
  | MoveChain c c' =>
      _ ← chains !! c; y ← chains !! c';
      if decide (c = c') then Some ([], a)
      else Some ([], mkAworld ios (<[c := y]> (<[c' := []]> chains)))
  | DestroyChain c => _ ← chains !! c; Some ([], mkAworld ios (delete c chains))
  | ReadChain c => x ← chains !! c; Some (x, a)
  | Reserve i => _ ← ios !! i; Some ([], a)
  end.

(** ** The simulation relation *)

(** What the objects of a map hold, such as references. *)
Definition map_ptrs {A T} (f : A → list T) (m : gmap nat A) : list T :=
  map_to_list m ≫= λ e, f e.2.

(** Every reference held in the world. *)
Definition owns (w : world) : list ptr :=
  map_ptrs blocks_ (w_ios w) ++ map_ptrs chain_ptrs (w_chains w).

(** The same names, with related objects. *)
Definition map_rel {A B} (R : A → B → Prop) (m : gmap nat A) (m' : gmap nat B) : Prop :=
  ∀ i, option_Forall2 R (m !! i) (m' !! i).

Record world_rel (w : world) (a : aworld) : Prop := {
  wr_pool : pool_inv (w_pool w) (owns w);
  wr_ios : map_rel (IoBuffer_repr (w_pool w)) (w_ios w) (a_ios a);
  wr_chains : map_rel (chain_repr (w_pool w)) (w_chains w) (a_chains a);
  wr_disj : ∀ i j io io' p, i ≠ j → w_ios w !! i = Some io → w_ios w !! j = Some io' →
            p ∈ blocks_ io → p ∉ blocks_ io'
}.

(** A new object gets a new name, the 32-bit reference counts cannot run over (an
    operation creates at most that many references), and no chain is appended to
    itself, which [appendChain] leaves undefined: it would insert a range of a
    vector into that same vector. *)
Definition op_fits (o : op) (w : world) : Prop :=
  match o with
  | NewIo i => w_ios w !! i = None
  | Append _ data => (Z.of_nat (length (owns w) + length data) < 2 ^ 32)%Z
  | SlicePrefix _ _ c =>
      w_chains w !! c = None ∧ (Z.of_nat (2 * length (owns w)) < 2 ^ 32)%Z
  | Make c data =>
      w_chains w !! c = None ∧ (Z.of_nat (length (owns w) + 3 * length data) < 2 ^ 32)%Z
  | AppendChain c c' => c ≠ c'
  | CopyChain _ c' =>
      w_chains w !! c' = None ∧ (Z.of_nat (2 * length (owns w)) < 2 ^ 32)%Z
  | AssignChain _ _ _ => (Z.of_nat (2 * length (owns w)) < 2 ^ 32)%Z
  | Reserve _ => (Z.of_nat (length (owns w)) + 1 < 2 ^ 32)%Z
  | _ => True
  end.

(** ** Maps of objects *)

Section maps.
Context {A B T : Type} (f : A → list T) (R : A → B → Prop).
Implicit Types (m : gmap nat A).

Lemma map_ptrs_delete m i x :
  m !! i = Some x → map_ptrs f m ≡ₚ f x ++ map_ptrs f (delete i m).
Proof. intros Hi. unfold map_ptrs. by rewrite <-(map_to_list_delete m i x Hi). Qed.

Lemma map_ptrs_insert_None m i x :
  m !! i = None → map_ptrs f (<[i := x]> m) ≡ₚ f x ++ map_ptrs f m.
Proof. intros Hi. unfold map_ptrs. by rewrite map_to_list_insert. Qed.

Lemma map_ptrs_insert m i x :
  map_ptrs f (<[i := x]> m) ≡ₚ f x ++ map_ptrs f (delete i m).
Proof. by rewrite <-insert_delete_eq, map_ptrs_insert_None by apply lookup_delete_eq. Qed.

Lemma elem_of_map_ptrs m p : p ∈ map_ptrs f m ↔ ∃ i x, m !! i = Some x ∧ p ∈ f x.
Proof.
  unfold map_ptrs. rewrite list_elem_of_bind. split.
  - intros ([i x] & Hp & Hi%elem_of_map_to_list). eauto.
  - intros (i & x & Hi & Hp). exists (i, x). split; [done|]. by apply elem_of_map_to_list.
Qed.

Lemma map_rel_lookup m (m' : gmap nat B) i x :
  map_rel R m m' → m !! i = Some x → ∃ y, m' !! i = Some y ∧ R x y.
Proof. intros Hr Hi. specialize (Hr i). rewrite Hi in Hr. inversion Hr; eauto. Qed.

Lemma map_rel_insert m (m' : gmap nat B) i x y :
  R x y → map_rel R (delete i m) (delete i m') → map_rel R (<[i := x]> m) (<[i := y]> m').
Proof.
  intros Hxy Hr j. specialize (Hr j). destruct (decide (j = i)) as [->|?].
  - rewrite !lookup_insert_eq. by constructor.
  - rewrite !lookup_insert_ne by done. by rewrite !lookup_delete_ne in Hr by done.
Qed.

Lemma map_rel_delete m (m' : gmap nat B) i : map_rel R m m' → map_rel R (delete i m) (delete i m').
Proof.
  intros Hr j. destruct (decide (j = i)) as [->|?].
  - rewrite !lookup_delete_eq. constructor.
  - by rewrite !lookup_delete_ne.
Qed.
End maps.

Lemma map_rel_mono {A B} (R R' : A → B → Prop) (m : gmap nat A) (m' : gmap nat B) :
  (∀ i x y, m !! i = Some x → R x y → R' x y) → map_rel R m m' → map_rel R' m m'.
Proof.
  intros HR Hr i. specialize (Hr i). destruct (m !! i) as [x|] eqn:E; inversion Hr; constructor.
  eauto.
Qed.

(** ** Stability of the other objects *)

Lemma IoBuffer_repr_views h h' io q :
  (∀ p, p ∈ blocks_ io → view h' p = view h p) → IoBuffer_repr h io q → IoBuffer_repr h' io q.
Proof. intros Hv [Hnd Hb Hs Hl]. split; try done. by rewrite (blocks_bytes_ext h h'). Qed.

Lemma ios_stable ios aios h h' bl bl' F :
  io_step bl bl' F h h' →
  (∀ p, p ∈ map_ptrs blocks_ ios → p ∈ F ∧ p ∉ bl) →
  map_rel (IoBuffer_repr h) ios aios → map_rel (IoBuffer_repr h') ios aios.
Proof.
  intros Hst Hown. apply map_rel_mono. intros i io q Hi. apply IoBuffer_repr_views.
  intros p Hp. destruct (Hown p) as [? ?]; [apply elem_of_map_ptrs; eauto|].
  by apply (st_keep _ _ _ _ _ Hst).
Qed.

Lemma chains_stable chains achains h h' bl bl' F :
  io_step bl bl' F h h' → (∀ p, p ∈ map_ptrs chain_ptrs chains → p ∈ F) →
  map_rel (chain_repr h) chains achains → map_rel (chain_repr h') chains achains.
Proof.
  intros Hst Hown. apply map_rel_mono. intros i c x Hi. apply chain_stable.
  intros p Hp. apply (st_grow _ _ _ _ _ Hst), Hown, elem_of_map_ptrs. eauto.
Qed.

(** The references that are not the buffer's own. *)
Definition frame_of (w : world) (i : nat) : list ptr :=
  map_ptrs blocks_ (delete i (w_ios w)) ++ map_ptrs chain_ptrs (w_chains w).

Lemma owns_frame w i io :
  w_ios w !! i = Some io → owns w ≡ₚ blocks_ io ++ frame_of w i.
Proof.
  intros Hi. unfold owns, frame_of. by rewrite (map_ptrs_delete blocks_ _ _ _ Hi), (assoc_L (++)).
Qed.

Lemma frame_disjoint w a i io p :
  world_rel w a → w_ios w !! i = Some io →
  p ∈ map_ptrs blocks_ (delete i (w_ios w)) → p ∈ frame_of w i ∧ p ∉ blocks_ io.
Proof.
  intros Hw Hi Hp. split; [unfold frame_of; set_solver|].
  apply elem_of_map_ptrs in Hp as (j & io' & Hj & Hp).
  apply lookup_delete_Some in Hj as [Hne Hj]. by apply (wr_disj _ _ Hw j i io' io).
Qed.

(** An operation on buffer [i] that hands [extra] over to the chains. *)
Lemma io_op_rel w a i io extra q' h' io' chains' achains' :
  world_rel w a → w_ios w !! i = Some io →
  io_post io extra (frame_of w i) q' (w_pool w) io' h' →
  map_ptrs chain_ptrs chains' ≡ₚ extra ++ map_ptrs chain_ptrs (w_chains w) →
  map_rel (chain_repr h') chains' achains' →
  world_rel (mkWorld h' (<[i := io']> (w_ios w)) chains')
            (mkAworld (<[i := q']> (a_ios a)) achains').
Proof.
  intros Hw Hi [Hinv Hr Hst] Hch Hcr. pose proof Hw as [_ Hios _ Hdisj]. split; simpl.
  - unfold owns. simpl. rewrite map_ptrs_insert, Hch. unfold frame_of in Hinv.
    by rewrite <-(assoc_L (++)), (Permutation_app_swap_app (map_ptrs _ _)).
  - apply map_rel_insert; [done|]. eapply ios_stable; [exact Hst| |by apply map_rel_delete].
    intros p. by apply (frame_disjoint w a).
  - done.
  - assert (∀ j x p, j ≠ i → w_ios w !! j = Some x → p ∈ blocks_ io' → p ∉ blocks_ x) as Hnew.
    { intros j x p Hj Hx Hp Hpx.
      assert (p ∈ frame_of w i ∧ p ∉ blocks_ io) as [? ?].
      { apply (frame_disjoint w a); [done..|]. apply elem_of_map_ptrs. exists j, x.
        by rewrite lookup_delete_ne. }
      by destruct (st_fresh _ _ _ _ _ Hst p Hp). }
    intros j k x y p Hjk Hj Hk Hpx Hpy.
    destruct (decide (j = i)) as [->|Hji], (decide (k = i)) as [->|Hki]; [done|..].
    + rewrite lookup_insert_eq in Hj. rewrite lookup_insert_ne in Hk by done. simplify_eq.
      by apply (Hnew k y p).
    + rewrite lookup_insert_eq in Hk. rewrite lookup_insert_ne in Hj by done. simplify_eq.
      by apply (Hnew j x p).
    + rewrite lookup_insert_ne in Hj, Hk by done. by apply (Hdisj j k x y p).
Qed.

(** ** Each operation *)

Section step.
Context (w : world) (a : aworld) (Hw : world_rel w a).

Lemma io_of i q :
  a_ios a !! i = Some q →
  ∃ io, w_ios w !! i = Some io ∧ IoBuffer_repr (w_pool w) io q ∧
        pool_inv (w_pool w) (blocks_ io ++ frame_of w i).
Proof.
  intros Hi. pose proof (wr_ios _ _ Hw i) as Hr. rewrite Hi in Hr.
  inversion Hr as [io ? ? Hio|]; subst. exists io. split_and!; [done..|].
  rewrite <-owns_frame by done. apply wr_pool with (1 := Hw).
Qed.

Lemma chain_of c x :
  a_chains a !! c = Some x →
  ∃ ch, w_chains w !! c = Some ch ∧ chain_repr (w_pool w) ch x.
Proof.
  intros Hi. pose proof (wr_chains _ _ Hw c) as Hr. rewrite Hi in Hr.
  inversion Hr; subst. eauto.
Qed.

Lemma a_chain_None c : w_chains w !! c = None → a_chains a !! c = None.
Proof. intros Hc. pose proof (wr_chains _ _ Hw c) as Hr. rewrite Hc in Hr. by inversion Hr. Qed.

Lemma own_lengths i io : w_ios w !! i = Some io →
  length (owns w) = length (blocks_ io ++ frame_of w i) ∧ length (blocks_ io) ≤ length (owns w).
Proof. intros Hi. rewrite (owns_frame _ _ _ Hi), length_app. lia. Qed.

(** An operation on one buffer that creates no chain. *)
Lemma io_only_rel i io q q' h' io' :
  w_ios w !! i = Some io → a_ios a !! i = Some q →
  io_post io [] (frame_of w i) q' (w_pool w) io' h' →
  world_rel (mkWorld h' (<[i := io']> (w_ios w)) (w_chains w))
            (mkAworld (<[i := q']> (a_ios a)) (a_chains a)).
Proof.
  intros Hi Hq Hpost. eapply io_op_rel; [done..| |]; [done|].
  eapply chains_stable; [apply Hpost| |apply Hw]. unfold frame_of. set_solver.
Qed.

Lemma new_io_rel i :
  w_ios w !! i = None →
  world_rel (mkWorld (w_pool w) (<[i := IoBuffer_new]> (w_ios w)) (w_chains w))
            (mkAworld (<[i := []]> (a_ios a)) (a_chains a)).
Proof.
  intros Hi. destruct Hw as [Hinv Hios Hch Hdisj]. split; simpl; [| |done|].
  - unfold owns. simpl. by rewrite map_ptrs_insert_None.
  - apply map_rel_insert; [|by apply map_rel_delete].
    split; simpl; try done; [constructor|by left].
  - intros j k x y p Hjk. rewrite !lookup_insert.
    repeat case_decide; intros; simplify_eq; (set_solver || by eapply Hdisj).
Qed.

Lemma slice_rel i io q n h' io' ch c :
  w_ios w !! i = Some io → w_chains w !! c = None →
  io_post io (chain_ptrs ch) (frame_of w i) (drop n q) (w_pool w) io' h' →
  chain_repr h' ch (take n q) →
  world_rel (mkWorld h' (<[i := io']> (w_ios w)) (<[c := ch]> (w_chains w)))
            (mkAworld (<[i := drop n q]> (a_ios a)) (<[c := take n q]> (a_chains a))).
Proof.
  intros Hi Hc Hpost Hch. eapply io_op_rel; [done..| |].
  - by rewrite map_ptrs_insert_None.
  - apply map_rel_insert; [done|]. rewrite !delete_id by auto using a_chain_None.
    eapply chains_stable; [apply Hpost| |apply Hw]. unfold frame_of. set_solver.
Qed.

(** A chain that nobody owns yet, created without touching anybody's view. *)
Lemma new_chain_rel c ch x h' :
  w_chains w !! c = None → pool_inv h' (chain_ptrs ch ++ owns w) → chain_repr h' ch x →
  io_step [] [] (owns w) (w_pool w) h' →
  world_rel (mkWorld h' (w_ios w) (<[c := ch]> (w_chains w)))
            (mkAworld (a_ios a) (<[c := x]> (a_chains a))).
Proof.
  intros Hc Hinv Hch Hst. split; simpl.
  - unfold owns in *. simpl. rewrite map_ptrs_insert_None by done.
    by rewrite (Permutation_app_swap_app (map_ptrs _ _)).
  - eapply ios_stable; [exact Hst| |apply Hw]. unfold owns. set_solver.
  - apply map_rel_insert; [done|]. rewrite !delete_id by auto using a_chain_None.
    eapply chains_stable; [exact Hst| |apply Hw]. unfold owns. set_solver.
  - apply Hw.
Qed.

Lemma append_chain_rel c c' ch ch' x x' :
  c ≠ c' → w_chains w !! c = Some ch → w_chains w !! c' = Some ch' →
  chain_repr (w_pool w) ch x → chain_repr (w_pool w) ch' x' →
  world_rel
    (mkWorld (w_pool w) (w_ios w)
       (<[c := (BufferChain_appendChain ch ch').1]>
          (<[c' := (BufferChain_appendChain ch ch').2]> (w_chains w))))
    (mkAworld (a_ios a) (<[c := x ++ x']> (<[c' := []]> (a_chains a)))).
Proof.
  intros Hne Hc Hc' Hx [Hok' Hb' _]. destruct Hw as [Hinv Hios Hch Hdisj].
  destruct (chain_append_slices (w_pool w) ch (slices_ ch') x Hx Hok') as [Hr Hp].
  split; simpl; [|done| |done].
  - unfold owns in *. simpl. rewrite map_ptrs_insert, Hp, delete_insert_ne by done.
    rewrite map_ptrs_insert. simpl.
    rewrite (map_ptrs_delete chain_ptrs _ _ _ Hc) in Hinv.
    rewrite (map_ptrs_delete chain_ptrs _ c' ch') in Hinv by (by rewrite lookup_delete_ne).
    by rewrite <-(assoc_L (++) (chain_ptrs ch)).
  - apply map_rel_insert; [by rewrite <-Hb'|].
    rewrite !delete_insert_ne by done. apply map_rel_insert; [apply chain_repr_empty|].
    by apply map_rel_delete, map_rel_delete.
Qed.

(** Everything but chain [c]. *)
Definition others (c : nat) : list ptr :=
  map_ptrs blocks_ (w_ios w) ++ map_ptrs chain_ptrs (delete c (w_chains w)).

Lemma owns_others c ch : w_chains w !! c = Some ch → owns w ≡ₚ chain_ptrs ch ++ others c.
Proof.
  intros Hc. unfold owns, others. rewrite (map_ptrs_delete chain_ptrs _ _ _ Hc).
  apply Permutation_app_swap_app.
Qed.

Lemma others_in c c' ch' p : c ≠ c' → w_chains w !! c' = Some ch' → p ∈ chain_ptrs ch' → p ∈ others c.
Proof.
  intros Hne Hc' Hp. unfold others. apply elem_of_app. right. apply elem_of_map_ptrs.
  exists c', ch'. by rewrite lookup_delete_ne.
Qed.

Lemma others_stable c h' :
  (∀ p, p ∈ others c → view h' p = view (w_pool w) p) →
  map_rel (IoBuffer_repr h') (w_ios w) (a_ios a) ∧
  map_rel (chain_repr h') (delete c (w_chains w)) (delete c (a_chains a)).
Proof.
  intros Hv. destruct Hw as [_ Hios Hch _]. split.
  - eapply map_rel_mono; [|done]. intros i io q Hi. apply IoBuffer_repr_views.
    intros p Hp. apply Hv, elem_of_app. left. apply elem_of_map_ptrs. eauto.
  - eapply map_rel_mono; [|by apply map_rel_delete]. intros i ch' x Hi. apply chain_stable.
    intros p Hp. apply grows_view, Hv, elem_of_app. right. apply elem_of_map_ptrs. eauto.
Qed.

Lemma destroy_rel c h' :
  pool_inv h' (others c) → (∀ p, p ∈ others c → view h' p = view (w_pool w) p) →
  world_rel (mkWorld h' (w_ios w) (delete c (w_chains w)))
            (mkAworld (a_ios a) (delete c (a_chains a))).
Proof. intros Hinv [? ?]%others_stable. by split; simpl; [..|apply Hw]. Qed.

Lemma assign_rel c ch x h' :
  pool_inv h' (chain_ptrs ch ++ others c) → chain_repr h' ch x →
  (∀ p, p ∈ others c → view h' p = view (w_pool w) p) →
  world_rel (mkWorld h' (w_ios w) (<[c := ch]> (w_chains w)))
            (mkAworld (a_ios a) (<[c := x]> (a_chains a))).
Proof.
  intros Hinv Hr [? ?]%others_stable. split; simpl; [|done|by apply map_rel_insert|apply Hw].
  unfold owns. simpl. rewrite map_ptrs_insert. unfold others in Hinv.
  by rewrite (Permutation_app_swap_app (map_ptrs _ _)).
Qed.

(** A chain moves to a name that is free. *)
Lemma rename_rel c c' ch x :
  c ≠ c' → w_chains w !! c = None → w_chains w !! c' = Some ch → chain_repr (w_pool w) ch x →
  world_rel (mkWorld (w_pool w) (w_ios w) (<[c := ch]> (<[c' := BufferChain_new]> (w_chains w))))
            (mkAworld (a_ios a) (<[c := x]> (<[c' := []]> (a_chains a)))).
Proof.
  intros Hne Hc Hc' Hr. destruct Hw as [Hinv Hios Hch Hdisj]. split; simpl; [|done| |done].
  - unfold owns in *. simpl. rewrite (map_ptrs_delete chain_ptrs _ _ _ Hc') in Hinv.
    by rewrite map_ptrs_insert_None, map_ptrs_insert by (by rewrite lookup_insert_ne).
  - apply map_rel_insert; [done|]. rewrite !delete_insert_ne by done.
    apply map_rel_insert; [apply chain_repr_empty|]. by apply map_rel_delete, map_rel_delete.
Qed.

Lemma drop_io_rel i :
  w_ios w !! i = Some IoBuffer_new →
  world_rel (mkWorld (w_pool w) (delete i (w_ios w)) (w_chains w))
            (mkAworld (delete i (a_ios a)) (a_chains a)).
Proof.
  intros Hi. destruct Hw as [Hinv Hios Hch Hdisj]. split; simpl; [|by apply map_rel_delete|done|].
  - unfold owns in *. simpl. by rewrite (map_ptrs_delete blocks_ _ _ _ Hi) in Hinv.
  - intros j k x y p Hjk [_ Hj]%lookup_delete_Some [_ Hk]%lookup_delete_Some. by eapply Hdisj.
Qed.
End step.

(** A chain is moved over another one, whose slices are destroyed. *)
Lemma move_rel w a c c' ch' x h' :
  world_rel w a → c ≠ c' → w_chains w !! c' = Some ch' → a_chains a !! c' = Some x →
  pool_inv h' (others w c) → (∀ p, p ∈ others w c → view h' p = view (w_pool w) p) →
  world_rel (mkWorld h' (w_ios w) (<[c := ch']> (<[c' := BufferChain_new]> (w_chains w))))
            (mkAworld (a_ios a) (<[c := x]> (<[c' := []]> (a_chains a)))).
Proof.
  intros Hw Hne Hc' Hx Hinv Hv. pose proof (destroy_rel w a Hw c _ Hinv Hv) as Hd.
  destruct (chain_of _ _ Hd c' x) as (ch2 & Hc2 & Hr2); [simpl; by rewrite lookup_delete_ne|].
  simpl in Hc2. rewrite lookup_delete_ne in Hc2 by done. simplify_eq.
  pose proof (rename_rel _ _ Hd c c' ch' x Hne) as Hm. simpl in Hm.
  rewrite <-(delete_insert_ne (w_chains w)), <-(delete_insert_ne (a_chains a)) in Hm by done.
  rewrite !insert_delete_eq in Hm.
  apply Hm; [apply lookup_delete_eq|by rewrite lookup_delete_ne|done].
Qed.

Lemma chain_ptrs_length h c x : chain_repr h c x → length (chain_ptrs c) = length (slices_ c).
Proof.
  intros [Hok _ _]. unfold chain_ptrs.
  induction Hok as [|s l (p & d & b & e & Hp & _) Hl IH]; [done|]. csimpl.
  unfold slice_ptrs at 1. rewrite Hp. simpl. by rewrite IH.
Qed.

(** The object an operation names, on both sides of the relation. *)
Ltac find_io a i :=
  let q := fresh "q" in let Hq := fresh "Hq" in
  destruct (a_ios a !! i) as [q|] eqn:Hq; simpl in *; [|discriminate];
  match goal with Hw : world_rel ?w a |- _ =>
    destruct (io_of w a Hw i q Hq) as (io & Hi & Hr & Hinv); rewrite Hi; simpl;
    destruct (own_lengths w i io Hi) as [Hl Hl']
  end.

Ltac find_chain a c ch Hc Hr :=
  let x := fresh "x" in let Hx := fresh "Hx" in
  destruct (a_chains a !! c) as [x|] eqn:Hx; simpl in *; [|discriminate];
  match goal with Hw : world_rel ?w a |- _ =>
    destruct (chain_of w a Hw c x Hx) as (ch & Hc & Hr); rewrite Hc; simpl
  end.

(** [run_spec H] runs the operation with the specification [H]. *)
Tactic Notation "run_spec" constr(H) "as" simple_intropattern(r) simple_intropattern(pat) :=
  let h := fresh "h'" in
  destruct (wp_run _ _ _ H) as (r & h & -> & pat); simpl; simplify_eq;
  eexists; split; [reflexivity|].

(** Operations on a buffer that exists. *)
Definition on_buffer (o : op) : Prop :=
  match o with
  | Append _ _ | Consume _ _ | View _ | SlicePrefix _ _ _ | Clear _ | DestroyIo _ | Reserve _ => True
  | _ => False
  end.

Lemma run_io_op o w a r a' :
  world_rel w a → op_fits o w → arun_op o a = Some (r, a') →
  on_buffer o →
  ∃ w', run_op o w = Some (r, w') ∧ world_rel w' a'.
Proof.
  intros Hw Hfit Ha. destruct o as [|i data|i n|i|i n c|i|i|c data|c c'|c c'|room c c'|c c'|c|c|i];
    simpl in *; intros []; find_io a i.
  - run_spec (wp_append _ _ _ _ data Hinv Hr ltac:(lia)) as io' [Hp _]. by eapply io_only_rel.
  - run_spec (wp_consume _ _ _ _ n Hinv Hr) as io' Hp. by eapply io_only_rel.
  - run_spec (wp_readableView _ _ _ _ Hinv Hr) as [io' v] (-> & -> & Hb & Hr').
    destruct a' as [aios achains]. simpl in *. rewrite <-(insert_id aios i r) by done.
    eapply (io_only_rel w (mkAworld aios achains)); [done..|].
    split; [by rewrite Hb|done|rewrite Hb; apply io_step_refl].
  - destruct Hfit as [Hc Hfit].
    run_spec (wp_slicePrefix _ _ _ _ n Hinv Hr ltac:(lia)) as [io' ch] [Hp Hch].
    by eapply slice_rel.
  - run_spec (wp_clear _ _ _ Hinv) as io' [_ Hp]. by eapply io_only_rel.
  - run_spec (wp_clear _ _ _ Hinv) as io' [-> Hp].
    eapply io_only_rel in Hp; [|done..].
    pose proof (drop_io_rel _ _ Hp i (lookup_insert_eq _ _ _)) as Hd. simpl in Hd.
    by rewrite !delete_insert_eq in Hd.
  - run_spec (wp_reserveWritable _ _ _ _ Hinv Hr ltac:(lia)) as [[io' pos] n] Hp.
    destruct a' as [aios achains]. simpl in *. rewrite <-(insert_id aios i q) by done.
    eapply (io_only_rel w (mkAworld aios achains)); [done..|]. by apply reserve_io_post in Hp.
Qed.

Lemma run_chain_op o w a r a' :
  world_rel w a → op_fits o w → arun_op o a = Some (r, a') → ¬ on_buffer o →
  ∃ w', run_op o w = Some (r, w') ∧ world_rel w' a'.
Proof.
  intros Hw Hfit Ha. pose proof (wr_pool _ _ Hw) as Hpool.
  destruct o as [i|i data|i n|i|i n c|i|i|c data|c c'|c c'|room c c'|c c'|c|c|i]; simpl in *;
    intros Hon; try (by destruct Hon); clear Hon.
  - simplify_eq. eexists. split; [done|]. by apply new_io_rel.
  - destruct Hfit as [Hc Hfit].
    run_spec (wp_MakeBufferChain _ _ data Hpool Hfit) as ch (Hinv & Hch & Hst).
    by apply new_chain_rel.
  - find_chain a c ch Hc Hr. find_chain a c' ch' Hc' Hr'. simplify_eq.
    eexists. split; [done|]. by eapply append_chain_rel.
  - destruct Hfit as [Hc' Hfit]. find_chain a c ch Hc Hr.
    pose proof (owns_others w c ch Hc) as Hown.
    assert (length (slices_ ch) ≤ length (owns w)) as Hlen.
    { rewrite Hown, length_app, (chain_ptrs_length _ _ _ Hr). lia. }
    assert (∀ p, p ∈ chain_ptrs ch → p ∈ owns w) as Hsub by (intros p Hp; rewrite Hown; set_solver).
    run_spec (wp_chain_copy _ _ _ _ Hpool Hsub ltac:(lia) Hr) as c2 (Hinv & Hch & Hv & Hs).
    apply new_chain_rel; [done..|]. apply io_step_views; [auto|done|set_solver].
  - find_chain a c ch Hc Hr. find_chain a c' ch' Hc' Hr'. simplify_eq. case_decide as Hne.
    { subst. simplify_eq. eexists. split; [done|]. rewrite insert_id by done. by destruct a. }
    rewrite (owns_others w c ch Hc) in Hpool.
    assert (length (chain_ptrs ch) + length (others w c) + length (slices_ ch') ≤ 2 * length (owns w)) as Hlen.
    { rewrite <-(chain_ptrs_length _ _ _ Hr'), (owns_others w c' ch' Hc') at 1.
      pose proof (Permutation_length (owns_others w c ch Hc)) as Hl.
      pose proof (Permutation_length (owns_others w c' ch' Hc')) as Hl'. rewrite length_app in *. lia. }
    run_spec (wp_chain_assign room _ _ ch ch' _ Hpool
                (λ p, others_in w c c' ch' p Hne Hc') ltac:(lia) Hr') as c2 (Hinv & Hch & Hv & _).
    by apply assign_rel.
  - find_chain a c ch Hc Hr. find_chain a c' ch' Hc' Hr'. case_decide as Hne; simplify_eq.
    { eexists. by split. }
    rewrite (owns_others w c ch Hc) in Hpool.
    run_spec (wp_chain_assign_move _ _ ch ch' Hpool) as r (-> & Hinv & Hv & _).
    by apply move_rel.
  - find_chain a c ch Hc Hr. rewrite (owns_others w c ch Hc) in Hpool.
    unfold BufferChain_destroy. run_spec (wp_reset_slices _ _ _ Hpool) as u (Hinv' & Hv & _).
    by apply destroy_rel.
  - find_chain a c ch Hc Hr. run_spec (wp_toString _ _ _ Hr) as v (-> & ->). by destruct w.
Qed.

(** One operation: if the specification allows it, the program does it, shows
    the same bytes, and the two worlds stay related. *)
Lemma run_op_step o w a r a' :
  world_rel w a → op_fits o w → arun_op o a = Some (r, a') →
  ∃ w', run_op o w = Some (r, w') ∧ world_rel w' a'.
Proof.
  intros Hw Hfit Ha. destruct o;
    first [by eapply run_io_op|by eapply run_chain_op; [..|intros []]].
Qed.

(** ** Sequences of operations *)

Fixpoint run_ops (ops : list op) (w : world) : option (list bytes * world) :=
  match ops with
  | [] => Some ([], w)
  | o :: ops =>
      '(r, w) ← run_op o w; '(rs, w) ← run_ops ops w; Some (r :: rs, w)
  end.

Fixpoint arun_ops (ops : list op) (a : aworld) : option (list bytes * aworld) :=
  match ops with
  | [] => Some ([], a)
  | o :: ops =>
      '(r, a) ← arun_op o a; '(rs, a) ← arun_ops ops a; Some (r :: rs, a)
  end.

Fixpoint ops_fit (ops : list op) (w : world) : Prop :=
  match ops with
  | [] => True
  | o :: ops =>
      op_fits o w ∧ match run_op o w with Some (_, w') => ops_fit ops w' | None => True end
  end.

Definition empty_world (block_size : nat) (memory : ptr → nat → byte) : world :=
  mkWorld (BlockPool_new block_size memory) ∅ ∅.

Lemma empty_world_rel block_size memory :
  0 < block_size → world_rel (empty_world block_size memory) (mkAworld ∅ ∅).
Proof.
  intros Hpos. split; simpl; [|intros i; rewrite !lookup_empty; constructor..|].
  - unfold owns, map_ptrs. simpl. rewrite !map_to_list_empty. by apply pool_inv_new.
  - intros *. by rewrite lookup_empty.
Qed.

Lemma run_ops_rel ops w a rs a' :
  world_rel w a → ops_fit ops w → arun_ops ops a = Some (rs, a') →
  ∃ w', run_ops ops w = Some (rs, w') ∧ world_rel w' a'.
Proof.
  revert w a rs. induction ops as [|o ops IH]; intros w a rs Hw Hfit Ha; simpl in *.
  { simplify_eq. eauto. }
  destruct Hfit as [Hfit Hrest].
  destruct (arun_op o a) as [[r a1]|] eqn:Ho; simpl in Ha; [|done].
  destruct (arun_ops ops a1) as [[rs1 a2]|] eqn:Hops; simpl in Ha; [|done]. simplify_eq.
  destruct (run_op_step o w a r a1 Hw Hfit Ho) as (w1 & Hrun & Hw1).
  rewrite Hrun in Hrest |- *. simpl.
  destruct (IH w1 a1 rs1 Hw1 Hrest Hops) as (w2 & -> & Hw2). simpl. eauto.
Qed.

(** ** Properties *)

(** A sequence of operations for the witnesses: sixteen-byte blocks, a view over
    three blocks, a prefix that shares blocks with the buffer it came from, and
    reads of that prefix after the buffer moved on and was cleared. *)
Definition demo_ops : list op :=
  [NewIo 0; Append 0 (str "abcdefghijklmnopqrstuvwxyz0123456789"); View 0; Consume 0 5;
   View 0; SlicePrefix 0 15 0; Append 0 (str "ABC"); View 0; CopyChain 0 1; Clear 0;
   ReadChain 0; DestroyChain 0; Make 2 (str "+PONG"); AppendChain 1 2; ReadChain 1;
   AssignChain true 2 1; MoveChain 1 2; ReadChain 1; DestroyChain 1; DestroyChain 2; DestroyIo 0].

Definition zeros : ptr → nat → byte := λ _ _, zero.
Definition demo_world : world := empty_world 16 zeros.

(** C5: For every block size, every content of fresh memory and every sequence
    of operations on any number of buffers and chains that share blocks, the
    reference-counted implementation never goes wrong (no dangling block, no
    access out of bounds, no unfinished loop) and shows exactly the bytes that
    independent byte queues and immutable byte strings would. *)
Theorem buffer_refines_bytes block_size memory ops rs a' :
  0 < block_size →
  ops_fit ops (empty_world block_size memory) →
  arun_ops ops (mkAworld ∅ ∅) = Some (rs, a') →
  ∃ w', run_ops ops (empty_world block_size memory) = Some (rs, w') ∧ world_rel w' a'.
Proof. intros Hpos. by apply run_ops_rel, empty_world_rel. Qed.

Lemma buffer_refines_bytes_witness :
  ∃ w', run_ops demo_ops demo_world =
    Some ([[]; []; str "abcdefghijklmnopqrstuvwxyz0123456789"; [];
           str "fghijklmnopqrstuvwxyz0123456789"; []; []; str "uvwxyz0123456789ABC"; []; [];
           str "fghijklmnopqrst"; []; []; []; str "fghijklmnopqrst+PONG"; []; [];
           str "fghijklmnopqrst+PONG"; []; []; []], w') ∧
    world_rel w' (mkAworld ∅ ∅).
Proof.
  apply (buffer_refines_bytes 16 zeros demo_ops); [lia| |vm_compute; reflexivity].
  vm_compute. repeat split; discriminate.
Defined.

(** C9: In every world the operations can reach, each block ever allocated is
    either on the free list, once, and referenced by nobody, or referenced and
    not free, with a count equal to the number of buffers and slices that hold
    it.  So no block is recycled while somebody still reads it, and none leaks. *)
Theorem refcounts_exact block_size memory ops rs a' w' p b :
  0 < block_size →
  ops_fit ops (empty_world block_size memory) →
  arun_ops ops (mkAworld ∅ ∅) = Some (rs, a') →
  run_ops ops (empty_world block_size memory) = Some (rs, w') →
  heap (w_pool w') !! p = Some b →
  NoDup (free_ (w_pool w')) ∧
  ((p ∈ free_ (w_pool w') ∧ p ∉ owns w') ∨
   ((p ∉ free_ (w_pool w')) ∧ p ∈ owns w' ∧ refcount_ b = Z.of_nat (refs p (owns w')))).
Proof.
  intros Hpos Hfit Ha Hrun Hb.
  destruct (run_ops_rel ops _ _ rs a' (empty_world_rel _ memory Hpos) Hfit Ha) as (w & Hw & Hrel).
  rewrite Hrun in Hw. simplify_eq. destruct Hrel as [Hinv _ _ _].
  split; [apply Hinv|]. destruct (pi_cover _ _ Hinv p) as [Hf|Ho].
  - by apply (pi_brk _ _ Hinv).
  - left. split; [done|]. by apply (pi_free _ _ Hinv).
  - right. split_and!; [|done|by apply Hinv]. by intros [_ ?]%(pi_free _ _ Hinv).
Qed.

(** The world after the prefix was copied: block 0 is held by two slices. *)
Definition demo_results : list bytes := from_option fst [] (run_ops (take 9 demo_ops) demo_world).
Definition demo_final : world := from_option snd demo_world (run_ops (take 9 demo_ops) demo_world).
Definition demo_spec : aworld :=
  from_option snd (mkAworld ∅ ∅) (arun_ops (take 9 demo_ops) (mkAworld ∅ ∅)).
Definition demo_block : BufferBlock :=
  default (BufferBlock_new (λ _, zero) 0) (heap (w_pool demo_final) !! 0).

Lemma refcounts_exact_witness :
  refcount_ demo_block = 2%Z ∧
  NoDup (free_ (w_pool demo_final)) ∧
  ((0 ∈ free_ (w_pool demo_final) ∧ 0 ∉ owns demo_final) ∨
   ((0 ∉ free_ (w_pool demo_final)) ∧ 0 ∈ owns demo_final ∧
    refcount_ demo_block = Z.of_nat (refs 0 (owns demo_final)))).
Proof.
  split; [vm_compute; reflexivity|].
  apply (refcounts_exact 16 zeros (take 9 demo_ops) demo_results demo_spec);
    [lia|vm_compute; repeat split; discriminate|vm_compute; reflexivity..].
Defined.
