(* ===== verification/RespParser.v ===== *)
(** * RespParser: framing of requests and replies
    (include/redis_proxy/resp_parser.h, src/resp_parser.cpp)

    The RESP decoder itself, [redis::UnpackOne], is a third-party function: it is
    the parameter [UnpackOne] of everything below, and what the proxy relies on
    is the class [UnpackOneLaws].  The proxy's own code is modelled in full: the
    retry loop of [unpack] that grows the scratch arena, the frame limit, the
    conversion of its statuses, the extraction of the command, and the two entry
    points on an [IoBuffer]. *)
From S2P Require Import Prelude Buffer BufferInv.

(** ** The decoder's types, as far as the proxy uses them *)

Inductive RespStatus := rOk | rNeedMore | rNoMemory | rError.

#[global] Instance RespStatus_eq_dec : EqDecision RespStatus.
Proof. solve_decision. Defined.

(** The proxy tells arrays and bulk strings from the other types. *)
Inductive RespType := kArray | kBulkString | kOtherType.

#[global] Instance RespType_eq_dec : EqDecision RespType.
Proof. solve_decision. Defined.

(** [elements] is a pointer: [None] is the null pointer. *)
Inductive RespValue := mkRespValue {
  rv_type : RespType;
  rv_text : bytes;
  rv_element_count : nat;
  rv_elements : option (list RespValue)
}.

Record RespResult := mkRespResult {
  rr_status : RespStatus;
  rr_consumed : nat;
  rr_value : option RespValue
}.

Record RespLimits := mkRespLimits {
  max_bulk_bytes : Z;
  max_array_elements : Z;
  max_depth : Z
}.

(** ** The parser's data *)

Inductive ParseStatus := pOk | pNeedMore | pError | pNoMemory.

#[global] Instance ParseStatus_eq_dec : EqDecision ParseStatus.
Proof. solve_decision. Defined.

Record RespFrameInfo := mkRespFrameInfo {
  fi_consumed : nat;
  fi_command_name : bytes;
  fi_argc : nat
}.

(** Of the vector [scratch_] only the size matters: the decoder overwrites it. *)
Record RespParser := mkRespParser {
  limits_ : RespLimits;
  scratch_size : nat;
  max_frame_bytes_ : Z
}.

Definition size_max : Z := 2 ^ 64 - 1.

Definition RespParser_setLimits (bulk array depth frame : Z) (p : RespParser) : RespParser :=
  mkRespParser (mkRespLimits bulk array depth) (scratch_size p) frame.

Definition RespParser_new : RespParser :=
  RespParser_setLimits (1024 * 1024) 1024 8 size_max
    (mkRespParser (mkRespLimits 0 0 0) 0 size_max).

(** [s.substr(0, n)] *)
Definition substr0 (n : Z) (s : bytes) : bytes :=
  take (Z.to_nat (Z.min n (Z.of_nat (length s)))) s.

Definition convert (status : RespStatus) : ParseStatus :=
  match status with
  | rOk => pOk
  | rNeedMore => pNeedMore
  | rNoMemory => pNoMemory
  | rError => pError
  end.

(** The loop over [elements[i]]; an index outside the array goes wrong. *)
Fixpoint all_bulk (elements : list RespValue) (indices : list nat) : option bool :=
  match indices with
  | [] => Some true
  | i :: indices =>
      e ← elements !! i;
      if decide (rv_type e = kBulkString) then all_bulk elements indices else Some false
  end.

(** [Some None] is the answer [false]; [None] is undefined behaviour. *)
Definition extractCommandInfo (value : RespValue) : option (option RespFrameInfo) :=
  match rv_type value, rv_element_count value, rv_elements value with
  | kArray, S _ as count, Some elements =>
      ok ← all_bulk elements (seq 0 count);
      if (ok : bool) then
        command ← elements !! 0;
        Some (Some (mkRespFrameInfo 0 (rv_text command) count))
      else Some None
  | _, _, _ => Some None
  end.

Section parser.
(** [UnpackOne(input, arena, slots, limits)] and [alloc n], whether
    [scratch_.resize(n)] finds the memory. *)
Context (UnpackOne : bytes → nat → RespLimits → RespResult).
Context (alloc : nat → bool).

Definition bad_alloc_result : RespResult := mkRespResult rNoMemory 0 None.

(** The end of a round: a decoder that waits for more than a frame may hold
    is an error. *)
Definition unpack_finish (p : RespParser) (input : bytes) (r : RespResult) : RespResult :=
  if decide (rr_status r = rNeedMore ∧ (max_frame_bytes_ p <= Z.of_nat (length input))%Z)
  then mkRespResult rError (rr_consumed r) (rr_value r)
  else r.

(** The [for (;;)] loop, with the size of [scratch_] as its state. *)
Fixpoint unpack_loop (fuel : nat) (p : RespParser) (scratch : nat) (input : bytes)
    (max_slots : nat) : option (RespResult * nat) :=
  match fuel with
  | 0 => None
  | S fuel =>
      let slots := Nat.min scratch max_slots in
      let result := UnpackOne input slots (limits_ p) in
      if decide (rr_status result = rNoMemory) then
        if decide (slots < max_slots) then
          let n := slots + Nat.min slots (max_slots - slots) in
          if alloc n then unpack_loop fuel p n input max_slots
          else Some (bad_alloc_result, scratch)
        else
          let result := mkRespResult rNeedMore (rr_consumed result) (rr_value result) in
          Some (unpack_finish p input result, scratch)
      else Some (unpack_finish p input result, scratch)
  end.

Definition unpack_slots (input : bytes) : nat := length input / 3 + 1.

(** Every round but the last makes the arena larger and it stays below
    [max_slots], so [max_slots] rounds are enough ([unpack_total]). *)
Definition unpack (p : RespParser) (input : bytes) : option (RespResult * RespParser) :=
  let input := substr0 (max_frame_bytes_ p) input in
  let max_slots := unpack_slots input in
  let first := if decide (scratch_size p = 0) then Nat.min 16 max_slots else scratch_size p in
  if decide (scratch_size p = 0 ∧ alloc first = false) then Some (bad_alloc_result, p)
  else
    '(r, scratch) ← unpack_loop (S max_slots) p first input max_slots;
    Some (r, mkRespParser (limits_ p) scratch (max_frame_bytes_ p)).

(** [peekFrame] on the bytes the buffer shows. *)
Definition peek_bytes (p : RespParser) (view : bytes) (offset : nat) :
    option (RespParser * ParseStatus * option RespFrameInfo) :=
  if decide (length view < offset) then Some (p, pError, None) else
  '(result, p) ← unpack p (drop offset view);
  if decide (rr_status result = rOk) then
    value ← rr_value result;
    info ← extractCommandInfo value;
    match info with
    | None => Some (p, pError, None)
    | Some info =>
        Some (p, pOk, Some (mkRespFrameInfo (rr_consumed result) (fi_command_name info)
                                            (fi_argc info)))
    end
  else Some (p, convert (rr_status result), None).

Definition RespParser_peekFrame (p : RespParser) (input : IoBuffer) (offset : nat) :
    ST BlockPool (IoBuffer * (RespParser * ParseStatus * option RespFrameInfo)) :=
  if decide (IoBuffer_readableBytes input < offset) then mret (input, (p, pError, None)) else
  '(input, view) ← IoBuffer_readableView input;
  r ← st_opt (peek_bytes p view offset);
  mret (input, r).

(** The part of [nextReplyFrame] that looks at the bytes: the frame's length. *)
Definition next_bytes (p : RespParser) (view : bytes) :
    option (RespParser * ParseStatus * option nat) :=
  '(result, p) ← unpack p view;
  if decide (rr_status result = rOk) then Some (p, pOk, Some (rr_consumed result))
  else Some (p, convert (rr_status result), None).

(** The buffer, the reply (assigned to [*out], whose old slices are dropped)
    and [*consumed]. *)
Definition RespParser_nextReplyFrame (p : RespParser) (input : IoBuffer) (out : BufferChain) :
    ST BlockPool (IoBuffer * BufferChain * (RespParser * ParseStatus * option nat)) :=
  '(input, view) ← IoBuffer_readableView input;
  r ← st_opt (next_bytes p view);
  match r with
  | (p, _, Some consumed) =>
      '(input, prefix) ← IoBuffer_slicePrefix input consumed;
      '(out, _) ← BufferChain_assign_move out prefix;
      mret (input, out, r)
  | (_, _, None) => mret (input, out, r)
  end.
End parser.

(** ** What the proxy relies on *)

Definition value_wf (v : RespValue) : Prop :=
  ∀ els, rv_elements v = Some els → length els = rv_element_count v.

(** The decoder's contract: a decoded value has at least three bytes and lies
    within the input; a larger arena changes nothing once the arena sufficed; a
    complete value is decoded the same way whatever follows it. *)
Class UnpackOneLaws (UnpackOne : bytes → nat → RespLimits → RespResult) : Prop := {
  uo_ok input slots lim :
    rr_status (UnpackOne input slots lim) = rOk →
    3 ≤ rr_consumed (UnpackOne input slots lim) ≤ length input ∧
    ∃ v, rr_value (UnpackOne input slots lim) = Some v ∧ value_wf v;
  uo_slots input slots slots' lim :
    slots ≤ slots' → rr_status (UnpackOne input slots lim) ≠ rNoMemory →
    UnpackOne input slots' lim = UnpackOne input slots lim;
  uo_extend input more slots lim :
    rr_status (UnpackOne input slots lim) = rOk →
    UnpackOne (input ++ more) slots lim = UnpackOne input slots lim
}.

(** [unpack] without its arena: decode once with the largest arena allowed. *)
Definition unpack_ref (UnpackOne : bytes → nat → RespLimits → RespResult)
    (p : RespParser) (input : bytes) : RespResult :=
  let input := substr0 (max_frame_bytes_ p) input in
  let r := UnpackOne input (unpack_slots input) (limits_ p) in
  unpack_finish p input
    (if decide (rr_status r = rNoMemory) then mkRespResult rNeedMore (rr_consumed r) (rr_value r)
     else r).

(** ** Lemmas *)

Lemma length_substr0 n s :
  (0 <= n)%Z → Z.of_nat (length (substr0 n s)) = Z.min n (Z.of_nat (length s)).
Proof. intros Hn. unfold substr0. rewrite length_take. lia. Qed.

Lemma substr0_prefix n s : substr0 n s `prefix_of` s.
Proof. unfold substr0. exists (drop (Z.to_nat (Z.min n (Z.of_nat (length s)))) s). by rewrite take_drop. Qed.

Lemma substr0_le n s : length (substr0 n s) ≤ length s.
Proof. unfold substr0. rewrite length_take. lia. Qed.

Lemma substr0_all n s : (Z.of_nat (length s) <= n)%Z → substr0 n s = s.
Proof. intros Hn. unfold substr0. apply take_ge. lia. Qed.

Lemma substr0_extend n s t : ∃ k, substr0 n (s ++ t) = substr0 n s ++ k.
Proof.
  unfold substr0. rewrite length_app, take_app.
  exists (take (Z.to_nat (Z.min n (Z.of_nat (length s + length t))) - length s) t). f_equal.
  destruct (decide (n <= Z.of_nat (length s))%Z).
  - f_equal. lia.
  - rewrite !take_ge by lia. done.
Qed.

Lemma unpack_finish_ok p input r : rr_status (unpack_finish p input r) = rOk → unpack_finish p input r = r.
Proof. unfold unpack_finish. by case_decide. Qed.

Lemma unpack_finish_NeedMore p input r :
  rr_status (unpack_finish p input r) = rNeedMore → (Z.of_nat (length input) < max_frame_bytes_ p)%Z.
Proof. unfold unpack_finish. case_decide as Hd; [done|]. intros Hr. apply Z.nle_gt. intros ?. by apply Hd. Qed.

Section unpack.
Context (UnpackOne : bytes → nat → RespLimits → RespResult) (alloc : nat → bool).

(** The loop ends within [max_slots] rounds whatever the decoder answers, and
    the arena stays within [max_slots] unless it was larger to begin with. *)
Lemma unpack_loop_total fuel p scratch input max_slots :
  1 ≤ scratch → max_slots < fuel + Nat.min scratch max_slots →
  ∃ r s, unpack_loop UnpackOne alloc fuel p scratch input max_slots = Some (r, s) ∧
         s ≤ Nat.max scratch max_slots ∧ 1 ≤ s ∧
         (rr_status r = rNeedMore → (Z.of_nat (length input) < max_frame_bytes_ p)%Z).
Proof.
  revert scratch. induction fuel as [|fuel IH]; intros scratch Hs Hf; [lia|].
  cbn [unpack_loop]. case_decide; [case_decide|].
  - destruct (alloc _).
    + destruct (IH (Nat.min scratch max_slots +
                    Nat.min (Nat.min scratch max_slots) (max_slots - Nat.min scratch max_slots)))
        as (r & s & -> & ? & ? & ?); [lia|lia|].
      exists r, s. split_and!; [done|lia|done|done].
    + eexists _, _. split_and!; [done|lia|done|done].
  - eexists _, _. split_and!; [done|lia|done|apply unpack_finish_NeedMore].
  - eexists _, _. split_and!; [done|lia|done|apply unpack_finish_NeedMore].
Qed.

Context `{Laws : !UnpackOneLaws UnpackOne}.

(** With memory available, the loop computes what one attempt with the largest
    arena would. *)
Lemma unpack_loop_ref fuel p scratch input max_slots :
  (∀ n, n ≤ max_slots → alloc n = true) →
  1 ≤ scratch → max_slots < fuel + Nat.min scratch max_slots →
  ∃ s, unpack_loop UnpackOne alloc fuel p scratch input max_slots =
       Some (let r := UnpackOne input max_slots (limits_ p) in
             unpack_finish p input
               (if decide (rr_status r = rNoMemory)
                then mkRespResult rNeedMore (rr_consumed r) (rr_value r) else r), s).
Proof.
  intros Halloc. revert scratch. induction fuel as [|fuel IH]; intros scratch Hs Hf; [lia|].
  cbn [unpack_loop]. case_decide as Hnm; [case_decide as Hlt|].
  - rewrite Halloc by lia. apply IH; lia.
  - replace (Nat.min scratch max_slots) with max_slots in * by lia. cbn zeta.
    rewrite decide_True by done. eauto.
  - rewrite (uo_slots _ (Nat.min scratch max_slots) max_slots) by (done || lia). cbn zeta.
    rewrite decide_False by done. eauto.
Qed.

Lemma unpack_ref_ok p input :
  rr_status (unpack_ref UnpackOne p input) = rOk →
  let r := unpack_ref UnpackOne p input in
  r = UnpackOne (substr0 (max_frame_bytes_ p) input)
                (unpack_slots (substr0 (max_frame_bytes_ p) input)) (limits_ p) ∧
  3 ≤ rr_consumed r ≤ length (substr0 (max_frame_bytes_ p) input) ∧
  ∃ v, rr_value r = Some v ∧ value_wf v.
Proof.
  unfold unpack_ref. intros Hok. pose proof Hok as Hr%unpack_finish_ok.
  rewrite Hr in Hok |- *. clear Hr. revert Hok. case_decide; [done|]. intros Hok.
  split; [done|]. by apply uo_ok.
Qed.
End unpack.

(** A complete value is decoded the same when more input follows. *)
Lemma unpack_ref_extend UnpackOne `{!UnpackOneLaws UnpackOne} p q view more offset :
  limits_ q = limits_ p → max_frame_bytes_ q = max_frame_bytes_ p →
  ¬ length view < offset →
  rr_status (unpack_ref UnpackOne p (drop offset view)) = rOk →
  unpack_ref UnpackOne q (drop offset (view ++ more)) = unpack_ref UnpackOne p (drop offset view).
Proof.
  intros Hlim Hfr Hoff Hok. pose proof Hok as Hr.
  apply (unpack_ref_ok UnpackOne) in Hr as (Hr & _ & _). cbn zeta in Hr.
  rewrite drop_app_le by lia. rewrite Hr in Hok |- *. unfold unpack_ref. rewrite Hlim, Hfr.
  set (a := substr0 (max_frame_bytes_ p) (drop offset view)) in *.
  destruct (substr0_extend (max_frame_bytes_ p) (drop offset view) more) as [k Hk].
  fold a in Hk. rewrite Hk.
  assert (unpack_slots a ≤ unpack_slots (a ++ k)) as Hslots.
  { unfold unpack_slots. rewrite length_app.
    pose proof (Nat.Div0.div_le_mono (length a) (length a + length k) 3). lia. }
  assert (UnpackOne (a ++ k) (unpack_slots (a ++ k)) (limits_ p) =
          UnpackOne a (unpack_slots a) (limits_ p)) as ->.
  { rewrite <-(uo_extend a k) by done. apply uo_slots; [done|].
    by rewrite uo_extend, Hok. }
  rewrite decide_False by (by rewrite Hok). unfold unpack_finish.
  rewrite decide_False; [done|]. intros [? _]. congruence.
Qed.

Lemma all_bulk_total els l :
  (∀ i, i ∈ l → i < length els) → ∃ b, all_bulk els l = Some b.
Proof.
  induction l as [|i l IH]; intros Hl; simpl; [eauto|].
  destruct (lookup_lt_is_Some_2 els i) as [e He]; [apply Hl; left|]. rewrite He. simpl.
  case_decide; [|eauto]. apply IH. set_solver.
Qed.

Lemma all_bulk_true els l :
  all_bulk els l = Some true → ∀ i, i ∈ l → ∃ e, els !! i = Some e ∧ rv_type e = kBulkString.
Proof.
  induction l as [|j l IH]; simpl; intros Hb i Hi; [by apply elem_of_nil in Hi|].
  destruct (els !! j) as [e|] eqn:He; simpl in Hb; [|done]. case_decide; [|done].
  apply elem_of_cons in Hi as [->|Hi]; eauto.
Qed.

(** On a well-formed value extraction is defined, and it succeeds exactly on the
    non-empty arrays of bulk strings. *)
Lemma extract_total v :
  value_wf v →
  extractCommandInfo v = Some None ∨
  ∃ els command, rv_type v = kArray ∧ rv_elements v = Some els ∧
    els !! 0 = Some command ∧ Forall (λ e, rv_type e = kBulkString) els ∧
    extractCommandInfo v = Some (Some (mkRespFrameInfo 0 (rv_text command) (length els))).
Proof.
  intros Hwf. unfold extractCommandInfo.
  destruct (rv_type v); [|by left..]. destruct (rv_element_count v) as [|n] eqn:Hn; [by left|].
  destruct (rv_elements v) as [els|] eqn:Hels; [|by left].
  pose proof (Hwf els Hels) as Hlen. rewrite Hn in Hlen.
  destruct (all_bulk_total els (seq 0 (S n))) as [b Hb].
  { intros i Hi%elem_of_seq. lia. }
  rewrite Hb. simpl. destruct b; [right|by left].
  destruct els as [|command els]; [done|]. exists (command :: els), command.
  rewrite Hlen. split_and!; try done. apply Forall_lookup. intros i e He.
  destruct (all_bulk_true _ _ Hb i) as (e' & He' & ?).
  { apply elem_of_seq. apply lookup_lt_Some in He. lia. }
  rewrite He in He'. by simplify_eq.
Qed.

Section specs.
Context (UnpackOne : bytes → nat → RespLimits → RespResult) (alloc : nat → bool).

Lemma unpack_run p input :
  (0 <= max_frame_bytes_ p)%Z →
  ∃ r p', unpack UnpackOne alloc p input = Some (r, p') ∧
    limits_ p' = limits_ p ∧ max_frame_bytes_ p' = max_frame_bytes_ p ∧
    scratch_size p' ≤ Nat.max (scratch_size p)
                        (unpack_slots (substr0 (max_frame_bytes_ p) input)) ∧
    (rr_status r = rNeedMore → (Z.of_nat (length input) < max_frame_bytes_ p)%Z).
Proof.
  intros Hmax. unfold unpack. set (i := substr0 (max_frame_bytes_ p) input).
  assert (1 ≤ unpack_slots i) as Hpos by (unfold unpack_slots; lia).
  case_decide as Ha; [exists bad_alloc_result, p; split_and!; (done || lia)|].
  match goal with |- context [unpack_loop _ _ _ _ ?f _ _] => set (first := f) end.
  assert (1 ≤ first ≤ Nat.max (scratch_size p) (unpack_slots i)) as Hfirst
    by (unfold first; case_decide; lia).
  destruct (unpack_loop_total UnpackOne alloc (S (unpack_slots i)) p first i (unpack_slots i))
    as (r & s & -> & Hs & _ & Hn); [lia|lia|].
  eexists _, _. split; [reflexivity|]. simpl. split_and!; [done..|lia|].
  intros Hr. apply Hn in Hr. unfold i in Hr. rewrite length_substr0 in Hr by done. lia.
Qed.

Context `{Laws : !UnpackOneLaws UnpackOne}.

Lemma unpack_run_ref p input :
  (∀ n, n ≤ unpack_slots (substr0 (max_frame_bytes_ p) input) → alloc n = true) →
  ∃ s, unpack UnpackOne alloc p input =
       Some (unpack_ref UnpackOne p input, mkRespParser (limits_ p) s (max_frame_bytes_ p)).
Proof.
  intros Halloc. unfold unpack, unpack_ref. set (i := substr0 (max_frame_bytes_ p) input) in *.
  assert (1 ≤ unpack_slots i) as Hpos by (unfold unpack_slots; lia).
  rewrite decide_False.
  2:{ intros [-> Hf]. rewrite decide_True, Halloc in Hf by (done || lia). done. }
  match goal with |- context [unpack_loop _ _ _ _ ?f _ _] => set (first := f) end.
  assert (1 ≤ first) by (unfold first; case_decide; lia).
  destruct (unpack_loop_ref UnpackOne alloc (S (unpack_slots i)) p first i (unpack_slots i))
    as [s ->]; [done|lia|lia|]. simpl. eauto.
Qed.

Lemma unpack_loop_ok fuel p scratch input max_slots r s :
  unpack_loop UnpackOne alloc fuel p scratch input max_slots = Some (r, s) →
  rr_status r = rOk → ∃ slots, r = UnpackOne input slots (limits_ p).
Proof.
  intros Hl Hok. revert scratch Hl. induction fuel as [|fuel IH]; intros scratch; [done|].
  cbn [unpack_loop]. repeat case_decide.
  - destruct (alloc _); [apply IH|by intros; simplify_eq].
  - intros. simplify_eq. apply unpack_finish_ok in Hok as Hr. by rewrite Hr in Hok.
  - intros. simplify_eq. apply unpack_finish_ok in Hok as ->. eauto.
Qed.

(** An accepted result is one the decoder gave on a prefix of the input, even
    when memory is short. *)
Lemma unpack_ok p input r p' :
  (0 <= max_frame_bytes_ p)%Z →
  unpack UnpackOne alloc p input = Some (r, p') → rr_status r = rOk →
  3 ≤ rr_consumed r ≤ length input ∧ (Z.of_nat (rr_consumed r) <= max_frame_bytes_ p)%Z ∧
  ∃ v, rr_value r = Some v ∧ value_wf v.
Proof.
  intros Hmax Hu Hok. unfold unpack in Hu. case_decide; [by simplify_eq|].
  set (i := substr0 (max_frame_bytes_ p) input) in *.
  match type of Hu with context [unpack_loop _ _ ?f _ ?s _ ?m] =>
    destruct (unpack_loop UnpackOne alloc f p s i m) as [[r' s']|] eqn:Hl end;
    simpl in Hu; simplify_eq.
  destruct (unpack_loop_ok _ _ _ _ _ _ _ Hl Hok) as [slots ->].
  apply uo_ok in Hok as (Hc & Hv). pose proof (substr0_le (max_frame_bytes_ p) input) as Hi.
  fold i in Hi. assert (Z.of_nat (length i) <= max_frame_bytes_ p)%Z
    by (unfold i; rewrite length_substr0 by done; lia).
  split_and!; [lia|lia|lia|done].
Qed.

(** What [peekFrame] promises of a frame it found. *)
Definition frame_within (p : RespParser) (view : bytes) (offset : nat)
    (st : ParseStatus) (info : option RespFrameInfo) : Prop :=
  match info with
  | Some f => st = pOk ∧ 3 ≤ fi_consumed f ∧ offset + fi_consumed f ≤ length view ∧
              (Z.of_nat (fi_consumed f) <= max_frame_bytes_ p)%Z ∧ 1 ≤ fi_argc f
  | None => st ≠ pOk
  end.

Lemma peek_bytes_total p view offset :
  (0 <= max_frame_bytes_ p)%Z →
  ∃ p' st info, peek_bytes UnpackOne alloc p view offset = Some (p', st, info) ∧
    limits_ p' = limits_ p ∧ max_frame_bytes_ p' = max_frame_bytes_ p ∧
    frame_within p view offset st info.
Proof.
  intros Hmax. unfold peek_bytes. case_decide as Hoff; [by eexists p, pError, None|].
  destruct (unpack_run p (drop offset view) Hmax) as (r & p' & Hu & Hlim & Hfr & _ & _).
  rewrite Hu. simpl. case_decide as Hok.
  - destruct (unpack_ok p _ r p' Hmax Hu Hok) as (Hc & Hm & v & Hv & Hwf).
    rewrite Hv. simpl. rewrite length_drop in Hc.
    destruct (extract_total v Hwf) as [Hex|(els & command & _ & _ & He & _ & Hex)];
      rewrite Hex; simpl; eexists p', _, _; (split; [reflexivity|split_and!; try done]).
    apply lookup_lt_Some in He. simpl. split_and!; [done|lia..].
  - eexists p', _, None. split_and!; try done. by destruct (rr_status r).
Qed.
End specs.

(** ** A decoder that meets the contract

    It knows one request and one reply; the witnesses use it. *)

Definition crlf : bytes := [ascii_of_nat 13; ascii_of_nat 10].
Definition ping_frame : bytes := str "*1" ++ crlf ++ str "$4" ++ crlf ++ str "PING" ++ crlf.
Definition pong_frame : bytes := str "+PONG" ++ crlf.
Definition ping_value : RespValue :=
  mkRespValue kArray [] 1 (Some [mkRespValue kBulkString (str "PING") 0 None]).
Definition pong_value : RespValue := mkRespValue kOtherType (str "PONG") 0 None.

Definition demo_unpack (input : bytes) (slots : nat) (_ : RespLimits) : RespResult :=
  if decide (ping_frame `prefix_of` input) then
    if decide (slots < 2) then mkRespResult rNoMemory 0 None
    else mkRespResult rOk (length ping_frame) (Some ping_value)
  else if decide (pong_frame `prefix_of` input) then
    if decide (slots < 1) then mkRespResult rNoMemory 0 None
    else mkRespResult rOk (length pong_frame) (Some pong_value)
  else if decide (input `prefix_of` ping_frame ∨ input `prefix_of` pong_frame) then
    mkRespResult rNeedMore 0 None
  else mkRespResult rError 0 None.

#[global] Instance demo_unpack_laws : UnpackOneLaws demo_unpack.
Proof.
  split; unfold demo_unpack.
  - intros input slots lim. repeat case_decide; try done; intros _;
      match goal with Hp : _ `prefix_of` input |- _ => apply prefix_length in Hp end;
      (split; [simpl in *; lia|eexists; split; [done|]]).
    all: intros els Hels; by simplify_eq/=.
  - intros input slots slots' lim Hle. repeat case_decide; try done; lia.
  - intros input more slots lim.
    assert (∀ f, f `prefix_of` input → f `prefix_of` input ++ more) as Hp
      by (intros; by apply prefix_app_r).
    case_decide as H1; [intros; rewrite (decide_True _ _ (Hp _ H1)); done|].
    case_decide as H2; [|by repeat case_decide].
    rewrite (decide_False (P := ping_frame `prefix_of` input ++ more)).
    2:{ intros [k Hk]. destruct H2 as [k' ->]. by simplify_eq/=. }
    by rewrite (decide_True _ _ (Hp _ H2)).
Qed.

(** ** Properties *)

(** C27: The retry loop of [unpack] ends whatever the decoder answers and however
    often memory runs out; afterwards the arena has at most one slot per three
    bytes of the (limited) input, plus one, unless it was already larger, so a
    declared element count never drives an allocation; and "need more" is only
    reported below the frame limit. *)
Theorem unpack_total UnpackOne alloc p input :
  (0 <= max_frame_bytes_ p)%Z →
  ∃ r p', unpack UnpackOne alloc p input = Some (r, p') ∧
    limits_ p' = limits_ p ∧ max_frame_bytes_ p' = max_frame_bytes_ p ∧
    scratch_size p' ≤ Nat.max (scratch_size p)
                        (length (substr0 (max_frame_bytes_ p) input) / 3 + 1) ∧
    (rr_status r = rNeedMore → (Z.of_nat (length input) < max_frame_bytes_ p)%Z).
Proof. apply unpack_run. Qed.

Lemma unpack_total_witness :
  ∃ r p', unpack (λ _ _ _, mkRespResult rNoMemory 0 None) (λ _, true) RespParser_new
            (str "*1000000") = Some (r, p') ∧ scratch_size p' ≤ 3 ∧ rr_status r = rNeedMore.
Proof.
  destruct (unpack_total (λ _ _ _, mkRespResult rNoMemory 0 None) (λ _, true) RespParser_new
              (str "*1000000")) as (r & p' & H & _ & _ & Hs & _); [done|].
  exists r, p'. split; [exact H|]. split; [exact Hs|].
  vm_compute in H. injection H as <- _. reflexivity.
Defined.

(** C28: With memory available, growing the arena step by step is invisible:
    [unpack] returns exactly what one attempt with the largest arena returns,
    whatever arena earlier frames left behind. *)
Theorem unpack_equals_reference UnpackOne alloc p input :
  UnpackOneLaws UnpackOne →
  (∀ n, n ≤ unpack_slots (substr0 (max_frame_bytes_ p) input) → alloc n = true) →
  ∃ s, unpack UnpackOne alloc p input =
       Some (unpack_ref UnpackOne p input, mkRespParser (limits_ p) s (max_frame_bytes_ p)).
Proof. intros Laws. by apply unpack_run_ref. Qed.

Lemma unpack_equals_reference_witness :
  ∃ s, unpack demo_unpack (λ _, true) (mkRespParser (mkRespLimits 1024 1024 8) 1 size_max)
         (ping_frame ++ ping_frame) =
       Some (mkRespResult rOk 14 (Some ping_value),
             mkRespParser (mkRespLimits 1024 1024 8) s size_max).
Proof.
  exact (unpack_equals_reference demo_unpack (λ _, true)
           (mkRespParser (mkRespLimits 1024 1024 8) 1 size_max) (ping_frame ++ ping_frame)
           demo_unpack_laws (λ _ _, eq_refl)).
Defined.

(** [peekFrame] on a buffer never goes wrong, takes nothing out of the
    buffer and answers as a function of the bytes the buffer holds; a frame it
    reports has at least three bytes, lies inside the buffer after [offset], is
    no longer than the frame limit and has at least one argument. *)
Theorem peekFrame_spec UnpackOne alloc p h F io bs offset :
  UnpackOneLaws UnpackOne → (0 <= max_frame_bytes_ p)%Z →
  pool_inv h (blocks_ io ++ F) → IoBuffer_repr h io bs →
  wp (RespParser_peekFrame UnpackOne alloc p io offset)
     (λ '(io', (p', st, info)) h', h' = h ∧ blocks_ io' = blocks_ io ∧ IoBuffer_repr h io' bs ∧
        peek_bytes UnpackOne alloc p bs offset = Some (p', st, info) ∧
        frame_within p bs offset st info) h.
Proof.
  intros Laws Hmax Hinv Hr. unfold RespParser_peekFrame, IoBuffer_readableBytes.
  rewrite (ir_size _ _ _ Hr).
  destruct (peek_bytes_total UnpackOne alloc p bs offset Hmax)
    as (p' & st & info & Hpeek & _ & _ & Hw).
  case_decide as Hoff.
  - apply wp_ret. split_and!; [done..| |done]. unfold peek_bytes. by rewrite decide_True.
  - wp_bind_on wp_readableView; [done..|]. intros [io' v] h' (-> & -> & Hb & Hr').
    apply wp_bind. eapply wp_opt; [exact Hpeek|]. apply wp_ret. by split_and!.
Qed.

(** A buffer for the witnesses: two sixteen-byte blocks that hold a request and
    the beginning of another one. *)
Definition demo_parser : RespParser := mkRespParser (mkRespLimits 1024 1024 8) 0 size_max.
Definition demo_input : bytes := ping_frame ++ take 10 ping_frame.
Definition demo_io_run : option (IoBuffer * BlockPool) :=
  IoBuffer_append IoBuffer_new demo_input (BlockPool_new 16 (λ _ _, zero)).
Definition demo_io : IoBuffer := from_option fst IoBuffer_new demo_io_run.
Definition demo_pool : BlockPool :=
  from_option snd (BlockPool_new 16 (λ _ _, zero)) demo_io_run.

Lemma demo_io_ok :
  pool_inv demo_pool (blocks_ demo_io ++ []) ∧ IoBuffer_repr demo_pool demo_io demo_input.
Proof.
  pose proof (pool_inv_new 16 (λ _ _, zero) ltac:(lia)) as Hinv.
  pose proof (wp_append (BlockPool_new 16 (λ _ _, zero)) [] IoBuffer_new [] demo_input Hinv) as Hwp.
  apply wp_run in Hwp as (io & h & Hrun & [Hi Hr _] & _).
  - unfold demo_pool, demo_io, demo_io_run. rewrite Hrun. simpl. rewrite app_nil_r.
    by rewrite !app_nil_r in Hi.
  - split; simpl; try done; [constructor|by left].
  - vm_compute. done.
Qed.

Lemma peekFrame_spec_witness :
  wp (RespParser_peekFrame demo_unpack (λ _, true) demo_parser demo_io 0)
     (λ '(io', (p', st, info)) h', h' = demo_pool ∧ blocks_ io' = blocks_ demo_io ∧
        IoBuffer_repr demo_pool io' demo_input ∧
        peek_bytes demo_unpack (λ _, true) demo_parser demo_input 0 = Some (p', st, info) ∧
        frame_within demo_parser demo_input 0 st info) demo_pool.
Proof.
  apply (peekFrame_spec demo_unpack (λ _, true) demo_parser demo_pool [] demo_io demo_input 0);
    [apply demo_unpack_laws|done|apply demo_io_ok|apply demo_io_ok].
Defined.

(** C29: [nextReplyFrame] never goes wrong.  When it reports a frame, the reply
    chain holds exactly the frame's bytes and the buffer exactly what follows;
    otherwise buffer and chain keep their contents.  Everybody else's blocks,
    slices and buffers are untouched, and the chain's old slices are given back. *)
Theorem nextReplyFrame_spec UnpackOne alloc p h F io bs out old :
  UnpackOneLaws UnpackOne → (0 <= max_frame_bytes_ p)%Z →
  pool_inv h (blocks_ io ++ chain_ptrs out ++ F) → IoBuffer_repr h io bs → chain_repr h out old →
  (Z.of_nat (length (blocks_ io ++ chain_ptrs out ++ F) + length (blocks_ io)) < 2 ^ 32)%Z →
  wp (RespParser_nextReplyFrame UnpackOne alloc p io out)
     (λ '(io', out', (p', st, consumed)) h',
        pool_inv h' (blocks_ io' ++ chain_ptrs out' ++ F) ∧
        next_bytes UnpackOne alloc p bs = Some (p', st, consumed) ∧
        io_step (blocks_ io) (blocks_ io') F h h' ∧
        match consumed with
        | Some n => st = pOk ∧ 3 ≤ n ≤ length bs ∧
                    IoBuffer_repr h' io' (drop n bs) ∧ chain_repr h' out' (take n bs)
        | None => st ≠ pOk ∧ IoBuffer_repr h' io' bs ∧ chain_repr h' out' old
        end) h.
Proof.
  intros Laws Hmax Hinv Hr Hout Hlen.
  wp_bind_on wp_readableView; [done..|]. intros [io1 v] h' (-> & -> & Hb & Hr1).
  destruct (unpack_run UnpackOne alloc p bs Hmax) as (r & p' & Hu & _).
  apply wp_bind. unfold next_bytes. rewrite Hu. simpl. case_decide as Hok.
  - destruct (unpack_ok UnpackOne alloc p bs r p' Hmax Hu Hok) as (Hc & _).
    eapply wp_opt; [reflexivity|]. rewrite <-Hb in Hinv, Hlen.
    wp_bind_on wp_slicePrefix; [exact Hinv|exact Hr1|exact Hlen|].
    intros [io2 c] h2 [[Hinv2 Hr2 Hst2] Hc2]. rewrite Hb in Hst2.
    apply wp_bind, wp_bind. eapply wp_mono.
    { apply (wp_reset_slices h2 (blocks_ io2 ++ chain_ptrs c ++ F)). fold (chain_ptrs out).
      by rewrite (Permutation_app_swap_app (chain_ptrs out)),
                 (Permutation_app_swap_app (chain_ptrs out)). }
    intros _ h3 (Hinv3 & Hv3 & Hs3). apply wp_ret, wp_ret. split_and!; try done.
    + eapply io_step_trans; [eapply io_step_weaken; [|exact Hst2]; set_solver|].
      apply io_step_views; [set_solver|done|by left].
    + lia.
    + lia.
    + destruct Hr2. split; try done. rewrite (blocks_bytes_ext h2 h3); [done|]. set_solver.
    + eapply chain_stable; [|exact Hc2]. intros q Hq. apply grows_view, Hv3. set_solver.
  - eapply wp_opt; [reflexivity|]. apply wp_ret. rewrite Hb.
    split_and!; try done; [apply io_step_refl|]. by destruct (rr_status r).
Qed.

Lemma nextReplyFrame_spec_witness :
  wp (RespParser_nextReplyFrame demo_unpack (λ _, true) demo_parser demo_io BufferChain_new)
     (λ '(io', out', (p', st, consumed)) h',
        pool_inv h' (blocks_ io' ++ chain_ptrs out' ++ []) ∧
        next_bytes demo_unpack (λ _, true) demo_parser demo_input = Some (p', st, consumed) ∧
        io_step (blocks_ demo_io) (blocks_ io') [] demo_pool h' ∧
        match consumed with
        | Some n => st = pOk ∧ 3 ≤ n ≤ length demo_input ∧
                    IoBuffer_repr h' io' (drop n demo_input) ∧ chain_repr h' out' (take n demo_input)
        | None => st ≠ pOk ∧ IoBuffer_repr h' io' demo_input ∧ chain_repr h' out' []
        end) demo_pool.
Proof.
  apply (nextReplyFrame_spec demo_unpack (λ _, true) demo_parser demo_pool [] demo_io demo_input
           BufferChain_new []);
    [apply demo_unpack_laws|done|apply demo_io_ok|apply demo_io_ok|apply chain_repr_empty|].
  vm_compute. reflexivity.
Defined.

(** Framing does not depend on how the bytes arrive: a request that was
    recognised at some offset is recognised as the same request when more bytes
    follow, whatever arena the parser has by then. *)
Theorem peek_streaming UnpackOne alloc p q view more offset p' info :
  UnpackOneLaws UnpackOne → (∀ n, alloc n = true) →
  limits_ q = limits_ p → max_frame_bytes_ q = max_frame_bytes_ p → (0 <= max_frame_bytes_ p)%Z →
  peek_bytes UnpackOne alloc p view offset = Some (p', pOk, Some info) →
  ∃ q', peek_bytes UnpackOne alloc q (view ++ more) offset = Some (q', pOk, Some info).
Proof.
  intros Laws Halloc Hlim Hfr Hmax. unfold peek_bytes. case_decide as Hoff; [done|].
  rewrite decide_False by (rewrite length_app; lia).
  destruct (unpack_run_ref UnpackOne alloc p (drop offset view)) as [s ->]; [by auto|].
  destruct (unpack_run_ref UnpackOne alloc q (drop offset (view ++ more))) as [s' ->]; [by auto|].
  simpl. case_decide as Hok; [|by destruct (rr_status _)].
  assert (unpack_ref UnpackOne q (drop offset (view ++ more)) =
          unpack_ref UnpackOne p (drop offset view)) as ->.
  { by apply unpack_ref_extend. }
  rewrite decide_True by done. destruct (rr_value _) as [v|]; [|done]. simpl.
  destruct (extractCommandInfo v) as [[i|]|]; simpl; intros; simplify_eq. eauto.
Qed.

Lemma peek_streaming_witness :
  ∃ q', peek_bytes demo_unpack (λ _, true) (mkRespParser (mkRespLimits 1024 1024 8) 7 size_max)
          (ping_frame ++ pong_frame) 0
        = Some (q', pOk, Some (mkRespFrameInfo 14 (str "PING") 1)).
Proof.
  apply (peek_streaming demo_unpack (λ _, true) demo_parser _ ping_frame pong_frame 0
           (mkRespParser (mkRespLimits 1024 1024 8) 5 size_max));
    [apply demo_unpack_laws|done..|vm_compute; reflexivity].
Defined.
