(* ===== verification/CoSocket.v ===== *)
(** * CoSocket: descriptors, reads and writes on a socket
    (include/redis_proxy/co_socket.h, src/co_socket.cpp)

    The kernel is an environment that answers system calls.  A blocking
    operation takes the list of answers it meets; when the list ends before the
    operation does, it is still suspended. *)
From S2P Require Import Prelude Status Buffer BufferInv.

(** ** System calls *)

Inductive Errno := EAGAIN | EINPROGRESS | EOTHER (n : Z).

(** Another name for the same number, on Linux. *)
Definition EWOULDBLOCK : Errno := EAGAIN.

#[global] Instance Errno_eq_dec : EqDecision Errno.
Proof. solve_decision. Defined.

Inductive Shut := SHUT_RD | SHUT_RDWR.

Inductive Syscall := SysClose (fd : Z) | SysShutdown (fd : Z) (how : Shut).

Record CoSocket := mkCoSocket { fd_ : Z }.

(** ** Descriptors

    Each operation returns the socket and the system calls it makes. *)

Definition CoSocket_close (s : CoSocket) : CoSocket * list Syscall :=
  if decide (0 <= fd_ s)%Z then (mkCoSocket (-1), [SysClose (fd_ s)]) else (s, []).

(** The released descriptor comes first. *)
Definition CoSocket_release (s : CoSocket) : Z * CoSocket := (fd_ s, mkCoSocket (-1)).

Definition CoSocket_reset (s : CoSocket) (fd : Z) : CoSocket * list Syscall :=
  (mkCoSocket fd, (CoSocket_close s).2).

(** [*this = std::move(other)] for two different sockets: both afterwards. *)
Definition CoSocket_assign_move (this other : CoSocket) : CoSocket * CoSocket * list Syscall :=
  let '(fd, other) := CoSocket_release other in
  (mkCoSocket fd, other, (CoSocket_close this).2).

Definition CoSocket_shutdown (s : CoSocket) : list Syscall :=
  if decide (0 <= fd_ s)%Z then [SysShutdown (fd_ s) SHUT_RDWR] else [].

Definition CoSocket_shutdownRead (s : CoSocket) : list Syscall :=
  if decide (0 <= fd_ s)%Z then [SysShutdown (fd_ s) SHUT_RD] else [].

Section io.
Context (strerror : Errno → string).

(** ** connectTo *)

(** [toSockAddr], [connect] ([None] is 0), [co_poll] and [getsockopt]
    (its own failure, or the pending error) as the environment answers them. *)
Definition CoSocket_connectTo (toSockAddr : bool) (connect : option Errno) (poll : Z)
    (getsockopt : option Z) : Status :=
  if negb toSockAddr then Status_InvalidArgument "invalid endpoint" else
  match connect with
  | None => Status_Ok
  | Some e =>
      if decide (e ≠ EINPROGRESS ∧ e ≠ EAGAIN) then Status_IoError (strerror e)
      else if decide (poll <= 0)%Z then Status_IoError "connect timeout"
      else match getsockopt with
           | Some 0%Z => Status_Ok
           | _ => Status_IoError "connect failed"
           end
  end.

(** ** writeAll *)

(** One answer to [writev]: the kernel takes up to [k] bytes of what it was
    offered, or refuses; after a refusal with EAGAIN, what [co_poll] returns. *)
Inductive WriteEvent := WrTake (k : nat) | WrErr (e : Errno) (poll : Z).

(** The [for] loop that fills [iov]: at most 64 entries, empty ones skipped. *)
Fixpoint fill_iov (room : nat) (slices : list bytes) (offset : nat) : list bytes :=
  match room, slices with
  | 0, _ | _, [] => []
  | S room', s :: slices =>
      if decide (length s ≤ offset) then fill_iov room slices 0
      else drop offset s :: fill_iov room' slices 0
  end.

(** The [while (written > 0 && ...)] loop; [rest] are the slices from [index] on. *)
Fixpoint advance (rest : list bytes) (index offset written : nat) : nat * nat :=
  match rest with
  | [] => (index, offset)
  | s :: rest =>
      if decide (written = 0) then (index, offset) else
      let available := length s - offset in
      if decide (written < available) then (index, offset + written)
      else advance rest (S index) 0 (written - available)
  end.

(** The bytes the kernel accepted, in order, and the status returned, if the
    call has returned. *)
Fixpoint writeAll_loop (slices : list bytes) (index offset : nat) (evs : list WriteEvent) :
    bytes * option Status :=
  if decide (index < length slices) then
    let iov := fill_iov 64 (drop index slices) offset in
    if decide (iov = []) then ([], Some Status_Ok) else
    match evs with
    | [] => ([], None)
    | WrTake k :: evs =>
        let n := Nat.min k (length (concat iov)) in
        if decide (n = 0) then ([], Some (Status_IoError "zero write")) else
        let '(index, offset) := advance (drop index slices) index offset n in
        let '(wire, st) := writeAll_loop slices index offset evs in
        (take n (concat iov) ++ wire, st)
    | WrErr e poll :: evs =>
        if decide (e = EAGAIN ∨ e = EWOULDBLOCK) then
          if decide (poll <= 0)%Z then ([], Some (Status_IoError "write timeout"))
          else writeAll_loop slices index offset evs
        else ([], Some (Status_IoError (strerror e)))
    end
  else ([], Some Status_Ok).

(** The contents of the slices are fixed while the call is suspended: the chain
    holds its blocks, and a held block keeps the bytes it has received. *)
Definition CoSocket_writeAll (chain : BufferChain) (evs : list WriteEvent) :
    ST BlockPool (bytes * option Status) :=
  slices ← mapM BufferSlice_bytes (slices_ chain);
  mret (writeAll_loop slices 0 0 evs).

(** ** readSome *)

(** One answer to [read]: the bytes that are waiting (none at the end of the
    stream), of which it stores as many as fit, or a refusal. *)
Inductive ReadEvent := RdBytes (data : bytes) | RdErr (e : Errno) (poll : Z).

Fixpoint CoSocket_readSome (out : IoBuffer) (evs : list ReadEvent) :
    ST BlockPool (IoBuffer * option Status) :=
  '(out, (p, off), writable) ← IoBuffer_reserveWritable out;
  match evs with
  | [] => mret (out, None)
  | RdBytes data :: _ =>
      let stored := take writable data in
      if decide (stored = []) then mret (out, Some (Status_Closed "peer closed")) else
      memcpy p off stored;;
      out ← IoBuffer_commitWrite out (length stored);
      mret (out, Some Status_Ok)
  | RdErr e poll :: evs =>
      if decide (e = EAGAIN ∨ e = EWOULDBLOCK) then
        if decide (poll <= 0)%Z then mret (out, Some (Status_IoError "read timeout"))
        else CoSocket_readSome out evs
      else mret (out, Some (Status_IoError (strerror e)))
  end.
End io.

(** ** Lemmas on writeAll *)

(** The position inside the first remaining slice. *)
Definition offset_ok (rest : list bytes) (offset : nat) : Prop :=
  match rest with s :: _ => offset ≤ length s | [] => offset = 0 end.

Lemma fill_iov_prefix room rest offset :
  offset_ok rest offset → concat (fill_iov room rest offset) `prefix_of` drop offset (concat rest).
Proof.
  revert room offset. induction rest as [|s rest IH]; intros room offset Hoff.
  { destruct room; simpl; apply prefix_nil. }
  destruct room as [|room]; simpl; [apply prefix_nil|]. simpl in Hoff.
  case_decide as Hle.
  - replace offset with (length s) by lia. rewrite drop_app_length.
    apply IH. destruct rest; simpl; lia.
  - rewrite drop_app_le by lia. simpl. apply prefix_app. apply (IH room 0).
    destruct rest; simpl; lia.
Qed.

Lemma fill_iov_nil room rest offset :
  offset_ok rest offset → fill_iov (S room) rest offset = [] → drop offset (concat rest) = [].
Proof.
  revert offset. induction rest as [|s rest IH]; intros offset Hoff; simpl; [intros _; apply drop_nil|].
  simpl in Hoff. case_decide as Hle; [|done]. intros Hnil.
  replace offset with (length s) by lia. rewrite drop_app_length.
  apply (IH 0); [|done]. destruct rest; simpl; lia.
Qed.

Lemma fill_iov_pos room rest offset :
  fill_iov room rest offset ≠ [] → 0 < length (concat (fill_iov room rest offset)).
Proof.
  revert room offset. induction rest as [|s rest IH]; intros [|room] offset; simpl; try done.
  case_decide as Hle; [apply IH|]. intros _. simpl. rewrite length_app, length_drop. lia.
Qed.

Lemma advance_spec rest index offset written :
  offset_ok rest offset → written ≤ length (drop offset (concat rest)) →
  ∃ k offset', advance rest index offset written = (index + k, offset') ∧ k ≤ length rest ∧
    offset_ok (drop k rest) offset' ∧
    drop offset' (concat (drop k rest)) = drop written (drop offset (concat rest)).
Proof.
  revert index offset written.
  induction rest as [|s rest IH]; intros index offset written Hoff Hw; simpl in *.
  { exists 0, offset. rewrite drop_nil in Hw. simpl in Hw. replace written with 0 by lia.
    rewrite Nat.add_0_r. split_and!; [done|lia|done|]. simpl. by rewrite !drop_nil. }
  case_decide as Hz.
  { exists 0, offset. subst. rewrite Nat.add_0_r. split_and!; [done|lia|done|done]. }
  rewrite drop_app_le in Hw |- * by lia. rewrite length_app, length_drop in Hw.
  case_decide as Hlt.
  - exists 0, (offset + written). rewrite Nat.add_0_r. simpl. split_and!; [done|lia|lia|].
    rewrite drop_app_le by lia. rewrite (drop_app_le (drop _ _)) by (rewrite length_drop; lia).
    by rewrite drop_drop.
  - destruct (IH (S index) 0 (written - (length s - offset))) as (k & o & -> & Hk & Ho & Hd).
    + destruct rest; simpl; lia.
    + rewrite drop_0. lia.
    + exists (S k), o. split_and!; [f_equal; lia|lia|done|]. simpl. rewrite Hd, drop_0.
      rewrite drop_app_ge by (rewrite length_drop; lia). by rewrite length_drop.
Qed.

Section writeAll.
Context (strerror : Errno → string).

Lemma writeAll_loop_spec slices index offset evs :
  index ≤ length slices → offset_ok (drop index slices) offset →
  let '(wire, st) := writeAll_loop strerror slices index offset evs in
  wire `prefix_of` drop offset (concat (drop index slices)) ∧
  (st = Some Status_Ok → wire = drop offset (concat (drop index slices))) ∧
  (∀ s, st = Some s → s = Status_Ok ∨ code_ s = kIoError).
Proof.
  revert index offset. induction evs as [|ev evs IH]; intros index offset Hi Hoff; simpl.
  all: case_decide as Hlt; [|rewrite (drop_ge slices index) in Hoff |- * by lia; simpl in *; subst; naive_solver].
  all: case_decide as Hnil; [rewrite (fill_iov_nil _ _ _ Hoff Hnil); naive_solver|].
  { split_and!; [apply prefix_nil|done|done]. }
  pose proof (fill_iov_prefix 64 _ _ Hoff) as Hpre.
  set (iov := fill_iov 64 (drop index slices) offset) in *.
  destruct ev as [k|e poll].
  - set (n := Nat.min k (length (concat iov))). case_decide as Hz.
    { split_and!; [apply prefix_nil|done|]. intros s [= <-]. by right. }
    destruct Hpre as [tail Htail].
    destruct (advance_spec (drop index slices) index offset n) as (j & o & -> & Hj & Ho & Hd).
    { done. }
    { rewrite Htail, length_app. lia. }
    rewrite length_drop in Hj. rewrite drop_drop in Ho, Hd.
    specialize (IH (index + j) o ltac:(lia) Ho).
    destruct (writeAll_loop strerror slices (index + j) o evs) as [wire st].
    destruct IH as (IHp & IHok & IHerr). rewrite Hd in IHp, IHok.
    rewrite Htail in *. rewrite drop_app_le in IHp, IHok by lia.
    rewrite <-(take_drop n (concat iov)) at 2 4. rewrite <-(assoc_L (++)).
    split_and!; [by apply prefix_app|by intros ->%IHok|done].
  - case_decide; [case_decide|].
    + split_and!; [apply prefix_nil|done|]. intros s [= <-]. by right.
    + by apply IH.
    + split_and!; [apply prefix_nil|done|]. intros s [= <-]. by right.
Qed.

(** An answer that does not end the call, and one that takes bytes. *)
Definition benign (ev : WriteEvent) : bool :=
  match ev with
  | WrTake k => bool_decide (0 < k)
  | WrErr e poll => bool_decide (e = EAGAIN ∨ e = EWOULDBLOCK) && bool_decide (0 < poll)%Z
  end.
Definition takes (ev : WriteEvent) : bool := match ev with WrTake _ => true | _ => false end.

Lemma writeAll_loop_ends slices index offset evs :
  index ≤ length slices → offset_ok (drop index slices) offset →
  forallb benign evs = true →
  length (drop offset (concat (drop index slices))) ≤ length (filter takes evs) →
  (writeAll_loop strerror slices index offset evs).2 = Some Status_Ok.
Proof.
  revert index offset. induction evs as [|ev evs IH]; intros index offset Hi Hoff Hb Hlen; simpl.
  all: case_decide as Hlt; [|done].
  all: case_decide as Hnil; [done|].
  all: pose proof (fill_iov_prefix 64 _ _ Hoff) as [tail Htail].
  all: pose proof (fill_iov_pos _ _ _ Hnil) as Hpos.
  { simpl in Hlen. rewrite Htail, length_app in Hlen. lia. }
  simpl in Hb. apply andb_true_iff in Hb as [Hev Hb].
  destruct ev as [k|e poll]; simpl in Hev.
  - set (n := Nat.min k _). apply bool_decide_eq_true in Hev. rewrite decide_False by lia.
    rewrite filter_cons_True in Hlen by done. simpl in Hlen.
    destruct (advance_spec (drop index slices) index offset n) as (j & o & -> & Hj & Ho & Hd).
    { done. }
    { rewrite Htail, length_app. lia. }
    rewrite length_drop in Hj. rewrite drop_drop in Ho, Hd.
    specialize (IH (index + j) o ltac:(lia) Ho Hb).
    destruct (writeAll_loop strerror slices (index + j) o evs) as [wire st].
    apply IH. rewrite Hd, length_drop. lia.
  - apply andb_true_iff in Hev as [He%bool_decide_eq_true Hp%bool_decide_eq_true].
    rewrite decide_True by done. rewrite decide_False by lia. by apply IH.
Qed.
End writeAll.

(** ** Lemmas on memory *)

Lemma wp_slices_bytes h slices :
  Forall (slice_ok h) slices →
  wp (mapM BufferSlice_bytes slices) (λ r h', r = slice_bytes h <$> slices ∧ h' = h) h.
Proof.
  induction 1 as [|s slices Hs _ IH]; [by apply wp_ret|]. csimpl.
  destruct Hs as (p & d & b & e & Hp & Hv & _ & Hd).
  pose proof Hv as (blk & Hb & <- & _)%view_inv. apply wp_bind, wp_bind.
  eapply wp_opt; [done|]. apply wp_bind, (wp_deref _ _ _ _ Hb), wp_bind, wp_assert; [done|].
  apply wp_ret. wp_bind_on IH. intros r h' [-> ->]. apply wp_ret. split; [|done].
  f_equal. unfold slice_bytes. rewrite Hp. simpl. by rewrite Hv.
Qed.

Lemma wp_writeAll strerror h c bs evs :
  chain_repr h c bs →
  wp (CoSocket_writeAll strerror c evs)
     (λ r h', r = writeAll_loop strerror (slice_bytes h <$> slices_ c) 0 0 evs ∧ h' = h) h.
Proof.
  intros [Hok _ _]. wp_bind_on wp_slices_bytes; [done|]. intros r h' [-> ->]. by apply wp_ret.
Qed.

Lemma chain_concat h c bs : chain_repr h c bs → concat (slice_bytes h <$> slices_ c) = bs.
Proof. intros [_ <- _]. induction (slices_ c) as [|s l IH]; csimpl; congruence. Qed.

(** Once there is room, asking again changes nothing. *)
Lemma wp_reserve_again io F bs h r h1 :
  reserve_post io F bs h r h1 →
  wp (IoBuffer_reserveWritable r.1.1) (reserve_post r.1.1 F bs h1) h1.
Proof.
  destruct r as [[io1 [p off]] w].
  intros (Hinv & Hr & _ & Hlast & _ & (d & s & Hv) & Hw & Hpos). simpl.
  apply view_inv in Hv as (b & Hb & _ & _ & <-).
  pose proof (pi_wf _ _ Hinv _ _ Hb) as [Hd Hc Hbe He].
  apply wp_bind. rewrite Hlast. apply wp_bind. eapply wp_deref; [done|]. apply wp_ret.
  rewrite bool_decide_eq_false_2 by (unfold BufferBlock_writableBytes; lia).
  apply wp_bind, wp_ret.
  eapply wp_reserve_tail; [done|done|apply io_step_refl|done|lia|].
  intros b' Hb'. simplify_eq. lia.
Qed.

(** Room that was found is found again. *)
Lemma reserve_again io h io1 pos n h1 :
  IoBuffer_reserveWritable io h = Some ((io1, pos, n), h1) → 0 < n →
  IoBuffer_reserveWritable io1 h1 = Some ((io1, pos, n), h1).
Proof.
  unfold IoBuffer_reserveWritable at 1. intros Hrun Hn.
  apply ST_bind_Some in Hrun as (full & h2 & _ & Hrun).
  apply ST_bind_Some in Hrun as (io2 & h3 & _ & Hrun).
  apply ST_bind_Some in Hrun as (p & h4 & [Hp ->]%st_opt_Some & Hrun).
  apply ST_bind_Some in Hrun as (b & h4 & Hb & [= <- <- <- <-]).
  unfold IoBuffer_reserveWritable. rewrite Hp. unfold mbind at 1, ST_bind at 1.
  unfold mbind at 1, ST_bind at 1. assert (deref p h4 = Some (b, h4) ∧ h3 = h4) as [Hb' ->].
  { apply ST_bind_Some in Hb as (h5 & h6 & [= <- <-] & [Hb ->]%st_opt_Some). split; [|done].
    unfold deref, mbind, ST_bind, st_get. simpl. unfold st_opt. by rewrite Hb. }
  rewrite Hb'. simpl. rewrite bool_decide_eq_false_2 by lia.
  unfold mbind at 1, ST_bind at 1. simpl. unfold IoBuffer_back, mbind, ST_bind, st_opt. rewrite Hp. simpl.
  by rewrite Hb'.
Qed.

(** The space [reserveWritable] finds: what is left of the last block or, when that
    is full or there is none, a whole block. *)
Definition room (h : BlockPool) (io : IoBuffer) : nat :=
  match last (blocks_ io) ≫= λ p, heap h !! p with
  | Some b => if decide (BufferBlock_writableBytes b = 0) then block_size_ h else BufferBlock_writableBytes b
  | None => block_size_ h
  end.

Lemma wp_reserve_fresh h F io :
  pool_inv h (blocks_ io ++ F) → (Z.of_nat (length (blocks_ io ++ F)) + 1 < 2 ^ 32)%Z →
  wp (p ← BlockPool_acquire;
      mret (mkIoBuffer (blocks_ io ++ [p]) (readable_bytes_ io) (linearized_ io) (linearized_offset_ io)))
     (λ io', wp (p ← IoBuffer_back io'; b ← deref p; mret (io', (p, end_ b), BufferBlock_writableBytes b))
                (λ r _, r.2 = block_size_ h)) h.
Proof.
  intros Hinv Hlen. wp_bind_on wp_acquire; [done..|].
  intros p h' (_ & Hinv' & _ & (d & Hv) & Hsz). apply wp_ret, wp_bind. eapply wp_opt; [by apply last_snoc|].
  apply view_inv in Hv as (b & Hb & _ & _ & He). pose proof (pi_wf _ _ Hinv' _ _ Hb) as [_ Hc _ _].
  apply wp_bind, (wp_deref _ _ _ _ Hb), wp_ret. simpl. unfold BufferBlock_writableBytes. lia.
Qed.

Lemma wp_reserve_size h F io :
  pool_inv h (blocks_ io ++ F) → (Z.of_nat (length (blocks_ io ++ F)) + 1 < 2 ^ 32)%Z →
  wp (IoBuffer_reserveWritable io) (λ r _, r.2 = room h io) h.
Proof.
  intros Hinv Hlen. unfold room. apply wp_bind.
  destruct (last (blocks_ io)) as [p|] eqn:Hlast; [|by apply wp_ret, wp_bind; eapply wp_reserve_fresh].
  destruct (pool_inv_lookup _ _ p Hinv) as (b & Hb & _).
  { apply elem_of_app. left. by apply last_Some_elem_of. }
  simpl. rewrite Hb. apply wp_bind, (wp_deref _ _ _ _ Hb), wp_ret.
  case_bool_decide as Hw; apply wp_bind; [rewrite decide_True by done; by eapply wp_reserve_fresh|].
  rewrite decide_False by done. apply wp_ret, wp_bind. eapply wp_opt; [done|].
  by apply wp_bind, (wp_deref _ _ _ _ Hb), wp_ret.
Qed.

Lemma reserve_room h F io bs :
  pool_inv h (blocks_ io ++ F) → IoBuffer_repr h io bs →
  (Z.of_nat (length (blocks_ io ++ F)) + 1 < 2 ^ 32)%Z →
  wp (IoBuffer_reserveWritable io) (λ r h1, reserve_post io F bs h r h1 ∧ r.2 = room h io) h.
Proof.
  intros Hinv Hr Hlen. pose proof (wp_reserve_size _ _ _ Hinv Hlen) as Hsize. revert Hsize.
  destruct (wp_run _ _ _ (wp_reserveWritable _ _ _ _ Hinv Hr Hlen)) as (r & h1 & Hrun & Hpost).
  unfold wp. by rewrite Hrun.
Qed.

(** The answer that decides: the kernel is asked again after a refusal as long as
    [co_poll] says that there is something to read. *)
Definition asks_again (ev : ReadEvent) : bool :=
  match ev with RdErr e poll => bool_decide (e = EAGAIN ∧ (0 < poll)%Z) | RdBytes _ => false end.
Definition decisive (evs : list ReadEvent) : option ReadEvent :=
  snd <$> list_find (λ ev, asks_again ev = false) evs.

(** What [readSome] returns and what it has appended when it meets these answers;
    [n] is the room it has. *)
Definition read_outcome (strerror : Errno → string) (n : nat) (ev : option ReadEvent) : option Status * bytes :=
  match ev with
  | None => (None, [])
  | Some (RdBytes []) => (Some (Status_Closed "peer closed"), [])
  | Some (RdBytes data) => (Some Status_Ok, take n data)
  | Some (RdErr EAGAIN _) => (Some (Status_IoError "read timeout"), [])
  | Some (RdErr e _) => (Some (Status_IoError (strerror e)), [])
  end.

Record read_post (strerror : Errno → string) (io : IoBuffer) (F : list ptr) (bs : bytes)
    (evs : list ReadEvent) (n : nat) (h : BlockPool) (r : IoBuffer * option Status) (h' : BlockPool) : Prop := {
  rp_inv : pool_inv h' (blocks_ r.1 ++ F);
  rp_step : io_step (blocks_ io) (blocks_ r.1) F h h';
  rp_status : r.2 = (read_outcome strerror n (decisive evs)).1;
  rp_bytes : IoBuffer_repr h' r.1 (bs ++ (read_outcome strerror n (decisive evs)).2)
}.

Lemma decisive_again ev evs : asks_again ev = true → decisive (ev :: evs) = decisive evs.
Proof.
  intros He. unfold decisive. simpl. rewrite decide_False by congruence.
  by destruct (list_find _ evs) as [[]|].
Qed.

Lemma decisive_now ev evs : asks_again ev = false → decisive (ev :: evs) = Some ev.
Proof. intros He. unfold decisive. simpl. by rewrite decide_True. Qed.

(** The socket call runs with the room [n] that was found the first time. *)
Lemma wp_readSome_loop strerror F bs evs io h n :
  wp (IoBuffer_reserveWritable io) (λ r h1, reserve_post io F bs h r h1 ∧ r.2 = n) h →
  wp (CoSocket_readSome strerror io evs) (read_post strerror io F bs evs n h) h.
Proof.
  revert io h. induction evs as [|ev evs IH]; intros io h Hres;
    destruct (wp_run _ _ _ Hres) as ([[io1 [p off]] w] & h1 & Hrun & Hpost & Hn);
    pose proof (wp_reserve_again _ _ _ _ _ _ Hpost) as Hagain;
    destruct Hpost as (Hinv & Hr & Hst & Hlast & _ & (d & s & Hv) & Hw & Hpos); cbn [fst snd] in *; subst n;
    cbn [CoSocket_readSome]; apply wp_bind; unfold wp at 1; rewrite Hrun.
  { apply wp_ret. split; simpl; [done..|]. by rewrite app_nil_r. }
  assert (∀ st, asks_again ev = false → read_outcome strerror w (Some ev) = (Some st, []) →
    read_post strerror io F bs (ev :: evs) w h (io1, Some st) h1) as Hsame.
  { intros st He Ho. split; rewrite ?(decisive_now _ _ He), ?Ho; simpl; [done..|]. by rewrite app_nil_r. }
  destruct ev as [data|e poll].
  - case_decide as Hnil.
    { apply wp_ret, Hsame; [done|]. by destruct data, w; [..|lia|]. }
    apply wp_bind_assoc. eapply wp_bind, wp_mono.
    { eapply wp_write_commit; [done..|]. rewrite length_take. lia. }
    intros io2 h2 (Hinv2 & Hr2 & Hbl & Hst2). apply wp_ret.
    assert (read_outcome strerror w (decisive (RdBytes data :: evs)) = (Some Status_Ok, take w data)) as Ho.
    { rewrite decisive_now by done. destruct data; [by rewrite take_nil in Hnil|done]. }
    split; rewrite ?Ho; simpl; [done|by eapply io_step_trans|done..].
  - case_decide as He; [assert (e = EAGAIN) as -> by (by destruct He); case_decide as Hp|].
    + apply wp_ret, Hsame; [|done]. apply bool_decide_eq_false. lia.
    + assert (wp (IoBuffer_reserveWritable io1) (λ r h2, reserve_post io1 F bs h1 r h2 ∧ r.2 = w) h1) as Hres1.
      { revert Hagain. unfold wp. by rewrite (reserve_again _ _ _ _ _ _ Hrun Hpos). }
      eapply wp_mono; [by apply IH|]. intros r h2 [Hi2 Hs2 Hst3 Hb2].
      rewrite <-(decisive_again (RdErr EAGAIN poll)) in Hst3, Hb2 by (apply bool_decide_eq_true; split; [done|lia]).
      split; [done|by eapply io_step_trans|done..].
    + apply wp_ret, Hsame; [apply bool_decide_eq_false; naive_solver|]. destruct e; naive_solver.
Qed.

(** ** Descriptors: who closes what *)

(** A sequence of operations on a table of sockets. *)
Inductive SockOp :=
  | SockClose (i : nat)
  | SockRelease (i : nat)
  | SockReset (i : nat) (fd : Z)
  | SockMove (i j : nat).

(** The table, the system calls made and the descriptors handed out. *)
Definition sock_step (table : list CoSocket) (o : SockOp) :
    option (list CoSocket * list Syscall * list Z) :=
  match o with
  | SockClose i =>
      s ← table !! i;
      let '(s, calls) := CoSocket_close s in Some (<[i := s]> table, calls, [])
  | SockRelease i =>
      s ← table !! i;
      let '(fd, s) := CoSocket_release s in Some (<[i := s]> table, [], [fd])
  | SockReset i fd =>
      s ← table !! i;
      let '(s, calls) := CoSocket_reset s fd in Some (<[i := s]> table, calls, [])
  | SockMove i j =>
      s ← table !! i; s' ← table !! j;
      if decide (i = j) then Some (table, [], []) else
      let '(s, s', calls) := CoSocket_assign_move s s' in
      Some (<[j := s']> (<[i := s]> table), calls, [])
  end.

Fixpoint sock_run (table : list CoSocket) (ops : list SockOp) :
    option (list CoSocket * list Syscall * list Z) :=
  match ops with
  | [] => Some (table, [], [])
  | o :: ops =>
      '(table, calls, out) ← sock_step table o;
      '(table, calls', out') ← sock_run table ops;
      Some (table, calls ++ calls', out ++ out')
  end.

(** Real descriptors: those a socket holds, those that were closed. *)
Definition live (fd : Z) : list Z := if decide (0 <= fd)%Z then [fd] else [].
Definition held (table : list CoSocket) : list Z := table ≫= λ s, live (fd_ s).
Definition closed (calls : list Syscall) : list Z :=
  calls ≫= λ c, match c with SysClose fd => [fd] | _ => [] end.
Definition given (ops : list SockOp) : list Z :=
  ops ≫= λ o, match o with SockReset _ fd => live fd | _ => [] end.

Lemma held_insert table i s s' :
  table !! i = Some s → held (<[i := s']> table) ++ live (fd_ s) ≡ₚ held table ++ live (fd_ s').
Proof.
  intros Hi. rewrite <-(take_drop_middle table i s Hi) at 2.
  rewrite insert_take_drop by (by eapply lookup_lt_Some).
  unfold held. rewrite !bind_app. csimpl. solve_Permutation.
Qed.

Lemma held_insert' table i s s' A B :
  table !! i = Some s → live (fd_ s) ++ A ≡ₚ live (fd_ s') ++ B →
  held (<[i := s']> table) ++ B ≡ₚ held table ++ A.
Proof.
  intros Hi HAB. apply (Permutation_app_inv_r (live (fd_ s))).
  pose proof (held_insert table i s s' Hi) as Hp.
  transitivity ((held (<[i := s']> table) ++ live (fd_ s)) ++ B); [solve_Permutation|].
  rewrite Hp. transitivity (held table ++ (live (fd_ s') ++ B)); [solve_Permutation|].
  rewrite <-HAB. solve_Permutation.
Qed.

Lemma closed_close s : closed (CoSocket_close s).2 = live (fd_ s).
Proof. unfold CoSocket_close, live. by case_decide. Qed.

Lemma live_close s : live (fd_ (CoSocket_close s).1) = [].
Proof.
  unfold CoSocket_close, live. destruct (decide (0 <= fd_ s)%Z); simpl; [done|].
  by rewrite decide_False.
Qed.

Lemma sock_step_conserves table o table' calls out :
  sock_step table o = Some (table', calls, out) →
  held table' ++ closed calls ++ (out ≫= live) ≡ₚ held table ++ given [o].
Proof.
  destruct o as [i|i|i fd|i j]; simpl; intros Hs;
    (destruct (table !! i) as [s|] eqn:Hi; [|done]); simpl in Hs.
  - pose proof (closed_close s) as Hc. pose proof (live_close s) as Hl.
    destruct (CoSocket_close s) as [s' c]; simplify_eq/=.
    eapply held_insert'; [done|]. by rewrite Hl, Hc, !app_nil_r.
  - simplify_eq/=. eapply held_insert'; [done|]. unfold closed. csimpl. by rewrite !app_nil_r.
  - simplify_eq/=. eapply held_insert'; [done|]. rewrite closed_close. simpl.
    rewrite !app_nil_r. solve_Permutation.
  - destruct (table !! j) as [s'|] eqn:Hj; [|done]. simpl in Hs. case_decide as Hij; simplify_eq/=.
    { by rewrite !app_nil_r. }
    rewrite closed_close, !app_nil_r.
    apply (Permutation_app_inv_r (live (fd_ s'))).
    pose proof (held_insert _ _ _ (mkCoSocket (fd_ s')) Hi) as H1.
    pose proof (held_insert (<[i := mkCoSocket (fd_ s')]> table) j s' (mkCoSocket (-1))) as H2.
    rewrite list_lookup_insert_ne in H2 by done. specialize (H2 Hj). simpl in *.
    rewrite app_nil_r in H2. rewrite <-H1, <-H2. solve_Permutation.
Qed.

Lemma sock_run_conserves table ops table' calls out :
  sock_run table ops = Some (table', calls, out) →
  held table' ++ closed calls ++ (out ≫= live) ≡ₚ held table ++ given ops.
Proof.
  revert table table' calls out.
  induction ops as [|o ops IH]; intros table table' calls out; simpl; [by intros [= <- <- <-]|].
  destruct (sock_step table o) as [[[t1 c1] o1]|] eqn:Hstep; simpl; [|done].
  destruct (sock_run t1 ops) as [[[t2 c2] o2]|] eqn:Hrun; simpl; [|done]. intros [= <- <- <-].
  apply sock_step_conserves in Hstep. apply IH in Hrun.
  unfold given, closed in *. rewrite !bind_app. csimpl. csimpl in Hstep. rewrite app_nil_r in Hstep.
  rewrite (assoc_L (++) (held table)), <-Hstep.
  transitivity ((held t2 ++ (c2 ≫= λ c, match c with SysClose fd => [fd] | _ => [] end) ++
    (o2 ≫= live)) ++ (c1 ≫= λ c, match c with SysClose fd => [fd] | _ => [] end) ++ (o1 ≫= live));
    [solve_Permutation|]. rewrite Hrun. solve_Permutation.
Qed.

(** ** Reading is reserving and appending *)

Lemma append_reserved io h p off n data io' h' :
  IoBuffer_reserveWritable io h = Some ((io, (p, off), n), h) → data ≠ [] → length data ≤ n →
  (memcpy p off data;; IoBuffer_commitWrite io (length data)) h = Some (io', h') →
  IoBuffer_append io data h = Some (io', h').
Proof.
  intros Hres Hne Hn Hrun. unfold IoBuffer_append.
  destruct (length data) as [|k] eqn:Hl; [by apply length_zero_iff_nil in Hl|].
  rewrite append_loop_step by done. unfold mbind at 1, ST_bind at 1. rewrite Hres.
  cbn zeta. rewrite Hl, Nat.min_r, (take_ge data), (drop_ge data) by lia.
  apply ST_bind_Some in Hrun as (u & h1 & Hcpy & Hcom). unfold mbind, ST_bind. rewrite Hcpy, Hcom. by destruct k.
Qed.

(** Whatever the kernel answers, [readSome] is [reserveWritable] followed by one
    [append] of what was read, which is nothing unless it returns Ok. *)
Lemma readSome_appends strerror evs io h io' st h' :
  CoSocket_readSome strerror io evs h = Some ((io', st), h') →
  ∃ io1 pos n h1, IoBuffer_reserveWritable io h = Some ((io1, pos, n), h1) ∧
    (0 < n → ∃ data, IoBuffer_append io1 data h1 = Some (io', h') ∧ (st ≠ Some Status_Ok → data = [])).
Proof.
  revert io h. induction evs as [|ev evs IH]; intros io h Hrun; cbn [CoSocket_readSome] in Hrun;
    apply ST_bind_Some in Hrun as ([[io1 [p off]] n] & h1 & Hres & Hrun); exists io1, (p, off), n, h1;
    (split; [done|]); intros Hn.
  { injection Hrun as <- <- <-. by exists []. }
  destruct ev as [data|e poll].
  - case_decide as Hne; [injection Hrun as <- <- <-; by exists []|].
    exists (take n data). split.
    + apply ST_bind_Some in Hrun as (u & h2 & Hcpy & Hrun).
      apply ST_bind_Some in Hrun as (io2 & h3 & Hcom & [= <- <- <-]).
      eapply (append_reserved io1 h1 p off n); [by eapply reserve_again|done|rewrite length_take; lia|].
      unfold mbind, ST_bind. by rewrite Hcpy.
    + apply ST_bind_Some in Hrun as (u & h2 & _ & Hrun).
      by apply ST_bind_Some in Hrun as (io2 & h3 & _ & [= <- <- <-]).
  - repeat case_decide; try (injection Hrun as <- <- <-; by exists []).
    destruct (IH _ _ Hrun) as (io2 & pos & m & h2 & Hres2 & Happ).
    rewrite (reserve_again _ _ _ _ _ _ Hres Hn) in Hres2. injection Hres2 as <- <- <- <-. by apply Happ.
Qed.

(** ** A concrete pool and chain *)

Definition sample_pool : BlockPool := BlockPool_new 8 (λ _ _, zero).
Definition sample_data : bytes := str "*1:$4:PING and some more bytes".
Definition sample_run : option (BufferChain * BlockPool) := MakeBufferChain sample_data sample_pool.
Definition sample_chain : BufferChain := from_option fst BufferChain_new sample_run.
Definition sample_heap : BlockPool := from_option snd sample_pool sample_run.

Lemma sample_chain_ok : chain_repr sample_heap sample_chain sample_data.
Proof.
  pose proof (wp_MakeBufferChain sample_pool [] sample_data
                (pool_inv_new 8 _ ltac:(lia)) ltac:(vm_compute; done)) as Hwp.
  apply wp_run in Hwp as (c & h & Hrun & _ & Hc & _).
  unfold sample_heap, sample_chain, sample_run. by rewrite Hrun.
Qed.

(** ** Claims *)

(** C30: Whatever the kernel answers, [writeAll] reads its chain without going
    wrong and leaves memory unchanged; what reaches the wire is a prefix of the
    chain's bytes in order, without a gap or a repetition; when it returns Ok the
    wire got all of them; and every other status it returns is an I/O error. *)
Theorem writeAll_wire strerror h c bs evs :
  chain_repr h c bs →
  ∃ wire st, CoSocket_writeAll strerror c evs h = Some ((wire, st), h) ∧
    wire `prefix_of` bs ∧ (st = Some Status_Ok → wire = bs) ∧
    (∀ s, st = Some s → s = Status_Ok ∨ code_ s = kIoError).
Proof.
  intros Hc. destruct (wp_run _ _ _ (wp_writeAll strerror h c bs evs Hc)) as (r & ? & Hrun & Hr & ->).
  pose proof (writeAll_loop_spec strerror (slice_bytes h <$> slices_ c) 0 0 evs) as Hspec.
  rewrite <-Hr, !drop_0, (chain_concat _ _ _ Hc) in Hspec. destruct r as [wire st].
  exists wire, st. split; [done|]. apply Hspec; [lia|]. destruct (slices_ c); simpl; lia.
Qed.

Lemma writeAll_wire_witness :
  length (slices_ sample_chain) = 4 ∧
  ∃ wire st,
    CoSocket_writeAll (λ _, "broken pipe"%string) sample_chain
      [WrTake 5; WrErr EAGAIN 1; WrTake 9; WrErr (EOTHER 32) 0] sample_heap =
      Some ((wire, st), sample_heap) ∧
    wire `prefix_of` sample_data ∧ (st = Some Status_Ok → wire = sample_data) ∧
    (∀ s, st = Some s → s = Status_Ok ∨ code_ s = kIoError).
Proof.
  split; [vm_compute; reflexivity|]. apply writeAll_wire, sample_chain_ok.
Defined.

(** C31: [writeAll] makes progress: when the kernel never reports an error and
    accepts at least one byte at least as often as the chain has bytes, in
    between any number of "try again" answers, the call returns Ok. *)
Theorem writeAll_completes strerror h c bs evs :
  chain_repr h c bs →
  forallb benign evs = true →
  length bs ≤ length (filter takes evs) →
  CoSocket_writeAll strerror c evs h = Some ((bs, Some Status_Ok), h).
Proof.
  intros Hc Hb Hlen.
  destruct (wp_run _ _ _ (wp_writeAll strerror h c bs evs Hc)) as (r & ? & Hrun & Hr & ->).
  set (sl := slice_bytes h <$> slices_ c) in *.
  assert (offset_ok (drop 0 sl) 0) as Hoff by (destruct sl; simpl; lia).
  pose proof (writeAll_loop_spec strerror sl 0 0 evs ltac:(lia) Hoff) as Hspec.
  pose proof (writeAll_loop_ends strerror sl 0 0 evs ltac:(lia) Hoff Hb) as Hend.
  rewrite <-Hr, !drop_0 in *. unfold sl in *. rewrite (chain_concat _ _ _ Hc) in *.
  destruct r as [wire st]. simpl in Hend. specialize (Hend Hlen). subst st.
  destruct Hspec as (_ & Hok & _). by rewrite (Hok eq_refl) in Hrun.
Qed.

(** The kernel takes one byte at a time. *)
Lemma writeAll_completes_witness :
  CoSocket_writeAll (λ _, ""%string) sample_chain (WrErr EAGAIN 1 :: repeat (WrTake 1) 30) sample_heap =
    Some ((sample_data, Some Status_Ok), sample_heap).
Proof.
  apply writeAll_completes; [apply sample_chain_ok|vm_compute; reflexivity|vm_compute; lia].
Defined.

(** C32: [readSome] never goes wrong, keeps every reference count right, and does
    exactly this.  The answer that decides is the first one that is not a refusal
    after which [co_poll] reports something to read.  If it brings bytes, [readSome]
    returns Ok and has appended them, all that fit the room the buffer had; if it
    is the end of the stream, it returns Closed; if [co_poll] ran out of time, the
    I/O error "read timeout"; on any other error, an I/O error with its text; and in
    these three cases, as while it still waits, the contents of the buffer are what
    they were. *)
Theorem readSome_spec strerror h F io bs evs :
  pool_inv h (blocks_ io ++ F) → IoBuffer_repr h io bs →
  (Z.of_nat (length (blocks_ io ++ F)) + 1 < 2 ^ 32)%Z →
  wp (CoSocket_readSome strerror io evs) (read_post strerror io F bs evs (room h io) h) h.
Proof. intros. by apply wp_readSome_loop, reserve_room. Qed.

(** Thirty bytes arrive, eight fit the block. *)
Lemma readSome_spec_witness :
  read_outcome (λ _, ""%string) (room sample_pool IoBuffer_new) (decisive [RdErr EAGAIN 1; RdBytes sample_data]) =
    (Some Status_Ok, str "*1:$4:PI") ∧
  wp (CoSocket_readSome (λ _, ""%string) IoBuffer_new [RdErr EAGAIN 1; RdBytes sample_data])
     (read_post (λ _, ""%string) IoBuffer_new [] [] [RdErr EAGAIN 1; RdBytes sample_data]
        (room sample_pool IoBuffer_new) sample_pool) sample_pool.
Proof.
  split; [vm_compute; reflexivity|]. apply readSome_spec.
  - apply pool_inv_new. lia.
  - split; simpl; [constructor|done|done|by left].
  - vm_compute. reflexivity.
Defined.

(** C33: Descriptors are conserved.  Over any sequence of close, release, reset
    and move assignment on any table of sockets, the descriptors still held,
    those closed and those released are together exactly those held at first
    and those given to [reset]: none is closed twice, none is lost. *)
Theorem descriptors_conserved table ops table' calls out :
  sock_run table ops = Some (table', calls, out) →
  held table' ++ closed calls ++ (out ≫= live) ≡ₚ held table ++ given ops.
Proof. apply sock_run_conserves. Qed.

Lemma descriptors_conserved_witness :
  sock_run [mkCoSocket 3; mkCoSocket 4; mkCoSocket (-1)]
      [SockMove 2 0; SockReset 1 9; SockClose 0; SockRelease 2] =
    Some ([mkCoSocket (-1); mkCoSocket 9; mkCoSocket (-1)], [SysClose 4], [3%Z]) ∧
  held [mkCoSocket (-1); mkCoSocket 9; mkCoSocket (-1)] ++ closed [SysClose 4] ++ ([3%Z] ≫= live) ≡ₚ
    held [mkCoSocket 3; mkCoSocket 4; mkCoSocket (-1)] ++
    given [SockMove 2 0; SockReset 1 9; SockClose 0; SockRelease 2].
Proof. split; [reflexivity|]. apply descriptors_conserved. reflexivity. Defined.
