(* ===== verification/CoroutineSignal.v ===== *)
(** * CoroutineSignal: a wake-up that is remembered
    (include/redis_proxy/coroutine_signal.h, src/coroutine_signal.cpp)

    The condition variable [co::CoCond] belongs to the coroutine library, so it
    is a parameter: its operations are the class [CoCond] and what the signal
    relies on is the class [CoCondLaws]. *)
From S2P Require Import Prelude.

(** ** The condition variable

    [Timedwait(0)] is two steps for the caller: it is suspended, and some time
    after it has become runnable it returns. *)
Class CoCond (C : Type) := {
  cond_init : C;
  cond_Signal : C → C;
  cond_suspend : C → C;
  cond_runnable : C → bool;
  cond_return : C → C
}.

(** With a single waiter: a suspended caller stays suspended until a signal
    makes it runnable; a signal without a waiter leaves no trace. *)
Class CoCondLaws (C : Type) `{CoCond C} := {
  cond_waits : C → bool;
  cond_init_idle : cond_waits cond_init = false;
  cond_suspend_waits c : cond_waits c = false →
    cond_waits (cond_suspend c) = true ∧ cond_runnable (cond_suspend c) = false;
  cond_Signal_wakes c : cond_waits c = true →
    cond_waits (cond_Signal c) = true ∧ cond_runnable (cond_Signal c) = true;
  cond_Signal_idle c : cond_waits c = false → cond_waits (cond_Signal c) = false;
  cond_return_idle c : cond_waits (cond_return c) = false
}.

(** ** The signal *)

Section signal.
Context {C : Type} `{CoCond C}.

Record CoroutineSignal := mkCoroutineSignal { cond_ : C; pending_ : bool }.

Definition CoroutineSignal_new : CoroutineSignal := mkCoroutineSignal cond_init false.

Definition notify (s : CoroutineSignal) : CoroutineSignal :=
  mkCoroutineSignal (cond_Signal (cond_ s)) true.

(** [wait] up to the point where it returns ([true]) or is suspended. *)
Definition wait (s : CoroutineSignal) : bool * CoroutineSignal :=
  if pending_ s then (true, mkCoroutineSignal (cond_ s) false)
  else (false, mkCoroutineSignal (cond_suspend (cond_ s)) (pending_ s)).

(** The rest of a suspended [wait]. *)
Definition wait_return (s : CoroutineSignal) : CoroutineSignal :=
  mkCoroutineSignal (cond_return (cond_ s)) false.

Definition pendingForTest (s : CoroutineSignal) : bool := pending_ s.
End signal.
Arguments CoroutineSignal : clear implicits.

(** ** One waiter and any number of notifiers *)

Section protocol.
Context {C : Type} `{CoCondLaws C}.

(** A waiter that is running or suspended in [wait]. *)
Record Waiter := mkWaiter { sig : CoroutineSignal C; suspended : bool }.

(** Somebody notifies; the waiter calls [wait]; the scheduler resumes it. *)
Inductive SigOp := SigNotify | SigWait | SigResume.

(** [None]: the step is not possible. *)
Definition sig_step (w : Waiter) (o : SigOp) : option Waiter :=
  match o with
  | SigNotify => Some (mkWaiter (notify (sig w)) (suspended w))
  | SigWait =>
      if suspended w then None else
      let '(returned, s) := wait (sig w) in Some (mkWaiter s (negb returned))
  | SigResume =>
      if suspended w && cond_runnable (cond_ (sig w))
      then Some (mkWaiter (wait_return (sig w)) false) else None
  end.

Fixpoint sig_run (w : Waiter) (ops : list SigOp) : option Waiter :=
  match ops with
  | [] => Some w
  | o :: ops => w ← sig_step w o; sig_run w ops
  end.

(** The specification: was there a notification that no return of [wait] has
    followed yet, and is the waiter inside [wait]? *)
Definition sig_spec (a : bool * bool) (o : SigOp) : option (bool * bool) :=
  let '(unseen, inside) := a in
  match o with
  | SigNotify => Some (true, inside)
  | SigWait => if inside then None else Some (false, negb unseen)
  | SigResume => if inside && unseen then Some (false, false) else None
  end.

Fixpoint sig_specs (a : bool * bool) (ops : list SigOp) : option (bool * bool) :=
  match ops with
  | [] => Some a
  | o :: ops => a ← sig_spec a o; sig_specs a ops
  end.

(** How the implementation represents the specification's state. *)
Definition sig_rel (w : Waiter) (a : bool * bool) : Prop :=
  suspended w = a.2 ∧ cond_waits (cond_ (sig w)) = a.2 ∧ pending_ (sig w) = a.1 ∧
  (a.2 = true → cond_runnable (cond_ (sig w)) = a.1).

Lemma sig_step_rel w a o :
  sig_rel w a → option_Forall2 sig_rel (sig_step w o) (sig_spec a o).
Proof.
  destruct w as [[c p] su], a as [unseen inside]. intros (Hs & Hw & Hp & Hr). simpl in *. subst su p.
  destruct o; simpl.
  - constructor. unfold sig_rel. simpl. destruct inside.
    + destruct (cond_Signal_wakes c Hw). naive_solver.
    + pose proof (cond_Signal_idle c Hw). naive_solver.
  - destruct inside; [constructor|]. unfold wait. simpl.
    destruct unseen; constructor; unfold sig_rel; simpl; [naive_solver|].
    destruct (cond_suspend_waits c Hw). naive_solver.
  - destruct inside; simpl; [|constructor]. rewrite (Hr eq_refl).
    destruct unseen; constructor. unfold sig_rel. simpl. rewrite cond_return_idle. naive_solver.
Qed.

(** C34: A signal is exactly a remembered wake-up.  For every sequence of
    notifications, waits and resumptions, the waiter can be resumed, and [wait]
    returns at once, precisely when a notification has happened since the last
    time [wait] returned: no wake-up is lost and none is invented, however
    notifications and suspensions interleave. *)
Theorem signal_remembers ops :
  option_Forall2 sig_rel (sig_run (mkWaiter CoroutineSignal_new false) ops)
                         (sig_specs (false, false) ops).
Proof.
  assert (sig_rel (mkWaiter CoroutineSignal_new false) (false, false)) as Hrel
    by (unfold sig_rel; simpl; rewrite cond_init_idle; naive_solver).
  revert Hrel. generalize (mkWaiter CoroutineSignal_new false), (false, false).
  induction ops as [|o ops IH]; intros w a Hrel; simpl; [by constructor|].
  destruct (sig_step_rel w a o Hrel); simpl; [by apply IH|constructor].
Qed.
End protocol.

(** ** A coroutine that may sleep on a signal *)

Section sleeper.
Context {C : Type} `{CoCondLaws C}.
Implicit Types (g : CoroutineSignal C) (P Q : Prop).

(** It is suspended on [g] exactly if [waiting], and while there is work it can be
    resumed. *)
Record sleeper g (waiting : bool) P : Prop := {
  sl_waits : cond_waits (cond_ g) = waiting;
  sl_live : waiting = true → P → cond_runnable (cond_ g) = true
}.

Lemma sleeper_init P : sleeper CoroutineSignal_new false P.
Proof. split; [apply cond_init_idle|done]. Qed.

Lemma sleeper_notify g b P Q : sleeper g b P → sleeper (notify g) b Q.
Proof.
  intros [Hw _]. destruct b.
  - destruct (cond_Signal_wakes _ Hw). by split.
  - split; [by apply cond_Signal_idle|done].
Qed.

Lemma sleeper_mono g b P Q : (Q → P) → sleeper g b P → sleeper g b Q.
Proof. intros HQ [Hw Hl]. split; auto. Qed.

Lemma sleeper_idle g P Q : sleeper g false P → sleeper g false Q.
Proof. intros [Hw _]. by split. Qed.

Lemma sleeper_return g P : sleeper (wait_return g) false P.
Proof. split; [apply cond_return_idle|done]. Qed.

(** [wait] returns at once, and then not again, or suspends, with nothing to do. *)
Lemma sleeper_wait g P Q returned g' :
  sleeper g false P → wait g = (returned, g') →
  if returned then pending_ g' = false ∧ sleeper g' false Q else ~ Q → sleeper g' true Q.
Proof.
  intros [Hw _]. unfold wait. destruct (pending_ g); intros [= <- <-].
  - by split; [|split].
  - intros HQ. destruct (cond_suspend_waits _ Hw). by split.
Qed.

Lemma wait_pending g : pending_ g = false → ∃ g', wait g = (false, g').
Proof. unfold wait. intros ->. eauto. Qed.
End sleeper.

(** ** A condition variable that satisfies the laws *)

Inductive demo_cond := CondIdle | CondWaiting | CondRunnable.

#[global] Instance demo_CoCond : CoCond demo_cond := {
  cond_init := CondIdle;
  cond_Signal c := match c with CondIdle => CondIdle | _ => CondRunnable end;
  cond_suspend _ := CondWaiting;
  cond_runnable c := match c with CondRunnable => true | _ => false end;
  cond_return _ := CondIdle
}.

#[global] Instance demo_CoCondLaws : CoCondLaws demo_cond.
Proof.
  refine {| cond_waits c := match c with CondIdle => false | _ => true end |};
    try intros []; done.
Defined.

(** Two notifications before a wait count as one; a notification that arrives
    while the waiter is suspended releases it. *)
Lemma signal_remembers_witness :
  sig_run (C := demo_cond) (mkWaiter CoroutineSignal_new false)
    [SigNotify; SigNotify; SigWait; SigWait; SigNotify; SigResume; SigWait] =
    Some (mkWaiter (mkCoroutineSignal CondWaiting false) true) ∧
  option_Forall2 (sig_rel (C := demo_cond))
    (sig_run (mkWaiter CoroutineSignal_new false)
      [SigNotify; SigNotify; SigWait; SigWait; SigNotify; SigResume; SigWait])
    (sig_specs (false, false)
      [SigNotify; SigNotify; SigWait; SigWait; SigNotify; SigResume; SigWait]).
Proof. split; [reflexivity|apply (signal_remembers (C := demo_cond))]. Defined.
