(* ===== verification/Config.v ===== *)
(** * Config: the configuration file and the command line
    (include/redis_proxy/config.h, src/config.cpp)

    Strings are lists of characters.  [Endpoint::parse] belongs to another
    library and is a parameter: given the text and the endpoint it may overwrite,
    it says whether it succeeded and what the endpoint is afterwards. *)
From S2P Require Import Prelude.

Definition int_limit : Z := 1000000.

(** ** The C library's number parsers *)

Definition ch (n : nat) : byte := ascii_of_nat n.

(** [isspace] in the C locale. *)
Definition isspace (c : byte) : bool :=
  let n := nat_of_ascii c in bool_decide (n = 32 ∨ 9 ≤ n ≤ 13).

Definition isdigit (c : byte) : bool :=
  let n := nat_of_ascii c in bool_decide (48 ≤ n ≤ 57).

Definition digit (c : byte) : Z := Z.of_nat (nat_of_ascii c) - 48.

(** The longest prefix whose characters satisfy [f], and the rest. *)
Fixpoint span (f : byte → bool) (s : bytes) : bytes * bytes :=
  match s with
  | [] => ([], [])
  | c :: s' => if f c then let '(a, r) := span f s' in (c :: a, r) else ([], s)
  end.

(** [std::string::c_str] as a C string: up to the first NUL. *)
Definition c_str (s : bytes) : bytes := (span (λ c, bool_decide (c ≠ zero)) s).1.

Definition decimal_value (ds : bytes) : Z := foldl (λ acc c, 10 * acc + digit c)%Z 0%Z ds.

(** What [strtol] and [strtoull] recognise in base 10: sign, magnitude and what
    follows; [None] when there is no number, and then [end] is the start. *)
Definition scan_number (s : bytes) : option (bool * Z * bytes) :=
  let s := (span isspace s).2 in
  let '(neg, s) := match s with
                   | c :: s' => if decide (c = "-"%char) then (true, s')
                                else if decide (c = "+"%char) then (false, s') else (false, s)
                   | [] => (false, s)
                   end in
  let '(ds, rest) := span isdigit s in
  match ds with [] => None | _ => Some (neg, decimal_value ds, rest) end.

Definition ullong_max : Z := 2 ^ 64 - 1.
Definition long_max : Z := 2 ^ 63 - 1.
Definition long_min : Z := - 2 ^ 63.

(** The number and the characters from [end] on, for a parser that turns sign and
    magnitude into its result with [f]. *)
Definition convert_number (f : bool → Z → Z) (s : bytes) : Z * bytes :=
  match scan_number s with
  | None => (0%Z, s)
  | Some (neg, v, rest) => (f neg v, rest)
  end.

(** [strtoull] saturates, and negates modulo 2^64. *)
Definition to_ullong (neg : bool) (v : Z) : Z :=
  if decide (ullong_max < v)%Z then ullong_max else if neg then u64 (- v) else v.

(** [strtol] saturates at both ends. *)
Definition to_long (neg : bool) (v : Z) : Z :=
  let v := if neg then (- v)%Z else v in
  if decide (long_max < v)%Z then long_max else if decide (v < long_min)%Z then long_min else v.

Definition strtoull (s : bytes) : Z * bytes := convert_number to_ullong s.
Definition strtol (s : bytes) : Z * bytes := convert_number to_long s.

(** ** Trim, ParseSize, ParseInt *)

Definition blank (c : byte) : bool :=
  bool_decide (c = " "%char ∨ c = ch 9 ∨ c = ch 13 ∨ c = ch 10).

(** [find_first_not_of] and [find_last_not_of]; [None] is [npos]. *)
Definition find_first_not_of (s : bytes) : option nat :=
  fst <$> list_find (λ c, blank c = false) s.
Definition find_last_not_of (s : bytes) : option nat :=
  (λ i, length s - 1 - i) <$> find_first_not_of (reverse s).

Definition Trim (s : bytes) : bytes :=
  match find_first_not_of s, find_last_not_of s with
  | Some first, Some last => take (last - first + 1) (drop first s)
  | _, _ => []
  end.

(** The result and [*out] afterwards. *)
Definition ParseSize (value : bytes) (out : Z) : bool * Z :=
  let '(parsed, rest) := strtoull (c_str value) in
  if decide (rest ≠ []) then (false, out) else (true, parsed).

Definition ParseInt (value : bytes) (out : Z) : bool * Z :=
  let '(parsed, rest) := strtol (c_str value) in
  if decide (rest ≠ [] ∨ (parsed < 0)%Z ∨ (int_limit < parsed)%Z) then (false, out)
  else (true, parsed).

(** ** Config *)

Section config.
Context {Endpoint : Type}.

Record Config := mkConfig {
  listen : Endpoint;
  redis : Endpoint;
  workers : Z;
  backend_conns_per_worker : Z;
  max_request_bytes : Z;
  max_bulk_bytes : Z;
  max_array_elements : Z;
  max_pipeline_commands_per_read : Z;
  connect_timeout_ms : Z;
  read_timeout_ms : Z;
  write_timeout_ms : Z
}.

Definition set_listen (e : Endpoint) (c : Config) : Config :=
  mkConfig e (redis c) (workers c) (backend_conns_per_worker c) (max_request_bytes c)
    (max_bulk_bytes c) (max_array_elements c) (max_pipeline_commands_per_read c)
    (connect_timeout_ms c) (read_timeout_ms c) (write_timeout_ms c).
Definition set_redis (e : Endpoint) (c : Config) : Config :=
  mkConfig (listen c) e (workers c) (backend_conns_per_worker c) (max_request_bytes c)
    (max_bulk_bytes c) (max_array_elements c) (max_pipeline_commands_per_read c)
    (connect_timeout_ms c) (read_timeout_ms c) (write_timeout_ms c).
Definition set_workers (z : Z) (c : Config) : Config :=
  mkConfig (listen c) (redis c) z (backend_conns_per_worker c) (max_request_bytes c)
    (max_bulk_bytes c) (max_array_elements c) (max_pipeline_commands_per_read c)
    (connect_timeout_ms c) (read_timeout_ms c) (write_timeout_ms c).
Definition set_backend_conns (z : Z) (c : Config) : Config :=
  mkConfig (listen c) (redis c) (workers c) z (max_request_bytes c)
    (max_bulk_bytes c) (max_array_elements c) (max_pipeline_commands_per_read c)
    (connect_timeout_ms c) (read_timeout_ms c) (write_timeout_ms c).
Definition set_max_request (z : Z) (c : Config) : Config :=
  mkConfig (listen c) (redis c) (workers c) (backend_conns_per_worker c) z
    (max_bulk_bytes c) (max_array_elements c) (max_pipeline_commands_per_read c)
    (connect_timeout_ms c) (read_timeout_ms c) (write_timeout_ms c).
Definition set_max_bulk (z : Z) (c : Config) : Config :=
  mkConfig (listen c) (redis c) (workers c) (backend_conns_per_worker c) (max_request_bytes c)
    z (max_array_elements c) (max_pipeline_commands_per_read c)
    (connect_timeout_ms c) (read_timeout_ms c) (write_timeout_ms c).
Definition set_max_array (z : Z) (c : Config) : Config :=
  mkConfig (listen c) (redis c) (workers c) (backend_conns_per_worker c) (max_request_bytes c)
    (max_bulk_bytes c) z (max_pipeline_commands_per_read c)
    (connect_timeout_ms c) (read_timeout_ms c) (write_timeout_ms c).
Definition set_max_pipeline (z : Z) (c : Config) : Config :=
  mkConfig (listen c) (redis c) (workers c) (backend_conns_per_worker c) (max_request_bytes c)
    (max_bulk_bytes c) (max_array_elements c) z
    (connect_timeout_ms c) (read_timeout_ms c) (write_timeout_ms c).
Definition set_connect_timeout (z : Z) (c : Config) : Config :=
  mkConfig (listen c) (redis c) (workers c) (backend_conns_per_worker c) (max_request_bytes c)
    (max_bulk_bytes c) (max_array_elements c) (max_pipeline_commands_per_read c)
    z (read_timeout_ms c) (write_timeout_ms c).
Definition set_read_timeout (z : Z) (c : Config) : Config :=
  mkConfig (listen c) (redis c) (workers c) (backend_conns_per_worker c) (max_request_bytes c)
    (max_bulk_bytes c) (max_array_elements c) (max_pipeline_commands_per_read c)
    (connect_timeout_ms c) z (write_timeout_ms c).
Definition set_write_timeout (z : Z) (c : Config) : Config :=
  mkConfig (listen c) (redis c) (workers c) (backend_conns_per_worker c) (max_request_bytes c)
    (max_bulk_bytes c) (max_array_elements c) (max_pipeline_commands_per_read c)
    (connect_timeout_ms c) (read_timeout_ms c) z.

(** The default member initialisers; [mk] is the [Endpoint] constructor. *)
Definition Config_default (mk : string → Z → Endpoint) : Config :=
  mkConfig (mk "127.0.0.1" 6379%Z) (mk "127.0.0.1" 6380%Z) 1 1
    (512 * 1024 * 1024) (512 * 1024 * 1024) (1024 * 1024) (1024 * 1024) 5000 30000 30000.

Context (Endpoint_parse : bytes → Endpoint → bool * Endpoint).

(** A call [parse(value, &cfg->field)]. *)
Definition into {A} (set : A → Config → Config) (cfg : Config) (r : bool * A) : bool * Config :=
  (r.1, set r.2 cfg).

Definition Apply (cfg : Config) (key value : bytes) : bool * Config :=
  if decide (key = str "listen") then into set_listen cfg (Endpoint_parse value (listen cfg)) else
  if decide (key = str "redis") then into set_redis cfg (Endpoint_parse value (redis cfg)) else
  if decide (key = str "workers") then into set_workers cfg (ParseInt value (workers cfg)) else
  if decide (key = str "backend_conns_per_worker") then
    into set_backend_conns cfg (ParseInt value (backend_conns_per_worker cfg)) else
  if decide (key = str "max_request_bytes") then
    into set_max_request cfg (ParseSize value (max_request_bytes cfg)) else
  if decide (key = str "max_bulk_bytes") then
    into set_max_bulk cfg (ParseSize value (max_bulk_bytes cfg)) else
  if decide (key = str "max_array_elements") then
    into set_max_array cfg (ParseSize value (max_array_elements cfg)) else
  if decide (key = str "max_pipeline_commands_per_read") then
    into set_max_pipeline cfg (ParseSize value (max_pipeline_commands_per_read cfg)) else
  if decide (key = str "connect_timeout_ms") then
    into set_connect_timeout cfg (ParseInt value (connect_timeout_ms cfg)) else
  if decide (key = str "read_timeout_ms") then
    into set_read_timeout cfg (ParseInt value (read_timeout_ms cfg)) else
  if decide (key = str "write_timeout_ms") then
    into set_write_timeout cfg (ParseInt value (write_timeout_ms cfg)) else
  (false, cfg).

(** The result and [*error] when it is written. *)
Definition ValidateConfig (config : Config) : bool * option string :=
  if decide (workers config <= 0)%Z then (false, Some "workers must be positive"%string) else
  if decide ((backend_conns_per_worker config <= 0)%Z ∨ (4 < backend_conns_per_worker config)%Z)
  then (false, Some "backend_conns_per_worker must be 1..4"%string) else
  if decide (max_request_bytes config = 0%Z ∨ max_bulk_bytes config = 0%Z ∨
             max_array_elements config = 0%Z ∨ max_pipeline_commands_per_read config = 0%Z)
  then (false, Some "limits must be positive"%string) else (true, None).

(** The lines [std::getline] yields until the end of the file. *)
Fixpoint getlines (s : bytes) : list bytes :=
  match s with
  | [] => []
  | c :: s =>
      if decide (c = ch 10) then [] :: getlines s else
      match getlines s with [] => [[c]] | l :: ls => (c :: l) :: ls end
  end.

(** One round of the [while] loop: [true] to go on. *)
Definition config_line (out : Config) (line : bytes) : bool * Config :=
  let trimmed := Trim line in
  match trimmed with
  | [] => (true, out)
  | c :: _ =>
      if decide (c = "#"%char) then (true, out) else
      match fst <$> list_find (λ c, c = "="%char) trimmed with
      | None => (false, out)
      | Some eq => Apply out (Trim (take eq trimmed)) (Trim (drop (eq + 1) trimmed))
      end
  end.

Fixpoint config_lines (out : Config) (ls : list bytes) : bool * Config :=
  match ls with
  | [] => ((ValidateConfig out).1, out)
  | line :: ls =>
      let '(ok, out) := config_line out line in
      if ok then config_lines out ls else (false, out)
  end.

(** The file system: the contents of the files that can be opened. *)
Context (files : bytes → option bytes).

Definition LoadConfigFile (path : bytes) (out : Config) : bool * Config :=
  match files path with
  | None => (false, out)
  | Some text => config_lines out (getlines text)
  end.

(** The [for] loop over [argv[1 ..]]; [None] is [return false]. *)
Fixpoint apply_args (cfg : Config) (args : list bytes) : option Config :=
  let accept (r : bool * Config) : option Config := if r.1 then Some r.2 else None in
  match args with
  | [] => Some cfg
  | arg :: args =>
      if decide (arg = str "--config") then
        match args with
        | value :: args => cfg ← accept (LoadConfigFile value cfg); apply_args cfg args
        | [] => None
        end
      else if decide (arg = str "--listen") then
        match args with
        | value :: args =>
            cfg ← accept (into set_listen cfg (Endpoint_parse value (listen cfg)));
            apply_args cfg args
        | [] => None
        end
      else if decide (arg = str "--redis") then
        match args with
        | value :: args =>
            cfg ← accept (into set_redis cfg (Endpoint_parse value (redis cfg)));
            apply_args cfg args
        | [] => None
        end
      else if decide (arg = str "--workers") then
        match args with
        | value :: args =>
            cfg ← accept (into set_workers cfg (ParseInt value (workers cfg)));
            apply_args cfg args
        | [] => None
        end
      else if decide (arg = str "--backend-conns") then
        match args with
        | value :: args =>
            cfg ← accept (into set_backend_conns cfg
                            (ParseInt value (backend_conns_per_worker cfg)));
            apply_args cfg args
        | [] => None
        end
      else None
  end.

Definition LoadConfigFromArgs (mk : string → Z → Endpoint) (argv : list bytes) (out : Config) :
    bool * Config :=
  match apply_args (Config_default mk) (tail argv) with
  | None => (false, out)
  | Some cfg => if (ValidateConfig cfg).1 then (true, cfg) else (false, out)
  end.
End config.
Arguments Config : clear implicits.

(** ** Numbers *)

Lemma span_app f s : let '(a, r) := span f s in s = a ++ r ∧ forallb f a = true.
Proof.
  induction s as [|c s IH]; simpl; [done|]. destruct (f c) eqn:Hf; [|done].
  destruct (span f s) as [a r]. destruct IH as [-> Ha]. simpl. by rewrite Hf, Ha.
Qed.

Lemma span_all f s r :
  forallb f s = true → match r with [] => True | c :: _ => f c = false end → span f (s ++ r) = (s, r).
Proof.
  intros Hs Hr. induction s as [|c s IH]; simpl in *.
  - destruct r as [|c r]; simpl; [done|]. by rewrite Hr.
  - apply andb_true_iff in Hs as [-> Hs]. by rewrite (IH Hs).
Qed.

Lemma isdigit_range c : isdigit c = true → (0 <= digit c <= 9)%Z.
Proof. unfold isdigit, digit. intros ?%bool_decide_eq_true. lia. Qed.

Lemma isdigit_not_sign c : isdigit c = true → c ≠ "-"%char ∧ c ≠ "+"%char ∧ isspace c = false ∧ c ≠ zero.
Proof.
  unfold isdigit, isspace. intros ?%bool_decide_eq_true. split_and!.
  1, 2, 4: intros ->; vm_compute in H; lia.
  apply bool_decide_eq_false. lia.
Qed.

Lemma decimal_value_snoc ds c : decimal_value (ds ++ [c]) = (10 * decimal_value ds + digit c)%Z.
Proof. unfold decimal_value. by rewrite foldl_app. Qed.

Lemma decimal_value_nonneg ds : forallb isdigit ds = true → (0 <= decimal_value ds)%Z.
Proof.
  induction ds as [|c ds IH] using rev_ind; [done|]. rewrite decimal_value_snoc, forallb_app.
  intros [Hds Hc]%andb_true_iff. simpl in Hc. apply andb_true_iff in Hc as [Hc%isdigit_range _].
  specialize (IH Hds). lia.
Qed.

Lemma scan_number_nonneg s neg v rest : scan_number s = Some (neg, v, rest) → (0 <= v)%Z.
Proof.
  unfold scan_number. set (s' := (span isspace s).2). destruct (match s' with [] => _ | _ => _ end) as [n t].
  pose proof (span_app isdigit t) as Hs. destruct (span isdigit t) as [ds r].
  destruct Hs as [_ Hds]. destruct ds as [|c ds]; [done|]. intros [= <- <- <-].
  by apply decimal_value_nonneg.
Qed.

Lemma ParseInt_range value out b z :
  (0 <= out <= int_limit)%Z → ParseInt value out = (b, z) → (0 <= z <= int_limit)%Z.
Proof.
  unfold ParseInt. destruct (strtol (c_str value)) as [p r]. case_decide; intros; simplify_eq; lia.
Qed.

Lemma strtoull_range s : (0 <= (strtoull s).1 <= ullong_max)%Z.
Proof.
  unfold strtoull, convert_number, to_ullong, ullong_max.
  destruct (scan_number s) as [[[neg v] rest]|] eqn:Hs; simpl; [|lia].
  apply scan_number_nonneg in Hs. case_decide; simpl; [lia|].
  pose proof (u64_range (- v)). destruct neg; lia.
Qed.

Lemma ParseSize_range value out b z :
  (0 <= out <= ullong_max)%Z → ParseSize value out = (b, z) → (0 <= z <= ullong_max)%Z.
Proof.
  unfold ParseSize. pose proof (strtoull_range (c_str value)).
  destruct (strtoull (c_str value)) as [p r]. case_decide; intros; simplify_eq/=; lia.
Qed.

(** A plain decimal number. *)
Lemma c_str_digits ds : forallb isdigit ds = true → c_str ds = ds.
Proof.
  intros Hds. unfold c_str. rewrite <-(app_nil_r ds), (span_all _ ds []); [by rewrite app_nil_r| |done].
  apply List.forallb_forall. intros c Hc. eapply List.forallb_forall in Hds; [|done].
  apply isdigit_not_sign in Hds. apply bool_decide_eq_true. tauto.
Qed.

Lemma scan_digits ds :
  ds ≠ [] → forallb isdigit ds = true → scan_number ds = Some (false, decimal_value ds, []).
Proof.
  intros Hne Hds. unfold scan_number. destruct ds as [|c ds]; [done|].
  pose proof Hds as Hc. simpl in Hc. apply andb_true_iff in Hc as [(H1 & H2 & H3 & _)%isdigit_not_sign _].
  simpl. rewrite H3. simpl. rewrite !decide_False by done.
  pose proof (span_all isdigit (c :: ds) [] Hds I) as Hspan. rewrite app_nil_r in Hspan.
  by rewrite Hspan.
Qed.

Lemma ParseSize_digits ds out :
  ds ≠ [] → forallb isdigit ds = true → (decimal_value ds <= ullong_max)%Z →
  ParseSize ds out = (true, decimal_value ds).
Proof.
  intros Hne Hds Hv. unfold ParseSize, strtoull, convert_number. rewrite c_str_digits, scan_digits by done.
  unfold to_ullong. by rewrite (decide_False (P := (_ < _)%Z)) by lia.
Qed.

Lemma ParseInt_digits ds out :
  ds ≠ [] → forallb isdigit ds = true → (decimal_value ds <= int_limit)%Z →
  ParseInt ds out = (true, decimal_value ds).
Proof.
  intros Hne Hds Hv. unfold ParseInt, strtol, convert_number, to_long.
  rewrite c_str_digits, scan_digits by done.
  pose proof (decimal_value_nonneg ds Hds). unfold int_limit, long_max, long_min in *.
  rewrite !(decide_False (P := (_ < _)%Z)) by lia. rewrite decide_False; [done|]. naive_solver lia.
Qed.

(** Decimal notation. *)
Fixpoint decimal_go (fuel : nat) (n : Z) (acc : bytes) : bytes :=
  match fuel with
  | 0 => acc
  | S fuel =>
      let acc := ch (Z.to_nat (48 + n `mod` 10)) :: acc in
      if decide (n < 10)%Z then acc else decimal_go fuel (n / 10) acc
  end.

(** Twenty digits are enough for 64 bits. *)
Definition decimal (n : Z) : bytes := decimal_go 20 n [].

Lemma digit_ch k : (0 <= k < 10)%Z → isdigit (ch (Z.to_nat (48 + k))) = true ∧ digit (ch (Z.to_nat (48 + k))) = k.
Proof.
  intros Hk. unfold isdigit, digit, ch. rewrite nat_ascii_embedding by lia. split; [|lia].
  apply bool_decide_eq_true. lia.
Qed.

Lemma decimal_go_spec fuel n acc :
  0 < fuel → (0 <= n < 10 ^ Z.of_nat fuel)%Z →
  ∃ ds, decimal_go fuel n acc = ds ++ acc ∧ ds ≠ [] ∧ forallb isdigit ds = true ∧ decimal_value ds = n.
Proof.
  revert n acc. induction fuel as [|fuel IH]; intros n acc Hf Hn; [lia|]. simpl.
  pose proof (Z.mod_pos_bound n 10 ltac:(lia)) as Hm. pose proof (Z.div_mod n 10 ltac:(lia)) as Hdm.
  destruct (digit_ch (n `mod` 10)) as [Hd Hv]; [lia|]. case_decide as Hlt.
  - exists [ch (Z.to_nat (48 + n `mod` 10))]. simpl. split_and!; [done|done|by rewrite Hd|].
    etransitivity; [apply (decimal_value_snoc [])|]. rewrite Hv, Z.mod_small by lia. done.
  - rewrite Nat2Z.inj_succ, Z.pow_succ_r in Hn by lia.
    assert (0 < fuel) as Hpos by (destruct fuel; [simpl in Hn; lia|lia]).
    destruct (IH (n / 10)%Z (ch (Z.to_nat (48 + n `mod` 10)) :: acc) Hpos)
      as (ds & -> & Hne & Hds & Hval); [lia|].
    exists (ds ++ [ch (Z.to_nat (48 + n `mod` 10))]).
    split_and!; [by rewrite <-(assoc_L (++))|by destruct ds|by rewrite forallb_app, Hds; simpl; rewrite Hd|].
    rewrite decimal_value_snoc, Hval, Hv. lia.
Qed.

Lemma decimal_spec n :
  (0 <= n <= ullong_max)%Z →
  decimal n ≠ [] ∧ forallb isdigit (decimal n) = true ∧ decimal_value (decimal n) = n.
Proof.
  intros Hn. unfold decimal. destruct (decimal_go_spec 20 n []) as (ds & -> & H); [lia| |].
  { unfold ullong_max in Hn. lia. }
  by rewrite app_nil_r.
Qed.

(** The text of a number: blanks, an optional sign and digits. *)
Definition number_text (s : bytes) (neg : bool) (ds : bytes) : Prop :=
  ∃ ws sign, s = ws ++ sign ++ ds ∧ forallb isspace ws = true ∧
    ds ≠ [] ∧ forallb isdigit ds = true ∧
    sign = (if neg then ["-"%char] else sign) ∧ (neg = false → sign = [] ∨ sign = ["+"%char]).

Lemma scan_number_text s neg v :
  scan_number s = Some (neg, v, []) ↔ ∃ ds, number_text s neg ds ∧ v = decimal_value ds.
Proof.
  split.
  - unfold scan_number. pose proof (span_app isspace s) as Hs.
    destruct (span isspace s) as [ws t]. destruct Hs as [-> Hws]. simpl.
    set (body := match t with [] => _ | _ => _ end).
    assert (∃ sign, t = sign ++ body.2 ∧ sign = (if body.1 then ["-"%char] else sign) ∧
              (body.1 = false → sign = [] ∨ sign = ["+"%char])) as (sign & Ht & Hsign & Hpos).
    { unfold body. destruct t as [|c t]; [by exists []; auto|].
      case_decide as H1; [by subst; exists ["-"%char]|].
      case_decide as H2; [by subst; exists ["+"%char]; auto|by exists []; auto]. }
    destruct body as [n r]. simpl in *. subst t.
    pose proof (span_app isdigit r) as Hr. destruct (span isdigit r) as [ds rest].
    destruct Hr as [-> Hds]. destruct ds as [|c ds]; [done|]. intros [= <- <- ->].
    exists (c :: ds). split; [|done]. exists ws, sign. rewrite app_nil_r. done.
  - intros (ds & (ws & sign & -> & Hws & Hne & Hds & Hsign & Hpos) & ->).
    destruct ds as [|c ds]; [done|]. pose proof Hds as Hc. simpl in Hc.
    apply andb_true_iff in Hc as [(H1 & H2 & H3 & _)%isdigit_not_sign _].
    assert (sign = ["-"%char] ∧ neg = true ∨ sign = ["+"%char] ∧ neg = false ∨
            sign = [] ∧ neg = false) as Hcases.
    { destruct neg; [by left|]. destruct (Hpos eq_refl); auto. }
    pose proof (span_all isdigit (c :: ds) [] Hds I) as Hspan. rewrite app_nil_r in Hspan.
    unfold scan_number. rewrite span_all; [|done|].
    + cbn [snd]. destruct Hcases as [[-> ->]|[[-> ->]|[-> ->]]]; cbn [app].
      * rewrite decide_True by done. by rewrite Hspan.
      * rewrite decide_False, decide_True by done. by rewrite Hspan.
      * rewrite !decide_False by done. by rewrite Hspan.
    + by destruct Hcases as [[-> ->]|[[-> ->]|[-> ->]]].
Qed.

(** ** The bounds of a configuration *)

Section bounds.
Context {Endpoint : Type} (Endpoint_parse : bytes → Endpoint → bool * Endpoint).
Context (files : bytes → option bytes) (mk : string → Z → Endpoint).
Implicit Types (cfg : Config Endpoint).

Definition int_ok (z : Z) : Prop := (0 <= z <= int_limit)%Z.
Definition size_ok (z : Z) : Prop := (0 <= z <= ullong_max)%Z.

(** Every field fits its C++ type and the limits of the number parsers. *)
Record config_range cfg : Prop := {
  cr_workers : int_ok (workers cfg);
  cr_conns : int_ok (backend_conns_per_worker cfg);
  cr_request : size_ok (max_request_bytes cfg);
  cr_bulk : size_ok (max_bulk_bytes cfg);
  cr_array : size_ok (max_array_elements cfg);
  cr_pipeline : size_ok (max_pipeline_commands_per_read cfg);
  cr_connect : int_ok (connect_timeout_ms cfg);
  cr_read : int_ok (read_timeout_ms cfg);
  cr_write : int_ok (write_timeout_ms cfg)
}.

Lemma config_range_default : config_range (Config_default mk).
Proof. split; vm_compute; split; discriminate. Qed.

Lemma ParseInt_ok value out : int_ok out → int_ok (ParseInt value out).2.
Proof. intros. eapply ParseInt_range; [done|]. apply surjective_pairing. Qed.

Lemma ParseSize_ok value out : size_ok out → size_ok (ParseSize value out).2.
Proof. intros. eapply ParseSize_range; [done|]. apply surjective_pairing. Qed.

Lemma Apply_range cfg key value : config_range cfg → config_range (Apply Endpoint_parse cfg key value).2.
Proof.
  intros []. unfold Apply, into.
  repeat case_decide; split; simpl; auto using ParseInt_ok, ParseSize_ok.
Qed.

Lemma config_line_range cfg line :
  config_range cfg → config_range (config_line Endpoint_parse cfg line).2.
Proof.
  intros Hc. unfold config_line. destruct (Trim line); [done|]. case_decide; [done|].
  destruct (fst <$> _); [by apply Apply_range|done].
Qed.

Lemma config_lines_range cfg ls :
  config_range cfg → config_range (config_lines Endpoint_parse cfg ls).2.
Proof.
  revert cfg. induction ls as [|line ls IH]; intros cfg Hc; simpl; [done|].
  pose proof (config_line_range cfg line Hc). destruct (config_line Endpoint_parse cfg line) as [[] out].
  - by apply IH.
  - done.
Qed.

Lemma LoadConfigFile_range cfg path :
  config_range cfg → config_range (LoadConfigFile Endpoint_parse files path cfg).2.
Proof. unfold LoadConfigFile. destruct (files path); [apply config_lines_range|done]. Qed.

Lemma into_workers_range cfg r :
  config_range cfg → int_ok r.2 → config_range (into set_workers cfg r).2.
Proof. intros [] ?. by split. Qed.
Lemma into_conns_range cfg r :
  config_range cfg → int_ok r.2 → config_range (into set_backend_conns cfg r).2.
Proof. intros [] ?. by split. Qed.
Lemma into_listen_range cfg r : config_range cfg → config_range (into set_listen cfg r).2.
Proof. intros []. by split. Qed.
Lemma into_redis_range cfg r : config_range cfg → config_range (into set_redis cfg r).2.
Proof. intros []. by split. Qed.

Lemma apply_args_range n cfg args cfg' :
  length args ≤ n → config_range cfg →
  apply_args Endpoint_parse files cfg args = Some cfg' → config_range cfg'.
Proof.
  revert cfg args. induction n as [|n IH]; intros cfg args Hn Hc.
  { destruct args; [|simpl in Hn; lia]. by intros [= <-]. }
  destruct args as [|arg args]; [by intros [= <-]|]. simpl.
  assert (∀ (f : bytes → bool * Config Endpoint), (∀ v, config_range (f v).2) →
    match args with
    | value :: args => cfg ← (if (f value).1 then Some (f value).2 else None);
                       apply_args Endpoint_parse files cfg args
    | [] => None
    end = Some cfg' → config_range cfg') as Hstep.
  { intros f Hf. destruct args as [|v rest]; [done|]. destruct (f v).1; simpl; [|done].
    apply IH; [simpl in Hn; lia|apply Hf]. }
  repeat case_decide; [..|done].
  - apply (Hstep (λ v, LoadConfigFile Endpoint_parse files v cfg)). intros v.
    by apply LoadConfigFile_range.
  - apply (Hstep (λ v, into set_listen cfg (Endpoint_parse v (listen cfg)))). intros v.
    by apply into_listen_range.
  - apply (Hstep (λ v, into set_redis cfg (Endpoint_parse v (redis cfg)))). intros v.
    by apply into_redis_range.
  - apply (Hstep (λ v, into set_workers cfg (ParseInt v (workers cfg)))). intros v.
    apply into_workers_range; [done|]. apply ParseInt_ok, Hc.
  - apply (Hstep (λ v, into set_backend_conns cfg (ParseInt v (backend_conns_per_worker cfg)))).
    intros v. apply into_conns_range; [done|]. apply ParseInt_ok, Hc.
Qed.

(** What [ValidateConfig] accepts. *)
Definition config_valid cfg : Prop :=
  (0 < workers cfg)%Z ∧ (1 <= backend_conns_per_worker cfg <= 4)%Z ∧
  max_request_bytes cfg ≠ 0%Z ∧ max_bulk_bytes cfg ≠ 0%Z ∧ max_array_elements cfg ≠ 0%Z ∧
  max_pipeline_commands_per_read cfg ≠ 0%Z.

Lemma ValidateConfig_true cfg : (ValidateConfig cfg).1 = true ↔ config_valid cfg.
Proof. unfold ValidateConfig, config_valid. repeat case_decide; simpl; naive_solver lia. Qed.

(** What every loaded configuration satisfies. *)
Definition config_bounded cfg : Prop :=
  (1 <= workers cfg <= 1000000)%Z ∧ (1 <= backend_conns_per_worker cfg <= 4)%Z ∧
  Forall (λ z, 1 <= z < 2 ^ 64)%Z [max_request_bytes cfg; max_bulk_bytes cfg;
    max_array_elements cfg; max_pipeline_commands_per_read cfg] ∧
  Forall (λ z, 0 <= z <= 1000000)%Z [connect_timeout_ms cfg; read_timeout_ms cfg;
    write_timeout_ms cfg].

Lemma load_bounded argv out cfg :
  LoadConfigFromArgs Endpoint_parse files mk argv out = (true, cfg) → config_bounded cfg.
Proof.
  unfold LoadConfigFromArgs. destruct (apply_args _ _ _ _) as [c|] eqn:Ha; [|done].
  destruct (ValidateConfig c).1 eqn:Hv; intros [= <-].
  apply ValidateConfig_true in Hv as (? & ? & ? & ? & ? & ?).
  eapply apply_args_range in Ha as []; [|done|apply config_range_default].
  unfold int_ok, size_ok, int_limit, ullong_max in *.
  split_and!; [lia..| |]; repeat constructor; lia.
Qed.

(** C36: A configuration the command line produces is usable: between 1 and
    1000000 workers, 1 to 4 connections per worker, positive limits that fit 64
    bits and timeouts between 0 and 1000000 ms; and when loading fails the
    caller's configuration is not touched, whatever the arguments and files. *)
Theorem config_from_args_bounds argv out cfg b :
  LoadConfigFromArgs Endpoint_parse files mk argv out = (b, cfg) →
  if b then config_bounded cfg else cfg = out.
Proof.
  destruct b; [apply load_bounded|]. unfold LoadConfigFromArgs.
  destruct (apply_args _ _ _ _) as [c|]; [destruct (ValidateConfig c).1|]; by intros [=].
Qed.
End bounds.

(** ** Sample endpoints

    A host name, a colon and a decimal port, neither of them empty or zero. *)
Definition demo_endpoint_text (e : bytes * Z) : bytes := e.1 ++ ":"%char :: decimal e.2.

Definition demo_endpoint_parse (text : bytes) (out : bytes * Z) : bool * (bytes * Z) :=
  match span (λ c, bool_decide (c ≠ ":"%char)) text with
  | (host, _ :: port) =>
      let '(ok, p) := ParseSize port 0 in
      if decide (host ≠ [] ∧ ok = true ∧ (0 < p < 65536)%Z) then (true, (host, p)) else (false, out)
  | (_, []) => (false, out)
  end.

Definition demo_files (path : bytes) : option bytes :=
  if decide (path = str "proxy.conf") then
    Some (str "# sample" ++ [ch 10] ++ str " workers = 3 " ++ [ch 10] ++ str "redis=db:7000")
  else None.

Definition demo_argv : list bytes :=
  [str "redis_proxy"; str "--config"; str "proxy.conf"; str "--backend-conns"; str "2"].

Definition demo_config : Config (bytes * Z) :=
  mkConfig (str "127.0.0.1", 6379%Z) (str "db", 7000%Z) 3 2 (512 * 1024 * 1024) (512 * 1024 * 1024)
    (1024 * 1024) (1024 * 1024) 5000 30000 30000.

Lemma config_from_args_bounds_witness :
  LoadConfigFromArgs demo_endpoint_parse demo_files (λ s p, (str s, p)) demo_argv demo_config =
    (true, demo_config) ∧ config_bounded demo_config.
Proof.
  split; [vm_compute; reflexivity|].
  apply (config_from_args_bounds demo_endpoint_parse demo_files (λ s p, (str s, p)) demo_argv
           demo_config demo_config true).
  vm_compute. reflexivity.
Defined.

(** ** What the number parsers accept *)

Lemma convert_whole f s n :
  convert_number f s = (n, []) ↔
  (s = [] ∧ n = 0%Z) ∨ (∃ neg ds, number_text s neg ds ∧ n = f neg (decimal_value ds)).
Proof.
  unfold convert_number. split.
  - destruct (scan_number s) as [[[neg v] rest]|] eqn:Hs; intros [= <- ->]; [|by left].
    right. apply scan_number_text in Hs as (ds & Hn & ->). by exists neg, ds.
  - intros [[-> ->]|(neg & ds & Hn & ->)]; [done|].
    by rewrite (proj2 (scan_number_text s neg (decimal_value ds))) by eauto.
Qed.

(** [ParseSize] accepts exactly the empty text, read as 0, and the texts made
    of blanks, an optional sign and decimal digits; it saturates at 2^64 - 1 and
    a number with a minus sign is taken modulo 2^64.  On any other text it fails
    and leaves its output alone. *)
Lemma ParseSize_grammar value out n :
  (ParseSize value out = (true, n) ↔
   (c_str value = [] ∧ n = 0%Z) ∨
   (∃ neg ds, number_text (c_str value) neg ds ∧
      n = if decide (ullong_max < decimal_value ds)%Z then ullong_max
          else if neg then u64 (- decimal_value ds) else decimal_value ds)) ∧
  ((ParseSize value out).1 = false → (ParseSize value out).2 = out).
Proof.
  rewrite <-(convert_whole to_ullong (c_str value) n). fold (strtoull (c_str value)).
  unfold ParseSize. destruct (strtoull (c_str value)) as [p r].
  case_decide as Hr; [naive_solver|]. assert (r = []) as -> by (by destruct r). naive_solver.
Qed.

(** [ParseInt] accepts exactly the empty text, read as 0, and the texts made
    of blanks, an optional sign and decimal digits whose value lies between 0 and
    1000000; it returns that value. *)
Lemma ParseInt_grammar value out n :
  (ParseInt value out = (true, n) ↔
   (0 <= n <= 1000000)%Z ∧
   ((c_str value = [] ∧ n = 0%Z) ∨
    (∃ neg ds, number_text (c_str value) neg ds ∧
       n = if neg then (- decimal_value ds)%Z else decimal_value ds))) ∧
  ((ParseInt value out).1 = false → (ParseInt value out).2 = out).
Proof.
  assert ((0 <= n <= 1000000)%Z ∧
   ((c_str value = [] ∧ n = 0%Z) ∨
    (∃ neg ds, number_text (c_str value) neg ds ∧
       n = if neg then (- decimal_value ds)%Z else decimal_value ds)) ↔
   (0 <= n <= 1000000)%Z ∧ strtol (c_str value) = (n, [])) as ->.
  { unfold strtol. rewrite convert_whole. unfold to_long, long_max, long_min.
    split; intros [Hr [?|(neg & ds & Hn & ->)]]; (split; [lia|]); [by left|right|by left|right];
      exists neg, ds; (split; [done|]); repeat case_decide; lia. }
  unfold ParseInt, int_limit. destruct (strtol (c_str value)) as [p r].
  case_decide as Hr; simpl; [naive_solver lia|].
  assert (r = []) as -> by (destruct r; [done|]; exfalso; apply Hr; by left). naive_solver lia.
Qed.

(** C38: Exactly which texts the two number parsers accept, and with which value.
    Both take the empty text as 0 and otherwise blanks, an optional sign and decimal
    digits.  [ParseSize] saturates at 2^64 - 1 and takes a number with a minus sign
    modulo 2^64; [ParseInt] accepts values from 0 to 1000000.  On any other text
    they fail and leave their output alone. *)
Theorem number_grammar value out n :
  (ParseSize value out = (true, n) ↔
   (c_str value = [] ∧ n = 0%Z) ∨
   (∃ neg ds, number_text (c_str value) neg ds ∧
      n = if decide (ullong_max < decimal_value ds)%Z then ullong_max
          else if neg then u64 (- decimal_value ds) else decimal_value ds)) ∧
  (ParseInt value out = (true, n) ↔
   (0 <= n <= 1000000)%Z ∧
   ((c_str value = [] ∧ n = 0%Z) ∨
    (∃ neg ds, number_text (c_str value) neg ds ∧
       n = if neg then (- decimal_value ds)%Z else decimal_value ds))) ∧
  ((ParseSize value out).1 = false → (ParseSize value out).2 = out) ∧
  ((ParseInt value out).1 = false → (ParseInt value out).2 = out).
Proof.
  destruct (ParseSize_grammar value out n) as [HS HS'], (ParseInt_grammar value out n) as [HI HI'].
  by split_and!.
Qed.

(** ** Reading back a configuration file *)

Definition blanks (p : bytes) : Prop := Forall (λ c, blank c = true) p.
Definition plain (s : bytes) : Prop := Forall (λ c, blank c = false) s.

Lemma find_first_pad p c r : blanks p → blank c = false → find_first_not_of (p ++ c :: r) = Some (length p).
Proof.
  intros Hp Hc. unfold find_first_not_of. induction Hp as [|b p Hb Hp IH]; simpl; [by rewrite decide_True|].
  rewrite decide_False by congruence. destruct (list_find _ (p ++ c :: r)) as [[]|]; simplify_eq/=. done.
Qed.

Lemma Trim_blanks p : blanks p → Trim p = [].
Proof.
  intros Hp. unfold Trim, find_first_not_of. rewrite (proj2 (list_find_None _ p)); [done|].
  eapply Forall_impl; [exact Hp|]. simpl. congruence.
Qed.

(** The first character that is not blank is the first one left. *)
Lemma Trim_head p c r : blanks p → blank c = false → ∃ r', Trim (p ++ c :: r) = c :: r'.
Proof.
  intros Hp Hc. unfold Trim, find_last_not_of. rewrite find_first_pad by done.
  destruct (list_find_elem_of (λ c, blank c = false) (reverse (p ++ c :: r)) c) as [[i d] Hi]; [|done|].
  { apply elem_of_reverse, elem_of_app. right. left. }
  unfold find_first_not_of. rewrite Hi. simpl. rewrite drop_app_length, Nat.add_1_r. by eexists.
Qed.

(** Blanks around a text that starts and ends otherwise. *)
Lemma Trim_pad p s q :
  blanks p → blanks q → s ≠ [] →
  (∀ c, head s = Some c → blank c = false) → (∀ c, last s = Some c → blank c = false) →
  Trim (p ++ s ++ q) = s.
Proof.
  intros Hp Hq Hne Hhd Hlast. destruct s as [|c r]; [done|].
  destruct (last (c :: r)) as [d|] eqn:Hd; [|by apply last_None in Hd].
  unfold Trim, find_last_not_of.
  assert (find_first_not_of (p ++ (c :: r) ++ q) = Some (length p)) as ->
    by (apply (find_first_pad p c (r ++ q)); auto).
  assert (find_first_not_of (reverse (p ++ (c :: r) ++ q)) = Some (length q)) as ->.
  { rewrite !reverse_app. pose proof Hd as [l ->]%last_Some.
    rewrite reverse_app, <-!(assoc_L (++)). simpl.
    rewrite find_first_pad; [by rewrite length_reverse|by apply Forall_reverse|auto]. }
  simpl. rewrite drop_app_length, !length_app. simpl. rewrite !length_app.
  replace (length p + S (length r + length q) - 1 - length q - length p + 1) with (length (c :: r)) by (simpl; lia).
  apply (take_app_length (c :: r)).
Qed.

Lemma plain_ends s : plain s → (∀ c, head s = Some c → blank c = false) ∧ (∀ c, last s = Some c → blank c = false).
Proof.
  intros Hs. split; intros c Hc; apply (proj1 (list.Forall_forall _ _) Hs).
  - destruct s; simplify_eq/=. left.
  - by apply last_Some_elem_of.
Qed.

Lemma getlines_app l rest : Forall (λ c, c ≠ ch 10) l → getlines (l ++ ch 10 :: rest) = l :: getlines rest.
Proof.
  induction 1 as [|c l Hc Hl IH]; [done|]. cbn [getlines app].
  by rewrite decide_False, IH by done.
Qed.

(** A newline at the end of the file adds an empty line or nothing. *)
Lemma getlines_newline s : getlines (s ++ [ch 10]) = getlines s ∨ getlines (s ++ [ch 10]) = getlines s ++ [[]].
Proof.
  induction s as [|c s IH]; [by right|]. cbn [getlines app].
  case_decide; destruct IH as [-> | ->]; auto. destruct (getlines s); auto.
Qed.

Lemma list_find_first {A} (P : A → Prop) `{∀ x, Decision (P x)} k x v :
  Forall (λ c, ¬ P c) k → P x → fst <$> list_find P (k ++ x :: v) = Some (length k).
Proof.
  intros Hk Hx. induction Hk as [|c k Hc Hk IH]; simpl; [by rewrite decide_True|].
  rewrite decide_False by done. destruct (list_find P (k ++ x :: v)) as [[i y]|]; simplify_eq/=. done.
Qed.

Section roundtrip.
Context {Endpoint : Type} (Endpoint_parse : bytes → Endpoint → bool * Endpoint).
Context (files : bytes → option bytes).
(** A way to write endpoints down. *)
Context (Endpoint_text : Endpoint → bytes).
Implicit Types (cfg : Config Endpoint).

(** A setting of the file: the field and its value. *)
Inductive Setting :=
  | SetListen (e : Endpoint)
  | SetRedis (e : Endpoint)
  | SetWorkers (z : Z)
  | SetBackendConns (z : Z)
  | SetMaxRequest (z : Z)
  | SetMaxBulk (z : Z)
  | SetMaxArray (z : Z)
  | SetMaxPipeline (z : Z)
  | SetConnectTimeout (z : Z)
  | SetReadTimeout (z : Z)
  | SetWriteTimeout (z : Z).

Definition setting_key (s : Setting) : bytes :=
  str match s with
  | SetListen _ => "listen"
  | SetRedis _ => "redis"
  | SetWorkers _ => "workers"
  | SetBackendConns _ => "backend_conns_per_worker"
  | SetMaxRequest _ => "max_request_bytes"
  | SetMaxBulk _ => "max_bulk_bytes"
  | SetMaxArray _ => "max_array_elements"
  | SetMaxPipeline _ => "max_pipeline_commands_per_read"
  | SetConnectTimeout _ => "connect_timeout_ms"
  | SetReadTimeout _ => "read_timeout_ms"
  | SetWriteTimeout _ => "write_timeout_ms"
  end.

Definition setting_value (s : Setting) : bytes :=
  match s with
  | SetListen e | SetRedis e => Endpoint_text e
  | SetWorkers z | SetBackendConns z | SetMaxRequest z | SetMaxBulk z | SetMaxArray z
  | SetMaxPipeline z | SetConnectTimeout z | SetReadTimeout z | SetWriteTimeout z => decimal z
  end.

(** Values that can be written down: an endpoint whose text has no blanks and is
    understood by [Endpoint::parse], a number its parser admits. *)
Definition setting_ok (s : Setting) : Prop :=
  match s with
  | SetListen e | SetRedis e =>
      Endpoint_text e ≠ [] ∧ plain (Endpoint_text e) ∧ ∀ e0, Endpoint_parse (Endpoint_text e) e0 = (true, e)
  | SetMaxRequest z | SetMaxBulk z | SetMaxArray z | SetMaxPipeline z => size_ok z
  | SetWorkers z | SetBackendConns z | SetConnectTimeout z | SetReadTimeout z | SetWriteTimeout z => int_ok z
  end.

(** What a setting does to a configuration. *)
Definition setting_do cfg (s : Setting) : Config Endpoint :=
  match s with
  | SetListen e => set_listen e cfg
  | SetRedis e => set_redis e cfg
  | SetWorkers z => set_workers z cfg
  | SetBackendConns z => set_backend_conns z cfg
  | SetMaxRequest z => set_max_request z cfg
  | SetMaxBulk z => set_max_bulk z cfg
  | SetMaxArray z => set_max_array z cfg
  | SetMaxPipeline z => set_max_pipeline z cfg
  | SetConnectTimeout z => set_connect_timeout z cfg
  | SetReadTimeout z => set_read_timeout z cfg
  | SetWriteTimeout z => set_write_timeout z cfg
  end.

(** The configuration has this value in this field. *)
Definition setting_holds cfg (s : Setting) : Prop :=
  match s with
  | SetListen e => listen cfg = e
  | SetRedis e => redis cfg = e
  | SetWorkers z => workers cfg = z
  | SetBackendConns z => backend_conns_per_worker cfg = z
  | SetMaxRequest z => max_request_bytes cfg = z
  | SetMaxBulk z => max_bulk_bytes cfg = z
  | SetMaxArray z => max_array_elements cfg = z
  | SetMaxPipeline z => max_pipeline_commands_per_read cfg = z
  | SetConnectTimeout z => connect_timeout_ms cfg = z
  | SetReadTimeout z => read_timeout_ms cfg = z
  | SetWriteTimeout z => write_timeout_ms cfg = z
  end.

(** A line of the file: blanks, a comment, or a setting with blanks before and
    after its key and its value. *)
Inductive Line :=
  | LnBlank (p : bytes)
  | LnComment (p text : bytes)
  | LnSetting (p1 p2 p3 p4 : bytes) (s : Setting).

Definition line_text (l : Line) : bytes :=
  match l with
  | LnBlank p => p
  | LnComment p text => p ++ "#"%char :: text
  | LnSetting p1 p2 p3 p4 s => p1 ++ (setting_key s ++ p2 ++ "="%char :: p3 ++ setting_value s) ++ p4
  end.

Definition one_line (s : bytes) : Prop := Forall (λ c, c ≠ ch 10) s.
Definition pad (p : bytes) : Prop := blanks p ∧ one_line p.

Definition line_ok (l : Line) : Prop :=
  match l with
  | LnBlank p => pad p
  | LnComment p text => pad p ∧ one_line text
  | LnSetting p1 p2 p3 p4 s => pad p1 ∧ pad p2 ∧ pad p3 ∧ pad p4 ∧ setting_ok s
  end.

Definition line_settings (l : Line) : list Setting := match l with LnSetting _ _ _ _ s => [s] | _ => [] end.

Definition file_text (ls : list Line) : bytes := ls ≫= λ l, line_text l ++ [ch 10].

Definition key_ok (k : bytes) : Prop :=
  plain k ∧ Forall (λ c, c ≠ "="%char) k ∧ match k with c :: _ => c ≠ "#"%char | [] => False end.

Lemma setting_key_ok s : key_ok (setting_key s).
Proof.
  destruct s; (split_and!; [repeat constructor|repeat (constructor; [done|]); constructor|done]).
Qed.

Lemma plain_one_line s : plain s → one_line s.
Proof. intros Hs. eapply Forall_impl; [exact Hs|]. intros c Hc ->. vm_compute in Hc. done. Qed.

Lemma blanks_no_equals p : blanks p → Forall (λ c, c ≠ "="%char) p.
Proof. intros Hp. eapply Forall_impl; [exact Hp|]. intros c Hc ->. vm_compute in Hc. done. Qed.

Lemma plain_decimal z : size_ok z → plain (decimal z) ∧ decimal z ≠ [].
Proof.
  intros (Hne & Hd & _)%decimal_spec. split; [|done]. apply list.Forall_forall. intros c Hc%list_elem_of_In.
  eapply List.forallb_forall in Hd; [|done]. unfold isdigit in Hd. apply bool_decide_eq_true in Hd.
  apply bool_decide_eq_false. intros [->|[->|[->| ->]]]; vm_compute in Hd; lia.
Qed.

Lemma int_size_ok z : int_ok z → size_ok z.
Proof. unfold int_ok, size_ok, int_limit, ullong_max. lia. Qed.

Lemma setting_value_ok s : setting_ok s → plain (setting_value s) ∧ setting_value s ≠ [].
Proof. destruct s; simpl; try (by intros (? & ? & _)); intros; apply plain_decimal; auto using int_size_ok. Qed.

Lemma ParseInt_decimal z out : int_ok z → ParseInt (decimal z) out = (true, z).
Proof.
  intros Hz. destruct (decimal_spec z (int_size_ok z Hz)) as (Hne & Hd & Hv).
  rewrite ParseInt_digits; rewrite ?Hv; try done. apply Hz.
Qed.

Lemma ParseSize_decimal z out : size_ok z → ParseSize (decimal z) out = (true, z).
Proof.
  intros Hz. destruct (decimal_spec z Hz) as (Hne & Hd & Hv).
  rewrite ParseSize_digits; rewrite ?Hv; try done. apply Hz.
Qed.

Lemma Apply_setting cfg s :
  setting_ok s → Apply Endpoint_parse cfg (setting_key s) (setting_value s) = (true, setting_do cfg s).
Proof.
  destruct s; simpl; try intros (_ & _ & Hp); try intros Hz;
    (etransitivity; [unfold Apply; repeat (rewrite decide_False by done); by rewrite decide_True by done|]);
    unfold into; rewrite ?Hp; rewrite ?ParseInt_decimal, ?ParseSize_decimal by done; done.
Qed.

Lemma config_line_entry cfg p1 k p2 p3 v p4 :
  blanks p1 → blanks p2 → blanks p3 → blanks p4 → key_ok k → plain v → v ≠ [] →
  config_line Endpoint_parse cfg (p1 ++ (k ++ p2 ++ "="%char :: p3 ++ v) ++ p4) = Apply Endpoint_parse cfg k v.
Proof.
  intros Hp1 Hp2 Hp3 Hp4 (Hk & Heq & Hhd) Hv Hne. unfold config_line.
  destruct (plain_ends k Hk) as [Hk1 Hk2], (plain_ends v Hv) as [Hv1 Hv2].
  assert (k ≠ []) as Hkne by (by destruct k). rewrite Trim_pad; [|done..|by destruct k| |].
  - rewrite (assoc_L (++) k p2), list_find_first; [|apply Forall_app; auto using blanks_no_equals|done].
    rewrite take_app_length, Nat.add_1_r, drop_app_ge by lia.
    replace (S (length (k ++ p2)) - length (k ++ p2)) with 1 by lia. cbn [drop].
    pose proof (Trim_pad [] k p2 ltac:(constructor) Hp2 Hkne Hk1 Hk2) as Hkey. cbn [app] in Hkey. rewrite Hkey.
    pose proof (Trim_pad p3 v [] Hp3 ltac:(constructor) Hne Hv1 Hv2) as Hval.
    rewrite app_nil_r in Hval. rewrite drop_0, Hval.
    destruct k as [|c k]; [done|]. simpl. by rewrite decide_False.
  - intros c Hc. apply Hk1. by destruct k.
  - intros c. rewrite last_app, last_app, last_cons, last_app.
    destruct (last v) as [d|] eqn:Hd; [by intros [= <-]; apply Hv2|by apply last_None in Hd].
Qed.

Lemma config_line_ok cfg l :
  line_ok l → config_line Endpoint_parse cfg (line_text l) = (true, foldl setting_do cfg (line_settings l)).
Proof.
  destruct l as [p|p t|p1 p2 p3 p4 s]; simpl.
  - intros [Hp _]. unfold config_line. by rewrite Trim_blanks.
  - intros [[Hp _] _]. unfold config_line. by destruct (Trim_head p "#"%char t Hp eq_refl) as [r ->].
  - intros ([H1 _] & [H2 _] & [H3 _] & [H4 _] & Hs). destruct (setting_value_ok s Hs).
    rewrite config_line_entry by eauto using setting_key_ok. by apply Apply_setting.
Qed.

Lemma line_text_one_line l : line_ok l → one_line (line_text l).
Proof.
  assert ("#"%char ≠ ch 10 ∧ "="%char ≠ ch 10) as [Hh He] by done.
  destruct l as [p|p t|p1 p2 p3 p4 s]; simpl; [by intros []| |].
  - intros [[_ Hp] Ht]. apply Forall_app. split; [done|by constructor].
  - intros ([_ H1] & [_ H2] & [_ H3] & [_ H4] & [Hv _]%setting_value_ok).
    destruct (setting_key_ok s) as [Hk _].
    unfold one_line. rewrite !Forall_app, Forall_cons, Forall_app. split_and!; first [done|by apply plain_one_line].
Qed.

Lemma config_lines_file cfg ls :
  Forall line_ok ls →
  let out := foldl setting_do cfg (ls ≫= line_settings) in
  config_lines Endpoint_parse cfg (getlines (file_text ls)) = ((ValidateConfig out).1, out).
Proof.
  intros Hls. revert cfg. induction Hls as [|l ls Hl Hls IH]; intros cfg; [done|]. unfold file_text. csimpl.
  rewrite <-(assoc_L (++)). cbn [app]. rewrite getlines_app by (by apply line_text_one_line).
  cbn [config_lines]. rewrite config_line_ok by done. rewrite foldl_app. apply IH.
Qed.

(** An empty line at the end changes nothing. *)
Lemma config_lines_empty cfg ls :
  config_lines Endpoint_parse cfg (ls ++ [[]]) = config_lines Endpoint_parse cfg ls.
Proof.
  revert cfg. induction ls as [|l ls IH]; intros cfg; [done|]. cbn [app config_lines].
  destruct (config_line Endpoint_parse cfg l) as [[] c]; [apply IH|done].
Qed.

Lemma setting_do_holds cfg s : setting_holds (setting_do cfg s) s.
Proof. by destruct s. Qed.

Lemma setting_do_keeps cfg cfg' s t :
  setting_holds cfg s → setting_holds cfg t → setting_holds cfg' t → setting_holds (setting_do cfg' s) t.
Proof. destruct s, t; simpl; congruence. Qed.

Lemma settings_hold cfg cfg' ss t :
  (∀ s, s ∈ ss → setting_holds cfg s) → setting_holds cfg t → setting_holds cfg' t ∨ t ∈ ss →
  setting_holds (foldl setting_do cfg' ss) t.
Proof.
  intros Hss Ht. revert cfg'. induction ss as [|s ss IH]; intros cfg' Hor; simpl.
  { destruct Hor as [?|Hin]; [done|]. by apply not_elem_of_nil in Hin. }
  assert (setting_holds cfg s) as Hs by (apply Hss; left).
  apply IH; [intros u Hu; apply Hss; by right|].
  destruct Hor as [Hh|[->|Hin]%elem_of_cons]; [left|left|by right].
  - by eapply setting_do_keeps.
  - apply setting_do_holds.
Qed.

(** Settings that are those of a configuration make it. *)
Lemma settings_make cfg cfg0 ss :
  (∀ s, s ∈ ss ↔ setting_holds cfg s) → foldl setting_do cfg0 ss = cfg.
Proof.
  intros Hss. assert (∀ t, setting_holds cfg t → setting_holds (foldl setting_do cfg0 ss) t) as Hall.
  { intros t Ht. eapply settings_hold; [intros s; apply Hss|done|right; by apply Hss]. }
  destruct cfg as [f1 f2 f3 f4 f5 f6 f7 f8 f9 f10 f11], (foldl setting_do cfg0 ss); f_equal.
  - apply (Hall (SetListen f1)); done.
  - apply (Hall (SetRedis f2)); done.
  - apply (Hall (SetWorkers f3)); done.
  - apply (Hall (SetBackendConns f4)); done.
  - apply (Hall (SetMaxRequest f5)); done.
  - apply (Hall (SetMaxBulk f6)); done.
  - apply (Hall (SetMaxArray f7)); done.
  - apply (Hall (SetMaxPipeline f8)); done.
  - apply (Hall (SetConnectTimeout f9)); done.
  - apply (Hall (SetReadTimeout f10)); done.
  - apply (Hall (SetWriteTimeout f11)); done.
Qed.

(** The settings of a configuration, one for each field. *)
Definition every_setting cfg : list Setting :=
  [SetListen (listen cfg); SetRedis (redis cfg); SetWorkers (workers cfg);
   SetBackendConns (backend_conns_per_worker cfg); SetMaxRequest (max_request_bytes cfg);
   SetMaxBulk (max_bulk_bytes cfg); SetMaxArray (max_array_elements cfg);
   SetMaxPipeline (max_pipeline_commands_per_read cfg); SetConnectTimeout (connect_timeout_ms cfg);
   SetReadTimeout (read_timeout_ms cfg); SetWriteTimeout (write_timeout_ms cfg)].

Lemma every_setting_spec cfg s : s ∈ every_setting cfg ↔ setting_holds cfg s.
Proof.
  clear Endpoint_parse files Endpoint_text. unfold every_setting. rewrite !elem_of_cons, elem_of_nil.
  destruct s; simpl; naive_solver.
Qed.

(** C37: A configuration file made of settings in any order, with blanks around the
    keys and the values, between comments and blank lines, with or without a newline
    after the last line, is read as its settings say: the configuration becomes the
    one before with the settings done in order, a later one overriding an earlier
    one, and the file is accepted exactly when [ValidateConfig] accepts the result.
    If the settings are those of a valid configuration, each field at least once,
    that configuration is read back.  Numbers are in decimal and within the range of
    their parser; an endpoint in the file has a text without blanks that
    [Endpoint::parse] reads as that endpoint. *)
Theorem config_file_roundtrip path text ls cfg0 :
  Forall line_ok ls → text = file_text ls ∨ text ++ [ch 10] = file_text ls →
  files path = Some text →
  (let out := foldl setting_do cfg0 (ls ≫= line_settings) in
   LoadConfigFile Endpoint_parse files path cfg0 = ((ValidateConfig out).1, out)) ∧
  (∀ cfg, config_valid cfg → (∀ s, s ∈ (ls ≫= line_settings) ↔ setting_holds cfg s) →
   LoadConfigFile Endpoint_parse files path cfg0 = (true, cfg)).
Proof.
  intros Hls Htext Hfile.
  assert (let out := foldl setting_do cfg0 (ls ≫= line_settings) in
    LoadConfigFile Endpoint_parse files path cfg0 = ((ValidateConfig out).1, out)) as Hload.
  { unfold LoadConfigFile. rewrite Hfile. cbn zeta. rewrite <-(config_lines_file cfg0 ls Hls).
    destruct Htext as [->|<-]; [done|].
    destruct (getlines_newline text) as [-> | ->]; by rewrite ?config_lines_empty. }
  split; [done|]. intros cfg Hvalid Hss. cbn zeta in Hload. rewrite (settings_make cfg) in Hload by done.
  by rewrite (proj2 (ValidateConfig_true cfg) Hvalid) in Hload.
Qed.
End roundtrip.
Arguments Setting : clear implicits.
Arguments Line : clear implicits.

(** The file of config_test.cpp, with a comment, a blank line and no newline at
    the end. *)
Definition sample_line (s : Setting (bytes * Z)) : Line (bytes * Z) :=
  LnSetting [] (str " ") (str " ") [] s.

Definition sample_lines : list (Line (bytes * Z)) :=
  [LnComment [] (str " redis_proxy");
   sample_line (SetListen (str "0.0.0.0", 6379%Z));
   sample_line (SetRedis (str "127.0.0.1", 6380%Z));
   LnBlank (str "  ");
   sample_line (SetWorkers 2);
   sample_line (SetBackendConns 3);
   sample_line (SetMaxRequest 4096);
   sample_line (SetMaxBulk 2048);
   sample_line (SetMaxArray 32);
   sample_line (SetMaxPipeline 16)].

Definition sample_text : bytes := removelast (file_text demo_endpoint_text sample_lines).

(** All fields of [demo_config]. *)
Definition sample_dump : list (Line (bytes * Z)) := sample_line <$> every_setting demo_config.

Lemma sample_lines_ok : Forall (line_ok demo_endpoint_parse demo_endpoint_text) (sample_lines ++ sample_dump).
Proof.
  repeat constructor; try (vm_compute; discriminate || done).
  all: intros e0; vm_compute; reflexivity.
Qed.

Lemma config_file_roundtrip_witness :
  LoadConfigFile demo_endpoint_parse (λ _, Some sample_text) (str "config_test.conf")
    (Config_default (λ s p, (str s, p))) =
  (true, mkConfig (str "0.0.0.0", 6379%Z) (str "127.0.0.1", 6380%Z) 2 3 4096 2048 32 16 5000 30000 30000) ∧
  LoadConfigFile demo_endpoint_parse (λ _, Some (file_text demo_endpoint_text sample_dump)) (str "dump.conf")
    (Config_default (λ s p, (str s, p))) = (true, demo_config).
Proof.
  pose proof (proj1 (Forall_app _ _ _) sample_lines_ok) as [Hl Hd]. split.
  - refine (proj1 (config_file_roundtrip demo_endpoint_parse (λ _, Some sample_text) demo_endpoint_text
      (str "config_test.conf") sample_text sample_lines _ Hl _ eq_refl)).
    right. vm_compute. reflexivity.
  - refine (proj2 (config_file_roundtrip demo_endpoint_parse _ demo_endpoint_text
      (str "dump.conf") _ sample_dump _ Hd (or_introl eq_refl) eq_refl) demo_config _ _).
    + vm_compute. split_and!; done.
    + apply every_setting_spec.
Defined.
