(* ===== verification/BackendChannel.v ===== *)
(** * BackendChannel: one connection to Redis, shared by many sessions
    (include/redis_proxy/backend_channel.h, src/backend_channel.cpp)

    The channel is a state machine.  Besides the members of the class its state
    has a program counter for each of its two coroutines, the one of [run] (which
    is also the writer) and the one of [readerLoop].  A step resumes one
    coroutine with the answer it waited for and runs it up to the next point
    where it may be suspended or where it has just called back into a session.
    Every step returns, in order, what the rest of the program can observe of it:
    system calls, callbacks and changes of the queues.  A [BufferChain] is its
    contents, as the refinement of [BufferWorld] allows. *)
From S2P Require Import Prelude Status RespParser CoSocket CoroutineSignal Config.

(** ** Data *)

(** [ReplySink*]: a session's number, or [nullptr]. *)
Abbreviation sink := (option nat).

Record RequestBatch := mkRequestBatch {
  rb_owner : sink;
  rb_bytes : bytes;
  rb_command_count : Z
}.

Record PendingBatch := mkPendingBatch {
  pb_owner : sink;
  pb_remaining_replies : Z
}.

Inductive ChannelState := kStopped | kConnecting | kReady | kClosing.

#[global] Instance ChannelState_eq_dec : EqDecision ChannelState.
Proof. solve_decision. Defined.

(** Where the coroutine of [run] is: not existing, at the head of the loop of
    [run], inside [connectTo], at the head of the loop of [writerLoop], in its
    [wait], in its [writeAll], in the [wait] for the reader, or sleeping. *)
Inductive RunPc :=
  | RunNone | RunTop | RunConnecting | RunWriterTop | RunWaitWork | RunWriting | RunWaitReader
  | RunSleep.

(** Where the reader is: not existing, at the head of the outer loop, inside
    [readSome], at the head of the inner loop, or past both loops. *)
Inductive ReaderPc := ReaderNone | ReaderTop | ReaderReading | ReaderParsing | ReaderEnd.

#[global] Instance RunPc_eq_dec : EqDecision RunPc.
Proof. solve_decision. Defined.
#[global] Instance ReaderPc_eq_dec : EqDecision ReaderPc.
Proof. solve_decision. Defined.

(** What happens to the channel's buffers besides the queues: bytes read into
    [redis_in_], a reply nobody asked for taken out of it, [redis_in_.clear()], and
    the end of a [writeAll], when the batch it wrote is released. *)
Inductive BufferEvent := BufIn (data : bytes) | BufExtra (data : bytes) | BufCleared | BufWritten.

Inductive Effect :=
  | EfSys (call : Syscall)
  | EfSubmitted (owner : sink) (data : bytes) (count : Z)
  | EfRejected (owner : sink) (count : Z)
  | EfDetached (owner : nat)
  | EfUp                                              (* the connection is ready *)
  | EfSent (owner : sink) (data : bytes) (count : Z)  (* [writeAll] of a batch begins *)
  | EfReply (owner : sink) (data : bytes)             (* [onBackendReply], if an owner is left *)
  | EfDown (st : Status) (owners : list nat)          (* [onBackendFailure] of each *)
  | EfBuf (e : BufferEvent).

(** The iteration order of [std::unordered_set] is not specified. *)
Class SetOrder := {
  set_order : list nat → list nat;
  set_order_perm l : set_order l ≡ₚ remove_dups l
}.

Section channel.
Context {C : Type} `{CoCond C} `{SetOrder}.
Context {Endpoint : Type}.

Record BackendChannel := mkBackendChannel {
  endpoint_ : Endpoint;
  socket_ : CoSocket;
  reply_parser_ : RespParser;
  redis_in_ : bytes;
  write_queue_ : list RequestBatch;
  pending_queue_ : list PendingBatch;
  writer_signal_ : CoroutineSignal C;
  state_ : ChannelState;
  stop_requested_ : bool;
  reader_done_ : bool;
  queued_commands_ : Z;
  run_pc : RunPc;
  reader_pc : ReaderPc
}.

(** *** Assignments to members *)
Definition set_socket (s : CoSocket) (ch : BackendChannel) : BackendChannel :=
  mkBackendChannel (endpoint_ ch) s (reply_parser_ ch) (redis_in_ ch) (write_queue_ ch)
    (pending_queue_ ch) (writer_signal_ ch) (state_ ch) (stop_requested_ ch) (reader_done_ ch)
    (queued_commands_ ch) (run_pc ch) (reader_pc ch).
Definition set_input (p : RespParser) (data : bytes) (ch : BackendChannel) : BackendChannel :=
  mkBackendChannel (endpoint_ ch) (socket_ ch) p data (write_queue_ ch)
    (pending_queue_ ch) (writer_signal_ ch) (state_ ch) (stop_requested_ ch) (reader_done_ ch)
    (queued_commands_ ch) (run_pc ch) (reader_pc ch).
Definition set_queues (wq : list RequestBatch) (pq : list PendingBatch) (n : Z)
    (ch : BackendChannel) : BackendChannel :=
  mkBackendChannel (endpoint_ ch) (socket_ ch) (reply_parser_ ch) (redis_in_ ch) wq
    pq (writer_signal_ ch) (state_ ch) (stop_requested_ ch) (reader_done_ ch)
    n (run_pc ch) (reader_pc ch).
Definition set_signal (s : CoroutineSignal C) (ch : BackendChannel) : BackendChannel :=
  mkBackendChannel (endpoint_ ch) (socket_ ch) (reply_parser_ ch) (redis_in_ ch) (write_queue_ ch)
    (pending_queue_ ch) s (state_ ch) (stop_requested_ ch) (reader_done_ ch)
    (queued_commands_ ch) (run_pc ch) (reader_pc ch).
Definition set_state (s : ChannelState) (ch : BackendChannel) : BackendChannel :=
  mkBackendChannel (endpoint_ ch) (socket_ ch) (reply_parser_ ch) (redis_in_ ch) (write_queue_ ch)
    (pending_queue_ ch) (writer_signal_ ch) s (stop_requested_ ch) (reader_done_ ch)
    (queued_commands_ ch) (run_pc ch) (reader_pc ch).
Definition set_stop (b : bool) (ch : BackendChannel) : BackendChannel :=
  mkBackendChannel (endpoint_ ch) (socket_ ch) (reply_parser_ ch) (redis_in_ ch) (write_queue_ ch)
    (pending_queue_ ch) (writer_signal_ ch) (state_ ch) b (reader_done_ ch)
    (queued_commands_ ch) (run_pc ch) (reader_pc ch).
Definition set_reader_done (b : bool) (ch : BackendChannel) : BackendChannel :=
  mkBackendChannel (endpoint_ ch) (socket_ ch) (reply_parser_ ch) (redis_in_ ch) (write_queue_ ch)
    (pending_queue_ ch) (writer_signal_ ch) (state_ ch) (stop_requested_ ch) b
    (queued_commands_ ch) (run_pc ch) (reader_pc ch).
Definition set_run (pc : RunPc) (ch : BackendChannel) : BackendChannel :=
  mkBackendChannel (endpoint_ ch) (socket_ ch) (reply_parser_ ch) (redis_in_ ch) (write_queue_ ch)
    (pending_queue_ ch) (writer_signal_ ch) (state_ ch) (stop_requested_ ch) (reader_done_ ch)
    (queued_commands_ ch) pc (reader_pc ch).
Definition set_reader (pc : ReaderPc) (ch : BackendChannel) : BackendChannel :=
  mkBackendChannel (endpoint_ ch) (socket_ ch) (reply_parser_ ch) (redis_in_ ch) (write_queue_ ch)
    (pending_queue_ ch) (writer_signal_ ch) (state_ ch) (stop_requested_ ch) (reader_done_ ch)
    (queued_commands_ ch) (run_pc ch) pc.

Definition notify_writer (ch : BackendChannel) : BackendChannel :=
  set_signal (notify (writer_signal_ ch)) ch.

Definition BackendChannel_new (endpoint : Endpoint) : BackendChannel :=
  mkBackendChannel endpoint (mkCoSocket (-1)) RespParser_new [] [] [] CoroutineSignal_new
    kStopped false true 0 RunNone ReaderNone.

(** *** Calls from sessions *)

Definition isHealthy (ch : BackendChannel) : bool := bool_decide (state_ ch = kReady).
Definition isStopped (ch : BackendChannel) : bool := bool_decide (state_ ch = kStopped).
Definition queuedCommandCount (ch : BackendChannel) : Z := queued_commands_ ch.

Definition BackendChannel_submit (owner : sink) (data : bytes) (command_count : Z)
    (ch : BackendChannel) : bool * BackendChannel * list Effect :=
  if decide (isHealthy ch = false ∨ command_count = 0%Z)
  then (false, ch, [EfRejected owner command_count])
  else
    let ch := set_queues (write_queue_ ch ++ [mkRequestBatch owner data command_count])
                (pending_queue_ ch) (u64 (queued_commands_ ch + command_count)) ch in
    (true, notify_writer ch, [EfSubmitted owner data command_count]).

(** The first loop of [detachOwner]: what stays in the queue, and the counter. *)
Fixpoint erase_owner (owner : nat) (wq : list RequestBatch) (queued : Z) :
    list RequestBatch * Z :=
  match wq with
  | [] => ([], queued)
  | b :: wq =>
      if decide (rb_owner b = Some owner)
      then erase_owner owner wq (u64 (queued - rb_command_count b))
      else let '(wq, queued) := erase_owner owner wq queued in (b :: wq, queued)
  end.

Definition blank_owner (owner : nat) (b : PendingBatch) : PendingBatch :=
  if decide (pb_owner b = Some owner) then mkPendingBatch None (pb_remaining_replies b) else b.

Definition BackendChannel_detachOwner (owner : nat) (ch : BackendChannel) :
    BackendChannel * list Effect :=
  let '(wq, queued) := erase_owner owner (write_queue_ ch) (queued_commands_ ch) in
  (set_queues wq (blank_owner owner <$> pending_queue_ ch) queued ch, [EfDetached owner]).

(** *** Failure and replies *)

Definition failConnection (st : Status) (ch : BackendChannel) : BackendChannel * list Effect :=
  if decide (state_ ch ≠ kReady) then (ch, []) else
  let owners := set_order (omap rb_owner (write_queue_ ch) ++ omap pb_owner (pending_queue_ ch)) in
  (set_queues [] [] 0 (notify_writer (set_state kClosing ch)),
   (EfSys <$> CoSocket_shutdown (socket_ ch)) ++ [EfDown st owners]).

Definition dispatchReply (reply : bytes) (ch : BackendChannel) : BackendChannel * list Effect :=
  match pending_queue_ ch with
  | [] =>
      prod_map id (cons (EfBuf (BufExtra reply)))
        (failConnection (Status_ProtocolError "unexpected redis reply") ch)
  | pending :: rest =>
      let remaining := u32 (pb_remaining_replies pending - 1) in
      let pq := if decide (remaining = 0%Z) then rest
                else mkPendingBatch (pb_owner pending) remaining :: rest in
      (set_queues (write_queue_ ch) pq (u64 (queued_commands_ ch - 1)) ch,
       [EfReply (pb_owner pending) reply])
  end.

(** *** Start and stop *)

Definition BackendChannel_start (config : Config Endpoint) (ch : BackendChannel) :
    BackendChannel :=
  if negb (isStopped ch) then ch else
  let p := RespParser_setLimits (max_bulk_bytes config) (max_array_elements config) 8 size_max
             (reply_parser_ ch) in
  set_run RunTop (set_state kConnecting (set_stop false (set_input p (redis_in_ ch) ch))).

(** The callbacks of [failConnection] do not touch the socket and the signal,
    so it does not matter that they are reported before the last two calls. *)
Definition BackendChannel_stop (ch : BackendChannel) : BackendChannel * list Effect :=
  let '(ch, effects) := failConnection (Status_Closed "backend stopped") (set_stop true ch) in
  (notify_writer ch, effects ++ (EfSys <$> CoSocket_shutdown (socket_ ch))).

(** *** The coroutine of [run] *)

(** The end of the loop body of [run]. *)
Definition run_close (ch : BackendChannel) : BackendChannel * list Effect :=
  let '(s, calls) := CoSocket_close (socket_ ch) in
  let ch := set_input (reply_parser_ ch) [] (set_socket s ch) in
  (set_run (if stop_requested_ ch then RunTop else RunSleep) ch,
   (EfSys <$> calls) ++ [EfBuf BufCleared]).

(** [connectOnce]: [fd] is what [CreateTcpClientSocket] returns.  The status, unless
    it is [connectTo] that has to find it out. *)
Definition connectOnce (fd : Z) (ch : BackendChannel) : option Status * BackendChannel * list Effect :=
  if decide (fd < 0)%Z then (Some (Status_IoError "socket failed"), ch, []) else
  let '(s, calls) := CoSocket_reset (socket_ ch) fd in
  (None, set_socket s ch, EfSys <$> calls).

(** [connectOnce] returns [st]. *)
Definition run_connected (st : Status) (ch : BackendChannel) : BackendChannel * list Effect :=
  if Status_ok st && negb (stop_requested_ ch) then
    (set_run RunWriterTop (set_reader ReaderTop (set_reader_done false (set_state kReady ch))),
     [EfUp])
  else run_close ch.

(** From the head of the loop. *)
Definition run_top (fd : Z) (ch : BackendChannel) : BackendChannel * list Effect :=
  if stop_requested_ ch then (set_run RunNone (set_state kStopped ch), []) else
  match connectOnce fd (set_state kConnecting ch) with
  | (Some st, ch, es) => prod_map id (app es) (run_connected st ch)
  | (None, ch, es) => (set_run RunConnecting ch, es)
  end.

(** [while (!reader_done_) writer_signal_.wait();].  A second round can only be
    needed once: the first [wait] uses up a pending notification. *)
Fixpoint run_wait_reader (fuel : nat) (ch : BackendChannel) :
    option (BackendChannel * list Effect) :=
  match fuel with
  | 0 => None
  | S fuel =>
      if reader_done_ ch then Some (run_close ch) else
      let '(returned, s) := wait (writer_signal_ ch) in
      if returned then run_wait_reader fuel (set_signal s ch)
      else Some (set_run RunWaitReader (set_signal s ch), [])
  end.

Fixpoint writerLoop (fuel : nat) (ch : BackendChannel) : option (BackendChannel * list Effect) :=
  match fuel with
  | 0 => None
  | S fuel =>
      if negb (isHealthy ch) then run_wait_reader 2 ch else
      match write_queue_ ch with
      | [] =>
          let '(returned, s) := wait (writer_signal_ ch) in
          if returned then writerLoop fuel (set_signal s ch)
          else Some (set_run RunWaitWork (set_signal s ch), [])
      | batch :: wq =>
          let pq := pending_queue_ ch ++
                    [mkPendingBatch (rb_owner batch) (rb_command_count batch)] in
          Some (set_run RunWriting (set_queues wq pq (queued_commands_ ch) ch),
                [EfSent (rb_owner batch) (rb_bytes batch) (rb_command_count batch)])
      end
  end.

(** [writeAll] returns [st]. *)
Definition run_written (st : Status) (ch : BackendChannel) : BackendChannel * list Effect :=
  let '(ch, effects) := if Status_ok st then (ch, []) else failConnection st ch in
  (set_run RunWriterTop ch, effects ++ [EfBuf BufWritten]).

(** *** The reader *)

Definition reader_top (ch : BackendChannel) : BackendChannel :=
  set_reader (if isHealthy ch then ReaderReading else ReaderEnd) ch.

(** [readSome] returns [st] after it has appended [data]. *)
Definition reader_read (st : Status) (data : bytes) (ch : BackendChannel) :
    BackendChannel * list Effect :=
  let ch := set_input (reply_parser_ ch) (redis_in_ ch ++ data) ch in
  if negb (isHealthy ch) then (set_reader ReaderEnd ch, [EfBuf (BufIn data)])
  else if Status_ok st then (set_reader ReaderParsing ch, [EfBuf (BufIn data)])
  else let '(ch, effects) := failConnection st ch in
       (set_reader ReaderEnd ch, EfBuf (BufIn data) :: effects).

Context (UnpackOne : bytes → nat → RespLimits → RespResult).

(** One round of the inner loop; [alloc] tells which allocations succeed. *)
Definition reader_parse (alloc : nat → bool) (ch : BackendChannel) :
    option (BackendChannel * list Effect) :=
  if negb (isHealthy ch) then Some (set_reader ReaderTop ch, []) else
  '(p, ps, consumed) ← next_bytes UnpackOne alloc (reply_parser_ ch) (redis_in_ ch);
  match ps, consumed with
  | pOk, Some n =>
      let reply := take n (redis_in_ ch) in
      Some (dispatchReply reply (set_input p (drop n (redis_in_ ch)) ch))
  | pNeedMore, _ => Some (set_reader ReaderTop (set_input p (redis_in_ ch) ch), [])
  | _, _ =>
      let '(ch, effects) := failConnection (Status_ProtocolError "bad redis reply")
                              (set_input p (redis_in_ ch) ch) in
      Some (set_reader ReaderTop ch, effects)
  end.

(** The lambda that runs [readerLoop], after it. *)
Definition reader_end (ch : BackendChannel) : BackendChannel :=
  set_reader ReaderNone (notify_writer (set_reader_done true ch)).

(** *** Steps *)

Inductive ChannelOp :=
  | OpSubmit (owner : sink) (data : bytes) (count : Z)
  | OpDetach (owner : nat)
  | OpStart (config : Config Endpoint)
  | OpStop
  | EvRun (fd : Z)                     (* [run] passes the head of its loop *)
  | EvConnected (st : Status)
  | EvWriter                           (* [writerLoop] passes its head *)
  | EvWake                             (* a [wait] returns *)
  | EvWritten (st : Status)
  | EvSlept
  | EvReader                           (* [readerLoop] passes its head *)
  | EvRead (st : Status) (data : bytes)
  | EvParse (alloc : nat → bool)
  | EvReaderEnd.

(** [None]: the coroutine is not at that point. *)
Definition channel_step (o : ChannelOp) (ch : BackendChannel) :
    option (BackendChannel * list Effect) :=
  match o with
  | OpSubmit owner data count =>
      let '(_, ch, effects) := BackendChannel_submit owner data count ch in Some (ch, effects)
  | OpDetach owner => Some (BackendChannel_detachOwner owner ch)
  | OpStart config => Some (BackendChannel_start config ch, [])
  | OpStop => Some (BackendChannel_stop ch)
  | EvRun fd => if decide (run_pc ch = RunTop) then Some (run_top fd ch) else None
  | EvConnected st =>
      if decide (run_pc ch = RunConnecting) then Some (run_connected st ch) else None
  | EvWriter => if decide (run_pc ch = RunWriterTop) then writerLoop 2 ch else None
  | EvWake =>
      if cond_runnable (cond_ (writer_signal_ ch)) then
        (* back at the head of the loop that contains the [wait] *)
        let ch' := set_run RunWriterTop (set_signal (wait_return (writer_signal_ ch)) ch) in
        match run_pc ch with
        | RunWaitWork => writerLoop 2 ch'
        | RunWaitReader => run_wait_reader 2 ch'
        | _ => None
        end
      else None
  | EvWritten st => if decide (run_pc ch = RunWriting) then Some (run_written st ch) else None
  | EvSlept => if decide (run_pc ch = RunSleep) then Some (set_run RunTop ch, []) else None
  | EvReader => if decide (reader_pc ch = ReaderTop) then Some (reader_top ch, []) else None
  | EvRead st data =>
      if decide (reader_pc ch = ReaderReading ∧ (Status_ok st = false → data = []))
      then Some (reader_read st data ch) else None
  | EvParse alloc => if decide (reader_pc ch = ReaderParsing) then reader_parse alloc ch else None
  | EvReaderEnd => if decide (reader_pc ch = ReaderEnd) then Some (reader_end ch, []) else None
  end.

(** The coroutine that takes the step is where the step begins, and the answer
    is one the socket can give. *)
Definition channel_enabled (o : ChannelOp) (ch : BackendChannel) : Prop :=
  match o with
  | OpSubmit _ _ _ | OpDetach _ | OpStart _ | OpStop => True
  | EvRun _ => run_pc ch = RunTop
  | EvConnected _ => run_pc ch = RunConnecting
  | EvWriter => run_pc ch = RunWriterTop
  | EvWake =>
      (run_pc ch = RunWaitWork ∨ run_pc ch = RunWaitReader) ∧
      cond_runnable (cond_ (writer_signal_ ch)) = true
  | EvWritten _ => run_pc ch = RunWriting
  | EvSlept => run_pc ch = RunSleep
  | EvReader => reader_pc ch = ReaderTop
  | EvRead st data => reader_pc ch = ReaderReading ∧ (Status_ok st = false → data = [])
  | EvParse _ => reader_pc ch = ReaderParsing
  | EvReaderEnd => reader_pc ch = ReaderEnd
  end.

Fixpoint channel_run (ops : list ChannelOp) (ch : BackendChannel) :
    option (BackendChannel * list Effect) :=
  match ops with
  | [] => Some (ch, [])
  | o :: ops =>
      '(ch, effects) ← channel_step o ch;
      '(ch, effects') ← channel_run ops ch;
      Some (ch, effects ++ effects')
  end.
End channel.
Arguments BackendChannel : clear implicits.
Arguments ChannelOp : clear implicits.
