(* ===== verification/ChannelInv.v ===== *)
(** * What a backend channel guarantees

    A reply queue is the specification of a channel: requests are taken in order,
    and replies are handed out in the order of the requests.  The invariant of the
    channel relates the counters, the program counters and the signal; every step
    preserves it and only shows effects the reply queue allows. *)
From S2P Require Import Prelude Status RespParser CoSocket CoroutineSignal Config.
From S2P Require Import BackendChannel.

(** ** The specification: a queue of slots *)

(** Requests not yet sent, and one slot per command sent but not answered: the
    sink that awaits the reply, if it is still interested. *)
Record Fifo := mkFifo {
  up : bool;
  unsent : list (sink * bytes * Z);
  slots : list sink
}.

Definition fifo_owners (f : Fifo) : list nat := omap (λ e, e.1.1) (unsent f) ++ omap id (slots f).

Definition blank_sink (owner : nat) (s : sink) : sink := if decide (s = Some owner) then None else s.

(** One effect; [None] when the specification does not allow it. *)
Definition fifo_step (e : Effect) (f : Fifo) : option Fifo :=
  match e with
  | EfSys (SysClose _) => if up f then None else Some f
  | EfSys (SysShutdown _ _) => Some f
  | EfSubmitted o data n =>
      if decide (up f = true ∧ (0 < n)%Z)
      then Some (mkFifo true (unsent f ++ [(o, data, n)]) (slots f)) else None
  | EfRejected o n => if decide (up f = true ∧ n ≠ 0%Z) then None else Some f
  | EfDetached o =>
      Some (mkFifo (up f) (filter (λ e, e.1.1 ≠ Some o) (unsent f)) (blank_sink o <$> slots f))
  | EfUp => if decide (up f = false ∧ unsent f = [] ∧ slots f = [])
            then Some (mkFifo true [] []) else None
  | EfSent o data n =>
      match unsent f with
      | e :: rest =>
          if decide (e = (o, data, n))
          then Some (mkFifo (up f) rest (slots f ++ replicate (Z.to_nat n) o)) else None
      | [] => None
      end
  | EfReply o _ =>
      match slots f with
      | s :: rest => if decide (s = o) then Some (mkFifo (up f) (unsent f) rest) else None
      | [] => None
      end
  | EfDown _ owners =>
      if decide (up f = true ∧ NoDup owners ∧
                 list_to_set owners =@{gset nat} list_to_set (fifo_owners f))
      then Some (mkFifo false [] []) else None
  | EfBuf _ => Some f
  end.

Fixpoint fifo_run (es : list Effect) (f : Fifo) : option Fifo :=
  match es with [] => Some f | e :: es => f ← fifo_step e f; fifo_run es f end.

Lemma fifo_run_app es es' f f' :
  fifo_run es f = Some f' → fifo_run (es ++ es') f = fifo_run es' f'.
Proof.
  revert f. induction es as [|e es IH]; intros f; simpl; [by intros [= ->]|].
  destruct (fifo_step e f); simpl; [apply IH|done].
Qed.

Lemma fifo_run_shutdown s f : fifo_run (EfSys <$> CoSocket_shutdown s) f = Some f.
Proof. unfold CoSocket_shutdown. by case_decide. Qed.

(** ** The invariant *)

Definition total_unsent (wq : list RequestBatch) : Z := foldr Z.add 0%Z (rb_command_count <$> wq).
Definition total_pending (pq : list PendingBatch) : Z :=
  foldr Z.add 0%Z (pb_remaining_replies <$> pq).

(** A [uint32_t] that is not zero. *)
Definition count_ok (n : Z) : Prop := (0 < n < 2 ^ 32)%Z.

(** The queues: every batch owes at least one reply, the counter is the number of
    commands not yet answered, and nothing is queued unless the channel is ready. *)
Record queues_ok (st : ChannelState) (wq : list RequestBatch) (pq : list PendingBatch) (n : Z) :
    Prop := {
  qo_unsent : Forall (λ b, count_ok (rb_command_count b)) wq;
  qo_pending : Forall (λ b, count_ok (pb_remaining_replies b)) pq;
  qo_count : n = u64 (total_unsent wq + total_pending pq);
  qo_down : st ≠ kReady → wq = [] ∧ pq = []
}.

(** The points of [run] where the connection's two coroutines may be active,
    where it is suspended on the signal, and where it holds a socket. *)
Definition in_session (pc : RunPc) : bool :=
  match pc with RunWriterTop | RunWaitWork | RunWriting | RunWaitReader => true | _ => false end.
Definition on_signal (pc : RunPc) : bool :=
  match pc with RunWaitWork | RunWaitReader => true | _ => false end.
Definition has_socket (pc : RunPc) : bool :=
  match pc with RunConnecting => true | _ => in_session pc end.

Record control_ok (st : ChannelState) (done : bool) (pc : RunPc) (rpc : ReaderPc) (fd : Z) : Prop := {
  co_stopped : st = kStopped ↔ pc = RunNone;
  co_ready : st = kReady → in_session pc = true ∧ pc ≠ RunWaitReader;
  co_reader : rpc ≠ ReaderNone → in_session pc = true;
  co_done : done = true ↔ rpc = ReaderNone;
  co_socket : has_socket pc = true ↔ (0 <= fd)%Z
}.

Section invariant.
Context {C : Type} {cond : CoCond C} {laws : CoCondLaws C} {order : SetOrder} {Endpoint : Type}.
Implicit Types (ch : BackendChannel C Endpoint).

(** A coroutine suspended on the signal can run as soon as there is something
    for it to do. *)
Record signal_ok (s : CoroutineSignal C) (pc : RunPc) (st : ChannelState)
    (wq : list RequestBatch) (done : bool) : Prop := {
  so_waits : cond_waits (cond_ s) = on_signal pc;
  so_work : pc = RunWaitWork → wq ≠ [] ∨ st ≠ kReady → cond_runnable (cond_ s) = true;
  so_reader : pc = RunWaitReader → done = true → cond_runnable (cond_ s) = true
}.

Record channel_inv ch : Prop := {
  ci_queues : queues_ok (state_ ch) (write_queue_ ch) (pending_queue_ ch) (queued_commands_ ch);
  ci_control : control_ok (state_ ch) (reader_done_ ch) (run_pc ch) (reader_pc ch)
                 (fd_ (socket_ ch));
  ci_signal : signal_ok (writer_signal_ ch) (run_pc ch) (state_ ch) (write_queue_ ch)
                (reader_done_ ch);
  ci_parser : (0 <= max_frame_bytes_ (reply_parser_ ch))%Z
}.

(** *** The channel as a queue of slots *)
Definition batch_slots (b : PendingBatch) : list sink :=
  replicate (Z.to_nat (pb_remaining_replies b)) (pb_owner b).
Definition batch_entry (b : RequestBatch) : sink * bytes * Z :=
  (rb_owner b, rb_bytes b, rb_command_count b).
Definition abs ch : Fifo :=
  mkFifo (isHealthy ch) (batch_entry <$> write_queue_ ch) (pending_queue_ ch ≫= batch_slots).

(** A step that keeps the invariant and shows allowed effects. *)
Definition step_ok ch (r : BackendChannel C Endpoint * list Effect) : Prop :=
  channel_inv r.1 ∧ fifo_run r.2 (abs ch) = Some (abs r.1).

(** What happens to the buffers does not concern the queues. *)
Lemma step_ok_buf e ch r : step_ok ch r → step_ok ch (r.1, EfBuf e :: r.2).
Proof. done. Qed.
Lemma step_ok_buf_last e ch r : step_ok ch r → step_ok ch (r.1, r.2 ++ [EfBuf e]).
Proof. intros [Hi Hf]. split; [done|]. simpl. by rewrite (fifo_run_app _ _ _ _ Hf). Qed.

(** *** Sums *)
Lemma total_unsent_cons b wq : total_unsent (b :: wq) = (rb_command_count b + total_unsent wq)%Z.
Proof. done. Qed.
Lemma total_pending_cons b pq :
  total_pending (b :: pq) = (pb_remaining_replies b + total_pending pq)%Z.
Proof. done. Qed.

Lemma total_unsent_app wq wq' : total_unsent (wq ++ wq') = (total_unsent wq + total_unsent wq')%Z.
Proof.
  induction wq as [|b wq IH]; [done|]. cbn [app]. rewrite !total_unsent_cons, IH. lia.
Qed.

Lemma total_pending_app pq pq' :
  total_pending (pq ++ pq') = (total_pending pq + total_pending pq')%Z.
Proof.
  induction pq as [|b pq IH]; [done|]. cbn [app]. rewrite !total_pending_cons, IH. lia.
Qed.

Lemma total_pending_blank o pq : total_pending (blank_owner o <$> pq) = total_pending pq.
Proof.
  induction pq as [|b pq IH]; [done|]. csimpl. rewrite !total_pending_cons, IH.
  unfold blank_owner. by case_decide.
Qed.

Lemma u64_mod_l a x : u64 (u64 a + x) = u64 (a + x).
Proof. unfold u64. apply Zplus_mod_idemp_l. Qed.

Lemma u64_mod_sub a x : u64 (u64 a - x) = u64 (a - x).
Proof. unfold u64. apply Zminus_mod_idemp_l. Qed.

Lemma erase_owner_spec o wq n :
  erase_owner o wq n =
    (filter (λ b, rb_owner b ≠ Some o) wq,
     (erase_owner o wq n).2) ∧
  ∀ t, n = u64 (total_unsent wq + t) →
    (erase_owner o wq n).2 = u64 (total_unsent (filter (λ b, rb_owner b ≠ Some o) wq) + t).
Proof.
  revert n. induction wq as [|b wq IH]; intros n; simpl; [done|].
  case_decide as Ho.
  - rewrite filter_cons_False by tauto. destruct (IH (u64 (n - rb_command_count b))) as [H1 H2].
    split; [done|]. intros t ->. apply H2. rewrite u64_mod_sub. f_equal.
    rewrite total_unsent_cons. lia.
  - rewrite filter_cons_True by done. destruct (IH n) as [H1 H2].
    destruct (erase_owner o wq n) as [wq' n']. simplify_eq/=. split; [done|]. intros t ->.
    rewrite (H2 (rb_command_count b + t)%Z).
    + f_equal. rewrite total_unsent_cons. lia.
    + f_equal. rewrite total_unsent_cons. lia.
Qed.

(** *** The signal *)
Lemma signal_notify s pc st wq done st' wq' done' :
  signal_ok s pc st wq done → signal_ok (notify s) pc st' wq' done'.
Proof.
  intros [Hw _ _]. unfold notify. destruct (on_signal pc) eqn:Hpc.
  - destruct (cond_Signal_wakes _ Hw). split; simpl; [by rewrite Hpc|done..].
  - pose proof (cond_Signal_idle _ Hw). split; simpl; [by rewrite Hpc|by intros ->..].
Qed.

(** A coroutine that is not suspended on the signal. *)
Lemma signal_idle s pc pc' st wq done st' wq' done' :
  signal_ok s pc st wq done → on_signal pc = false → on_signal pc' = false →
  signal_ok s pc' st' wq' done'.
Proof.
  intros [Hw _ _] Hpc Hpc'. split; [by rewrite Hw, Hpc, Hpc'|by intros ->..].
Qed.

Lemma signal_return s pc st wq done : on_signal pc = false → signal_ok (wait_return s) pc st wq done.
Proof. intros Hpc. split; simpl; [by rewrite cond_return_idle|by intros ->..]. Qed.

Lemma signal_wait s pc pc' st wq done returned s' :
  signal_ok s pc st wq done → on_signal pc = false → wait s = (returned, s') →
  if returned then pending_ s' = false ∧ signal_ok s' pc st wq done
  else on_signal pc' = true →
       (pc' = RunWaitWork → wq = [] ∧ st = kReady) → (pc' = RunWaitReader → done = false) →
       signal_ok s' pc' st wq done.
Proof.
  intros [Hw _ _] Hpc. unfold wait. destruct (pending_ s) eqn:Hp; intros [= <- <-].
  - split; [done|]. split; simpl; [done|by intros ->..].
  - intros Hpc' Hwork Hread. rewrite Hpc in Hw. destruct (cond_suspend_waits _ Hw) as [Hs Hr].
    split; simpl; [congruence| |].
    + intros Hx [Hq|Hq]; destruct (Hwork Hx); done.
    + intros Hx Hd. by rewrite (Hread Hx) in Hd.
Qed.

(** *** Calls from sessions *)
Lemma Forall_filter_in {A} (P Q : A → Prop) `{∀ x, Decision (Q x)} l : Forall P l → Forall P (filter Q l).
Proof.
  rewrite !list.Forall_forall. intros Hl x [_ Hx]%list_elem_of_filter. auto.
Qed.

Lemma abs_up ch : up (abs ch) = isHealthy ch.
Proof. done. Qed.

Lemma healthy_ready ch : isHealthy ch = true ↔ state_ ch = kReady.
Proof. apply bool_decide_eq_true. Qed.

Lemma step_ok_id ch : channel_inv ch → step_ok ch (ch, []).
Proof. by split. Qed.

Lemma submit_ok ch owner data n :
  channel_inv ch → (0 <= n < 2 ^ 32)%Z →
  step_ok ch (let '(_, ch', es) := BackendChannel_submit owner data n ch in (ch', es)).
Proof.
  intros [[Qu Qp Qc Qd] Hco Hs Hp] Hn. unfold BackendChannel_submit.
  case_decide as Hrej; split; simpl.
  - by split.
  - rewrite decide_False; [done|]. destruct Hrej as [->| ->]; naive_solver.
  - assert (isHealthy ch = true) as Hh by (destruct (isHealthy ch); naive_solver).
    apply healthy_ready in Hh. split; simpl; [|done|by eapply signal_notify|done].
    split; [|done| |done].
    + apply Forall_app. split; [done|]. constructor; [|done]. unfold count_ok. simpl. lia.
    + rewrite total_unsent_app, Qc, u64_mod_l. f_equal. unfold total_unsent at 3. simpl. lia.
  - assert (isHealthy ch = true) as Hh by (destruct (isHealthy ch); naive_solver).
    rewrite decide_True by (split; [done|]; lia). simpl. do 2 f_equal.
    unfold abs. simpl. change (isHealthy (notify_writer _)) with (isHealthy ch).
    by rewrite Hh, fmap_app.
Qed.

Lemma slots_blank o pq : (blank_owner o <$> pq) ≫= batch_slots = blank_sink o <$> (pq ≫= batch_slots).
Proof.
  induction pq as [|b pq IH]; [done|]. csimpl. rewrite fmap_app, IH. f_equal.
  unfold batch_slots, blank_owner, blank_sink. rewrite fmap_replicate. by case_decide.
Qed.

Lemma detach_ok ch o : channel_inv ch → step_ok ch (BackendChannel_detachOwner o ch).
Proof.
  intros [[Qu Qp Qc Qd] Hco Hs Hp]. unfold BackendChannel_detachOwner.
  destruct (erase_owner_spec o (write_queue_ ch) (queued_commands_ ch)) as [Hw Hn].
  specialize (Hn _ Qc). destruct (erase_owner _ _ _) as [wq n]. simplify_eq/=.
  split; simpl.
  - split; simpl; [|done| |done].
    + split; [by apply Forall_filter_in| |by rewrite total_pending_blank|].
      * apply Forall_fmap. eapply Forall_impl; [exact Qp|]. intros b Hb. simpl.
        unfold blank_owner. by case_decide.
      * intros Hst. destruct (Qd Hst) as [-> ->]. done.
    + destruct Hs as [H1 H2 H3]. split; [done| |done]. intros Hpc [Hne|Hst]; [|by auto].
      apply H2; [done|]. left. intros Hnil. by rewrite Hnil in Hne.
  - do 2 f_equal. unfold abs. simpl. f_equal; [|by rewrite slots_blank].
    clear. induction (write_queue_ ch) as [|b wq IH]; [done|]. csimpl.
    destruct (decide (rb_owner b = Some o)).
    + rewrite !filter_cons_False by (simpl; tauto). done.
    + rewrite !filter_cons_True by done. csimpl. by rewrite IH.
Qed.

(** *** Failure and replies *)
Lemma owners_abs ch :
  omap rb_owner (write_queue_ ch) = omap (λ e, e.1.1) (batch_entry <$> write_queue_ ch).
Proof. induction (write_queue_ ch) as [|b wq IH]; csimpl; [done|]. by rewrite IH. Qed.

Lemma owners_slots pq x :
  Forall (λ b, count_ok (pb_remaining_replies b)) pq →
  x ∈ omap pb_owner pq ↔ x ∈ omap id (pq ≫= batch_slots).
Proof.
  induction 1 as [|b pq Hb _ IH]; [done|]. csimpl. rewrite omap_app, elem_of_app, <-IH.
  unfold batch_slots, count_ok in *. destruct (Z.to_nat (pb_remaining_replies b)) as [|k] eqn:Hk; [lia|].
  assert (∀ k, x ∈ omap id (replicate k (pb_owner b)) → pb_owner b = Some x) as Hrep.
  { clear. induction k as [|k IH]; csimpl; [by intros ?%elem_of_nil|].
    destruct (pb_owner b); simpl; [|done]. rewrite elem_of_cons. intros [->|?]; auto. }
  specialize (Hrep (S k)). destruct (pb_owner b) as [y|] eqn:Hy; csimpl.
  - rewrite elem_of_cons. split; [intros [->|?]; [left; by left|by right]|].
    intros [?%Hrep|?]; [simplify_eq; by left|by right].
  - split; [by right|]. intros [?%Hrep|?]; done.
Qed.

Lemma failConnection_ok ch st : channel_inv ch → step_ok ch (failConnection st ch).
Proof.
  intros Hinv. unfold failConnection. case_decide as Hst; [by apply step_ok_id|].
  destruct Hinv as [[Qu Qp Qc Qd] [C1 C2 C3 C4 C5] Hs Hp].
  assert (state_ ch = kReady) as Hr by (destruct (state_ ch); naive_solver).
  split; simpl.
  - split; simpl; [by split|split; try done|by eapply signal_notify|done].
    split; [done|]. intros Hn. destruct (C2 Hr) as [Hi _]. by rewrite Hn in Hi.
  - rewrite (fifo_run_app _ _ _ (abs ch)) by apply fifo_run_shutdown. simpl.
    rewrite decide_True; [done|]. split_and!.
    + by apply bool_decide_eq_true.
    + rewrite set_order_perm. apply NoDup_remove_dups.
    + apply leibniz_equiv. intros x. unfold fifo_owners. simpl.
      rewrite !elem_of_list_to_set, set_order_perm, elem_of_remove_dups.
      by rewrite !elem_of_app, owners_abs, owners_slots.
Qed.

Lemma dispatchReply_ok ch reply : channel_inv ch → step_ok ch (dispatchReply reply ch).
Proof.
  intros Hinv. unfold dispatchReply. destruct (pending_queue_ ch) as [|pb rest] eqn:Hpq.
  { by apply step_ok_buf, failConnection_ok. }
  destruct Hinv as [[Qu Qp Qc Qd] Hco Hs Hp]. rewrite Hpq in *.
  apply Forall_cons in Qp as [Hpb Qp]. unfold count_ok in Hpb.
  rewrite total_pending_cons in Qc. rewrite (u32_small (_ - 1)) by lia.
  assert (u64 (queued_commands_ ch - 1) =
    u64 (total_unsent (write_queue_ ch) + ((pb_remaining_replies pb - 1) + total_pending rest)))
    as Hn by (rewrite Qc, u64_mod_sub; f_equal; lia).
  split; simpl.
  - split; simpl; [|done..]. split; [done| | |by intros [? ?]%Qd].
    + case_decide; [done|]. constructor; [|done]. unfold count_ok. simpl. lia.
    + rewrite Hn. case_decide as Hz; [by rewrite Hz|done].
  - unfold abs at 1. simpl. rewrite Hpq. csimpl. unfold batch_slots at 1.
    destruct (Z.to_nat (pb_remaining_replies pb)) as [|k] eqn:Hk; [lia|]. simpl.
    rewrite decide_True by done. simpl. do 2 f_equal. unfold abs. simpl. f_equal.
    case_decide as Hz.
    + by replace k with 0 by lia.
    + csimpl. unfold batch_slots at 2. simpl. by replace (Z.to_nat _) with k by lia.
Qed.

(** *** Start and stop *)
Lemma start_ok ch config : channel_inv ch → step_ok ch (BackendChannel_start config ch, []).
Proof.
  intros Hinv. unfold BackendChannel_start. destruct (isStopped ch) eqn:Hst; simpl; [|by apply step_ok_id].
  apply bool_decide_eq_true in Hst. destruct Hinv as [[Qu Qp Qc Qd] [C1 C2 C3 C4 C5] Hs Hp].
  assert (run_pc ch = RunNone) as Hpc by (by apply C1). rewrite Hst, Hpc in *.
  destruct Qd as [Hw Hq]; [done|]. split; simpl.
  - split; simpl; [by split|split; try done|by eapply signal_idle|done].
  - unfold abs. simpl. unfold isHealthy. simpl. by rewrite Hst.
Qed.

Lemma stop_ok ch : channel_inv ch → step_ok ch (BackendChannel_stop ch).
Proof.
  intros Hinv. unfold BackendChannel_stop.
  assert (channel_inv (set_stop true ch)) as Hinv' by (by destruct Hinv).
  destruct (failConnection_ok _ (Status_Closed "backend stopped") Hinv') as [Hi Hf].
  destruct (failConnection _ _) as [ch' es]. simpl in *. split; simpl.
  - destruct Hi as [? ? Hs ?]. split; simpl; [done..| |done]. by eapply signal_notify.
  - change (abs ch) with (abs (set_stop true ch)). rewrite (fifo_run_app _ _ _ _ Hf).
    by rewrite fifo_run_shutdown.
Qed.

(** *** The coroutine of [run] *)

(** Leaving the session: the reader is gone and the channel is not ready. *)
Lemma run_close_ok ch :
  channel_inv ch → state_ ch ≠ kReady → run_pc ch ≠ RunNone → on_signal (run_pc ch) = false →
  reader_pc ch = ReaderNone → step_ok ch (run_close ch).
Proof.
  intros [[Qu Qp Qc Qd] [C1 C2 C3 C4 C5] Hs Hp] Hst Hpc Hsig Hr. unfold run_close.
  destruct (CoSocket_close (socket_ ch)) as [s calls] eqn:Hcl.
  assert ((fd_ s < 0)%Z ∧ fifo_run (EfSys <$> calls) (abs ch) = Some (abs ch)) as [Hfd Hrun].
  { unfold CoSocket_close in Hcl. case_decide; simplify_eq/=.
    - split; [lia|]. unfold isHealthy. by rewrite bool_decide_eq_false_2.
    - split; [lia|done]. }
  split; simpl.
  - split; simpl; [by split| | |done].
    + split; [|done|by rewrite Hr|done|].
      * split; [|by destruct (stop_requested_ ch)]. intros Hx%C1. done.
      * split; [by destruct (stop_requested_ ch)|lia].
    + eapply signal_idle; [done..|by destruct (stop_requested_ ch)].
  - by rewrite (fifo_run_app _ _ _ _ Hrun).
Qed.

(** A connection that cannot be attempted is closed at once. *)
Lemma run_top_eq fd ch :
  run_top fd ch =
  if stop_requested_ ch then (set_run RunNone (set_state kStopped ch), [])
  else if decide (fd < 0)%Z then run_close (set_state kConnecting ch)
  else (set_run RunConnecting (set_socket (mkCoSocket fd) (set_state kConnecting ch)),
        EfSys <$> (CoSocket_close (socket_ ch)).2).
Proof.
  unfold run_top, connectOnce. destruct (stop_requested_ ch); [done|]. case_decide; [|done].
  unfold run_connected. cbn -[run_close]. by destruct (run_close _).
Qed.

Lemma run_top_ok ch fd :
  channel_inv ch → run_pc ch = RunTop → step_ok ch (run_top fd ch).
Proof.
  intros Hinv Hpc. rewrite run_top_eq. pose proof Hinv as [[Qu Qp Qc Qd] [C1 C2 C3 C4 C5] Hs Hp].
  rewrite Hpc in *. assert (state_ ch ≠ kReady) as Hst by (intros [? _]%C2; done).
  assert (reader_pc ch = ReaderNone) as Hrd by (by destruct (reader_pc ch); try (specialize (C3 ltac:(done)))).
  destruct (Qd Hst) as [Hw Hq].
  destruct (stop_requested_ ch).
  { split; simpl.
    - split; simpl; [by split|split; try done; by rewrite Hrd|by eapply signal_idle|done].
    - unfold abs. simpl. unfold isHealthy. simpl. by rewrite (bool_decide_eq_false_2 (state_ ch = _)). }
  assert (abs (set_state kConnecting ch) = abs ch) as Habs.
  { unfold abs, isHealthy. simpl. by rewrite (bool_decide_eq_false_2 (state_ ch = _)). }
  assert (channel_inv (set_state kConnecting ch)) as Hinv'.
  { split; simpl; [by split|rewrite Hpc; split; done|rewrite Hpc; by eapply signal_idle|done]. }
  case_decide as Hfd.
  - pose proof (run_close_ok (set_state kConnecting ch)) as [Hi Hf]; simpl; try done.
    { by rewrite Hpc. }
    { by rewrite Hpc. }
    rewrite Habs in Hf. done.
  - assert (¬ (0 <= fd_ (socket_ ch))%Z) as Hno by (intros ?%C5; done).
    unfold CoSocket_reset, CoSocket_close. simpl. rewrite decide_False by done. simpl.
    split; simpl; [|by rewrite <-Habs].
    split; simpl; [by split| |by eapply signal_idle|done].
    split; try done. simpl. split; [lia|done].
Qed.

Lemma run_connected_ok ch st :
  channel_inv ch → run_pc ch = RunConnecting → step_ok ch (run_connected st ch).
Proof.
  intros Hinv Hpc. unfold run_connected. pose proof Hinv as [[Qu Qp Qc Qd] [C1 C2 C3 C4 C5] Hs Hp].
  rewrite Hpc in *. assert (state_ ch ≠ kReady) as Hst by (intros [? _]%C2; done).
  assert (reader_pc ch = ReaderNone) as Hrd by (by destruct (reader_pc ch); try (specialize (C3 ltac:(done)))).
  destruct (_ && _); [|apply run_close_ok; by rewrite ?Hpc].
  destruct (Qd Hst) as [Hw Hq]. split; simpl.
  - split; simpl; [by split|split; try done|by eapply signal_idle|done].
  - rewrite decide_True; [|].
    + simpl. unfold abs, isHealthy. simpl. by rewrite Hw, Hq.
    + split_and!; [by apply bool_decide_eq_false|by rewrite Hw|by rewrite Hq].
Qed.

(** The [wait] loops end in the second round at the latest. *)
Lemma run_wait_reader_ok ch :
  channel_inv ch → state_ ch ≠ kReady → in_session (run_pc ch) = true → on_signal (run_pc ch) = false →
  ∃ r, run_wait_reader 2 ch = Some r ∧ step_ok ch r.
Proof.
  intros Hinv Hst Hpc Hsig. simpl.
  destruct (reader_done_ ch) eqn:Hd.
  { eexists. split; [done|]. apply run_close_ok; try done.
    - by destruct (run_pc ch).
    - by apply (co_done _ _ _ _ _ (ci_control _ Hinv)). }
  assert (∀ s, pending_ s = false → signal_ok s (run_pc ch) (state_ ch) (write_queue_ ch) (reader_done_ ch) →
    step_ok ch (set_run RunWaitReader (set_signal (wait s).2 ch), [])) as Hsusp.
  { intros s Hps Hs. pose proof (signal_wait s _ RunWaitReader _ _ _ (wait s).1 (wait s).2 Hs Hsig) as Hw.
    unfold wait in *. rewrite Hps in *. simpl in *. specialize (Hw eq_refl).
    destruct Hinv as [? [C1 C2 C3 C4 C5] _ ?].
    split; [|done]. split; simpl; [done| |by apply Hw|done]. split; try done.
    - rewrite C1. split; [intros Hx; by rewrite Hx in Hpc|done].
    - rewrite <-C5. by destruct (run_pc ch). }
  pose proof (ci_signal _ Hinv) as Hs.
  destruct (wait (writer_signal_ ch)) as [returned s] eqn:Hwait.
  pose proof (signal_wait _ _ RunWaitReader _ _ _ _ _ Hs Hsig Hwait) as Hw.
  destruct returned.
  - destruct Hw as [Hp Hs']. specialize (Hsusp s Hp Hs'). simpl.
    destruct (wait s) as [[] s'] eqn:Hs2; [unfold wait in Hs2; by rewrite Hp in Hs2|].
    eexists. split; [done|exact Hsusp].
  - assert (pending_ (writer_signal_ ch) = false) as Hp.
    { unfold wait in Hwait. by destruct (pending_ _). }
    specialize (Hsusp _ Hp Hs). rewrite Hwait in Hsusp. eauto.
Qed.

(** Going on after the head of [writerLoop] with an idle signal. *)
Lemma send_ok ch batch wq :
  channel_inv ch → state_ ch = kReady → in_session (run_pc ch) = true →
  on_signal (run_pc ch) = false → write_queue_ ch = batch :: wq →
  step_ok ch
    (set_run RunWriting (set_queues wq (pending_queue_ ch ++
       [mkPendingBatch (rb_owner batch) (rb_command_count batch)]) (queued_commands_ ch) ch),
     [EfSent (rb_owner batch) (rb_bytes batch) (rb_command_count batch)]).
Proof.
  intros [[Qu Qp Qc Qd] [C1 C2 C3 C4 C5] Hs Hp] Hst Hpc Hsig Hwq. rewrite Hwq, Hst in *.
  apply Forall_cons in Qu as [Hb Qu]. split; simpl.
  - split; simpl; rewrite ?Hst; [| |by eapply signal_idle|done].
    + split; [done|apply Forall_app; split; [done|by constructor]| |done].
      rewrite Qc, total_pending_app, total_unsent_cons. f_equal.
      unfold total_pending at 3. simpl. lia.
    + split; try done. simpl. rewrite <-C5. by destruct (run_pc ch).
  - rewrite Hwq. csimpl. rewrite decide_True by done. simpl. do 2 f_equal. unfold abs. simpl.
    f_equal. rewrite bind_app. csimpl. by rewrite app_nil_r.
Qed.

Lemma writerLoop_ok ch :
  channel_inv ch → in_session (run_pc ch) = true → on_signal (run_pc ch) = false →
  ∃ r, writerLoop 2 ch = Some r ∧ step_ok ch r.
Proof.
  intros Hinv Hpc Hsig. cbn [writerLoop]. destruct (isHealthy ch) eqn:Hh; cbn [negb].
  2:{ apply run_wait_reader_ok; try done. by apply bool_decide_eq_false in Hh. }
  pose proof Hh as Hst. apply healthy_ready in Hst.
  destruct (write_queue_ ch) as [|batch wq] eqn:Hwq.
  2:{ eexists. split; [done|]. by apply send_ok. }
  pose proof (ci_signal _ Hinv) as Hs.
  assert (∀ s, pending_ s = false → signal_ok s (run_pc ch) (state_ ch) (write_queue_ ch) (reader_done_ ch) →
    ∃ s', wait s = (false, s') ∧ step_ok ch (set_run RunWaitWork (set_signal s' ch), [])) as Hsusp.
  { intros s Hps Hs'. destruct (wait s) as [r s'] eqn:Hw. assert (r = false) as ->.
    { unfold wait in Hw. rewrite Hps in Hw. by simplify_eq. }
    eexists. split; [done|].
    pose proof (signal_wait s _ RunWaitWork _ _ _ _ _ Hs' Hsig Hw) as Hso.
    destruct Hinv as [? [C1 C2 C3 C4 C5] _ ?].
    split; [|done]. split; simpl; [done| |by apply Hso|done]. split; try done.
    - rewrite C1. split; [intros Hx; by rewrite Hx in Hpc|done].
    - rewrite <-C5. by destruct (run_pc ch). }
  destruct (wait (writer_signal_ ch)) as [returned s] eqn:Hwait.
  pose proof (signal_wait _ _ RunWaitWork _ _ _ _ _ Hs Hsig Hwait) as Hw.
  destruct returned.
  - destruct Hw as [Hp Hs']. destruct (Hsusp s Hp Hs') as (s2 & Hw2 & Hok).
    change (isHealthy (set_signal s ch)) with (isHealthy ch). rewrite Hh. simpl.
    rewrite Hwq, Hw2. eexists. split; [done|exact Hok].
  - assert (pending_ (writer_signal_ ch) = false) as Hp by (unfold wait in Hwait; by destruct (pending_ _)).
    destruct (Hsusp _ Hp Hs) as (s2 & Hw2 & Hok). rewrite Hwait in Hw2. simplify_eq. eauto.
Qed.

Lemma run_written_ok ch st :
  channel_inv ch → run_pc ch = RunWriting → step_ok ch (run_written st ch).
Proof.
  intros Hinv Hpc. unfold run_written.
  assert (step_ok ch (if Status_ok st then (ch, []) else failConnection st ch)) as Hok.
  { destruct (Status_ok st); [by apply step_ok_id|by apply failConnection_ok]. }
  assert (run_pc (if Status_ok st then (ch, []) else failConnection st ch).1 = RunWriting) as Hpc'.
  { destruct (Status_ok st); [done|]. unfold failConnection. by case_decide. }
  destruct (if Status_ok st then _ else _) as [ch' es]. unfold step_ok in *. simpl in *.
  destruct Hok as [[Hq [C1 C2 C3 C4 C5] Hs Hp] Hf]. rewrite Hpc' in *.
  apply (step_ok_buf_last _ ch (_, _)). split; simpl in *; [|done].
  split; simpl; [done| |by eapply signal_idle|done].
  split; try done. by rewrite C1.
Qed.

(** *** The reader *)

Lemma set_reader_ok ch pc :
  channel_inv ch → reader_pc ch ≠ ReaderNone → pc ≠ ReaderNone → step_ok ch (set_reader pc ch, []).
Proof.
  intros [? [C1 C2 C3 C4 C5] ? ?] Hr Hpc. split; [|done]. split; simpl; [done| |done..].
  split; try done; [by intros _; apply C3|]. rewrite C4. done.
Qed.

Lemma set_input_inv ch p data :
  channel_inv ch → (0 <= max_frame_bytes_ p)%Z → channel_inv (set_input p data ch).
Proof. by intros [] ?. Qed.

Lemma step_ok_then_reader ch r pc :
  step_ok ch r → reader_pc r.1 ≠ ReaderNone → pc ≠ ReaderNone →
  step_ok ch (set_reader pc r.1, r.2).
Proof.
  intros [Hi Hf] Hr Hpc. destruct (set_reader_ok r.1 pc Hi Hr Hpc) as [Hi' _]. by split.
Qed.

Lemma failConnection_reader ch st : reader_pc (failConnection st ch).1 = reader_pc ch.
Proof. unfold failConnection. by case_decide. Qed.

Lemma reader_read_ok ch st data :
  channel_inv ch → reader_pc ch ≠ ReaderNone → step_ok ch (reader_read st data ch).
Proof.
  intros Hinv Hr. unfold reader_read.
  set (ch1 := set_input _ _ ch).
  assert (channel_inv ch1) as Hi1 by (apply set_input_inv; [done|apply Hinv]).
  assert (∀ r, step_ok ch1 r → step_ok ch r) as Hlift by done.
  pose proof (λ pc, step_ok_buf (BufIn data) ch1 (set_reader pc ch1, [])) as Hset.
  destruct (isHealthy ch1); simpl; [|by apply Hlift, Hset, set_reader_ok].
  destruct (Status_ok st); [by apply Hlift, Hset, set_reader_ok|].
  pose proof (failConnection_ok ch1 st Hi1) as Hf. pose proof (failConnection_reader ch1 st) as Hp.
  destruct (failConnection st ch1) as [ch2 es]. simpl in Hp.
  apply Hlift, (step_ok_buf _ ch1 (_, _)), (step_ok_then_reader ch1 (ch2, es)); [done| |done].
  simpl. by rewrite Hp.
Qed.

Lemma reader_end_ok ch :
  channel_inv ch → reader_pc ch ≠ ReaderNone → step_ok ch (reader_end ch, []).
Proof.
  intros [? [C1 C2 C3 C4 C5] ? ?] Hr. split; [|done]. split; simpl; [done| |by eapply signal_notify|done].
  split; try done.
Qed.

Section parsing.
Context (UnpackOne : bytes → nat → RespLimits → RespResult).

Lemma next_bytes_total alloc p data :
  (0 <= max_frame_bytes_ p)%Z →
  ∃ p' ps n, next_bytes UnpackOne alloc p data = Some (p', ps, n) ∧
    (0 <= max_frame_bytes_ p')%Z.
Proof.
  intros Hmax. unfold next_bytes.
  destruct (unpack_run UnpackOne alloc p data Hmax) as (r & p' & -> & _ & Hf & _). simpl.
  rewrite <-Hf in Hmax. case_decide; eauto.
Qed.

Lemma reader_parse_ok alloc ch :
  channel_inv ch → reader_pc ch = ReaderParsing →
  ∃ r, reader_parse UnpackOne alloc ch = Some r ∧ step_ok ch r.
Proof.
  intros Hinv Hr. unfold reader_parse. destruct (isHealthy ch) eqn:Hh; simpl.
  2:{ eexists. split; [done|]. apply set_reader_ok; [done|by rewrite Hr|done]. }
  destruct (next_bytes_total alloc (reply_parser_ ch) (redis_in_ ch)) as (p & ps & n & -> & Hp).
  { apply Hinv. }
  simpl.
  assert (∀ data, channel_inv (set_input p data ch)) as Hi by (intros; by apply set_input_inv).
  assert (∀ data r, step_ok (set_input p data ch) r → step_ok ch r) as Hlift by done.
  assert (∃ r, (let '(ch', es) := failConnection (Status_ProtocolError "bad redis reply")
                  (set_input p (redis_in_ ch) ch) in Some (set_reader ReaderTop ch', es)) = Some r ∧
               step_ok ch r) as Hfail.
  { pose proof (failConnection_ok _ (Status_ProtocolError "bad redis reply") (Hi (redis_in_ ch))) as Hf.
    pose proof (failConnection_reader (set_input p (redis_in_ ch) ch)
                  (Status_ProtocolError "bad redis reply")) as Hpc.
    destruct (failConnection _ _) as [ch' es]. eexists. split; [done|].
    apply (step_ok_then_reader ch (ch', es)); [by eapply Hlift| |done]. simpl in *. by rewrite Hpc, Hr. }
  destruct ps; try done.
  - destruct n as [n|]; [|done]. eexists. split; [done|]. eapply Hlift. by apply dispatchReply_ok.
  - eexists. split; [done|]. eapply Hlift, set_reader_ok; [by apply Hi|by simpl; rewrite Hr|done].
Qed.
End parsing.
End invariant.
