(* ===== verification/ChannelProps.v ===== *)
(** * Properties of a backend channel

    Every run of a channel, from its construction on, under any interleaving of
    calls from sessions, answers of the kernel and resumptions of its two
    coroutines. *)
From S2P Require Import Prelude Status RespParser CoSocket CoroutineSignal Config.
From S2P Require Import BackendChannel ChannelInv.

(** [command_count] is a [uint32_t]. *)
Definition op_ok {Endpoint} (o : ChannelOp Endpoint) : bool :=
  match o with OpSubmit _ _ n => bool_decide (0 <= n < 2 ^ 32)%Z | _ => true end.

Section runs.
Context {C : Type} {cond : CoCond C} {laws : CoCondLaws C} {order : SetOrder} {Endpoint : Type}.
Context (UnpackOne : bytes → nat → RespLimits → RespResult).
Implicit Types (ch : BackendChannel C Endpoint).

Lemma channel_inv_new endpoint : channel_inv (C := C) (BackendChannel_new (Endpoint := Endpoint) endpoint).
Proof.
  split; simpl; [by split| |split; simpl; [apply cond_init_idle|done..]|done].
  by split.
Qed.

Lemma wake_inv ch :
  channel_inv ch → in_session (run_pc ch) = true →
  channel_inv (set_run RunWriterTop (set_signal (wait_return (writer_signal_ ch)) ch)) .
Proof.
  intros [? [C1 C2 C3 C4 C5] ? ?] Hpc. split; simpl; [done| |by apply signal_return|done].
  split; try done.
  - rewrite C1. by split; [intros Hx; rewrite Hx in Hpc|].
  - simpl. rewrite <-C5. by destruct (run_pc ch).
Qed.

(** A [wait] returns only where the signal was waited for. *)
Lemma channel_wake_ok ch r :
  channel_inv ch → channel_step UnpackOne EvWake ch = Some r →
  on_signal (run_pc ch) = true ∧ step_ok ch r ∧
  cond_runnable (cond_ (writer_signal_ ch)) = true.
Proof.
  intros Hinv. cbn [channel_step]. destruct (cond_runnable _); [|done].
  destruct (run_pc ch) eqn:Hpc; try done; intros Hr; (split; [done|split; [|done]]).
  - destruct (writerLoop_ok _ (wake_inv ch Hinv ltac:(by rewrite Hpc))) as (r' & Hr' & Hok); [done..|].
    rewrite Hr in Hr'. by simplify_eq.
  - destruct (run_wait_reader_ok _ (wake_inv ch Hinv ltac:(by rewrite Hpc))) as (r' & Hr' & Hok); [|done..|].
    + simpl. intros [_ Hx]%(co_ready _ _ _ _ _ (ci_control _ Hinv)). done.
    + rewrite Hr in Hr'. by simplify_eq.
Qed.

Lemma channel_step_ok o ch r :
  op_ok o = true → channel_inv ch → channel_step UnpackOne o ch = Some r → step_ok ch r.
Proof.
  intros Ho Hinv Hstep. destruct o; cbn [channel_step op_ok] in *.
  - apply bool_decide_eq_true in Ho. pose proof (submit_ok ch owner data count Hinv Ho) as Hok.
    destruct (BackendChannel_submit _ _ _ _) as [[b ch'] es]. by simplify_eq.
  - simplify_eq. by apply detach_ok.
  - simplify_eq. by apply start_ok.
  - simplify_eq. by apply stop_ok.
  - case_decide; simplify_eq. by apply run_top_ok.
  - case_decide; simplify_eq. by apply run_connected_ok.
  - case_decide as Hpc; [|done].
    destruct (writerLoop_ok ch Hinv) as (r' & Hr & Hok); [by rewrite Hpc..|]. congruence.
  - by destruct (channel_wake_ok ch r Hinv Hstep) as (_ & Hok & _).
  - case_decide; simplify_eq. by apply run_written_ok.
  - case_decide as Hpc; simplify_eq. destruct Hinv as [? [C1 C2 C3 C4 C5] ? ?]. rewrite Hpc in *.
    split; [|done]. split; simpl; [done| |by eapply signal_idle|done]. split; try done; [by rewrite C1|].
    intros [? _]%C2. done.
  - case_decide as Hpc; simplify_eq. apply set_reader_ok; [done|by rewrite Hpc|by destruct (isHealthy ch)].
  - case_decide as Hpc; simplify_eq. apply reader_read_ok; [done|]. by destruct Hpc as [-> _].
  - case_decide as Hpc; [|done].
    destruct (reader_parse_ok UnpackOne alloc ch Hinv Hpc) as (r' & Hr & Hok). congruence.
  - case_decide as Hpc; simplify_eq. apply reader_end_ok; [done|by rewrite Hpc].
Qed.

Lemma channel_run_ok ops ch ch' es :
  forallb op_ok ops = true → channel_inv ch → channel_run UnpackOne ops ch = Some (ch', es) →
  step_ok ch (ch', es).
Proof.
  revert ch es. induction ops as [|o ops IH]; intros ch es; simpl.
  { intros _ Hinv [= <- <-]. by apply step_ok_id. }
  intros [Ho Hops]%andb_true_iff Hinv.
  destruct (channel_step UnpackOne o ch) as [[ch1 es1]|] eqn:Hstep; simpl; [|done].
  destruct (channel_step_ok o ch _ Ho Hinv Hstep) as [Hinv1 Hf1]. simpl in *.
  destruct (channel_run UnpackOne ops ch1) as [[ch2 es2]|] eqn:Hrun; simpl; [|done].
  intros [= <- <-]. destruct (IH ch1 es2 Hops Hinv1 Hrun) as [Hinv2 Hf2]. simpl in *.
  split; [done|]. simpl. by rewrite (fifo_run_app _ _ _ _ Hf1).
Qed.

Definition reachable endpoint ch : Prop :=
  ∃ ops es, forallb op_ok ops = true ∧
    channel_run UnpackOne ops (BackendChannel_new endpoint) = Some (ch, es).

Lemma reachable_inv endpoint ch : reachable endpoint ch → channel_inv ch.
Proof. intros (ops & es & Hok & Hrun). eapply channel_run_ok; eauto using channel_inv_new. Qed.

(** *** Closing the socket *)
Definition closes (es : list Effect) : list Z :=
  es ≫= λ e, match e with EfSys (SysClose fd) => [fd] | _ => [] end.

Lemma closes_app es es' : closes (es ++ es') = closes es ++ closes es'.
Proof. apply bind_app. Qed.

Lemma closes_shutdown s : closes (EfSys <$> CoSocket_shutdown s) = [].
Proof. unfold CoSocket_shutdown. by case_decide. Qed.

Lemma closes_fail st ch : closes (failConnection st ch).2 = [].
Proof.
  unfold failConnection. case_decide; [done|]. simpl. by rewrite closes_app, closes_shutdown.
Qed.

Lemma closes_run_close ch : closes (run_close ch).2 = live (fd_ (socket_ ch)).
Proof. unfold run_close, CoSocket_close, live. by case_decide. Qed.

Lemma closes_wait_reader ch r :
  run_wait_reader 2 ch = Some r →
  closes r.2 = [] ∨ (reader_done_ ch = true ∧ closes r.2 = live (fd_ (socket_ ch))).
Proof.
  simpl. destruct (reader_done_ ch).
  { intros [= <-]. right. split; [done|apply closes_run_close]. }
  destruct (wait (writer_signal_ ch)) as [[] s]; simpl.
  - destruct (wait s) as [[] s']; intros; simplify_eq. by left.
  - intros; simplify_eq. by left.
Qed.

Lemma closes_writerLoop ch r :
  writerLoop 2 ch = Some r →
  closes r.2 = [] ∨ (isHealthy ch = false ∧ reader_done_ ch = true ∧
                     closes r.2 = live (fd_ (socket_ ch))).
Proof.
  cbn [writerLoop]. destruct (isHealthy ch) eqn:Hh; cbn [negb].
  - destruct (write_queue_ ch) eqn:Hwq; [|intros; simplify_eq; by left].
    destruct (wait (writer_signal_ ch)) as [[] s]; [|intros; simplify_eq; by left].
    change (isHealthy (set_signal s ch)) with (isHealthy ch). rewrite Hh. simpl. rewrite Hwq.
    destruct (wait s) as [[] s']; intros; simplify_eq. by left.
  - intros [?|[? ?]]%closes_wait_reader; auto.
Qed.

(** What holds when a step closes a descriptor. *)
Definition quiet ch (fd : Z) : Prop :=
  reader_pc ch = ReaderNone ∧ run_pc ch ≠ RunWriting ∧ state_ ch ≠ kReady ∧ fd = fd_ (socket_ ch).

Lemma live_elem fd fd' : fd ∈ live fd' → fd = fd'.
Proof. unfold live. case_decide; set_solver. Qed.

(** Either nothing is closed, or it is the channel's socket, outside of a session
    or after both directions have exited. *)
Definition closing ch (fds : list Z) : Prop :=
  fds = [] ∨ fds = live (fd_ (socket_ ch)) ∧
    (in_session (run_pc ch) = false ∨
     run_pc ch ≠ RunWriting ∧ isHealthy ch = false ∧ reader_done_ ch = true).

Lemma run_top_closes fd ch : run_pc ch = RunTop → closing ch (closes (run_top fd ch).2).
Proof.
  intros Hpc. rewrite run_top_eq. destruct (stop_requested_ ch); [by left|]. case_decide.
  - right. split; [apply (closes_run_close (set_state kConnecting ch))|]. left. by rewrite Hpc.
  - right. split; [|left; by rewrite Hpc]. unfold CoSocket_reset, CoSocket_close, live. simpl.
    by case_decide.
Qed.

Lemma wake_closes ch r :
  channel_step UnpackOne EvWake ch = Some r → (run_pc ch = RunWaitReader → isHealthy ch = false) →
  closing ch (closes r.2).
Proof.
  cbn [channel_step]. destruct (cond_runnable _); [|done]. intros Hr Hh.
  destruct (run_pc ch) eqn:Hpc; try done.
  - apply closes_writerLoop in Hr as [?|(Hx & ? & ?)]; [by left|]. right. split; [done|]. right.
    by rewrite Hpc.
  - apply closes_wait_reader in Hr as [?|(? & ?)]; [by left|]. right. split; [done|]. right.
    rewrite Hpc. auto.
Qed.

Lemma reader_closes alloc ch r :
  reader_parse UnpackOne alloc ch = Some r → closes r.2 = [].
Proof.
  unfold reader_parse. destruct (negb _); [by intros [= <-]|].
  destruct (next_bytes _ _ _ _) as [[[p ps] n]|]; [|done]. simpl.
  set (f := failConnection (Status_ProtocolError "bad redis reply") _).
  assert (closes f.2 = []) as Hf by apply closes_fail. destruct f as [c e].
  destruct ps; [destruct n|..]; intros [= <-]; try done.
  unfold dispatchReply. destruct (pending_queue_ _); [apply closes_fail|done].
Qed.

Lemma step_closes o ch r :
  (run_pc ch = RunWaitReader → isHealthy ch = false) →
  channel_step UnpackOne o ch = Some r → closing ch (closes r.2).
Proof.
  intros Hwr Hstep. destruct o; cbn [channel_step] in Hstep.
  - unfold BackendChannel_submit in Hstep. case_decide; simplify_eq; by left.
  - unfold BackendChannel_detachOwner in Hstep. destruct (erase_owner _ _ _). simplify_eq. by left.
  - simplify_eq. by left.
  - left. unfold BackendChannel_stop in Hstep.
    pose proof (closes_fail (Status_Closed "backend stopped") (set_stop true ch)) as Hc.
    destruct (failConnection _ _). simplify_eq. simpl in *. by rewrite closes_app, Hc, closes_shutdown.
  - case_decide; simplify_eq. by apply run_top_closes.
  - case_decide as Hpc; simplify_eq. unfold run_connected. destruct (_ && _); [by left|].
    right. split; [apply closes_run_close|]. left. by rewrite Hpc.
  - case_decide as Hpc; [|done]. apply closes_writerLoop in Hstep as [?|(? & ? & ?)]; [by left|].
    right. split; [done|]. right. by rewrite Hpc.
  - by apply wake_closes.
  - left. case_decide; simplify_eq. unfold run_written. destruct (Status_ok st); [done|].
    pose proof (closes_fail st ch) as Hc. destruct (failConnection _ _). simpl in *.
    by rewrite closes_app, Hc.
  - case_decide; simplify_eq. by left.
  - case_decide; simplify_eq. by left.
  - left. case_decide; simplify_eq. unfold reader_read. destruct (negb _); [done|].
    destruct (Status_ok st); [done|].
    match goal with |- context [failConnection st ?c] => pose proof (closes_fail st c) as Hc end.
    by destruct (failConnection _ _).
  - case_decide; [|done]. left. by eapply reader_closes.
  - case_decide; simplify_eq. by left.
Qed.

Lemma closes_quiet o ch ch' es fd :
  channel_inv ch → channel_step UnpackOne o ch = Some (ch', es) → fd ∈ closes es → quiet ch fd.
Proof.
  intros Hinv Hstep Hfd. pose proof (ci_control _ Hinv) as [C1 C2 C3 C4 C5].
  assert (run_pc ch = RunWaitReader → isHealthy ch = false) as Hwr.
  { intros Hpc. apply bool_decide_eq_false. intros [_ ?]%C2. done. }
  destruct (step_closes o ch _ Hwr Hstep) as [Hc|[Hc Hwhy]]; simpl in *; rewrite Hc in Hfd.
  - by apply elem_of_nil in Hfd.
  - apply live_elem in Hfd. destruct Hwhy as [Hs|(Hw & Hh & Hd)].
    + split_and!; [|by intros Hx; rewrite Hx in Hs|intros [? _]%C2; congruence|done].
      destruct (decide (reader_pc ch = ReaderNone)) as [|Hn%C3]; [done|congruence].
    + split_and!; [by apply C4|done|by apply bool_decide_eq_false in Hh|done].
Qed.

(** *** Who gets which reply *)

(** On the current connection: the sinks of the commands sent so far, and the
    sinks the replies were handed to. *)
Definition history_step (h : list sink * list sink) (e : Effect) : list sink * list sink :=
  match e with
  | EfUp => ([], [])
  | EfSent o _ n => (h.1 ++ replicate (Z.to_nat n) o, h.2)
  | EfReply o _ => (h.1, h.2 ++ [o])
  | _ => h
  end.
Definition history (es : list Effect) : list sink * list sink := foldl history_step ([], []) es.

(** A slot belongs to the sink of its command, or to nobody any more. *)
Definition slot_of (s o : sink) : Prop := s = o ∨ s = None.

Record history_ok (f : Fifo) (h : list sink * list sink) : Prop := {
  ho_down : up f = false → unsent f = [] ∧ slots f = [];
  ho_all : up f = true → length (h.2 ++ slots f) = length h.1;
  ho_match : Forall2 slot_of (h.2 ++ slots f) (take (length (h.2 ++ slots f)) h.1)
}.

Lemma slot_of_blank o s x : slot_of s x → slot_of (blank_sink o s) x.
Proof. unfold slot_of, blank_sink. case_decide; naive_solver. Qed.

Lemma history_sent f h o n rest :
  history_ok f h → up f = true →
  history_ok (mkFifo (up f) rest (slots f ++ replicate n o)) (h.1 ++ replicate n o, h.2).
Proof.
  intros [_ Ha Hm] Hu. specialize (Ha Hu). split; simpl; [congruence| |].
  - intros _. rewrite (assoc_L (++)), !length_app in *. lia.
  - rewrite (assoc_L (++)). rewrite take_ge in Hm by lia.
    rewrite take_ge by (rewrite !length_app in *; lia). apply Forall2_app; [done|].
    apply Forall2_same_length_lookup_2; [done|]. intros i x y Hx Hy. simplify_eq. by left.
Qed.

Lemma history_ok_step f f' e h :
  history_ok f h → fifo_step e f = Some f' → history_ok f' (history_step h e).
Proof.
  intros Hok Hstep. destruct e; simpl in *.
  - repeat case_match; by simplify_eq.
  - case_decide; simplify_eq. destruct Hok as [Hd Ha Hm]. split; simpl; [done|naive_solver|done].
  - case_decide; by simplify_eq.
  - simplify_eq. destruct Hok as [Hd Ha Hm]. split; simpl.
    + intros Hu. by destruct (Hd Hu) as [-> ->].
    + intros Hu. specialize (Ha Hu). by rewrite length_app, length_fmap, <-length_app.
    + rewrite length_app, length_fmap, <-length_app.
      rewrite Forall2_app_inv_l in Hm |- *. destruct Hm as (k1 & k2 & H1 & H2 & Hk).
      exists k1, k2. split_and!; [done| |done]. apply Forall2_fmap_l.
      eapply Forall2_impl; [exact H2|]. intros. by apply slot_of_blank.
  - case_decide; simplify_eq. split; simpl; [done|done|constructor].
  - destruct (unsent f) as [|u rest] eqn:Hu; [done|]. case_decide; simplify_eq.
    apply history_sent; [done|]. destruct (up f) eqn:Hup; [done|].
    apply (ho_down _ _ Hok) in Hup as [Hn _]. by rewrite Hn in Hu.
  - destruct (slots f) as [|x rest] eqn:Hs; [done|]. case_decide; simplify_eq.
    destruct Hok as [Hd Ha Hm]. rewrite Hs in *. split; simpl; rewrite <-?(assoc_L (++)); [|done..].
    intros [_ ?]%Hd. done.
  - case_decide; simplify_eq. destruct Hok as [Hd Ha Hm]. split; simpl; [done|done|].
    rewrite app_nil_r. apply (Forall2_take _ _ _ (length h.2)) in Hm.
    rewrite take_app_length, take_take in Hm. by rewrite Nat.min_l in Hm by (rewrite length_app; lia).
  - by simplify_eq.
Qed.

Lemma history_run es f f' h :
  history_ok f h → fifo_run es f = Some f' → history_ok f' (foldl history_step h es).
Proof.
  revert f h. induction es as [|e es IH]; intros f h Hok; simpl; [by intros [= <-]|].
  destruct (fifo_step e f) as [f1|] eqn:Hstep; simpl; [|done]. intros Hrun.
  eapply IH; [|done]. by eapply history_ok_step.
Qed.

(** *** Claims *)

(** C4: A backend channel is a queue of reply slots.  Over every run from its
    construction on, whatever sessions, kernel and scheduler do, its effects are
    those of the queue: a batch is accepted exactly while the connection is up,
    batches are sent to Redis unchanged and in the order of submission, each
    reply goes to the session of the oldest unanswered command or to nobody if
    that session has detached, a failure tells every session with an
    outstanding command exactly once and empties the queue, and the socket is
    not closed while the connection is up. *)
Theorem channel_refines_fifo endpoint ops ch es :
  forallb op_ok ops = true →
  channel_run UnpackOne ops (BackendChannel_new (C := C) endpoint) = Some (ch, es) →
  fifo_run es (mkFifo false [] []) = Some (abs ch).
Proof. intros Hok Hrun. eapply channel_run_ok in Hrun as [_ Hf]; eauto using channel_inv_new. Qed.

(** The i-th reply received on a connection is handed to the session whose
    command was the i-th sent on it, or dropped because that session has
    detached; there are never more replies handed out than commands sent. *)
Theorem replies_in_order endpoint ops ch es :
  forallb op_ok ops = true →
  channel_run UnpackOne ops (BackendChannel_new (C := C) endpoint) = Some (ch, es) →
  let '(sent, replied) := history es in
  length replied ≤ length sent ∧
  ∀ i s, replied !! i = Some s → ∃ o, sent !! i = Some o ∧ (s = o ∨ s = None).
Proof.
  intros Hok Hrun. eapply channel_run_ok in Hrun as [_ Hf]; eauto using channel_inv_new. simpl in Hf.
  apply (history_run es _ _ ([], [])) in Hf; [|split; simpl; [done|done|constructor]].
  unfold history. destruct (foldl history_step ([], []) es) as [sent replied].
  destruct Hf as [_ _ Hm]. simpl in Hm.
  pose proof (Forall2_length _ _ _ Hm) as Hlen. rewrite length_take, length_app in Hlen.
  split; [lia|]. intros i s Hi. pose proof (lookup_lt_Some _ _ _ Hi).
  destruct (Forall2_lookup_l _ _ _ i s Hm) as (o & Ho & Hs); [by apply lookup_app_l_Some|].
  exists o. split; [|done]. by apply lookup_take_Some in Ho as [? _].
Qed.

(** C14: The load counter is exact.  [queued_commands_] is, modulo 2^64, the
    number of commands queued and not answered yet; every batch owes at least
    one reply, so no reply count ever wraps around; and a channel that is not
    ready has nothing queued. *)
Theorem channel_counters endpoint ch :
  reachable endpoint ch →
  queued_commands_ ch = u64 (total_unsent (write_queue_ ch) + total_pending (pending_queue_ ch)) ∧
  Forall (λ b, 0 < rb_command_count b < 2 ^ 32)%Z (write_queue_ ch) ∧
  Forall (λ b, 0 < pb_remaining_replies b < 2 ^ 32)%Z (pending_queue_ ch) ∧
  (state_ ch ≠ kReady →
     write_queue_ ch = [] ∧ pending_queue_ ch = [] ∧ queued_commands_ ch = 0%Z).
Proof.
  intros [[Qu Qp Qc Qd] _ _ _]%reachable_inv. split_and!; try done.
  intros Hst. destruct (Qd Hst) as [Hw Hq]. split_and!; [done..|]. by rewrite Qc, Hw, Hq.
Qed.

(** C22: The socket is closed, and its descriptor can be reused, only when
    nobody uses it any more: at a step that closes a descriptor it is the
    channel's own, the connection is not up, the reader has exited and no write
    is in progress. *)
Theorem socket_closed_when_quiet endpoint ch o ch' es fd :
  reachable endpoint ch →
  channel_step UnpackOne o ch = Some (ch', es) → EfSys (SysClose fd) ∈ es →
  reader_pc ch = ReaderNone ∧ run_pc ch ≠ RunWriting ∧ state_ ch ≠ kReady ∧ fd = fd_ (socket_ ch).
Proof.
  intros Hinv%reachable_inv Hstep Hin. eapply closes_quiet; [done..|].
  apply list_elem_of_bind. exists (EfSys (SysClose fd)). split; [by left|done].
Qed.

(** Resuming a coroutine always runs to its next suspension. *)
Lemma channel_step_total o ch :
  channel_inv ch → channel_enabled o ch → is_Some (channel_step UnpackOne o ch).
Proof.
  intros Hinv Hen. pose proof (ci_control _ Hinv) as Hco.
  destruct o; cbn [channel_step channel_enabled] in *; try (by rewrite ?decide_True by done).
  - by destruct (BackendChannel_submit _ _ _ _) as [[? ?] ?].
  - rewrite decide_True by done. destruct (writerLoop_ok ch Hinv) as (r & -> & _); [by rewrite Hen..|]. eauto.
  - destruct Hen as [Hpc ->]. destruct Hpc as [Hpc|Hpc]; rewrite Hpc.
    + destruct (writerLoop_ok _ (wake_inv ch Hinv ltac:(by rewrite Hpc))) as (r & -> & _); eauto.
    + destruct (run_wait_reader_ok _ (wake_inv ch Hinv ltac:(by rewrite Hpc))) as (r & -> & _);
        [|done..|eauto].
      simpl. intros [_ Hx]%(co_ready _ _ _ _ _ Hco). by rewrite Hpc in Hx.
  - rewrite decide_True by done. destruct (reader_parse_ok UnpackOne alloc ch Hinv Hen) as (r & -> & _). eauto.
Qed.

(** C15: No wake-up of the writer is lost and no loop hangs.  When the writer is
    suspended although a batch is queued or the connection has gone down, or
    waits for the reader although the reader has exited, it can be resumed; and
    whatever coroutine is resumed, with whatever answer of the kernel, it runs
    to its next suspension. *)
Theorem channel_no_lost_wakeup endpoint ch :
  reachable endpoint ch →
  (run_pc ch = RunWaitWork → write_queue_ ch ≠ [] ∨ state_ ch ≠ kReady → channel_enabled EvWake ch) ∧
  (run_pc ch = RunWaitReader → reader_pc ch = ReaderNone → channel_enabled EvWake ch) ∧
  (∀ o, channel_enabled o ch → is_Some (channel_step UnpackOne o ch)).
Proof.
  intros Hinv%reachable_inv. pose proof (ci_signal _ Hinv) as [S1 S2 S3]. split_and!.
  - intros Hpc Hwork. split; [by left|]. by apply S2.
  - intros Hpc Hr%(co_done _ _ _ _ _ (ci_control _ Hinv)). split; [by right|]. by apply S3.
  - intros o. by apply channel_step_total.
Qed.
End runs.

(** ** A sample run *)

#[global] Instance demo_SetOrder : SetOrder := {| set_order := remove_dups; set_order_perm _ := reflexivity _ |}.

(** Two sessions share the connection; the first one detaches after its batch of
    two was sent, so its second reply is dropped; then the peer closes. *)
Definition demo_channel_ops : list (ChannelOp unit) :=
  [OpStart (Config_default (λ _ _, tt)); EvRun 5; EvConnected Status_Ok; EvWriter; EvReader;
   OpSubmit (Some 1) (ping_frame ++ ping_frame) 2; EvWake; OpSubmit (Some 2) ping_frame 1;
   EvRead Status_Ok (pong_frame ++ take 3 pong_frame); EvWritten Status_Ok; EvParse (λ _, true);
   EvWriter; OpDetach 1; EvParse (λ _, true); EvReader;
   EvRead Status_Ok (drop 3 pong_frame); EvParse (λ _, true); EvParse (λ _, true); EvReader;
   EvRead (Status_Closed "peer closed") []].

(** Afterwards both directions exit and [run] closes the socket. *)
Definition demo_channel_end : list (ChannelOp unit) :=
  demo_channel_ops ++ [EvReaderEnd; EvWritten Status_Ok; EvWriter].

(** The channel after the first [n] operations. *)
Definition demo_channel_at (n : nat) : BackendChannel demo_cond unit :=
  from_option fst (BackendChannel_new tt)
    (channel_run demo_unpack (take n demo_channel_end) (BackendChannel_new tt)).

Definition demo_channel_run : option (BackendChannel demo_cond unit * list Effect) :=
  channel_run demo_unpack demo_channel_ops (BackendChannel_new tt).
Definition demo_channel : BackendChannel demo_cond unit :=
  from_option fst (BackendChannel_new tt) demo_channel_run.
Definition demo_effects : list Effect := from_option snd [] demo_channel_run.

Lemma channel_refines_fifo_witness :
  demo_effects =
    [EfUp; EfSubmitted (Some 1) (ping_frame ++ ping_frame) 2;
     EfSent (Some 1) (ping_frame ++ ping_frame) 2; EfSubmitted (Some 2) ping_frame 1;
     EfBuf (BufIn (pong_frame ++ take 3 pong_frame)); EfBuf BufWritten;
     EfReply (Some 1) pong_frame; EfSent (Some 2) ping_frame 1; EfDetached 1;
     EfBuf (BufIn (drop 3 pong_frame)); EfReply None pong_frame; EfBuf (BufIn []);
     EfSys (SysShutdown 5 SHUT_RDWR);
     EfDown (Status_Closed "peer closed") [2]] ∧
  fifo_run demo_effects (mkFifo false [] []) = Some (abs demo_channel).
Proof.
  split; [vm_compute; reflexivity|].
  apply (channel_refines_fifo demo_unpack tt demo_channel_ops); vm_compute; reflexivity.
Defined.

Lemma replies_in_order_witness :
  history demo_effects = ([Some 1; Some 1; Some 2], [Some 1; None]) ∧
  (length [Some 1; None] ≤ length [Some 1; Some 1; Some 2] ∧
   ∀ i s, [Some 1; None] !! i = Some s →
     ∃ o, [Some 1; Some 1; Some 2] !! i = Some o ∧ (s = o ∨ s = None)).
Proof.
  split; [vm_compute; reflexivity|].
  apply (replies_in_order demo_unpack tt demo_channel_ops demo_channel demo_effects);
    vm_compute; reflexivity.
Defined.

(** After session 2 has queued its command: two commands sent, one waiting. *)
Lemma channel_counters_witness :
  queued_commands_ (demo_channel_at 8) = 3%Z ∧
  queued_commands_ (demo_channel_at 8) =
    u64 (total_unsent (write_queue_ (demo_channel_at 8)) +
         total_pending (pending_queue_ (demo_channel_at 8))).
Proof.
  split; [vm_compute; reflexivity|].
  apply (channel_counters demo_unpack tt).
  exists (take 8 demo_channel_end). eexists. split; vm_compute; reflexivity.
Defined.

Lemma socket_closed_when_quiet_witness :
  reader_pc (demo_channel_at 22) = ReaderNone ∧ run_pc (demo_channel_at 22) ≠ RunWriting ∧
  state_ (demo_channel_at 22) ≠ kReady ∧ 5%Z = fd_ (socket_ (demo_channel_at 22)).
Proof.
  apply (socket_closed_when_quiet demo_unpack tt (demo_channel_at 22) EvWriter
           (demo_channel_at 23) [EfSys (SysClose 5); EfBuf BufCleared]).
  - exists (take 22 demo_channel_end). eexists. split; vm_compute; reflexivity.
  - vm_compute. reflexivity.
  - left.
Defined.

(** The writer sleeps on its signal when the first batch is submitted. *)
Lemma channel_no_lost_wakeup_witness :
  run_pc (demo_channel_at 6) = RunWaitWork ∧
  channel_enabled EvWake (demo_channel_at 6).
Proof.
  split; [vm_compute; reflexivity|].
  refine (proj1 (channel_no_lost_wakeup demo_unpack tt (demo_channel_at 6) _) _ _).
  - exists (take 6 demo_channel_end). eexists. split; vm_compute; reflexivity.
  - vm_compute. reflexivity.
  - left. vm_compute. discriminate.
Defined.
