(* ===== verification/ChannelStop.v ===== *)
(** * A channel that is told to stop stops

    After [stop] a channel never gets ready again.  Whatever its socket answers,
    its coroutines run out of steps, and when they have, [isStopped] holds. *)
From S2P Require Import Prelude Status RespParser CoSocket CoroutineSignal Config.
From S2P Require Import BackendChannel ChannelInv ChannelProps.

(** Steps the channel takes by itself. *)
Definition internal {Endpoint} (o : ChannelOp Endpoint) : Prop :=
  match o with OpSubmit _ _ _ | OpDetach _ | OpStart _ | OpStop => False | _ => True end.

(** How far the coroutines are from their ends. *)
Definition run_rank (pc : RunPc) : nat :=
  match pc with
  | RunNone => 0 | RunTop => 1 | RunSleep | RunConnecting | RunWaitReader => 2
  | RunWriterTop | RunWaitWork => 3 | RunWriting => 4
  end.
Definition reader_rank (pc : ReaderPc) : nat :=
  match pc with ReaderNone => 0 | ReaderEnd => 1 | ReaderTop | ReaderReading => 2 | ReaderParsing => 3 end.

Section stop.
Context {C : Type} {cond : CoCond C} {laws : CoCondLaws C} {order : SetOrder} {Endpoint : Type}.
Context (UnpackOne : bytes → nat → RespLimits → RespResult).
Implicit Types (ch : BackendChannel C Endpoint).

(** A wait that can return counts as a step to come. *)
Definition remaining ch : nat :=
  2 * run_rank (run_pc ch) + 2 * reader_rank (reader_pc ch) +
  (if on_signal (run_pc ch) && cond_runnable (cond_ (writer_signal_ ch)) then 1 else 0).

Definition stop_down ch : Prop := stop_requested_ ch = true → state_ ch ≠ kReady.

Lemma fail_down st ch : state_ (failConnection st ch).1 ≠ kReady.
Proof. unfold failConnection. by case_decide. Qed.

Lemma fail_quiet st ch : state_ ch ≠ kReady → failConnection st ch = (ch, []).
Proof. intros Hst. unfold failConnection. by rewrite decide_True. Qed.

Lemma close_down ch : stop_down ch → stop_down (run_close ch).1.
Proof. by unfold run_close; destruct (CoSocket_close _). Qed.

Lemma wait_reader_down ch r : run_wait_reader 2 ch = Some r → stop_down ch → stop_down r.1.
Proof.
  simpl. unfold wait. repeat case_match; intros [= <-] Hd; try apply close_down; done.
Qed.

Lemma writer_down ch r : writerLoop 2 ch = Some r → stop_down ch → stop_down r.1.
Proof.
  cbn [writerLoop]. unfold wait.
  repeat case_match; try (by intros Hr Hd; eapply wait_reader_down); by intros [= <-].
Qed.

Lemma parse_down alloc ch r : reader_parse UnpackOne alloc ch = Some r → stop_down ch → stop_down r.1.
Proof.
  unfold reader_parse. destruct (negb _); [by intros [= <-]|].
  destruct (next_bytes _ _ _ _) as [[[p ps] n]|]; [|done]. simpl.
  set (f := failConnection (Status_ProtocolError "bad redis reply") _).
  assert (stop_down f.1) as Hf by (intros _; apply fail_down). destruct f as [c e].
  destruct ps; [destruct n|..]; intros [= <-] Hd; try done.
  unfold dispatchReply. destruct (pending_queue_ _); [intros _; apply fail_down|done].
Qed.

Lemma step_down o ch r : channel_step UnpackOne o ch = Some r → stop_down ch → stop_down r.1.
Proof.
  intros Hstep Hd. destruct o; cbn [channel_step] in Hstep.
  - unfold BackendChannel_submit in Hstep. case_decide; by simplify_eq.
  - simplify_eq. unfold BackendChannel_detachOwner. by destruct (erase_owner _ _ _).
  - simplify_eq. unfold BackendChannel_start. by destruct (negb _).
  - simplify_eq. unfold BackendChannel_stop. pose proof (fail_down (Status_Closed "backend stopped") (set_stop true ch)) as Hf.
    destruct (failConnection _ _). by intros _.
  - case_decide; simplify_eq. rewrite run_top_eq. destruct (stop_requested_ ch) eqn:Hs; [done|].
    case_decide; [by apply close_down|]. simpl. unfold stop_down. simpl. congruence.
  - case_decide; simplify_eq. unfold run_connected. destruct (Status_ok st && negb (stop_requested_ ch)) eqn:Hs.
    + apply andb_true_iff in Hs as [_ Hs]. unfold stop_down. simpl. intros Hx. by rewrite Hx in Hs.
    + by apply close_down.
  - case_decide; [|done]. by eapply writer_down.
  - destruct (cond_runnable _); [|done]. destruct (run_pc ch); try done; [by eapply writer_down|by eapply wait_reader_down].
  - case_decide; simplify_eq. unfold run_written. destruct (Status_ok st); [done|].
    pose proof (fail_down st ch) as Hf. destruct (failConnection st ch). by intros _.
  - case_decide; by simplify_eq.
  - case_decide; by simplify_eq.
  - case_decide; simplify_eq. unfold reader_read. destruct (negb _); [done|]. destruct (Status_ok st); [done|].
    match goal with |- context [failConnection st ?c] => pose proof (fail_down st c) as Hf end.
    destruct (failConnection _ _). by intros _.
  - case_decide; [|done]. by eapply parse_down.
  - case_decide; by simplify_eq.
Qed.

(** *** Progress *)

Section stopping.
Context (ch : BackendChannel C Endpoint).
Hypothesis (Hinv : channel_inv ch) (Hstop : stop_requested_ ch = true) (Hdown : state_ ch ≠ kReady).

Lemma stopping_unhealthy : isHealthy ch = false.
Proof. by apply bool_decide_eq_false. Qed.

(** A step that keeps the request and comes closer to the end. *)
Definition closer (r : BackendChannel C Endpoint * list Effect) : Prop :=
  stop_requested_ r.1 = true ∧ remaining r.1 < remaining ch.

(** The wait for the reader, entered from [pc]. *)
Lemma wait_reader_closer ch0 r :
  run_wait_reader 2 ch0 = Some r →
  reader_pc ch0 = reader_pc ch → stop_requested_ ch0 = true → cond_waits (cond_ (writer_signal_ ch0)) = false →
  in_session (run_pc ch) = true →
  (run_pc ch = RunWaitReader → cond_runnable (cond_ (writer_signal_ ch)) = true) →
  closer r.
Proof.
  intros Hr Hrd Hs Hw Hses Hrun. revert Hr. simpl. unfold wait.
  assert (2 ≤ run_rank (run_pc ch)) as Hrank by (by destruct (run_pc ch); simpl in *; try done; lia).
  assert (closer (run_close ch0)) as Hclose.
  { unfold closer, remaining, run_close. simpl. destruct (CoSocket_close (socket_ ch0)). simpl.
    rewrite Hs, Hrd. simpl. split; [done|lia]. }
  assert (∀ g, cond_runnable (cond_ g) = false →
    closer (set_run RunWaitReader (set_signal g ch0), [])) as Hwait.
  { intros g Hg. unfold closer, remaining. simpl. rewrite Hg, Hrd. split; [done|].
    destruct (run_pc ch) eqn:Hpc; simpl in *; try done; try rewrite Hrun by done; simpl; lia. }
  destruct (cond_suspend_waits _ Hw) as [_ Hnr].
  destruct (reader_done_ ch0) eqn:Hd; [by intros [= <-]|].
  destruct (pending_ (writer_signal_ ch0)); simpl; rewrite ?Hd; intros [= <-]; by apply Hwait.
Qed.

Lemma stop_step o r :
  internal o → channel_step UnpackOne o ch = Some r → closer r.
Proof.
  pose proof stopping_unhealthy as Hh. intros Ho Hstep.
  assert (on_signal (run_pc ch) = false → cond_waits (cond_ (writer_signal_ ch)) = false) as Hidle.
  { intros Hpc. by rewrite (so_waits _ _ _ _ _ (ci_signal _ Hinv)). }
  destruct o; try done; cbn [channel_step] in Hstep.
  - case_decide as Hpc; simplify_eq. rewrite run_top_eq. unfold closer, remaining. rewrite Hstop, Hpc. simpl. split; [done|lia].
  - case_decide as Hpc; simplify_eq. unfold run_connected. rewrite Hstop, andb_false_r.
    unfold closer, remaining, run_close. destruct (CoSocket_close _). simpl. rewrite Hstop, Hpc. simpl. split; [done|lia].
  - case_decide as Hpc; [|done]. cbn [writerLoop] in Hstep. rewrite Hh in Hstep. simpl negb in Hstep.
    eapply (wait_reader_closer ch r); try done; [by apply Hidle; rewrite Hpc|by rewrite Hpc..].
  - destruct (cond_runnable (cond_ (writer_signal_ ch))) eqn:Hrun; [|done].
    assert (∀ r, run_wait_reader 2 (set_run RunWriterTop (set_signal (wait_return (writer_signal_ ch)) ch)) = Some r →
              in_session (run_pc ch) = true → closer r) as Hwake.
    { intros r' Hr' Hses. eapply (wait_reader_closer _ r' Hr'); try done. apply cond_return_idle. }
    destruct (run_pc ch) eqn:Hpc; try done; [|by apply Hwake].
    cbn [writerLoop] in Hstep. change (isHealthy _) with (isHealthy ch) in Hstep at 1. rewrite Hh in Hstep.
    by apply Hwake.
  - case_decide as Hpc; simplify_eq. unfold run_written, closer, remaining. rewrite fail_quiet by done.
    destruct (Status_ok st); simpl; rewrite Hpc; simpl; (split; [done|lia]).
  - case_decide as Hpc; simplify_eq. unfold closer, remaining. simpl. rewrite Hpc. simpl. split; [done|lia].
  - case_decide as Hpc; simplify_eq. unfold closer, remaining, reader_top. simpl. rewrite Hh, Hpc. simpl. split; [done|lia].
  - case_decide as Hpc; simplify_eq. destruct Hpc as [Hpc _]. unfold reader_read.
    change (isHealthy (set_input _ _ ch)) with (isHealthy ch). rewrite Hh. unfold closer, remaining. simpl.
    rewrite Hpc. simpl. split; [done|lia].
  - case_decide as Hpc; [|done]. unfold reader_parse in Hstep. rewrite Hh in Hstep. simplify_eq/=.
    unfold closer, remaining. simpl. rewrite Hpc. simpl. split; [done|lia].
  - case_decide as Hpc; simplify_eq. unfold closer, remaining, reader_end. simpl. rewrite Hpc. simpl.
    split; [done|]. repeat case_match; lia.
Qed.

(** Until the channel has stopped there is a step to take. *)
Lemma stop_enabled : state_ ch ≠ kStopped → ∃ o, internal o ∧ channel_enabled o ch.
Proof.
  intros Hns. pose proof (ci_control _ Hinv) as [C1 C2 C3 C4 C5]. pose proof (ci_signal _ Hinv) as [S1 S2 S3].
  destruct (run_pc ch) eqn:Hpc.
  - exfalso. apply Hns. by apply C1.
  - by exists (EvRun 0).
  - by exists (EvConnected Status_Ok).
  - by exists EvWriter.
  - exists EvWake. split; [done|]. split; [by left|]. by apply S2; [|right].
  - by exists (EvWritten Status_Ok).
  - destruct (reader_pc ch) eqn:Hrd.
    + exists EvWake. split; [done|]. split; [by right|]. by apply S3; [|apply C4].
    + by exists EvReader.
    + by exists (EvRead (Status_Closed "") []).
    + by exists (EvParse (λ _, true)).
    + by exists EvReaderEnd.
  - by exists EvSlept.
Qed.
End stopping.

Lemma remaining_bound ch : remaining ch ≤ 14.
Proof. unfold remaining. destruct (run_pc ch), (reader_pc ch), (cond_runnable _); simpl; lia. Qed.

Lemma reachable_down endpoint ch : reachable UnpackOne endpoint ch → stop_down ch.
Proof.
  intros (ops & es & _ & Hrun). revert Hrun.
  assert (stop_down (BackendChannel_new (C := C) endpoint)) as H0 by done. revert H0.
  generalize (BackendChannel_new (C := C) endpoint). revert es.
  induction ops as [|o ops IH]; intros es ch0 H0; simpl; [by intros [= <- _]|].
  destruct (channel_step UnpackOne o ch0) as [[ch1 es1]|] eqn:Hstep; simpl; [|done].
  destruct (channel_run UnpackOne ops ch1) as [[ch2 es2]|] eqn:Hrun; simpl; [|done]. intros [= <- _].
  eapply IH; [|exact Hrun]. by apply (step_down o ch0 (ch1, es1)).
Qed.

Lemma internal_op_ok (o : ChannelOp Endpoint) : internal o → op_ok o = true.
Proof. by destruct o. Qed.

(** A run of a stopping channel. *)
Lemma stop_run ops ch ch' es :
  channel_inv ch → stop_requested_ ch = true → state_ ch ≠ kReady →
  Forall internal ops → channel_run UnpackOne ops ch = Some (ch', es) →
  length ops + remaining ch' ≤ remaining ch ∧ channel_inv ch' ∧ stop_requested_ ch' = true ∧ state_ ch' ≠ kReady.
Proof.
  intros Hinv Hs Hd Hops. revert ch es Hinv Hs Hd.
  induction Hops as [|o ops Ho Hops IH]; intros ch es Hinv Hs Hd; cbn [channel_run length]; [by intros [= <- _]|].
  destruct (channel_step UnpackOne o ch) as [[ch1 es1]|] eqn:Hstep; simpl; [|done].
  destruct (channel_run UnpackOne ops ch1) as [[ch2 es2]|] eqn:Hrun; simpl; [|done]. intros [= <- _].
  destruct (stop_step ch Hinv Hs Hd o _ Ho Hstep) as [Hs1 Hlt]. simpl in Hs1, Hlt.
  destruct (channel_step_ok UnpackOne o ch _ (internal_op_ok o Ho) Hinv Hstep) as [Hinv1 _]. simpl in Hinv1.
  pose proof (step_down o ch _ Hstep (λ _, Hd) Hs1) as Hd1.
  destruct (IH ch1 es2 Hinv1 Hs1 Hd1 Hrun) as (Hle & ? & ? & ?). split_and!; [lia|done..].
Qed.

(** C17: A channel that was told to stop stops.  After [stop], whatever the socket
    answers and however its coroutines interleave, they take at most 14 more steps;
    until they have, some step can be taken; and once none can, [isStopped] holds.
    No step brings the connection up again. *)
Theorem stop_terminates endpoint ch ops ch' es :
  reachable UnpackOne endpoint ch → stop_requested_ ch = true →
  Forall internal ops → channel_run UnpackOne ops ch = Some (ch', es) →
  length ops ≤ 14 ∧ state_ ch' ≠ kReady ∧
  (isStopped ch' = true ∨ ∃ o, internal o ∧ is_Some (channel_step UnpackOne o ch')).
Proof.
  intros Hr Hs Hops Hrun. pose proof (reachable_inv UnpackOne endpoint ch Hr) as Hinv.
  destruct (stop_run ops ch ch' es Hinv Hs (reachable_down endpoint ch Hr Hs) Hops Hrun) as (Hle & Hinv' & Hs' & Hd').
  pose proof (remaining_bound ch). split_and!; [lia|done|].
  destruct (decide (state_ ch' = kStopped)) as [Hst|Hst]; [left; by apply bool_decide_eq_true|right].
  destruct (stop_enabled ch' Hinv' Hd' Hst) as (o & Ho & Hen). exists o. split; [done|].
  by apply channel_step_total.
Qed.
End stop.

(** ** A sample run *)

(** The channel of the sample run is stopped while a batch is being written. *)
Definition demo_stopped : BackendChannel demo_cond unit :=
  from_option fst (BackendChannel_new tt)
    (channel_run demo_unpack (take 7 demo_channel_ops ++ [OpStop]) (BackendChannel_new tt)).

Definition demo_stop_ops : list (ChannelOp unit) :=
  [EvWritten (Status_IoError "broken"); EvWriter; EvRead (Status_Closed "") []; EvReaderEnd; EvWake; EvRun 0].

Lemma demo_stopped_reachable : reachable demo_unpack tt demo_stopped.
Proof.
  exists (take 7 demo_channel_ops ++ [OpStop]).
  assert (bool_decide (is_Some (channel_run demo_unpack (take 7 demo_channel_ops ++ [OpStop])
            (BackendChannel_new (C := demo_cond) tt))) = true) as Hs by (vm_compute; reflexivity).
  apply bool_decide_eq_true in Hs as [[ch es] Hrun]. exists es. split; [reflexivity|].
  unfold demo_stopped. by rewrite Hrun.
Qed.

Lemma demo_stop_runs :
  ∃ ch es, channel_run demo_unpack demo_stop_ops demo_stopped = Some (ch, es) ∧ isStopped ch = true.
Proof.
  assert (from_option (λ r, isStopped r.1) false (channel_run demo_unpack demo_stop_ops demo_stopped) = true)
    as Hend by (vm_compute; reflexivity).
  revert Hend. generalize (channel_run demo_unpack demo_stop_ops demo_stopped).
  intros [[ch es]|]; simpl; [eauto|done].
Qed.

Lemma demo_stopped_requested : stop_requested_ demo_stopped = true.
Proof. vm_compute. reflexivity. Qed.

Lemma stop_terminates_witness :
  ∃ ch : BackendChannel demo_cond unit, isStopped ch = true ∧ state_ ch ≠ kReady ∧ length demo_stop_ops ≤ 14.
Proof.
  destruct demo_stop_runs as (ch & es & Hrun & Hst). exists ch. split; [exact Hst|].
  destruct (stop_terminates demo_unpack tt demo_stopped demo_stop_ops ch es demo_stopped_reachable
              demo_stopped_requested ltac:(repeat constructor) Hrun) as (Hle & Hd & _).
  split; [exact Hd|exact Hle].
Defined.
