(* ===== verification/ChannelSend.v ===== *)
(** * A queued batch is sent

    As long as the connection stays up, every step of the writer brings a queued
    batch closer to the socket, and no other step takes it further away. *)
From S2P Require Import Prelude Status RespParser CoSocket CoroutineSignal Config.
From S2P Require Import BackendChannel ChannelInv ChannelProps ChannelStop.

(** The steps of the coroutine that writes. *)
Definition writes {Endpoint} (o : ChannelOp Endpoint) : Prop :=
  match o with EvWriter | EvWake | EvWritten _ => True | _ => False end.

Section send.
Context {C : Type} {cond : CoCond C} {laws : CoCondLaws C} {order : SetOrder} {Endpoint : Type}.
Context (UnpackOne : bytes → nat → RespLimits → RespResult).
Implicit Types (ch : BackendChannel C Endpoint) (b : RequestBatch).

(** Steps of the writer until it sends the batch that has [n] others before it. *)
Definition until_sent (n : nat) ch : nat :=
  2 * n + match run_pc ch with RunWriting => 2 | _ => 1 end.

(** [b] is still queued, at most [d] steps away. *)
Definition queued_within b (d : nat) ch : Prop :=
  ∃ pre post, write_queue_ ch = pre ++ b :: post ∧ until_sent (length pre) ch ≤ d.

(** The connection is down, or [P]. *)
Definition unless_down (P : BackendChannel C Endpoint → Prop) ch : Prop := state_ ch ≠ kReady ∨ P ch.

Section batch.
Context (ch : BackendChannel C Endpoint) (pre : list RequestBatch) (b : RequestBatch) (post : list RequestBatch).
Hypothesis (Hinv : channel_inv ch) (Hq : write_queue_ ch = pre ++ b :: post).

Lemma queue_ready : state_ ch = kReady.
Proof.
  destruct (decide (state_ ch = kReady)) as [|Hst]; [done|].
  apply (qo_down _ _ _ _ (ci_queues _ Hinv)) in Hst as [Hw _]. rewrite Hw in Hq. by destruct pre.
Qed.

Lemma queue_healthy : isHealthy ch = true.
Proof. apply bool_decide_eq_true, queue_ready. Qed.

(** Nothing that matters changed. *)
Lemma same_within ch' :
  write_queue_ ch' = write_queue_ ch → run_pc ch' = run_pc ch →
  queued_within b (until_sent (length pre) ch) ch'.
Proof. intros Hw Hpc. exists pre, post. split; [by rewrite Hw|]. unfold until_sent. by rewrite Hpc. Qed.

(** The writer takes the first batch. *)
Lemma writer_sends ch0 r :
  writerLoop 2 ch0 = Some r → isHealthy ch0 = true → write_queue_ ch0 = write_queue_ ch →
  EfSent (rb_owner b) (rb_bytes b) (rb_command_count b) ∈ r.2 ∨
  queued_within b (2 * length pre) r.1.
Proof.
  cbn [writerLoop]. intros Hr Hh Hw. rewrite Hh, Hw, Hq in Hr. destruct pre as [|x l]; simplify_eq/=.
  - left. set_solver.
  - right. exists l, post. split; [done|]. unfold until_sent. simpl. lia.
Qed.

Lemma parse_keeps alloc r :
  reader_parse UnpackOne alloc ch = Some r →
  unless_down (queued_within b (until_sent (length pre) ch)) r.1.
Proof.
  unfold reader_parse. rewrite queue_healthy. simpl.
  destruct (next_bytes _ _ _ _) as [[[p ps] n]|]; [|done]. simpl.
  set (f := failConnection (Status_ProtocolError "bad redis reply") _).
  assert (state_ f.1 ≠ kReady) as Hf by apply fail_down. destruct f as [c e].
  destruct ps; [destruct n|..]; intros [= <-]; try (by left); try (by right; apply same_within).
  unfold dispatchReply. destruct (pending_queue_ _); [left; apply fail_down|right; by apply same_within].
Qed.

Lemma detach_keeps owner :
  rb_owner b ≠ Some owner →
  queued_within b (until_sent (length pre) ch) (BackendChannel_detachOwner owner ch).1.
Proof.
  intros Hb. unfold BackendChannel_detachOwner.
  destruct (erase_owner_spec owner (write_queue_ ch) (queued_commands_ ch)) as [Hw _].
  destruct (erase_owner _ _ _) as [wq n]. simplify_eq/=.
  exists (filter (λ b, rb_owner b ≠ Some owner) pre), (filter (λ b, rb_owner b ≠ Some owner) post).
  split; simpl.
  - rewrite Hq, filter_app, filter_cons_True by done. done.
  - unfold until_sent. simpl. pose proof (length_filter (λ b, rb_owner b ≠ Some owner) pre). lia.
Qed.

(** What a step of anybody else does. *)
Lemma other_keeps o ch' es :
  ¬ writes o → channel_step UnpackOne o ch = Some (ch', es) →
  (∃ owner, o = OpDetach owner ∧ rb_owner b = Some owner) ∨
  unless_down (queued_within b (until_sent (length pre) ch)) ch'.
Proof.
  pose proof queue_ready as Hst. pose proof queue_healthy as Hh.
  destruct (co_ready _ _ _ _ _ (ci_control _ Hinv) Hst) as [Hses _].
  intros Hno Hstep. destruct o; cbn [channel_step] in Hstep; try (by destruct Hno).
  - right. right. unfold BackendChannel_submit in Hstep. case_decide; injection Hstep as <- <-; [by apply same_within|].
    exists pre, (post ++ [mkRequestBatch owner data count]). simpl. rewrite Hq. by rewrite <-(assoc_L (++)).
  - destruct (decide (rb_owner b = Some owner)) as [|Hne]; [left; eauto|]. right. right. injection Hstep as Hstep.
    pose proof (detach_keeps owner Hne) as Hd. by rewrite Hstep in Hd.
  - right. right. injection Hstep as <- <-. unfold BackendChannel_start, isStopped. rewrite Hst. simpl. by apply same_within.
  - right. left. unfold BackendChannel_stop in Hstep.
    pose proof (fail_down (Status_Closed "backend stopped") (set_stop true ch)) as Hf.
    destruct (failConnection _ _). by injection Hstep as <- <-.
  - case_decide as Hpc; [|done]. by rewrite Hpc in Hses.
  - case_decide as Hpc; [|done]. by rewrite Hpc in Hses.
  - case_decide as Hpc; [|done]. by rewrite Hpc in Hses.
  - case_decide; [|done]. injection Hstep as <- <-. right. right. by apply same_within.
  - case_decide; [|done]. right. injection Hstep as Hstep. unfold reader_read in Hstep.
    change (isHealthy (set_input _ _ ch)) with (isHealthy ch) in Hstep. rewrite Hh in Hstep. simpl in Hstep.
    destruct (Status_ok st); [injection Hstep as <- <-; right; by apply same_within|].
    match type of Hstep with context [failConnection st ?c] => pose proof (fail_down st c) as Hf end.
    destruct (failConnection _ _). injection Hstep as <- <-. by left.
  - case_decide; [|done]. right. apply parse_keeps in Hstep. done.
  - case_decide; [|done]. injection Hstep as <- <-. right. right. by apply same_within.
Qed.

(** What a step of the writer does. *)
Lemma writer_closer o ch' es :
  writes o → channel_step UnpackOne o ch = Some (ch', es) →
  EfSent (rb_owner b) (rb_bytes b) (rb_command_count b) ∈ es ∨
  unless_down (λ ch', ∃ d, d < until_sent (length pre) ch ∧ queued_within b d ch') ch'.
Proof.
  pose proof queue_ready as Hst. pose proof queue_healthy as Hh.
  destruct (co_ready _ _ _ _ _ (ci_control _ Hinv) Hst) as [_ Hnr].
  intros Hw Hstep. destruct o; cbn [channel_step] in Hstep; try (by destruct Hw).
  - case_decide as Hpc; [|done]. apply writer_sends in Hstep as [?|?]; [by left| |done..].
    right. right. exists (2 * length pre). unfold until_sent. rewrite Hpc. split; [lia|done].
  - destruct (cond_runnable _); [|done]. destruct (run_pc ch) eqn:Hpc; try done.
    apply writer_sends in Hstep as [?|?]; [by left| |done..].
    right. right. exists (2 * length pre). unfold until_sent. rewrite Hpc. split; [lia|done].
  - right. case_decide as Hpc; [|done]. injection Hstep as Hstep. unfold run_written in Hstep. destruct (Status_ok st).
    + injection Hstep as <- <-. right. exists (2 * length pre + 1). unfold until_sent. rewrite Hpc. split; [lia|].
      exists pre, post. split; [done|]. unfold until_sent. simpl. lia.
    + left. pose proof (fail_down st ch) as Hf. destruct (failConnection st ch). by injection Hstep as <- <-.
Qed.

Lemma writer_enabled : ∃ o : ChannelOp Endpoint, writes o ∧ channel_enabled o ch.
Proof.
  pose proof queue_ready as Hst. pose proof (ci_signal _ Hinv) as [_ S2 _].
  destruct (co_ready _ _ _ _ _ (ci_control _ Hinv) Hst) as [Hses Hnr].
  destruct (run_pc ch) eqn:Hpc; try done.
  - by exists EvWriter.
  - exists EvWake. split; [done|]. split; [by left|]. apply S2; [done|]. left. rewrite Hq. by destruct pre.
  - by exists (EvWritten Status_Ok).
Qed.
End batch.

(** C16: A queued batch gets to the socket.  When a batch waits in [write_queue_], the
    writer can take a step; each step it takes sends the batch, or comes closer to
    sending it, or finds that the connection has failed; and nothing anybody else does,
    further submissions included, puts the batch further back: it stays in its place
    unless its owner detaches or the connection goes down.  With [n] batches before
    it the batch is sent within [2 n + 2] steps of the writer. *)
Theorem queued_batch_is_sent endpoint ch pre b post :
  reachable UnpackOne endpoint ch → write_queue_ ch = pre ++ b :: post →
  until_sent (length pre) ch ≤ 2 * length pre + 2 ∧
  (∃ o : ChannelOp Endpoint, writes o ∧ channel_enabled o ch) ∧
  ∀ o ch' es, channel_step UnpackOne o ch = Some (ch', es) →
    (writes o → EfSent (rb_owner b) (rb_bytes b) (rb_command_count b) ∈ es ∨ state_ ch' ≠ kReady ∨
       ∃ pre' post', write_queue_ ch' = pre' ++ b :: post' ∧
         until_sent (length pre') ch' < until_sent (length pre) ch) ∧
    (¬ writes o → (∃ owner, o = OpDetach owner ∧ rb_owner b = Some owner) ∨ state_ ch' ≠ kReady ∨
       ∃ pre' post', write_queue_ ch' = pre' ++ b :: post' ∧
         until_sent (length pre') ch' ≤ until_sent (length pre) ch).
Proof.
  intros Hinv%reachable_inv Hq. split_and!.
  - unfold until_sent. destruct (run_pc ch); lia.
  - by eapply writer_enabled.
  - intros o ch' es Hstep. split; intros Ho.
    + destruct (writer_closer ch pre b post Hinv Hq o ch' es Ho Hstep) as [?|[?|(d & Hd & pre' & post' & ? & ?)]]; [by left|by right; left|].
      right. right. exists pre', post'. split; [done|lia].
    + destruct (other_keeps ch pre b post Hinv Hq o ch' es Ho Hstep) as [?|[?|?]]; auto.
Qed.
End send.

(** Session 2 has queued its command while the batch of session 1 is being written. *)
Lemma queued_batch_is_sent_witness :
  write_queue_ (demo_channel_at 8) = [mkRequestBatch (Some 2) ping_frame 1] ∧
  until_sent 0 (demo_channel_at 8) = 2 ∧
  ∃ o : ChannelOp unit, writes o ∧ channel_enabled o (demo_channel_at 8).
Proof.
  split_and!; [vm_compute; reflexivity..|].
  refine (proj1 (proj2 (queued_batch_is_sent demo_unpack tt (demo_channel_at 8) []
                          (mkRequestBatch (Some 2) ping_frame 1) [] _ _))).
  - exists (take 8 demo_channel_end). eexists. split; vm_compute; reflexivity.
  - vm_compute. reflexivity.
Defined.
