(* ===== verification/BackendPool.v ===== *)
(** * BackendPool: choosing a connection
    (include/redis_proxy/backend_pool.h, src/backend_pool.cpp)

    A [BackendChannel*] is an index into [channels_]; [None] is [nullptr].
    Effects carry the index of the channel that shows them. *)
From S2P Require Import Prelude Status RespParser CoSocket CoroutineSignal Config.
From S2P Require Import BackendChannel ChannelInv ChannelProps.

Section pool.
Context {C : Type} {cond : CoCond C} {order : SetOrder} {Endpoint : Type}.

Record BackendPool := mkBackendPool {
  config_ : Config Endpoint;
  channels_ : list (BackendChannel C Endpoint)
}.
Implicit Types (pool : BackendPool) (ch : BackendChannel C Endpoint).

Definition set_channels (l : list (BackendChannel C Endpoint)) (pool : BackendPool) : BackendPool :=
  mkBackendPool (config_ pool) l.

Definition BackendPool_new (config : Config Endpoint) : BackendPool :=
  mkBackendPool config
    (replicate (Z.to_nat (backend_conns_per_worker config)) (BackendChannel_new (redis config))).

Definition BackendPool_start pool : BackendPool :=
  set_channels (BackendChannel_start (config_ pool) <$> channels_ pool) pool.

Definition BackendPool_isStopped pool : bool := forallb isStopped (channels_ pool).

(** Without the callbacks; detaching makes none. *)
Definition BackendPool_detachOwner (owner : nat) pool : BackendPool * list (nat * Effect) :=
  (set_channels ((λ ch, (BackendChannel_detachOwner owner ch).1) <$> channels_ pool) pool,
   imap (λ i _, (i, EfDetached owner)) (channels_ pool)).

(** The loop of [select]: [best] is the best channel so far and its load, [i]
    the index of the first one in [l]. *)
Fixpoint select_loop (best : option (nat * Z)) (i : nat) (l : list (BackendChannel C Endpoint)) :
    option (nat * Z) :=
  match l with
  | [] => best
  | ch :: l =>
      let better :=
        isHealthy ch &&
        match best with
        | None => true
        | Some (_, load) => bool_decide (queuedCommandCount ch < load)%Z
        end in
      select_loop (if better then Some (i, queuedCommandCount ch) else best) (S i) l
  end.

Definition select pool (current : option nat) : option nat :=
  match current with
  | Some i => if from_option isHealthy false (channels_ pool !! i) then Some i else None
  | None => fst <$> select_loop None 0 (channels_ pool)
  end.

Definition BackendPool_submit (owner : sink) (current : option nat) (data : bytes)
    (command_count : Z) pool : option nat * BackendPool * list (nat * Effect) :=
  match select pool current with
  | None => (None, pool, [])
  | Some i =>
      match channels_ pool !! i with
      | None => (None, pool, [])
      | Some ch =>
          let '(ok, ch, effects) := BackendChannel_submit owner data command_count ch in
          (if ok then Some i else None, set_channels (<[i := ch]> (channels_ pool)) pool,
           (i,.) <$> effects)
      end
  end.

Definition channelForTest pool (index : nat) : option nat :=
  if decide (length (channels_ pool) ≤ index) then None else Some index.
End pool.
Arguments BackendPool : clear implicits.

(** ** Lemmas *)

Section lemmas.
Context {C : Type} {cond : CoCond C} {order : SetOrder} {Endpoint : Type}.
Implicit Types (pool : BackendPool C Endpoint) (l : list (BackendChannel C Endpoint)).

(** [i] is the first of the least loaded healthy channels of [l]. *)
Definition first_least l (i : nat) (load : Z) : Prop :=
  ∃ ch, l !! i = Some ch ∧ isHealthy ch = true ∧ queued_commands_ ch = load ∧
    ∀ j ch', l !! j = Some ch' → isHealthy ch' = true →
      (load <= queued_commands_ ch')%Z ∧ (j < i → (load < queued_commands_ ch')%Z).

Definition best_of l (r : option (nat * Z)) : Prop :=
  match r with
  | Some (i, load) => first_least l i load
  | None => Forall (λ ch, isHealthy ch = false) l
  end.

Lemma best_of_snoc l r ch :
  best_of l r →
  best_of (l ++ [ch])
    (if isHealthy ch && match r with
                        | None => true
                        | Some (_, load) => bool_decide (queuedCommandCount ch < load)%Z
                        end
     then Some (length l, queuedCommandCount ch) else r).
Proof.
  intros Hr. unfold queuedCommandCount.
  assert (∀ j ch', (l ++ [ch]) !! j = Some ch' → l !! j = Some ch' ∨ (j = length l ∧ ch' = ch)) as Hsnoc.
  { intros j ch' [?|[Hj Hx]]%lookup_app_Some; [by left|]. right.
    apply list_lookup_singleton_Some in Hx as [? ->]. split; [lia|done]. }
  destruct (isHealthy ch) eqn:Hh; simpl; [|].
  - destruct r as [[i load]|]; simpl in *.
    + destruct Hr as (c & Hi & Hc & Hload & Hall). case_bool_decide as Hlt.
      * exists ch. split_and!; [by apply list_lookup_middle|done|done|].
        intros j ch' [Hj|[-> ->]]%Hsnoc Hh'; [|split; lia].
        destruct (Hall j ch' Hj Hh'). split; lia.
      * exists c. split_and!; [by apply lookup_app_l_Some|done|done|].
        intros j ch' [Hj|[-> ->]]%Hsnoc Hh'; [by apply (Hall j)|].
        apply lookup_lt_Some in Hi. split; lia.
    + exists ch. split_and!; [by apply list_lookup_middle|done|done|].
      intros j ch' [Hj|[-> ->]]%Hsnoc Hh'; [|split; lia].
      eapply Forall_lookup_1 in Hr; [|done]. congruence.
  - destruct r as [[i load]|]; simpl in *.
    + destruct Hr as (c & Hi & Hc & Hload & Hall). exists c.
      split_and!; [by apply lookup_app_l_Some|done|done|].
      intros j ch' [Hj|[-> ->]]%Hsnoc Hh'; [by apply (Hall j)|congruence].
    + apply Forall_app. split; [done|]. by constructor.
Qed.

Lemma select_loop_spec l0 r l :
  best_of l0 r → best_of (l0 ++ l) (select_loop r (length l0) l).
Proof.
  revert l0 r. induction l as [|ch l IH]; intros l0 r Hr; simpl; [by rewrite app_nil_r|].
  apply (best_of_snoc _ _ ch) in Hr. apply IH in Hr.
  rewrite length_app, Nat.add_1_r, <-(assoc_L (++)) in Hr. done.
Qed.

(** C35: [select] balances the load.  Without a current channel it returns the
    first of the healthy channels with the fewest queued commands, and nothing
    exactly when no channel is healthy; with a current channel it returns that
    one while it is healthy and nothing otherwise, so the commands of a session
    are never spread over two connections. *)
Theorem select_spec pool current :
  match current, select pool current with
  | None, Some i => ∃ load, first_least (channels_ pool) i load
  | None, None => Forall (λ ch, isHealthy ch = false) (channels_ pool)
  | Some i, Some j => j = i ∧ ∃ ch, channels_ pool !! i = Some ch ∧ isHealthy ch = true
  | Some i, None => ∀ ch, channels_ pool !! i = Some ch → isHealthy ch = false
  end.
Proof.
  unfold select. destruct current as [i|].
  - destruct (channels_ pool !! i) as [ch|] eqn:Hi; simpl; [|done].
    destruct (isHealthy ch) eqn:Hh; [by eauto|]. naive_solver.
  - pose proof (select_loop_spec [] None (channels_ pool)) as Hs. simpl in Hs.
    specialize (Hs (List.Forall_nil _)).
    destruct (select_loop None 0 (channels_ pool)) as [[i load]|]; simpl in *; eauto.
Qed.
End lemmas.
