(* ===== verification/ClientSession.v ===== *)
(** * ClientSession: one client connection
    (include/redis_proxy/client_session.h, src/client_session.cpp)

    A session is driven by two coroutines, [readerLoop] and [writerLoop], and by
    the callbacks of its backend channel.  As for the channel, a step runs from
    one point of suspension to the next.  This file models what happens inside one
    session; the code that reaches the backend pool or the worker is in [Worker],
    over the state that all coroutines of a worker thread share.  Every step
    reports what it did as a list of events. *)
From S2P Require Import Prelude Status CommandRules RespParser CoSocket CoroutineSignal Config.
From S2P Require Import BackendChannel BackendPool.

Inductive SessionState := kOpen | kDraining | kAborted.

#[global] Instance SessionState_eq_dec : EqDecision SessionState.
Proof. solve_decision. Defined.

(** The reader: at the head of its loop, waiting for replies before it answers a
    refused command, sleeping after a full batch, inside [readSome], past the
    loop, or returned. *)
Inductive SessionReader :=
  | SrTop | SrWaitReplies (error : string) | SrYield | SrReading | SrEnd | SrDone.

(** The writer: at the head of its loop, in [wait], in [writeAll], past the loop,
    or returned. *)
Inductive SessionWriter := SwTop | SwWaiting | SwWriting | SwEnd | SwDone.

#[global] Instance SessionReader_eq_dec : EqDecision SessionReader.
Proof. solve_decision. Defined.
#[global] Instance SessionWriter_eq_dec : EqDecision SessionWriter.
Proof. solve_decision. Defined.

Inductive SessionEvent :=
  | SeOpened (fd : Z)
  | SeIn (data : bytes)                        (* [readSome] appended [data] *)
  | SeAccepted (data : bytes) (count : Z)      (* a batch was submitted *)
  | SeDropped (data : bytes)                   (* a batch could not be submitted *)
  | SeRefused (data : bytes) (error : string)  (* a command was refused *)
  | SeDrain (error : string)                   (* [drain], with the final error *)
  | SeReply (data : bytes)                     (* a reply enters [client_out_] *)
  | SeError (error : string) (data : bytes)    (* an error reply enters [client_out_] *)
  | SeWrite (data : bytes)                     (* [writeAll] of [data] begins *)
  | SeWritten                                  (* it is over, the chain is released *)
  | SeAborted
  | SeSys (call : Syscall)
  | SeFinished                                 (* [on_finished_] *)
  | SeDestroyed.

(** What the session's parsing loop found: the parser, how many commands and bytes
    it accepts, its last status, and the error and length of a refused command. *)
Record Scan := mkScan {
  sc_parser : RespParser;
  sc_parsed : Z;
  sc_consumed : nat;
  sc_status : ParseStatus;
  sc_error : string;
  sc_rejected : nat
}.

Section session.
Context {C : Type} {cond : CoCond C} {Endpoint : Type}.

Record ClientSession := mkClientSession {
  cs_socket : CoSocket;
  cs_config : Config Endpoint;
  cs_parser : RespParser;
  client_in_ : bytes;
  client_out_ : list bytes;
  output_signal_ : CoroutineSignal C;
  reply_signal_ : CoroutineSignal C;
  current_backend_ : option nat;
  pending_replies_ : Z;
  cs_state : SessionState;
  final_error_ : string;
  active_loops_ : Z;
  reader_at : SessionReader;
  writer_at : SessionWriter
}.

(** *** Assignments to members *)
Definition with_input (x0 : RespParser) (x1 : bytes) (s : ClientSession) : ClientSession :=
  mkClientSession (cs_socket s) (cs_config s) x0 x1 (client_out_ s) (output_signal_ s) (reply_signal_ s)
    (current_backend_ s) (pending_replies_ s) (cs_state s) (final_error_ s) (active_loops_
    s) (reader_at s) (writer_at s).
Definition with_out (x : list bytes) (s : ClientSession) : ClientSession :=
  mkClientSession (cs_socket s) (cs_config s) (cs_parser s) (client_in_ s) x (output_signal_ s)
    (reply_signal_ s) (current_backend_ s) (pending_replies_ s) (cs_state s) (final_error_
    s) (active_loops_ s) (reader_at s) (writer_at s).
Definition with_output_signal (x : CoroutineSignal C) (s : ClientSession) : ClientSession :=
  mkClientSession (cs_socket s) (cs_config s) (cs_parser s) (client_in_ s) (client_out_ s) x
    (reply_signal_ s) (current_backend_ s) (pending_replies_ s) (cs_state s) (final_error_
    s) (active_loops_ s) (reader_at s) (writer_at s).
Definition with_reply_signal (x : CoroutineSignal C) (s : ClientSession) : ClientSession :=
  mkClientSession (cs_socket s) (cs_config s) (cs_parser s) (client_in_ s) (client_out_ s) (output_signal_
    s) x (current_backend_ s) (pending_replies_ s) (cs_state s) (final_error_ s)
    (active_loops_ s) (reader_at s) (writer_at s).
Definition with_backend (x0 : option nat) (x1 : Z) (s : ClientSession) : ClientSession :=
  mkClientSession (cs_socket s) (cs_config s) (cs_parser s) (client_in_ s) (client_out_ s) (output_signal_
    s) (reply_signal_ s) x0 x1 (cs_state s) (final_error_ s) (active_loops_ s) (reader_at s)
    (writer_at s).
Definition with_state (x : SessionState) (s : ClientSession) : ClientSession :=
  mkClientSession (cs_socket s) (cs_config s) (cs_parser s) (client_in_ s) (client_out_ s) (output_signal_
    s) (reply_signal_ s) (current_backend_ s) (pending_replies_ s) x (final_error_ s)
    (active_loops_ s) (reader_at s) (writer_at s).
Definition with_final_error (x : string) (s : ClientSession) : ClientSession :=
  mkClientSession (cs_socket s) (cs_config s) (cs_parser s) (client_in_ s) (client_out_ s) (output_signal_
    s) (reply_signal_ s) (current_backend_ s) (pending_replies_ s) (cs_state s) x
    (active_loops_ s) (reader_at s) (writer_at s).
Definition with_loops (x : Z) (s : ClientSession) : ClientSession :=
  mkClientSession (cs_socket s) (cs_config s) (cs_parser s) (client_in_ s) (client_out_ s) (output_signal_
    s) (reply_signal_ s) (current_backend_ s) (pending_replies_ s) (cs_state s)
    (final_error_ s) x (reader_at s) (writer_at s).
Definition with_reader (x : SessionReader) (s : ClientSession) : ClientSession :=
  mkClientSession (cs_socket s) (cs_config s) (cs_parser s) (client_in_ s) (client_out_ s) (output_signal_
    s) (reply_signal_ s) (current_backend_ s) (pending_replies_ s) (cs_state s)
    (final_error_ s) (active_loops_ s) x (writer_at s).
Definition with_writer (x : SessionWriter) (s : ClientSession) : ClientSession :=
  mkClientSession (cs_socket s) (cs_config s) (cs_parser s) (client_in_ s) (client_out_ s) (output_signal_
    s) (reply_signal_ s) (current_backend_ s) (pending_replies_ s) (cs_state s)
    (final_error_ s) (active_loops_ s) (reader_at s) x.
Definition with_socket (x : CoSocket) (s : ClientSession) : ClientSession :=
  mkClientSession x (cs_config s) (cs_parser s) (client_in_ s) (client_out_ s) (output_signal_ s)
    (reply_signal_ s) (current_backend_ s) (pending_replies_ s) (cs_state s) (final_error_
    s) (active_loops_ s) (reader_at s) (writer_at s).

Definition notify_output (s : ClientSession) : ClientSession :=
  with_output_signal (notify (output_signal_ s)) s.
Definition notify_reply (s : ClientSession) : ClientSession :=
  with_reply_signal (notify (reply_signal_ s)) s.

(** The constructor, and the part of [start] that concerns the session. *)
Definition ClientSession_new (fd : Z) (config : Config Endpoint) : ClientSession :=
  mkClientSession (mkCoSocket fd) config
    (RespParser_setLimits (max_bulk_bytes config) (max_array_elements config) 8
       (max_request_bytes config) RespParser_new)
    [] [] CoroutineSignal_new CoroutineSignal_new None 0 kOpen "" 0 SrDone SwDone.

Definition ClientSession_start (s : ClientSession) : ClientSession :=
  with_writer SwTop (with_reader SrTop (with_loops 2 s)).

(** *** Callbacks and state changes *)

Definition session_onBackendReply (reply : bytes) (s : ClientSession) :
    ClientSession * list SessionEvent :=
  let pending := u64 (pending_replies_ s - 1) in
  let s := with_backend (current_backend_ s) pending s in
  let s := if decide (pending = 0%Z) then notify_reply (with_backend None pending s) else s in
  (notify_output (with_out (client_out_ s ++ [reply]) s), [SeReply reply]).

Definition drain (error : string) (s : ClientSession) : ClientSession * list SessionEvent :=
  if decide (cs_state s ≠ kOpen) then (s, []) else
  (notify_output (with_final_error error (with_state kDraining s)),
   SeDrain error :: (SeSys <$> CoSocket_shutdownRead (cs_socket s))).

(** [abort] after the state was set and the owner was detached. *)
Definition abort_rest (s : ClientSession) : ClientSession * list SessionEvent :=
  (notify_reply (notify_output (with_out [] (with_backend None 0 s))),
   SeAborted :: (SeSys <$> CoSocket_shutdown (cs_socket s))).

(** *** The reader *)

Context (UnpackOne : bytes → nat → RespLimits → RespResult).
Context (PackError : string → bytes).
Context (rules : CommandRules).

(** The inner [while] loop.  Every round but the last consumes a frame of at
    least one byte, so the bytes of the buffer bound the rounds. *)
Fixpoint scan_loop (fuel : nat) (alloc : nat → bool) (max : Z) (view : bytes) (sc : Scan) :
    option Scan :=
  if decide (sc_parsed sc < max)%Z then
    match fuel with
    | 0 => None
    | S fuel =>
        '(p, ps, info) ← peek_bytes UnpackOne alloc (sc_parser sc) view (sc_consumed sc);
        match ps, info with
        | pNeedMore, _ => Some (mkScan p (sc_parsed sc) (sc_consumed sc) ps "" 0)
        | pOk, Some info =>
            let valid := validate rules (String.string_of_list_ascii (fi_command_name info))
                           (Z.of_nat (fi_argc info)) in
            if Status_ok valid then
              scan_loop fuel alloc max view
                (mkScan p (sc_parsed sc + 1) (sc_consumed sc + fi_consumed info) ps "" 0)
            else Some (mkScan p (sc_parsed sc) (sc_consumed sc) ps (message_ valid)
                         (fi_consumed info))
        | pNoMemory, _ =>
            Some (mkScan p (sc_parsed sc) (sc_consumed sc) ps "ERR proxy out of memory" 0)
        | _, _ =>
            Some (mkScan p (sc_parsed sc) (sc_consumed sc) ps "ERR proxy protocol error" 0)
        end
    end
  else Some sc.

Definition scan (alloc : nat → bool) (s : ClientSession) : option Scan :=
  scan_loop (S (length (client_in_ s))) alloc (max_pipeline_commands_per_read (cs_config s))
    (client_in_ s) (mkScan (cs_parser s) 0 0 pNeedMore "" 0).

(** The [while (... && pending_replies_ != 0) reply_signal_.wait()] loop and what
    follows it.  The first [wait] uses up a pending notification, so the second
    round is the last one. *)
Fixpoint await_replies (fuel : nat) (error : string) (s : ClientSession) :
    option (ClientSession * list SessionEvent) :=
  match fuel with
  | 0 => None
  | S fuel =>
      if decide (cs_state s = kOpen ∧ pending_replies_ s ≠ 0%Z) then
        let '(returned, sig) := wait (reply_signal_ s) in
        if returned then await_replies fuel error (with_reply_signal sig s)
        else Some (with_reader (SrWaitReplies error) (with_reply_signal sig s), [])
      else if decide (cs_state s ≠ kOpen) then Some (with_reader SrEnd s, [])
      else
        let encoded := PackError error in
        Some (with_reader SrTop (notify_output (with_out (client_out_ s ++ [encoded]) s)),
              [SeError error encoded])
  end.

(** The body of the loop after the batch was submitted. *)
Definition reader_rest (sc : Scan) (s : ClientSession) :
    option (ClientSession * list SessionEvent) :=
  if decide (sc_error sc ≠ ""%string) then
    if decide (sc_rejected sc = 0) then
      let '(s, es) := drain (sc_error sc) s in Some (with_reader SrEnd s, es)
    else
      let refused := take (sc_rejected sc) (client_in_ s) in
      let s := with_input (cs_parser s) (drop (sc_rejected sc) (client_in_ s)) s in
      '(s, es) ← await_replies 2 (sc_error sc) s;
      Some (s, SeRefused refused (sc_error sc) :: es)
  else if decide (sc_status sc = pOk ∧ client_in_ s ≠ []) then Some (with_reader SrYield s, [])
  else Some (with_reader SrReading s, []).

(** *** The writer *)

(** Up to 64 replies in one write; what stays in the queue. *)
Definition take_output (out : list bytes) : bytes * list bytes :=
  (concat (take 64 out), drop 64 out).

Fixpoint session_writerLoop (fuel : nat) (s : ClientSession) :
    option (ClientSession * list SessionEvent) :=
  match fuel with
  | 0 => None
  | S fuel =>
      if decide (cs_state s = kAborted) then Some (with_writer SwEnd s, []) else
      match client_out_ s with
      | [] =>
          if decide (cs_state s = kDraining ∧ pending_replies_ s = 0%Z) then
            if decide (final_error_ s = ""%string) then Some (with_writer SwEnd s, [])
            else
              let encoded := PackError (final_error_ s) in
              Some (with_writer SwWriting (with_final_error "" s),
                    [SeError (final_error_ s) encoded; SeWrite encoded])
          else
            let '(returned, sig) := wait (output_signal_ s) in
            if returned then session_writerLoop fuel (with_output_signal sig s)
            else Some (with_writer SwWaiting (with_output_signal sig s), [])
      | out =>
          let '(chunk, rest) := take_output out in
          Some (with_writer SwWriting (with_out rest s), [SeWrite chunk])
      end
  end.
End session.
Arguments ClientSession : clear implicits.
