(* ===== verification/Worker.v ===== *)
(** * Worker: the sessions and the backend pool of one thread
    (include/redis_proxy/worker.h, src/worker.cpp, and the operations of
    src/client_session.cpp that reach beyond their own session)

    All coroutines of a worker share its state.  A step is a coroutine running
    from one point of suspension to the next; other threads only append to the
    queue of accepted descriptors.  A reference to a session that is not in
    [sessions_] is a dangling pointer, and following it goes wrong. *)
From S2P Require Import Prelude Status CommandRules RespParser CoSocket CoroutineSignal Config.
From S2P Require Import BackendChannel BackendPool ClientSession.

(** ** The notifier

    [conn_util::FdNotifier] is another library's: a descriptor that becomes
    readable when it is notified, until it is drained. *)
Class FdNotifier (N : Type) := {
  notifier_init : N;
  notifier_notify : N → N;
  notifier_drain : N → N;
  notifier_readable : N → bool
}.

Class FdNotifierLaws (N : Type) `{FdNotifier N} := {
  notify_readable n : notifier_readable (notifier_notify n) = true
}.

(** Where the loop of [Worker::run] is: before the flag is read, before the lock is
    taken, before [reapSessions], inside [co_poll]. *)
Inductive MainPc := MainTop | MainSwap | MainReap | MainPoll.

#[global] Instance MainPc_eq_dec : EqDecision MainPc.
Proof. solve_decision. Defined.

Inductive Event :=
  | WChannel (i : nat) (e : Effect)
  | WSession (a : nat) (e : SessionEvent)
  | WDispatched (fd : Z).

Section worker.
Context {C N : Type} {cond : CoCond C} {notifier : FdNotifier N} {order : SetOrder}.
Context {Endpoint : Type}.

Record Worker := mkWorker {
  wk_config : Config Endpoint;
  pending_fds_ : list Z;
  has_pending_fds_ : bool;
  fd_notifier_ : N;
  backend_pool_ : BackendPool C Endpoint;
  sessions_ : gmap nat (ClientSession C Endpoint);
  finished_sessions_ : list nat;
  main_pc : MainPc;
  dispatching : nat;      (* threads between the unlock and the notify of [dispatchFd] *)
  trace : list Event
}.

Definition upd_fds (fds : list Z) (flag : bool) (n : nat) (w : Worker) : Worker :=
  mkWorker (wk_config w) fds flag (fd_notifier_ w) (backend_pool_ w) (sessions_ w)
    (finished_sessions_ w) (main_pc w) n (trace w).
Definition upd_notifier (x : N) (w : Worker) : Worker :=
  mkWorker (wk_config w) (pending_fds_ w) (has_pending_fds_ w) x (backend_pool_ w) (sessions_ w)
    (finished_sessions_ w) (main_pc w) (dispatching w) (trace w).
Definition upd_pool (x : BackendPool C Endpoint) (w : Worker) : Worker :=
  mkWorker (wk_config w) (pending_fds_ w) (has_pending_fds_ w) (fd_notifier_ w) x (sessions_ w)
    (finished_sessions_ w) (main_pc w) (dispatching w) (trace w).
Definition upd_sessions (x : gmap nat (ClientSession C Endpoint)) (w : Worker) : Worker :=
  mkWorker (wk_config w) (pending_fds_ w) (has_pending_fds_ w) (fd_notifier_ w) (backend_pool_ w)
    x (finished_sessions_ w) (main_pc w) (dispatching w) (trace w).
Definition upd_finished (x : list nat) (w : Worker) : Worker :=
  mkWorker (wk_config w) (pending_fds_ w) (has_pending_fds_ w) (fd_notifier_ w) (backend_pool_ w)
    (sessions_ w) x (main_pc w) (dispatching w) (trace w).
Definition upd_main (x : MainPc) (w : Worker) : Worker :=
  mkWorker (wk_config w) (pending_fds_ w) (has_pending_fds_ w) (fd_notifier_ w) (backend_pool_ w)
    (sessions_ w) (finished_sessions_ w) x (dispatching w) (trace w).
Definition upd_trace (x : list Event) (w : Worker) : Worker :=
  mkWorker (wk_config w) (pending_fds_ w) (has_pending_fds_ w) (fd_notifier_ w) (backend_pool_ w)
    (sessions_ w) (finished_sessions_ w) (main_pc w) (dispatching w) x.

Definition modify (f : Worker → Worker) : ST Worker unit := w ← st_get; st_put (f w).
Definition emit (es : list Event) : ST Worker unit := modify (λ w, upd_trace (trace w ++ es) w).
Definition notify_worker : ST Worker unit :=
  modify (λ w, upd_notifier (notifier_notify (fd_notifier_ w)) w).

(** ** Sessions *)

Definition get_session (a : nat) : ST Worker (ClientSession C Endpoint) :=
  w ← st_get; st_opt (sessions_ w !! a).
Definition put_session (a : nat) (s : ClientSession C Endpoint) : ST Worker unit :=
  modify (λ w, upd_sessions (<[a := s]> (sessions_ w)) w).

(** What happened inside one session. *)
Definition session_apply (a : nat) (r : ClientSession C Endpoint * list SessionEvent) :
    ST Worker unit :=
  put_session a r.1;; emit (WSession a <$> r.2).
Definition session_do (a : nat)
    (f : ClientSession C Endpoint → ClientSession C Endpoint * list SessionEvent) : ST Worker unit :=
  s ← get_session a; session_apply a (f s).

(** [backend_pool_->detachOwner(this)] *)
Definition pool_detach (a : nat) : ST Worker unit :=
  w ← st_get;
  let '(pool, es) := BackendPool_detachOwner a (backend_pool_ w) in
  st_put (upd_pool pool w);;
  emit ((λ e, WChannel e.1 e.2) <$> es).

Definition abort (a : nat) : ST Worker unit :=
  s ← get_session a;
  if decide (cs_state s = kAborted) then mret tt else
  put_session a (with_state kAborted s);;
  pool_detach a;;
  session_do a abort_rest.

Definition onBackendReply (a : nat) (reply : bytes) : ST Worker unit :=
  session_do a (session_onBackendReply reply).

Definition onBackendFailure (a : nat) : ST Worker unit := abort a.

(** The result of [submitBatch]. *)
Definition submitBatch (a : nat) (data : bytes) (command_count : Z) : ST Worker bool :=
  if decide (command_count = 0%Z) then emit [WSession a (SeDropped data)];; mret true else
  s ← get_session a;
  w ← st_get;
  let '(channel, pool, es) :=
    BackendPool_submit (Some a) (current_backend_ s) data command_count (backend_pool_ w) in
  st_put (upd_pool pool w);;
  emit ((λ e, WChannel e.1 e.2) <$> es);;
  match channel with
  | None => emit [WSession a (SeDropped data)];; abort a;; mret false
  | Some i =>
      session_apply a (with_backend (Some i) (u64 (pending_replies_ s + command_count)) s,
                       [SeAccepted data command_count]);;
      mret true
  end.

Definition finishLoop (a : nat) : ST Worker unit :=
  s ← get_session a;
  let loops := (active_loops_ s - 1)%Z in
  put_session a (with_loops loops s);;
  if decide (loops ≠ 0%Z) then mret tt else
  pool_detach a;;
  session_do a (λ s, let '(sock, calls) := CoSocket_close (cs_socket s) in
                     (with_socket sock s, (SeSys <$> calls) ++ [SeFinished]));;
  modify (λ w, upd_finished (finished_sessions_ w ++ [a]) w);;
  notify_worker.

Context (UnpackOne : bytes → nat → RespLimits → RespResult).
Context (PackError : string → bytes).
Context (rules : CommandRules).

(** [readerLoop] from the head of its loop. *)
Definition readerLoop (a : nat) (alloc : nat → bool) : ST Worker unit :=
  s ← get_session a;
  if decide (cs_state s ≠ kOpen) then session_apply a (with_reader SrEnd s, []) else
  sc ← st_opt (scan UnpackOne rules alloc s);
  let data := take (sc_consumed sc) (client_in_ s) in
  put_session a (with_input (sc_parser sc) (drop (sc_consumed sc) (client_in_ s)) s);;
  ok ← (if decide (0 < sc_parsed sc)%Z then submitBatch a data (u32 (sc_parsed sc)) else mret true);
  if (ok : bool) then
    s ← get_session a;
    r ← st_opt (reader_rest PackError sc s);
    session_apply a r
  else session_do a (λ s, (with_reader SrEnd s, [])).

(** [readSome] returns [st] after it has appended [data]. *)
Definition reader_read (a : nat) (st : Status) (data : bytes) : ST Worker unit :=
  s ← get_session a;
  session_apply a (with_input (cs_parser s) (client_in_ s ++ data) s, [SeIn data]);;
  if decide (cs_state s ≠ kOpen) then session_do a (λ s, (with_reader SrEnd s, []))
  else if Status_ok st then session_do a (λ s, (with_reader SrTop s, []))
  else
    (if decide (code_ st = kClosed) then
       session_do a (λ s, drain (if decide (client_in_ s = []) then "" else "ERR proxy protocol error") s)
     else abort a);;
    session_do a (λ s, (with_reader SrEnd s, [])).

(** [reply_signal_.wait()] returns. *)
Definition reader_wake (a : nat) (error : string) : ST Worker unit :=
  s ← get_session a;
  r ← st_opt (await_replies PackError 2 error (with_reply_signal (wait_return (reply_signal_ s)) s));
  session_apply a r.

(** [writerLoop] from the head of its loop, and after [wait]. *)
Definition writerLoop (a : nat) : ST Worker unit :=
  s ← get_session a;
  r ← st_opt (session_writerLoop PackError 2 s);
  session_apply a r.

Definition writer_wake (a : nat) : ST Worker unit :=
  s ← get_session a;
  put_session a (with_writer SwTop (with_output_signal (wait_return (output_signal_ s)) s));;
  writerLoop a.

(** [writeAll] returns [st]. *)
Definition writer_written (a : nat) (st : Status) : ST Worker unit :=
  if Status_ok st then session_do a (λ s, (with_writer SwTop s, [SeWritten]))
  else abort a;; session_do a (λ s, (with_writer SwEnd s, [SeWritten])).

(** ** Channels *)

(** The callbacks a channel makes. *)
Fixpoint deliver (i : nat) (es : list Effect) : ST Worker unit :=
  match es with
  | [] => mret tt
  | e :: es =>
      emit [WChannel i e];;
      match e with
      | EfReply (Some a) reply => onBackendReply a reply
      | EfDown _ owners => mapM onBackendFailure owners;; mret tt
      | _ => mret tt
      end;;
      deliver i es
  end.

Definition channel_event (i : nat) (o : ChannelOp Endpoint) : ST Worker unit :=
  w ← st_get;
  ch ← st_opt (channels_ (backend_pool_ w) !! i);
  '(ch, es) ← st_opt (channel_step UnpackOne o ch);
  st_put (upd_pool (set_channels (<[i := ch]> (channels_ (backend_pool_ w))) (backend_pool_ w)) w);;
  deliver i es.

(** [BackendPool::stop]: a channel's callbacks run before the next one is stopped. *)
Fixpoint stop_channels (l : list nat) : ST Worker unit :=
  match l with [] => mret tt | i :: l => channel_event i OpStop;; stop_channels l end.
Definition BackendPool_stop : ST Worker unit :=
  w ← st_get; stop_channels (seq 0 (length (channels_ (backend_pool_ w)))).

(** ** The worker *)

(** The two parts of [dispatchFd]: under the lock, and the notification. *)
Definition dispatch_push (fd : Z) : ST Worker unit :=
  modify (λ w, upd_fds (pending_fds_ w ++ [fd]) true (S (dispatching w)) w);;
  emit [WDispatched fd].
Definition dispatch_notify : ST Worker unit :=
  modify (λ w, upd_fds (pending_fds_ w) (has_pending_fds_ w) (pred (dispatching w)) w);;
  notify_worker.

(** A session is created for every descriptor; [addrs] are the addresses the
    allocator returns, which no live session has. *)
Fixpoint open_sessions (fds : list Z) (addrs : list nat) : ST Worker unit :=
  match fds, addrs with
  | [], _ => mret tt
  | fd :: fds, a :: addrs =>
      w ← st_get;
      st_assert (sessions_ w !! a = None);;
      session_apply a (ClientSession_start (ClientSession_new fd (wk_config w)), [SeOpened fd]);;
      open_sessions fds addrs
  | _, [] => st_wrong
  end.

(** [reapFds]: reading the flag, and the part from the lock on. *)
Definition reap_check : ST Worker unit :=
  modify (λ w, upd_main (if has_pending_fds_ w then MainSwap else MainReap) w).
Definition reap_swap (addrs : list nat) : ST Worker unit :=
  w ← st_get;
  st_put (upd_main MainReap (upd_fds [] false (dispatching w) w));;
  open_sessions (pending_fds_ w) addrs.

Definition reapSessions : ST Worker unit :=
  modify (λ w,
    upd_main MainPoll
      (upd_finished []
        (upd_sessions (foldl (λ m a, delete a m) (sessions_ w) (finished_sessions_ w))
          (upd_trace (trace w ++ ((λ a, WSession a SeDestroyed) <$> finished_sessions_ w)) w)))).

(** [co_poll] returns [ret]. *)
Definition poll_return (ret : Z) : ST Worker unit :=
  modify (λ w, upd_main MainTop
                 (if decide (0 < ret)%Z then upd_notifier (notifier_drain (fd_notifier_ w)) w else w)).

(** The worker when [run] has started the pool and scheduled its loop. *)
Definition Worker_new (config : Config Endpoint) : Worker :=
  mkWorker config [] false notifier_init (BackendPool_start (BackendPool_new config)) ∅ [] MainTop 0 [].

(** ** Steps *)

Inductive WorkerOp :=
  | WoReader (a : nat) (alloc : nat → bool)
  | WoRead (a : nat) (st : Status) (data : bytes)
  | WoReaderWake (a : nat)
  | WoYielded (a : nat)
  | WoReaderEnd (a : nat)
  | WoWriter (a : nat)
  | WoWriterWake (a : nat)
  | WoWritten (a : nat) (st : Status)
  | WoWriterEnd (a : nat)
  | WoChannel (i : nat) (o : ChannelOp Endpoint)
  | WoDispatch (fd : Z)
  | WoDispatchNotify
  | WoCheck
  | WoSwap (addrs : list nat)
  | WoReap
  | WoPoll (ret : Z).

Definition worker_step (o : WorkerOp) : ST Worker unit :=
  match o with
  | WoReader a alloc => readerLoop a alloc
  | WoRead a st data => reader_read a st data
  | WoReaderWake a =>
      s ← get_session a;
      match reader_at s with SrWaitReplies error => reader_wake a error | _ => st_wrong end
  | WoYielded a => session_do a (λ s, (with_reader SrTop s, []))
  | WoReaderEnd a => session_do a (λ s, (with_reader SrDone s, []));; finishLoop a
  | WoWriter a => writerLoop a
  | WoWriterWake a => writer_wake a
  | WoWritten a st => writer_written a st
  | WoWriterEnd a => session_do a (λ s, (with_writer SwDone s, []));; finishLoop a
  | WoChannel i o => channel_event i o
  | WoDispatch fd => dispatch_push fd
  | WoDispatchNotify => dispatch_notify
  | WoCheck => reap_check
  | WoSwap addrs => reap_swap addrs
  | WoReap => reapSessions
  | WoPoll ret => poll_return ret
  end.

(** The coroutine that takes the step is where the step begins, and the answer
    is one the environment can give; no client has anywhere near 2^64 replies
    outstanding. *)
Definition worker_enabled (o : WorkerOp) (w : Worker) : Prop :=
  let session (a : nat) (P : ClientSession C Endpoint → Prop) : Prop :=
    match sessions_ w !! a with Some s => P s | None => False end in
  match o with
  | WoReader a _ =>
      session a (λ s, reader_at s = SrTop ∧ (pending_replies_ s < 2 ^ 64 - 2 ^ 32)%Z)
  | WoRead a st data => session a (λ s, reader_at s = SrReading ∧ (Status_ok st = false → data = []))
  | WoReaderWake a =>
      session a (λ s, (∃ error, reader_at s = SrWaitReplies error) ∧
                      cond_runnable (cond_ (reply_signal_ s)) = true)
  | WoYielded a => session a (λ s, reader_at s = SrYield)
  | WoReaderEnd a => session a (λ s, reader_at s = SrEnd)
  | WoWriter a => session a (λ s, writer_at s = SwTop)
  | WoWriterWake a =>
      session a (λ s, writer_at s = SwWaiting ∧ cond_runnable (cond_ (output_signal_ s)) = true)
  | WoWritten a _ => session a (λ s, writer_at s = SwWriting)
  | WoWriterEnd a => session a (λ s, writer_at s = SwEnd)
  | WoChannel i o =>
      match o with OpSubmit _ _ _ | OpDetach _ => False | _ => True end ∧
      match channels_ (backend_pool_ w) !! i with
      | Some ch => channel_enabled o ch
      | None => False
      end
  | WoDispatch _ => True
  | WoDispatchNotify => 0 < dispatching w
  | WoCheck => main_pc w = MainTop
  | WoSwap addrs =>
      main_pc w = MainSwap ∧ length addrs = length (pending_fds_ w) ∧ NoDup addrs ∧
      Forall (λ a, sessions_ w !! a = None) addrs
  | WoReap => main_pc w = MainReap
  | WoPoll ret => main_pc w = MainPoll ∧ ((0 < ret)%Z → notifier_readable (fd_notifier_ w) = true)
  end.

#[global] Instance worker_enabled_dec o w : Decision (worker_enabled o w).
Proof.
  destruct o; simpl; try apply _; try (destruct (sessions_ w !! a) as [s|]; [|apply _]); try apply _.
  - destruct (decide (cond_runnable (cond_ (reply_signal_ s)) = true)) as [Hr|Hr]; [|right; by intros [_ ?]].
    destruct (reader_at s) as [|error| | | |] eqn:Hs; try (right; by intros [[? ?] _]).
    left. split; [by exists error|exact Hr].
  - destruct (channels_ (backend_pool_ w) !! i) as [ch|]; destruct o; simpl; apply _.
Defined.

(** A run that only takes enabled steps. *)
Fixpoint worker_run (ops : list WorkerOp) (w : Worker) : option Worker :=
  match ops with
  | [] => Some w
  | o :: ops =>
      if decide (worker_enabled o w) then
        '(_, w) ← worker_step o w; worker_run ops w
      else None
  end.

(** The states a worker can reach. *)
Inductive worker_reachable (config : Config Endpoint) : Worker → Prop :=
  | wr_init : worker_reachable config (Worker_new config)
  | wr_step w o w' :
      worker_reachable config w → worker_enabled o w → worker_step o w = Some (tt, w') →
      worker_reachable config w'.

Lemma worker_run_reachable config ops w w' :
  worker_reachable config w → worker_run ops w = Some w' → worker_reachable config w'.
Proof.
  revert w. induction ops as [|o ops IH]; intros w Hr; simpl; [by intros [= <-]|].
  destruct (decide (worker_enabled o w)); [|done].
  destruct (worker_step o w) as [[[] w1]|] eqn:Hstep; simpl; [|done].
  apply IH. by eapply wr_step.
Qed.
End worker.
Arguments Worker : clear implicits.
Arguments WorkerOp : clear implicits.
