(* ===== verification/SessionInv.v ===== *)
(** * What holds inside one client session

    The history of a session is what its events say: which commands were accepted
    or refused, which responses were queued, which bytes came in and went out.
    The invariant relates it to the session's members; every operation of a
    session preserves it. *)
From S2P Require Import Prelude Status CommandRules RespParser CoSocket CoroutineSignal Config.
From S2P Require Import BackendChannel BackendPool ClientSession.

(** ** Histories *)

(** A command is answered by Redis or with an error of the proxy. *)
Inductive Answer := Forwarded | Refused (error : string).

Record History := mkHistory {
  h_requests : list Answer;   (* what answers the commands, in the order they arrived *)
  h_responses : list Answer;  (* what answers the responses queued are *)
  h_in : bytes;               (* what was read from the client *)
  h_taken : bytes;            (* what left the input buffer *)
  h_queued : list bytes;      (* the responses queued *)
  h_wire : bytes              (* what was handed to [writeAll] *)
}.

Definition history0 : History := mkHistory [] [] [] [] [] [].

Definition request (l : list Answer) (data : bytes) (h : History) : History :=
  mkHistory (h_requests h ++ l) (h_responses h) (h_in h) (h_taken h ++ data) (h_queued h) (h_wire h).
Definition response (a : Answer) (data : bytes) (h : History) : History :=
  mkHistory (h_requests h) (h_responses h ++ [a]) (h_in h) (h_taken h) (h_queued h ++ [data]) (h_wire h).

Definition history_step (h : History) (e : SessionEvent) : History :=
  match e with
  | SeOpened _ => history0
  | SeIn data =>
      mkHistory (h_requests h) (h_responses h) (h_in h ++ data) (h_taken h) (h_queued h) (h_wire h)
  | SeAccepted data n => request (replicate (Z.to_nat n) Forwarded) data h
  | SeDropped data => request [] data h
  | SeRefused data error => request [Refused error] data h
  | SeDrain error => if decide (error = ""%string) then h else request [Refused error] [] h
  | SeReply data => response Forwarded data h
  | SeError error data => response (Refused error) data h
  | SeWrite data =>
      mkHistory (h_requests h) (h_responses h) (h_in h) (h_taken h) (h_queued h) (h_wire h ++ data)
  | SeWritten | SeAborted | SeSys _ | SeFinished | SeDestroyed => h
  end.

Abbreviation history_after h es := (foldl history_step h es).

Lemma history_sys h calls : history_after h (SeSys <$> calls) = h.
Proof. revert h. induction calls as [|c calls IH]; intros h; [done|]. csimpl. apply IH. Qed.

(** ** The invariant *)

Definition reader_over (r : SessionReader) : bool := match r with SrEnd | SrDone => true | _ => false end.
Definition writer_over (r : SessionWriter) : bool := match r with SwEnd | SwDone => true | _ => false end.
Definition reader_waits (r : SessionReader) : bool := match r with SrWaitReplies _ => true | _ => false end.

Definition running (n : bool) : Z := if n then 0 else 1.

Section invariant.
Context {C : Type} {cond : CoCond C} {laws : CoCondLaws C} {Endpoint : Type}.
Implicit Types (s : ClientSession C Endpoint) (h : History).

(** The error reply that is due once all replies have arrived. *)
Definition due_error s : list Answer :=
  match reader_at s with
  | SrWaitReplies error => [Refused error]
  | _ => if decide (final_error_ s = ""%string) then [] else [Refused (final_error_ s)]
  end.

(** Members that take part in the exchange of messages. *)
Record exchange_ok h s : Prop := {
  eo_order : cs_state s ≠ kAborted →
    h_requests h = h_responses h ++ replicate (Z.to_nat (pending_replies_ s)) Forwarded ++ due_error s;
  eo_prefix : h_responses h `prefix_of` h_requests h;
  eo_in : h_in h = h_taken h ++ client_in_ s;
  eo_out : cs_state s ≠ kAborted → concat (h_queued h) = h_wire h ++ concat (client_out_ s);
  eo_wire : h_wire h `prefix_of` concat (h_queued h);
  eo_aborted : cs_state s = kAborted → pending_replies_ s = 0%Z ∧ client_out_ s = [];
  eo_pending : (0 <= pending_replies_ s < 2 ^ 64)%Z;
  eo_backend : current_backend_ s = None ↔ pending_replies_ s = 0%Z;
  eo_parser : (0 <= max_frame_bytes_ (cs_parser s))%Z
}.

(** The life cycle. *)
Record cycle_ok s : Prop := {
  cy_final : final_error_ s ≠ ""%string → cs_state s ≠ kOpen;
  cy_reader : reader_over (reader_at s) = true → cs_state s ≠ kOpen;
  cy_draining : cs_state s = kDraining → reader_over (reader_at s) = true;
  cy_writer : writer_over (writer_at s) = true →
    cs_state s = kAborted ∨
    (cs_state s = kDraining ∧ client_out_ s = [] ∧ pending_replies_ s = 0%Z ∧
     final_error_ s = ""%string)
}.

(** What there is to do for the writer and for the reader when they sleep. *)
Definition writer_work s : Prop :=
  client_out_ s ≠ [] ∨ cs_state s = kAborted ∨ (cs_state s = kDraining ∧ pending_replies_ s = 0%Z).
Definition reader_work s : Prop := cs_state s ≠ kOpen ∨ pending_replies_ s = 0%Z.

(** Nobody sleeps while there is something to do. *)
Record wakeup_ok s : Prop := {
  wu_writer : sleeper (output_signal_ s) (bool_decide (writer_at s = SwWaiting)) (writer_work s);
  wu_reader : sleeper (reply_signal_ s) (reader_waits (reader_at s)) (reader_work s)
}.

Record session_ok h s : Prop := {
  sk_exchange : exchange_ok h s;
  sk_cycle : cycle_ok s;
  sk_wakeup : wakeup_ok s
}.

(** A result of an operation of the session. *)
Definition result_ok h (r : ClientSession C Endpoint * list SessionEvent) : Prop :=
  session_ok (history_after h r.2) r.1.

(** *** Callbacks and state changes *)

Lemma session_new_ok fd (config : Config Endpoint) :
  (0 <= max_request_bytes config)%Z →
  session_ok history0 (ClientSession_start (ClientSession_new (C := C) fd config)).
Proof.
  intros Hmax. split.
  - by split.
  - by split.
  - split; apply sleeper_init.
Qed.

Lemma order_reply h s :
  (0 < pending_replies_ s < 2 ^ 64)%Z →
  h_requests h = h_responses h ++ replicate (Z.to_nat (pending_replies_ s)) Forwarded ++ due_error s →
  h_requests h = (h_responses h ++ [Forwarded]) ++
    replicate (Z.to_nat (u64 (pending_replies_ s - 1))) Forwarded ++ due_error s.
Proof.
  intros Hp ->. autorewrite with width.
  replace (Z.to_nat (pending_replies_ s)) with (S (Z.to_nat (pending_replies_ s - 1))) by lia.
  simpl. by rewrite <-(assoc_L (++)).
Qed.

Lemma onBackendReply_ok h s reply :
  session_ok h s → (0 < pending_replies_ s)%Z → result_ok h (session_onBackendReply reply s).
Proof.
  intros [[E1 E2 E3 E4 E5 E6 E7 E8 E9] [Y1 Y2 Y3 Y4] [W1 W2]] Hp.
  assert (cs_state s ≠ kAborted) as Hst by (intros [? _]%E6; lia).
  specialize (E1 Hst). specialize (E4 Hst).
  apply order_reply in E1; [|lia].
  assert (u64 (pending_replies_ s - 1) = pending_replies_ s - 1)%Z as Hpe by (by autorewrite with width).
  unfold result_ok, session_onBackendReply.
  set (p := u64 (pending_replies_ s - 1)) in *.
  assert (∀ b, (b = None ↔ p = 0%Z) → ∀ s', with_backend b p s = s' → exchange_ok (response Forwarded reply h)
    (with_out (client_out_ s ++ [reply]) s')) as Hex.
  { intros b Hb s' <-. split; simpl; try done; [by rewrite E1; eexists| | |lia].
    - intros _. by rewrite !concat_app, E4, <-(assoc_L (++)).
    - rewrite concat_app. by apply prefix_app_r. }
  assert (∀ b s', with_backend b p s = s' → cycle_ok (with_out (client_out_ s ++ [reply]) s')) as Hcy.
  { intros b s' <-. split; simpl; try done. intros [?|(_ & _ & ? & _)]%Y4; [done|lia]. }
  destruct (decide (p = 0%Z)) as [Hz|Hz]; simpl.
  - split; [by destruct (Hex None ltac:(done) _ eq_refl)|by destruct (Hcy None _ eq_refl)|].
    split; simpl; by eapply sleeper_notify.
  - assert (current_backend_ s = None ↔ p = 0%Z) as Hb by (split; [intros ?%E8; lia|done]).
    split; [by destruct (Hex _ Hb _ eq_refl)|by destruct (Hcy None _ eq_refl)|].
    split; simpl; [by eapply sleeper_notify|].
    eapply sleeper_mono; [|exact W2]. intros [?|?]; [by left|done].
Qed.

(** Error replies that become due do not change the history of an open session. *)
Lemma drain_ok h s error :
  session_ok h s → reader_at s = SrTop ∨ reader_at s = SrReading →
  result_ok h (let '(s', es) := drain error s in (with_reader SrEnd s', es)) ∨ cs_state s ≠ kOpen.
Proof.
  intros [[E1 E2 E3 E4 E5 E6 E7 E8 E9] [Y1 Y2 Y3 Y4] [W1 W2]] Hr.
  destruct (decide (cs_state s = kOpen)) as [Hst|]; [|by right]. left.
  assert (final_error_ s = ""%string) as Hf
    by (destruct (decide (final_error_ s = ""%string)) as [|Hne%Y1]; done).
  assert (due_error s = []) as Hd
    by (unfold due_error; destruct Hr as [-> | ->]; by rewrite decide_True).
  assert (reader_waits (reader_at s) = false) as Hrw by (by destruct Hr as [-> | ->]).
  unfold drain. rewrite decide_False by auto.
  unfold result_ok. simpl. rewrite history_sys. rewrite Hd, app_nil_r in E1.
  rewrite Hst in *. specialize (E1 ltac:(done)). specialize (E4 ltac:(done)). split.
  - destruct (decide (error = ""%string)) as [->|He]; split; simpl; try done.
    + unfold due_error. simpl. by rewrite app_nil_r.
    + unfold due_error. simpl. rewrite E1, <-(assoc_L (++)). by destruct (decide (error = _)).
    + rewrite E1. rewrite <-(assoc_L (++)). by eexists.
    + by rewrite app_nil_r.
  - split; simpl; try done. intros [?|[? _]]%Y4; done.
  - split; simpl; [by eapply sleeper_notify|]. rewrite Hrw in W2. by eapply sleeper_idle.
Qed.

(** [abort] establishes the invariant whatever is outstanding. *)
Lemma abort_rest_ok h s :
  session_ok h s → result_ok h (abort_rest (with_state kAborted s)).
Proof.
  intros [[E1 E2 E3 E4 E5 E6 E7 E8 E9] [Y1 Y2 Y3 Y4] [W1 W2]].
  unfold result_ok. simpl. rewrite history_sys. split.
  - by split.
  - split; simpl; try done. by left.
  - split; simpl; by eapply sleeper_notify.
Qed.

(** *** Parsing *)

Section scanning.
Context (UnpackOne : bytes → nat → RespLimits → RespResult) {uo : UnpackOneLaws UnpackOne}.
Context (rules : CommandRules).

(** From [off] on, [view] holds these frames, and the rules admit each. *)
Fixpoint frames (alloc : nat → bool) (p : RespParser) (view : bytes) (off : nat)
    (infos : list RespFrameInfo) : Prop :=
  match infos with
  | [] => True
  | i :: infos =>
      Status_ok (validate rules (String.string_of_list_ascii (fi_command_name i))
                   (Z.of_nat (fi_argc i))) = true ∧
      ∃ p', peek_bytes UnpackOne alloc p view off = Some (p', pOk, Some i) ∧
            frames alloc p' view (off + fi_consumed i) infos
  end.

Definition frames_length (infos : list RespFrameInfo) : nat := sum_list (fi_consumed <$> infos).

Record scan_post (alloc : nat → bool) (max : Z) (view : bytes) (sc sc' : Scan) : Prop := {
  sp_frames : ∃ infos, frames alloc (sc_parser sc) view (sc_consumed sc) infos ∧
    sc_parsed sc' = (sc_parsed sc + Z.of_nat (length infos))%Z ∧
    sc_consumed sc' = sc_consumed sc + frames_length infos;
  sp_within : sc_consumed sc' + sc_rejected sc' ≤ length view;
  sp_max : (sc_parsed sc <= sc_parsed sc' <= Z.max (sc_parsed sc) max)%Z;
  sp_parser : (0 <= max_frame_bytes_ (sc_parser sc'))%Z;
  sp_start : sc_error sc' = ""%string → sc_rejected sc' = 0
}.

Lemma validate_message name argc :
  Status_ok (validate rules name argc) = false → message_ (validate rules name argc) ≠ ""%string.
Proof.
  unfold validate. destruct (rules !! normalize name); [|done].
  repeat (match goal with |- context [if ?b then _ else _] => destruct b end); done.
Qed.

Lemma scan_loop_ok fuel alloc max view sc :
  length view - sc_consumed sc < fuel → sc_consumed sc ≤ length view →
  sc_error sc = ""%string → sc_rejected sc = 0 → (0 <= max_frame_bytes_ (sc_parser sc))%Z →
  ∃ sc', scan_loop UnpackOne rules fuel alloc max view sc = Some sc' ∧
         scan_post alloc max view sc sc'.
Proof.
  revert sc. induction fuel as [|fuel IH]; intros sc Hf Hle He Hr Hp; [lia|]. simpl.
  assert (∀ p ps e, (0 <= max_frame_bytes_ p)%Z →
    scan_post alloc max view sc (mkScan p (sc_parsed sc) (sc_consumed sc) ps e 0)) as Hstop.
  { intros p ps e Hp'. split; simpl; [exists []; simpl; split_and!; [done|lia|unfold frames_length; simpl; lia]
      |lia|lia|done|done]. }
  case_decide as Hmax; [|].
  2:{ eexists. split; [done|]. destruct sc. simpl in *. subst. by apply Hstop. }
  destruct (peek_bytes_total UnpackOne alloc (sc_parser sc) view (sc_consumed sc) Hp)
    as (p & ps & info & Hpeek & _ & Hmf & Hw).
  rewrite Hpeek. simpl. rewrite <-Hmf in Hp.
  destruct ps; [destruct info as [i|]|..]; try (eexists; split; [done|by apply Hstop]).
  simpl in Hw. destruct Hw as (_ & Hc & Hin & _ & _).
  destruct (Status_ok _) eqn:Hv.
  - destruct (IH (mkScan p (sc_parsed sc + 1) (sc_consumed sc + fi_consumed i) pOk "" 0))
      as (sc' & -> & [(infos & Hfr & Hpa & Hco) Hwi Hmx Hpr Hst]); simpl in *; try (done || lia).
    eexists. split; [done|]. split; [|lia|lia|done|done].
    exists (i :: infos). split_and!; simpl; [split; [done|eauto]|lia|].
    unfold frames_length in *. csimpl. lia.
  - eexists. split; [done|].
    split; simpl; [exists []; simpl; split_and!; [done|lia|unfold frames_length; simpl; lia]
      |lia|lia|done|].
    intros Hm. by apply validate_message in Hv.
Qed.
End scanning.

(** *** Moving the program counters *)

Lemma due_error_reader s r :
  reader_waits (reader_at s) = false → reader_waits r = false →
  due_error (with_reader r s) = due_error s.
Proof. unfold due_error. simpl. by destruct (reader_at s), r. Qed.

Lemma with_reader_ok h s r :
  session_ok h s → reader_waits (reader_at s) = false → reader_waits r = false →
  (if reader_over r then cs_state s ≠ kOpen else cs_state s ≠ kDraining) →
  session_ok h (with_reader r s).
Proof.
  intros [[] [Y1 Y2 Y3 Y4] [W1 W2]] Hs Hr Hst. split.
  - split; simpl; try done. rewrite due_error_reader by done. done.
  - split; simpl; try done; destruct (reader_over r); done.
  - split; simpl; [exact W1|]. rewrite Hr. rewrite Hs in W2. by eapply sleeper_idle.
Qed.

Lemma with_writer_ok h s r :
  session_ok h s → writer_at s ≠ SwWaiting → r ≠ SwWaiting →
  (writer_over r = true → cs_state s = kAborted) → session_ok h (with_writer r s).
Proof.
  intros [[] [Y1 Y2 Y3 Y4] [W1 W2]] Hs Hr Hst. split.
  - by split.
  - split; simpl; try done. by left; apply Hst.
  - split; simpl; [|exact W2]. rewrite bool_decide_eq_false_2 in W1 |- * by done.
    by eapply sleeper_idle.
Qed.

(** Returning from the [wait] of the writer. *)
Lemma writer_return_ok h s :
  session_ok h s → session_ok h (with_writer SwTop (with_output_signal (wait_return (output_signal_ s)) s)).
Proof.
  intros [[] [Y1 Y2 Y3 Y4] [W1 W2]]. split; [by split|by split|].
  split; simpl; [apply sleeper_return|exact W2].
Qed.

(** *** Input *)

Lemma read_ok h s data :
  session_ok h s → result_ok h (with_input (cs_parser s) (client_in_ s ++ data) s, [SeIn data]).
Proof.
  intros [[E1 E2 E3 E4 E5 E6 E7 E8 E9] [] []]. split; [|by split|by split].
  split; simpl; try done. by rewrite E3, (assoc_L (++)).
Qed.

(** Bytes leave the buffer; commands may be among them, when no error is due. *)
Lemma taken_ok h s p data rest n b :
  session_ok h s → client_in_ s = data ++ rest → (0 <= max_frame_bytes_ p)%Z →
  (0 <= n)%Z → (pending_replies_ s + n < 2 ^ 64)%Z → due_error s = [] →
  cs_state s = kOpen → (b = None ↔ (pending_replies_ s + n = 0)%Z) → reader_waits (reader_at s) = false →
  session_ok (request (replicate (Z.to_nat n) Forwarded) data h)
    (with_backend b (pending_replies_ s + n) (with_input p rest s)).
Proof.
  intros [[E1 E2 E3 E4 E5 E6 E7 E8 E9] [Y1 Y2 Y3 Y4] [W1 W2]] Hin Hp Hn Hb Hd Hst Hback Hrw. split.
  - split; simpl; try done; [| | | |lia].
    + intros _. unfold due_error in *. simpl. rewrite E1 by (by rewrite Hst). rewrite Hd, !app_nil_r.
      rewrite <-(assoc_L (++)), <-replicate_add. do 2 f_equal. lia.
    + by apply prefix_app_r.
    + rewrite E3, Hin. by rewrite (assoc_L (++)).
    + intros Hx. rewrite Hst in Hx. done.
  - split; simpl; try done. intros [?|[? _]]%Y4; congruence.
  - split; simpl; [|rewrite Hrw in *; by eapply sleeper_idle].
    eapply sleeper_mono; [|exact W1]. unfold writer_work. simpl. rewrite Hst. naive_solver.
Qed.

Section loops.
Context (PackError : string → bytes).

(** A refused command is due its answer; the reader is not suspended. *)
Record await_pre (error : string) h s : Prop := {
  ap_exchange : exchange_ok h (with_reader (SrWaitReplies error) s);
  ap_cycle : cycle_ok (with_reader (SrWaitReplies error) s);
  ap_writer : sleeper (output_signal_ s) (bool_decide (writer_at s = SwWaiting)) (writer_work s);
  ap_reader : sleeper (reply_signal_ s) false True
}.

Lemma await_suspend error h s g :
  await_pre error h s → cs_state s = kOpen → pending_replies_ s ≠ 0%Z →
  wait (reply_signal_ s) = (false, g) →
  result_ok h (with_reader (SrWaitReplies error) (with_reply_signal g s), []).
Proof.
  intros [[] [] Hw Hr] Hst Hp Hwait.
  pose proof (sleeper_wait _ True (reader_work s) _ _ Hr Hwait) as Hs. simpl in Hs.
  split; [by split|by split|]. split; simpl; [exact Hw|]. apply Hs. unfold reader_work. naive_solver.
Qed.

Lemma await_finish error h s :
  await_pre error h s → cs_state s = kOpen → pending_replies_ s = 0%Z →
  result_ok h (with_reader SrTop (notify_output (with_out (client_out_ s ++ [PackError error]) s)),
               [SeError error (PackError error)]).
Proof.
  intros [[E1 E2 E3 E4 E5 E6 E7 E8 E9] [Y1 Y2 Y3 Y4] Hw Hr] Hst Hp. simpl in *.
  rewrite Hst in *. specialize (E1 ltac:(done)). specialize (E4 ltac:(done)).
  assert (final_error_ s = ""%string) as Hf
    by (destruct (decide (final_error_ s = ""%string)) as [|Hne%Y1]; done).
  rewrite Hp in E1. unfold due_error in E1. simpl in E1.
  split.
  - split; simpl; try done.
    + intros _. unfold due_error. simpl. by rewrite E1, Hp, decide_True, app_nil_r.
    + by rewrite E1.
    + intros _. by rewrite !concat_app, E4, <-(assoc_L (++)).
    + rewrite concat_app. by apply prefix_app_r.
    + by rewrite Hst.
  - split; simpl; try done; rewrite ?Hst; try done. intros [?|[? _]]%Y4; done.
  - split; simpl; [by eapply sleeper_notify|by eapply sleeper_idle].
Qed.

Lemma await_end error h s :
  await_pre error h s → cs_state s ≠ kOpen → result_ok h (with_reader SrEnd s, []).
Proof.
  intros [[E1 E2 E3 E4 E5 E6 E7 E8 E9] [Y1 Y2 Y3 Y4] Hw Hr] Hst. simpl in *.
  assert (cs_state s = kAborted) as Ha.
  { destruct (cs_state s); [done| |done]. by specialize (Y3 eq_refl). }
  split; [by split|by split|]. split; simpl; [exact Hw|by eapply sleeper_idle].
Qed.

Lemma await_replies_ok error h s :
  await_pre error h s → ∃ r, await_replies PackError 2 error s = Some r ∧ result_ok h r.
Proof.
  intros Hpre. cbn [await_replies]. case_decide as Hw.
  - destruct Hw as [Hst Hp]. destruct (wait (reply_signal_ s)) as [returned g] eqn:Hwait.
    destruct returned.
    + destruct Hpre as [Hex Hcy Hwr Hrd].
      destruct (sleeper_wait _ True True _ _ Hrd Hwait) as [Hpend Hidle].
      destruct (wait_pending g Hpend) as [g' Hg'].
      assert (await_pre error h (with_reply_signal g s)) as Hpre' by (by destruct Hex, Hcy).
      rewrite decide_True by done. change (reply_signal_ (with_reply_signal g s)) with g.
      rewrite Hg'. eexists. split; [done|]. by apply await_suspend.
    + eexists. split; [done|]. by apply await_suspend.
  - case_decide as Hst; eexists; (split; [done|]).
    + by eapply await_end.
    + assert (cs_state s = kOpen) as Ho by (destruct (cs_state s); naive_solver).
      apply await_finish; [done|done|]. destruct (decide (pending_replies_ s = 0%Z)); naive_solver.
Qed.

(** Returning from the [wait] of the reader. *)
Lemma await_wake error h s :
  session_ok h s → reader_at s = SrWaitReplies error →
  await_pre error h (with_reply_signal (wait_return (reply_signal_ s)) s).
Proof.
  intros [Hex Hcy [W1 W2]] Hr. split; simpl; [| |exact W1|apply sleeper_return].
  - destruct Hex. split; try done. simpl. unfold due_error in *. simpl. by rewrite Hr in *.
  - destruct Hcy. rewrite Hr in *. by split.
Qed.

(** A command is refused: its bytes go, its answer is due. *)
Lemma refuse_pre error h s n :
  session_ok h s → reader_at s = SrTop → cs_state s = kOpen →
  await_pre error (request [Refused error] (take n (client_in_ s)) h)
    (with_input (cs_parser s) (drop n (client_in_ s)) s).
Proof.
  intros [[E1 E2 E3 E4 E5 E6 E7 E8 E9] [Y1 Y2 Y3 Y4] [W1 W2]] Hr Hst.
  assert (final_error_ s = ""%string) as Hf
    by (destruct (decide (final_error_ s = ""%string)) as [|Hne%Y1]; done).
  unfold due_error in E1. rewrite Hr, Hf, decide_True, app_nil_r in E1 by done.
  split; simpl; [| |exact W1|by rewrite Hr in W2; eapply sleeper_idle].
  - split; simpl; try done.
    + intros Ha. unfold due_error. simpl. by rewrite E1, <-(assoc_L (++)).
    + by apply prefix_app_r.
    + by rewrite E3, <-(assoc_L (++)), take_drop.
  - split; simpl; try done; rewrite Hst; done.
Qed.

Lemma reader_rest_ok sc h s :
  session_ok h s → reader_at s = SrTop → cs_state s = kOpen →
  ∃ r, reader_rest PackError sc s = Some r ∧ result_ok h r.
Proof.
  intros Hok Hr Hst. unfold reader_rest.
  case_decide; [case_decide|case_decide].
  - destruct (drain_ok h s (sc_error sc) Hok) as [Hd|]; [by left| |done].
    destruct (drain (sc_error sc) s). eauto.
  - destruct (await_replies_ok (sc_error sc) _ _ (refuse_pre (sc_error sc) h s (sc_rejected sc) Hok Hr Hst))
      as ([s' es] & -> & Hres). eexists. split; [done|]. exact Hres.
  - eexists. split; [done|]. apply with_reader_ok; [done|by rewrite Hr|done|by rewrite Hst].
  - eexists. split; [done|]. apply with_reader_ok; [done|by rewrite Hr|done|by rewrite Hst].
Qed.

(** *** Output *)

Lemma writer_suspend h s g :
  session_ok h s → writer_at s = SwTop → ¬ writer_work s → wait (output_signal_ s) = (false, g) →
  result_ok h (with_writer SwWaiting (with_output_signal g s), []).
Proof.
  intros [[] [] [W1 W2]] Hw Hwork Hwait. rewrite bool_decide_eq_false_2 in W1 by (by rewrite Hw).
  pose proof (sleeper_wait _ (writer_work s) (writer_work s) _ _ W1 Hwait) as Hs. simpl in Hs.
  split; [by split|by split|]. split; simpl; [by apply Hs|exact W2].
Qed.

Lemma writer_send h s out :
  session_ok h s → writer_at s = SwTop → cs_state s ≠ kAborted → client_out_ s = out →
  result_ok h (with_writer SwWriting (with_out (drop 64 out) s), [SeWrite (concat (take 64 out))]).
Proof.
  intros [[E1 E2 E3 E4 E5 E6 E7 E8 E9] [Y1 Y2 Y3 Y4] [W1 W2]] Hw Hst Hout.
  specialize (E4 Hst). assert (concat out = concat (take 64 out) ++ concat (drop 64 out)) as Hc
    by (by rewrite <-concat_app, take_drop).
  split.
  - split; simpl; try done.
    + intros _. by rewrite E4, Hout, Hc, (assoc_L (++)).
    + rewrite E4, Hout, Hc, (assoc_L (++)). by eexists.
  - by split.
  - split; simpl; [|exact W2]. rewrite bool_decide_eq_false_2 in W1 by (by rewrite Hw).
    by eapply sleeper_idle.
Qed.

Lemma writer_final h s :
  session_ok h s → writer_at s = SwTop → cs_state s = kDraining → pending_replies_ s = 0%Z →
  client_out_ s = [] → final_error_ s ≠ ""%string →
  result_ok h (with_writer SwWriting (with_final_error "" s),
    [SeError (final_error_ s) (PackError (final_error_ s)); SeWrite (PackError (final_error_ s))]).
Proof.
  intros [[E1 E2 E3 E4 E5 E6 E7 E8 E9] [Y1 Y2 Y3 Y4] [W1 W2]] Hw Hst Hp Hout Hf.
  rewrite Hst in *. specialize (E1 ltac:(done)). specialize (E4 ltac:(done)).
  rewrite Hp in E1. rewrite Hout in E4. simpl in *. rewrite app_nil_r in E4.
  specialize (Y3 eq_refl). unfold due_error in E1.
  assert (match reader_at s with SrWaitReplies e => [Refused e] | _ =>
    if decide (final_error_ s = ""%string) then [] else [Refused (final_error_ s)] end =
    [Refused (final_error_ s)]) as Hd by (destruct (reader_at s); try done; by rewrite decide_False).
  rewrite Hd in E1. split.
  - split; simpl; try done.
    + intros _. rewrite E1, Hp. unfold due_error. simpl. destruct (reader_at s); try done; by rewrite app_nil_r.
    + by rewrite E1.
    + intros _. rewrite Hout, concat_app, E4. simpl. by rewrite !app_nil_r.
    + by rewrite concat_app, E4; simpl; rewrite app_nil_r.
  - split; simpl; rewrite ?Hst; done.
  - split; simpl; [|exact W2]. rewrite bool_decide_eq_false_2 in W1 by (by rewrite Hw).
    by eapply sleeper_idle.
Qed.

Lemma writer_exit h s :
  session_ok h s → writer_at s = SwTop →
  cs_state s = kAborted ∨ (cs_state s = kDraining ∧ client_out_ s = [] ∧ pending_replies_ s = 0%Z ∧
    final_error_ s = ""%string) →
  result_ok h (with_writer SwEnd s, []).
Proof.
  intros [[] [] [W1 W2]] Hw Hx. split; [by split|by split|].
  split; simpl; [|exact W2]. rewrite bool_decide_eq_false_2 in W1 by (by rewrite Hw).
  by eapply sleeper_idle.
Qed.

Lemma session_writerLoop_ok h s :
  session_ok h s → writer_at s = SwTop →
  ∃ r, session_writerLoop PackError 2 s = Some r ∧ result_ok h r.
Proof.
  intros Hok Hw. cbn [session_writerLoop]. case_decide as Hst.
  { eexists. split; [done|]. apply writer_exit; auto. }
  destruct (client_out_ s) as [|x out] eqn:Hout.
  2:{ eexists. split; [done|]. by apply writer_send. }
  case_decide as Hdr.
  { destruct Hdr as [Hdr Hp]. case_decide; eexists; (split; [done|]).
    - apply writer_exit; auto.
    - by apply writer_final. }
  assert (¬ writer_work s) as Hwork by (unfold writer_work; naive_solver).
  destruct (wait (output_signal_ s)) as [returned g] eqn:Hwait. destruct returned.
  - pose proof Hok as [Hex Hcy [W1 W2]]. rewrite bool_decide_eq_false_2 in W1 by (by rewrite Hw).
    destruct (sleeper_wait _ _ (writer_work s) _ _ W1 Hwait) as [Hpend Hidle].
    destruct (wait_pending g Hpend) as [g' Hg'].
    assert (session_ok h (with_output_signal g s)) as Hok'.
    { split; [by destruct Hex|by destruct Hcy|]. split; simpl; [|exact W2].
      rewrite bool_decide_eq_false_2 by (by rewrite Hw). exact Hidle. }
    rewrite decide_False by done. change (client_out_ (with_output_signal g s)) with (client_out_ s).
    rewrite Hout, decide_False by done. change (output_signal_ (with_output_signal g s)) with g.
    rewrite Hg'. eexists. split; [done|]. by apply (writer_suspend h (with_output_signal g s)).
  - eexists. split; [done|]. by apply writer_suspend.
Qed.
End loops.

(** *** Which loops have returned *)

Definition loops_ok s : Prop :=
  active_loops_ s = (running (bool_decide (reader_at s = SrDone)) +
                     running (bool_decide (writer_at s = SwDone)))%Z.
Definition both_done s : Prop := reader_at s = SrDone ∧ writer_at s = SwDone.

Definition same_loops s s' : Prop :=
  active_loops_ s' = active_loops_ s ∧
  (reader_at s' = SrDone ↔ reader_at s = SrDone) ∧ (writer_at s' = SwDone ↔ writer_at s = SwDone).

Lemma same_loops_ok s s' : same_loops s s' → loops_ok s → loops_ok s'.
Proof.
  intros (Ha & Hr & Hw) Hok. unfold loops_ok in *. rewrite Ha, Hok.
  by rewrite (bool_decide_ext _ _ Hr), (bool_decide_ext _ _ Hw).
Qed.

Lemma same_loops_done s s' : same_loops s s' → both_done s' ↔ both_done s.
Proof. intros (_ & Hr & Hw). unfold both_done. by rewrite Hr, Hw. Qed.

Lemma reply_loops reply s : same_loops s (session_onBackendReply reply s).1.
Proof. unfold session_onBackendReply. by case_decide. Qed.

Lemma drain_loops error s : same_loops s (drain error s).1.
Proof. unfold drain. by case_decide. Qed.

Lemma abort_loops s : same_loops s (abort_rest (with_state kAborted s)).1.
Proof. done. Qed.

Lemma await_loops PackError error s r :
  reader_at s ≠ SrDone → await_replies PackError 2 error s = Some r → same_loops s r.1.
Proof.
  intros Hr. simpl. unfold wait. repeat case_match; intros; simplify_eq; (split_and!; [done| |done]);
    simpl; split; intros; congruence.
Qed.

Lemma rest_loops PackError sc s r :
  reader_at s = SrTop → reader_rest PackError sc s = Some r → same_loops s r.1.
Proof.
  intros Hr. unfold reader_rest. repeat case_decide.
  - pose proof (drain_loops (sc_error sc) s) as Hd. destruct (drain _ s). intros. simplify_eq.
    destruct Hd as (? & ? & ?). split_and!; try done. simpl. rewrite Hr. done.
  - set (s' := with_input _ _ s). destruct (await_replies PackError 2 (sc_error sc) s') as [[s1 es]|] eqn:Ha;
      simpl; intros; simplify_eq. apply await_loops in Ha; [done|]. simpl. by rewrite Hr.
  - intros. simplify_eq. split_and!; try done. simpl. by rewrite Hr.
  - intros. simplify_eq. split_and!; try done. simpl. by rewrite Hr.
Qed.

Lemma writer_loops PackError s r :
  writer_at s = SwTop → session_writerLoop PackError 2 s = Some r → same_loops s r.1.
Proof.
  intros Hw. simpl. unfold wait. repeat case_match; intros; simplify_eq; (split_and!; [done|done|]);
    simpl; rewrite Hw; done.
Qed.
End invariant.
