(* ===== verification/WorkerInv.v ===== *)
(** * The invariant of a worker

    Sessions and channels agree on what is outstanding, nobody holds a dangling
    reference, and every session's history is in order.  Each step of a worker
    goes well and preserves this. *)
From S2P Require Import Prelude Status CommandRules RespParser CoSocket CoroutineSignal Config.
From S2P Require Import BackendChannel ChannelInv ChannelProps BackendPool ClientSession.
From S2P Require Import SessionInv Worker.

(** ** What a channel owes a session *)

(** Commands of session [a] that are queued or await their reply. *)
Definition owed_unsent (a : nat) (l : list (sink * bytes * Z)) : Z :=
  foldr Z.add 0%Z ((λ e, if decide (e.1.1 = Some a) then e.2 else 0%Z) <$> l).
Definition owed_slots (a : nat) (l : list sink) : Z :=
  Z.of_nat (length (filter (λ s, s = Some a) l)).
Definition owed (a : nat) (f : Fifo) : Z := (owed_unsent a (unsent f) + owed_slots a (slots f))%Z.

Lemma owed_unsent_app a l l' : owed_unsent a (l ++ l') = (owed_unsent a l + owed_unsent a l')%Z.
Proof.
  unfold owed_unsent. induction l as [|e l IH]; [done|]. csimpl. rewrite IH. lia.
Qed.

Lemma owed_slots_app a l l' : owed_slots a (l ++ l') = (owed_slots a l + owed_slots a l')%Z.
Proof. unfold owed_slots. rewrite filter_app, length_app. lia. Qed.

Lemma owed_slots_replicate a n o :
  owed_slots a (replicate n o) = if decide (o = Some a) then Z.of_nat n else 0%Z.
Proof.
  unfold owed_slots. induction n as [|n IH]; simpl; [by case_decide|].
  destruct (decide (o = Some a)).
  - rewrite filter_cons_True by done. simpl. lia.
  - by rewrite filter_cons_False.
Qed.

Lemma owed_slots_blank a b l :
  owed_slots a (blank_sink b <$> l) = if decide (a = b) then 0%Z else owed_slots a l.
Proof.
  unfold owed_slots. induction l as [|s l IH]; csimpl; [by case_decide|].
  unfold blank_sink at 1. destruct (decide (s = Some b)) as [->|Hs].
  - rewrite filter_cons_False by done. rewrite IH. case_decide as Hab; [done|].
    rewrite filter_cons_False by congruence. done.
  - destruct (decide (s = Some a)) as [->|Hsa].
    + rewrite !filter_cons_True by done. simpl. rewrite decide_False by congruence.
      rewrite decide_False in IH by congruence. lia.
    + rewrite !filter_cons_False by done. done.
Qed.

Lemma owed_unsent_detach a b l :
  owed_unsent a (filter (λ e, e.1.1 ≠ Some b) l) = if decide (a = b) then 0%Z else owed_unsent a l.
Proof.
  unfold owed_unsent. induction l as [|e l IH]; csimpl; [by case_decide|].
  destruct (decide (e.1.1 = Some b)) as [He|He].
  - rewrite filter_cons_False by tauto. rewrite IH. case_decide; [done|].
    rewrite decide_False by congruence. lia.
  - rewrite filter_cons_True by done. csimpl. rewrite IH. case_decide; [|done].
    rewrite decide_False by congruence. lia.
Qed.

(** All counts are positive. *)
Definition counts_ok (f : Fifo) : Prop := Forall (λ e, 0 < e.2)%Z (unsent f).

Lemma owed_unsent_nonneg a l : Forall (λ e, 0 < e.2)%Z l → (0 <= owed_unsent a l)%Z.
Proof.
  unfold owed_unsent. induction 1 as [|e l He _ IH]; csimpl; [done|]. case_decide; lia.
Qed.

Lemma owed_nonneg a f : counts_ok f → (0 <= owed a f)%Z.
Proof. intros Hc. unfold owed, owed_slots. pose proof (owed_unsent_nonneg a _ Hc). lia. Qed.

Lemma owed_unsent_zero a l : Forall (λ e, 0 < e.2)%Z l → owed_unsent a l = 0%Z → a ∉ omap (λ e, e.1.1) l.
Proof.
  induction 1 as [|e l He Hl IH]; [by intros _ ?%elem_of_nil|].
  unfold owed_unsent. csimpl. fold (owed_unsent a l). pose proof (owed_unsent_nonneg a l Hl).
  destruct (decide (e.1.1 = Some a)) as [Hx|Hx]; intros Hz; [lia|].
  destruct (e.1.1) as [b|] eqn:Hb; csimpl; [|apply IH; lia].
  rewrite elem_of_cons. intros [->|Hin]; [done|]. revert Hin. apply IH. lia.
Qed.

Lemma owed_slots_zero a l : owed_slots a l = 0%Z → a ∉ omap id l.
Proof.
  unfold owed_slots. intros Hz Hin. apply list_elem_of_omap in Hin as (s & Hs & Hx). simpl in Hx. subst s.
  assert (Some a ∈ filter (λ s, s = Some a) l) as Hf by (by apply list_elem_of_filter).
  destruct (filter _ l); [by apply elem_of_nil in Hf|]. simpl in Hz. lia.
Qed.

(** Owing nothing is not being an owner. *)
Lemma owed_zero a f : counts_ok f → owed a f = 0%Z ↔ a ∉ fifo_owners f.
Proof.
  intros Hc. unfold owed, fifo_owners. pose proof (owed_unsent_nonneg a _ Hc).
  assert (0 <= owed_slots a (slots f))%Z by (unfold owed_slots; lia).
  rewrite elem_of_app. split.
  - intros Hz [Hin|Hin]; revert Hin; [apply owed_unsent_zero; [done|lia]|apply owed_slots_zero; lia].
  - intros Hn. assert (owed_unsent a (unsent f) = 0%Z) as ->.
    + clear -Hn. induction (unsent f) as [|e l IH]; [done|]. unfold owed_unsent. csimpl.
      fold (owed_unsent a l). rewrite IH.
      * case_decide as He; [|done]. exfalso. apply Hn. left. csimpl. rewrite He. left.
      * intros [Hin|Hin]; apply Hn; [|by right]. left. csimpl. destruct (e.1.1); [by right|done].
    + unfold owed_slots. replace (filter (λ s, s = Some a) (slots f)) with (@nil sink); [done|].
      symmetry.
      destruct (filter _ _) as [|s l] eqn:Hf; [done|]. exfalso. apply Hn. right.
      assert (s ∈ filter (λ s, s = Some a) (slots f)) as Hs by (rewrite Hf; left).
      apply list_elem_of_filter in Hs as [-> Hs]. apply list_elem_of_omap. by exists (Some a).
Qed.

(** The effect of a channel's step on what it owes. *)
Lemma fifo_step_owed a e f f' :
  fifo_step e f = Some f' →
  owed a f' =
    match e with
    | EfSubmitted o _ n => (owed a f + if decide (o = Some a) then n else 0)%Z
    | EfDetached b => if decide (a = b) then 0%Z else owed a f
    | EfReply o _ => (owed a f - if decide (o = Some a) then 1 else 0)%Z
    | EfUp | EfDown _ _ => 0%Z
    | EfSent o _ n => (owed a f + if decide (o = Some a) then Z.max 0 n - n else 0)%Z
    | _ => owed a f
    end.
Proof.
  unfold owed. destruct e; simpl; intros Hstep.
  - repeat case_match; by simplify_eq.
  - case_decide; simplify_eq/=. rewrite owed_unsent_app. unfold owed_unsent at 2. simpl.
    case_decide; lia.
  - case_decide; by simplify_eq.
  - simplify_eq/=. rewrite owed_unsent_detach, owed_slots_blank. by case_decide.
  - case_decide; by simplify_eq.
  - destruct (unsent f) as [|u l]; [done|]. case_decide; simplify_eq/=.
    rewrite owed_slots_app, owed_slots_replicate. unfold owed_unsent. csimpl.
    case_decide; lia.
  - destruct (slots f) as [|s l]; [done|]. case_decide as Hs; [|done]. subst s. simplify_eq/=.
    pose proof (owed_slots_app a (replicate 1 owner) l) as Happ.
    rewrite owed_slots_replicate in Happ. simpl in Happ. rewrite Happ. case_decide; lia.
  - case_decide; by simplify_eq.
  - by simplify_eq.
Qed.

(** ** Histories of sessions *)

Definition session_events (a : nat) (tr : list Event) : list SessionEvent :=
  omap (λ ev, match ev with WSession b e => if decide (b = a) then Some e else None | _ => None end) tr.

Definition session_history (a : nat) (tr : list Event) : History :=
  history_after history0 (session_events a tr).

Lemma session_events_app a tr tr' : session_events a (tr ++ tr') = session_events a tr ++ session_events a tr'.
Proof. apply omap_app. Qed.

Lemma session_history_app a tr tr' :
  session_history a (tr ++ tr') = history_after (session_history a tr) (session_events a tr').
Proof. unfold session_history, session_events. by rewrite omap_app, foldl_app. Qed.

Lemma session_events_own a es : session_events a (WSession a <$> es) = es.
Proof.
  unfold session_events. induction es as [|e es IH]; [done|]. csimpl. rewrite decide_True by done.
  by f_equal.
Qed.

Lemma session_events_other a b es : a ≠ b → session_events a (WSession b <$> es) = [].
Proof.
  intros Hab. unfold session_events. induction es as [|e es IH]; [done|]. csimpl.
  by rewrite decide_False.
Qed.

Lemma session_events_channel {A} a (l : list A) (f : A → nat) (g : A → Effect) :
  session_events a ((λ x, WChannel (f x) (g x)) <$> l) = [].
Proof. unfold session_events. induction l as [|e l IH]; [done|]. by csimpl. Qed.

(** ** The invariant *)

Section invariant.
Context {C N : Type} {cond : CoCond C} {laws : CoCondLaws C}.
Context {notifier : FdNotifier N} {nlaws : FdNotifierLaws N} {order : SetOrder} {Endpoint : Type}.
Context (UnpackOne : bytes → nat → RespLimits → RespResult) {uo : UnpackOneLaws UnpackOne}.
Context (PackError : string → bytes) (rules : CommandRules).
Implicit Types (w : Worker C N Endpoint) (s : ClientSession C Endpoint) (ch : BackendChannel C Endpoint)
  (l : list (BackendChannel C Endpoint)).

Definition chans w : list (BackendChannel C Endpoint) := channels_ (backend_pool_ w).
Definition debts (l : list (BackendChannel C Endpoint)) (a : nat) : list Z := (λ ch, owed a (abs ch)) <$> l.
Definition total (ds : list Z) : Z := foldr Z.add 0%Z ds.

(** A session knows how many replies it waits for, and from which channel. *)
Record linked (ds : list Z) s : Prop := {
  lk_total : pending_replies_ s = total ds;
  lk_backend : ∀ i d, ds !! i = Some d → d ≠ 0%Z → current_backend_ s = Some i
}.

(** [data] is made of [n] frames the rules admit. *)
Definition admitted (data : bytes) (n : Z) : Prop :=
  ∃ alloc p view infos, frames UnpackOne rules alloc p view 0 infos ∧
    n = Z.of_nat (length infos) ∧ data = take (frames_length infos) view.

(** Whatever is accepted from a client or submitted to a channel is admitted. *)
Definition event_ok (ev : Event) : Prop :=
  match ev with
  | WSession _ (SeAccepted data n) | WChannel _ (EfSubmitted _ data n) => admitted data n
  | _ => True
  end.

(** The loop of the worker is not asleep while there is something to reap. *)
Record main_ok w : Prop := {
  mo_flag : pending_fds_ w ≠ [] → has_pending_fds_ w = true;
  mo_fds : main_pc w = MainReap ∨ main_pc w = MainPoll → pending_fds_ w ≠ [] →
    0 < dispatching w ∨ notifier_readable (fd_notifier_ w) = true;
  mo_finished : main_pc w = MainPoll → finished_sessions_ w ≠ [] →
    notifier_readable (fd_notifier_ w) = true
}.

(** [X]: the sessions that are still to be told that their channel failed. *)
Record worker_inv (X : gset nat) w : Prop := {
  wi_channels : Forall channel_inv (chans w);
  wi_sessions : ∀ a s, sessions_ w !! a = Some s →
    session_ok (session_history a (trace w)) s ∧ loops_ok s ∧
    (max_pipeline_commands_per_read (cs_config s) < 2 ^ 32)%Z;
  wi_linked : ∀ a s, sessions_ w !! a = Some s → a ∉ X → linked (debts (chans w) a) s;
  wi_exempt : ∀ a, a ∈ X → ∃ s, sessions_ w !! a = Some s ∧ cs_state s ≠ kAborted;
  wi_gone : ∀ a, sessions_ w !! a = None → Forall (λ d, d = 0%Z) (debts (chans w) a);
  wi_finished : ∀ a, a ∈ finished_sessions_ w ↔ ∃ s, sessions_ w !! a = Some s ∧ both_done s;
  wi_nodup : NoDup (finished_sessions_ w);
  wi_admitted : Forall event_ok (trace w);
  wi_main : main_ok w;
  wi_config : (0 <= max_request_bytes (wk_config w))%Z ∧
              (max_pipeline_commands_per_read (wk_config w) < 2 ^ 32)%Z
}.

(** *** Debts *)

Lemma channel_counts ch : channel_inv ch → counts_ok (abs ch).
Proof.
  intros [[Qu _ _ _] _ _ _]. unfold counts_ok. simpl. apply Forall_fmap.
  eapply Forall_impl; [exact Qu|]. intros b Hb. unfold count_ok in Hb. simpl. lia.
Qed.

Lemma debts_nonneg l a : Forall channel_inv l → Forall (λ d, 0 <= d)%Z (debts l a).
Proof.
  intros Hl. apply Forall_fmap. eapply Forall_impl; [exact Hl|]. intros ch Hch. simpl.
  by apply owed_nonneg, channel_counts.
Qed.

Lemma total_nonneg ds : Forall (λ d, 0 <= d)%Z ds → (0 <= total ds)%Z.
Proof. unfold total. induction 1; simpl; lia. Qed.

Lemma total_zero ds : Forall (λ d, 0 <= d)%Z ds → total ds = 0%Z ↔ Forall (λ d, d = 0%Z) ds.
Proof.
  induction 1 as [|d ds Hd Hds IH]; [by split|]. unfold total. simpl. fold (total ds).
  pose proof (total_nonneg ds Hds). rewrite Forall_cons, <-IH. lia.
Qed.

Lemma total_lookup ds i d : Forall (λ d, 0 <= d)%Z ds → ds !! i = Some d → (d <= total ds)%Z.
Proof.
  intros Hds. revert i. induction Hds as [|x ds Hx Hds IH]; intros i; [done|].
  unfold total. simpl. fold (total ds). pose proof (total_nonneg ds Hds).
  destruct i; simpl; [intros; simplify_eq; lia|]. intros Hi%IH. lia.
Qed.

Lemma total_insert ds i d d' : ds !! i = Some d → total (<[i := d']> ds) = (total ds - d + d')%Z.
Proof.
  revert i. induction ds as [|x ds IH]; intros i Hi; [done|].
  unfold total. destruct i; simpl in *; simplify_eq; [lia|]. fold (total ds).
  unfold total in IH. rewrite (IH _ Hi). fold (total ds). lia.
Qed.

(** *** Running the worker's primitives *)

Lemma wp_modify f Q w : Q tt (f w) → wp (modify f) Q w.
Proof. done. Qed.

Lemma wp_emit es Q w : Q tt (upd_trace (trace w ++ es) w) → wp (emit es) Q w.
Proof. done. Qed.

Lemma wp_get_session a s Q w : sessions_ w !! a = Some s → Q s w → wp (get_session a) Q w.
Proof. intros Ha HQ. apply wp_bind, wp_get. by eapply wp_opt. Qed.

Lemma wp_put_session a s Q w :
  Q tt (upd_sessions (<[a := s]> (sessions_ w)) w) → wp (put_session a s) Q w.
Proof. done. Qed.

Lemma wp_session_apply a r Q w :
  Q tt (upd_trace (trace w ++ (WSession a <$> r.2)) (upd_sessions (<[a := r.1]> (sessions_ w)) w)) →
  wp (session_apply a r) Q w.
Proof. done. Qed.

Lemma wp_session_do a f s Q w :
  sessions_ w !! a = Some s → wp (session_apply a (f s)) Q w → wp (session_do a f) Q w.
Proof. intros Ha HQ. apply wp_bind. by eapply wp_get_session. Qed.

Lemma wp_pool_detach a Q w :
  Q tt (upd_trace (trace w ++ ((λ e, WChannel e.1 e.2) <$> (BackendPool_detachOwner a (backend_pool_ w)).2))
          (upd_pool (BackendPool_detachOwner a (backend_pool_ w)).1 w)) →
  wp (pool_detach a) Q w.
Proof. done. Qed.

(** *** One session changes *)

(** Events that concern session [a] only, and admit what they accept. *)
Record events_of (a : nat) (tr : list Event) (es : list SessionEvent) : Prop := {
  eo_own : session_events a tr = es;
  eo_other : ∀ b, b ≠ a → session_events b tr = [];
  eo_admitted : Forall event_ok tr
}.

Lemma events_of_session a es :
  (∀ data n, SeAccepted data n ∈ es → admitted data n) → events_of a (WSession a <$> es) es.
Proof.
  intros Hadm. split; [apply session_events_own|intros; by apply session_events_other|].
  apply Forall_fmap, list.Forall_forall. intros e He. destruct e; simpl; auto.
Qed.

(** Effects other than submissions. *)
Definition no_submit (e : Effect) : Prop := match e with EfSubmitted _ _ _ => False | _ => True end.

Lemma events_of_channel {A} a (l : list A) (f : A → nat) (g : A → Effect) tr es :
  events_of a tr es → Forall (λ x, event_ok (WChannel (f x) (g x))) l →
  events_of a (((λ x, WChannel (f x) (g x)) <$> l) ++ tr) es.
Proof.
  assert (∀ b, session_events b (((λ x, WChannel (f x) (g x)) <$> l) ++ tr) = session_events b tr) as He.
  { intros b. by rewrite session_events_app, session_events_channel. }
  intros [H1 H2 H3] Hl. split.
  - by rewrite He.
  - intros b Hb. rewrite He. auto.
  - apply Forall_app. split; [|done]. by apply Forall_fmap.
Qed.

Lemma update_gen X w w' a s s' tr es :
  worker_inv X w → sessions_ w !! a = Some s →
  sessions_ w' = <[a := s']> (sessions_ w) → trace w' = trace w ++ tr → events_of a tr es →
  (∀ b, b ∈ finished_sessions_ w' ↔ b ≠ a ∧ b ∈ finished_sessions_ w ∨ b = a ∧ both_done s') →
  NoDup (finished_sessions_ w') → main_ok w' → wk_config w' = wk_config w →
  Forall channel_inv (chans w') → (∀ b, b ≠ a → debts (chans w') b = debts (chans w) b) →
  session_ok (history_after (session_history a (trace w)) es) s' →
  loops_ok s' → cs_config s' = cs_config s → linked (debts (chans w') a) s' →
  worker_inv (X ∖ {[a]}) w'.
Proof.
  intros Hinv Ha Hs Ht [He1 He2 He3] Hfin Hnd Hmain Hcfg Hch Hd Hok Hloops Hc Hlink.
  split; try done.
  - intros b t Hb. rewrite Hs in Hb. rewrite Ht, session_history_app.
    destruct (decide (b = a)) as [->|Hab].
    + rewrite lookup_insert_eq in Hb. injection Hb as <-. rewrite He1.
      destruct (wi_sessions _ _ Hinv a s Ha) as (_ & _ & Hm).
      split_and!; [done|done|by rewrite Hc].
    + rewrite lookup_insert_ne in Hb by done. rewrite He2 by done. by apply (wi_sessions _ _ Hinv).
  - intros b t Hb Hx. rewrite Hs in Hb. destruct (decide (b = a)) as [->|Hab].
    + rewrite lookup_insert_eq in Hb. by simplify_eq.
    + rewrite lookup_insert_ne in Hb by done. rewrite Hd by done.
      apply (wi_linked _ _ Hinv); [done|]. set_solver.
  - intros b [Hb Hne]%elem_of_difference. rewrite Hs. rewrite lookup_insert_ne by set_solver.
    by apply (wi_exempt _ _ Hinv).
  - intros b Hb. rewrite Hs in Hb. destruct (decide (b = a)) as [->|Hab].
    + by rewrite lookup_insert_eq in Hb.
    + rewrite lookup_insert_ne in Hb by done. rewrite Hd by done. by apply (wi_gone _ _ Hinv).
  - intros b. rewrite Hfin, (wi_finished _ _ Hinv), Hs. destruct (decide (b = a)) as [->|Hab].
    + rewrite lookup_insert_eq. naive_solver.
    + rewrite lookup_insert_ne by done. naive_solver.
  - rewrite Ht. apply Forall_app. split; [apply Hinv|done].
  - rewrite Hcfg. apply Hinv.
Qed.

Lemma update_ok X w w' a s s' tr es :
  worker_inv X w → sessions_ w !! a = Some s →
  sessions_ w' = <[a := s']> (sessions_ w) → trace w' = trace w ++ tr → events_of a tr es →
  finished_sessions_ w' = finished_sessions_ w → main_ok w' → wk_config w' = wk_config w →
  Forall channel_inv (chans w') → (∀ b, b ≠ a → debts (chans w') b = debts (chans w) b) →
  session_ok (history_after (session_history a (trace w)) es) s' →
  same_loops s s' → cs_config s' = cs_config s → linked (debts (chans w') a) s' →
  worker_inv (X ∖ {[a]}) w'.
Proof.
  intros Hinv Ha Hs Ht He Hfin Hmain Hcfg Hch Hd Hok Hloops Hc Hlink.
  pose proof (same_loops_done _ _ Hloops) as Hdone.
  eapply (update_gen X w w' a s s'); try done.
  - intros b. rewrite Hfin. destruct (decide (b = a)) as [->|Hab]; [|naive_solver].
    rewrite (wi_finished _ _ Hinv), Ha. naive_solver.
  - rewrite Hfin. apply Hinv.
  - eapply same_loops_ok; [done|]. by apply (wi_sessions _ _ Hinv a s Ha).
Qed.

(** *** Detaching *)

Lemma detach_step a ch :
  channel_inv ch →
  channel_inv (BackendChannel_detachOwner a ch).1 ∧
  fifo_step (EfDetached a) (abs ch) = Some (abs (BackendChannel_detachOwner a ch).1).
Proof.
  intros Hinv. destruct (detach_ok ch a Hinv) as [Hi Hf]. split; [done|].
  assert ((BackendChannel_detachOwner a ch).2 = [EfDetached a]) as He.
  { unfold BackendChannel_detachOwner. by destruct (erase_owner _ _ _). }
  by rewrite He in Hf.
Qed.

Lemma detach_owed a b ch :
  channel_inv ch →
  owed b (abs (BackendChannel_detachOwner a ch).1) = if decide (b = a) then 0%Z else owed b (abs ch).
Proof. intros [_ Hf]%(detach_step a). by rewrite (fifo_step_owed b _ _ _ Hf). Qed.

Lemma detach_chans a l :
  Forall channel_inv l →
  let l' := (λ ch, (BackendChannel_detachOwner a ch).1) <$> l in
  Forall channel_inv l' ∧ Forall (λ d, d = 0%Z) (debts l' a) ∧
  ∀ b, b ≠ a → debts l' b = debts l b.
Proof.
  intros Hl l'. subst l'. split_and!.
  - apply Forall_fmap. eapply Forall_impl; [exact Hl|]. intros ch Hch. by apply detach_step.
  - unfold debts. apply Forall_fmap, Forall_fmap. eapply Forall_impl; [exact Hl|]. intros ch Hch. simpl.
    by rewrite detach_owed, decide_True.
  - intros b Hb. unfold debts. induction Hl as [|ch l Hch Hl IH]; [done|]. csimpl. by rewrite IH, detach_owed, decide_False.
Qed.

Lemma linked_zero ds s : Forall (λ d, d = 0%Z) ds → pending_replies_ s = 0%Z → linked ds s.
Proof.
  intros Hds Hp. split.
  - rewrite Hp. symmetry. apply total_zero; [|done]. eapply Forall_impl; [exact Hds|]. simpl. lia.
  - intros i d Hi Hd. eapply Forall_lookup_1 in Hds; [|done]. done.
Qed.

Lemma main_same w w' :
  main_ok w → pending_fds_ w' = pending_fds_ w → has_pending_fds_ w' = has_pending_fds_ w →
  main_pc w' = main_pc w → dispatching w' = dispatching w → fd_notifier_ w' = fd_notifier_ w →
  finished_sessions_ w' = finished_sessions_ w → main_ok w'.
Proof. intros [M1 M2 M3] E1 E2 E3 E4 E5 E6. split; rewrite ?E1, ?E2, ?E3, ?E4, ?E5, ?E6; done. Qed.

Lemma detach_events a (pool : BackendPool C Endpoint) :
  Forall (λ e, event_ok (WChannel e.1 e.2)) (BackendPool_detachOwner a pool).2.
Proof.
  simpl. apply list.Forall_forall. intros e He. apply list_elem_of_lookup in He as [k Hk].
  rewrite list_lookup_imap in Hk. destruct (channels_ pool !! k); simplify_eq/=. done.
Qed.

(** *** Aborting a session *)

(** What [abort] leaves behind: [a] is aborted and points where it was, the other
    sessions are as they were. *)
Definition aborted_post (X : gset nat) (a : nat) (w : Worker C N Endpoint) (_ : unit)
    (w' : Worker C N Endpoint) : Prop :=
  worker_inv (X ∖ {[a]}) w' ∧
  (∃ s s', sessions_ w !! a = Some s ∧ sessions_ w' !! a = Some s' ∧ cs_state s' = kAborted ∧
     reader_at s' = reader_at s ∧ writer_at s' = writer_at s) ∧
  ∀ b, b ≠ a → sessions_ w' !! b = sessions_ w !! b.

Lemma wp_abort X w a :
  worker_inv X w → is_Some (sessions_ w !! a) → wp (abort a) (aborted_post X a w) w.
Proof.
  intros Hinv [s Ha]. apply wp_bind. eapply wp_get_session; [done|]. case_decide as Hst.
  { apply wp_ret. split_and!; [|by exists s, s|done].
    replace (X ∖ {[a]}) with X; [done|]. apply leibniz_equiv. intros b.
    rewrite elem_of_difference, elem_of_singleton. split; [|tauto]. intros Hb. split; [done|].
    intros ->. destruct (wi_exempt _ _ Hinv a Hb) as (t & Ht & Hn). simplify_eq. }
  apply wp_bind, wp_put_session, wp_bind, wp_pool_detach.
  eapply wp_session_do; [by apply lookup_insert_eq|]. apply wp_session_apply. simpl.
  destruct (wi_sessions _ _ Hinv a s Ha) as (Hok & Hl & Hm).
  destruct (detach_chans a (chans w) (wi_channels _ _ Hinv)) as (Hch & Hz & Hd).
  split; [|split].
  - eapply (update_ok X w _ a s (abort_rest (with_state kAborted s)).1); try done.
    + simpl. by rewrite insert_insert_eq.
    + simpl. by rewrite <-(assoc_L (++)).
    + apply events_of_channel; [|apply detach_events].
      apply (events_of_session a (abort_rest (with_state kAborted s)).2). intros data n. simpl. rewrite elem_of_cons. intros [?|Hin]; [done|].
      apply list_elem_of_fmap in Hin as (? & ? & _). done.
    + by apply (main_same w _ (wi_main _ _ Hinv)).
    + by apply abort_rest_ok.
    + by apply linked_zero.
  - exists s. eexists. split_and!; [done|apply lookup_insert_eq|done..].
  - intros b Hb. simpl. by rewrite !lookup_insert_ne.
Qed.

(** *** Steps of channels *)

(** System calls and what concerns the channel's own buffers. *)
Definition is_sys (e : Effect) : Prop := match e with EfSys _ | EfBuf _ => True | _ => False end.

(** What may follow when a connection has failed. *)
Definition is_idle (e : Effect) : Prop :=
  match e with EfSys _ | EfBuf BufWritten => True | _ => False end.

Lemma idle_sys es : Forall is_idle es → Forall is_sys es.
Proof. intros Hes. eapply Forall_impl; [exact Hes|]. by intros []. Qed.

(** What a resumed channel can show. *)
Inductive shape : list Effect → Prop :=
  | sh_sys es : Forall is_sys es → shape es
  | sh_up : shape [EfUp]
  | sh_sent o data n : shape [EfSent o data n]
  | sh_reply o data : shape [EfReply o data]
  | sh_down es st owners es' :
      Forall is_sys es → Forall is_idle es' → shape (es ++ EfDown st owners :: es').

Lemma sys_calls calls : Forall is_sys (EfSys <$> calls).
Proof. apply Forall_fmap, Forall_true. done. Qed.

Lemma idle_calls calls : Forall is_idle (EfSys <$> calls).
Proof. apply Forall_fmap, Forall_true. done. Qed.

Lemma fail_shape st ch es' : Forall is_idle es' → shape ((failConnection st ch).2 ++ es').
Proof.
  intros Hes. unfold failConnection. case_decide; [by apply sh_sys, idle_sys|]. simpl.
  rewrite <-(assoc_L (++)). apply sh_down; [apply sys_calls|done].
Qed.

Lemma fail_buf_shape e st ch : shape (EfBuf e :: (failConnection st ch).2).
Proof.
  unfold failConnection. case_decide; [apply sh_sys; by repeat constructor|].
  apply (sh_down (EfBuf e :: (EfSys <$> _))); [constructor; [done|apply sys_calls]|done].
Qed.

Lemma fail_shape_nil st ch : shape (failConnection st ch).2.
Proof. rewrite <-(app_nil_r (failConnection st ch).2). by apply fail_shape. Qed.

Lemma close_shape ch : shape (run_close ch).2.
Proof. unfold run_close. destruct (CoSocket_close _). apply sh_sys, Forall_app. split; [apply sys_calls|by repeat constructor]. Qed.

Lemma wait_reader_shape ch r : run_wait_reader 2 ch = Some r → shape r.2.
Proof.
  simpl. destruct (reader_done_ ch); [intros; simplify_eq; apply close_shape|].
  destruct (wait (writer_signal_ ch)) as [[] g]; simpl; [destruct (wait g) as [[] g']|];
    intros; simplify_eq; by apply sh_sys.
Qed.

Lemma writer_shape ch r : BackendChannel.writerLoop 2 ch = Some r → shape r.2.
Proof.
  cbn [BackendChannel.writerLoop]. destruct (isHealthy ch) eqn:Hh; cbn [negb]; [|by apply wait_reader_shape].
  destruct (write_queue_ ch) eqn:Hq; [|intros; simplify_eq; apply sh_sent].
  destruct (wait (writer_signal_ ch)) as [[] g]; [|intros; simplify_eq; by apply sh_sys].
  change (isHealthy (set_signal g ch)) with (isHealthy ch). rewrite Hh. simpl. rewrite Hq.
  destruct (wait g) as [[] g']; intros; simplify_eq; by apply sh_sys.
Qed.

Lemma parse_shape alloc ch r : reader_parse UnpackOne alloc ch = Some r → shape r.2.
Proof.
  unfold reader_parse. destruct (negb _); [intros; simplify_eq; by apply sh_sys|].
  destruct (next_bytes _ _ _ _) as [[[p ps] n]|]; [|done]. simpl.
  set (f := failConnection (Status_ProtocolError "bad redis reply") _).
  assert (shape f.2) as Hf by apply fail_shape_nil. destruct f as [c e].
  destruct ps; [destruct n|..]; intros; simplify_eq; try done; [|by apply sh_sys].
  unfold dispatchReply. destruct (pending_queue_ _); [apply fail_buf_shape|apply sh_reply].
Qed.

(** Not a call from a session. *)
Definition resumes (o : ChannelOp Endpoint) : Prop :=
  match o with OpSubmit _ _ _ | OpDetach _ => False | _ => True end.

Lemma step_shape o ch r : resumes o → channel_step UnpackOne o ch = Some r → shape r.2.
Proof.
  intros Ho Hstep. destruct o; cbn [channel_step] in Hstep; try done.
  - simplify_eq. by apply sh_sys.
  - unfold BackendChannel_stop in Hstep.
    pose proof (fail_shape (Status_Closed "backend stopped") (set_stop true ch)) as Hf.
    destruct (failConnection _ _) as [c e]. simplify_eq. apply Hf, idle_calls.
  - case_decide; simplify_eq. rewrite run_top_eq. destruct (stop_requested_ ch); [by apply sh_sys|].
    case_decide; [apply (close_shape (set_state kConnecting ch))|]. simpl. apply sh_sys, sys_calls.
  - case_decide; simplify_eq. unfold run_connected. destruct (_ && _); [apply sh_up|apply close_shape].
  - case_decide; [|done]. by eapply writer_shape.
  - destruct (cond_runnable _); [|done]. destruct (run_pc ch); try done;
      [by eapply writer_shape|by eapply wait_reader_shape].
  - case_decide; simplify_eq. unfold run_written.
    pose proof (fail_shape st ch [EfBuf BufWritten] ltac:(by repeat constructor)) as Hf.
    destruct (Status_ok st); [apply sh_sys; by repeat constructor|]. by destruct (failConnection st ch).
  - case_decide; simplify_eq. by apply sh_sys.
  - case_decide; simplify_eq. by apply sh_sys.
  - case_decide; simplify_eq. unfold BackendChannel.reader_read. destruct (negb _); [apply sh_sys; by repeat constructor|].
    destruct (Status_ok st); [apply sh_sys; by repeat constructor|].
    match goal with |- context [failConnection st ?c] => pose proof (fail_buf_shape (BufIn data) st c) as Hf end.
    by destruct (failConnection _ _).
  - case_decide; [|done]. by eapply parse_shape.
  - case_decide; simplify_eq. by apply sh_sys.
Qed.

Lemma fifo_run_sys es f f' : Forall is_sys es → fifo_run es f = Some f' → f' = f.
Proof.
  induction 1 as [|e es He _ IH]; simpl; [by intros [= ->]|].
  destruct e; try done. simpl. repeat case_match; simpl; try done; by intros ->%IH.
Qed.

Lemma fifo_run_single e f : fifo_run [e] f = fifo_step e f.
Proof. simpl. by destruct (fifo_step e f). Qed.

Lemma fifo_run_split es es' f f'' :
  fifo_run (es ++ es') f = Some f'' → ∃ f', fifo_run es f = Some f' ∧ fifo_run es' f' = Some f''.
Proof.
  revert f. induction es as [|e es IH]; intros f; simpl; [eauto|].
  destruct (fifo_step e f); simpl; [apply IH|done].
Qed.

(** How much a channel owes after a step that makes no callback. *)
Lemma quiet_owed es ch ch' b :
  channel_inv ch → fifo_run es (abs ch) = Some (abs ch') →
  Forall is_sys es ∨ es = [EfUp] ∨ (∃ o data n, es = [EfSent o data n]) →
  owed b (abs ch') = owed b (abs ch).
Proof.
  intros Hinv Hrun [Hs|[->|(o & data & n & ->)]].
  - by apply fifo_run_sys in Hrun as ->.
  - rewrite fifo_run_single in Hrun. rewrite (fifo_step_owed b _ _ _ Hrun). cbn [fifo_step] in Hrun.
    case_decide as Hd; [|done]. destruct Hd as (_ & Hu & Hsl). unfold owed. by rewrite Hu, Hsl.
  - rewrite fifo_run_single in Hrun. rewrite (fifo_step_owed b _ _ _ Hrun). cbn [fifo_step] in Hrun.
    pose proof (channel_counts ch Hinv) as Hc. unfold counts_ok in Hc.
    destruct (unsent (abs ch)) as [|u l]; [done|]. case_decide as Hu; [|done]. subst u.
    apply Forall_cons in Hc as [Hn _]. simpl in Hn. case_decide; lia.
Qed.

(** *** Delivering a channel's effects *)

Definition no_callback (e : Effect) : Prop :=
  match e with EfReply (Some _) _ | EfDown _ _ => False | _ => True end.

Lemma wp_deliver_quiet i es Q w :
  Forall no_callback es → Q tt (upd_trace (trace w ++ (WChannel i <$> es)) w) → wp (deliver i es) Q w.
Proof.
  intros Hes. revert w. induction Hes as [|e es He Hes IH]; intros w HQ; simpl.
  - apply wp_ret. simpl in HQ. rewrite app_nil_r in HQ. by destruct w.
  - apply wp_bind, wp_emit, wp_bind.
    destruct e as [| | | | | |[?|] ?| |]; try done; apply wp_ret, IH; simpl;
      rewrite <-(assoc_L (++)); exact HQ.
Qed.

Lemma wp_deliver_app i es es' Q w :
  wp (deliver i es) (λ _, wp (deliver i es') Q) w → wp (deliver i (es ++ es')) Q w.
Proof.
  revert w. induction es as [|e es IH]; intros w; simpl; [done|].
  intros Hwp%wp_bind_inv. apply wp_bind. eapply wp_mono; [exact Hwp|].
  intros u1 w1 H1%wp_bind_inv. apply wp_bind. eapply wp_mono; [exact H1|]. intros u2 w2. apply IH.
Qed.

Lemma is_sys_no_callback es : Forall is_sys es → Forall no_callback es.
Proof. intros Hs. eapply Forall_impl; [exact Hs|]. by intros []. Qed.

(** Only channels change, and only what they owe the sessions of [Y]. *)
Lemma channels_ok Y w w' tr :
  worker_inv ∅ w → sessions_ w' = sessions_ w → trace w' = trace w ++ tr →
  (∀ b, session_events b tr = []) → Forall event_ok tr →
  finished_sessions_ w' = finished_sessions_ w → main_ok w' →
  wk_config w' = wk_config w → Forall channel_inv (chans w') →
  (∀ b, b ∉ Y → debts (chans w') b = debts (chans w) b) →
  (∀ b, b ∈ Y → ∃ s, sessions_ w !! b = Some s ∧ cs_state s ≠ kAborted) →
  worker_inv Y w'.
Proof.
  intros Hinv Hs Ht He Hev Hfin Hmain Hcfg Hch Hd Hy. split; try done.
  - intros a s Ha. rewrite Hs in Ha. rewrite Ht, session_history_app, He. by apply (wi_sessions _ _ Hinv).
  - intros a s Ha HaY. rewrite Hs in Ha. rewrite Hd by done. apply (wi_linked _ _ Hinv); set_solver.
  - intros a Ha. rewrite Hs. auto.
  - intros a Ha. rewrite Hs in Ha. rewrite Hd; [by apply (wi_gone _ _ Hinv)|].
    intros (s & Hx & _)%Hy. congruence.
  - intros a. rewrite Hfin, Hs. apply (wi_finished _ _ Hinv).
  - rewrite Hfin. apply Hinv.
  - rewrite Ht. apply Forall_app. split; [apply Hinv|done].
  - rewrite Hcfg. apply Hinv.
Qed.

Lemma session_events_chan i es b : session_events b (WChannel i <$> es) = [].
Proof. apply (session_events_channel b es (λ _, i) id). Qed.

Lemma no_submit_ok i es : Forall no_submit es → Forall event_ok (WChannel i <$> es).
Proof. intros Hes. apply Forall_fmap. eapply Forall_impl; [exact Hes|]. by intros []. Qed.

Lemma is_sys_no_submit es : Forall is_sys es → Forall no_submit es.
Proof. intros Hs. eapply Forall_impl; [exact Hs|]. by intros []. Qed.

Lemma debts_insert l i ch ch' b :
  l !! i = Some ch → debts (<[i := ch']> l) b = <[i := owed b (abs ch')]> (debts l b).
Proof. intros Hi. unfold debts. by rewrite list_fmap_insert. Qed.

Lemma debts_lookup l i ch b : l !! i = Some ch → debts l b !! i = Some (owed b (abs ch)).
Proof. intros Hi. unfold debts. by rewrite list_lookup_fmap, Hi. Qed.

Lemma debts_same l i ch ch' b :
  l !! i = Some ch → owed b (abs ch') = owed b (abs ch) → debts (<[i := ch']> l) b = debts l b.
Proof.
  intros Hi Ho. erewrite debts_insert by done. rewrite Ho. apply list_insert_id. by apply debts_lookup.
Qed.

(** The state after the channel was replaced, before the callbacks. *)
Definition with_channel (i : nat) (ch : BackendChannel C Endpoint) (w : Worker C N Endpoint) :=
  upd_pool (set_channels (<[i := ch]> (channels_ (backend_pool_ w))) (backend_pool_ w)) w.

Lemma with_channel_inv i ch w :
  Forall channel_inv (chans w) → channel_inv ch → Forall channel_inv (chans (with_channel i ch w)).
Proof. intros Hl Hc. unfold chans, with_channel. simpl. by apply Forall_insert. Qed.

Lemma quiet_ok w i ch ch' es :
  worker_inv ∅ w → chans w !! i = Some ch → step_ok ch (ch', es) →
  Forall is_sys es ∨ es = [EfUp] ∨ (∃ o data n, es = [EfSent o data n]) →
  wp (deliver i es) (λ _, worker_inv ∅) (with_channel i ch' w).
Proof.
  intros Hinv Hi [Hci Hrun] Hes. simpl in *. apply wp_deliver_quiet.
  { destruct Hes as [Hs|[->|(o & data & n & ->)]]; [by apply is_sys_no_callback|repeat constructor..]. }
  eapply (channels_ok ∅ w); try done.
  - intros b. apply session_events_chan.
  - apply no_submit_ok. destruct Hes as [Hs|[->|(o & data & n & ->)]];
      [by apply is_sys_no_submit|repeat constructor..].
  - by apply (main_same w _ (wi_main _ _ Hinv)).
  - apply with_channel_inv; [apply Hinv|done].
  - intros b _. eapply debts_same; [exact Hi|]. eapply quiet_owed; try done.
    by eapply Forall_lookup_1; [apply Hinv|].
Qed.

(** A reply for nobody. *)
Lemma dropped_ok w i ch ch' data :
  worker_inv ∅ w → chans w !! i = Some ch → step_ok ch (ch', [EfReply None data]) →
  wp (deliver i [EfReply None data]) (λ _, worker_inv ∅) (with_channel i ch' w).
Proof.
  intros Hinv Hi [Hci Hrun]. apply wp_deliver_quiet; [by repeat constructor|].
  eapply (channels_ok ∅ w); try done.
  - by repeat constructor.
  - by apply (main_same w _ (wi_main _ _ Hinv)).
  - apply with_channel_inv; [apply Hinv|done].
  - intros b _. eapply debts_same; [exact Hi|]. cbn [fst snd] in Hrun. rewrite fifo_run_single in Hrun.
    rewrite (fifo_step_owed b _ _ _ Hrun). simpl. lia.
Qed.

Lemma reply_linked ds i d s reply :
  linked ds s → Forall (λ d, 0 <= d)%Z ds → ds !! i = Some d → (0 < d)%Z →
  (pending_replies_ s < 2 ^ 64)%Z →
  linked (<[i := (d - 1)%Z]> ds) (session_onBackendReply reply s).1.
Proof.
  intros [Ht Hb] Hds Hi Hd Hp. pose proof (total_lookup ds i d Hds Hi) as Hle.
  assert (u64 (pending_replies_ s - 1) = pending_replies_ s - 1)%Z as Hu by (by autorewrite with width).
  assert (Forall (λ d, 0 <= d)%Z (<[i := (d - 1)%Z]> ds)) as Hds' by (apply Forall_insert; [done|lia]).
  assert (pending_replies_ (session_onBackendReply reply s).1 = (pending_replies_ s - 1)%Z) as Hp'.
  { unfold session_onBackendReply. rewrite Hu. by case_decide. }
  assert (total (<[i := (d - 1)%Z]> ds) = (pending_replies_ s - 1)%Z) as Ht'.
  { rewrite (total_insert ds i d) by done. lia. }
  split; [by rewrite Hp'|]. intros j x Hj Hx.
  assert (pending_replies_ s - 1 ≠ 0)%Z as Hnz.
  { intros Hz. rewrite Hz in Ht'. apply total_zero in Ht'; [|done].
    eapply Forall_lookup_1 in Ht'; [|done]. done. }
  unfold session_onBackendReply. rewrite Hu, decide_False by done. simpl.
  destruct (decide (i = j)) as [->|Hij].
  - apply (Hb j d); [done|lia].
  - rewrite list_lookup_insert_ne in Hj by done. by apply (Hb j x).
Qed.

Lemma reply_ok w i ch ch' a data :
  worker_inv ∅ w → chans w !! i = Some ch → step_ok ch (ch', [EfReply (Some a) data]) →
  wp (deliver i [EfReply (Some a) data]) (λ _, worker_inv ∅) (with_channel i ch' w).
Proof.
  intros Hinv Hi [Hci Hrun]. simpl in Hci. cbn [fst snd] in Hrun. rewrite fifo_run_single in Hrun.
  pose proof (λ b, fifo_step_owed b _ _ _ Hrun) as Ho. simpl in Ho.
  assert (channel_inv ch) as Hc by (by eapply Forall_lookup_1; [apply Hinv|]).
  pose proof (owed_nonneg a _ (channel_counts _ Hci)) as Hnn. specialize (Ho a) as Hoa.
  rewrite decide_True in Hoa by done.
  destruct (sessions_ w !! a) as [s|] eqn:Ha.
  2:{ apply (wi_gone _ _ Hinv) in Ha. eapply Forall_lookup_1 in Ha; [|by apply debts_lookup].
      simpl in Ha. lia. }
  destruct (wi_sessions _ _ Hinv a s Ha) as (Hok & Hl & Hm).
  pose proof (wi_linked _ _ Hinv a s Ha ltac:(set_solver)) as Hlink.
  pose proof (eo_pending _ _ (sk_exchange _ _ Hok)) as Hpend.
  pose proof (debts_nonneg (chans w) a (wi_channels _ _ Hinv)) as Hds.
  pose proof (debts_lookup _ _ _ a Hi) as Hdi.
  pose proof (total_lookup _ _ _ Hds Hdi) as Hle. rewrite <-(lk_total _ _ Hlink) in Hle.
  apply wp_bind, wp_emit, wp_bind. eapply wp_session_do; [done|]. apply wp_session_apply. apply wp_ret.
  assert (worker_inv (∅ ∖ {[a]}) (upd_trace ((trace w ++ [WChannel i (EfReply (Some a) data)]) ++
    (WSession a <$> (session_onBackendReply data s).2)) (upd_sessions
    (<[a := (session_onBackendReply data s).1]> (sessions_ w)) (with_channel i ch' w)))) as Hres;
    [|by replace (∅ ∖ {[a]}) with (∅ : gset nat) in Hres by set_solver].
  eapply (update_ok ∅ w _ a s); try done.
  - by rewrite <-(assoc_L (++)).
  - apply (events_of_channel a [tt] (λ _, i) (λ _, EfReply (Some a) data)); [|by repeat constructor].
    apply events_of_session. intros d n. unfold session_onBackendReply. set_solver.
  - by apply (main_same w _ (wi_main _ _ Hinv)).
  - apply with_channel_inv; [apply Hinv|done].
  - intros b Hb. eapply debts_same; [exact Hi|]. rewrite (Ho b), decide_False by congruence. lia.
  - apply onBackendReply_ok; [done|]. lia.
  - apply reply_loops.
  - unfold session_onBackendReply. by case_decide.
  - unfold chans, with_channel. simpl. erewrite debts_insert by exact Hi. rewrite Hoa.
    eapply reply_linked; try done; lia.
Qed.

(** Every owner is told. *)
Lemma wp_failures owners w :
  NoDup owners → worker_inv (list_to_set owners) w →
  wp (mapM onBackendFailure owners) (λ _, worker_inv ∅) w.
Proof.
  intros Hnd. revert w. induction Hnd as [|a owners Ha Hnd IH]; intros w Hinv; [by apply wp_ret|].
  simpl. apply wp_bind. eapply wp_mono.
  { apply (wp_abort (list_to_set (a :: owners))); [done|].
    destruct (wi_exempt _ _ Hinv a) as (s & Hs & _); [set_solver|]. eauto. }
  intros u w1 (Hinv1 & _ & _). apply wp_bind. eapply wp_mono.
  { apply IH. replace (list_to_set owners) with (list_to_set (a :: owners) ∖ {[a]} : gset nat); [done|].
    apply leibniz_equiv. intros b. rewrite !elem_of_difference, !elem_of_list_to_set. set_solver. }
  intros us w2 Hinv2. by apply wp_ret.
Qed.

Lemma sys_events_ok i es w :
  Forall is_sys es → worker_inv ∅ w → wp (deliver i es) (λ _, worker_inv ∅) w.
Proof.
  intros Hes Hinv. apply wp_deliver_quiet; [by apply is_sys_no_callback|].
  eapply (channels_ok ∅ w); try done.
  - intros b. apply session_events_chan.
  - by apply no_submit_ok, is_sys_no_submit.
  - by apply (main_same w _ (wi_main _ _ Hinv)).
  - apply Hinv.
Qed.

(** A session a healthy channel owes something is alive and not aborted. *)
Lemma owner_alive w i ch a :
  worker_inv ∅ w → chans w !! i = Some ch → owed a (abs ch) ≠ 0%Z →
  ∃ s, sessions_ w !! a = Some s ∧ cs_state s ≠ kAborted.
Proof.
  intros Hinv Hi Ho. pose proof (debts_lookup _ _ _ a Hi) as Hdi.
  destruct (sessions_ w !! a) as [s|] eqn:Ha.
  2:{ apply (wi_gone _ _ Hinv) in Ha. eapply Forall_lookup_1 in Ha; [|done]. done. }
  exists s. split; [done|]. intros Hst.
  destruct (wi_sessions _ _ Hinv a s Ha) as (Hok & _ & _).
  destruct (eo_aborted _ _ (sk_exchange _ _ Hok) Hst) as [Hp _].
  pose proof (wi_linked _ _ Hinv a s Ha ltac:(set_solver)) as [Ht _]. rewrite Hp in Ht.
  symmetry in Ht. apply total_zero in Ht; [|apply debts_nonneg, Hinv].
  eapply Forall_lookup_1 in Ht; [|done]. done.
Qed.

Lemma down_ok w i ch ch' es st owners es' :
  worker_inv ∅ w → chans w !! i = Some ch → step_ok ch (ch', es ++ EfDown st owners :: es') →
  Forall is_sys es → Forall is_sys es' →
  wp (deliver i (es ++ EfDown st owners :: es')) (λ _, worker_inv ∅) (with_channel i ch' w).
Proof.
  intros Hinv Hi [Hci Hrun] Hes Hes'. simpl in Hci. cbn [fst snd] in Hrun.
  assert (channel_inv ch) as Hc by (by eapply Forall_lookup_1; [apply Hinv|]).
  apply fifo_run_split in Hrun as (f & Hf & Hrun). apply fifo_run_sys in Hf as ->; [|done].
  cbn [fifo_run fifo_step] in Hrun. case_decide as Hd; [|done]. destruct Hd as (_ & Hnd & Hset).
  cbn [mbind option_bind] in Hrun. apply fifo_run_sys in Hrun; [|done].
  apply wp_deliver_app, wp_deliver_quiet; [by apply is_sys_no_callback|].
  apply wp_bind, wp_emit, wp_bind, wp_bind. eapply wp_mono.
  { apply wp_failures; [done|]. eapply (channels_ok (list_to_set owners) w _
      ((WChannel i <$> es) ++ [WChannel i (EfDown st owners)])); try done.
    - simpl. by rewrite <-(assoc_L (++)).
    - intros b. rewrite session_events_app, session_events_chan. done.
    - apply Forall_app. split; [by apply no_submit_ok, is_sys_no_submit|by repeat constructor].
    - by apply (main_same w _ (wi_main _ _ Hinv)).
    - apply with_channel_inv; [apply Hinv|done].
    - intros b Hb. eapply debts_same; [exact Hi|]. rewrite Hrun. symmetry.
      apply owed_zero; [by apply channel_counts|]. rewrite Hset in Hb. set_solver.
    - intros b Hb. eapply owner_alive; [done..|]. rewrite owed_zero by (by apply channel_counts).
      rewrite Hset in Hb. set_solver. }
  intros us w1 Hinv1. apply wp_ret. by apply sys_events_ok.
Qed.

(** A resumed channel, with its callbacks, goes well. *)
Lemma wp_channel_event i o w :
  worker_inv ∅ w → worker_enabled (WoChannel i o) w →
  wp (channel_event UnpackOne i o) (λ _, worker_inv ∅) w.
Proof.
  intros Hinv [Ho Hen]. destruct (channels_ (backend_pool_ w) !! i) as [ch|] eqn:Hi; [|done].
  assert (channel_inv ch) as Hc by (by eapply Forall_lookup_1; [apply Hinv|]).
  destruct (channel_step_total UnpackOne o ch Hc Hen) as [[ch' es] Hstep].
  apply wp_bind, wp_get, wp_bind. eapply wp_opt; [done|].
  apply wp_bind. eapply wp_opt; [done|]. apply wp_bind, wp_put. fold (with_channel i ch' w).
  assert (step_ok ch (ch', es)) as Hok by (apply (channel_step_ok UnpackOne o); [by destruct o|done|done]).
  assert (shape es) as Hsh by (by eapply (step_shape o ch (ch', es))).
  destruct Hsh as [es Hes| |so data n|[a|] data|es st owners es' H1 H2].
  - eapply quiet_ok; eauto.
  - eapply quiet_ok; eauto.
  - eapply quiet_ok; eauto 10.
  - by eapply reply_ok.
  - by eapply dropped_ok.
  - eapply down_ok; eauto using idle_sys.
Qed.
End invariant.
