(* ===== verification/WorkerSteps.v ===== *)
(** * Every step of a worker goes well

    Each operation of a session and of the worker's loop runs without going wrong
    from a state that satisfies the invariant, and establishes it again. *)
From S2P Require Import Prelude Status CommandRules RespParser CoSocket CoroutineSignal Config.
From S2P Require Import BackendChannel ChannelInv ChannelProps BackendPool ClientSession.
From S2P Require Import SessionInv Worker WorkerInv.

Section steps.
Context {C N : Type} {cond : CoCond C} {laws : CoCondLaws C}.
Context {notifier : FdNotifier N} {nlaws : FdNotifierLaws N} {order : SetOrder} {Endpoint : Type}.
Context (UnpackOne : bytes → nat → RespLimits → RespResult) {uo : UnpackOneLaws UnpackOne}.
Context (PackError : string → bytes) (rules : CommandRules).
Implicit Types (w : Worker C N Endpoint) (s : ClientSession C Endpoint).
Local Abbreviation inv := (worker_inv UnpackOne rules ∅).
Local Abbreviation hist w a := (session_history a (trace w)).

Lemma inv_without a w : worker_inv UnpackOne rules (∅ ∖ {[a]}) w → inv w.
Proof. by replace (∅ ∖ {[a]}) with (∅ : gset nat) by set_solver. Qed.

Lemma inv_session w a s :
  inv w → sessions_ w !! a = Some s →
  session_ok (hist w a) s ∧ loops_ok s ∧ (max_pipeline_commands_per_read (cs_config s) < 2 ^ 32)%Z ∧
  linked (debts (chans w) a) s.
Proof.
  intros Hinv Ha. destruct (wi_sessions _ _ _ _ Hinv a s Ha) as (? & ? & ?).
  split_and!; try done. apply (wi_linked _ _ _ _ Hinv a s Ha). set_solver.
Qed.

(** *** Steps inside one session *)

Definition same_exchange s s' : Prop :=
  pending_replies_ s' = pending_replies_ s ∧ current_backend_ s' = current_backend_ s ∧
  cs_config s' = cs_config s.

Definition no_accept (es : list SessionEvent) : Prop := ∀ data n, SeAccepted data n ∉ es.

Lemma wp_local a s r w :
  inv w → sessions_ w !! a = Some s → result_ok (hist w a) r → same_loops s r.1 →
  same_exchange s r.1 → no_accept r.2 → wp (session_apply a r) (λ _, inv) w.
Proof.
  intros Hinv Ha Hok Hl (Hp & Hb & Hc) Hna. apply wp_session_apply, (inv_without a).
  destruct (inv_session w a s Hinv Ha) as (_ & _ & _ & [L1 L2]).
  eapply (update_ok UnpackOne rules ∅ w _ a s); try done.
  - apply events_of_session. intros data n Hin. by apply Hna in Hin.
  - by apply (main_same w _ (wi_main _ _ _ _ Hinv)).
  - apply Hinv.
  - split; [by rewrite Hp|by rewrite Hb].
Qed.

(** Only the program counter of the reader moves. *)
Lemma wp_reader_moves a s r w :
  inv w → sessions_ w !! a = Some s → reader_waits (reader_at s) = false → reader_at s ≠ SrDone →
  reader_waits r = false → r ≠ SrDone →
  (if reader_over r then cs_state s ≠ kOpen else cs_state s ≠ kDraining) →
  wp (session_do a (λ s, (with_reader r s, []))) (λ _, inv) w.
Proof.
  intros Hinv Ha Hw Hd Hr Hrd Hst. eapply wp_session_do; [done|].
  destruct (inv_session w a s Hinv Ha) as (Hok & _ & _ & _).
  eapply wp_local; [done|done|by apply with_reader_ok|done|done|].
  intros data n. apply not_elem_of_nil.
Qed.

Lemma not_draining w a s :
  inv w → sessions_ w !! a = Some s → reader_over (reader_at s) = false → cs_state s ≠ kDraining.
Proof.
  intros Hinv Ha Hr Hst. destruct (inv_session w a s Hinv Ha) as ([_ [_ _ Hd _] _] & _).
  apply Hd in Hst. congruence.
Qed.

Lemma await_exchange error s r :
  await_replies PackError 2 error s = Some r → same_exchange s r.1 ∧ no_accept r.2.
Proof.
  simpl. unfold wait. repeat case_match; intros; simplify_eq; (split; [done|]);
    intros ? ?; simpl; set_solver.
Qed.

Lemma wp_reader_wake a w error :
  inv w → (∃ s, sessions_ w !! a = Some s ∧ reader_at s = SrWaitReplies error) →
  wp (reader_wake PackError a error) (λ _, inv) w.
Proof.
  intros Hinv (s & Ha & Hr). apply wp_bind. eapply wp_get_session; [done|].
  destruct (inv_session w a s Hinv Ha) as (Hok & _ & _ & _).
  destruct (await_replies_ok PackError error _ _ (await_wake error _ s Hok Hr)) as (r & Hrun & Hres).
  apply wp_bind. eapply wp_opt; [done|].
  destruct (await_exchange error _ r Hrun) as [Hx Hna].
  apply await_loops in Hrun; [|simpl; by rewrite Hr]. by eapply wp_local.
Qed.

Lemma writer_exchange s r :
  session_writerLoop PackError 2 s = Some r → same_exchange s r.1 ∧ no_accept r.2.
Proof.
  simpl. unfold wait. repeat case_match; intros; simplify_eq; (split; [done|]);
    intros ? ?; simpl; set_solver.
Qed.

Lemma wp_writer a w s :
  inv w → sessions_ w !! a = Some s → writer_at s = SwTop →
  wp (writerLoop PackError a) (λ _, inv) w.
Proof.
  intros Hinv Ha Hw. apply wp_bind. eapply wp_get_session; [done|].
  destruct (inv_session w a s Hinv Ha) as (Hok & _ & _ & _).
  destruct (session_writerLoop_ok PackError _ _ Hok Hw) as (r & Hrun & Hres).
  apply wp_bind. eapply wp_opt; [done|].
  destruct (writer_exchange _ r Hrun) as [Hx Hna]. apply writer_loops in Hrun; [|done].
  by eapply wp_local.
Qed.

Lemma wp_writer_wake a w s :
  inv w → sessions_ w !! a = Some s → writer_at s = SwWaiting →
  wp (writer_wake PackError a) (λ _, inv) w.
Proof.
  intros Hinv Ha Hw. apply wp_bind. eapply wp_get_session; [done|]. apply wp_bind, wp_put_session.
  destruct (inv_session w a s Hinv Ha) as (Hok & Hl & _ & [L1 L2]).
  eapply wp_writer; [|apply lookup_insert_eq|done]. apply (inv_without a).
  eapply (update_ok UnpackOne rules ∅ w _ a s _ [] []); try done.
  - by rewrite app_nil_r.
  - by apply (main_same w _ (wi_main _ _ _ _ Hinv)).
  - apply Hinv.
  - by apply writer_return_ok.
  - split_and!; [done|done|]. simpl. by rewrite Hw.
Qed.

Lemma wp_writer_moves a s r w :
  inv w → sessions_ w !! a = Some s → writer_at s ≠ SwWaiting → writer_at s ≠ SwDone →
  r ≠ SwWaiting → r ≠ SwDone → (writer_over r = true → cs_state s = kAborted) →
  wp (session_do a (λ s, (with_writer r s, [SeWritten]))) (λ _, inv) w.
Proof.
  intros Hinv Ha Hw Hd Hr Hrd Hst. eapply wp_session_do; [done|].
  destruct (inv_session w a s Hinv Ha) as (Hok & _ & _ & _).
  eapply wp_local; [done|done|by apply (with_writer_ok _ s r)|done|done|].
  intros data n. set_solver.
Qed.

Lemma wp_writer_written a w s st :
  inv w → sessions_ w !! a = Some s → writer_at s = SwWriting →
  wp (writer_written a st) (λ _, inv) w.
Proof.
  intros Hinv Ha Hw. unfold writer_written. destruct (Status_ok st).
  { eapply wp_writer_moves; try done; by rewrite Hw. }
  apply wp_bind. eapply wp_mono; [apply (wp_abort UnpackOne rules ∅); eauto|].
  intros u w1 (Hinv1 & (s0 & s1 & Hs0 & Hs1 & Hst & _ & Hwr) & _). apply inv_without in Hinv1.
  simplify_eq. eapply wp_writer_moves; try done; by rewrite Hwr, Hw.
Qed.

(** Draining, then leaving the loop. *)
Lemma wp_drain_end a w s (message : ClientSession C Endpoint → string) :
  inv w → sessions_ w !! a = Some s → reader_at s = SrReading → cs_state s = kOpen →
  wp (session_do a (λ s, drain (message s) s);; session_do a (λ s, (with_reader SrEnd s, []))) (λ _, inv) w.
Proof.
  intros Hinv Ha Hr Hst. apply wp_bind. eapply wp_session_do; [done|]. apply wp_session_apply.
  eapply wp_session_do; [apply lookup_insert_eq|]. apply wp_session_apply, (inv_without a). simpl.
  destruct (inv_session w a s Hinv Ha) as (Hok & Hl & _ & [L1 L2]). set (error := message s).
  destruct (drain_ok _ s error Hok) as [Hd|]; [by right| |done].
  assert (no_accept (drain error s).2) as Hna.
  { unfold drain. case_decide; intros data n; [apply not_elem_of_nil|]. simpl.
    rewrite elem_of_cons. intros [?|Hin]; [done|]. apply list_elem_of_fmap in Hin as (? & ? & _). done. }
  assert (same_exchange s (drain error s).1) as (Hx1 & Hx2 & Hx3) by (unfold drain; by case_decide).
  pose proof (drain_loops error s) as (Hl1 & Hl2 & Hl3).
  destruct (drain error s) as [s1 es]. simpl in *.
  eapply (update_ok UnpackOne rules ∅ w _ a s (with_reader SrEnd s1)); try done.
  - simpl. by rewrite insert_insert_eq.
  - simpl. by rewrite app_nil_r.
  - apply events_of_session. intros data n Hin. by apply Hna in Hin.
  - by apply (main_same w _ (wi_main _ _ _ _ Hinv)).
  - apply Hinv.
  - split_and!; [done| |done]. simpl. by rewrite Hr.
  - split; simpl; [by rewrite Hx1|by rewrite Hx2].
Qed.

Lemma wp_reader_read a w s st data :
  inv w → sessions_ w !! a = Some s → reader_at s = SrReading →
  wp (reader_read a st data) (λ _, inv) w.
Proof.
  intros Hinv Ha Hr. unfold reader_read. apply wp_bind. eapply wp_get_session; [done|].
  destruct (inv_session w a s Hinv Ha) as (Hok & _ & _ & _).
  set (s1 := with_input (cs_parser s) (client_in_ s ++ data) s).
  apply wp_bind.
  assert (wp (session_apply a (s1, [SeIn data])) (λ _ w', inv w' ∧ sessions_ w' !! a = Some s1) w) as Hin.
  { assert (wp (session_apply a (s1, [SeIn data])) (λ _, inv) w) as Hi.
    { eapply wp_local; [done|done|by apply read_ok|done|done|]. intros d n. set_solver. }
    split; [exact Hi|apply lookup_insert_eq]. }
  eapply wp_mono; [exact Hin|]. intros u w1 [Hinv1 Ha1]. clear Hin.
  pose proof (not_draining w a s Hinv Ha ltac:(by rewrite Hr)) as Hnd.
  case_decide as Hst.
  { eapply wp_reader_moves; try done; simpl; by rewrite Hr. }
  assert (cs_state s = kOpen) as Ho by (destruct (cs_state s); naive_solver).
  destruct (Status_ok st).
  { eapply wp_reader_moves; try done; simpl; by rewrite Hr. }
  case_decide.
  - by apply (wp_drain_end a w1 s1
                (λ s, if decide (client_in_ s = []) then ""%string else "ERR proxy protocol error"%string)).
  - apply wp_bind. eapply wp_mono; [apply (wp_abort UnpackOne rules ∅); eauto|].
    intros u2 w2 (Hinv2 & (s0 & s2 & Hs0 & Hs2 & Hst2 & Hrd & _) & _). apply inv_without in Hinv2.
    rewrite Ha1 in Hs0. injection Hs0 as <-. simpl in Hrd.
    eapply wp_reader_moves; try done; rewrite ?Hrd, ?Hr, ?Hst2; done.
Qed.

(** *** The end of a loop *)

Lemma session_ok_socket h s sock n : session_ok h s → session_ok h (with_socket sock (with_loops n s)).
Proof. intros [[] [] []]. by split; [split|split|split]. Qed.

Lemma session_ok_loops h s n : session_ok h s → session_ok h (with_loops n s).
Proof. intros [[] [] []]. by split; [split|split|split]. Qed.

Lemma both_done_loops s : loops_ok s → both_done s ↔ active_loops_ s = 0%Z.
Proof.
  unfold loops_ok, both_done, running. intros ->. repeat case_bool_decide; naive_solver lia.
Qed.

(** One of the two loops of [a] returns: [s] becomes [s1]. *)
Record returning (h : History) s s1 : Prop := {
  rt_ok : session_ok h s1;
  rt_exchange : same_exchange s s1;
  rt_loops : active_loops_ s1 = active_loops_ s;
  rt_count : loops_ok (with_loops (active_loops_ s - 1) s1);
  rt_not_done : ¬ both_done s
}.

Lemma wp_not_last a w s s1 :
  inv w → sessions_ w !! a = Some s → returning (hist w a) s s1 → (active_loops_ s - 1 ≠ 0)%Z →
  inv (upd_sessions (<[a := with_loops (active_loops_ s - 1) s1]> (sessions_ w)) w).
Proof.
  intros Hinv Ha [Hok (Hp & Hb & Hc) Hl Hcount Hnd] Hne. apply (inv_without a).
  destruct (inv_session w a s Hinv Ha) as (_ & _ & _ & [L1 L2]).
  eapply (update_gen UnpackOne rules ∅ w _ a s _ [] []); try done.
  - by rewrite app_nil_r.
  - intros b. rewrite both_done_loops by done. simpl. destruct (decide (b = a)) as [->|Hab]; [|naive_solver].
    rewrite (wi_finished _ _ _ _ Hinv), Ha. naive_solver.
  - apply Hinv.
  - by apply (main_same w _ (wi_main _ _ _ _ Hinv)).
  - apply Hinv.
  - by apply session_ok_loops.
  - split; simpl; [by rewrite Hp|by rewrite Hb].
Qed.

(** The session as [finishLoop] leaves it, and its last events. *)
Definition finished_session s : ClientSession C Endpoint * list SessionEvent :=
  let '(sock, calls) := CoSocket_close (cs_socket s) in
  (with_socket sock s, (SeSys <$> calls) ++ [SeFinished]).

Definition finished_worker (a : nat) s (w : Worker C N Endpoint) : Worker C N Endpoint :=
  let pool := BackendPool_detachOwner a (backend_pool_ w) in
  mkWorker (wk_config w) (pending_fds_ w) (has_pending_fds_ w) (notifier_notify (fd_notifier_ w))
    pool.1 (<[a := (finished_session s).1]> (sessions_ w)) (finished_sessions_ w ++ [a])
    (main_pc w) (dispatching w)
    (trace w ++ ((λ e, WChannel e.1 e.2) <$> pool.2) ++ (WSession a <$> (finished_session s).2)).

Lemma wp_last a w s s1 :
  inv w → sessions_ w !! a = Some s → returning (hist w a) s s1 → (active_loops_ s - 1 = 0)%Z →
  inv (finished_worker a (with_loops 0 s1) w).
Proof.
  intros Hinv Ha [Hok (Hp & Hb & Hc) Hl Hcount Hnd] Hz. apply (inv_without a). rewrite Hz in Hcount.
  destruct (detach_chans a (chans w) (wi_channels _ _ _ _ Hinv)) as (Hch & Hzero & Hd).
  assert (both_done (with_loops 0 s1)) as Hdone by (by apply both_done_loops).
  assert (pending_replies_ s1 = 0%Z) as Hp0.
  { destruct Hdone as [_ Hw]. destruct Hok as [Hex [_ _ _ Hcy] _]. simpl in Hw.
    rewrite Hw in Hcy. destruct (Hcy eq_refl) as [Hst|(_ & _ & ? & _)]; [|done].
    by apply (eo_aborted _ _ Hex) in Hst as [? _]. }
  assert (∃ sock calls, finished_session (with_loops 0 s1) =
            (with_socket sock (with_loops 0 s1), (SeSys <$> calls) ++ [SeFinished])) as (sock & calls & Hfs).
  { unfold finished_session. destruct (CoSocket_close _). eauto. }
  eapply (update_gen UnpackOne rules ∅ w _ a s); try done.
  - apply events_of_channel; [|apply detach_events]. apply events_of_session. rewrite Hfs.
    intros data n [Hin|Hin]%elem_of_app; [|set_solver].
    apply list_elem_of_fmap in Hin as (? & ? & _). done.
  - intros b. simpl. rewrite Hfs. simpl. rewrite elem_of_app, list_elem_of_singleton.
    destruct (decide (b = a)) as [->|Hab]; naive_solver.
  - simpl. apply NoDup_app. split_and!; [apply Hinv| |apply NoDup_singleton].
    intros b Hin ->%list_elem_of_singleton. apply (wi_finished _ _ _ _ Hinv) in Hin as (t & Ht & Hbd).
    by simplify_eq.
  - destruct (wi_main _ _ _ _ Hinv) as [M1 M2 M3]. split; simpl; [done| |].
    + intros _ _. right. apply notify_readable.
    + intros _ _. apply notify_readable.
  - rewrite Hfs. simpl. rewrite foldl_app, history_sys. simpl. by apply session_ok_socket.
  - rewrite Hfs. done.
  - rewrite Hfs. done.
  - rewrite Hfs. simpl. by apply linked_zero.
Qed.

Lemma wp_finish a w s f :
  inv w → sessions_ w !! a = Some s → returning (hist w a) s (f s) →
  wp (session_do a (λ s, (f s, []));; finishLoop a) (λ _, inv) w.
Proof.
  intros Hinv Ha Hret. apply wp_bind. eapply wp_session_do; [done|]. apply wp_session_apply. simpl.
  unfold finishLoop. apply wp_bind. eapply wp_get_session; [apply lookup_insert_eq|].
  pose proof (rt_loops _ _ _ Hret) as Hl. apply wp_bind, wp_put_session.
  assert (∀ x, upd_sessions (<[a := x]> (<[a := f s]> (sessions_ w)))
            (upd_trace (trace w ++ []) (upd_sessions (<[a := f s]> (sessions_ w)) w)) =
          upd_sessions (<[a := x]> (sessions_ w)) w) as Hw
    by (intros x; rewrite insert_insert_eq, app_nil_r; by destruct w).
  case_decide as Hz.
  - apply wp_ret. simpl. rewrite Hw, Hl. apply wp_not_last; [done..|]. by rewrite <-Hl.
  - apply wp_bind, wp_pool_detach, wp_bind. eapply wp_session_do; [apply lookup_insert_eq|].
    apply wp_session_apply, wp_bind, wp_modify, wp_modify.
    assert (active_loops_ s - 1 = 0)%Z as Hz' by lia.
    pose proof (wp_last a w s (f s) Hinv Ha Hret Hz') as Hlast.
    rewrite Hl, Hz'. simpl. unfold finished_worker in Hlast.
    rewrite !insert_insert_eq, app_nil_r, <-(assoc_L (++)). exact Hlast.
Qed.

Lemma returning_reader h s :
  session_ok h s → loops_ok s → reader_at s = SrEnd → returning h s (with_reader SrDone s).
Proof.
  intros Hok Hl Hr. split; [|done|done| |by intros [? _]; congruence].
  - apply with_reader_ok; [done|by rewrite Hr|done|]. simpl. destruct Hok as [_ [_ Hx _ _] _].
    rewrite Hr in Hx. auto.
  - unfold loops_ok in *. simpl. rewrite Hl, Hr. simpl. case_bool_decide; simpl; lia.
Qed.

Lemma returning_writer h s :
  session_ok h s → loops_ok s → writer_at s = SwEnd → returning h s (with_writer SwDone s).
Proof.
  intros Hok Hl Hw. split; [|done|done| |by intros [_ ?]; congruence].
  - destruct Hok as [[] [Y1 Y2 Y3 Y4] [W1 W2]]. split; [by split| |].
    + split; try done. simpl. intros _. apply Y4. by rewrite Hw.
    + split; simpl; [|exact W2]. rewrite bool_decide_eq_false_2 in W1 by (by rewrite Hw).
      by eapply sleeper_idle.
  - unfold loops_ok in *. simpl. rewrite Hl, Hw. simpl. case_bool_decide; simpl; lia.
Qed.

(** *** Submitting a batch *)

Lemma submit_step a data n (ch : BackendChannel C Endpoint) :
  channel_inv ch → (0 < n < 2 ^ 32)%Z →
  let '(ok, ch', es) := BackendChannel_submit (Some a) data n ch in
  channel_inv ch' ∧
  ∀ b, owed b (abs ch') =
    (owed b (abs ch) + if decide (b = a) then if (ok : bool) then n else 0 else 0)%Z.
Proof.
  intros Hinv Hn. pose proof (submit_ok ch (Some a) data n Hinv ltac:(lia)) as Hs.
  unfold BackendChannel_submit in *. case_decide.
  - split; [done|]. intros b. case_decide; lia.
  - destruct Hs as [Hi Hf]. split; [done|]. cbn [fst snd] in Hf. rewrite fifo_run_single in Hf.
    intros b. rewrite (fifo_step_owed b _ _ _ Hf). repeat case_decide; congruence || lia.
Qed.

Lemma pool_submit_spec (pool : BackendPool C Endpoint) a cur data n :
  Forall channel_inv (channels_ pool) → (0 < n < 2 ^ 32)%Z →
  let '(res, pool', es) := BackendPool_submit (Some a) cur data n pool in
  Forall channel_inv (channels_ pool') ∧
  (∀ b, b ≠ a → debts (channels_ pool') b = debts (channels_ pool) b) ∧
  match res with
  | Some i => (∀ j, cur = Some j → j = i) ∧
      ∃ d, debts (channels_ pool) a !! i = Some d ∧
           debts (channels_ pool') a = <[i := (d + n)%Z]> (debts (channels_ pool) a)
  | None => debts (channels_ pool') a = debts (channels_ pool) a
  end.
Proof.
  intros Hinv Hn. unfold BackendPool_submit. destruct (select pool cur) as [i|] eqn:Hsel; [|done].
  destruct (channels_ pool !! i) as [ch|] eqn:Hi; [|done].
  assert (channel_inv ch) as Hc by (by eapply Forall_lookup_1).
  pose proof (submit_step a data n ch Hc Hn) as Hs.
  destruct (BackendChannel_submit (Some a) data n ch) as [[ok ch'] es]. destruct Hs as [Hci Ho].
  simpl. split_and!.
  - by apply Forall_insert.
  - intros b Hb. eapply debts_same; [done|]. rewrite Ho, decide_False by done. lia.
  - destruct ok.
    + split.
      * intros j ->. simpl in Hsel. by destruct (from_option _ _ _); simplify_eq.
      * exists (owed a (abs ch)). split; [by apply debts_lookup|].
        erewrite debts_insert by done. by rewrite Ho, decide_True.
    + eapply debts_same; [done|]. rewrite Ho, decide_True by done. lia.
Qed.

Lemma pool_submit_events (pool : BackendPool C Endpoint) a cur data n :
  admitted UnpackOne rules data n →
  Forall (λ e, event_ok UnpackOne rules (WChannel e.1 e.2)) (BackendPool_submit (Some a) cur data n pool).2.
Proof.
  intros Hadm. unfold BackendPool_submit. destruct (select pool cur) as [i|]; [|done].
  destruct (channels_ pool !! i) as [ch|]; [|done].
  unfold BackendChannel_submit. case_decide; by repeat constructor.
Qed.

Lemma submit_linked ds i d n s b (p : RespParser) rest :
  linked ds s → ds !! i = Some d → (∀ j, current_backend_ s = Some j → j = i) → b = Some i →
  linked (<[i := (d + n)%Z]> ds) (with_backend b (pending_replies_ s + n) (with_input p rest s)).
Proof.
  intros [Ht Hb] Hi Hcur ->. split; simpl.
  - rewrite (total_insert ds i d) by done. lia.
  - intros j x Hj Hx. destruct (decide (i = j)) as [->|Hij]; [done|].
    rewrite list_lookup_insert_ne in Hj by done. apply Hb in Hj; [|done]. by apply Hcur in Hj as ->.
Qed.

(** What the reader knows about its session after a batch was submitted. *)
Definition submitted (a : nat) (ok : bool) (w : Worker C N Endpoint) : Prop :=
  inv w ∧ ∃ s, sessions_ w !! a = Some s ∧ reader_at s = SrTop ∧
    cs_state s = if ok then kOpen else kAborted.

Lemma due_error_open h s : session_ok h s → cs_state s = kOpen → reader_at s = SrTop → due_error s = [].
Proof.
  intros [_ [Y1 _ _ _] _] Hst Hr. unfold due_error. rewrite Hr.
  destruct (decide (final_error_ s = ""%string)) as [|Hne%Y1]; done.
Qed.

Lemma wp_submitBatch a w s p data rest n :
  inv w → sessions_ w !! a = Some s → reader_at s = SrTop → cs_state s = kOpen →
  client_in_ s = data ++ rest → (0 <= max_frame_bytes_ p)%Z → (0 < n < 2 ^ 32)%Z →
  (pending_replies_ s < 2 ^ 64 - 2 ^ 32)%Z → admitted UnpackOne rules data n →
  wp (submitBatch a data n) (submitted a)
     (upd_sessions (<[a := with_input p rest s]> (sessions_ w)) w).
Proof.
  intros Hinv Ha Hr Hst Hin Hp Hn Hpend Hadm. unfold submitBatch. rewrite decide_False by lia.
  destruct (inv_session w a s Hinv Ha) as (Hok & Hl & _ & Hlink).
  pose proof (eo_pending _ _ (sk_exchange _ _ Hok)) as Hnn.
  pose proof (due_error_open _ _ Hok Hst Hr) as Hdue.
  apply wp_bind. eapply wp_get_session; [apply lookup_insert_eq|]. apply wp_bind, wp_get. simpl.
  pose proof (pool_submit_spec (backend_pool_ w) a (current_backend_ s) data n
                (wi_channels _ _ _ _ Hinv) Hn) as Hsub.
  pose proof (pool_submit_events (backend_pool_ w) a (current_backend_ s) data n Hadm) as Hev.
  destruct (BackendPool_submit _ _ _ _ _) as [[res pool] es]. simpl in Hev.
  destruct Hsub as (Hch & Hd & Hres).
  apply wp_bind, wp_put, wp_bind, wp_emit. destruct res as [i|].
  - destruct Hres as (Hcur & d & Hdi & Hda). apply wp_bind, wp_session_apply, wp_ret.
    autorewrite with width. split.
    + apply (inv_without a). eapply (update_ok UnpackOne rules ∅ w _ a s
        (with_backend (Some i) (pending_replies_ s + n) (with_input p rest s))); try done.
      * simpl. by rewrite insert_insert_eq.
      * simpl. by rewrite <-(assoc_L (++)).
      * apply events_of_channel; [|exact Hev]. apply (events_of_session _ _ a [SeAccepted data n]).
        intros d' n' Hx.
        apply list_elem_of_singleton in Hx. by simplify_eq.
      * by apply (main_same w _ (wi_main _ _ _ _ Hinv)).
      * apply (taken_ok _ s p data rest n (Some i) Hok); try done; try lia; [|by rewrite Hr].
        split; [done|]. intros ?. lia.
      * unfold chans. simpl. rewrite Hda. by apply submit_linked.
    + eexists. split; [apply lookup_insert_eq|]. done.
  - apply wp_bind, wp_emit, wp_bind. eapply wp_mono.
    { apply (wp_abort UnpackOne rules ∅); [|eexists; apply lookup_insert_eq].
      apply (inv_without a). eapply (update_ok UnpackOne rules ∅ w _ a s (with_input p rest s)); try done.
      * simpl. by rewrite <-(assoc_L (++)).
      * apply events_of_channel; [|exact Hev]. apply (events_of_session _ _ a [SeDropped data]).
        intros d' n' Hx. set_solver.
      * by apply (main_same w _ (wi_main _ _ _ _ Hinv)).
      * pose proof (taken_ok _ s p data rest 0 (current_backend_ s) Hok) as Ht.
        rewrite Z.add_0_r in Ht. simpl. destruct s. simpl in *. apply Ht; try done; try lia; [|by rewrite Hr].
        apply (eo_backend _ _ (sk_exchange _ _ Hok)).
      * destruct Hlink as [L1 L2]. unfold chans. simpl. rewrite Hres. by split. }
    intros u w1 (Hinv1 & (s0 & s1 & Hs0 & Hs1 & Hst1 & Hrd & _) & _). apply inv_without in Hinv1.
    apply wp_ret. split; [done|]. exists s1. simpl in Hs0. rewrite lookup_insert_eq in Hs0.
    injection Hs0 as <-. split_and!; [done|by rewrite Hrd|done].
Qed.

(** *** The reader *)

Lemma rest_exchange sc s r :
  reader_rest PackError sc s = Some r → same_exchange s r.1 ∧ no_accept r.2.
Proof.
  unfold reader_rest. repeat case_decide.
  - unfold drain. case_decide; intros; simplify_eq; (split; [done|]); intros data n; simpl;
      [apply not_elem_of_nil|].
    rewrite elem_of_cons. intros [?|Hin]; [done|]. apply list_elem_of_fmap in Hin as (? & ? & _). done.
  - set (s' := with_input _ _ s).
    destruct (await_replies PackError 2 (sc_error sc) s') as [[s1 es]|] eqn:Ha; simpl; intros; simplify_eq.
    apply await_exchange in Ha as [Hx Hna]. split; [exact Hx|]. intros data n. simpl.
    rewrite elem_of_cons. intros [?|Hin]; [done|]. by apply Hna in Hin.
  - intros. simplify_eq. split; [done|]. intros ? ?. apply not_elem_of_nil.
  - intros. simplify_eq. split; [done|]. intros ? ?. apply not_elem_of_nil.
Qed.

Lemma wp_reader_rest a sc w s :
  inv w → sessions_ w !! a = Some s → reader_at s = SrTop → cs_state s = kOpen →
  wp (s ← get_session a; r ← st_opt (reader_rest PackError sc s); session_apply a r) (λ _, inv) w.
Proof.
  intros Hinv Ha Hr Hst. apply wp_bind. eapply wp_get_session; [done|].
  destruct (inv_session w a s Hinv Ha) as (Hok & _ & _ & _).
  destruct (reader_rest_ok PackError sc _ s Hok Hr Hst) as (r & Hrun & Hres).
  apply wp_bind. eapply wp_opt; [done|].
  destruct (rest_exchange sc s r Hrun) as [Hx Hna]. apply rest_loops in Hrun; [|done].
  by eapply wp_local.
Qed.

Lemma inv_parser a w s p :
  inv w → sessions_ w !! a = Some s → (0 <= max_frame_bytes_ p)%Z →
  inv (upd_sessions (<[a := with_input p (client_in_ s) s]> (sessions_ w)) w).
Proof.
  intros Hinv Ha Hp. apply (inv_without a).
  destruct (inv_session w a s Hinv Ha) as (Hok & _ & _ & [L1 L2]).
  eapply (update_ok UnpackOne rules ∅ w _ a s (with_input p (client_in_ s) s) [] []); try done.
  - by rewrite app_nil_r.
  - by apply (main_same w _ (wi_main _ _ _ _ Hinv)).
  - apply Hinv.
  - destruct Hok as [[] [] []]. by split; [split|split|split].
Qed.

(** What the parsing loop finds. *)
Lemma scan_ok h s alloc :
  session_ok h s → (max_pipeline_commands_per_read (cs_config s) < 2 ^ 32)%Z →
  ∃ sc, scan UnpackOne rules alloc s = Some sc ∧ (0 <= sc_parsed sc < 2 ^ 32)%Z ∧
    (0 <= max_frame_bytes_ (sc_parser sc))%Z ∧ (sc_parsed sc = 0%Z → sc_consumed sc = 0) ∧
    admitted UnpackOne rules (take (sc_consumed sc) (client_in_ s)) (sc_parsed sc).
Proof.
  intros Hok Hmax. pose proof (eo_parser _ _ (sk_exchange _ _ Hok)) as Hp.
  destruct (scan_loop_ok UnpackOne rules (S (length (client_in_ s))) alloc
    (max_pipeline_commands_per_read (cs_config s)) (client_in_ s)
    (mkScan (cs_parser s) 0 0 pNeedMore "" 0)) as (sc & Hsc & [(infos & Hfr & Hpa & Hco) _ Hm Hpr _]);
    simpl in *; try (done || lia).
  exists sc. split_and!; [done|lia|lia|done| |].
  - intros Hz. destruct infos; [done|]. simpl in Hpa. lia.
  - exists alloc, (cs_parser s), (client_in_ s), infos. split_and!; [done|lia|by rewrite Hco].
Qed.

Lemma wp_readerLoop a alloc w :
  inv w → worker_enabled (WoReader a alloc) w →
  wp (readerLoop UnpackOne PackError rules a alloc) (λ _, inv) w.
Proof.
  intros Hinv Hen. simpl in Hen. destruct (sessions_ w !! a) as [s|] eqn:Ha; [|done].
  destruct Hen as [Hr Hpend]. unfold readerLoop. apply wp_bind. eapply wp_get_session; [done|].
  destruct (inv_session w a s Hinv Ha) as (Hok & _ & Hmax & _).
  case_decide as Hst.
  { eapply wp_local; [done|done|by apply with_reader_ok; rewrite ?Hr| |done|].
    - split_and!; try done. simpl. by rewrite Hr.
    - intros data n. apply not_elem_of_nil. }
  assert (cs_state s = kOpen) as Ho by (destruct (cs_state s); naive_solver).
  destruct (scan_ok _ s alloc Hok Hmax) as (sc & Hsc & Hn & Hp & Hz & Hadm).
  apply wp_bind. eapply wp_opt; [done|]. apply wp_bind, wp_put_session, wp_bind.
  assert (wp (if decide (0 < sc_parsed sc)%Z
              then submitBatch a (take (sc_consumed sc) (client_in_ s)) (u32 (sc_parsed sc)) else mret true)
    (submitted a) (upd_sessions (<[a := with_input (sc_parser sc) (drop (sc_consumed sc) (client_in_ s)) s]>
      (sessions_ w)) w)) as Hsub.
  { case_decide as Hpos.
    - autorewrite with width. apply wp_submitBatch; try done; [by rewrite take_drop|lia].
    - apply wp_ret. rewrite Hz, drop_0 by lia. split; [by apply inv_parser|].
      eexists. split; [apply lookup_insert_eq|]. done. }
  eapply wp_mono; [exact Hsub|]. intros ok w1 [Hinv1 (s1 & Ha1 & Hr1 & Hst1)].
  destruct ok; [by eapply wp_reader_rest|].
  eapply wp_reader_moves; try done; rewrite ?Hr1, ?Hst1; done.
Qed.

(** *** The loop of the worker *)

Lemma main_only w w' :
  inv w → sessions_ w' = sessions_ w →
  trace w' = trace w ∨ (∃ fd, trace w' = trace w ++ [WDispatched fd]) → backend_pool_ w' = backend_pool_ w →
  finished_sessions_ w' = finished_sessions_ w → wk_config w' = wk_config w → main_ok w' → inv w'.
Proof.
  intros [W1 W2 W3 W4 W5 W6 W7 W8 W9 W10] E1 E2 E3 E4 E5 Hm. unfold chans in *.
  assert (∀ a, session_history a (trace w') = session_history a (trace w)) as Eh.
  { intros a. destruct E2 as [->|[fd ->]]; [done|]. by rewrite session_history_app. }
  assert (Forall (event_ok UnpackOne rules) (trace w')) as W8'.
  { destruct E2 as [->|[fd ->]]; [done|]. apply Forall_app. split; [done|by repeat constructor]. }
  split; unfold chans; rewrite ?E1, ?E3, ?E4, ?E5; try done. intros a s Ha. rewrite Eh. by apply W2.
Qed.

Lemma open_one a fd w :
  inv w → sessions_ w !! a = None →
  inv (upd_trace (trace w ++ [WSession a (SeOpened fd)])
        (upd_sessions (<[a := ClientSession_start (ClientSession_new fd (wk_config w))]> (sessions_ w)) w)).
Proof.
  intros [W1 W2 W3 W4 W5 W6 W7 W8 W9 W10] Ha. split; simpl; try done.
  - intros b s Hb. rewrite session_history_app. destruct (decide (b = a)) as [->|Hab].
    + rewrite lookup_insert_eq in Hb. injection Hb as <-.
      rewrite (session_events_own a [SeOpened fd] : session_events a [WSession a (SeOpened fd)] = _).
      split_and!; [apply session_new_ok, W10|done|apply W10].
    + rewrite lookup_insert_ne in Hb by done.
      rewrite (session_events_other b a [SeOpened fd] Hab : session_events b [WSession a (SeOpened fd)] = _).
      by apply W2.
  - intros b s Hb Hx. destruct (decide (b = a)) as [->|Hab].
    + rewrite lookup_insert_eq in Hb. injection Hb as <-. apply linked_zero; [by apply W5|done].
    + rewrite lookup_insert_ne in Hb by done. by apply W3.
  - intros b Hb. destruct (decide (b = a)) as [->|Hab]; [by rewrite lookup_insert_eq in Hb|].
    rewrite lookup_insert_ne in Hb by done. by apply W5.
  - intros b. rewrite W6. destruct (decide (b = a)) as [->|Hab].
    + rewrite lookup_insert_eq, Ha. split; [by intros (? & ? & _)|].
      intros (s & [= <-] & [Hx _]). done.
    + by rewrite lookup_insert_ne.
  - apply Forall_app. split; [done|by repeat constructor].
  - by apply (main_same w).
Qed.

Lemma wp_open_sessions fds addrs w :
  inv w → length addrs = length fds → NoDup addrs → Forall (λ a, sessions_ w !! a = None) addrs →
  wp (open_sessions fds addrs) (λ _, inv) w.
Proof.
  revert addrs w. induction fds as [|fd fds IH]; intros [|a addrs] w Hinv Hlen Hnd Hfree;
    try done.
  apply NoDup_cons in Hnd as [Hna Hnd]. apply Forall_cons in Hfree as [Ha Hfree].
  apply wp_bind, wp_get, wp_bind, wp_assert; [done|]. apply wp_bind, wp_session_apply.
  apply IH; [by apply open_one|simpl in Hlen; lia|done|]. simpl.
  apply list.Forall_forall. intros b Hb. rewrite lookup_insert_ne by (intros ->; done).
  by eapply (list.Forall_forall (λ a, sessions_ w !! a = None)) in Hb.
Qed.

(** A finished session is owed nothing. *)
Lemma done_no_debts w a s :
  inv w → sessions_ w !! a = Some s → both_done s → Forall (λ d, d = 0%Z) (debts (chans w) a).
Proof.
  intros Hinv Ha [_ Hw]. destruct (inv_session w a s Hinv Ha) as ([Hex [_ _ _ Hcy] _] & _ & _ & [L1 _]).
  rewrite Hw in Hcy. apply total_zero; [apply debts_nonneg, Hinv|]. rewrite <-L1.
  destruct (Hcy eq_refl) as [Hst|(_ & _ & ? & _)]; [|done]. by apply (eo_aborted _ _ Hex) in Hst as [? _].
Qed.

Lemma wp_reapSessions w : inv w → main_pc w = MainReap → wp reapSessions (λ _, inv) w.
Proof.
  intros Hinv Hpc. apply wp_modify. pose proof Hinv as [W1 W2 W3 W4 W5 W6 W7 W8 [M1 M2 M3] W10].
  set (fin := finished_sessions_ w) in *.
  assert (∀ b, b ∉ fin → session_events b ((λ a, WSession a SeDestroyed) <$> fin) = []) as Hev.
  { intros b. clear. induction fin as [|a l IH]; [done|]. intros Hb. unfold session_events. csimpl.
    rewrite decide_False by set_solver. apply IH. set_solver. }
  split; simpl; try done.
  - intros b s. rewrite foldl_delete_lookup. case_decide as Hb; [done|]. intros Hs.
    rewrite session_history_app, Hev by done. by apply W2.
  - intros b s. rewrite foldl_delete_lookup. case_decide as Hb; [done|]. by apply W3.
  - intros b. rewrite foldl_delete_lookup. case_decide as Hb; [|by apply W5]. intros _.
    apply W6 in Hb as (s & Hs & Hd). exact (done_no_debts w b s Hinv Hs Hd).
  - intros b. rewrite foldl_delete_lookup. split; [by intros ?%elem_of_nil|].
    case_decide as Hb; [by intros (? & ? & _)|]. intros Hx%W6. done.
  - constructor.
  - apply Forall_app. split; [done|]. apply Forall_fmap. by apply Forall_true.
  - split; simpl; [done| |done]. intros _ Hne. apply M2; auto.
Qed.

Lemma wp_main o w :
  inv w → worker_enabled o w →
  match o with
  | WoDispatch _ | WoDispatchNotify | WoCheck | WoSwap _ | WoReap | WoPoll _ => True
  | _ => False
  end → wp (worker_step UnpackOne PackError rules o) (λ _, inv) w.
Proof.
  intros Hinv Hen Ho. pose proof (wi_main _ _ _ _ Hinv) as [M1 M2 M3]. destruct o; simpl in *; try done.
  - apply wp_bind, wp_modify, wp_emit, (main_only w); try done; [right; by exists fd|].
    split; simpl; [done|by intros; left; lia|done].
  - apply wp_bind, wp_modify, wp_modify, (main_only w); try done; [by left|].
    split; simpl; [done| |]; intros; [right|]; apply notify_readable.
  - apply wp_modify, (main_only w); try done; [by left|]. split; simpl; [done| |].
    + destruct (has_pending_fds_ w) eqn:Hf; [by intros []|]. intros _ Hne. by specialize (M1 Hne).
    + by destruct (has_pending_fds_ w).
  - destruct Hen as (Hpc & Hlen & Hnd & Hfree). apply wp_bind, wp_get, wp_bind, wp_put.
    apply wp_open_sessions; [apply (main_only w); try done; by left|done..].
  - by apply wp_reapSessions.
  - apply wp_modify, (main_only w); try done; try (by case_decide); [left; by case_decide|].
    split; simpl; case_decide; simpl; try done; by intros [].
Qed.

(** *** All steps *)

Lemma worker_step_ok o w :
  inv w → worker_enabled o w → wp (worker_step UnpackOne PackError rules o) (λ _, inv) w.
Proof.
  intros Hinv Hen. destruct o; try (by apply wp_main); simpl in Hen;
    try (destruct (sessions_ w !! a) as [s|] eqn:Ha; [|done]); cbn [worker_step].
  - apply wp_readerLoop; [done|]. simpl. by rewrite Ha.
  - destruct Hen as [Hr _]. by eapply wp_reader_read.
  - destruct Hen as [(error & Hr) _]. apply wp_bind. eapply wp_get_session; [done|]. rewrite Hr.
    apply wp_reader_wake; eauto.
  - eapply wp_reader_moves; try done; [by rewrite Hen..|]. simpl.
    eapply not_draining; [done..|]. by rewrite Hen.
  - destruct (inv_session w a s Hinv Ha) as (Hok & Hl & _ & _).
    apply (wp_finish a w s (with_reader SrDone)); [done..|]. by apply returning_reader.
  - by eapply wp_writer.
  - destruct Hen as [Hw _]. by eapply wp_writer_wake.
  - by eapply wp_writer_written.
  - destruct (inv_session w a s Hinv Ha) as (Hok & Hl & _ & _).
    apply (wp_finish a w s (with_writer SwDone)); [done..|]. by apply returning_writer.
  - by apply wp_channel_event.
Qed.

Lemma worker_new_inv (config : Config Endpoint) :
  (0 <= max_request_bytes config)%Z → (max_pipeline_commands_per_read config < 2 ^ 32)%Z →
  inv (Worker_new config : Worker C N Endpoint).
Proof.
  intros Hreq Hpipe. split; simpl; try done.
  - unfold chans. simpl. apply Forall_fmap, Forall_replicate. simpl.
    by destruct (start_ok _ config (channel_inv_new (redis config))).
  - intros a _. unfold debts, chans. simpl. apply Forall_fmap, Forall_fmap, Forall_replicate. done.
  - intros a. split; [by intros ?%elem_of_nil|]. intros (s & Hs & _). by rewrite lookup_empty in Hs.
  - constructor.
Qed.

Lemma reachable_ok config w :
  (0 <= max_request_bytes config)%Z → (max_pipeline_commands_per_read config < 2 ^ 32)%Z →
  worker_reachable UnpackOne PackError rules config w → inv w.
Proof.
  intros Hreq Hpipe. induction 1 as [|w o w' _ IH Hen Hstep]; [by apply worker_new_inv|].
  pose proof (worker_step_ok o w IH Hen) as Hwp. unfold wp in Hwp. by rewrite Hstep in Hwp.
Qed.
End steps.
