(* ===== verification/WorkerFrame.v ===== *)
(** * What the code of sessions leaves alone

    Most of a worker's code only moves sessions along, reports what they do and
    detaches them from the channels.  A property that survives these three
    survives every such step; the steps that accept commands, deliver replies or
    open sessions need an argument of their own. *)
From S2P Require Import Prelude Status CommandRules RespParser CoSocket CoroutineSignal Config.
From S2P Require Import BackendChannel BackendPool ClientSession Worker.

Create HintDb preserves discriminated.

(** Session events that do not number commands or replies. *)
Definition quiet_session (e : SessionEvent) : Prop :=
  match e with SeOpened _ | SeAccepted _ _ | SeReply _ => False | _ => True end.
Definition quiet_event (ev : Event) : Prop :=
  match ev with WSession _ e => quiet_session e | _ => False end.

Lemma quiet_sys calls : Forall quiet_session (SeSys <$> calls).
Proof. by apply Forall_fmap, Forall_true. Qed.

Section frame.
Context {C N : Type} {cond : CoCond C} {notifier : FdNotifier N} {order : SetOrder} {Endpoint : Type}.
Context (UnpackOne : bytes → nat → RespLimits → RespResult).
Context (PackError : string → bytes) (rules : CommandRules).
Implicit Types (w : Worker C N Endpoint) (s : ClientSession C Endpoint).

(** The state after [backend_pool_->detachOwner(a)]. *)
Definition detached (a : nat) w : Worker C N Endpoint :=
  upd_trace (trace w ++ ((λ e, WChannel e.1 e.2) <$> (BackendPool_detachOwner a (backend_pool_ w)).2))
    (upd_pool (BackendPool_detachOwner a (backend_pool_ w)).1 w).

Class Framed (I : Worker C N Endpoint → Prop) : Prop := {
  fr_sessions w m : I w → I (upd_sessions m w);
  fr_finished w l : I w → I (upd_finished l w);
  fr_notifier w x : I w → I (upd_notifier x w);
  fr_main w pc : I w → I (upd_main pc w);
  fr_events w es : Forall quiet_event es → I w → I (upd_trace (trace w ++ es) w);
  fr_detach w a : I w → I (detached a w)
}.

Context (I : Worker C N Endpoint → Prop) {HI : Framed I}.

(** Code that preserves [I]. *)
Definition preserves {A} (m : ST (Worker C N Endpoint) A) : Prop :=
  ∀ w x w', m w = Some (x, w') → I w → I w'.

Lemma preserves_ret {A} (x : A) : preserves (mret x).
Proof. by intros w y w' [= _ <-]. Qed.

Lemma preserves_bind {A B} (m : ST (Worker C N Endpoint) A) (k : A → ST (Worker C N Endpoint) B) :
  preserves m → (∀ x, preserves (k x)) → preserves (m ≫= k).
Proof.
  intros Hm Hk w b w'. unfold mbind, ST_bind. destruct (m w) as [[x w1]|] eqn:Hmw; [|done].
  intros Hkw Hw. by eapply Hk, Hm.
Qed.

Lemma preserves_get : preserves st_get.
Proof. by intros w y w' [= _ <-]. Qed.

Lemma preserves_opt {A} (o : option A) : preserves (st_opt o).
Proof. intros w x w'. unfold st_opt. destruct o; simpl; intros; by simplify_eq. Qed.

Lemma preserves_wrong {A} : preserves (A := A) st_wrong.
Proof. done. Qed.

Lemma preserves_modify f : (∀ w, I w → I (f w)) → preserves (modify f).
Proof. intros Hf w x w' [= _ <-]. apply Hf. Qed.

Lemma preserves_emit es : Forall quiet_event es → preserves (emit es).
Proof. intros Hes. apply preserves_modify. intros w. by apply fr_events. Qed.

Lemma preserves_put_session a s : preserves (put_session a s).
Proof. apply preserves_modify. intros w. apply fr_sessions. Qed.

Lemma preserves_get_session a : preserves (get_session a).
Proof. apply preserves_bind; [apply preserves_get|intros; apply preserves_opt]. Qed.

Lemma preserves_apply a r : Forall quiet_session r.2 → preserves (session_apply a r).
Proof.
  intros Hr. apply preserves_bind; [apply preserves_put_session|]. intros _. by apply preserves_emit, Forall_fmap.
Qed.

Lemma preserves_do a f : (∀ s, Forall quiet_session (f s).2) → preserves (session_do a f).
Proof. intros Hf. apply preserves_bind; [apply preserves_get_session|]. intros s. apply preserves_apply, Hf. Qed.

(** Applying a result that has to be computed first. *)
Lemma preserves_opt_apply a (o : option (ClientSession C Endpoint * list SessionEvent)) :
  (∀ r, o = Some r → Forall quiet_session r.2) → preserves (r ← st_opt o; session_apply a r).
Proof.
  intros Ho. destruct o as [r|]; [|done]. intros w b w' Hw. by eapply (preserves_apply a r); [apply Ho|].
Qed.

Lemma preserves_detach a : preserves (pool_detach a).
Proof. intros w x w' [= _ <-]. by apply fr_detach. Qed.

#[local] Hint Resolve preserves_ret preserves_get preserves_opt preserves_wrong preserves_put_session
  preserves_get_session preserves_detach : preserves.
#[local] Hint Extern 0 (Forall quiet_session []) => by constructor : preserves.
#[local] Hint Extern 0 (Forall quiet_session [_]) => by repeat constructor : preserves.
#[local] Hint Extern 0 (Forall quiet_session (_ :: (SeSys <$> _))) =>
  constructor; [done|apply quiet_sys] : preserves.
#[local] Hint Extern 1 (preserves (emit [_])) => by apply preserves_emit; repeat constructor : preserves.
#[local] Hint Extern 1 (preserves notify_worker) => apply preserves_modify; intros ?; apply fr_notifier : preserves.

(** Goes through a sequence of commands, its conditionals included. *)
Ltac preserves_seq :=
  repeat match goal with
  | |- ∀ _, _ => intros ?
  | |- preserves _ => solve [auto with preserves]
  | |- preserves (session_apply _ _) => apply preserves_apply
  | |- preserves (session_do _ _) => apply preserves_do
  | |- preserves (mbind _ (st_opt _)) => apply preserves_opt_apply
  | |- preserves (mbind _ _) => apply preserves_bind
  | |- preserves (if decide _ then _ else _) => case_decide
  | |- preserves (match _ with _ => _ end) => case_match
  end; simpl; eauto with preserves.

Lemma preserves_abort a : preserves (abort a).
Proof. unfold abort. preserves_seq. Qed.
#[local] Hint Resolve preserves_abort : preserves.

Lemma preserves_failures owners : preserves (mapM onBackendFailure owners).
Proof.
  induction owners as [|a owners IH]; [apply preserves_ret|].
  apply preserves_bind; [apply preserves_abort|]. intros u.
  apply preserves_bind; [exact IH|intros; apply preserves_ret].
Qed.

Lemma await_quiet error s r : await_replies PackError 2 error s = Some r → Forall quiet_session r.2.
Proof. simpl. unfold wait. repeat case_match; intros; simplify_eq/=; auto with preserves. Qed.

Lemma drain_quiet error s : Forall quiet_session (drain error s).2.
Proof. unfold drain. case_decide; simpl; auto with preserves. Qed.

Lemma rest_quiet sc s r : reader_rest PackError sc s = Some r → Forall quiet_session r.2.
Proof.
  unfold reader_rest. repeat case_decide; [|..|by intros; simplify_eq/=; auto with preserves].
  - pose proof (drain_quiet (sc_error sc) s) as Hd. destruct (drain _ s). intros; by simplify_eq.
  - destruct (await_replies _ _ _ _) as [[s1 es]|] eqn:Ha; simpl; intros; simplify_eq.
    constructor; [done|]. apply (await_quiet _ _ _ Ha).
  - intros; simplify_eq/=; auto with preserves.
Qed.

Lemma writer_quiet s r : session_writerLoop PackError 2 s = Some r → Forall quiet_session r.2.
Proof. simpl. unfold wait. repeat case_match; intros; simplify_eq/=; try done; by repeat constructor. Qed.
#[local] Hint Resolve await_quiet drain_quiet rest_quiet writer_quiet : preserves.

Lemma preserves_finish a : preserves (finishLoop a).
Proof.
  unfold finishLoop. preserves_seq.
  - destruct (CoSocket_close _). simpl. apply Forall_app. split; [apply quiet_sys|by repeat constructor].
  - apply preserves_modify. intros w. apply fr_finished.
Qed.
#[local] Hint Resolve preserves_finish : preserves.

(** The head of the reader's loop, given that submitting the batch goes well. *)
Lemma preserves_reader a alloc w x w' :
  readerLoop UnpackOne PackError rules a alloc w = Some (x, w') → I w →
  (∀ s p bs data n b w2, sessions_ w !! a = Some s → cs_state s = kOpen →
     submitBatch a data (u32 n) (upd_sessions (<[a := with_input p bs s]> (sessions_ w)) w) = Some (b, w2) →
     I w2) →
  I w'.
Proof.
  intros Hrun Hw Hsub. apply ST_bind_Some in Hrun as (s & w0 & Hs & Hrun).
  assert (sessions_ w !! a = Some s ∧ w0 = w) as [Ha ->].
  { apply ST_bind_Some in Hs as (w1 & w2 & [= <- <-] & Hs). by apply st_opt_Some. }
  case_decide as Hst; [by eapply (preserves_apply a (with_reader SrEnd s, [])); [constructor|..]|].
  assert (cs_state s = kOpen) as Hopen by (destruct (cs_state s); naive_solver).
  apply ST_bind_Some in Hrun as (sc & w1 & [_ ->]%st_opt_Some & Hrun).
  apply ST_bind_Some in Hrun as (u & w1 & Hput & Hrun). injection Hput as _ <-.
  apply ST_bind_Some in Hrun as (ok & w2 & Hok & Hrun).
  assert (I w2) as Hw2.
  { case_decide; [by eapply Hsub|]. injection Hok as _ <-. by apply fr_sessions. }
  destruct ok; refine ((_ : preserves _) _ _ _ Hrun Hw2); preserves_seq.
Qed.

(** Steps that need an argument of their own. *)
Definition special (o : WorkerOp Endpoint) : Prop :=
  match o with
  | WoReader _ _ | WoChannel _ _ | WoDispatch _ | WoDispatchNotify | WoSwap _ => True
  | _ => False
  end.

Lemma special_em o : special o ∨ ¬ special o.
Proof. destruct o; first [by left|right; by intros []]. Qed.

Lemma preserves_step o : ¬ special o → preserves (worker_step UnpackOne PackError rules o).
Proof.
  intros Ho. destruct o; cbn [worker_step]; try (by destruct Ho);
    unfold reader_wake, writer_wake, writer_written, Worker.reader_read, Worker.writerLoop;
    try (solve [preserves_seq]).
  - apply preserves_modify. intros w. apply fr_main.
  - apply preserves_modify. intros w Hw.
    apply fr_main, fr_finished, fr_sessions, fr_events; [|done]. by apply Forall_fmap, Forall_true.
  - apply preserves_modify. intros w Hw. apply fr_main. case_decide; [by apply fr_notifier|done].
Qed.
End frame.
