(* ===== verification/WorkerProps.v ===== *)
(** * Properties of a worker

    What holds in every state a worker can reach, whatever the clients, Redis, the
    kernel and the scheduler do. *)
From S2P Require Import Prelude Status CommandRules RespParser CoSocket CoroutineSignal Config.
From S2P Require Import BackendChannel ChannelInv ChannelProps BackendPool ClientSession.
From S2P Require Import SessionInv Worker WorkerInv WorkerSteps WorkerFrame.

(** ** Accepted descriptors *)

Definition dispatched (tr : list Event) : list Z :=
  omap (λ ev, match ev with WDispatched fd => Some fd | _ => None end) tr.
Definition opened (tr : list Event) : list Z :=
  omap (λ ev, match ev with WSession _ (SeOpened fd) => Some fd | _ => None end) tr.

Lemma opened_app tr es : opened (tr ++ es) = opened tr ++ opened es.
Proof. apply omap_app. Qed.
Lemma dispatched_app tr es : dispatched (tr ++ es) = dispatched tr ++ dispatched es.
Proof. apply omap_app. Qed.

Section descriptors.
Context {C N : Type} {cond : CoCond C} {notifier : FdNotifier N} {order : SetOrder} {Endpoint : Type}.
Context (UnpackOne : bytes → nat → RespLimits → RespResult).
Context (PackError : string → bytes) (rules : CommandRules).
Implicit Types (w : Worker C N Endpoint).

Definition fd_state w : list Z * list Z * (list Z * nat) :=
  (pending_fds_ w, opened (trace w), (dispatched (trace w), dispatching w)).

(** Events that leave accepted descriptors alone. *)
Definition neutral (ev : Event) : Prop :=
  match ev with WDispatched _ | WSession _ (SeOpened _) => False | _ => True end.

Lemma neutral_app tr es :
  Forall neutral es → opened (tr ++ es) = opened tr ∧ dispatched (tr ++ es) = dispatched tr.
Proof.
  intros Hes. rewrite opened_app, dispatched_app.
  assert (opened es = [] ∧ dispatched es = []) as [-> ->]; [|by rewrite !app_nil_r].
  induction Hes as [|ev es He _ IH]; [done|]. by destruct ev as [|? []|].
Qed.

Lemma neutral_state w es : Forall neutral es → fd_state (upd_trace (trace w ++ es) w) = fd_state w.
Proof. intros Hes. unfold fd_state. simpl. by destruct (neutral_app (trace w) es Hes) as [-> ->]. Qed.

Lemma neutral_quiet es : Forall quiet_event es → Forall neutral es.
Proof. intros Hes. eapply Forall_impl; [exact Hes|]. by intros [|? []|]. Qed.

Lemma neutral_channel (l : list (nat * Effect)) : Forall neutral ((λ e, WChannel e.1 e.2) <$> l).
Proof. by apply Forall_fmap, Forall_true. Qed.

(** Steps that take descriptors from the queue or put them there. *)
Definition moves_fds (o : WorkerOp Endpoint) : Prop :=
  match o with WoDispatch _ | WoDispatchNotify | WoSwap _ => True | _ => False end.

Lemma moves_fds_em o : moves_fds o ∨ ¬ moves_fds o.
Proof. destruct o; first [by left|right; by intros []]. Qed.

Section kept.
Context (x : list Z * list Z * (list Z * nat)).
Definition kept w : Prop := fd_state w = x.

#[local] Instance fds_framed : Framed kept.
Proof.
  split; unfold kept; try done.
  - intros w es Hes. by rewrite neutral_state by (by apply neutral_quiet).
  - intros w a Hw. unfold detached. rewrite <-Hw. apply (neutral_state (upd_pool _ w)), neutral_channel.
Qed.

Lemma kept_emit es : Forall neutral es → preserves kept (emit es).
Proof. intros Hes. apply preserves_modify. intros w. unfold kept. by rewrite neutral_state. Qed.

Lemma kept_apply a r : Forall neutral (WSession a <$> r.2) → preserves kept (session_apply a r).
Proof. intros Hr. apply preserves_bind; [apply (preserves_put_session kept)|intros _; by apply kept_emit]. Qed.

Lemma kept_submit a data n : preserves kept (submitBatch a data n).
Proof.
  unfold submitBatch. case_decide.
  { apply preserves_bind; [by apply kept_emit; repeat constructor|intros; apply preserves_ret]. }
  apply preserves_bind; [apply preserves_get_session|]. intros s.
  intros w b w' Hrun Hw. apply ST_bind_Some in Hrun as (w1 & w2 & [= <- <-] & Hrun).
  destruct (BackendPool_submit _ _ _ _ _) as [[res pool] es].
  apply ST_bind_Some in Hrun as (u & w1 & Hput & Hrun). injection Hput as _ <-.
  refine ((_ : preserves kept _) _ _ _ Hrun Hw). clear.
  apply preserves_bind; [apply kept_emit, neutral_channel|]. intros _. destruct res.
  - apply preserves_bind; [apply kept_apply; by repeat constructor|intros; apply preserves_ret].
  - apply preserves_bind; [by apply kept_emit; repeat constructor|]. intros _.
    apply preserves_bind; [apply (preserves_abort kept)|intros; apply preserves_ret].
Qed.

Lemma kept_deliver i es : preserves kept (deliver i es).
Proof.
  induction es as [|e es IH]; [apply preserves_ret|].
  apply preserves_bind; [by apply kept_emit; repeat constructor|]. intros _.
  apply preserves_bind; [|intros; exact IH].
  destruct e as [| | | | | |[a|] d| |]; try apply preserves_ret.
  - apply preserves_bind; [apply preserves_get_session|]. intros s. apply kept_apply. by repeat constructor.
  - apply preserves_bind; [apply (preserves_failures kept)|intros; apply preserves_ret].
Qed.

Lemma kept_channel i o : preserves kept (channel_event UnpackOne i o).
Proof.
  intros w u w' Hrun Hw. apply ST_bind_Some in Hrun as (w1 & w2 & [= <- <-] & Hrun).
  apply ST_bind_Some in Hrun as (ch & w1 & [_ ->]%st_opt_Some & Hrun).
  apply ST_bind_Some in Hrun as ([ch' es] & w2 & [_ ->]%st_opt_Some & Hrun).
  apply ST_bind_Some in Hrun as (u1 & w3 & Hput & Hrun). injection Hput as _ <-.
  by eapply kept_deliver.
Qed.

Lemma kept_step o : ¬ moves_fds o → preserves kept (worker_step UnpackOne PackError rules o).
Proof.
  intros Ho. destruct o; try (by destruct Ho); try (apply (preserves_step _ _ _ kept); by intros []).
  - intros w u w' Hrun Hw. eapply (preserves_reader _ _ _ kept); [done|done|]. intros. by eapply kept_submit.
  - apply kept_channel.
Qed.
End kept.

Lemma step_kept o w u w' :
  ¬ moves_fds o → worker_step UnpackOne PackError rules o w = Some (u, w') → fd_state w' = fd_state w.
Proof. intros Ho Hstep. by eapply (kept_step (fd_state w) o Ho w u w'). Qed.

Lemma open_sessions_fds fds addrs w u w' :
  open_sessions fds addrs w = Some (u, w') →
  fd_state w' = (pending_fds_ w, opened (trace w) ++ fds, (dispatched (trace w), dispatching w)).
Proof.
  revert addrs w. induction fds as [|fd fds IH]; intros [|a addrs] w; simpl; try done.
  - intros [= _ <-]. unfold fd_state. by rewrite app_nil_r.
  - intros [= _ <-]. unfold fd_state. by rewrite app_nil_r.
  - unfold mbind, ST_bind, st_get, st_assert. case_decide; [|done]. simpl.
    intros ->%IH. cbn [pending_fds_ trace upd_trace upd_sessions]. rewrite opened_app, dispatched_app. simpl.
    by rewrite <-(assoc_L (++)), app_nil_r.
Qed.

Definition fds_ok w : Prop := dispatched (trace w) = opened (trace w) ++ pending_fds_ w.

(** Steps of [dispatchFd]. *)
Definition dispatches (o : WorkerOp Endpoint) : Prop :=
  match o with WoDispatch _ | WoDispatchNotify => True | _ => False end.

Lemma swap_fds addrs w u w' :
  reap_swap addrs w = Some (u, w') →
  fd_state w' = ([], opened (trace w) ++ pending_fds_ w, (dispatched (trace w), dispatching w)).
Proof.
  unfold reap_swap, mbind, ST_bind, st_get, st_put. intros Hstep.
  by rewrite (open_sessions_fds _ _ _ _ _ Hstep).
Qed.

(** Only [dispatchFd] adds descriptors. *)
Lemma step_dispatched o w u w' :
  ¬ dispatches o → worker_step UnpackOne PackError rules o w = Some (u, w') →
  dispatched (trace w') = dispatched (trace w) ∧ dispatching w' = dispatching w.
Proof.
  intros Ho Hstep. assert ((fd_state w').2 = (fd_state w).2) as [= -> ->]; [|done].
  destruct (moves_fds_em o) as [Hm|Hm]; [|by rewrite (step_kept o _ _ _ Hm Hstep)].
  destruct o; try (by destruct Ho); try (by destruct Hm); cbn [worker_step] in Hstep.
  by rewrite (swap_fds _ _ _ _ Hstep).
Qed.

Lemma step_fds o w u w' :
  worker_step UnpackOne PackError rules o w = Some (u, w') → fds_ok w → fds_ok w'.
Proof.
  intros Hstep Hok. unfold fds_ok in *.
  destruct (moves_fds_em o) as [Hm|Hm].
  2:{ apply (step_kept o _ _ _ Hm) in Hstep as [= -> -> -> _]. done. }
  destruct o; try (by destruct Hm); cbn [worker_step] in Hstep.
  - injection Hstep as _ <-. unfold upd_trace, upd_fds in *. cbn [pending_fds_ trace].
    rewrite opened_app, dispatched_app. simpl. by rewrite Hok, app_nil_r, <-(assoc_L (++)).
  - by injection Hstep as _ <-.
  - apply swap_fds in Hstep as [= -> -> -> _]. by rewrite app_nil_r.
Qed.

Lemma reachable_fds config w :
  worker_reachable UnpackOne PackError rules config w → fds_ok w.
Proof. induction 1 as [|w o w' _ IH _ Hstep]; [done|]. by eapply step_fds. Qed.
End descriptors.

(** ** Claims *)

Section claims.
Context {C N : Type} {cond : CoCond C} {laws : CoCondLaws C}.
Context {notifier : FdNotifier N} {nlaws : FdNotifierLaws N} {order : SetOrder} {Endpoint : Type}.
Context (UnpackOne : bytes → nat → RespLimits → RespResult) {uo : UnpackOneLaws UnpackOne}.
Context (PackError : string → bytes) (rules : CommandRules).
Implicit Types (w : Worker C N Endpoint) (s : ClientSession C Endpoint).

(** A configuration whose batches fit 32 bits. *)
Definition config_fits (config : Config Endpoint) : Prop :=
  (0 <= max_request_bytes config)%Z ∧ (max_pipeline_commands_per_read config < 2 ^ 32)%Z.

Local Abbreviation reachable := (worker_reachable UnpackOne PackError rules).

Lemma worker_inv_reachable config w :
  config_fits config → reachable config w → worker_inv UnpackOne rules ∅ w.
Proof. intros [H1 H2]. by apply reachable_ok. Qed.

(** C7: A worker never goes wrong.  In every reachable state every step that a
    coroutine, a channel, another thread or the kernel can take is carried out:
    no callback reaches a destroyed session, no loop runs without end between
    two suspensions, nothing is read outside its bounds. *)
Theorem worker_never_goes_wrong config w o :
  config_fits config → reachable config w → worker_enabled o w →
  ∃ w', worker_step UnpackOne PackError rules o w = Some (tt, w') ∧ reachable config w'.
Proof.
  intros Hc Hr Hen. pose proof (worker_inv_reachable _ _ Hc Hr) as Hinv.
  destruct (wp_run _ _ _ (worker_step_ok UnpackOne PackError rules o w Hinv Hen)) as ([] & w' & Hstep & _).
  exists w'. split; [done|]. by eapply wr_step.
Qed.

(** C1: Responses come in the order of the requests.  For every client, the
    answers queued so far (replies of Redis, and errors of the proxy for refused
    commands) answer the commands in the order in which they arrived, none
    skipped and none answered twice; while the session is not aborted the
    commands without an answer are exactly the replies it still waits for,
    followed by at most one error that is due. *)
Theorem responses_in_order config w a s :
  config_fits config → reachable config w → sessions_ w !! a = Some s →
  let h := session_history a (trace w) in
  h_responses h `prefix_of` h_requests h ∧
  (cs_state s ≠ kAborted →
     h_requests h = h_responses h ++ replicate (Z.to_nat (pending_replies_ s)) Forwarded ++ due_error s).
Proof.
  intros Hc Hr Ha. pose proof (worker_inv_reachable _ _ Hc Hr) as Hinv.
  destruct (inv_session _ _ _ _ _ Hinv Ha) as ([[E1 E2 _ _ _ _ _ _ _] _ _] & _). done.
Qed.

(** C10: A session that ends without being aborted has served its client: every
    command was answered, every answer was handed to [writeAll], and the
    history of responses is that of the requests. *)
Theorem graceful_end_is_complete config w a s :
  config_fits config → reachable config w → sessions_ w !! a = Some s →
  writer_over (writer_at s) = true → cs_state s ≠ kAborted →
  let h := session_history a (trace w) in
  h_responses h = h_requests h ∧ h_wire h = concat (h_queued h) ∧ pending_replies_ s = 0%Z.
Proof.
  intros Hc Hr Ha Hw Hst h. pose proof (worker_inv_reachable _ _ Hc Hr) as Hinv.
  destruct (inv_session _ _ _ _ _ Hinv Ha) as ([[E1 E2 E3 E4 E5 _ _ _ _] [_ _ Y3 Y4] _] & _).
  destruct (Y4 Hw) as [?|(Hd & Hout & Hp & Hf)]; [done|]. specialize (Y3 Hd).
  specialize (E1 Hst). specialize (E4 Hst). rewrite Hp in E1. rewrite Hout, app_nil_r in E4.
  assert (due_error s = []) as Hdue.
  { unfold due_error. destruct (reader_at s); try done; by rewrite decide_True. }
  rewrite Hdue in E1. simpl in E1. rewrite app_nil_r in E1. done.
Qed.

(** C11: No byte is lost, invented or reordered on either side of a client.  What
    was read from it is what was taken from its input buffer, followed by what
    the buffer holds; what was written to it is a prefix of the responses
    queued, and while the session is not aborted the rest is in its queue. *)
Theorem client_bytes_conserved config w a s :
  config_fits config → reachable config w → sessions_ w !! a = Some s →
  let h := session_history a (trace w) in
  h_in h = h_taken h ++ client_in_ s ∧
  h_wire h `prefix_of` concat (h_queued h) ∧
  (cs_state s ≠ kAborted → concat (h_queued h) = h_wire h ++ concat (client_out_ s)).
Proof.
  intros Hc Hr Ha. pose proof (worker_inv_reachable _ _ Hc Hr) as Hinv.
  destruct (inv_session _ _ _ _ _ Hinv Ha) as ([[_ _ E3 E4 E5 _ _ _ _] _ _] & _). done.
Qed.

(** C6: Only admitted commands reach Redis.  Whatever a worker submits to a
    channel is a sequence of complete request frames, as many as the command
    count says, and the command rules allow every one of them. *)
Theorem only_admitted_commands_forwarded config w i owner data n :
  config_fits config → reachable config w →
  WChannel i (EfSubmitted owner data n) ∈ trace w →
  ∃ alloc p view infos, frames UnpackOne rules alloc p view 0 infos ∧
    n = Z.of_nat (length infos) ∧ data = take (frames_length infos) view.
Proof.
  intros Hc Hr Hin. pose proof (wi_admitted _ _ _ _ (worker_inv_reachable _ _ Hc Hr)) as Hall.
  rewrite list.Forall_forall in Hall. exact (Hall _ Hin).
Qed.

(** C12: Sessions and channels agree.  A session's [pending_replies_] is exactly
    the number of its commands that are queued or unanswered on the channels,
    and all of them are on the channel [current_backend_]. *)
Theorem pending_replies_exact config w a s :
  config_fits config → reachable config w → sessions_ w !! a = Some s →
  pending_replies_ s = foldr Z.add 0%Z ((λ ch, owed a (abs ch)) <$> channels_ (backend_pool_ w)) ∧
  (∀ i ch, channels_ (backend_pool_ w) !! i = Some ch → owed a (abs ch) ≠ 0%Z →
     current_backend_ s = Some i).
Proof.
  intros Hc Hr Ha. pose proof (worker_inv_reachable _ _ Hc Hr) as Hinv.
  destruct (inv_session _ _ _ _ _ Hinv Ha) as (_ & _ & _ & [L1 L2]). split; [done|].
  intros i ch Hi. by apply (L2 i (owed a (abs ch))), debts_lookup.
Qed.

(** C13: No channel holds a reference to a session that is gone or going.  A
    session that some channel still mentions exists, is not aborted, and has not
    finished; so a finished session can be destroyed. *)
Theorem no_dangling_owner config w i ch a :
  config_fits config → reachable config w →
  channels_ (backend_pool_ w) !! i = Some ch → a ∈ fifo_owners (abs ch) →
  (∃ s, sessions_ w !! a = Some s ∧ cs_state s ≠ kAborted) ∧ a ∉ finished_sessions_ w.
Proof.
  intros Hc Hr Hi Ha. pose proof (worker_inv_reachable _ _ Hc Hr) as Hinv.
  assert (channel_inv ch) as Hch by (by eapply Forall_lookup_1; [apply Hinv|]).
  assert (owed a (abs ch) ≠ 0%Z) as Ho by (by rewrite owed_zero by (by apply channel_counts); auto).
  split; [by eapply owner_alive|]. intros (s & Hs & Hd)%(wi_finished _ _ _ _ Hinv).
  pose proof (done_no_debts _ _ w a s Hinv Hs Hd) as Hz.
  eapply Forall_lookup_1 in Hz; [|by apply debts_lookup]. done.
Qed.

(** A session is reported finished exactly when both of its loops have
    returned, and only once. *)
Theorem finished_exactly_once config w :
  config_fits config → reachable config w →
  NoDup (finished_sessions_ w) ∧
  ∀ a, a ∈ finished_sessions_ w ↔
    ∃ s, sessions_ w !! a = Some s ∧ reader_at s = SrDone ∧ writer_at s = SwDone.
Proof.
  intros Hc Hr. pose proof (worker_inv_reachable _ _ Hc Hr) as Hinv. split; [apply Hinv|]. apply Hinv.
Qed.

(** C21: No session sleeps through its work.  When the writer waits although a
    response is queued, the session was aborted, or it is draining with nothing
    left to wait for, the writer can be resumed; when the reader waits for
    replies although none is outstanding or the session was aborted, the reader
    can be resumed. *)
Theorem session_no_lost_wakeup config w a s :
  config_fits config → reachable config w → sessions_ w !! a = Some s →
  (writer_at s = SwWaiting →
     client_out_ s ≠ [] ∨ cs_state s = kAborted ∨
       (cs_state s = kDraining ∧ pending_replies_ s = 0%Z) →
     worker_enabled (WoWriterWake a) w) ∧
  (∀ error, reader_at s = SrWaitReplies error →
     cs_state s ≠ kOpen ∨ pending_replies_ s = 0%Z →
     worker_enabled (WoReaderWake a) w).
Proof.
  intros Hc Hr Ha. pose proof (worker_inv_reachable _ _ Hc Hr) as Hinv.
  destruct (inv_session _ _ _ _ _ Hinv Ha) as ([_ _ [W1 W2]] & _). split.
  - intros Hw Hwork. simpl. rewrite Ha. split; [done|]. apply W1; [|done]. by apply bool_decide_eq_true.
  - intros error Hrd Hwork. simpl. rewrite Ha. split; [eauto|]. apply W2; [by rewrite Hrd|done].
Qed.

(** C23: No accepted connection is forgotten.  The descriptors handed to a worker
    are, in order, those it has opened a session for, followed by those in its
    queue; and while the queue is not empty, or a finished session waits to be
    destroyed, the worker's loop is not left asleep: it is about to look, or a
    thread is about to notify it, or its poll can return. *)
Theorem no_descriptor_lost config w :
  config_fits config → reachable config w →
  dispatched (trace w) = opened (trace w) ++ pending_fds_ w ∧
  (pending_fds_ w ≠ [] → has_pending_fds_ w = true) ∧
  (main_pc w = MainPoll →
     (pending_fds_ w ≠ [] → 0 < dispatching w ∨ worker_enabled (WoPoll 1) w) ∧
     (finished_sessions_ w ≠ [] → worker_enabled (WoPoll 1) w)).
Proof.
  intros Hc Hr. pose proof (worker_inv_reachable _ _ Hc Hr) as Hinv.
  destruct (wi_main _ _ _ _ Hinv) as [M1 M2 M3]. split_and!; [by eapply reachable_fds|done|].
  intros Hpc. split.
  - intros Hne. destruct (M2 ltac:(by right) Hne); [by left|]. by right.
  - intros Hne. by split; [|intros _; apply M3].
Qed.
End claims.
