(* ===== verification/PoolStop.v ===== *)
(** * Stopping the pool

    [BackendPool::stop] stops one channel after the other; the callbacks of each,
    which abort sessions and detach them from all channels, run before the next one
    is stopped. *)
From S2P Require Import Prelude Status CommandRules RespParser CoSocket CoroutineSignal Config.
From S2P Require Import BackendChannel ChannelInv ChannelProps ChannelStop BackendPool ClientSession.
From S2P Require Import SessionInv Worker WorkerInv WorkerSteps WorkerFrame WorkerProps.

Section pool_stop.
Context {C N : Type} {cond : CoCond C} {laws : CoCondLaws C}.
Context {notifier : FdNotifier N} {nlaws : FdNotifierLaws N} {order : SetOrder} {Endpoint : Type}.
Context (UnpackOne : bytes → nat → RespLimits → RespResult) {uo : UnpackOneLaws UnpackOne}.
Context (PackError : string → bytes) (rules : CommandRules).
Implicit Types (w : Worker C N Endpoint) (ch : BackendChannel C Endpoint).

Definition stopping ch : Prop := stop_requested_ ch = true ∧ state_ ch ≠ kReady.

(** There are [n] channels, and those before [k] are stopping. *)
Definition stopped_upto (n k : nat) w : Prop :=
  length (chans w) = n ∧ ∀ i ch, i < k → chans w !! i = Some ch → stopping ch.

Lemma stopping_detach a ch : stopping ch → stopping (BackendChannel_detachOwner a ch).1.
Proof. unfold BackendChannel_detachOwner. by destruct (erase_owner _ _ _). Qed.

Lemma stopping_stop ch : stopping (BackendChannel_stop ch).1.
Proof. unfold BackendChannel_stop, failConnection, stopping. by case_decide. Qed.

#[local] Instance stopped_framed n k : Framed (stopped_upto n k).
Proof.
  split; try done. intros w a [Hn Hk]. unfold stopped_upto, detached, chans in *. simpl.
  split; [by rewrite length_fmap|]. intros i ch Hi.
  rewrite list_lookup_fmap_Some. intros (ch0 & -> & Hch0). by eapply stopping_detach, Hk.
Qed.

Lemma stopped_emit n k es : preserves (stopped_upto n k) (emit es).
Proof. by apply preserves_modify. Qed.

Lemma stopped_deliver n k i es : preserves (stopped_upto n k) (deliver i es).
Proof.
  induction es as [|e es IH]; [apply preserves_ret|]. simpl.
  apply preserves_bind; [apply stopped_emit|]. intros _. apply preserves_bind; [|intros; exact IH].
  destruct e as [| | | | | |[b|] d|st owners|]; try apply preserves_ret.
  - apply preserves_bind; [apply (preserves_get_session (stopped_upto n k))|]. intros s.
    apply preserves_bind; [apply (preserves_put_session (stopped_upto n k))|intros; apply stopped_emit].
  - apply preserves_bind; [apply (preserves_failures (stopped_upto n k))|intros; apply preserves_ret].
Qed.

(** Stopping channel [k] when those before it are stopping. *)
Lemma stop_one n k w :
  worker_inv UnpackOne rules ∅ w → stopped_upto n k w → k < n →
  wp (channel_event UnpackOne k OpStop) (λ _ w', worker_inv UnpackOne rules ∅ w' ∧ stopped_upto n (S k) w') w.
Proof.
  intros Hinv [Hn Hk] Hlt.
  destruct (lookup_lt_is_Some_2 (channels_ (backend_pool_ w)) k) as [ch Hch]; [unfold chans in Hn; lia|].
  assert (worker_enabled (WoChannel k OpStop) w) as Hen by (simpl; by rewrite Hch).
  destruct (wp_run _ _ _ (wp_channel_event UnpackOne rules k OpStop w Hinv Hen)) as (u & w' & Hrun & Hinv').
  unfold wp. rewrite Hrun. split; [done|].
  apply ST_bind_Some in Hrun as (w1 & w2 & [= <- <-] & Hrun).
  apply ST_bind_Some in Hrun as (ch1 & w1 & [Hch1 ->]%st_opt_Some & Hrun). rewrite Hch in Hch1. injection Hch1 as <-.
  apply ST_bind_Some in Hrun as ([ch' es] & w2 & [Hstep ->]%st_opt_Some & Hrun).
  apply ST_bind_Some in Hrun as (u1 & w3 & Hput & Hrun). injection Hput as _ <-.
  eapply (stopped_deliver n (S k)); [exact Hrun|]. unfold stopped_upto, chans in *. simpl.
  split; [by rewrite length_insert|]. intros i chi Hi Hchi. destruct (decide (i = k)) as [->|Hne].
  - rewrite list_lookup_insert_eq in Hchi by lia. injection Hchi as <-.
    injection Hstep as Hstep. pose proof (stopping_stop ch) as Hs. by rewrite Hstep in Hs.
  - rewrite list_lookup_insert_ne in Hchi by done. by apply (Hk i); [lia|].
Qed.

Lemma stop_rest n k m w :
  worker_inv UnpackOne rules ∅ w → stopped_upto n k w → k + m ≤ n →
  wp (stop_channels UnpackOne (seq k m))
     (λ _ w', worker_inv UnpackOne rules ∅ w' ∧ stopped_upto n (k + m) w') w.
Proof.
  revert k w. induction m as [|m IH]; intros k w Hinv Hk Hle; simpl.
  { apply wp_ret. by rewrite Nat.add_0_r. }
  wp_bind_on (stop_one n k w Hinv Hk ltac:(lia)). intros _ w' [Hinv' Hk'].
  eapply wp_mono; [apply (IH (S k) w' Hinv' Hk' ltac:(lia))|]. intros [] w2 Hw2.
  by rewrite Nat.add_succ_r.
Qed.

(** A stopping channel owes nothing. *)
Lemma stopping_owed a ch : channel_inv ch → stopping ch → owed a (abs ch) = 0%Z.
Proof. intros Hinv [_ Hst]. destruct (qo_down _ _ _ _ (ci_queues _ Hinv) Hst) as [Hw Hp]. unfold abs. by rewrite Hw, Hp. Qed.

(** C19: [BackendPool::stop] carries through in every state of a worker, callbacks
    included.  Afterwards every channel has been told to stop, none is ready, each
    satisfies its invariant, and no session waits for a reply. *)
Theorem pool_stop_stops config w :
  config_fits config → worker_reachable UnpackOne PackError rules config w →
  ∃ w', BackendPool_stop UnpackOne w = Some (tt, w') ∧
    length (channels_ (backend_pool_ w')) = length (channels_ (backend_pool_ w)) ∧
    Forall (λ ch, channel_inv ch ∧ stopping ch) (channels_ (backend_pool_ w')) ∧
    (∀ a s, sessions_ w' !! a = Some s → pending_replies_ s = 0%Z).
Proof.
  intros Hc Hr. pose proof (worker_inv_reachable _ _ _ _ _ Hc Hr) as Hinv.
  set (n := length (channels_ (backend_pool_ w))).
  assert (stopped_upto n 0 w) as H0 by (split; [done|lia]).
  destruct (wp_run _ _ _ (stop_rest n 0 n w Hinv H0 ltac:(lia))) as ([] & w' & Hrun & Hinv' & Hn & Hall).
  exists w'. split; [exact Hrun|]. unfold chans in *. split; [done|].
  assert (Forall (λ ch, channel_inv ch ∧ stopping ch) (channels_ (backend_pool_ w'))) as Hstop.
  { apply Forall_lookup. intros i ch Hi. split; [by eapply Forall_lookup_1; [apply Hinv'|]|].
    apply (Hall i); [|done]. apply lookup_lt_Some in Hi. lia. }
  split; [exact Hstop|]. intros a s Hs.
  destruct (inv_session _ _ _ _ _ Hinv' Hs) as (_ & _ & _ & [Ht _]). rewrite Ht.
  apply total_zero; [apply debts_nonneg, Hinv'|]. apply Forall_fmap.
  eapply Forall_impl; [exact Hstop|]. intros ch [Hci Hst]. by apply stopping_owed.
Qed.
End pool_stop.
