(* ===== verification/SessionEnd.v ===== *)
(** * A session that has nothing left to wait for comes to its end

    A session is settled when it was aborted, or when it is draining and Redis has
    answered everything.  From then on each of its own steps brings its two
    coroutines closer to their ends, nobody else's step touches it, and until both
    have returned one of them can go on.  So it is reported finished after a bounded
    number of its own steps, whatever the rest of the worker does. *)
From S2P Require Import Prelude Status CommandRules RespParser CoSocket CoroutineSignal Config.
From S2P Require Import BackendChannel ChannelInv ChannelProps BackendPool ClientSession.
From S2P Require Import SessionInv Worker WorkerInv WorkerSteps WorkerFrame WorkerProps.

(** The steps taken by the coroutines of session [a]. *)
Definition own_step {Endpoint} (a : nat) (o : WorkerOp Endpoint) : Prop :=
  match o with
  | WoReader b _ | WoRead b _ _ | WoReaderWake b | WoYielded b | WoReaderEnd b
  | WoWriter b | WoWriterWake b | WoWritten b _ | WoWriterEnd b => b = a
  | _ => False
  end.

(** How many steps the reader has left, at most. *)
Definition reader_left (r : SessionReader) : nat :=
  match r with
  | SrDone => 0 | SrEnd => 1 | SrTop | SrReading | SrWaitReplies _ => 2 | SrYield => 3
  end.

Section session_end.
Context {C N : Type} {cond : CoCond C} {laws : CoCondLaws C}.
Context {notifier : FdNotifier N} {nlaws : FdNotifierLaws N} {order : SetOrder} {Endpoint : Type}.
Context (UnpackOne : bytes → nat → RespLimits → RespResult) {uo : UnpackOneLaws UnpackOne}.
Context (PackError : string → bytes) (rules : CommandRules).
Implicit Types (w : Worker C N Endpoint) (s : ClientSession C Endpoint) (ch : BackendChannel C Endpoint).

Definition settled s : Prop :=
  cs_state s = kAborted ∨ (cs_state s = kDraining ∧ pending_replies_ s = 0%Z).

(** The responses the writer will still write, one by one at worst. *)
Definition output_left s : nat :=
  if decide (cs_state s = kAborted) then 0
  else length (client_out_ s) + (if decide (final_error_ s = ""%string) then 0 else 1).

Definition writer_left s : nat :=
  match writer_at s with
  | SwDone => 0 | SwEnd => 1
  | SwTop | SwWaiting => 2 + 2 * output_left s
  | SwWriting => 3 + 2 * output_left s
  end.

Definition steps_left s : nat := reader_left (reader_at s) + writer_left s.

Lemma steps_left_bound s : steps_left s ≤ 6 + 2 * output_left s.
Proof. unfold steps_left, writer_left. destruct (reader_at s), (writer_at s); simpl; lia. Qed.

Lemma steps_left_done s : steps_left s = 0 ↔ both_done s.
Proof.
  unfold steps_left, writer_left, both_done.
  destruct (reader_at s), (writer_at s); simpl; split; try lia; by intros [].
Qed.

Lemma settled_pending h s : session_ok h s → settled s → pending_replies_ s = 0%Z.
Proof. intros Hok [Hst|[_ Hp]]; [|done]. by apply (eo_aborted _ _ (sk_exchange _ _ Hok)). Qed.

(** No channel owes a settled session anything. *)
Lemma settled_not_owned w a s i ch :
  worker_inv UnpackOne rules ∅ w → sessions_ w !! a = Some s → settled s →
  chans w !! i = Some ch → owed a (abs ch) = 0%Z.
Proof.
  intros Hinv Ha Hs Hi. destruct (inv_session _ _ _ _ _ Hinv Ha) as (Hok & _ & _ & [Ht _]).
  rewrite (settled_pending _ _ Hok Hs) in Ht. symmetry in Ht.
  apply total_zero in Ht; [|apply debts_nonneg, Hinv].
  by eapply Forall_lookup_1 in Ht; [|by apply debts_lookup].
Qed.

(** ** Steps of others *)

Section others.
Context (a : nat) (s : ClientSession C Endpoint) (Hs : settled s).

Definition holds w : Prop := sessions_ w !! a = Some s.

Lemma holds_put b s' : b ≠ a → preserves holds (put_session b s').
Proof. intros Hb. apply preserves_modify. intros w Hw. unfold holds. simpl. by rewrite lookup_insert_ne. Qed.

Lemma holds_modify f : (∀ w, sessions_ (f w) = sessions_ w) → preserves holds (modify f).
Proof. intros Hf. apply preserves_modify. intros w. unfold holds. by rewrite Hf. Qed.

Lemma holds_emit es : preserves holds (emit es).
Proof. by apply holds_modify. Qed.

Lemma holds_get b : preserves holds (get_session b).
Proof. apply preserves_bind; [apply preserves_get|intros; apply preserves_opt]. Qed.

Lemma holds_apply b r : b ≠ a → preserves holds (session_apply b r).
Proof. intros Hb. apply preserves_bind; [by apply holds_put|intros; apply holds_emit]. Qed.

Lemma holds_do b f : b ≠ a → preserves holds (session_do b f).
Proof. intros Hb. apply preserves_bind; [apply holds_get|intros; by apply holds_apply]. Qed.

Lemma holds_detach b : preserves holds (pool_detach b).
Proof. by intros w x w' [= _ <-]. Qed.

Lemma holds_submit_bind b s' data n (k : option nat → ST (Worker C N Endpoint) bool) :
  (∀ c, preserves holds (k c)) →
  preserves holds
    (w ← st_get;
     let '(channel, pool, es) :=
       BackendPool_submit (Some b) (current_backend_ s') data n (backend_pool_ w) in
     st_put (upd_pool pool w);; emit ((λ e, WChannel e.1 e.2) <$> es);; k channel).
Proof.
  intros Hk w x w' Hrun Hw. apply ST_bind_Some in Hrun as (w1 & w2 & [= <- <-] & Hrun).
  destruct (BackendPool_submit _ _ _ _ _) as [[c pool] es].
  apply ST_bind_Some in Hrun as (u & w1 & Hput & Hrun). injection Hput as _ <-.
  refine ((_ : preserves holds _) _ _ _ Hrun Hw).
  apply preserves_bind; [apply holds_emit|intros; apply Hk].
Qed.

Create HintDb holds discriminated.
#[local] Hint Resolve preserves_ret preserves_get preserves_opt preserves_wrong holds_put holds_emit
  holds_get holds_apply holds_do holds_detach : holds.
#[local] Hint Extern 1 (preserves _ notify_worker) => by apply holds_modify : holds.

(** Goes through the code of another session. *)
Ltac holds_seq :=
  repeat match goal with
  | |- ∀ _, _ => intros ?
  | |- preserves _ _ => solve [auto with holds]
  | |- preserves _ (modify _) => apply holds_modify
  | |- preserves _ (mbind _ (st_get)) => apply holds_submit_bind
  | |- preserves _ (mbind _ _) => apply preserves_bind
  | |- preserves _ (if decide _ then _ else _) => case_decide
  | |- preserves _ (match _ with _ => _ end) => case_match
  end; try done.

Lemma holds_abort b : b ≠ a → preserves holds (abort b).
Proof. intros Hb. unfold abort. holds_seq. Qed.
#[local] Hint Resolve holds_abort : holds.

Lemma holds_failures owners : a ∉ owners → preserves holds (mapM onBackendFailure owners).
Proof.
  induction owners as [|b owners IH]; [intros _; apply preserves_ret|].
  intros [Hb Ho]%not_elem_of_cons. simpl. apply preserves_bind; [by apply holds_abort|]. intros u.
  apply preserves_bind; [by apply IH|intros; apply preserves_ret].
Qed.

Lemma holds_finish b : b ≠ a → preserves holds (finishLoop b).
Proof. intros Hb. unfold finishLoop. holds_seq. Qed.
#[local] Hint Resolve holds_finish : holds.

Lemma holds_submit b data n : b ≠ a → preserves holds (submitBatch b data n).
Proof. intros Hb. unfold submitBatch. holds_seq. Qed.
#[local] Hint Resolve holds_submit : holds.

(** Effects without a callback to [a]. *)
Definition spares (e : Effect) : Prop :=
  match e with
  | EfReply (Some b) _ => b ≠ a
  | EfDown _ owners => a ∉ owners
  | _ => True
  end.

Lemma holds_deliver i es : Forall spares es → preserves holds (deliver i es).
Proof.
  induction 1 as [|e es He _ IH]; [apply preserves_ret|]. simpl.
  apply preserves_bind; [apply holds_emit|]. intros _. apply preserves_bind; [|intros; exact IH].
  destruct e as [| | | | | |[b|] d|st owners|]; try apply preserves_ret.
  - by apply holds_do.
  - apply preserves_bind; [by apply holds_failures|intros; apply preserves_ret].
Qed.

Lemma spares_sys es : Forall is_sys es → Forall spares es.
Proof. intros Hes. eapply Forall_impl; [exact Hes|]. by intros []. Qed.

(** A channel that owes [a] nothing does not call it. *)
Lemma step_spares (o : ChannelOp Endpoint) (ch ch' : BackendChannel C Endpoint) es :
  channel_inv ch → resumes o → channel_step UnpackOne o ch = Some (ch', es) →
  owed a (abs ch) = 0%Z → Forall spares es.
Proof.
  intros Hc Ho Hstep Hz.
  destruct (channel_step_ok UnpackOne o ch _ ltac:(by destruct o) Hc Hstep) as [Hci Hf].
  simpl in Hci. cbn [fst snd] in Hf.
  pose proof (step_shape UnpackOne o ch (ch', es) Ho Hstep) as Hsh. simpl in Hsh.
  destruct Hsh as [es Hes| |so data n|[b|] data|es st owners es' H1 H2%idle_sys]; try (by repeat constructor).
  - by apply spares_sys.
  - constructor; [|done]. intros ->. rewrite fifo_run_single in Hf.
    pose proof (fifo_step_owed a _ _ _ Hf) as Hoa. simpl in Hoa. rewrite decide_True in Hoa by done.
    pose proof (owed_nonneg a _ (channel_counts _ Hci)) as Hnn. lia.
  - apply Forall_app. split; [by apply spares_sys|]. constructor; [|by apply spares_sys].
    apply fifo_run_split in Hf as (f & Hf & Hrun). apply fifo_run_sys in Hf as ->; [|done].
    cbn [fifo_run fifo_step] in Hrun. case_decide as Hd; [|done]. destruct Hd as (_ & _ & Hset).
    apply owed_zero in Hz; [|by apply channel_counts]. simpl. set_solver.
Qed.

Lemma holds_channel i o w x w' :
  worker_inv UnpackOne rules ∅ w → worker_enabled (WoChannel i o) w →
  channel_event UnpackOne i o w = Some (x, w') → holds w → holds w'.
Proof.
  intros Hinv [Ho Hen] Hrun Hw. apply ST_bind_Some in Hrun as (w1 & w2 & [= <- <-] & Hrun).
  apply ST_bind_Some in Hrun as (ch & w1 & [Hi ->]%st_opt_Some & Hrun).
  apply ST_bind_Some in Hrun as ([ch' es] & w2 & [Hstep ->]%st_opt_Some & Hrun).
  apply ST_bind_Some in Hrun as (u1 & w3 & Hput & Hrun). injection Hput as _ <-.
  refine (holds_deliver i es _ _ _ _ Hrun Hw). eapply step_spares; [|done..|].
  - by eapply Forall_lookup_1; [apply Hinv|].
  - by eapply settled_not_owned.
Qed.

Lemma holds_open fds addrs : a ∉ addrs → preserves holds (open_sessions fds addrs).
Proof.
  revert addrs. induction fds as [|fd fds IH]; intros [|b addrs] Ha; try apply preserves_ret; [done|].
  apply not_elem_of_cons in Ha as [Hb Ha]. simpl.
  intros w x w' Hrun Hw. apply ST_bind_Some in Hrun as (w1 & w2 & [= <- <-] & Hrun).
  refine ((_ : preserves holds _) _ _ _ Hrun Hw).
  apply preserves_bind; [unfold st_assert; case_decide; [apply preserves_ret|done]|]. intros _.
  apply preserves_bind; [by apply holds_apply|]. intros _. by apply IH.
Qed.

Lemma holds_step o w x w' :
  worker_inv UnpackOne rules ∅ w → worker_enabled o w → ¬ own_step a o → o ≠ WoReap →
  worker_step UnpackOne PackError rules o w = Some (x, w') → holds w → holds w'.
Proof.
  intros Hinv Hen Ho Hreap Hrun Hw. destruct o; cbn [worker_step own_step] in *;
    try done; try (by eapply holds_channel);
    try (refine ((_ : preserves holds _) _ _ _ Hrun Hw);
         unfold Worker.readerLoop, Worker.reader_read, reader_wake, writer_wake, writer_written,
           Worker.writerLoop, dispatch_push, dispatch_notify, reap_check, poll_return; holds_seq).
  - destruct Hen as (_ & _ & _ & Hfree).
    assert (a ∉ addrs) as Ha.
    { intros Hin. rewrite list.Forall_forall in Hfree. specialize (Hfree a Hin). unfold holds in Hw. congruence. }
    intros w1 x1 w1' Hswap Hw1. apply ST_bind_Some in Hswap as (w2 & w3 & [= <- <-] & Hswap).
    apply ST_bind_Some in Hswap as (u & w2 & Hput & Hswap). injection Hput as _ <-.
    by apply (holds_open (pending_fds_ w1) addrs Ha _ _ _ Hswap).
  - by case_decide.
Qed.
End others.

(** ** Steps of its own *)

(** What an own step of a settled session leads to. *)
Definition closer (a : nat) s (w : Worker C N Endpoint) : Prop :=
  ∃ s', sessions_ w !! a = Some s' ∧ settled s' ∧ steps_left s' < steps_left s.

Lemma closer_apply a s r w :
  settled r.1 → steps_left r.1 < steps_left s → wp (session_apply a r) (λ _, closer a s) w.
Proof. intros Hst Hlt. apply wp_session_apply. exists r.1. split; [apply lookup_insert_eq|done]. Qed.

Lemma closer_do a s s' f w :
  sessions_ w !! a = Some s' → settled (f s').1 → steps_left (f s').1 < steps_left s →
  wp (session_do a f) (λ _, closer a s) w.
Proof. intros Ha Hst Hlt. eapply wp_session_do; [done|]. by apply closer_apply. Qed.

(** [finishLoop] after a coroutine has returned. *)
Lemma closer_finish a s s' w :
  sessions_ w !! a = Some s' → settled s' → steps_left s' < steps_left s →
  wp (finishLoop a) (λ _, closer a s) w.
Proof.
  intros Ha Hst Hlt. apply wp_bind. eapply wp_get_session; [done|].
  apply wp_bind, wp_put_session. case_decide.
  { apply wp_ret. eexists. by split; [apply lookup_insert_eq|]. }
  apply wp_bind, wp_pool_detach, wp_bind. eapply wp_session_do; [apply lookup_insert_eq|].
  apply wp_session_apply, wp_bind, wp_modify, wp_modify.
  eexists. split; [apply lookup_insert_eq|]. by destruct (CoSocket_close _).
Qed.

(** One round of the writer: it returns, or has something to write. *)
Lemma writer_round s :
  settled s → writer_at s = SwTop →
  ∃ r, session_writerLoop PackError 2 s = Some r ∧ settled r.1 ∧ steps_left r.1 < steps_left s.
Proof.
  intros Hset Hw. cbn [session_writerLoop]. case_decide as Hst.
  { eexists. split; [done|]. split; [by left|]. unfold steps_left, writer_left. simpl. rewrite Hw. lia. }
  destruct Hset as [?|[Hd Hp]]; [done|].
  assert (∀ s', cs_state s' = kDraining → pending_replies_ s' = 0%Z → reader_at s' = reader_at s →
    writer_left s' < writer_left s → settled s' ∧ steps_left s' < steps_left s) as Hgo.
  { intros s' H1 H2 H3 H4. split; [by right|]. unfold steps_left. rewrite H3. lia. }
  unfold writer_left, output_left in Hgo. rewrite Hw, Hd in Hgo. simpl in Hgo.
  destruct (client_out_ s) as [|b out] eqn:Hout.
  - rewrite decide_True by done. case_decide as Hf; (eexists; split; [done|]); apply Hgo; try done; simpl.
    + lia.
    + rewrite Hd, Hout. simpl. lia.
  - eexists. split; [done|]. apply Hgo; try done. simpl. rewrite Hd, length_drop. simpl. lia.
Qed.

(** The reader of a settled session waits for nothing, unless it was aborted. *)
Lemma settled_reader h s : session_ok h s → settled s → reader_over (reader_at s) = false → cs_state s = kAborted.
Proof.
  intros Hok [Hst|[Hd _]] Hr; [done|]. by rewrite (cy_draining _ (sk_cycle _ _ Hok) Hd) in Hr.
Qed.

Lemma closer_reader a s w h :
  session_ok h s → sessions_ w !! a = Some s → settled s → 1 < reader_left (reader_at s) →
  cs_state s = kAborted ∧
  (∀ s', cs_state s' = kAborted → writer_at s' = writer_at s →
     reader_left (reader_at s') < reader_left (reader_at s) → settled s' ∧ steps_left s' < steps_left s).
Proof.
  intros Hok Ha Hset Hr. assert (cs_state s = kAborted) as Hst.
  { eapply settled_reader; [done..|]. by destruct (reader_at s); simpl in *; try lia. }
  split; [done|]. intros s' Hs' Hw Hlt. split; [by left|].
  unfold steps_left, writer_left, output_left. rewrite Hs', Hst, Hw. simpl. destruct (writer_at s); lia.
Qed.

Lemma own_reader a s o w :
  worker_inv UnpackOne rules ∅ w → sessions_ w !! a = Some s → settled s →
  match o with WoReader b _ | WoRead b _ _ | WoReaderWake b | WoYielded b | WoReaderEnd b => b = a | _ => False end →
  worker_enabled o w → wp (worker_step UnpackOne PackError rules o) (λ _, closer a s) w.
Proof.
  intros Hinv Ha Hset Ho Hen. destruct (inv_session _ _ _ _ _ Hinv Ha) as (Hok & _).
  pose proof (closer_reader a s w _ Hok Ha Hset) as Hgo.
  destruct o; try done; subst; cbn [worker_enabled] in Hen; rewrite Ha in Hen; cbn [worker_step];
    unfold Worker.readerLoop, Worker.reader_read, reader_wake.
  - destruct Hen as [Hr _]. rewrite Hr in Hgo. destruct (Hgo ltac:(simpl; lia)) as [Hst Hnext].
    apply wp_bind. eapply wp_get_session; [done|]. rewrite decide_True by (by rewrite Hst).
    by apply closer_apply; apply Hnext; try done; simpl; lia.
  - destruct Hen as [Hr _]. rewrite Hr in Hgo. destruct (Hgo ltac:(simpl; lia)) as [Hst Hnext].
    apply wp_bind. eapply wp_get_session; [done|].
    apply wp_bind, wp_session_apply. rewrite decide_True by (by rewrite Hst).
    by eapply closer_do; [apply lookup_insert_eq|apply Hnext..]; try done; simpl; lia.
  - destruct Hen as [[error Hr] _]. rewrite Hr in Hgo. destruct (Hgo ltac:(simpl; lia)) as [Hst Hnext].
    apply wp_bind. eapply wp_get_session; [done|]. rewrite Hr.
    apply wp_bind. eapply wp_get_session; [done|]. apply wp_bind. eapply wp_opt.
    { cbn [await_replies]. rewrite decide_False by (simpl; rewrite Hst; naive_solver).
      by rewrite decide_True by (simpl; by rewrite Hst). }
    by apply closer_apply; apply Hnext; try done; simpl; lia.
  - rewrite Hen in Hgo. destruct (Hgo ltac:(simpl; lia)) as [Hst Hnext].
    by eapply closer_do; [done|apply Hnext..]; try done; simpl; lia.
  - apply wp_bind. eapply wp_session_do; [done|]. apply wp_session_apply.
    eapply closer_finish; [apply lookup_insert_eq|done|]. unfold steps_left. simpl. rewrite Hen. simpl.
    unfold writer_left, output_left. simpl. lia.
Qed.

Lemma own_writer a s o w :
  worker_inv UnpackOne rules ∅ w → sessions_ w !! a = Some s → settled s →
  match o with WoWriter b | WoWriterWake b | WoWritten b _ | WoWriterEnd b => b = a | _ => False end →
  worker_enabled o w → wp (worker_step UnpackOne PackError rules o) (λ _, closer a s) w.
Proof.
  intros Hinv Ha Hset Ho Hen.
  destruct o; try done; subst; cbn [worker_enabled] in Hen; rewrite Ha in Hen; cbn [worker_step];
    unfold writer_wake, writer_written, Worker.writerLoop.
  - apply wp_bind. eapply wp_get_session; [done|].
    destruct (writer_round s Hset Hen) as (r & Hr & Hset' & Hlt).
    apply wp_bind. eapply wp_opt; [exact Hr|]. by apply closer_apply.
  - destruct Hen as [Hw _]. apply wp_bind. eapply wp_get_session; [done|].
    apply wp_bind, wp_put_session, wp_bind. eapply wp_get_session; [apply lookup_insert_eq|].
    set (s1 := with_writer SwTop _).
    destruct (writer_round s1 Hset eq_refl) as (r & Hr & Hset' & Hlt).
    apply wp_bind. eapply wp_opt; [exact Hr|]. apply closer_apply; [done|].
    assert (steps_left s1 = steps_left s) as <-; [|done].
    unfold steps_left, writer_left, output_left. simpl. by rewrite Hw.
  - destruct (Status_ok st).
    { eapply closer_do; [done|done|]. unfold steps_left, writer_left, output_left. simpl. rewrite Hen. lia. }
    apply wp_bind. eapply wp_mono; [apply (wp_abort UnpackOne rules ∅); eauto|].
    intros u w1 (_ & (s0 & s1 & Hs0 & Hs1 & Hst & Hr & _) & _). simplify_eq.
    eapply closer_do; [done|by left|]. unfold steps_left, writer_left. simpl. rewrite Hr, Hen. lia.
  - apply wp_bind. eapply wp_session_do; [done|]. apply wp_session_apply.
    eapply closer_finish; [apply lookup_insert_eq|done|]. unfold steps_left, writer_left. simpl. rewrite Hen. simpl. lia.
Qed.

Lemma own_step_closer a s o w :
  worker_inv UnpackOne rules ∅ w → sessions_ w !! a = Some s → settled s → own_step a o → worker_enabled o w →
  wp (worker_step UnpackOne PackError rules o) (λ _, closer a s) w.
Proof. intros. destruct o; first [by apply own_reader|by apply own_writer|done]. Qed.

(** Until both coroutines have returned, one of them can go on. *)
Lemma own_step_enabled a s w :
  worker_inv UnpackOne rules ∅ w → sessions_ w !! a = Some s → settled s →
  steps_left s ≠ 0 → ∃ o, own_step a o ∧ worker_enabled o w.
Proof.
  intros Hinv Ha Hset Hleft.
  destruct (inv_session _ _ _ _ _ Hinv Ha) as (Hok & _). pose proof (settled_pending _ _ Hok Hset) as Hp.
  pose proof (sk_wakeup _ _ Hok) as [W1 W2].
  assert (∀ o, own_step a o → worker_enabled o w → ∃ o, own_step a o ∧ worker_enabled o w) as Hdo by eauto.
  destruct (reader_at s) eqn:Hr.
  - apply (Hdo (WoReader a (λ _, true))); simpl; [done|]. rewrite Ha, Hp. by split.
  - apply (Hdo (WoReaderWake a)); simpl; [done|]. rewrite Ha. split; [by exists error|].
    apply W2; [done|]. by right.
  - apply (Hdo (WoYielded a)); simpl; [done|]. by rewrite Ha.
  - apply (Hdo (WoRead a (Status_Closed "") [])); simpl; [done|]. by rewrite Ha.
  - apply (Hdo (WoReaderEnd a)); simpl; [done|]. by rewrite Ha.
  - destruct (writer_at s) eqn:Hw.
    + apply (Hdo (WoWriter a)); simpl; [done|]. by rewrite Ha.
    + apply (Hdo (WoWriterWake a)); simpl; [done|]. rewrite Ha. split; [done|].
      apply W1; [by apply bool_decide_eq_true|]. destruct Hset as [?|?]; [by right; left|by right; right].
    + apply (Hdo (WoWritten a Status_Ok)); simpl; [done|]. by rewrite Ha.
    + apply (Hdo (WoWriterEnd a)); simpl; [done|]. by rewrite Ha.
    + destruct Hleft. unfold steps_left, writer_left. by rewrite Hr, Hw.
Qed.

(** C18: A session with nothing left to wait for comes to its end: one that was
    aborted, or one that is draining and has all its replies.  Each step of its own
    coroutines brings them closer to it, and there are at most six plus two per
    response still to be written (none if it was aborted), also when the client does
    not take them; no step of anybody else touches the session, except that the
    worker destroys it once both coroutines have returned; until then one of the two
    can go on, and when they have returned the session is on the worker's list of
    finished sessions. *)
Theorem settled_session_ends config w a s :
  config_fits config → worker_reachable UnpackOne PackError rules config w →
  sessions_ w !! a = Some s → settled s →
  steps_left s ≤ 6 + 2 * output_left s ∧
  (∀ o w', worker_enabled o w → worker_step UnpackOne PackError rules o w = Some (tt, w') →
     (own_step a o → ∃ s', sessions_ w' !! a = Some s' ∧ settled s' ∧ steps_left s' < steps_left s) ∧
     (¬ own_step a o → sessions_ w' !! a = Some s ∨ steps_left s = 0 ∧ sessions_ w' !! a = None)) ∧
  (steps_left s ≠ 0 → ∃ o, own_step a o ∧ worker_enabled o w) ∧
  (steps_left s = 0 → a ∈ finished_sessions_ w).
Proof.
  intros Hc Hr Ha Hset. pose proof (worker_inv_reachable _ _ _ _ _ Hc Hr) as Hinv.
  split_and!; [apply steps_left_bound| |by apply own_step_enabled|].
  - intros o w' Hen Hstep. split; intros Ho.
    + pose proof (own_step_closer a s o w Hinv Ha Hset Ho Hen) as Hwp. unfold wp in Hwp. by rewrite Hstep in Hwp.
    + assert (o = WoReap ∨ o ≠ WoReap) as [->|Hne] by (destruct o; first [by left|by right]).
      * injection Hstep as <-. simpl. rewrite foldl_delete_lookup. case_decide as Hf; [right|by left].
        apply (wi_finished _ _ _ _ Hinv) in Hf as (s' & Hs' & Hd). simplify_eq.
        split; [by apply steps_left_done|done].
      * left. by apply (holds_step a s Hset o w tt w').
  - intros Hz%steps_left_done. apply (wi_finished _ _ _ _ Hinv). eauto.
Qed.
End session_end.
