(* ===== verification/Delivery.v ===== *)
(** * Which command a reply answers

    A monitor watches everything the channels and sessions of a worker do.  It
    numbers the commands of every client in the order in which they are accepted,
    follows each of them, with its bytes, through the queue of its channel to
    Redis, and insists that the bytes taken from a client are those its channel
    was given, and that a reply handed to a client is the one that Redis gave to
    that client's oldest unanswered command.  The monitor accepts whatever a worker does. *)
From S2P Require Import Prelude Status CommandRules RespParser CoSocket CoroutineSignal Config.
From S2P Require Import BackendChannel ChannelInv ChannelProps BackendPool ClientSession.
From S2P Require Import SessionInv Worker WorkerInv WorkerSteps WorkerFrame WorkerProps.

(** ** Channels with numbered commands *)

(** As [Fifo]; a batch carries the number of its first command, a slot that of
    its command. *)
Record Tagged := mkTagged {
  t_up : bool;
  t_unsent : list (sink * bytes * Z * nat);
  t_slots : list (sink * nat)
}.

Definition erase (t : Tagged) : Fifo := mkFifo (t_up t) (fst <$> t_unsent t) (fst <$> t_slots t).

Definition tagged0 : Tagged := mkTagged false [] [].

(** One effect of a channel.  [accepted] and [answered] count the commands accepted
    from a client and those answered to it. *)
Definition tag_step (accepted answered : nat → nat) (e : Effect) (t : Tagged) : option Tagged :=
  _ ← fifo_step e (erase t);
  match e with
  | EfSubmitted o data n =>
      Some (mkTagged true (t_unsent t ++ [(o, data, n, from_option accepted 0 o)]) (t_slots t))
  | EfDetached a =>
      Some (mkTagged (t_up t) (filter (λ x, x.1.1.1 ≠ Some a) (t_unsent t))
              (prod_map (blank_sink a) id <$> t_slots t))
  | EfUp => Some (mkTagged true [] [])
  | EfDown _ _ => Some tagged0
  | EfSent o _ n =>
      match t_unsent t with
      | (_, j) :: rest => Some (mkTagged (t_up t) rest (t_slots t ++ ((o,.) <$> seq j (Z.to_nat n))))
      | [] => None
      end
  | EfReply o _ =>
      match t_slots t with
      | (_, j) :: rest =>
          if from_option (λ a, bool_decide (j = answered a)) true o
          then Some (mkTagged (t_up t) (t_unsent t) rest) else None
      | [] => None
      end
  | EfSys _ | EfRejected _ _ | EfBuf _ => Some t
  end.

(** The numbers of the commands of client [a] that the channel holds. *)
Definition tags (a : nat) (t : Tagged) : list nat :=
  (filter (λ x, x.1 = Some a) (t_slots t)).*2 ++
  (filter (λ x, x.1.1.1 = Some a) (t_unsent t) ≫= λ x, seq x.2 (Z.to_nat x.1.2)).

(** ** The monitor *)

(** On its way: a batch from a session to a channel, or a reply from a channel to
    a session. *)
Inductive Hand := HandBatch (a : nat) (data : bytes) (n : Z) | HandReply (a : nat) (reply : bytes).

#[global] Instance Hand_eq_dec : EqDecision Hand.
Proof. solve_decision. Defined.

Record Monitor := mkMonitor {
  mo_chans : gmap nat Tagged;
  mo_accepted : gmap nat nat;
  mo_answered : gmap nat nat;
  mo_handing : option Hand
}.

Definition chan (m : Monitor) (i : nat) : Tagged := default tagged0 (mo_chans m !! i).
Definition accepted (m : Monitor) (a : nat) : nat := default 0 (mo_accepted m !! a).
Definition answered (m : Monitor) (a : nat) : nat := default 0 (mo_answered m !! a).

Definition mon_step (ev : Event) (m : Monitor) : option Monitor :=
  match ev with
  | WChannel i e =>
      t ← tag_step (accepted m) (answered m) e (chan m i);
      let chans := <[i := t]> (mo_chans m) in
      let hand h :=
        if decide (mo_handing m = None)
        then Some (mkMonitor chans (mo_accepted m) (mo_answered m) (Some h)) else None in
      match e with
      | EfSubmitted (Some a) data n => hand (HandBatch a data n)
      | EfReply (Some a) reply => hand (HandReply a reply)
      | _ => Some (mkMonitor chans (mo_accepted m) (mo_answered m) (mo_handing m))
      end
  | WSession a (SeOpened _) =>
      Some (mkMonitor (mo_chans m) (<[a := 0]> (mo_accepted m)) (<[a := 0]> (mo_answered m)) (mo_handing m))
  | WSession a (SeAccepted data n) =>
      if decide (mo_handing m = Some (HandBatch a data n))
      then Some (mkMonitor (mo_chans m) (<[a := accepted m a + Z.to_nat n]> (mo_accepted m)) (mo_answered m) None)
      else None
  | WSession a (SeReply reply) =>
      if decide (mo_handing m = Some (HandReply a reply))
      then Some (mkMonitor (mo_chans m) (mo_accepted m) (<[a := S (answered m a)]> (mo_answered m)) None)
      else None
  | _ => Some m
  end.

Definition mon0 : Monitor := mkMonitor ∅ ∅ ∅ None.

Fixpoint mon_run (evs : list Event) (m : Monitor) : option Monitor :=
  match evs with [] => Some m | ev :: evs => m ← mon_step ev m; mon_run evs m end.

Lemma mon_run_app evs evs' m m' : mon_run evs m = Some m' → mon_run (evs ++ evs') m = mon_run evs' m'.
Proof.
  revert m. induction evs as [|ev evs IH]; intros m; simpl; [by intros [= ->]|].
  destruct (mon_step ev m); simpl; [apply IH|done].
Qed.

(** ** Numbered channels *)

Lemma fmap_fst_pair {A} (o : A) (l : list nat) : fst <$> ((o,.) <$> l) = replicate (length l) o.
Proof. induction l as [|x l IH]; [done|]. csimpl. by f_equal. Qed.

(** Forgetting the numbers. *)
Lemma tag_step_erase acc ans e t t' : tag_step acc ans e t = Some t' → fifo_step e (erase t) = Some (erase t').
Proof.
  unfold tag_step. destruct (fifo_step e (erase t)) as [f|] eqn:Hf; [|done]. simpl.
  intros Ht. f_equal. unfold erase in *. destruct e; simpl in *.
  - repeat case_match; simplify_eq; by f_equal.
  - case_decide; simplify_eq/=. by rewrite fmap_app.
  - case_decide; by simplify_eq.
  - simplify_eq/=. f_equal.
    + induction (t_unsent t) as [|[u j] l IH]; [done|]. csimpl.
      destruct (decide (u.1.1 = Some owner)) as [Hu|Hu].
      * rewrite !filter_cons_False by (simpl; tauto). done.
      * rewrite !filter_cons_True by done. csimpl. by f_equal.
    + rewrite <-!list_fmap_compose. by apply list_fmap_ext.
  - case_decide; by simplify_eq.
  - destruct (t_unsent t) as [|[u j] rest]; [done|]. simpl in *. case_decide; simplify_eq/=.
    by rewrite fmap_app, fmap_fst_pair, length_seq.
  - destruct (t_slots t) as [|[u j] rest]; [done|]. simpl in *.
    case_decide; [|done]. case_match; by simplify_eq/=.
  - case_decide; by simplify_eq.
  - by simplify_eq.
Qed.

Lemma filter_pair b (o : sink) (l : list nat) :
  (filter (λ x : sink * nat, x.1 = Some b) ((o,.) <$> l)).*2 = if decide (o = Some b) then l else [].
Proof.
  induction l as [|j l IH]; csimpl; [by case_decide|]. destruct (decide (o = Some b)) as [Ho|Ho].
  - rewrite filter_cons_True by done. csimpl. by f_equal.
  - by rewrite filter_cons_False.
Qed.

Lemma filter_blank a b (l : list (sink * nat)) :
  (filter (λ x, x.1 = Some b) (prod_map (blank_sink a) id <$> l)).*2 =
  if decide (b = a) then [] else (filter (λ x, x.1 = Some b) l).*2.
Proof.
  induction l as [|[s j] l IH]; csimpl; [by case_decide|]. unfold blank_sink at 1.
  destruct (decide (s = Some a)) as [->|Hs].
  - rewrite filter_cons_False by done. rewrite IH. case_decide as Hab; [done|].
    by rewrite filter_cons_False by (simpl; congruence).
  - destruct (decide (s = Some b)) as [->|Hsb].
    + rewrite !filter_cons_True by done. csimpl. rewrite IH. by rewrite !decide_False by congruence.
    + by rewrite !filter_cons_False.
Qed.

Lemma filter_detach a b (l : list (sink * bytes * Z * nat)) :
  filter (λ x, x.1.1.1 = Some b) (filter (λ x, x.1.1.1 ≠ Some a) l) =
  if decide (b = a) then [] else filter (λ x, x.1.1.1 = Some b) l.
Proof.
  induction l as [|x l IH]; csimpl; [by case_decide|].
  destruct (decide (x.1.1.1 = Some a)) as [Hx|Hx].
  - rewrite (filter_cons_False (λ x, x.1.1.1 ≠ Some a)) by tauto. rewrite IH. case_decide; [done|].
    by rewrite filter_cons_False by congruence.
  - rewrite (filter_cons_True (λ x, x.1.1.1 ≠ Some a)) by done.
    destruct (decide (x.1.1.1 = Some b)) as [Hb|Hb].
    + rewrite !filter_cons_True, IH by done. by rewrite !decide_False by congruence.
    + by rewrite !filter_cons_False.
Qed.

(** How an effect moves a client's numbers. *)
Lemma tag_step_tags acc ans e t t' b :
  tag_step acc ans e t = Some t' →
  tags b t' =
    match e with
    | EfSubmitted o _ n => tags b t ++ (if decide (o = Some b) then seq (acc b) (Z.to_nat n) else [])
    | EfDetached a => if decide (b = a) then [] else tags b t
    | EfUp | EfDown _ _ => []
    | EfReply o _ => if decide (o = Some b) then tail (tags b t) else tags b t
    | _ => tags b t
    end.
Proof.
  unfold tag_step. destruct (fifo_step e (erase t)) as [f|] eqn:Hf; [|done]. simpl.
  unfold tags. destruct e; intros; simplify_eq/=; try done.
  - rewrite filter_app, bind_app, (assoc_L (++)). f_equal. destruct (decide (owner = Some b)) as [->|Ho].
    + rewrite filter_cons_True by done. simpl. by rewrite app_nil_r.
    + by rewrite filter_cons_False.
  - rewrite filter_blank, filter_detach. by case_decide.
  - destruct (t_unsent t) as [|[u j] rest] eqn:Hu; [done|]. simplify_eq/=.
    case_decide; simplify_eq/=. rewrite filter_app, fmap_app, filter_pair, <-(assoc_L (++)). f_equal.
    destruct (decide (owner = Some b)) as [Ho|Ho].
    + by rewrite filter_cons_True.
    + by rewrite filter_cons_False.
  - destruct (t_slots t) as [|[u j] rest] eqn:Hs; [done|]. simpl in Hf. case_decide; [|done].
    case_match; simplify_eq/=. destruct (decide (owner = Some b)) as [->|Ho].
    + by rewrite filter_cons_True.
    + by rewrite filter_cons_False.
Qed.

(** A reply answers the client's oldest command on the channel. *)
Lemma tag_step_reply acc ans a data t t' :
  tag_step acc ans (EfReply (Some a) data) t = Some t' → head (tags a t) = Some (ans a).
Proof.
  unfold tag_step. destruct (fifo_step _ _) as [f|] eqn:Hf; [|done]. simpl in *. unfold tags.
  destruct (t_slots t) as [|[u j] rest]; [done|]. simpl in Hf. case_decide; [|done]. subst u.
  case_bool_decide; [|done]. intros _. rewrite filter_cons_True by done. simpl. by f_equal.
Qed.

(** Which effects the numbering allows. *)
Lemma tag_step_total acc ans e t f :
  fifo_step e (erase t) = Some f →
  (∀ a data, e = EfReply (Some a) data → head (tags a t) = Some (ans a)) →
  is_Some (tag_step acc ans e t).
Proof.
  intros Hf Hr. unfold tag_step. rewrite Hf. destruct e; simpl in *; try done.
  - by destruct (t_unsent t) as [|[u j] rest].
  - destruct (t_slots t) as [|[u j] rest] eqn:Hs; [done|]. simpl in Hf. case_decide; [|done]. subst u.
    destruct owner as [a|]; [|done]. specialize (Hr a data eq_refl). unfold tags in Hr. rewrite Hs in Hr.
    rewrite filter_cons_True in Hr by done. injection Hr as ->. simpl. by rewrite bool_decide_true.
Qed.

(** A client has as many numbers as commands the channel owes it. *)
Lemma length_tags a t : counts_ok (erase t) → Z.of_nat (length (tags a t)) = owed a (erase t).
Proof.
  unfold tags, owed, counts_ok. destruct t as [up un sl]. simpl. intros Hc.
  rewrite length_app, length_fmap, Nat2Z.inj_add, (Z.add_comm (owed_unsent _ _)). f_equal.
  - unfold owed_slots. f_equal. induction sl as [|[s j] sl IH]; [done|]. csimpl.
    destruct (decide (s = Some a)).
    + rewrite !filter_cons_True by done. simpl. by f_equal.
    + by rewrite !filter_cons_False.
  - unfold owed_unsent. induction un as [|[u j] un IH]; [done|]. csimpl. inversion Hc as [|? ? Hu Hun]. subst.
    destruct (decide (u.1.1 = Some a)).
    + rewrite filter_cons_True by done. csimpl. rewrite length_app, length_seq, Nat2Z.inj_add, IH by done.
      simpl in Hu. lia.
    + rewrite filter_cons_False by done. by rewrite IH.
Qed.

(** ** The monitor's counters *)

Definition forwarded (l : list Answer) : nat :=
  sum_list_with (λ x, match x with Forwarded => 1 | Refused _ => 0 end) l.

Lemma forwarded_app l l' : forwarded (l ++ l') = forwarded l + forwarded l'.
Proof. apply sum_list_with_app. Qed.

Lemma forwarded_replicate n : forwarded (replicate n Forwarded) = n.
Proof. unfold forwarded. induction n; simpl; lia. Qed.

Definition counts_as (m : Monitor) (a : nat) (h : History) : Prop :=
  accepted m a = forwarded (h_requests h) ∧ answered m a = forwarded (h_responses h).

Lemma chan_insert cs acc ans hd i j t :
  chan (mkMonitor (<[i := t]> cs) acc ans hd) j =
  if decide (i = j) then t else default tagged0 (cs !! j).
Proof. unfold chan. simpl. destruct (decide (i = j)) as [->|]; [by rewrite lookup_insert_eq|by rewrite lookup_insert_ne]. Qed.

Lemma counter_insert (f : gmap nat nat) a n b :
  default 0 (<[a := n]> f !! b) = if decide (a = b) then n else default 0 (f !! b).
Proof. destruct (decide (a = b)) as [->|]; [by rewrite lookup_insert_eq|by rewrite lookup_insert_ne]. Qed.

Lemma mon_step_counts ev m m' a h :
  mon_step ev m = Some m' → counts_as m a h → counts_as m' a (history_after h (session_events a [ev])).
Proof.
  intros Hstep [H1 H2]. unfold session_events. destruct ev as [i e|b e|fd]; simpl in *.
  - destruct (tag_step _ _ _ _); [|done]. simpl in Hstep.
    destruct e as [|[]| | | | |[]| |]; try (by simplify_eq); case_decide; by simplify_eq.
  - unfold counts_as, accepted, answered in *. destruct (decide (b = a)) as [->|Hb]; simpl.
    + destruct e; simplify_eq/=; try done; rewrite ?counter_insert, ?decide_True by done.
      * done.
      * case_decide; [|done]. simplify_eq/=.
        rewrite counter_insert, decide_True, forwarded_app, forwarded_replicate by done. split; [lia|done].
      * rewrite app_nil_r. done.
      * rewrite forwarded_app. simpl. split; [lia|done].
      * case_decide; [done|]. simpl. rewrite forwarded_app. split; [simpl; lia|done].
      * case_decide; [|done]. simplify_eq/=. rewrite counter_insert, decide_True, forwarded_app by done.
        simpl. split; [done|lia].
      * rewrite forwarded_app. simpl. split; [done|lia].
    + destruct e; simplify_eq/=; try done; rewrite ?counter_insert, ?decide_False by done; try done;
        (case_decide; [|done]); simplify_eq/=; by rewrite counter_insert, decide_False.
  - by simplify_eq.
Qed.

Lemma mon_run_counts evs m m' a h :
  mon_run evs m = Some m' → counts_as m a h → counts_as m' a (history_after h (session_events a evs)).
Proof.
  revert m h. induction evs as [|ev evs IH]; intros m h; cbn [mon_run]; [by intros [= ->]|].
  destruct (mon_step ev m) as [m1|] eqn:Hstep; [|done]. cbn [mbind option_bind]. intros Hrun Hc.
  rewrite (session_events_app a [ev] evs : session_events a (ev :: evs) = _), foldl_app.
  eapply IH; [done|]. by eapply mon_step_counts.
Qed.

(** ** The worker keeps the monitor content *)

Section delivery.
Context {C N : Type} {cond : CoCond C} {laws : CoCondLaws C}.
Context {notifier : FdNotifier N} {nlaws : FdNotifierLaws N} {order : SetOrder} {Endpoint : Type}.
Context (UnpackOne : bytes → nat → RespLimits → RespResult) {uo : UnpackOneLaws UnpackOne}.
Context (PackError : string → bytes) (rules : CommandRules).
Implicit Types (w : Worker C N Endpoint) (s : ClientSession C Endpoint) (ch : BackendChannel C Endpoint)
  (l : list (BackendChannel C Endpoint)) (m : Monitor).

(** The monitor's channels are the worker's, and what a channel holds of a client
    are the client's unanswered commands in order. *)
Record rel m l : Prop := {
  rl_inv : Forall channel_inv l;
  rl_abs : ∀ i ch, l !! i = Some ch → erase (chan m i) = abs ch;
  rl_none : ∀ i, l !! i = None → chan m i = tagged0;
  rl_tags : ∀ i a, tags a (chan m i) = [] ∨
    tags a (chan m i) = seq (answered m a) (accepted m a - answered m a);
  rl_handing : mo_handing m = None
}.

Definition tracked w : Prop := ∃ m, mon_run (trace w) mon0 = Some m ∧ rel m (chans w).

(** A new state of channel [i]; the numbers are another matter. *)
Lemma rel_update m m' l i ch ch' t :
  rel m l → l !! i = Some ch → channel_inv ch' → erase t = abs ch' →
  (∀ j, chan m' j = if decide (i = j) then t else chan m j) → mo_handing m' = None →
  (∀ j a, tags a (chan m' j) = [] ∨ tags a (chan m' j) = seq (answered m' a) (accepted m' a - answered m' a)) →
  rel m' (<[i := ch']> l).
Proof.
  intros [R1 R2 R3 R4 R5] Hi Hc Ht Hch Hh Htags. pose proof (lookup_lt_Some _ _ _ Hi) as Hlt.
  split; [by apply Forall_insert| | |done|done].
  - intros j chj Hj. rewrite Hch. destruct (decide (i = j)) as [<-|Hne].
    + rewrite list_lookup_insert_eq in Hj by done. by simplify_eq.
    + rewrite list_lookup_insert_ne in Hj by done. by apply R2.
  - intros j Hj. rewrite Hch. destruct (decide (i = j)) as [<-|Hne].
    + by rewrite list_lookup_insert_eq in Hj.
    + rewrite list_lookup_insert_ne in Hj by done. by apply R3.
Qed.

(** Effects that neither number a command nor hand a reply to a client. *)
Definition numbers (e : Effect) : Prop :=
  match e with EfSubmitted _ _ _ | EfReply (Some _) _ => True | _ => False end.

Lemma rel_effect m l i ch ch' e :
  rel m l → l !! i = Some ch → channel_inv ch' → ¬ numbers e → fifo_step e (abs ch) = Some (abs ch') →
  ∃ m', mon_step (WChannel i e) m = Some m' ∧ rel m' (<[i := ch']> l).
Proof.
  intros Hrel Hi Hc He Hf. pose proof (rl_abs _ _ Hrel i ch Hi) as Habs. rewrite <-Habs in Hf.
  destruct (tag_step_total (accepted m) (answered m) e (chan m i) _ Hf) as [t Ht].
  { intros a data ->. by destruct He. }
  assert (erase t = abs ch') as Her by (apply tag_step_erase in Ht; congruence).
  pose proof (λ b, tag_step_tags _ _ _ _ _ b Ht) as Htags.
  exists (mkMonitor (<[i := t]> (mo_chans m)) (mo_accepted m) (mo_answered m) (mo_handing m)). split.
  - simpl. rewrite Ht. simpl. by destruct e as [|[]| | | | |[]| |].
  - eapply (rel_update m _ l i ch ch' t Hrel Hi Hc Her); [intros j; apply chan_insert|apply Hrel|].
    intros j a. rewrite chan_insert. destruct (decide (i = j)) as [<-|Hne]; [|apply (rl_tags _ _ Hrel)].
    rewrite Htags. pose proof (rl_tags _ _ Hrel i a) as Hn.
    destruct e as [| | | | | |[]| |]; try done; try (by left). by case_decide; [left|].
Qed.

Lemma rel_sys m l i ch es f :
  rel m l → l !! i = Some ch → Forall is_sys es → fifo_run es (abs ch) = Some f →
  ∃ m', mon_run (WChannel i <$> es) m = Some m' ∧ rel m' l.
Proof.
  intros Hrel Hi Hes. revert m Hrel. induction Hes as [|e es He Hes IH]; intros m Hrel; [eauto|].
  cbn [fifo_run]. destruct (fifo_step e (abs ch)) as [f1|] eqn:Hf; [|done]. cbn [mbind option_bind].
  assert (f1 = abs ch) as -> by (destruct e; try done; simpl in Hf; repeat case_match; by simplify_eq).
  intros Hrun. destruct (rel_effect m l i ch ch e) as (m1 & Hm1 & Hrel1); try done.
  { by eapply Forall_lookup_1; [apply Hrel|]. }
  { destruct e; try done; by intros []. }
  rewrite list_insert_id in Hrel1 by done. destruct (IH m1 Hrel1 Hrun) as (m' & Hm' & Hrel').
  exists m'. split; [|done]. rewrite fmap_cons. cbn [mon_run]. by rewrite Hm1.
Qed.

(** Detaching a session from every channel. *)
Lemma rel_detach a l l1 m :
  rel m (l1 ++ l) →
  ∃ m', mon_run ((λ i, WChannel i (EfDetached a)) <$> seq (length l1) (length l)) m = Some m' ∧
    rel m' (l1 ++ ((λ ch, (BackendChannel_detachOwner a ch).1) <$> l)).
Proof.
  revert l1 m. induction l as [|ch l IH]; intros l1 m Hrel; [eauto|].
  assert (channel_inv ch) as Hc.
  { pose proof (rl_inv _ _ Hrel) as Hall. apply Forall_app in Hall as [_ Hall]. by inversion Hall. }
  destruct (rel_effect m (l1 ++ ch :: l) (length l1) ch (BackendChannel_detachOwner a ch).1 (EfDetached a))
    as (m1 & Hm1 & Hrel1); [done|by apply list_lookup_middle|by apply detach_step|by intros []|by apply detach_step|].
  rewrite insert_app_r_alt, Nat.sub_diag in Hrel1 by done. simpl in Hrel1.
  replace (l1 ++ (BackendChannel_detachOwner a ch).1 :: l)
    with ((l1 ++ [(BackendChannel_detachOwner a ch).1]) ++ l) in Hrel1 by (by rewrite <-(assoc_L (++))).
  destruct (IH _ m1 Hrel1) as (m' & Hm' & Hrel'). exists m'. split.
  - cbn [length seq fmap list_fmap mon_run]. rewrite Hm1. rewrite length_app, Nat.add_1_r in Hm'. exact Hm'.
  - by rewrite <-(assoc_L (++)) in Hrel'.
Qed.

Lemma mon_quiet es m : Forall quiet_event es → mon_run es m = Some m.
Proof. induction 1 as [|ev es Hev _ IH]; [done|]. destruct ev as [|a e|]; [done| |done]. by destruct e. Qed.

(** Nothing that only concerns sessions matters. *)
#[local] Instance tracked_framed : Framed tracked.
Proof.
  split; try done.
  - intros w es Hes (m & Hm & Hrel). exists m. split; [|done]. simpl.
    by rewrite (mon_run_app _ _ _ _ Hm), mon_quiet.
  - intros w a (m & Hm & Hrel). destruct (rel_detach a (chans w) [] m Hrel) as (m' & Hm' & Hrel').
    exists m'. split; [|exact Hrel']. unfold detached. simpl. rewrite (mon_run_app _ _ _ _ Hm).
    rewrite (imap_seq (λ i, (i, EfDetached a))), <-list_fmap_compose. exact Hm'.
Qed.

(** The monitor's counters and the session's. *)
Lemma session_counts w a s m :
  worker_inv UnpackOne rules ∅ w → sessions_ w !! a = Some s → cs_state s ≠ kAborted →
  mon_run (trace w) mon0 = Some m → accepted m a = answered m a + Z.to_nat (pending_replies_ s).
Proof.
  intros Hinv Ha Hst Hm. destruct (inv_session _ _ _ _ _ Hinv Ha) as (Hok & _).
  destruct (mon_run_counts (trace w) mon0 m a history0 Hm) as [-> ->]; [done|].
  fold (session_history a (trace w)). rewrite (eo_order _ _ (sk_exchange _ _ Hok) Hst).
  rewrite !forwarded_app, forwarded_replicate. unfold due_error.
  destruct (reader_at s); try case_decide; simpl; lia.
Qed.

(** Only the session's current channel holds commands of it. *)
Lemma tags_backend w a s m i :
  worker_inv UnpackOne rules ∅ w → sessions_ w !! a = Some s → rel m (chans w) →
  tags a (chan m i) ≠ [] → current_backend_ s = Some i.
Proof.
  intros Hinv Ha Hrel Hne. destruct (inv_session _ _ _ _ _ Hinv Ha) as (_ & _ & _ & [_ L2]).
  destruct (chans w !! i) as [ch|] eqn:Hi; [|by rewrite (rl_none _ _ Hrel i Hi) in Hne].
  apply (L2 i (owed a (abs ch))); [by apply debts_lookup|]. rewrite <-(rl_abs _ _ Hrel i ch Hi).
  rewrite <-length_tags; [by destruct (tags a (chan m i))|].
  rewrite (rl_abs _ _ Hrel i ch Hi). apply channel_counts. by eapply Forall_lookup_1; [apply Hinv|].
Qed.

(** A session without numbers has no reply to wait for. *)
Lemma tags_none w a s m :
  worker_inv UnpackOne rules ∅ w → sessions_ w !! a = Some s → rel m (chans w) →
  (∀ i, tags a (chan m i) = []) → pending_replies_ s = 0%Z.
Proof.
  intros Hinv Ha Hrel Hn. destruct (inv_session _ _ _ _ _ Hinv Ha) as (_ & _ & _ & [L1 _]). rewrite L1.
  apply total_zero; [by apply debts_nonneg, Hinv|]. apply Forall_fmap, Forall_lookup. intros i ch Hi. simpl.
  rewrite <-(rl_abs _ _ Hrel i ch Hi), <-length_tags, Hn; [done|].
  rewrite (rl_abs _ _ Hrel i ch Hi). apply channel_counts. by eapply Forall_lookup_1; [apply Hinv|].
Qed.

(** A batch is accepted: its commands get the next numbers. *)
Lemma rel_submitted w a s m i ch ch' data n :
  worker_inv UnpackOne rules ∅ w → sessions_ w !! a = Some s → cs_state s = kOpen →
  mon_run (trace w) mon0 = Some m → rel m (chans w) → chans w !! i = Some ch → channel_inv ch' →
  fifo_step (EfSubmitted (Some a) data n) (abs ch) = Some (abs ch') →
  (∀ j, current_backend_ s = Some j → j = i) →
  ∃ m', mon_run [WChannel i (EfSubmitted (Some a) data n); WSession a (SeAccepted data n)] m = Some m' ∧
    rel m' (<[i := ch']> (chans w)).
Proof.
  intros Hinv Ha Hst Hm Hrel Hi Hc Hf Hcur.
  pose proof (session_counts w a s m Hinv Ha ltac:(by rewrite Hst) Hm) as Hcnt.
  assert (∀ j, j ≠ i → tags a (chan m j) = []) as Hother.
  { intros j Hj. destruct (decide (tags a (chan m j) = [])) as [|Hne]; [done|].
    by apply (tags_backend w a s m j Hinv Ha Hrel), Hcur in Hne. }
  pose proof Hf as Hf'. rewrite <-(rl_abs _ _ Hrel i ch Hi) in Hf'.
  destruct (tag_step_total (accepted m) (answered m) _ (chan m i) _ Hf') as [t Ht]; [done|].
  assert (erase t = abs ch') as Her by (apply tag_step_erase in Ht; congruence).
  pose proof (λ b, tag_step_tags _ _ _ _ _ b Ht) as Htags.
  set (m' := mkMonitor (<[i := t]> (mo_chans m)) (<[a := accepted m a + Z.to_nat n]> (mo_accepted m))
               (mo_answered m) None).
  assert (∀ j, chan m' j = if decide (i = j) then t else chan m j) as Hch by (intros j; apply chan_insert).
  assert (∀ b, accepted m' b = if decide (a = b) then accepted m a + Z.to_nat n else accepted m b) as Hacc
    by (intros b; apply counter_insert).
  exists m'. split.
  { simpl. rewrite Ht. simpl. rewrite decide_True by apply Hrel. simpl. by rewrite decide_True. }
  eapply (rel_update m m' _ i ch ch' t Hrel Hi Hc Her Hch); [done|].
  intros j b. rewrite Hch, Hacc. change (answered m' b) with (answered m b).
  destruct (decide (a = b)) as [<-|Hb].
  - destruct (decide (i = j)) as [<-|Hne]; [|left; by apply Hother]. right. rewrite Htags, decide_True by done.
    assert (tags a (chan m i) = seq (answered m a) (accepted m a - answered m a)) as ->.
    { destruct (rl_tags _ _ Hrel i a) as [Hn|]; [|done]. rewrite Hn.
      assert (pending_replies_ s = 0%Z) as Hp.
      { apply (tags_none w a s m Hinv Ha Hrel). intros j. destruct (decide (j = i)) as [->|]; auto. }
      rewrite Hp in Hcnt. by replace (accepted m a - answered m a) with 0 by lia. }
    replace (accepted m a) with (answered m a + (accepted m a - answered m a)) at 2 by lia.
    rewrite <-seq_app. f_equal. lia.
  - destruct (decide (i = j)) as [<-|Hne]; [|apply (rl_tags _ _ Hrel)].
    rewrite Htags, decide_False, app_nil_r by congruence. apply (rl_tags _ _ Hrel).
Qed.

(** The commands after a batch was refused. *)
Lemma preserves_refused a data :
  preserves tracked (emit [WSession a (SeDropped data)];; abort a;; mret (M := ST (Worker C N Endpoint)) false).
Proof.
  apply preserves_bind; [apply (preserves_emit tracked); by repeat constructor|]. intros _.
  apply preserves_bind; [apply (preserves_abort tracked)|intros; apply preserves_ret].
Qed.

Lemma tracked_submit w a s p bs data n b w2 :
  worker_inv UnpackOne rules ∅ w → tracked w → sessions_ w !! a = Some s → cs_state s = kOpen →
  submitBatch a data (u32 n) (upd_sessions (<[a := with_input p bs s]> (sessions_ w)) w) = Some (b, w2) →
  tracked w2.
Proof.
  intros Hinv Htr Ha Hst. unfold submitBatch. case_decide as Hn.
  { intros Hrun. refine ((_ : preserves tracked _) _ _ _ Hrun _); [|by apply fr_sessions].
    apply preserves_bind; [apply (preserves_emit tracked); by repeat constructor|intros; apply preserves_ret]. }
  intros Hrun. apply ST_bind_Some in Hrun as (s1 & w1 & Hs1 & Hrun).
  apply ST_bind_Some in Hs1 as (w3 & w4 & [= <- <-] & [Hs1 ->]%st_opt_Some).
  simpl in Hs1. rewrite lookup_insert_eq in Hs1. injection Hs1 as <-.
  apply ST_bind_Some in Hrun as (w3 & w4 & [= <- <-] & Hrun). revert Hrun. simpl.
  pose proof (u32_range n) as Hrange. generalize dependent (u32 n). clear n. intros n Hn Hrange.
  destruct Htr as (m & Hm & Hrel). unfold BackendPool_submit.
  destruct (select (backend_pool_ w) (current_backend_ s)) as [i|] eqn:Hsel.
  2:{ intros Hrun. apply (preserves_refused a data _ _ _ Hrun). exists m. split; [|done]. simpl. by rewrite app_nil_r. }
  destruct (channels_ (backend_pool_ w) !! i) as [ch|] eqn:Hi.
  2:{ intros Hrun. apply (preserves_refused a data _ _ _ Hrun). exists m. split; [|done]. simpl. by rewrite app_nil_r. }
  assert (channel_inv ch) as Hc by (by eapply Forall_lookup_1; [apply Hinv|]).
  pose proof (submit_ok ch (Some a) data n Hc ltac:(lia)) as Hok. unfold BackendChannel_submit in *.
  case_decide as Hrej.
  - intros Hrun. apply (preserves_refused a data _ _ _ Hrun).
    destruct (rel_effect m _ i ch ch (EfRejected (Some a) n) Hrel Hi Hc) as (m' & Hm' & Hrel'); [by intros []| |].
    { destruct Hok as [_ Hf]. by rewrite <-fifo_run_single. }
    exists m'. split; [|exact Hrel']. simpl. rewrite (mon_run_app _ _ _ _ Hm). cbn [mon_run]. by rewrite Hm'.
  - destruct Hok as [Hc' Hf]. cbn [fst snd] in Hc', Hf. rewrite fifo_run_single in Hf. intros [= _ <-].
    destruct (rel_submitted w a s m i ch _ data n Hinv Ha Hst Hm Hrel Hi Hc' Hf) as (m' & Hm' & Hrel').
    { intros j Hj. rewrite Hj in Hsel. simpl in Hsel. by destruct (from_option _ _ _); simplify_eq. }
    exists m'. split; [|exact Hrel']. simpl trace. rewrite <-(assoc_L (++)), (mon_run_app _ _ _ _ Hm). exact Hm'.
Qed.

(** *** Channels *)

Lemma deliver_run i es w :
  Forall no_callback es → deliver i es w = Some (tt, upd_trace (trace w ++ (WChannel i <$> es)) w).
Proof.
  intros Hes. destruct (wp_run (deliver i es) (λ _ w', w' = upd_trace (trace w ++ (WChannel i <$> es)) w) w)
    as ([] & w' & Hrun & ->); [by apply wp_deliver_quiet|done].
Qed.

Lemma deliver_app i es es' w : deliver i (es ++ es') w = (deliver i es;; deliver i es') w.
Proof.
  revert w. induction es as [|e es IH]; intros w; [done|]. cbn [app deliver].
  unfold mbind, ST_bind. simpl. destruct (match e with _ => _ end _) as [[u w1]|]; [|done].
  by rewrite IH.
Qed.

Lemma rel_replace m l i ch ch' :
  rel m l → l !! i = Some ch → channel_inv ch' → abs ch' = abs ch → rel m (<[i := ch']> l).
Proof.
  intros Hrel Hi Hc Habs. eapply (rel_update m m l i ch ch' (chan m i) Hrel Hi Hc).
  - rewrite Habs. by apply Hrel.
  - intros j. by destruct (decide (i = j)) as [<-|].
  - apply Hrel.
  - apply Hrel.
Qed.

(** A reply reaches its client. *)
Lemma rel_replied w m i ch ch' a data :
  worker_inv UnpackOne rules ∅ w → mon_run (trace w) mon0 = Some m → rel m (chans w) →
  chans w !! i = Some ch → channel_inv ch' →
  fifo_step (EfReply (Some a) data) (abs ch) = Some (abs ch') →
  ∃ m', mon_run [WChannel i (EfReply (Some a) data); WSession a (SeReply data)] m = Some m' ∧
    rel m' (<[i := ch']> (chans w)).
Proof.
  intros Hinv Hm Hrel Hi Hc Hf. pose proof (fifo_step_owed a _ _ _ Hf) as Ho. simpl in Ho.
  rewrite decide_True in Ho by done. pose proof (owed_nonneg a _ (channel_counts _ Hc)) as Hnn.
  destruct (owner_alive _ _ w i ch a Hinv Hi) as (s & Ha & Hst); [lia|].
  pose proof Hf as Hf'. rewrite <-(rl_abs _ _ Hrel i ch Hi) in Hf'.
  assert (tags a (chan m i) ≠ []) as Hne.
  { intros Hz. apply (f_equal (Z.of_nat ∘ length)) in Hz. simpl in Hz.
    rewrite length_tags, (rl_abs _ _ Hrel i ch Hi) in Hz; [lia|].
    rewrite (rl_abs _ _ Hrel i ch Hi). apply channel_counts. by eapply Forall_lookup_1; [apply Hinv|]. }
  assert (∀ j, j ≠ i → tags a (chan m j) = []) as Hother.
  { intros j Hj. destruct (decide (tags a (chan m j) = [])) as [|Hnj]; [done|].
    apply (tags_backend w a s m _ Hinv Ha Hrel) in Hnj, Hne. congruence. }
  assert (tags a (chan m i) = seq (answered m a) (accepted m a - answered m a)) as Hseq.
  { by destruct (rl_tags _ _ Hrel i a). }
  destruct (accepted m a - answered m a) as [|k] eqn:Hk; [by rewrite Hseq in Hne|].
  destruct (tag_step_total (accepted m) (answered m) _ (chan m i) _ Hf') as [t Ht].
  { intros a' data' [= <- _]. by rewrite Hseq. }
  assert (erase t = abs ch') as Her by (apply tag_step_erase in Ht; congruence).
  pose proof (λ b, tag_step_tags _ _ _ _ _ b Ht) as Htags.
  set (m' := mkMonitor (<[i := t]> (mo_chans m)) (mo_accepted m)
               (<[a := S (answered m a)]> (mo_answered m)) None).
  assert (∀ j, chan m' j = if decide (i = j) then t else chan m j) as Hch by (intros j; apply chan_insert).
  assert (∀ b, answered m' b = if decide (a = b) then S (answered m a) else answered m b) as Hans
    by (intros b; apply counter_insert).
  exists m'. split.
  { cbn [mon_run mon_step]. rewrite Ht. cbn [mbind option_bind]. rewrite decide_True by apply Hrel.
    cbn [mbind option_bind mo_handing]. by rewrite decide_True. }
  eapply (rel_update m m' _ i ch ch' t Hrel Hi Hc Her Hch); [done|].
  intros j b. rewrite Hch, Hans. change (accepted m' b) with (accepted m b).
  destruct (decide (a = b)) as [<-|Hb].
  - destruct (decide (i = j)) as [<-|Hnj]; [|left; by apply Hother]. right.
    rewrite Htags, decide_True, Hseq by done. simpl. f_equal. lia.
  - destruct (decide (i = j)) as [<-|Hnj]; [|apply (rl_tags _ _ Hrel)].
    rewrite Htags, decide_False by congruence. apply (rl_tags _ _ Hrel).
Qed.

(** The channel's connection is down. *)
Definition down (i : nat) w : Prop := ∃ ch, chans w !! i = Some ch ∧ isHealthy ch = false.

Lemma fifo_sys_down es f : Forall is_sys es → up f = false → fifo_run es f = Some f.
Proof.
  intros Hes Hu. induction Hes as [|e es He _ IH]; [done|]. destruct e as [call| | | | | | | |]; try done.
  simpl. destruct call; [rewrite Hu|]; done.
Qed.

#[local] Instance tracked_down_framed i : Framed (λ w, tracked w ∧ down i w).
Proof.
  split; try done.
  - intros w es Hes [Ht Hd]. split; [by apply fr_events|done].
  - intros w a [Ht (ch & Hi & Hh)]. split; [by apply fr_detach|].
    exists (BackendChannel_detachOwner a ch).1. split.
    + unfold chans, detached. simpl. rewrite list_lookup_fmap. unfold chans in Hi. by rewrite Hi.
    + unfold BackendChannel_detachOwner. by destruct (erase_owner _ _ _).
Qed.

(** A connection fails: its owners are told. *)
Lemma tracked_failure w i ch ch' es st owners es' u w' :
  tracked w → chans w !! i = Some ch → channel_inv ch' →
  Forall is_sys es → Forall is_sys es' → fifo_run (es ++ EfDown st owners :: es') (abs ch) = Some (abs ch') →
  deliver i (es ++ EfDown st owners :: es') (with_channel i ch' w) = Some (u, w') → tracked w'.
Proof.
  intros (m & Hm & Hrel) Hi Hc He He' Hf Hrun.
  destruct (fifo_run_split _ _ _ _ Hf) as (f & Hes & Hf'). pose proof (fifo_run_sys _ _ _ He Hes) as ->.
  cbn [fifo_run] in Hf'. destruct (fifo_step (EfDown st owners) (abs ch)) as [f|] eqn:Hdown; [|done].
  pose proof (fifo_run_sys _ _ _ He' Hf') as <-.
  destruct (rel_sys m _ i ch es _ Hrel Hi He Hes) as (m1 & Hm1 & Hrel1).
  destruct (rel_effect m1 _ i ch ch' (EfDown st owners) Hrel1 Hi Hc) as (m2 & Hm2 & Hrel2); [by intros []|done|].
  rewrite deliver_app in Hrun. apply ST_bind_Some in Hrun as (u1 & w1 & Hd & Hrun).
  rewrite deliver_run in Hd by (by apply is_sys_no_callback). injection Hd as _ <-.
  apply ST_bind_Some in Hrun as (u2 & w2 & Hemit & Hrun). injection Hemit as _ <-.
  apply ST_bind_Some in Hrun as (u3 & w3 & Hfail & Hrun).
  assert (tracked w3 ∧ down i w3) as [Ht3 (ch3 & Hi3 & Hh3)].
  { refine ((_ : preserves (λ w, tracked w ∧ down i w) _) _ _ _ Hfail _).
    - apply preserves_bind; [apply (preserves_failures (λ w, tracked w ∧ down i w))|intros; apply preserves_ret].
    - split.
      + exists m2. split; [|exact Hrel2]. simpl. rewrite <-(assoc_L (++)), (mon_run_app _ _ _ _ Hm).
        rewrite (mon_run_app _ _ _ _ Hm1). cbn [mon_run]. by rewrite Hm2.
      + exists ch'. split; [apply list_lookup_insert_eq; by eapply lookup_lt_Some|].
        simpl in Hdown. case_decide; simplify_eq. by injection Hdown. }
  rewrite deliver_run in Hrun by (by apply is_sys_no_callback). injection Hrun as _ <-.
  destruct Ht3 as (m3 & Hm3 & Hrel3).
  destruct (rel_sys m3 _ i ch3 es' (abs ch3) Hrel3 Hi3 He') as (m4 & Hm4 & Hrel4); [by apply fifo_sys_down|].
  exists m4. split; [|exact Hrel4]. simpl. by rewrite (mon_run_app _ _ _ _ Hm3).
Qed.

Lemma tracked_effect w i ch ch' e u w' :
  tracked w → chans w !! i = Some ch → channel_inv ch' → ¬ numbers e → no_callback e →
  fifo_run [e] (abs ch) = Some (abs ch') →
  deliver i [e] (with_channel i ch' w) = Some (u, w') → tracked w'.
Proof.
  intros (m & Hm & Hrel) Hi Hc He Hcb Hf Hrun. rewrite fifo_run_single in Hf.
  rewrite deliver_run in Hrun by (by constructor). injection Hrun as _ <-.
  destruct (rel_effect m _ i ch ch' e Hrel Hi Hc He Hf) as (m' & Hm' & Hrel'). exists m'. split; [|exact Hrel'].
  simpl trace. rewrite (mon_run_app _ _ _ _ Hm). cbn [fmap list_fmap mon_run]. by rewrite Hm'.
Qed.

Lemma tracked_channel i o w u w' :
  worker_inv UnpackOne rules ∅ w → tracked w → resumes o →
  channel_event UnpackOne i o w = Some (u, w') → tracked w'.
Proof.
  intros Hinv Htr Ho Hrun. apply ST_bind_Some in Hrun as (w1 & w2 & [= <- <-] & Hrun).
  apply ST_bind_Some in Hrun as (ch & w1 & [Hi ->]%st_opt_Some & Hrun).
  apply ST_bind_Some in Hrun as ([ch' es] & w2 & [Hstep ->]%st_opt_Some & Hrun).
  apply ST_bind_Some in Hrun as (u1 & w3 & Hput & Hrun). injection Hput as _ <-. fold (with_channel i ch' w) in Hrun.
  assert (channel_inv ch) as Hc by (by eapply Forall_lookup_1; [apply Hinv|]).
  destruct (channel_step_ok UnpackOne o ch (ch', es)) as [Hc' Hf]; [by destruct o|done|done|]. cbn [fst snd] in *.
  assert (shape es) as Hsh by (by apply (step_shape UnpackOne o ch (ch', es))). clear Hstep Ho.
  destruct Hsh as [es Hes| |so data n|[a|] data|es st owners es' H1 H2].
  - destruct Htr as (m & Hm & Hrel). rewrite deliver_run in Hrun by (by apply is_sys_no_callback).
    injection Hrun as _ <-. destruct (rel_sys m _ i ch es _ Hrel Hi Hes Hf) as (m1 & Hm1 & Hrel1).
    exists m1. split; [simpl; by rewrite (mon_run_app _ _ _ _ Hm)|].
    apply (rel_replace m1 _ i ch ch' Hrel1 Hi Hc'). by apply fifo_run_sys in Hf.
  - apply (tracked_effect w i ch ch' EfUp u w' Htr Hi Hc'); [by intros []|done..].
  - apply (tracked_effect w i ch ch' (EfSent so data n) u w' Htr Hi Hc'); [by intros []|done..].
  - destruct Htr as (m & Hm & Hrel). rewrite fifo_run_single in Hf.
    destruct (rel_replied w m i ch ch' a data Hinv Hm Hrel Hi Hc' Hf) as (m' & Hm' & Hrel').
    apply ST_bind_Some in Hrun as (u2 & w2 & Hemit & Hrun). injection Hemit as _ <-.
    apply ST_bind_Some in Hrun as (u3 & w3 & Hcall & Hrun). injection Hrun as _ <-.
    apply ST_bind_Some in Hcall as (s & w4 & Hs & Happ).
    apply ST_bind_Some in Hs as (w5 & w6 & [= <- <-] & [Hs ->]%st_opt_Some). injection Happ as _ <-.
    exists m'. split; [|exact Hrel']. simpl trace. rewrite <-(assoc_L (++)), (mon_run_app _ _ _ _ Hm). exact Hm'.
  - apply (tracked_effect w i ch ch' (EfReply None data) u w' Htr Hi Hc'); [by intros []|done..].
  - eapply (tracked_failure w i ch ch' es st owners es'); eauto using idle_sys.
Qed.

(** *** Opening sessions *)

Lemma tracked_open fds addrs w u w' :
  tracked w →
  (∀ a m, sessions_ w !! a = None → rel m (chans w) → ∀ i, tags a (chan m i) = []) →
  open_sessions fds addrs w = Some (u, w') → tracked w'.
Proof.
  revert addrs w. induction fds as [|fd fds IH]; intros [|a addrs] w Htr Hgone; try done;
    [by intros [= _ <-]..|]. intros Hrun.
  apply ST_bind_Some in Hrun as (w1 & w2 & [= <- <-] & Hrun).
  apply ST_bind_Some in Hrun as (u1 & w1 & Hassert & Hrun). unfold st_assert in Hassert.
  case_decide as Hfresh; [|done]. injection Hassert as _ <-.
  apply ST_bind_Some in Hrun as (u2 & w2 & Happ & Hrun). injection Happ as _ <-.
  eapply IH; [| |exact Hrun].
  - destruct Htr as (m & Hm & Hrel).
    exists (mkMonitor (mo_chans m) (<[a := 0]> (mo_accepted m)) (<[a := 0]> (mo_answered m)) (mo_handing m)).
    split; [simpl; by rewrite (mon_run_app _ _ _ _ Hm)|]. pose proof (Hgone a m Hfresh Hrel) as Hz.
    destruct Hrel as [R1 R2 R3 R4 R5]. split; try done. intros i b. unfold accepted, answered. simpl.
    rewrite !counter_insert. destruct (decide (a = b)) as [<-|]; [left; by apply Hz|apply R4].
  - simpl. intros b m [Hb Hne]%lookup_insert_None Hrel. by apply Hgone.
Qed.

Lemma gone_tags w a m :
  worker_inv UnpackOne rules ∅ w → sessions_ w !! a = None → rel m (chans w) → ∀ i, tags a (chan m i) = [].
Proof.
  intros Hinv Ha Hrel i. destruct (chans w !! i) as [ch|] eqn:Hi; [|by rewrite (rl_none _ _ Hrel i Hi)].
  pose proof (wi_gone _ _ _ _ Hinv a Ha) as Hz. eapply Forall_lookup_1 in Hz; [|by apply debts_lookup].
  apply length_zero_iff_nil, Nat2Z.inj. rewrite length_tags, (rl_abs _ _ Hrel i ch Hi); [done|].
  rewrite (rl_abs _ _ Hrel i ch Hi). apply channel_counts. by eapply Forall_lookup_1; [apply Hinv|].
Qed.

Lemma tracked_step o w u w' :
  worker_inv UnpackOne rules ∅ w → worker_enabled o w → tracked w →
  worker_step UnpackOne PackError rules o w = Some (u, w') → tracked w'.
Proof.
  intros Hinv Hen Htr Hstep. destruct (special_em o) as [Ho|Ho].
  2:{ by apply (preserves_step UnpackOne PackError rules tracked o Ho w u w'). }
  destruct o; try (by destruct Ho); cbn [worker_step] in Hstep.
  - eapply (preserves_reader UnpackOne PackError rules tracked); [done..|].
    intros s p bs data n b w2 Hs Hopen. by apply (tracked_submit w a s p bs data n b w2).
  - destruct Hen as [Hres _]. eapply tracked_channel; [done..| |done]. by destruct o.
  - injection Hstep as _ <-. destruct Htr as (m & Hm & Hrel). exists m. split; [|done]. simpl.
    by rewrite (mon_run_app _ _ _ _ Hm).
  - by injection Hstep as _ <-.
  - unfold reap_swap in Hstep. apply ST_bind_Some in Hstep as (w1 & w2 & [= <- <-] & Hstep).
    apply ST_bind_Some in Hstep as (u1 & w1 & Hput & Hstep). injection Hput as _ <-.
    eapply (tracked_open _ _ _ _ _); [| |exact Hstep]; [exact Htr|]. intros a' m Ha. by apply (gone_tags w a' m Hinv Ha).
Qed.

Lemma reachable_tracked config w :
  config_fits config → worker_reachable UnpackOne PackError rules config w → tracked w.
Proof.
  intros Hc. induction 1 as [|w o w' Hr IH Hen Hstep].
  - exists mon0. split; [done|]. split; try done.
    + destruct Hc as [Hreq Hpipe]. apply (worker_new_inv UnpackOne rules config Hreq Hpipe).
    + intros i ch Hi. apply list_lookup_fmap_Some in Hi as (ch0 & -> & Hi).
      by apply lookup_replicate_1 in Hi as [-> _].
    + intros i a. by left.
  - eapply tracked_step; [|done..]. by eapply worker_inv_reachable.
Qed.

(** C2: Every reply reaches the client that asked, for the command it answers.
    The monitor accepts every run of a worker: a client's commands are numbered in
    the order of acceptance; the bytes accepted from it are exactly those given to
    one channel, which writes them in that order; the reply Redis gives
    to a command on its connection is handed, with its bytes unchanged, to the
    client that sent the command if it is still there; and at that moment that
    command is the client's oldest one without an answer.  The monitor's counts
    are those of the client's history. *)
Theorem replies_answer_their_commands config w :
  config_fits config → worker_reachable UnpackOne PackError rules config w →
  ∃ m, mon_run (trace w) mon0 = Some m ∧ mo_handing m = None ∧
    ∀ a, accepted m a = forwarded (h_requests (session_history a (trace w))) ∧
         answered m a = forwarded (h_responses (session_history a (trace w))).
Proof.
  intros Hc Hr. destruct (reachable_tracked config w Hc Hr) as (m & Hm & Hrel).
  exists m. split_and!; [done|apply Hrel|]. intros a. by apply (mon_run_counts _ _ _ a history0) in Hm.
Qed.
End delivery.
