(* ===== verification/DataFlow.v ===== *)
(** * Where the bytes are

    What a worker reports about its sessions and channels tells where every byte
    is.  [flow_step] replays one event on byte strings only: the input and output of
    each client, the input and the queue of each channel.  The replay of a worker's
    trace never gets stuck, and ends with exactly the strings of the worker's state;
    [DataPath] takes it from there to the reference-counted buffers. *)
From S2P Require Import Prelude Status CommandRules RespParser CoSocket CoroutineSignal Config.
From S2P Require Import BackendChannel ChannelInv ChannelProps BackendPool ClientSession.
From S2P Require Import SessionInv Worker WorkerInv WorkerSteps WorkerFrame WorkerProps Delivery.

Create HintDb keeps discriminated.

(** ** The replay *)

(** [client_in_] and [client_out_] of a session; [redis_in_] and [write_queue_] of a
    channel. *)
Abbreviation session_bytes := (bytes * list bytes)%type.
Abbreviation channel_bytes := (bytes * list (sink * bytes))%type.

(** [fl_hand]: a reply on its way from a channel to a session. *)
Record Flow := mkFlow {
  fl_sessions : gmap nat session_bytes;
  fl_channels : list channel_bytes;
  fl_hand : option bytes
}.

(** [data] is taken from the front. *)
Definition take_front (data q : bytes) : option bytes :=
  if decide (take (length data) q = data) then Some (drop (length data) q) else None.

(** Events that concern the bytes of one session only. *)
Definition session_flow (e : SessionEvent) (v : session_bytes) : option session_bytes :=
  match e with
  | SeIn data => Some (v.1 ++ data, v.2)
  | SeDropped data | SeRefused data _ => q ← take_front data v.1; Some (q, v.2)
  | SeError _ data => Some (v.1, v.2 ++ [data])
  | SeWrite data => if decide (concat (take 64 v.2) = data) then Some (v.1, drop 64 v.2) else None
  | SeAborted => Some (v.1, [])
  | SeAccepted _ _ | SeDrain _ | SeWritten | SeSys _ | SeFinished => Some v
  | SeOpened _ | SeReply _ | SeDestroyed => None
  end.

(** Effects that concern the bytes of one channel only. *)
Definition channel_flow (e : Effect) (v : channel_bytes) : option channel_bytes :=
  match e with
  | EfDetached a => Some (v.1, filter (λ x, x.1 ≠ Some a) v.2)
  | EfSent o data _ =>
      match v.2 with
      | x :: rest => if decide (x = (o, data)) then Some (v.1, rest) else None
      | [] => None
      end
  | EfReply _ data | EfBuf (BufExtra data) => q ← take_front data v.1; Some (q, v.2)
  | EfDown _ _ => Some (v.1, [])
  | EfBuf (BufIn data) => Some (v.1 ++ data, v.2)
  | EfBuf BufCleared => Some ([], v.2)
  | EfSys _ | EfRejected _ _ | EfUp | EfBuf BufWritten => Some v
  | EfSubmitted _ _ _ => None
  end.

Definition on_session (a : nat) (f : session_bytes → option session_bytes) (fl : Flow) : option Flow :=
  v ← fl_sessions fl !! a; v ← f v;
  Some (mkFlow (<[a := v]> (fl_sessions fl)) (fl_channels fl) (fl_hand fl)).
Definition on_channel (i : nat) (f : channel_bytes → option channel_bytes) (fl : Flow) : option Flow :=
  v ← fl_channels fl !! i; v ← f v;
  Some (mkFlow (fl_sessions fl) (<[i := v]> (fl_channels fl)) (fl_hand fl)).
Definition set_hand (h : option bytes) (fl : Flow) : Flow :=
  mkFlow (fl_sessions fl) (fl_channels fl) h.

Definition flow_step (ev : Event) (fl : Flow) : option Flow :=
  match ev with
  | WDispatched _ => Some fl
  | WSession a (SeOpened _) =>
      if decide (fl_sessions fl !! a = None)
      then Some (mkFlow (<[a := ([], [])]> (fl_sessions fl)) (fl_channels fl) (fl_hand fl)) else None
  | WSession a (SeReply data) =>
      if decide (fl_hand fl = Some data)
      then on_session a (λ v, Some (v.1, v.2 ++ [data])) (set_hand None fl) else None
  | WSession a SeDestroyed =>
      _ ← fl_sessions fl !! a;
      Some (mkFlow (delete a (fl_sessions fl)) (fl_channels fl) (fl_hand fl))
  | WSession a e => on_session a (session_flow e) fl
  | WChannel i (EfSubmitted (Some a) data n) =>
      fl ← on_session a (λ v, q ← take_front data v.1; Some (q, v.2)) fl;
      on_channel i (λ v, Some (v.1, v.2 ++ [(Some a, data)])) fl
  | WChannel i (EfReply (Some a) data) =>
      if decide (fl_hand fl = None)
      then on_channel i (channel_flow (EfReply (Some a) data)) (set_hand (Some data) fl) else None
  | WChannel i e => on_channel i (channel_flow e) fl
  end.

Fixpoint flow_run (evs : list Event) (fl : Flow) : option Flow :=
  match evs with [] => Some fl | ev :: evs => fl ← flow_step ev fl; flow_run evs fl end.

Lemma flow_run_app evs evs' fl fl' :
  flow_run evs fl = Some fl' → flow_run (evs ++ evs') fl = flow_run evs' fl'.
Proof.
  revert fl. induction evs as [|ev evs IH]; intros fl; simpl; [by intros [= ->]|].
  destruct (flow_step ev fl); simpl; [apply IH|done].
Qed.

Lemma take_front_app data q : take_front data (data ++ q) = Some q.
Proof. unfold take_front. by rewrite take_app_length, decide_True, drop_app_length. Qed.

Lemma take_front_take n q : take_front (take n q) q = Some (drop n q).
Proof. rewrite <-(take_drop n q) at 2. apply take_front_app. Qed.

(** Several events of one session, or of one channel. *)
Fixpoint session_flows (es : list SessionEvent) (v : session_bytes) : option session_bytes :=
  match es with [] => Some v | e :: es => v ← session_flow e v; session_flows es v end.
Fixpoint channel_flows (es : list Effect) (v : channel_bytes) : option channel_bytes :=
  match es with [] => Some v | e :: es => v ← channel_flow e v; channel_flows es v end.

Lemma session_flows_app es es' v v' :
  session_flows es v = Some v' → session_flows (es ++ es') v = session_flows es' v'.
Proof.
  revert v. induction es as [|e es IH]; intros v; simpl; [by intros [= ->]|].
  destruct (session_flow e v); simpl; [apply IH|done].
Qed.

Lemma channel_flows_app es es' v v' :
  channel_flows es v = Some v' → channel_flows (es ++ es') v = channel_flows es' v'.
Proof.
  revert v. induction es as [|e es IH]; intros v; simpl; [by intros [= ->]|].
  destruct (channel_flow e v); simpl; [apply IH|done].
Qed.

Lemma session_flows_sys calls v : session_flows (SeSys <$> calls) v = Some v.
Proof. by induction calls. Qed.

Lemma channel_flows_idle es v : Forall is_idle es → channel_flows es v = Some v.
Proof. induction 1 as [|e es He _ IH]; [done|]. by destruct e as [| | | | | | | |[]]. Qed.

Lemma channel_flows_sys calls v : channel_flows (EfSys <$> calls) v = Some v.
Proof. apply channel_flows_idle, idle_calls. Qed.

Lemma flow_run_session a es fl v v' :
  fl_sessions fl !! a = Some v → session_flows es v = Some v' →
  flow_run (WSession a <$> es) fl =
    Some (mkFlow (<[a := v']> (fl_sessions fl)) (fl_channels fl) (fl_hand fl)).
Proof.
  revert fl v. induction es as [|e es IH]; intros fl v Ha; cbn [session_flows].
  { intros [= <-]. simpl. rewrite insert_id by done. by destruct fl. }
  destruct (session_flow e v) as [v1|] eqn:He; [|done]. intros Hes.
  cbn [fmap list_fmap flow_run].
  assert (flow_step (WSession a e) fl =
          Some (mkFlow (<[a := v1]> (fl_sessions fl)) (fl_channels fl) (fl_hand fl))) as ->.
  { transitivity (on_session a (session_flow e) fl); [by destruct e|].
    unfold on_session. rewrite Ha. simpl. by rewrite He. }
  cbn [mbind option_bind]. erewrite IH; [|apply lookup_insert_eq|done]. simpl. by rewrite insert_insert_eq.
Qed.

(** Effects that hand nothing to a session. *)
Definition no_hand (e : Effect) : Prop := match e with EfReply (Some _) _ => False | _ => True end.

Lemma sys_no_hand es : Forall is_sys es → Forall no_hand es.
Proof. intros Hes. eapply Forall_impl; [exact Hes|]. by intros []. Qed.

Lemma flow_run_channel i es fl v v' :
  Forall no_hand es → fl_channels fl !! i = Some v → channel_flows es v = Some v' →
  flow_run (WChannel i <$> es) fl =
    Some (mkFlow (fl_sessions fl) (<[i := v']> (fl_channels fl)) (fl_hand fl)).
Proof.
  intros Hes. revert fl v. induction Hes as [|e es Hcb Hes IH]; intros fl v Hi; cbn [channel_flows].
  { intros [= <-]. simpl. rewrite list_insert_id by done. by destruct fl. }
  destruct (channel_flow e v) as [v1|] eqn:He; [|done]. intros Hrun.
  cbn [fmap list_fmap flow_run].
  assert (flow_step (WChannel i e) fl =
          Some (mkFlow (fl_sessions fl) (<[i := v1]> (fl_channels fl)) (fl_hand fl))) as ->.
  { transitivity (on_channel i (channel_flow e) fl); [by destruct e as [| | | | | |[]| |]|].
    unfold on_channel. rewrite Hi. simpl. by rewrite He. }
  cbn [mbind option_bind]. erewrite IH; [|by apply list_lookup_insert_eq, (lookup_lt_Some _ _ _ Hi)|done].
  simpl. by rewrite list_insert_insert_eq.
Qed.

(** ** What channels do with bytes *)

Section channel.
Context {C : Type} {cond : CoCond C} {order : SetOrder} {Endpoint : Type}.
Context (UnpackOne : bytes → nat → RespLimits → RespResult).
Implicit Types (ch : BackendChannel C Endpoint).

Definition batch_bytes (b : RequestBatch) : sink * bytes := (rb_owner b, rb_bytes b).
Definition bytes_of_channel ch : channel_bytes := (redis_in_ ch, batch_bytes <$> write_queue_ ch).

(** The effects of a step account for what happened to the channel's bytes. *)
Definition accounts ch (r : BackendChannel C Endpoint * list Effect) : Prop :=
  channel_flows r.2 (bytes_of_channel ch) = Some (bytes_of_channel r.1).

Lemma accounts_then ch r es' ch' :
  accounts ch r → Forall is_idle es' → bytes_of_channel ch' = bytes_of_channel r.1 → accounts ch (ch', r.2 ++ es').
Proof.
  unfold accounts. intros Hr Hes Hb. simpl. rewrite (channel_flows_app _ _ _ _ Hr).
  by rewrite channel_flows_idle, Hb.
Qed.

Lemma fail_accounts st ch : accounts ch (failConnection st ch).
Proof.
  unfold failConnection, accounts. case_decide; [done|]. simpl.
  by rewrite (channel_flows_app _ _ _ _ (channel_flows_sys _ _)).
Qed.

Lemma close_accounts ch : accounts ch (run_close ch).
Proof.
  unfold run_close, accounts. destruct (CoSocket_close _) as [s calls]. simpl.
  by rewrite (channel_flows_app _ _ _ _ (channel_flows_sys _ _)).
Qed.

Lemma top_accounts fd ch : accounts ch (run_top fd ch).
Proof.
  rewrite run_top_eq. destruct (stop_requested_ ch); [done|].
  case_decide; [exact (close_accounts (set_state kConnecting ch))|]. apply channel_flows_sys.
Qed.

Lemma wait_accounts ch r : run_wait_reader 2 ch = Some r → accounts ch r.
Proof.
  simpl. destruct (reader_done_ ch); [intros [= <-]; apply close_accounts|].
  destruct (wait (writer_signal_ ch)) as [[] g]; simpl; [destruct (wait g) as [[] g']|];
    intros; by simplify_eq.
Qed.

Lemma writer_accounts ch r : BackendChannel.writerLoop 2 ch = Some r → accounts ch r.
Proof.
  cbn [BackendChannel.writerLoop]. destruct (isHealthy ch) eqn:Hh; cbn [negb]; [|apply wait_accounts].
  destruct (write_queue_ ch) as [|b wq] eqn:Hq.
  - destruct (wait (writer_signal_ ch)) as [[] g]; [|intros; by simplify_eq].
    change (isHealthy (set_signal g ch)) with (isHealthy ch). rewrite Hh. simpl. rewrite Hq.
    destruct (wait g) as [[] g']; intros; by simplify_eq.
  - intros; simplify_eq. unfold accounts, bytes_of_channel. simpl. rewrite Hq. simpl.
    by rewrite decide_True.
Qed.

Lemma parse_accounts alloc ch r : reader_parse UnpackOne alloc ch = Some r → accounts ch r.
Proof.
  unfold reader_parse. destruct (negb _); [intros; by simplify_eq|].
  destruct (next_bytes _ _ _ _) as [[[p ps] n]|]; [|done]. simpl.
  set (ch1 := set_input p (redis_in_ ch) ch).
  pose proof (fail_accounts (Status_ProtocolError "bad redis reply") ch1) as Hf.
  destruct (failConnection _ ch1) as [c e].
  destruct ps; [destruct n as [n|]|..]; intros; simplify_eq; try (exact Hf); try done.
  unfold dispatchReply, accounts. simpl. destruct (pending_queue_ ch).
  - simpl. rewrite take_front_take. apply (fail_accounts _ (set_input p (drop n (redis_in_ ch)) ch)).
  - simpl. by rewrite take_front_take.
Qed.

Lemma step_accounts o ch r : resumes o → channel_step UnpackOne o ch = Some r → accounts ch r.
Proof.
  intros Ho Hstep. destruct o; cbn [channel_step] in Hstep; try done.
  - simplify_eq. unfold BackendChannel_start. by destruct (negb _).
  - unfold BackendChannel_stop in Hstep.
    pose proof (fail_accounts (Status_Closed "backend stopped") (set_stop true ch)) as Hf.
    destruct (failConnection _ _) as [c e]. simplify_eq.
    apply (accounts_then ch (c, e)); [done|apply idle_calls|done].
  - case_decide; simplify_eq. apply top_accounts.
  - case_decide; simplify_eq. unfold run_connected. destruct (_ && _); [done|apply close_accounts].
  - case_decide; [|done]. by apply writer_accounts.
  - destruct (cond_runnable _); [|done]. destruct (run_pc ch); try done;
      [by apply writer_accounts in Hstep|by apply wait_accounts in Hstep].
  - case_decide; simplify_eq. unfold run_written. pose proof (fail_accounts st ch) as Hf.
    destruct (Status_ok st); [done|]. destruct (failConnection st ch) as [c e].
    apply (accounts_then ch (c, e)); [done|by repeat constructor|done].
  - case_decide; by simplify_eq.
  - case_decide; by simplify_eq.
  - case_decide; simplify_eq. unfold BackendChannel.reader_read. destruct (negb _); [done|].
    destruct (Status_ok st); [done|]. set (ch1 := set_input _ _ ch).
    pose proof (fail_accounts st ch1) as Hf. by destruct (failConnection _ _).
  - case_decide; [|done]. by apply parse_accounts in Hstep.
  - case_decide; by simplify_eq.
Qed.
End channel.

(** ** The worker *)

Section flow.
Context {C N : Type} {cond : CoCond C} {laws : CoCondLaws C}.
Context {notifier : FdNotifier N} {nlaws : FdNotifierLaws N} {order : SetOrder} {Endpoint : Type}.
Context (UnpackOne : bytes → nat → RespLimits → RespResult) {uo : UnpackOneLaws UnpackOne}.
Context (PackError : string → bytes) (rules : CommandRules).
Implicit Types (w : Worker C N Endpoint) (s : ClientSession C Endpoint).

Definition bytes_of_session s : session_bytes := (client_in_ s, client_out_ s).

Definition flow_of w : Flow :=
  mkFlow (bytes_of_session <$> sessions_ w) (bytes_of_channel <$> chans w) None.

(** From [w0] to [w], the trace accounts for every byte. *)
Definition carries w0 w : Prop :=
  ∃ tr, trace w = trace w0 ++ tr ∧ length (chans w) = length (chans w0) ∧
    flow_run tr (flow_of w0) = Some (flow_of w).

Lemma carries_refl w : carries w w.
Proof. exists []. by rewrite app_nil_r. Qed.

Lemma carries_more w0 w w' tr :
  carries w0 w → trace w' = trace w ++ tr → length (chans w') = length (chans w) →
  flow_run tr (flow_of w) = Some (flow_of w') → carries w0 w'.
Proof.
  intros (tr0 & Ht & Hl & Hrun) Ht' Hl' Hrun'. exists (tr0 ++ tr).
  split_and!; [by rewrite Ht', Ht, (assoc_L (++))|congruence|by rewrite (flow_run_app _ _ _ _ Hrun)].
Qed.

Section from.
Context (w0 : Worker C N Endpoint).
Local Abbreviation keeps := (preserves (carries w0)).

(** Code that starts when session [a] is [s]. *)
Definition from {A} (a : nat) s (m : ST (Worker C N Endpoint) A) : Prop :=
  ∀ w x w', sessions_ w !! a = Some s → m w = Some (x, w') → carries w0 w → carries w0 w'.

Lemma from_any {A} a s (m : ST (Worker C N Endpoint) A) : keeps m → from a s m.
Proof. intros Hm w x w' _. apply Hm. Qed.

Lemma keeps_session {A} a (k : ClientSession C Endpoint → ST (Worker C N Endpoint) A) :
  (∀ s, from a s (k s)) → keeps (s ← get_session a; k s).
Proof.
  intros Hk w x w' Hrun Hw. apply ST_bind_Some in Hrun as (s & w1 & Hs & Hrun).
  apply ST_bind_Some in Hs as (w2 & w3 & [= <- <-] & [Hs ->]%st_opt_Some). by eapply Hk.
Qed.

Lemma from_opt {A B} a s (o : option A) (k : A → ST (Worker C N Endpoint) B) :
  (∀ r, o = Some r → from a s (k r)) → from a s (r ← st_opt o; k r).
Proof.
  intros Hk w x w' Ha Hrun. apply ST_bind_Some in Hrun as (r & w1 & [Hr ->]%st_opt_Some & Hrun). by eapply Hk.
Qed.

(** The session moves on and reports the events [es]. *)
Lemma applied w a s s' es :
  carries w0 w → sessions_ w !! a = Some s → session_flows es (bytes_of_session s) = Some (bytes_of_session s') →
  carries w0 (upd_trace (trace w ++ (WSession a <$> es)) (upd_sessions (<[a := s']> (sessions_ w)) w)).
Proof.
  intros Hw Ha Hes. eapply (carries_more w0 w); [done..|].
  erewrite flow_run_session; [|simpl; by rewrite lookup_fmap, Ha|done].
  unfold flow_of. simpl. by rewrite fmap_insert.
Qed.

Lemma from_apply a s r :
  session_flows r.2 (bytes_of_session s) = Some (bytes_of_session r.1) → from a s (session_apply a r).
Proof. intros Hr w x w' Ha [= _ <-] Hw. by eapply applied. Qed.

Lemma from_apply_then {A} a s r (m : ST (Worker C N Endpoint) A) :
  session_flows r.2 (bytes_of_session s) = Some (bytes_of_session r.1) → keeps m → from a s (session_apply a r;; m).
Proof.
  intros Hr Hm w x w' Ha Hrun Hw. apply ST_bind_Some in Hrun as (u & w1 & Happ & Hrun).
  eapply Hm; [exact Hrun|]. by eapply from_apply.
Qed.

Lemma from_put {A} a s s' (m : ST (Worker C N Endpoint) A) :
  bytes_of_session s' = bytes_of_session s → keeps m → from a s (put_session a s';; m).
Proof.
  intros Hb Hm w x w' Ha Hrun Hw. apply ST_bind_Some in Hrun as (u & w1 & Hput & Hrun).
  injection Hput as _ <-. eapply Hm; [exact Hrun|]. eapply (carries_more w0 w _ []); [done|by rewrite app_nil_r|done|].
  unfold flow_of. simpl. rewrite fmap_insert, Hb, insert_id; [done|]. by rewrite lookup_fmap, Ha.
Qed.

Lemma keeps_do a f :
  (∀ s, session_flows (f s).2 (bytes_of_session s) = Some (bytes_of_session (f s).1)) → keeps (session_do a f).
Proof. intros Hf. apply keeps_session. intros s. by apply from_apply. Qed.

Lemma keeps_quiet f : (∀ w, flow_of (f w) = flow_of w ∧ trace (f w) = trace w) → keeps (modify f).
Proof.
  intros Hf. apply preserves_modify. intros w Hw. destruct (Hf w) as [Hfl Ht].
  apply (carries_more w0 w _ []); [done|by rewrite Ht, app_nil_r| |by rewrite Hfl].
  apply (f_equal (length ∘ fl_channels)) in Hfl. simpl in Hfl. by rewrite !length_fmap in Hfl.
Qed.

(** Detaching. *)
Lemma detach_channel a ch : bytes_of_channel (BackendChannel_detachOwner (Endpoint := Endpoint) (C := C) a ch).1 =
  ((bytes_of_channel ch).1, filter (λ x, x.1 ≠ Some a) (bytes_of_channel ch).2).
Proof.
  unfold BackendChannel_detachOwner, bytes_of_channel. destruct (erase_owner a _ _) as [wq n] eqn:He.
  simpl. f_equal. revert wq n He. generalize (queued_commands_ ch).
  induction (write_queue_ ch) as [|b l IH]; intros q wq n; simpl; [intros; by simplify_eq|].
  destruct (decide (rb_owner b = Some a)) as [Hb|Hb].
  - intros He. rewrite filter_cons_False by (simpl; tauto). by eapply IH.
  - destruct (erase_owner a l q) as [wq1 n1] eqn:He. intros; simplify_eq. csimpl.
    rewrite filter_cons_True by done. f_equal. by eapply IH.
Qed.

Lemma flow_detach a l l1 fl :
  fl_channels fl = l1 ++ l →
  flow_run ((λ i, WChannel i (EfDetached a)) <$> seq (length l1) (length l)) fl =
    Some (mkFlow (fl_sessions fl) (l1 ++ ((λ v, (v.1, filter (λ x, x.1 ≠ Some a) v.2)) <$> l)) (fl_hand fl)).
Proof.
  revert l1 fl. induction l as [|v l IH]; intros l1 fl Hl.
  { simpl. destruct fl. simpl in *. by rewrite Hl. }
  cbn [length seq fmap list_fmap flow_run flow_step]. unfold on_channel at 1.
  rewrite Hl, list_lookup_middle by done. cbn [mbind option_bind channel_flow].
  rewrite insert_app_r_alt, Nat.sub_diag by done. cbn [list_insert insert].
  replace (S (length l1)) with (length (l1 ++ [(v.1, filter (λ x, x.1 ≠ Some a) v.2)])) by
    (rewrite length_app; simpl; lia).
  rewrite (IH (l1 ++ [(v.1, filter (λ x, x.1 ≠ Some a) v.2)])).
  - simpl. by rewrite <-(assoc_L (++)).
  - simpl. by rewrite <-(assoc_L (++)).
Qed.

Lemma keeps_detach a : keeps (pool_detach a).
Proof.
  intros w x w' [= _ <-] Hw. eapply (carries_more w0 w); [done|reflexivity|unfold chans; simpl; by rewrite length_fmap|].
  simpl. rewrite (imap_seq (λ i, (i, EfDetached a))), <-list_fmap_compose.
  pose proof (flow_detach a (bytes_of_channel <$> chans w) [] (flow_of w) eq_refl) as Hd.
  rewrite length_fmap in Hd. refine (eq_trans Hd _). unfold flow_of, chans. simpl. do 2 f_equal.
  rewrite <-!list_fmap_compose. apply list_fmap_ext. intros i ch _. symmetry. apply detach_channel.
Qed.

#[local] Hint Resolve keeps_detach preserves_ret : keeps.
#[local] Hint Extern 1 (preserves _ (st_opt _)) => apply preserves_opt : keeps.
#[local] Hint Extern 1 (preserves _ st_wrong) => apply preserves_wrong : keeps.
#[local] Hint Extern 1 (preserves _ notify_worker) => by apply keeps_quiet : keeps.
#[local] Hint Extern 1 (preserves _ (modify _)) => by apply keeps_quiet : keeps.

(** Goes through a sequence of commands on sessions. *)
Ltac keeps_seq :=
  repeat match goal with
  | |- ∀ _, _ => intros ?
  | |- preserves _ _ => solve [auto with keeps]
  | |- from _ _ (session_apply _ _) => apply from_apply
  | |- from _ _ (mbind _ (session_apply _ _)) => apply from_apply_then
  | |- from _ _ (mbind _ (put_session _ _)) => apply from_put
  | |- from _ _ (mbind _ (st_opt _)) => apply from_opt
  | |- from _ _ (if decide _ then _ else _) => case_decide
  | |- from _ _ (match _ with _ => _ end) => case_match
  | |- from _ _ _ => apply from_any
  | |- preserves _ (mbind _ (get_session _)) => apply keeps_session
  | |- preserves _ (session_do _ _) => apply keeps_do
  | |- preserves _ (mbind _ _) => apply preserves_bind
  | |- preserves _ (if decide _ then _ else _) => case_decide
  | |- preserves _ (match _ with _ => _ end) => case_match
  end; simpl; eauto with keeps.

Lemma keeps_abort a : keeps (abort a).
Proof.
  unfold abort. keeps_seq. by rewrite session_flows_sys.
Qed.
#[local] Hint Resolve keeps_abort : keeps.

Lemma keeps_failures owners : keeps (mapM onBackendFailure owners).
Proof. induction owners as [|a owners IH]; simpl; keeps_seq. Qed.

Lemma await_flows error s r :
  await_replies PackError 2 error s = Some r → session_flows r.2 (bytes_of_session s) = Some (bytes_of_session r.1).
Proof. simpl. unfold wait. repeat case_match; intros; by simplify_eq/=. Qed.

Lemma drain_flows error s : session_flows (drain error s).2 (bytes_of_session s) = Some (bytes_of_session (drain error s).1).
Proof. unfold drain. case_decide; [done|]. simpl. by rewrite session_flows_sys. Qed.

Lemma rest_flows sc s r :
  reader_rest PackError sc s = Some r → session_flows r.2 (bytes_of_session s) = Some (bytes_of_session r.1).
Proof.
  unfold reader_rest. repeat case_decide; [| |by intros; simplify_eq/=..].
  - pose proof (drain_flows (sc_error sc) s) as Hd. destruct (drain _ s). intros; by simplify_eq.
  - destruct (await_replies _ _ _ _) as [[s1 es]|] eqn:Ha; simpl; intros; simplify_eq.
    simpl. rewrite take_front_take. apply (await_flows _ _ _ Ha).
Qed.

Lemma writer_flows fuel s r :
  session_writerLoop PackError fuel s = Some r → session_flows r.2 (bytes_of_session s) = Some (bytes_of_session r.1).
Proof.
  revert s. induction fuel as [|fuel IH]; intros s; [done|]. cbn [session_writerLoop].
  case_decide; [intros; by simplify_eq|]. destruct (client_out_ s) as [|x out] eqn:Hout.
  - case_decide.
    + case_decide; intros; simplify_eq; [done|]. unfold bytes_of_session. simpl. rewrite Hout. simpl.
      by rewrite decide_True by (by rewrite app_nil_r).
    + destruct (wait (output_signal_ s)) as [[] sig]; [exact (IH (with_output_signal sig s))|].
      intros; by simplify_eq.
  - unfold take_output. intros [= <-]. unfold bytes_of_session. cbn [fst snd]. rewrite Hout. cbn [session_flows session_flow fst snd].
    by rewrite decide_True.
Qed.
#[local] Hint Resolve await_flows drain_flows rest_flows writer_flows : keeps.

Lemma keeps_finish a : keeps (finishLoop a).
Proof.
  unfold finishLoop. keeps_seq. destruct (CoSocket_close _) as [sock calls]. simpl.
  by rewrite (session_flows_app _ _ _ _ (session_flows_sys _ _)).
Qed.
#[local] Hint Resolve keeps_finish : keeps.

Lemma keeps_step o : ¬ special o → o ≠ WoReap → keeps (worker_step UnpackOne PackError rules o).
Proof.
  intros Ho Hreap. destruct o; cbn [worker_step]; try (by destruct Ho); try done;
    unfold reader_wake, writer_wake, writer_written, Worker.reader_read, Worker.writerLoop;
    keeps_seq.
  - by match goal with Ha : await_replies _ _ _ _ = Some _ |- _ => apply await_flows in Ha end.
  - by apply keeps_quiet.
  - apply keeps_quiet. intros w. by case_decide.
Qed.
End from.

(** *** Submitting a batch *)

Section submit.
Context (w : Worker C N Endpoint) (a : nat) (s : ClientSession C Endpoint) (p : RespParser) (data rest : bytes).
Context (Ha : sessions_ w !! a = Some s) (Hin : client_in_ s = data ++ rest).

(** The batch is taken from the session's input before it is submitted. *)
Local Abbreviation w1 := (upd_sessions (<[a := with_input p rest s]> (sessions_ w)) w).

Lemma flow_taken :
  on_session a (λ v, q ← take_front data v.1; Some (q, v.2)) (flow_of w) = Some (flow_of w1).
Proof.
  unfold on_session. simpl. rewrite lookup_fmap, Ha. simpl. rewrite Hin, take_front_app. simpl.
  unfold flow_of. simpl. by rewrite fmap_insert.
Qed.

Lemma flow_dropped : flow_step (WSession a (SeDropped data)) (flow_of w) = Some (flow_of w1).
Proof. exact flow_taken. Qed.

Lemma flow_rejected i ch n : chans w !! i = Some ch → flow_step (WChannel i (EfRejected (Some a) n)) (flow_of w) = Some (flow_of w).
Proof.
  intros Hi. simpl. unfold on_channel. simpl. rewrite list_lookup_fmap, Hi. simpl.
  rewrite list_insert_id; [done|]. by rewrite list_lookup_fmap, Hi.
Qed.

Lemma refused_carries evs b w' :
  flow_run evs (flow_of w) = Some (flow_of w) →
  (emit evs;; emit [WSession a (SeDropped data)];; abort a;; mret false) w1 = Some (b, w') → carries w w'.
Proof.
  intros Hevs Hrun. apply ST_bind_Some in Hrun as (u & w2 & Hemit & Hrun). injection Hemit as _ <-.
  apply ST_bind_Some in Hrun as (u2 & w2 & Hemit & Hrun). injection Hemit as _ <-.
  apply ST_bind_Some in Hrun as (u3 & w2 & Habort & Hrun). injection Hrun as _ <-.
  eapply keeps_abort; [exact Habort|]. exists (evs ++ [WSession a (SeDropped data)]).
  split_and!; [simpl; by rewrite (assoc_L (++))|done|]. rewrite (flow_run_app _ _ _ _ Hevs).
  cbn [flow_run]. by rewrite flow_dropped.
Qed.

Lemma submit_carries n b w' : submitBatch a data n w1 = Some (b, w') → carries w w'.
Proof.
  unfold submitBatch. case_decide.
  { intros Hrun. apply ST_bind_Some in Hrun as (u & w2 & Hemit & Hrun). injection Hemit as _ <-.
    injection Hrun as _ <-. exists [WSession a (SeDropped data)]. split_and!; [done..|].
    cbn [flow_run]. by rewrite flow_dropped. }
  intros Hrun. apply ST_bind_Some in Hrun as (s1 & w2 & Hs1 & Hrun).
  apply ST_bind_Some in Hs1 as (w3 & w4 & [= <- <-] & [Hs1 ->]%st_opt_Some).
  simpl in Hs1. rewrite lookup_insert_eq in Hs1. injection Hs1 as <-.
  apply ST_bind_Some in Hrun as (w3 & w4 & [= <- <-] & Hrun). simpl in Hrun.
  unfold BackendPool_submit in Hrun.
  destruct (select (backend_pool_ w) (current_backend_ s)) as [i|]; [|by apply (refused_carries []) in Hrun].
  destruct (channels_ (backend_pool_ w) !! i) as [ch|] eqn:Hi; [|by apply (refused_carries []) in Hrun].
  unfold BackendChannel_submit in Hrun. case_decide.
  - rewrite list_insert_id in Hrun by done.
    replace (set_channels _ (backend_pool_ w)) with (backend_pool_ w) in Hrun by (by destruct (backend_pool_ w)).
    apply (refused_carries [WChannel i (EfRejected (Some a) n)]) in Hrun; [done|].
    cbn [flow_run]. by rewrite (flow_rejected i ch n Hi).
  - injection Hrun as _ <-.
    exists [WChannel i (EfSubmitted (Some a) data n); WSession a (SeAccepted data n)].
    split_and!; [simpl; by rewrite <-(assoc_L (++))|unfold chans; simpl; by rewrite length_insert|].
    cbn [flow_run flow_step]. rewrite flow_taken. cbn [mbind option_bind].
    assert (fl_channels (flow_of w1) !! i = Some (bytes_of_channel ch)) as Hfi.
    { simpl. rewrite list_lookup_fmap. unfold chans. simpl. by rewrite Hi. }
    unfold on_channel. rewrite Hfi. simpl. unfold on_session. simpl.
    rewrite lookup_fmap, lookup_insert_eq. simpl. unfold flow_of. simpl. do 2 f_equal.
    + by rewrite insert_insert_eq, !fmap_insert, insert_insert_eq.
    + unfold chans. simpl. rewrite list_fmap_insert. f_equal. unfold bytes_of_channel. simpl. by rewrite fmap_app.
Qed.
End submit.

Lemma carries_trans w1 w2 w3 : carries w1 w2 → carries w2 w3 → carries w1 w3.
Proof. intros H12 (tr & Ht & Hl & Hrun). by eapply carries_more. Qed.

Lemma reader_carries w a alloc u w' :
  worker_inv UnpackOne rules ∅ w → readerLoop UnpackOne PackError rules a alloc w = Some (u, w') → carries w w'.
Proof.
  intros Hinv Hrun. apply ST_bind_Some in Hrun as (s & w1 & Hs & Hrun).
  apply ST_bind_Some in Hs as (w2 & w3 & [= <- <-] & [Ha ->]%st_opt_Some).
  case_decide.
  { eapply (from_apply w a s (with_reader SrEnd s, [])); [done|done|exact Hrun|apply carries_refl]. }
  apply ST_bind_Some in Hrun as (sc & w1 & [Hsc ->]%st_opt_Some & Hrun).
  apply ST_bind_Some in Hrun as (u1 & w1 & Hput & Hrun). injection Hput as _ <-.
  apply ST_bind_Some in Hrun as (ok & w1 & Hok & Hrun).
  assert (carries w w1) as Hc.
  { destruct (inv_session _ _ _ _ _ Hinv Ha) as (Hsok & _ & Hmax & _).
    destruct (scan_ok UnpackOne rules _ s alloc Hsok Hmax) as (sc' & Hsc' & Hn & _ & Hz & _).
    rewrite Hsc in Hsc'. injection Hsc' as <-. case_decide.
    - eapply submit_carries; [exact Ha| |exact Hok]. by rewrite take_drop.
    - injection Hok as _ <-. rewrite Hz by lia. eapply (from_put w a s _ (mret tt)); [| |done|reflexivity|];
        [done|apply preserves_ret|apply carries_refl]. }
  destruct ok.
  - eapply (keeps_session w a); [|exact Hrun|exact Hc]. intros s1. apply from_opt. intros r Hr.
    by eapply from_apply, rest_flows.
  - by eapply (keeps_do w a); [|exact Hrun|exact Hc].
Qed.

(** *** Channels *)

Lemma flow_with_channel w i ch' :
  flow_of (with_channel i ch' w) =
  mkFlow (fl_sessions (flow_of w)) (<[i := bytes_of_channel ch']> (fl_channels (flow_of w))) None.
Proof. unfold flow_of, chans, with_channel. simpl. by rewrite list_fmap_insert. Qed.

(** Effects without callbacks, and the callbacks of a failure. *)
Lemma silent_carries w i ch ch' es :
  Forall no_hand es → chans w !! i = Some ch → accounts ch (ch', es) →
  carries w (upd_trace (trace w ++ (WChannel i <$> es)) (with_channel i ch' w)).
Proof.
  intros Hes Hi Hacc. exists (WChannel i <$> es). split_and!; [done|unfold chans; simpl; by rewrite length_insert|].
  erewrite flow_run_channel; [|done|by simpl; rewrite list_lookup_fmap, Hi|exact Hacc].
  symmetry. f_equal. apply (flow_with_channel w).
Qed.

Lemma idle_carries w i ch es :
  Forall is_idle es → chans w !! i = Some ch → carries w (upd_trace (trace w ++ (WChannel i <$> es)) w).
Proof.
  intros Hes Hi. exists (WChannel i <$> es). split_and!; [done..|].
  erewrite flow_run_channel; [|by apply sys_no_hand, idle_sys|by simpl; rewrite list_lookup_fmap, Hi|by apply channel_flows_idle].
  rewrite list_insert_id by (simpl; by rewrite list_lookup_fmap, Hi). done.
Qed.

Lemma reply_carries w i ch ch' a data u w' :
  chans w !! i = Some ch → accounts ch (ch', [EfReply (Some a) data]) →
  deliver i [EfReply (Some a) data] (with_channel i ch' w) = Some (u, w') → carries w w'.
Proof.
  intros Hi Hacc Hrun. apply ST_bind_Some in Hrun as (u2 & w2 & Hemit & Hrun). injection Hemit as _ <-.
  apply ST_bind_Some in Hrun as (u3 & w3 & Hcall & Hrun). injection Hrun as _ <-.
  apply ST_bind_Some in Hcall as (s & w4 & Hs & Happ).
  apply ST_bind_Some in Hs as (w5 & w6 & [= <- <-] & [Ha ->]%st_opt_Some). injection Happ as _ <-. simpl in Ha.
  exists [WChannel i (EfReply (Some a) data); WSession a (SeReply data)].
  split_and!; [simpl; by rewrite <-(assoc_L (++))|unfold chans; simpl; by rewrite length_insert|].
  unfold accounts in Hacc. cbn [channel_flows fst snd] in Hacc.
  destruct (channel_flow _ (bytes_of_channel ch)) as [v|] eqn:Hv; [|done]. injection Hacc as ->.
  cbn [flow_run flow_step]. simpl fl_hand. rewrite decide_True by done. unfold on_channel. cbn [fl_channels set_hand flow_of].
  rewrite list_lookup_fmap, Hi. cbn [fmap option_fmap option_map mbind option_bind]. rewrite Hv.
  cbn [mbind option_bind fl_hand]. rewrite decide_True by done. unfold on_session. simpl.
  rewrite lookup_fmap, Ha. simpl. unfold flow_of, chans. simpl.
  rewrite list_fmap_insert, fmap_insert. do 3 f_equal.
  unfold session_onBackendReply, bytes_of_session. by case_decide.
Qed.

Lemma down_carries w i ch ch' es st owners es' u w' :
  chans w !! i = Some ch → accounts ch (ch', es ++ EfDown st owners :: es') →
  Forall is_sys es → Forall is_idle es' →
  deliver i (es ++ EfDown st owners :: es') (with_channel i ch' w) = Some (u, w') → carries w w'.
Proof.
  intros Hi Hacc He He' Hrun.
  replace (es ++ EfDown st owners :: es') with ((es ++ [EfDown st owners]) ++ es') in * by (by rewrite <-(assoc_L (++))).
  assert (accounts ch (ch', es ++ [EfDown st owners])) as Hacc'.
  { unfold accounts in *. simpl in *. destruct (channel_flows (es ++ [EfDown st owners]) _) as [v|] eqn:Hv.
    - rewrite (channel_flows_app _ _ _ _ Hv), channel_flows_idle in Hacc by done. done.
    - exfalso. revert Hv. clear -He Hacc. generalize dependent (bytes_of_channel ch).
      induction He as [|e es He _ IH]; intros v Hacc Hv; [done|]. simpl in *.
      destruct (channel_flow e v); [by eapply IH|done]. }
  rewrite deliver_app in Hrun. apply ST_bind_Some in Hrun as (u0 & w0 & Hdown & Hrest).
  rewrite deliver_app in Hdown. apply ST_bind_Some in Hdown as (u1 & w1 & Hd & Hrun).
  rewrite deliver_run in Hd by (by apply is_sys_no_callback). injection Hd as _ <-.
  apply ST_bind_Some in Hrun as (u2 & w2 & Hemit & Hrun). injection Hemit as _ <-.
  apply ST_bind_Some in Hrun as (u3 & w3 & Hfail & Hrun). injection Hrun as _ <-.
  assert (carries w w3) as Hc.
  { apply ST_bind_Some in Hfail as (us & w4 & Hfail & Hret). injection Hret as _ <-.
    eapply keeps_failures; [exact Hfail|].
    pose proof (silent_carries w i ch ch' (es ++ [EfDown st owners])) as Hs.
    rewrite fmap_app, (assoc_L (++)) in Hs. apply Hs; [|done..].
    apply Forall_app. split; [by apply sys_no_hand|by repeat constructor]. }
  rewrite deliver_run in Hrest by (by apply is_sys_no_callback, idle_sys). injection Hrest as _ <-.
  eapply carries_trans; [exact Hc|]. destruct Hc as (_ & _ & Hlen & _).
  destruct (lookup_lt_is_Some_2 (chans w3) i) as [ch3 Hi3]; [rewrite Hlen; by eapply lookup_lt_Some|].
  by eapply idle_carries.
Qed.

Lemma channel_carries i o w u w' :
  resumes o → channel_event UnpackOne i o w = Some (u, w') → carries w w'.
Proof.
  intros Ho Hrun. apply ST_bind_Some in Hrun as (w1 & w2 & [= <- <-] & Hrun).
  apply ST_bind_Some in Hrun as (ch & w1 & [Hi ->]%st_opt_Some & Hrun).
  apply ST_bind_Some in Hrun as ([ch' es] & w2 & [Hstep ->]%st_opt_Some & Hrun).
  apply ST_bind_Some in Hrun as (u1 & w3 & Hput & Hrun). injection Hput as _ <-. fold (with_channel i ch' w) in Hrun.
  pose proof (step_accounts UnpackOne o ch _ Ho Hstep) as Hacc.
  assert (shape es) as Hsh by (by apply (step_shape UnpackOne o ch (ch', es))). clear Hstep Ho.
  assert (∀ es, Forall no_callback es → accounts ch (ch', es) →
    deliver i es (with_channel i ch' w) = Some (u, w') → carries w w') as Hquiet.
  { clear Hsh Hrun Hacc. intros l Hl Hacc Hrun. rewrite deliver_run in Hrun by done. injection Hrun as _ <-.
    eapply silent_carries; [|done..]. eapply Forall_impl; [exact Hl|]. by intros [| | | | | |[]| |]. }
  destruct Hsh as [es Hes| |so data n|[a|] data|es st owners es' H1 H2].
  - apply (Hquiet es); [by apply is_sys_no_callback|done..].
  - apply (Hquiet [EfUp]); [by repeat constructor|done..].
  - apply (Hquiet [EfSent so data n]); [by repeat constructor|done..].
  - by eapply reply_carries.
  - apply (Hquiet [EfReply None data]); [by repeat constructor|done..].
  - by eapply down_carries.
Qed.

(** *** Opening and destroying sessions *)

Lemma open_carries fds addrs w u w' : open_sessions fds addrs w = Some (u, w') → carries w w'.
Proof.
  revert addrs w. induction fds as [|fd fds IH]; intros [|a addrs] w; try done;
    try (intros [= _ <-]; apply carries_refl). intros Hrun.
  apply ST_bind_Some in Hrun as (w1 & w2 & [= <- <-] & Hrun).
  apply ST_bind_Some in Hrun as (u1 & w1 & Hassert & Hrun). unfold st_assert in Hassert.
  case_decide as Hfresh; [|done]. injection Hassert as _ <-.
  apply ST_bind_Some in Hrun as (u2 & w2 & Happ & Hrun). injection Happ as _ <-.
  eapply carries_trans; [|by eapply IH]. exists [WSession a (SeOpened fd)]. split_and!; [done..|].
  simpl. rewrite decide_True by (by rewrite lookup_fmap, Hfresh). simpl. unfold flow_of. simpl.
  by rewrite fmap_insert.
Qed.

Lemma destroyed_flow l fl :
  NoDup l → (∀ a, a ∈ l → is_Some (fl_sessions fl !! a)) →
  flow_run ((λ a, WSession a SeDestroyed) <$> l) fl =
    Some (mkFlow (foldl (λ m a, delete a m) (fl_sessions fl) l) (fl_channels fl) (fl_hand fl)).
Proof.
  intros Hnd. revert fl. induction Hnd as [|a l Ha Hnd IH]; intros fl Hl; [by destruct fl|].
  destruct (Hl a ltac:(left)) as [v Hv]. cbn [fmap list_fmap flow_run flow_step]. rewrite Hv.
  cbn [mbind option_bind]. rewrite IH; [done|]. intros b Hb. simpl.
  rewrite lookup_delete_ne by (by intros ->). apply Hl. by right.
Qed.

Lemma reap_carries w : worker_inv UnpackOne rules ∅ w → ∀ u w', reapSessions w = Some (u, w') → carries w w'.
Proof.
  intros Hinv u w' [= _ <-]. exists ((λ a, WSession a SeDestroyed) <$> finished_sessions_ w).
  split_and!; [done..|]. rewrite destroyed_flow.
  - unfold flow_of. simpl. do 2 f_equal. generalize (sessions_ w).
    induction (finished_sessions_ w) as [|a l IH]; intros m; [done|]. simpl. rewrite <-IH. by rewrite fmap_delete.
  - apply Hinv.
  - intros a (s & Ha & _)%(wi_finished _ _ _ _ Hinv). simpl. rewrite lookup_fmap, Ha. by eexists.
Qed.

Lemma step_carries o w u w' :
  worker_inv UnpackOne rules ∅ w → worker_enabled o w →
  worker_step UnpackOne PackError rules o w = Some (u, w') → carries w w'.
Proof.
  intros Hinv Hen Hstep. destruct (special_em o) as [Ho|Ho].
  - destruct o; try (by destruct Ho); cbn [worker_step] in Hstep.
    + by eapply reader_carries.
    + destruct Hen as [Hres _]. eapply channel_carries; [|done]. by destruct o.
    + injection Hstep as _ <-. by exists [WDispatched fd].
    + injection Hstep as _ <-. exists []. by rewrite app_nil_r.
    + apply ST_bind_Some in Hstep as (w1 & w2 & [= <- <-] & Hstep).
      apply ST_bind_Some in Hstep as (u1 & w1 & Hput & Hstep). injection Hput as _ <-.
      eapply carries_trans; [|by eapply open_carries]. exists []. by rewrite app_nil_r.
  - assert (o = WoReap ∨ o ≠ WoReap) as [->|Hr] by (destruct o; auto); [by eapply reap_carries|].
    eapply keeps_step; [exact Ho|exact Hr|exact Hstep|apply carries_refl].
Qed.

(** Nothing is anywhere at the start. *)
Definition flow0 (n : nat) : Flow := mkFlow ∅ (replicate n ([], [])) None.

(** The trace of a worker tells where every byte is. *)
Lemma reachable_flow config w :
  config_fits config → worker_reachable UnpackOne PackError rules config w →
  flow_run (trace w) (flow0 (length (chans w))) = Some (flow_of w).
Proof.
  intros Hc. induction 1 as [|w o w' Hr IH Hen Hstep].
  - simpl. f_equal. unfold flow0, flow_of. simpl. rewrite fmap_empty. f_equal.
    unfold chans. simpl. rewrite !length_fmap, length_replicate, <-list_fmap_compose.
    by rewrite fmap_replicate.
  - destruct (step_carries o w tt w') as (tr & Ht & Hl & Hrun); [by eapply worker_inv_reachable|done..|].
    by rewrite Ht, Hl, (flow_run_app _ _ _ _ IH).
Qed.
End flow.
