(* ===== verification/PathOps.v ===== *)
(** * From events to operations on buffers

    The program keeps the bytes of sessions and channels in reference-counted blocks:
    an [IoBuffer] per connection, and [BufferChain]s that share its blocks while they
    wait in a queue or are being written.  Here every event of a worker becomes the
    operations of src/buffer.cpp that the program carries out at that point
    ([event_ops]), with a name for every chain, and what such operations do to byte
    strings ([moves]). *)
From S2P Require Import Prelude Status CommandRules Buffer BufferInv BufferWorld.
From S2P Require Import RespParser CoSocket CoroutineSignal Config.
From S2P Require Import BackendChannel BackendPool ClientSession Worker DataFlow.

(** ** Names *)

(** A chain: its name and its contents. *)
Abbreviation nchain := (nat * bytes)%type.

(** [client_in_] of session [a] and [redis_in_] of channel [i]. *)
Definition session_io (a : nat) : nat := 2 * a.
Definition channel_io (i : nat) : nat := S (2 * i).

(** The chains that exist: in [client_out_], in [write_queue_], on the way from a
    channel to a session, and in the hands of [writeAll] (by the name of the input
    buffer of the same connection).  Names from [nm_next] on are new. *)
Record Names := mkNames {
  nm_out : gmap nat (list nchain);
  nm_queue : gmap nat (list (sink * nchain));
  nm_hand : option nchain;
  nm_writing : gmap nat nchain;
  nm_next : nat
}.

Definition names0 : Names := mkNames ∅ ∅ None ∅ 0.

Definition out_of (K : Names) (a : nat) : list nchain := default [] (nm_out K !! a).
Definition queue_of (K : Names) (i : nat) : list (sink * nchain) := default [] (nm_queue K !! i).

Definition put {A} (k : nat) (l : list A) (m : gmap nat (list A)) : gmap nat (list A) :=
  match l with [] => delete k m | _ => <[k := l]> m end.

Definition set_out (a : nat) (l : list nchain) (K : Names) : Names :=
  mkNames (put a l (nm_out K)) (nm_queue K) (nm_hand K) (nm_writing K) (nm_next K).
Definition set_queue (i : nat) (l : list (sink * nchain)) (K : Names) : Names :=
  mkNames (nm_out K) (put i l (nm_queue K)) (nm_hand K) (nm_writing K) (nm_next K).
Definition set_hand_name (h : option nchain) (K : Names) : Names :=
  mkNames (nm_out K) (nm_queue K) h (nm_writing K) (nm_next K).
Definition set_writing (io : nat) (x : option nchain) (K : Names) : Names :=
  mkNames (nm_out K) (nm_queue K) (nm_hand K)
    (match x with Some c => <[io := c]> (nm_writing K) | None => delete io (nm_writing K) end) (nm_next K).
Definition skip_name (K : Names) : Names :=
  mkNames (nm_out K) (nm_queue K) (nm_hand K) (nm_writing K) (S (nm_next K)).

(** Every chain there is. *)
Definition chains (K : Names) : list nchain :=
  map_ptrs id (nm_out K) ++ map_ptrs (fmap snd) (nm_queue K) ++
  option_list (nm_hand K) ++ map_ptrs (λ c, [c]) (nm_writing K).

(** ** From events to operations on buffers *)

(** An operation, with what it has to show if that is known. *)
Abbreviation shown := (op * option bytes)%type.

Definition just (o : op) : shown := (o, None).
Definition free_chains (l : list nchain) : list shown := (λ c, just (DestroyChain c.1)) <$> l.

(** [readSome], as [readSome_appends] has it. *)
Definition read_ops (io : nat) (data : bytes) : list shown := [just (Reserve io); just (Append io data)].

(** The parser has looked at the buffer; then a prefix is cut off.  (When the parser
    finds no complete frame it looks too; the next change of the buffer forgets it.) *)
Definition slice_ops (io : nat) (data : bytes) (c : nat) : list shown :=
  [just (View io); just (SlicePrefix io (length data) c)].

(** [writeAll] is over: the chain still has its bytes, and is released. *)
Definition release_ops (io : nat) (K : Names) : list shown :=
  match nm_writing K !! io with
  | Some c => [(ReadChain c.1, Some c.2); just (DestroyChain c.1)]
  | None => []
  end.

(** The first chain takes over the slices of the others. *)
Definition join_ops (c : nat) (l : list nchain) : list shown :=
  l ≫= λ d, [just (AppendChain c d.1); just (DestroyChain d.1)].

(** What a session does with buffers when it reports an event: the calls of
    src/client_session.cpp, in the order of the code. *)
Definition session_ops (a : nat) (e : SessionEvent) (K : Names) : list shown * Names :=
  let io := session_io a in
  let n := nm_next K in
  match e with
  | SeOpened _ =>            (* client_in_(pool) *)
      ([just (NewIo io)], K)
  | SeIn data =>             (* socket_.readSome(&client_in_, ...) *)
      (read_ops io data, K)
  | SeDropped data =>        (* submitBatch(client_in_.slicePrefix(consumed), ...) that fails *)
      (slice_ops io data n ++ [just (DestroyChain n)], skip_name K)
  | SeRefused data _ =>      (* client_in_.consume(rejected_bytes) *)
      ([just (View io); just (Consume io (length data))], K)
  | SeError _ data =>        (* client_out_.push_back(MakeBufferChain(pool_, encoded)) *)
      ([just (Make n data)], set_out a (out_of K a ++ [(n, data)]) (skip_name K))
  | SeReply _ =>             (* client_out_.push_back(std::move(reply)) *)
      ([], set_out a (out_of K a ++ option_list (nm_hand K)) (set_hand_name None K))
  | SeWrite data =>          (* reply = front, appendChain of up to 63 more, writeAll(reply) *)
      match take 64 (out_of K a) with
      | [] => ([], K)
      | c :: l =>
          (release_ops io K ++ join_ops c.1 l ++ [(ReadChain c.1, Some data)],
           set_writing io (Some (c.1, data)) (set_out a (drop 64 (out_of K a)) K))
      end
  | SeWritten =>             (* reply goes out of scope *)
      (release_ops io K, set_writing io None K)
  | SeAborted =>             (* client_out_.clear() *)
      (free_chains (out_of K a), set_out a [] K)
  | SeDestroyed =>           (* ~ClientSession *)
      (release_ops io K ++ free_chains (out_of K a) ++ [just (DestroyIo io)],
       set_out a [] (set_writing io None K))
  | SeAccepted _ _ | SeDrain _ | SeSys _ | SeFinished => ([], K)
  end.

(** The same for a channel and src/backend_channel.cpp. *)
Definition channel_ops (i : nat) (e : Effect) (K : Names) : list shown * Names :=
  let io := channel_io i in
  let n := nm_next K in
  match e with
  | EfSubmitted (Some a) data _ =>   (* write_queue_.push_back({owner, std::move(bytes), ...}) *)
      (slice_ops (session_io a) data n,
       set_queue i (queue_of K i ++ [(Some a, (n, data))]) (skip_name K))
  | EfDetached a =>                  (* write_queue_.erase(it) *)
      (free_chains (filter (λ x, x.1 = Some a) (queue_of K i)).*2,
       set_queue i (filter (λ x, x.1 ≠ Some a) (queue_of K i)) K)
  | EfSent _ data _ =>               (* batch = front, pop_front, writeAll(batch.bytes) *)
      match queue_of K i with
      | [] => ([], K)
      | x :: l =>
          (release_ops io K ++ [(ReadChain x.2.1, Some data)],
           set_writing io (Some x.2) (set_queue i l K))
      end
  | EfReply (Some _) data =>         (* nextReplyFrame, onBackendReply(std::move(reply)) *)
      (slice_ops io data n, set_hand_name (Some (n, data)) (skip_name K))
  | EfReply None data | EfBuf (BufExtra data) =>   (* nextReplyFrame, and nobody wants it *)
      (slice_ops io data n ++ [just (DestroyChain n)], skip_name K)
  | EfDown _ _ =>                    (* write_queue_.clear() *)
      (free_chains (queue_of K i).*2, set_queue i [] K)
  | EfBuf (BufIn data) =>            (* socket_.readSome(&redis_in_, ...) *)
      (read_ops io data, K)
  | EfBuf BufCleared =>              (* redis_in_.clear() *)
      ([just (Clear io)], K)
  | EfBuf BufWritten =>              (* batch goes out of scope *)
      (release_ops io K, set_writing io None K)
  | EfSubmitted None _ _ | EfSys _ | EfRejected _ _ | EfUp => ([], K)
  end.

Definition event_ops (ev : Event) (K : Names) : list shown * Names :=
  match ev with
  | WSession a e => session_ops a e K
  | WChannel i e => channel_ops i e K
  | WDispatched _ => ([], K)
  end.

Fixpoint trace_ops (evs : list Event) (K : Names) : list shown * Names :=
  match evs with
  | [] => ([], K)
  | ev :: evs =>
      let '(ops, K) := event_ops ev K in
      let '(rest, K) := trace_ops evs K in (ops ++ rest, K)
  end.

(** The worker's channels are there from the start. *)
Definition start_ops (n : nat) : list shown := (λ i, just (NewIo (channel_io i))) <$> seq 0 n.
Definition worker_ops (n : nat) (evs : list Event) : list shown * Names :=
  let '(ops, K) := trace_ops evs names0 in (start_ops n ++ ops, K).

(** ** The operations on byte strings *)

(** New objects get new names. *)
Definition op_fresh (o : op) (A : aworld) : bool :=
  match o with
  | NewIo i => bool_decide (a_ios A !! i = None)
  | SlicePrefix _ _ c | Make c _ | CopyChain _ c => bool_decide (a_chains A !! c = None)
  | AppendChain c c' => bool_decide (c ≠ c')
  | _ => true
  end.

(** Runs the operations and looks at what they show. *)
Fixpoint show_ops (ops : list shown) (A : aworld) : option aworld :=
  match ops with
  | [] => Some A
  | (o, e) :: ops =>
      if op_fresh o A then
        '(r, A) ← arun_op o A;
        if from_option (λ d, bool_decide (r = d)) true e then show_ops ops A else None
      else None
  end.

Lemma show_ops_app ops ops' A : show_ops (ops ++ ops') A = show_ops ops A ≫= show_ops ops'.
Proof.
  revert A. induction ops as [|[o e] ops IH]; intros A; [done|]. simpl.
  destruct (op_fresh o A); [|done]. destruct (arun_op o A) as [[r A1]|]; [|done]. simpl.
  destruct (from_option _ _ e); [apply IH|done].
Qed.

(** The operations lead from the buffers [ios] and the chains [l] to [ios'] and [l']. *)
Definition moves (ops : list shown) (ios : gmap nat bytes) (l : list nchain)
    (ios' : gmap nat bytes) (l' : list nchain) : Prop :=
  ∀ A, a_ios A = ios → l ≡ₚ map_to_list (a_chains A) →
  ∃ A', show_ops ops A = Some A' ∧ a_ios A' = ios' ∧ l' ≡ₚ map_to_list (a_chains A').

#[global] Instance moves_proper ops ios :
  Proper (Permutation ==> eq ==> Permutation ==> iff) (moves ops ios).
Proof.
  intros l1 l2 Hl ? ios' -> l1' l2' Hl'. unfold moves. by setoid_rewrite Hl; setoid_rewrite Hl'.
Qed.

Section moves.
Context (ios : gmap nat bytes).
Implicit Types (l R : list nchain).

Lemma moves_nil l : moves [] ios l ios l.
Proof. intros A HA Hl. by exists A. Qed.

Lemma moves_app ops ops' l ios1 l1 ios2 l2 :
  moves ops ios l ios1 l1 → moves ops' ios1 l1 ios2 l2 → moves (ops ++ ops') ios l ios2 l2.
Proof.
  intros H1 H2 A HA Hl. destruct (H1 A HA Hl) as (A1 & Hs1 & HA1 & Hl1).
  destruct (H2 A1 HA1 Hl1) as (A2 & Hs2 & HA2 & Hl2). exists A2. by rewrite show_ops_app, Hs1.
Qed.

Lemma lookup_chain A R c d : (c, d) :: R ≡ₚ map_to_list (a_chains A) → a_chains A !! c = Some d.
Proof. intros Hl. apply elem_of_map_to_list. rewrite <-Hl. left. Qed.

Lemma lookup_fresh A l c : l ≡ₚ map_to_list (a_chains A) → c ∉ l.*1 → a_chains A !! c = None.
Proof.
  intros Hl Hc. apply eq_None_not_Some. intros [d Hd]. apply Hc. apply list_elem_of_fmap.
  exists (c, d). split; [done|]. rewrite Hl. by apply elem_of_map_to_list.
Qed.

(** Operations on the input buffer [io]. *)
Lemma moves_new io l : ios !! io = None → moves [just (NewIo io)] ios l (<[io := []]> ios) l.
Proof.
  intros Hio A HA Hl. eexists. simpl. rewrite bool_decide_eq_true_2 by (by rewrite HA). simpl.
  split_and!; [done|by rewrite <-HA|done].
Qed.

Lemma moves_io o io q q' l :
  ios !! io = Some q →
  (∀ A, op_fresh o A = true) →
  (∀ A, a_ios A !! io = Some q → ∃ r, arun_op o A = Some (r, mkAworld (<[io := q']> (a_ios A)) (a_chains A))) →
  moves [just o] ios l (<[io := q']> ios) l.
Proof.
  intros Hq Hf Ho A HA Hl. rewrite <-HA in Hq. destruct (Ho A Hq) as [r Hr]. eexists. simpl.
  rewrite Hf, Hr. simpl. split_and!; [done|by rewrite <-HA|done].
Qed.

Lemma moves_view io q l : ios !! io = Some q → moves [just (View io)] ios l ios l.
Proof. intros Hq A HA Hl. exists A. rewrite <-HA in Hq. simpl. by rewrite Hq. Qed.

Lemma moves_append io q data l : ios !! io = Some q → moves [just (Append io data)] ios l (<[io := q ++ data]> ios) l.
Proof. intros Hq. apply (moves_io _ io q); [done..|]. intros A HA. simpl. rewrite HA. by eexists. Qed.

Lemma moves_input io q data l : ios !! io = Some q → moves (read_ops io data) ios l (<[io := q ++ data]> ios) l.
Proof.
  intros Hq. apply (moves_app [just (Reserve io)] [just (Append io data)] l ios l); [|by apply moves_append].
  intros A HA Hl. exists A. rewrite <-HA in Hq. simpl. by rewrite Hq.
Qed.

Lemma moves_clear io q l : ios !! io = Some q → moves [just (Clear io)] ios l (<[io := []]> ios) l.
Proof. intros Hq. apply (moves_io _ io q); [done..|]. intros A HA. simpl. rewrite HA. by eexists. Qed.

Lemma moves_consume io q n l : ios !! io = Some q → moves [just (Consume io n)] ios l (<[io := drop n q]> ios) l.
Proof. intros Hq. apply (moves_io _ io q); [done..|]. intros A HA. simpl. rewrite HA. by eexists. Qed.

Lemma moves_drop_io io q l : ios !! io = Some q → moves [just (DestroyIo io)] ios l (delete io ios) l.
Proof. intros Hq A HA Hl. rewrite <-HA in Hq. eexists. simpl. rewrite Hq. simpl. by rewrite <-HA. Qed.

(** Chains. *)
Lemma moves_slice io q data c l q' :
  ios !! io = Some q → c ∉ l.*1 → take_front data q = Some q' →
  moves (slice_ops io data c) ios l (<[io := q']> ios) ((c, data) :: l).
Proof.
  unfold take_front. case_decide as Hd; [|done]. intros Hq Hc [= <-].
  apply (moves_app [just (View io)] [just (SlicePrefix io (length data) c)] l ios l); [by eapply moves_view|].
  intros A HA Hl. pose proof (lookup_fresh A l c Hl Hc) as Hn. rewrite <-HA in Hq. eexists. simpl.
  rewrite bool_decide_eq_true_2, Hq by done. simpl. rewrite Hd. split_and!; [done|by rewrite <-HA|].
  simpl. by rewrite map_to_list_insert, Hl.
Qed.

Lemma moves_make data c l : c ∉ l.*1 → moves [just (Make c data)] ios l ios ((c, data) :: l).
Proof.
  intros Hc A HA Hl. pose proof (lookup_fresh A l c Hl Hc) as Hn. eexists. simpl.
  rewrite bool_decide_eq_true_2 by done. simpl. split_and!; [done..|].
  simpl. by rewrite map_to_list_insert, Hl.
Qed.

Lemma moves_destroy c d R : moves [just (DestroyChain c)] ios ((c, d) :: R) ios R.
Proof.
  intros A HA Hl. pose proof (lookup_chain _ _ _ _ Hl) as Hc. eexists. simpl. rewrite Hc. simpl.
  split_and!; [done..|]. rewrite <-(map_to_list_delete _ _ _ Hc) in Hl. by apply Permutation_cons_inv in Hl.
Qed.

Lemma moves_read c d R : moves [(ReadChain c, Some d)] ios ((c, d) :: R) ios ((c, d) :: R).
Proof.
  intros A HA Hl. exists A. simpl. rewrite (lookup_chain _ _ _ _ Hl). simpl. by rewrite bool_decide_eq_true_2.
Qed.

Lemma moves_free l R : moves (free_chains l) ios (l ++ R) ios R.
Proof.
  induction l as [|[c d] l IH]; [apply moves_nil|].
  apply (moves_app [just (DestroyChain c)] (free_chains l) _ ios (l ++ R)); [apply moves_destroy|exact IH].
Qed.

Lemma moves_append_chain c x c' y R :
  moves [just (AppendChain c c')] ios ((c, x) :: (c', y) :: R) ios ((c', []) :: (c, x ++ y) :: R).
Proof.
  intros A HA Hl. pose proof (lookup_chain _ _ _ _ Hl) as Hc.
  assert (a_chains A !! c' = Some y) as Hc'.
  { apply (lookup_chain A ((c, x) :: R)). rewrite <-Hl. constructor. }
  assert (c ≠ c') as Hne.
  { intros ->. pose proof (NoDup_fst_map_to_list (a_chains A)) as Hnd. rewrite <-Hl in Hnd.
    simpl in Hnd. inversion Hnd; set_solver. }
  eexists. simpl. rewrite bool_decide_eq_true_2, Hc, Hc' by done. simpl. split_and!; [done..|].
  simpl. assert (delete c' (a_chains A) !! c = Some x) as Hcd by (by rewrite lookup_delete_ne).
  rewrite <-(map_to_list_delete _ _ _ Hc'), <-(map_to_list_delete _ _ _ Hcd) in Hl.
  assert (R ≡ₚ map_to_list (delete c (delete c' (a_chains A)))) as HR.
  { apply (Permutation_cons_inv (a := (c, x))), (Permutation_cons_inv (a := (c', y))). rewrite <-Hl. constructor. }
  rewrite HR, <-(map_to_list_insert _ c) by apply lookup_delete_eq.
  rewrite insert_delete_eq, <-delete_insert_ne by done.
  rewrite <-(map_to_list_insert _ c') by apply lookup_delete_eq.
  by rewrite insert_delete_eq, insert_insert_ne.
Qed.
End moves.

Lemma moves_join ios c x l R :
  moves (join_ops c l) ios ((c, x) :: l ++ R) ios ((c, x ++ concat l.*2) :: R).
Proof.
  revert x. induction l as [|[c' y] l IH]; intros x; simpl.
  { rewrite app_nil_r. apply moves_nil. }
  apply (moves_app _ [just (AppendChain c c')] _ _ ios ((c', []) :: (c, x ++ y) :: l ++ R)).
  { apply moves_append_chain. }
  apply (moves_app _ [just (DestroyChain c')] _ _ ios ((c, x ++ y) :: l ++ R)); [apply moves_destroy|].
  rewrite (assoc_L (++)). apply IH.
Qed.

(** *** The chains there are *)

Lemma put_lookup {A} k k' (l : list A) m :
  default [] (put k l m !! k') = if decide (k = k') then l else default [] (m !! k').
Proof.
  unfold put. destruct (decide (k = k')) as [<-|]; destruct l;
    rewrite ?lookup_delete_eq, ?lookup_insert_eq, ?lookup_delete_ne, ?lookup_insert_ne; done.
Qed.

Lemma put_perm {A T} (f : list A → list T) k l m :
  f [] = [] → map_ptrs f (put k l m) ≡ₚ f l ++ map_ptrs f (delete k m).
Proof. intros Hf. destruct l; simpl; [by rewrite Hf|]. apply map_ptrs_insert. Qed.

Lemma put_all {A T} (f : list A → list T) k m :
  f [] = [] → map_ptrs f m ≡ₚ f (default [] (m !! k)) ++ map_ptrs f (delete k m).
Proof.
  intros Hf. destruct (m !! k) as [l|] eqn:Hk; simpl; [by apply map_ptrs_delete|].
  by rewrite Hf, delete_id.
Qed.

Section chains.
Context (K : Names).

Lemma out_set a l b : out_of (set_out a l K) b = if decide (a = b) then l else out_of K b.
Proof. apply put_lookup. Qed.
Lemma queue_set i l j : queue_of (set_queue i l K) j = if decide (i = j) then l else queue_of K j.
Proof. apply put_lookup. Qed.

(** Everything but the output of session [a], the queue of channel [i], and so on. *)
Lemma chains_set_out a l : chains (set_out a l K) ≡ₚ l ++ chains (set_out a [] K).
Proof. unfold chains. simpl. rewrite put_perm by done. by rewrite <-(assoc_L (++)). Qed.
Lemma chains_out a : chains K ≡ₚ out_of K a ++ chains (set_out a [] K).
Proof. unfold chains. simpl. rewrite (put_all id a (nm_out K)) by done. by rewrite <-(assoc_L (++)). Qed.

Lemma chains_set_queue i l : chains (set_queue i l K) ≡ₚ l.*2 ++ chains (set_queue i [] K).
Proof.
  unfold chains. simpl. rewrite put_perm by done. rewrite <-(assoc_L (++)). apply Permutation_app_swap_app.
Qed.
Lemma chains_queue i : chains K ≡ₚ (queue_of K i).*2 ++ chains (set_queue i [] K).
Proof.
  unfold chains. simpl. rewrite (put_all (fmap snd) i (nm_queue K)) by done.
  rewrite <-(assoc_L (++)). apply Permutation_app_swap_app.
Qed.

Lemma chains_set_hand h : chains (set_hand_name h K) ≡ₚ option_list h ++ chains (set_hand_name None K).
Proof.
  unfold chains. simpl. rewrite (Permutation_app_swap_app (map_ptrs (fmap snd) _)).
  apply Permutation_app_swap_app.
Qed.
Lemma chains_hand : chains K ≡ₚ option_list (nm_hand K) ++ chains (set_hand_name None K).
Proof. rewrite <-chains_set_hand. done. Qed.

Lemma chains_set_writing io x : chains (set_writing io x K) ≡ₚ option_list x ++ chains (set_writing io None K).
Proof.
  destruct x as [c|]; [|done]. unfold chains. simpl. rewrite map_ptrs_insert. simpl.
  rewrite !(assoc_L (++)). symmetry. apply Permutation_middle.
Qed.
Lemma chains_writing io : chains K ≡ₚ option_list (nm_writing K !! io) ++ chains (set_writing io None K).
Proof.
  unfold chains. simpl. destruct (nm_writing K !! io) as [c|] eqn:Hio; simpl; [|by rewrite delete_id].
  rewrite (map_ptrs_delete _ _ _ _ Hio). simpl. rewrite !(assoc_L (++)). symmetry. apply Permutation_middle.
Qed.
End chains.

Lemma moves_release ios io K :
  moves (release_ops io K) ios (chains K) ios (chains (set_writing io None K)).
Proof.
  rewrite (chains_writing K io). unfold release_ops.
  destruct (nm_writing K !! io) as [[c d]|]; simpl; [|apply moves_nil].
  apply (moves_app _ [(ReadChain c, Some d)] _ _ ios ((c, d) :: chains (set_writing io None K)));
    [apply moves_read|apply moves_destroy].
Qed.

Lemma chains_push_out K a l : chains (set_out a (out_of K a ++ l) K) ≡ₚ l ++ chains K.
Proof.
  rewrite chains_set_out, (chains_out K a), <-(assoc_L (++)). apply Permutation_app_swap_app.
Qed.

Lemma chains_push_queue K i o c : chains (set_queue i (queue_of K i ++ [(o, c)]) K) ≡ₚ c :: chains K.
Proof.
  rewrite chains_set_queue, (chains_queue K i), fmap_app, <-(assoc_L (++)). simpl.
  symmetry. apply Permutation_middle.
Qed.
