(* ===== verification/DataPath.v ===== *)
(** * The bytes of a worker in its buffers

    [Worker] knows the bytes of a session or a channel as strings.  Run on the blocks
    of [Buffer], the operations that [PathOps] finds for a whole trace never go wrong,
    and afterwards the buffers hold what the strings say. *)
From S2P Require Import Prelude Status CommandRules Buffer BufferInv BufferWorld.
From S2P Require Import RespParser CoSocket CoroutineSignal Config.
From S2P Require Import BackendChannel ChannelInv ChannelProps BackendPool ClientSession.
From S2P Require Import SessionInv Worker WorkerInv WorkerSteps WorkerFrame WorkerProps.
From S2P Require Import DataFlow PathOps.

(** ** The strings and the names agree *)

Definition old (K : Names) (c : nchain) : Prop := c.1 < nm_next K.

Record tracks (fl : Flow) (K : Names) (ios : gmap nat bytes) : Prop := {
  tk_sessions : ∀ a, ios !! session_io a = fst <$> fl_sessions fl !! a;
  tk_channels : ∀ i, ios !! channel_io i = fst <$> fl_channels fl !! i;
  tk_out : ∀ a, (out_of K a).*2 = default [] (snd <$> fl_sessions fl !! a);
  tk_queue : ∀ i, prod_map id snd <$> queue_of K i = default [] (snd <$> fl_channels fl !! i);
  tk_hand : snd <$> nm_hand K = fl_hand fl;
  tk_old : Forall (old K) (chains K)
}.

Lemma io_names a i : session_io a ≠ channel_io i.
Proof. unfold session_io, channel_io. lia. Qed.
Lemma session_io_ne a b : a ≠ b → session_io a ≠ session_io b.
Proof. unfold session_io. lia. Qed.
Lemma channel_io_ne i j : i ≠ j → channel_io i ≠ channel_io j.
Proof. unfold channel_io. lia. Qed.
#[local] Hint Resolve io_names session_io_ne channel_io_ne not_eq_sym : core.

Lemma next_fresh K : Forall (old K) (chains K) → nm_next K ∉ (chains K).*1.
Proof.
  intros Hall Hin. apply list_elem_of_fmap in Hin as (c & Hc & Hin).
  rewrite list.Forall_forall in Hall. apply Hall in Hin. unfold old in Hin. lia.
Qed.

(** The next name is used. *)
Lemma old_cons K l d : nm_next K < nm_next l → Forall (old K) (chains K) →
  chains l ≡ₚ (nm_next K, d) :: chains K → Forall (old l) (chains l).
Proof.
  intros Hn Hall ->. constructor; [exact Hn|]. eapply Forall_impl; [exact Hall|]. unfold old. simpl. lia.
Qed.

Lemma old_app K K' l : nm_next K ≤ nm_next K' → Forall (old K) (chains K) →
  chains K ≡ₚ l ++ chains K' → Forall (old K') (chains K').
Proof.
  intros Hn Hall Hp. rewrite Hp in Hall. apply Forall_app in Hall as [_ Hall].
  eapply Forall_impl; [exact Hall|]. unfold old. simpl. lia.
Qed.

Section tracks.
Context (fl : Flow) (K : Names) (ios : gmap nat bytes) (Htr : tracks fl K ios).

Lemma tracks_session K' a v' h :
  (∀ b, b ≠ a → out_of K' b = out_of K b) → (out_of K' a).*2 = v'.2 →
  (∀ i, queue_of K' i = queue_of K i) → snd <$> nm_hand K' = h → Forall (old K') (chains K') →
  tracks (mkFlow (<[a := v']> (fl_sessions fl)) (fl_channels fl) h) K' (<[session_io a := v'.1]> ios).
Proof.
  destruct Htr as [T1 T2 T3 T4 T5 T6]. intros Hout Ha Hq Hh Hold. split; simpl; try done.
  - intros b. destruct (decide (a = b)) as [<-|]; [by rewrite !lookup_insert_eq|].
    by rewrite !lookup_insert_ne by auto.
  - intros i. by rewrite lookup_insert_ne by auto.
  - intros b. destruct (decide (a = b)) as [<-|]; [by rewrite lookup_insert_eq|].
    by rewrite lookup_insert_ne, Hout by auto.
  - intros i. by rewrite Hq.
Qed.

Lemma tracks_channel K' i v v' h :
  fl_channels fl !! i = Some v →
  (∀ a, out_of K' a = out_of K a) → (∀ j, j ≠ i → queue_of K' j = queue_of K j) →
  prod_map id snd <$> queue_of K' i = v'.2 → snd <$> nm_hand K' = h → Forall (old K') (chains K') →
  tracks (mkFlow (fl_sessions fl) (<[i := v']> (fl_channels fl)) h) K' (<[channel_io i := v'.1]> ios).
Proof.
  destruct Htr as [T1 T2 T3 T4 T5 T6]. intros Hi Hout Hq Hqi Hh Hold. apply lookup_lt_Some in Hi.
  split; simpl; try done.
  - intros a. by rewrite lookup_insert_ne by auto.
  - intros j. destruct (decide (i = j)) as [<-|].
    + by rewrite lookup_insert_eq, list_lookup_insert_eq.
    + by rewrite lookup_insert_ne, list_lookup_insert_ne by auto.
  - intros a. by rewrite Hout.
  - intros j. destruct (decide (i = j)) as [<-|].
    + by rewrite list_lookup_insert_eq.
    + by rewrite list_lookup_insert_ne, Hq by auto.
Qed.

Lemma session_input a v : fl_sessions fl !! a = Some v → ios !! session_io a = Some v.1.
Proof. intros Ha. by rewrite (tk_sessions _ _ _ Htr), Ha. Qed.
Lemma session_output a v : fl_sessions fl !! a = Some v → (out_of K a).*2 = v.2.
Proof. intros Ha. by rewrite (tk_out _ _ _ Htr), Ha. Qed.
Lemma channel_input i v : fl_channels fl !! i = Some v → ios !! channel_io i = Some v.1.
Proof. intros Hi. by rewrite (tk_channels _ _ _ Htr), Hi. Qed.
Lemma channel_queue i v : fl_channels fl !! i = Some v → prod_map id snd <$> queue_of K i = v.2.
Proof. intros Hi. by rewrite (tk_queue _ _ _ Htr), Hi. Qed.
End tracks.

(** The operations take the buffers from where they are to what [fl'] says. *)
Definition follows (K : Names) (ios : gmap nat bytes) (r : list shown * Names) (fl' : Flow) : Prop :=
  ∃ ios', moves r.1 ios (chains K) ios' (chains r.2) ∧ tracks fl' r.2 ios'.

Section events.
Context (fl : Flow) (K : Names) (ios : gmap nat bytes) (Htr : tracks fl K ios).

Lemma out_skip a : out_of (skip_name K) a = out_of K a.
Proof. done. Qed.

(** A chain is cut off and dropped at once. *)
Lemma moves_cut io q q' data :
  ios !! io = Some q → take_front data q = Some q' →
  moves (slice_ops io data (nm_next K) ++ [just (DestroyChain (nm_next K))]) ios (chains K)
    (<[io := q']> ios) (chains K).
Proof.
  intros Hq Hd. eapply moves_app; [|apply moves_destroy].
  eapply moves_slice; [done|apply next_fresh, Htr|done].
Qed.

(** [writeAll] of up to 64 responses begins. *)
Lemma write_follows a v data :
  fl_sessions fl !! a = Some v → concat (take 64 v.2) = data →
  follows K ios (session_ops a (SeWrite data) K)
    (mkFlow (<[a := (v.1, drop 64 v.2)]> (fl_sessions fl)) (fl_channels fl) (fl_hand fl)).
Proof.
  intros Ha Hd. pose proof (session_input _ _ _ Htr a v Ha) as Hin.
  pose proof (session_output _ _ _ Htr a v Ha) as Hout. pose proof (tk_old _ _ _ Htr) as Hold.
  exists (<[session_io a := v.1]> ios). rewrite insert_id by done.
  assert ((take 64 (out_of K a)).*2 = take 64 v.2 ∧ (drop 64 (out_of K a)).*2 = drop 64 v.2) as [Ht Hdr].
  { by rewrite fmap_take, fmap_drop, Hout. }
  pose proof (take_drop 64 (out_of K a)) as Htd. cbn [session_ops].
  destruct (take 64 (out_of K a)) as [|[c x] l] eqn:Hl; simpl in Htd.
  { split; [apply moves_nil|]. rewrite <-(insert_id ios (session_io a) v.1) by done.
    apply (tracks_session fl K ios Htr K a (_, _)); [done| |done|apply Htr|done]. by rewrite <-Hdr, Htd. }
  set (K1 := set_out a (drop 64 (out_of K a)) K). set (io := session_io a).
  assert (chains K ≡ₚ (c, x) :: l ++ chains K1) as Hp.
  { unfold K1. rewrite chains_set_out, (chains_out K a), <-Htd at 1. simpl. by rewrite <-(assoc_L (++)). }
  assert (data = x ++ concat l.*2) as -> by (by rewrite <-Hd, <-Ht).
  set (R := chains (set_writing io None K1)).
  assert (chains (set_writing io None K) ≡ₚ (c, x) :: l ++ R) as HpR.
  { apply (Permutation_app_inv_l (option_list (nm_writing K !! io))).
    rewrite <-chains_writing, Hp. unfold R. rewrite (chains_writing K1 io). simpl.
    rewrite <-!Permutation_middle, (Permutation_app_swap_app l). done. }
  cbn [fst snd]. split.
  - eapply moves_app; [apply moves_release|]. rewrite HpR.
    eapply moves_app; [apply moves_join|]. rewrite chains_set_writing. apply moves_read.
  - rewrite <-(insert_id ios io v.1) by done.
    apply (tracks_session fl K ios Htr _ a (_, _)); [| |done|apply Htr|]; fold K1.
    + intros b Hb. change (out_of K1 b = out_of K b). unfold K1. by rewrite out_set, decide_False by auto.
    + change ((out_of K1 a).*2 = drop 64 v.2). unfold K1. by rewrite out_set, decide_True.
    + rewrite chains_set_writing. fold R. rewrite Hp, (chains_writing K1 io) in Hold. fold R in Hold.
      simpl in *. apply Forall_cons in Hold as [Hc Hold]. constructor; [exact Hc|].
      apply Forall_app in Hold as [_ Hold]. by apply Forall_app in Hold as [_ Hold].
Qed.

Lemma session_follows a e v v' :
  fl_sessions fl !! a = Some v → session_flow e v = Some v' →
  follows K ios (session_ops a e K) (mkFlow (<[a := v']> (fl_sessions fl)) (fl_channels fl) (fl_hand fl)).
Proof.
  intros Ha He. pose proof (session_input _ _ _ Htr a v Ha) as Hin.
  pose proof (session_output _ _ _ Htr a v Ha) as Hout. pose proof (tk_old _ _ _ Htr) as Hold.
  assert (<[session_io a := v.1]> ios = ios) as Hid by (by apply insert_id).
  assert (∀ K', (∀ b, out_of K' b = out_of K b) → (∀ i, queue_of K' i = queue_of K i) →
    nm_hand K' = nm_hand K → Forall (old K') (chains K') → v'.2 = v.2 →
    tracks (mkFlow (<[a := v']> (fl_sessions fl)) (fl_channels fl) (fl_hand fl)) K'
      (<[session_io a := v'.1]> ios)) as Hsame.
  { intros K' H1 H2 H3 H4 H5. apply (tracks_session fl K ios Htr); auto; [by rewrite H1, H5|by rewrite H3; apply Htr]. }
  destruct e as [fd|data|data n|data|data error|error|data|error data|data| | |call| |];
    cbn [session_flow] in He; try done;
    try (case_decide; simplify_eq; by apply write_follows); try (exists (<[session_io a := v'.1]> ios); simplify_eq).
  - split; [by apply moves_input|by apply Hsame].
  - rewrite Hid. split; [apply moves_nil|]. rewrite <-Hid. by apply Hsame.
  - destruct (take_front data v.1) as [q|] eqn:Hq; [|done]. simplify_eq/=.
    split; [by eapply moves_cut|]. apply Hsame; try done. eapply (old_app K _ []); [simpl; lia|done|done].
  - destruct (take_front data v.1) as [q|] eqn:Hq; [|done]. simplify_eq/=. split; [|by apply Hsame].
    eapply (moves_app _ [just (View _)]); [by eapply moves_view|]. unfold take_front in Hq.
    case_decide; simplify_eq. by apply moves_consume.
  - rewrite Hid. split; [apply moves_nil|]. rewrite <-Hid. by apply Hsame.
  - simpl. rewrite Hid.
    assert (chains (set_out a (out_of K a ++ [(nm_next K, data)]) (skip_name K)) ≡ₚ (nm_next K, data) :: chains K) as Hp
      by apply (chains_push_out (skip_name K)).
    split; [rewrite Hp; by apply moves_make, next_fresh|]. rewrite <-Hid.
    apply (tracks_session fl K ios Htr _ a (_, _)); [| |done|apply Htr|].
    + intros b Hb. by rewrite out_set, decide_False by auto.
    + rewrite out_set, decide_True by done. by rewrite fmap_app, Hout.
    + eapply old_cons; [|done|exact Hp]. simpl. lia.
  - rewrite Hid. split; [apply moves_release|]. rewrite <-Hid. apply Hsame; try done.
    eapply old_app; [|done|apply (chains_writing K (session_io a))]. done.
  - simpl. rewrite Hid. pose proof (chains_out K a) as Hp. split; [rewrite Hp; apply moves_free|]. rewrite <-Hid.
    apply (tracks_session fl K ios Htr _ a (_, _)); [| |done|apply Htr|by apply (old_app K (set_out a [] K) (out_of K a))].
    + intros b Hb. by rewrite out_set, decide_False by auto.
    + by rewrite out_set, decide_True.
  - rewrite Hid. split; [apply moves_nil|]. rewrite <-Hid. by apply Hsame.
  - rewrite Hid. split; [apply moves_nil|]. rewrite <-Hid. by apply Hsame.
Qed.

Lemma opened_follows a fd :
  fl_sessions fl !! a = None →
  follows K ios (session_ops a (SeOpened fd) K)
    (mkFlow (<[a := ([], [])]> (fl_sessions fl)) (fl_channels fl) (fl_hand fl)).
Proof.
  intros Ha. exists (<[session_io a := []]> ios). split.
  - apply moves_new. by rewrite (tk_sessions _ _ _ Htr), Ha.
  - apply (tracks_session fl K ios Htr K a ([], [])); [done| |done|apply Htr..].
    by rewrite (tk_out _ _ _ Htr), Ha.
Qed.

Lemma reply_follows a v data :
  fl_sessions fl !! a = Some v → fl_hand fl = Some data →
  follows K ios (session_ops a (SeReply data) K)
    (mkFlow (<[a := (v.1, v.2 ++ [data])]> (fl_sessions fl)) (fl_channels fl) None).
Proof.
  intros Ha Hh. pose proof (session_input _ _ _ Htr a v Ha) as Hin.
  pose proof (tk_hand _ _ _ Htr) as Hhand. rewrite Hh in Hhand.
  destruct (nm_hand K) as [[c d]|] eqn:Hk; [|done]. simpl in Hhand. simplify_eq.
  assert (chains (set_out a (out_of K a ++ [(c, data)]) (set_hand_name None K)) ≡ₚ chains K) as Hp.
  { rewrite (chains_push_out (set_hand_name None K)), (chains_hand K), Hk. done. }
  exists (<[session_io a := v.1]> ios). cbn [session_ops fst snd]. rewrite Hk. simpl option_list. split.
  - rewrite Hp, insert_id by done. apply moves_nil.
  - apply (tracks_session fl K ios Htr _ a (_, _)); [| |done|done|].
    + intros b Hb. by rewrite out_set, decide_False by auto.
    + rewrite out_set, decide_True by done. by rewrite fmap_app, (session_output _ _ _ Htr a v Ha).
    + rewrite Hp. apply Htr.
Qed.

Lemma destroyed_follows a v :
  fl_sessions fl !! a = Some v →
  follows K ios (session_ops a SeDestroyed K)
    (mkFlow (delete a (fl_sessions fl)) (fl_channels fl) (fl_hand fl)).
Proof.
  intros Ha. pose proof (session_input _ _ _ Htr a v Ha) as Hin. pose proof (tk_old _ _ _ Htr) as Hold.
  set (K1 := set_writing (session_io a) None K). pose proof (chains_out K1 a) as Hp.
  exists (delete (session_io a) ios). split.
  - cbn [session_ops fst]. eapply moves_app; [apply moves_release|]. fold K1.
    eapply moves_app; [|by eapply moves_drop_io]. rewrite Hp. apply moves_free.
  - destruct Htr as [T1 T2 T3 T4 T5 T6]. split; simpl; try done.
    + intros b. destruct (decide (a = b)) as [<-|]; [by rewrite !lookup_delete_eq|].
      by rewrite !lookup_delete_ne by auto.
    + intros i. by rewrite lookup_delete_ne by auto.
    + intros b. fold K1. rewrite out_set. destruct (decide (a = b)) as [<-|]; [by rewrite lookup_delete_eq|].
      rewrite lookup_delete_ne by auto. apply T3.
    + fold K1. assert (Forall (old K1) (chains K1)) as Hold1.
      { by apply (old_app K K1 (option_list (nm_writing K !! session_io a))); [|done|apply chains_writing]. }
      by apply (old_app K1 (set_out a [] K1) (out_of K1 a)).
Qed.

(** A channel's connection and its buffers. *)
Lemma sent_follows i v o data n v' :
  fl_channels fl !! i = Some v → channel_flow (EfSent o data n) v = Some v' →
  follows K ios (channel_ops i (EfSent o data n) K)
    (mkFlow (fl_sessions fl) (<[i := v']> (fl_channels fl)) (fl_hand fl)).
Proof.
  intros Hi He. pose proof (channel_input _ _ _ Htr i v Hi) as Hin.
  pose proof (channel_queue _ _ _ Htr i v Hi) as Hq. pose proof (tk_old _ _ _ Htr) as Hold.
  cbn [channel_flow] in He. cbn [channel_ops]. destruct (queue_of K i) as [|[o' [c d]] l] eqn:Hl; simpl in Hq.
  { by rewrite <-Hq in He. }
  rewrite <-Hq in He. case_decide as Hx; [|done]. simplify_eq/=.
  set (K1 := set_queue i l K). set (io := channel_io i). set (R := chains (set_writing io None K1)).
  assert (chains K ≡ₚ (c, data) :: chains K1) as Hp.
  { unfold K1. by rewrite chains_set_queue, (chains_queue K i), Hl. }
  assert (chains (set_writing io None K) ≡ₚ (c, data) :: R) as HpR.
  { apply (Permutation_app_inv_l (option_list (nm_writing K !! io))).
    rewrite <-chains_writing, Hp. unfold R. rewrite (chains_writing K1 io). apply Permutation_middle. }
  exists (<[io := v.1]> ios). cbn [fst snd]. split.
  - rewrite insert_id by done. eapply moves_app; [apply moves_release|].
    rewrite HpR, chains_set_writing. apply moves_read.
  - apply (tracks_channel fl K ios Htr _ i v (_, _)); [done|done| | |apply Htr|]; fold K1.
    + intros j Hj. change (queue_of K1 j = queue_of K j). unfold K1. by rewrite queue_set, decide_False by auto.
    + change (prod_map id snd <$> queue_of K1 i = fmap (prod_map id snd) l). unfold K1. by rewrite queue_set, decide_True.
    + rewrite chains_set_writing. fold R. rewrite Hp, (chains_writing K1 io) in Hold. fold R in Hold.
      simpl in *. apply Forall_cons in Hold as [Hc Hold]. constructor; [exact Hc|].
      by apply Forall_app in Hold as [_ Hold].
Qed.

Lemma filter_split {A} (P : A → Prop) `{∀ x, Decision (P x)} (l : list A) :
  l ≡ₚ filter P l ++ filter (λ x, ¬ P x) l.
Proof.
  induction l as [|x l IH]; [done|]. destruct (decide (P x)).
  - rewrite filter_cons_True, (filter_cons_False (λ x, ¬ P x)) by tauto. simpl. by rewrite <-IH.
  - rewrite filter_cons_False, (filter_cons_True (λ x, ¬ P x)) by tauto. by rewrite <-Permutation_middle, <-IH.
Qed.

Lemma detach_follows i v a :
  fl_channels fl !! i = Some v →
  follows K ios (channel_ops i (EfDetached a) K)
    (mkFlow (fl_sessions fl) (<[i := (v.1, filter (λ x, x.1 ≠ Some a) v.2)]> (fl_channels fl)) (fl_hand fl)).
Proof.
  intros Hi. pose proof (channel_input _ _ _ Htr i v Hi) as Hin.
  pose proof (channel_queue _ _ _ Htr i v Hi) as Hq. pose proof (tk_old _ _ _ Htr) as Hold.
  exists (<[channel_io i := v.1]> ios). cbn [channel_ops fst snd].
  set (gone := filter (λ x, x.1 = Some a) (queue_of K i)). set (rest := filter _ (queue_of K i)).
  assert (chains K ≡ₚ gone.*2 ++ chains (set_queue i rest K)) as Hp.
  { assert (queue_of K i ≡ₚ gone ++ rest) as Hs by apply (filter_split (λ x, x.1 = Some a)).
    rewrite chains_set_queue, (assoc_L (++)), <-fmap_app, <-Hs. apply chains_queue. }
  split.
  - rewrite insert_id by done. rewrite Hp. apply moves_free.
  - apply (tracks_channel fl K ios Htr _ i v (_, _)); [done|done| | |apply Htr|].
    + intros j Hj. by rewrite queue_set, decide_False by auto.
    + rewrite queue_set, decide_True by done. simpl. rewrite <-Hq. unfold rest. clear.
      induction (queue_of K i) as [|x l IH]; [done|]. csimpl. destruct (decide (x.1 = Some a)).
      * rewrite !filter_cons_False by (simpl; tauto). done.
      * rewrite !filter_cons_True by done. csimpl. by f_equal.
    + by apply (old_app K (set_queue i rest K) gone.*2).
Qed.

Lemma channel_follows i e v v' :
  no_hand e → fl_channels fl !! i = Some v → channel_flow e v = Some v' →
  follows K ios (channel_ops i e K) (mkFlow (fl_sessions fl) (<[i := v']> (fl_channels fl)) (fl_hand fl)).
Proof.
  intros Hno Hi He. pose proof (channel_input _ _ _ Htr i v Hi) as Hin.
  pose proof (channel_queue _ _ _ Htr i v Hi) as Hq. pose proof (tk_old _ _ _ Htr) as Hold.
  assert (<[channel_io i := v.1]> ios = ios) as Hid by (by apply insert_id).
  assert (∀ K', (∀ b, out_of K' b = out_of K b) → (∀ i, queue_of K' i = queue_of K i) →
    nm_hand K' = nm_hand K → Forall (old K') (chains K') → v'.2 = v.2 →
    tracks (mkFlow (fl_sessions fl) (<[i := v']> (fl_channels fl)) (fl_hand fl)) K'
      (<[channel_io i := v'.1]> ios)) as Hsame.
  { intros K' H1 H2 H3 H4 H5. apply (tracks_channel fl K ios Htr K' i v); auto; [by rewrite H2, H5|by rewrite H3; apply Htr]. }
  assert (v' = v → follows K ios ([], K) (mkFlow (fl_sessions fl) (<[i := v']> (fl_channels fl)) (fl_hand fl))) as Hnil.
  { intros ->. exists (<[channel_io i := v.1]> ios). split; [rewrite Hid; apply moves_nil|by apply Hsame]. }
  assert (∀ data, (q ← take_front data v.1; Some (q, v.2)) = Some v' →
    follows K ios (slice_ops (channel_io i) data (nm_next K) ++ [just (DestroyChain (nm_next K))], skip_name K)
      (mkFlow (fl_sessions fl) (<[i := v']> (fl_channels fl)) (fl_hand fl))) as Hcut.
  { intros data Hd. destruct (take_front data v.1) as [q|] eqn:Hqt; [|done]. simplify_eq/=.
    exists (<[channel_io i := q]> ios). split; [by eapply moves_cut|]. apply (Hsame (skip_name K)); try done.
    eapply (old_app K _ []); [simpl; lia|done|done]. }
  destruct e as [call|o data n|o n|a| |o data n|[a|] data|st owners|[data|data| |]]; cbn [channel_flow] in He; try done;
    try (by apply Hnil; simplify_eq); try (by apply Hcut).
  - simplify_eq. by apply detach_follows.
  - by eapply sent_follows.
  - simplify_eq. exists (<[channel_io i := v.1]> ios). cbn [channel_ops fst snd].
    pose proof (chains_queue K i) as Hp. split; [rewrite Hid, Hp; apply moves_free|].
    apply (tracks_channel fl K ios Htr _ i v (_, _)); [done|done| | |apply Htr|].
    + intros j Hj. by rewrite queue_set, decide_False by auto.
    + by rewrite queue_set, decide_True.
    + by apply (old_app K (set_queue i [] K) (queue_of K i).*2).
  - simplify_eq. exists (<[channel_io i := v.1 ++ data]> ios). split; [by apply moves_input|by apply Hsame].
  - simplify_eq. exists (<[channel_io i := []]> ios). split; [by eapply moves_clear|by apply Hsame].
  - simplify_eq. exists (<[channel_io i := v'.1]> ios). split; [rewrite Hid; apply moves_release|].
    apply Hsame; try done. eapply old_app; [|done|apply (chains_writing K (channel_io i))]. done.
Qed.

Lemma submitted_follows i a data n v q vc :
  fl_sessions fl !! a = Some v → take_front data v.1 = Some q → fl_channels fl !! i = Some vc →
  follows K ios (channel_ops i (EfSubmitted (Some a) data n) K)
    (mkFlow (<[a := (q, v.2)]> (fl_sessions fl))
       (<[i := (vc.1, vc.2 ++ [(Some a, data)])]> (fl_channels fl)) (fl_hand fl)).
Proof.
  intros Ha Hd Hi. pose proof (tk_old _ _ _ Htr) as Hold.
  set (K' := set_queue i (queue_of K i ++ [(Some a, (nm_next K, data))]) (skip_name K)).
  assert (chains K' ≡ₚ (nm_next K, data) :: chains K) as Hp by apply (chains_push_queue (skip_name K)).
  assert (Forall (old K') (chains K')) as Hold'.
  { eapply old_cons; [|exact Hold|exact Hp]. simpl. lia. }
  assert (tracks (mkFlow (<[a := (q, v.2)]> (fl_sessions fl)) (fl_channels fl) (fl_hand fl)) K
            (<[session_io a := q]> ios)) as Htr1.
  { apply (tracks_session fl K ios Htr K a (_, _)); [done| |done|apply Htr|done].
    by apply (session_output _ _ _ Htr a v). }
  exists (<[channel_io i := vc.1]> (<[session_io a := q]> ios)). split.
  - rewrite insert_id by (rewrite lookup_insert_ne by auto; by apply (channel_input _ _ _ Htr)).
    cbn [channel_ops fst snd]. fold K'. rewrite Hp.
    eapply moves_slice; [by apply (session_input _ _ _ Htr)|by apply next_fresh|done].
  - apply (tracks_channel _ _ _ Htr1 K' i vc (_, _)); [done|done| | |apply Htr|done]; unfold K'.
    + intros j Hj. by rewrite queue_set, decide_False by auto.
    + rewrite queue_set, decide_True by done. rewrite fmap_app. by rewrite (channel_queue _ _ _ Htr i vc Hi).
Qed.

Lemma handed_follows i a data v q :
  fl_channels fl !! i = Some v → take_front data v.1 = Some q → fl_hand fl = None →
  follows K ios (channel_ops i (EfReply (Some a) data) K)
    (mkFlow (fl_sessions fl) (<[i := (q, v.2)]> (fl_channels fl)) (Some data)).
Proof.
  intros Hi Hd Hh. pose proof (tk_old _ _ _ Htr) as Hold.
  assert (nm_hand K = None) as Hk.
  { pose proof (tk_hand _ _ _ Htr) as Hhand. rewrite Hh in Hhand. by destruct (nm_hand K). }
  set (K' := set_hand_name (Some (nm_next K, data)) (skip_name K)).
  assert (chains K' ≡ₚ (nm_next K, data) :: chains K) as Hp.
  { unfold K'. rewrite chains_set_hand. simpl. apply Permutation_skip.
    change (chains (set_hand_name None K) ≡ₚ chains K). by rewrite (chains_hand K), Hk. }
  exists (<[channel_io i := q]> ios). split.
  - cbn [channel_ops fst snd]. fold K'. rewrite Hp.
    eapply moves_slice; [by apply (channel_input _ _ _ Htr)|by apply next_fresh|done].
  - apply (tracks_channel _ _ _ Htr K' i v (_, _)); [done|done|done| |done|].
    + apply (channel_queue _ _ _ Htr i v Hi).
    + eapply old_cons; [|exact Hold|exact Hp]. simpl. lia.
Qed.

(** One event. *)
Lemma event_follows ev fl' : flow_step ev fl = Some fl' → follows K ios (event_ops ev K) fl'.
Proof.
  assert (∀ a e, on_session a (session_flow e) fl = Some fl' → follows K ios (session_ops a e K) fl') as Hses.
  { intros a e. unfold on_session. destruct (fl_sessions fl !! a) as [v|] eqn:Ha; [|done]. cbn [mbind option_bind].
    destruct (session_flow e v) as [v'|] eqn:He; [|done]. intros [= <-]. by eapply session_follows. }
  assert (∀ i e, no_hand e → on_channel i (channel_flow e) fl = Some fl' → follows K ios (channel_ops i e K) fl') as Hch.
  { intros i e Hno. unfold on_channel. destruct (fl_channels fl !! i) as [v|] eqn:Hi; [|done]. cbn [mbind option_bind].
    destruct (channel_flow e v) as [v'|] eqn:He; [|done]. intros [= <-]. by eapply channel_follows. }
  destruct ev as [i e|a e|fd]; cbn [flow_step event_ops].
  - destruct e as [|[a|] data n| | | | |[a|] data| |]; try (by apply Hch).
    + unfold on_session, on_channel. destruct (fl_sessions fl !! a) as [v|] eqn:Ha; [|done]. simpl.
      destruct (take_front data v.1) as [q|] eqn:Hd; [|done]. simpl.
      destruct (fl_channels fl !! i) as [vc|] eqn:Hi; [|done]. intros [= <-]. by eapply (submitted_follows i a data n).
    + case_decide as Hh; [|done]. unfold on_channel. simpl. destruct (fl_channels fl !! i) as [v|] eqn:Hi; [|done].
      simpl. destruct (take_front data v.1) as [q|] eqn:Hd; [|done]. intros [= <-]. by eapply (handed_follows i a data).
  - destruct e as [fd|data|data n|data|data error|error|data|error data|data| | |call| |]; try (by apply Hses).
    + case_decide; [|done]. intros [= <-]. by apply opened_follows.
    + case_decide as Hh; [|done]. unfold on_session. simpl.
      destruct (fl_sessions fl !! a) as [v|] eqn:Ha; [|done]. intros [= <-]. by apply reply_follows.
    + destruct (fl_sessions fl !! a) as [v|] eqn:Ha; [|done]. intros [= <-]. by eapply destroyed_follows.
  - intros [= <-]. exists ios. split; [apply moves_nil|exact Htr].
Qed.
End events.

Lemma trace_follows evs fl K ios fl' :
  tracks fl K ios → flow_run evs fl = Some fl' → follows K ios (trace_ops evs K) fl'.
Proof.
  revert fl K ios. induction evs as [|ev evs IH]; intros fl K ios Htr; cbn [flow_run trace_ops].
  { intros [= <-]. exists ios. split; [apply moves_nil|done]. }
  destruct (flow_step ev fl) as [fl1|] eqn:Hstep; [|done]. cbn [mbind option_bind]. intros Hrun.
  destruct (event_follows fl K ios Htr ev fl1 Hstep) as (ios1 & Hm1 & Htr1).
  destruct (event_ops ev K) as [ops K1]. cbn [fst snd] in *.
  destruct (IH fl1 K1 ios1 Htr1 Hrun) as (ios2 & Hm2 & Htr2).
  destruct (trace_ops evs K1) as [rest K2]. exists ios2. split; [by eapply moves_app|done].
Qed.

Lemma replicate_at {A} n (x : A) i : replicate n x !! i = if decide (i < n) then Some x else None.
Proof.
  case_decide; [by apply lookup_replicate_2|]. apply lookup_ge_None. rewrite length_replicate. lia.
Qed.

(** The channels' buffers are created first. *)
Lemma start_follows n : ∃ ios, moves (start_ops n) ∅ [] ios [] ∧ tracks (flow0 n) names0 ios.
Proof.
  induction n as [|n (ios & Hm & Htr)].
  { exists ∅. split; [apply moves_nil|]. by split. }
  destruct Htr as [T1 T2 T3 T4 T5 T6]. exists (<[channel_io n := []]> ios). split.
  - unfold start_ops. rewrite seq_S, fmap_app. eapply moves_app; [exact Hm|]. apply moves_new.
    rewrite T2. unfold flow0. cbn [fl_channels]. by rewrite replicate_at, decide_False by lia.
  - split; unfold flow0 in *; cbn [fl_sessions fl_channels fl_hand] in *; try done.
    + intros a. by rewrite lookup_insert_ne by auto.
    + intros i. rewrite replicate_at. destruct (decide (i = n)) as [->|Hne].
      * rewrite lookup_insert_eq, decide_True by lia. done.
      * rewrite lookup_insert_ne, T2, replicate_at by auto. repeat case_decide; (done || lia).
    + intros i. rewrite replicate_at. by case_decide.
Qed.

Lemma worker_follows n evs fl :
  flow_run evs (flow0 n) = Some fl →
  ∃ ios, moves (worker_ops n evs).1 ∅ [] ios (chains (worker_ops n evs).2) ∧ tracks fl (worker_ops n evs).2 ios.
Proof.
  intros Hrun. destruct (start_follows n) as (ios & Hm & Htr).
  destruct (trace_follows evs _ _ _ _ Htr Hrun) as (ios' & Hm' & Htr').
  unfold worker_ops. destruct (trace_ops evs names0) as [ops K]. exists ios'. split; [by eapply moves_app|done].
Qed.

(** ** Down to the blocks *)

(** The 32-bit reference counts cannot run over. *)
Definition op_bounded (o : op) (w : world) : Prop :=
  match o with
  | Append _ data => (Z.of_nat (length (owns w) + length data) < 2 ^ 32)%Z
  | Reserve _ => (Z.of_nat (length (owns w)) + 1 < 2 ^ 32)%Z
  | SlicePrefix _ _ _ | CopyChain _ _ | AssignChain _ _ _ => (Z.of_nat (2 * length (owns w)) < 2 ^ 32)%Z
  | Make _ data => (Z.of_nat (length (owns w) + 3 * length data) < 2 ^ 32)%Z
  | _ => True
  end.

Fixpoint ops_bounded (ops : list op) (w : world) : Prop :=
  match ops with
  | [] => True
  | o :: ops => op_bounded o w ∧ match run_op o w with Some (_, w') => ops_bounded ops w' | None => True end
  end.

Lemma bounded_fits o w A : world_rel w A → op_fresh o A = true → op_bounded o w → op_fits o w.
Proof.
  intros Hw Hf Hb.
  assert (∀ i, a_ios A !! i = None → w_ios w !! i = None) as Hio.
  { intros i Hi. pose proof (wr_ios _ _ Hw i) as Hr. rewrite Hi in Hr. by inversion Hr. }
  assert (∀ c, a_chains A !! c = None → w_chains w !! c = None) as Hch.
  { intros c Hc. pose proof (wr_chains _ _ Hw c) as Hr. rewrite Hc in Hr. by inversion Hr. }
  destruct o; simpl in *; try done; apply bool_decide_eq_true in Hf; auto.
Qed.

(** What the operations show is what they have to show. *)
Definition shows (e : shown) (r : bytes) : Prop := ∀ d, e.2 = Some d → r = d.

Lemma run_shown ops w A A' :
  world_rel w A → ops_bounded ops.*1 w → show_ops ops A = Some A' →
  ∃ rs w', run_ops ops.*1 w = Some (rs, w') ∧ Forall2 shows ops rs ∧ world_rel w' A'.
Proof.
  revert w A. induction ops as [|[o e] ops IH]; intros w A Hw Hb Hs.
  { simpl in Hs. simplify_eq. exists [], w. split_and!; [done|constructor|done]. }
  rewrite fmap_cons in Hb |- *. cbn [run_ops ops_bounded show_ops fst] in *. destruct Hb as [Hb Hrest]. destruct (op_fresh o A) eqn:Hf; [|done].
  destruct (arun_op o A) as [[r A1]|] eqn:Ho; [|done]. simpl in Hs.
  destruct (from_option _ _ e) eqn:He; [|done].
  destruct (run_op_step o w A r A1 Hw (bounded_fits o w A Hw Hf Hb) Ho) as (w1 & Hrun & Hw1).
  rewrite Hrun in Hrest |- *. cbn [mbind option_bind]. destruct (IH w1 A1 Hw1 Hrest Hs) as (rs & w2 & -> & Hrs & Hw2). simpl.
  exists (r :: rs), w2. split_and!; [done| |done]. constructor; [|done]. intros d Hd. simpl in Hd. subst e.
  by apply bool_decide_eq_true in He.
Qed.

(** ** The claim *)

Section claims.
Context {C N : Type} {cond : CoCond C} {laws : CoCondLaws C}.
Context {notifier : FdNotifier N} {nlaws : FdNotifierLaws N} {order : SetOrder} {Endpoint : Type}.
Context (UnpackOne : bytes → nat → RespLimits → RespResult) {uo : UnpackOneLaws UnpackOne}.
Context (PackError : string → bytes) (rules : CommandRules).
Implicit Types (w : Worker C N Endpoint) (s : ClientSession C Endpoint) (ch : BackendChannel C Endpoint).

(** In the world [h], chain [c] has the bytes [d] and buffer [io] the bytes [q]. *)
Definition chain_holds (h : world) (c : nchain) : Prop :=
  ∃ chain, w_chains h !! c.1 = Some chain ∧ chain_repr (w_pool h) chain c.2.
Definition io_holds (h : world) (io : nat) (q : bytes) : Prop :=
  ∃ buffer, w_ios h !! io = Some buffer ∧ IoBuffer_repr (w_pool h) buffer q.

(** C3: The byte strings of a worker are what its buffers hold.  Take any run of a
    worker and carry out, on reference-counted blocks of any size that are shared by
    all its connections, the buffer operations of every event: reading into an input
    buffer, cutting batches and replies off it, queueing, joining up to 64 responses,
    writing, and releasing when a session is aborted or destroyed, a connection fails
    or a write is over.  As long as the 32-bit reference counts suffice, no operation goes wrong; what is
    read from a chain when it is written, and again when the write is over, are the
    bytes the trace says; and at the end the input buffer of every session and channel
    and the chains in their queues hold exactly the strings of the worker's state.  No
    other chain is left, so no block is kept alive by a response nobody will send. *)
Theorem worker_bytes_in_buffers config w block_size memory :
  config_fits config → worker_reachable UnpackOne PackError rules config w → 0 < block_size →
  let ops := (worker_ops (length (channels_ (backend_pool_ w))) (trace w)).1 in
  let K := (worker_ops (length (channels_ (backend_pool_ w))) (trace w)).2 in
  ops_bounded ops.*1 (empty_world block_size memory) →
  ∃ rs h, run_ops ops.*1 (empty_world block_size memory) = Some (rs, h) ∧ Forall2 shows ops rs ∧
    pool_inv (w_pool h) (owns h) ∧
    (∀ a s, sessions_ w !! a = Some s →
       io_holds h (session_io a) (client_in_ s) ∧ (out_of K a).*2 = client_out_ s) ∧
    (∀ i ch, channels_ (backend_pool_ w) !! i = Some ch →
       io_holds h (channel_io i) (redis_in_ ch) ∧
       (λ x, (x.1, x.2.2)) <$> queue_of K i = (λ b, (rb_owner b, rb_bytes b)) <$> write_queue_ ch) ∧
    Forall (chain_holds h) (chains K) ∧
    (∀ c, is_Some (w_chains h !! c) → c ∈ (chains K).*1).
Proof.
  intros Hc Hr Hpos ops K Hb.
  pose proof (reachable_flow UnpackOne PackError rules config w Hc Hr) as Hflow.
  destruct (worker_follows _ _ _ Hflow) as (ios & Hm & Htr). change (length (chans w)) with (length (channels_ (backend_pool_ w))) in Hm, Htr. fold ops K in Hm, Htr.
  destruct (Hm (mkAworld ∅ ∅)) as (A & Hs & HA & Hch); [done|simpl; by rewrite map_to_list_empty|].
  destruct (run_shown ops _ _ A (empty_world_rel block_size memory Hpos) Hb Hs) as (rs & h & Hrun & Hrs & Hrel).
  assert (∀ io q, ios !! io = Some q → io_holds h io q) as Hio.
  { intros io q Hq. rewrite <-HA in Hq. destruct (io_of _ _ Hrel io q Hq) as (buffer & ? & ? & _). by exists buffer. }
  exists rs, h. split_and!; [done|done|apply Hrel|..].
  - intros a s Ha. split; [apply Hio; rewrite (tk_sessions _ _ _ Htr)|rewrite (tk_out _ _ _ Htr)];
      simpl; by rewrite lookup_fmap, Ha.
  - intros i ch Hi. split; [apply Hio; rewrite (tk_channels _ _ _ Htr)|etransitivity; [apply (tk_queue _ _ _ Htr i)|]];
      simpl; unfold chans; by rewrite list_lookup_fmap, Hi.
  - apply list.Forall_forall. intros [c d] Hin. rewrite Hch in Hin. apply elem_of_map_to_list in Hin.
    destruct (chain_of _ _ Hrel c d Hin) as (chain & ? & ?). by exists chain.
  - intros c [chain Hchain]. destruct (map_rel_lookup _ _ _ _ _ (wr_chains _ _ Hrel) Hchain) as (d & Hd & _).
    apply list_elem_of_fmap. exists (c, d). split; [done|]. rewrite Hch. by apply elem_of_map_to_list.
Qed.
End claims.
