(* ===== verification/WorkerDemo.v ===== *)
(** * A run of a worker

    One client connects, pipelines two commands, gets its replies and closes; the
    states of this run are inputs on which the properties of a worker hold. *)
From S2P Require Import Prelude Status CommandRules RespParser CoSocket CoroutineSignal Config.
From S2P Require Import BackendChannel ChannelInv ChannelProps BackendPool ClientSession.
From S2P Require Import SessionInv Worker WorkerInv WorkerProps PoolStop SessionEnd Delivery.
From S2P Require Import Buffer BufferInv BufferWorld DataFlow PathOps DataPath.

(** A notifier that remembers whether it was notified since it was last drained. *)
#[global] Instance demo_FdNotifier : FdNotifier bool := {
  notifier_init := false;
  notifier_notify _ := true;
  notifier_drain _ := false;
  notifier_readable n := n
}.

#[global] Instance demo_FdNotifierLaws : FdNotifierLaws bool.
Proof. by split. Qed.

Definition demo_worker_config : Config unit := Config_default (λ _ _, tt).
Definition demo_pack_error (e : string) : bytes := str "-" ++ str e ++ crlf.

Definition demo_worker_ops : list (WorkerOp unit) :=
  [WoChannel 0 (EvRun 5); WoChannel 0 (EvConnected Status_Ok); WoChannel 0 EvWriter;
   WoChannel 0 EvReader; WoCheck; WoReap;
   (* the client is accepted *)
   WoDispatch 7; WoDispatchNotify; WoPoll 1; WoCheck; WoSwap [0]; WoReap;
   WoReader 0 (λ _, true); WoWriter 0;
   (* two commands arrive *)
   WoRead 0 Status_Ok (ping_frame ++ ping_frame); WoReader 0 (λ _, true);
   WoChannel 0 EvWake; WoChannel 0 (EvWritten Status_Ok);
   (* the replies arrive *)
   WoChannel 0 (EvRead Status_Ok (pong_frame ++ pong_frame)); WoChannel 0 (EvParse (λ _, true));
   WoChannel 0 (EvParse (λ _, true)); WoWriterWake 0; WoWritten 0 Status_Ok; WoWriter 0;
   (* the client closes *)
   WoRead 0 (Status_Closed "peer closed") []; WoReaderEnd 0; WoWriterWake 0; WoWriterEnd 0;
   WoPoll 1; WoCheck; WoReap].

Definition demo_worker_start : Worker demo_cond bool unit := Worker_new demo_worker_config.

(** The worker after the first [n] steps. *)
Definition demo_worker_at (n : nat) : Worker demo_cond bool unit :=
  default demo_worker_start
    (worker_run demo_unpack demo_pack_error Default (take n demo_worker_ops) demo_worker_start).

(** The client's session in that state. *)
Definition demo_session (n : nat) : ClientSession demo_cond unit :=
  default (ClientSession_new 0 demo_worker_config) (sessions_ (demo_worker_at n) !! 0).

Lemma demo_reachable n :
  worker_reachable demo_unpack demo_pack_error Default demo_worker_config (demo_worker_at n).
Proof.
  unfold demo_worker_at.
  destruct (worker_run _ _ _ (take n demo_worker_ops) demo_worker_start) as [w|] eqn:Hrun; simpl.
  - by eapply worker_run_reachable; [apply wr_init|].
  - apply wr_init.
Qed.

Lemma demo_fits : config_fits demo_worker_config.
Proof. by split; vm_compute. Qed.

(** ** Witnesses *)

(** The batch of two was submitted; the channel's writer is woken up. *)
Lemma worker_never_goes_wrong_witness :
  ∃ w', worker_step demo_unpack demo_pack_error Default (WoChannel 0 EvWake) (demo_worker_at 16) = Some (tt, w') ∧
    worker_reachable demo_unpack demo_pack_error Default demo_worker_config w'.
Proof.
  apply (worker_never_goes_wrong demo_unpack demo_pack_error Default demo_worker_config (demo_worker_at 16)
           (WoChannel 0 EvWake) demo_fits (demo_reachable 16)).
  apply (bool_decide_unpack _). vm_compute. exact I.
Defined.

(** One of two replies has arrived. *)
Lemma responses_in_order_witness :
  h_requests (session_history 0 (trace (demo_worker_at 20))) = [Forwarded; Forwarded] ∧
  h_responses (session_history 0 (trace (demo_worker_at 20))) `prefix_of`
    h_requests (session_history 0 (trace (demo_worker_at 20))).
Proof.
  split; [vm_compute; reflexivity|].
  refine (proj1 (responses_in_order demo_unpack demo_pack_error Default demo_worker_config (demo_worker_at 20)
                   0 (demo_session 20) demo_fits (demo_reachable 20) _)).
  vm_compute. reflexivity.
Defined.

(** Both loops have returned, the session is not yet destroyed. *)
Lemma graceful_end_is_complete_witness :
  h_wire (session_history 0 (trace (demo_worker_at 28))) = pong_frame ++ pong_frame ∧
  h_responses (session_history 0 (trace (demo_worker_at 28))) =
    h_requests (session_history 0 (trace (demo_worker_at 28))).
Proof.
  split; [vm_compute; reflexivity|].
  refine (proj1 (graceful_end_is_complete demo_unpack demo_pack_error Default demo_worker_config (demo_worker_at 28)
                   0 (demo_session 28) demo_fits (demo_reachable 28) _ _ _)).
  - vm_compute. reflexivity.
  - vm_compute. reflexivity.
  - vm_compute. discriminate.
Defined.

Lemma client_bytes_conserved_witness :
  let h := session_history 0 (trace (demo_worker_at 21)) in
  h_in h = ping_frame ++ ping_frame ∧
  concat (h_queued h) = h_wire h ++ concat (client_out_ (demo_session 21)).
Proof.
  split; [vm_compute; reflexivity|].
  refine (proj2 (proj2 (client_bytes_conserved demo_unpack demo_pack_error Default demo_worker_config
                          (demo_worker_at 21) 0 (demo_session 21) demo_fits (demo_reachable 21) _)) _).
  - vm_compute. reflexivity.
  - vm_compute. discriminate.
Defined.

Lemma only_admitted_commands_forwarded_witness :
  ∃ alloc p view infos, frames demo_unpack Default alloc p view 0 infos ∧
    2%Z = Z.of_nat (length infos) ∧ ping_frame ++ ping_frame = take (frames_length infos) view.
Proof.
  apply (only_admitted_commands_forwarded demo_unpack demo_pack_error Default demo_worker_config
           (demo_worker_at 16) 0 (Some 0) _ 2 demo_fits (demo_reachable 16)).
  apply (list_elem_of_lookup_2 _ 4). vm_compute. reflexivity.
Defined.

Lemma pending_replies_exact_witness :
  pending_replies_ (demo_session 16) = 2%Z ∧
  pending_replies_ (demo_session 16) =
    foldr Z.add 0%Z ((λ ch, owed 0 (abs ch)) <$> channels_ (backend_pool_ (demo_worker_at 16))).
Proof.
  split; [vm_compute; reflexivity|].
  refine (proj1 (pending_replies_exact demo_unpack demo_pack_error Default demo_worker_config (demo_worker_at 16)
                   0 (demo_session 16) demo_fits (demo_reachable 16) _)).
  vm_compute. reflexivity.
Defined.

Lemma no_dangling_owner_witness : 0 ∉ finished_sessions_ (demo_worker_at 16).
Proof.
  destruct (channels_ (backend_pool_ (demo_worker_at 16)) !! 0) as [ch|] eqn:Hch;
    [|vm_compute in Hch; discriminate].
  refine (proj2 (no_dangling_owner demo_unpack demo_pack_error Default demo_worker_config (demo_worker_at 16)
                   0 ch 0 demo_fits (demo_reachable 16) Hch _)).
  vm_compute in Hch. injection Hch as <-. apply (list_elem_of_lookup_2 _ 0). vm_compute. reflexivity.
Defined.

Lemma finished_exactly_once_witness :
  finished_sessions_ (demo_worker_at 28) = [0] ∧ NoDup (finished_sessions_ (demo_worker_at 28)).
Proof.
  split; [vm_compute; reflexivity|].
  exact (proj1 (finished_exactly_once demo_unpack demo_pack_error Default demo_worker_config (demo_worker_at 28)
                  demo_fits (demo_reachable 28))).
Defined.

(** The replies are queued and the writer still sleeps. *)
Lemma session_no_lost_wakeup_witness :
  writer_at (demo_session 21) = SwWaiting ∧ worker_enabled (WoWriterWake 0) (demo_worker_at 21).
Proof.
  split; [vm_compute; reflexivity|].
  refine (proj1 (session_no_lost_wakeup demo_unpack demo_pack_error Default demo_worker_config (demo_worker_at 21)
                   0 (demo_session 21) demo_fits (demo_reachable 21) _) _ _).
  - vm_compute. reflexivity.
  - vm_compute. reflexivity.
  - left. vm_compute. discriminate.
Defined.

Lemma no_descriptor_lost_witness :
  pending_fds_ (demo_worker_at 7) = [7%Z] ∧
  dispatched (trace (demo_worker_at 7)) = opened (trace (demo_worker_at 7)) ++ pending_fds_ (demo_worker_at 7).
Proof.
  split; [vm_compute; reflexivity|].
  exact (proj1 (no_descriptor_lost demo_unpack demo_pack_error Default demo_worker_config (demo_worker_at 7)
                  demo_fits (demo_reachable 7))).
Defined.

(** Both commands of the client were answered. *)
(** The pool is stopped while two replies are outstanding. *)
Lemma pool_stop_stops_witness :
  pending_replies_ (demo_session 18) = 2%Z ∧
  ∃ w', BackendPool_stop demo_unpack (demo_worker_at 18) = Some (tt, w') ∧
    ∀ a s, sessions_ w' !! a = Some s → pending_replies_ s = 0%Z.
Proof.
  split; [vm_compute; reflexivity|].
  destruct (pool_stop_stops demo_unpack demo_pack_error Default demo_worker_config (demo_worker_at 18)
              demo_fits (demo_reachable 18)) as (w' & Hrun & _ & _ & Hz).
  exists w'. split; [exact Hrun|exact Hz].
Defined.

(** The connection to Redis breaks while two replies are outstanding. *)
Definition demo_aborting_ops : list (WorkerOp unit) :=
  take 18 demo_worker_ops ++ [WoChannel 0 (EvRead (Status_Closed "peer closed") [])].
Definition demo_aborting : Worker demo_cond bool unit :=
  default demo_worker_start
    (worker_run demo_unpack demo_pack_error Default demo_aborting_ops demo_worker_start).
Definition demo_aborted : ClientSession demo_cond unit :=
  default (ClientSession_new 0 demo_worker_config) (sessions_ demo_aborting !! 0).

Lemma demo_aborting_reachable :
  worker_reachable demo_unpack demo_pack_error Default demo_worker_config demo_aborting.
Proof.
  unfold demo_aborting.
  destruct (worker_run _ _ _ demo_aborting_ops demo_worker_start) as [w|] eqn:Hrun; simpl.
  - by eapply worker_run_reachable; [apply wr_init|].
  - apply wr_init.
Qed.

Lemma settled_session_ends_witness :
  steps_left demo_aborted = 4 ∧ ∃ o, own_step 0 o ∧ worker_enabled o demo_aborting.
Proof.
  destruct (settled_session_ends demo_unpack demo_pack_error Default demo_worker_config demo_aborting 0
              demo_aborted demo_fits demo_aborting_reachable
              ltac:(vm_compute; reflexivity) ltac:(left; vm_compute; reflexivity)) as (_ & _ & Hgo & _).
  split; [vm_compute; reflexivity|]. apply Hgo. vm_compute. discriminate.
Defined.

Lemma replies_answer_their_commands_witness :
  (λ m, (accepted m 0, answered m 0)) <$> mon_run (trace (demo_worker_at 28)) mon0 = Some (2, 2) ∧
  ∃ m, mon_run (trace (demo_worker_at 28)) mon0 = Some m ∧ mo_handing m = None.
Proof.
  split; [vm_compute; reflexivity|].
  destruct (replies_answer_their_commands demo_unpack demo_pack_error Default demo_worker_config
              (demo_worker_at 28) demo_fits (demo_reachable 28)) as (m & Hm & Hh & _).
  exists m. split; [exact Hm|exact Hh].
Defined.

(** Both replies are queued, in chains that share a block of sixteen bytes with the
    channel's input buffer. *)
Lemma worker_bytes_in_buffers_witness :
  let r := worker_ops 1 (trace (demo_worker_at 21)) in
  (out_of r.2 0).*2 = [pong_frame; pong_frame] ∧
  ∃ rs h, run_ops r.1.*1 (empty_world 16 zeros) = Some (rs, h) ∧ Forall (chain_holds h) (chains r.2).
Proof.
  split; [vm_compute; reflexivity|].
  destruct (worker_bytes_in_buffers demo_unpack demo_pack_error Default demo_worker_config (demo_worker_at 21)
              16 zeros demo_fits (demo_reachable 21)) as (rs & h & Hrun & _ & _ & _ & _ & Hch & _).
  - lia.
  - vm_compute. repeat split.
  - exists rs, h. by split.
Defined.
