(* ===== verification/InputReady.v ===== *)
(** * Nobody waits for bytes that are already there

    A session and a connection to Redis read from their sockets only when what they
    have buffered does not begin with a complete value: the reader of a session
    comes back to its buffer after every batch, and the parsing budget makes it
    yield, not read.  Otherwise a client could wait for an answer while the proxy
    waits for more from the client. *)
From S2P Require Import Prelude Status CommandRules RespParser CoSocket CoroutineSignal Config.
From S2P Require Import BackendChannel ChannelInv ChannelProps BackendPool ClientSession.
From S2P Require Import SessionInv Worker WorkerInv WorkerSteps WorkerFrame WorkerProps WorkerDemo.

(** ** Values in a buffer *)

Section needs.
Context (UnpackOne : bytes → nat → RespLimits → RespResult) {uo : UnpackOneLaws UnpackOne}.

(** [bs] begins with a value the decoder understands, in the arena the parser
    allows for [bs]. *)
Definition complete (lim : RespLimits) (bs : bytes) : Prop :=
  ∃ n, rr_status (UnpackOne (take n bs) (unpack_slots bs) lim) = rOk.

(** The decoder asks for more. *)
Definition needs (p : RespParser) (bs : bytes) : Prop := rr_status (unpack_ref UnpackOne p bs) = rNeedMore.

(** There is nothing to do with what is buffered. *)
Definition idle_input (p : RespParser) (bs : bytes) : Prop := bs = [] ∨ needs p bs.

Lemma needs_parser p q bs :
  limits_ q = limits_ p → max_frame_bytes_ q = max_frame_bytes_ p → needs p bs → needs q bs.
Proof. unfold needs, unpack_ref, unpack_finish. by intros -> ->. Qed.

Lemma needs_incomplete p bs : needs p bs → ¬ complete (limits_ p) bs.
Proof.
  unfold needs, unpack_ref. intros Hn [n Hok]. apply unpack_finish_NeedMore in Hn as Hlen.
  assert (substr0 (max_frame_bytes_ p) bs = bs) as Hall.
  { apply substr0_all. destruct (decide (0 <= max_frame_bytes_ p)%Z); [|lia].
    rewrite length_substr0 in Hlen by done. lia. }
  rewrite Hall in *. pose proof (uo_extend (take n bs) (drop n bs) _ _ Hok) as He. rewrite take_drop in He.
  rewrite He, (decide_False (P := rr_status _ = rNoMemory)) in Hn by (by rewrite Hok).
  unfold unpack_finish in Hn. rewrite decide_False in Hn; [congruence|]. intros [? _]. congruence.
Qed.

Lemma idle_incomplete p bs : idle_input p bs → ¬ complete (limits_ p) bs.
Proof.
  intros [->|Hn]; [|by apply needs_incomplete]. intros [n Hok]. rewrite take_nil in Hok.
  destruct (uo_ok _ _ _ Hok) as [? _]. simpl in *. lia.
Qed.

(** Whatever the allocator did, the parser asks for more only when the decoder does. *)
Lemma unpack_loop_needs alloc fuel p scratch input max_slots r s :
  unpack_loop UnpackOne alloc fuel p scratch input max_slots = Some (r, s) → rr_status r = rNeedMore →
  let r' := UnpackOne input max_slots (limits_ p) in
  rr_status (unpack_finish p input
    (if decide (rr_status r' = rNoMemory) then mkRespResult rNeedMore (rr_consumed r') (rr_value r') else r')) =
  rNeedMore.
Proof.
  intros Hl Hr. revert scratch Hl. induction fuel as [|fuel IH]; intros scratch; [done|].
  cbn [unpack_loop]. case_decide as Hnm; [case_decide as Hlt|].
  - destruct (alloc _); [apply IH|by intros; simplify_eq].
  - intros [= <- _]. replace (Nat.min scratch max_slots) with max_slots in * by lia. cbn zeta.
    by rewrite decide_True.
  - intros [= <- _]. cbn zeta. rewrite (uo_slots _ (Nat.min scratch max_slots) max_slots) by (done || lia).
    by rewrite decide_False.
Qed.

Lemma unpack_needs alloc p bs r p' :
  unpack UnpackOne alloc p bs = Some (r, p') → rr_status r = rNeedMore → needs p bs.
Proof.
  unfold unpack. intros Hu Hr. case_decide; [by simplify_eq|].
  destruct (unpack_loop _ _ _ _ _ _ _) as [[r0 s0]|] eqn:Hl; simpl in Hu; simplify_eq.
  by apply (unpack_loop_needs _ _ _ _ _ _ _ _ Hl).
Qed.

Lemma next_needs alloc p bs p' ps n :
  next_bytes UnpackOne alloc p bs = Some (p', ps, n) → ps = pNeedMore → needs p bs.
Proof.
  unfold next_bytes. destruct (unpack UnpackOne alloc p bs) as [[r q]|] eqn:Hu; [|done]. simpl.
  case_decide; intros; simplify_eq. eapply unpack_needs; [done|]. by destruct (rr_status r).
Qed.

Lemma peek_needs alloc p bs off p' info :
  peek_bytes UnpackOne alloc p bs off = Some (p', pNeedMore, info) → needs p (drop off bs).
Proof.
  unfold peek_bytes. case_decide; [done|]. destruct (unpack UnpackOne alloc p (drop off bs)) as [[r q]|] eqn:Hu; [|done].
  simpl. case_decide.
  - destruct (rr_value r) as [v|]; [|done]. simpl. destruct (extractCommandInfo v) as [[i|]|]; simpl; intros; by simplify_eq.
  - intros; simplify_eq. eapply unpack_needs; [done|]. by destruct (rr_status r).
Qed.
End needs.

(** ** Channels *)

Section channels.
Context {C : Type} {cond : CoCond C} {laws : CoCondLaws C} {order : SetOrder} {Endpoint : Type}.
Context (UnpackOne : bytes → nat → RespLimits → RespResult) {uo : UnpackOneLaws UnpackOne}.
Implicit Types (ch : BackendChannel C Endpoint).

Local Abbreviation idle := (idle_input UnpackOne).

(** Between connections the buffer is empty; the reader goes to its socket only with
    an idle buffer. *)
Record fed_channel ch : Prop := {
  fc_closed : in_session (run_pc ch) = false → redis_in_ ch = [];
  fc_reader : reader_pc ch = ReaderReading ∨ reader_pc ch = ReaderTop ∧ state_ ch = kReady →
    idle (reply_parser_ ch) (redis_in_ ch)
}.

Lemma fed_empty ch : redis_in_ ch = [] → fed_channel ch.
Proof. intros He. split; intros _; [done|by left]. Qed.

(** What concerns neither the buffer nor the reader. *)
Lemma fed_same ch ch' :
  fed_channel ch → reply_parser_ ch' = reply_parser_ ch → redis_in_ ch' = redis_in_ ch →
  reader_pc ch' = reader_pc ch → (state_ ch' = kReady → state_ ch = kReady) →
  (in_session (run_pc ch') = false → in_session (run_pc ch) = false) → fed_channel ch'.
Proof.
  intros [Hc Hr] Hp Hin Hpc Hst Hrun. split; rewrite ?Hp, ?Hin, ?Hpc.
  - intros H. by apply Hc, Hrun.
  - intros H. apply Hr. naive_solver.
Qed.

(** A reader that does not go to its socket. *)
Lemma fed_busy ch :
  in_session (run_pc ch) = true → reader_pc ch ≠ ReaderReading →
  (reader_pc ch = ReaderTop → state_ ch ≠ kReady) → fed_channel ch.
Proof. intros Hs H1 H2. split; [congruence|]. naive_solver. Qed.

Lemma fed_fail st ch : fed_channel ch → fed_channel (failConnection st ch).1.
Proof. intros Hf. unfold failConnection. case_decide; [done|]. by eapply fed_same. Qed.

Lemma fed_close ch : fed_channel (run_close ch).1.
Proof. unfold run_close. destruct (CoSocket_close _). by apply fed_empty. Qed.

Lemma fed_wait_reader ch r :
  in_session (run_pc ch) = true → run_wait_reader 2 ch = Some r → fed_channel ch → fed_channel r.1.
Proof.
  intros Hs. simpl. unfold wait. repeat case_match; intros [= <-] Hf; try apply fed_close; by eapply fed_same.
Qed.

Lemma fed_writer ch r :
  in_session (run_pc ch) = true → BackendChannel.writerLoop 2 ch = Some r → fed_channel ch → fed_channel r.1.
Proof.
  intros Hs. cbn [BackendChannel.writerLoop]. unfold wait.
  repeat case_match; try (by intros Hr Hf; eapply fed_wait_reader; [|done|by eapply fed_same]);
    intros [= <-] Hf; by eapply fed_same.
Qed.

Lemma fed_top fd ch : run_pc ch = RunTop → fed_channel ch → fed_channel (run_top fd ch).1.
Proof.
  intros Hpc [Hc _]. rewrite Hpc in Hc. specialize (Hc eq_refl).
  unfold run_top, connectOnce, run_connected. repeat case_match; simplify_eq; simpl; try (by apply fed_empty).
  all: try (unfold run_close; destruct (CoSocket_close _); by apply fed_empty).
Qed.

Lemma fed_parse alloc ch r :
  channel_inv ch → reader_pc ch = ReaderParsing → reader_parse UnpackOne alloc ch = Some r → fed_channel r.1.
Proof.
  intros Hinv Hpc. assert (in_session (run_pc ch) = true) as Hs.
  { apply (co_reader _ _ _ _ _ (ci_control _ Hinv)). by rewrite Hpc. }
  unfold reader_parse. destruct (isHealthy ch) eqn:Hh; simpl.
  2:{ intros [= <-]. apply fed_busy; [done..|]. intros _. simpl. intros Hst%healthy_ready. congruence. }
  destruct (next_bytes UnpackOne alloc (reply_parser_ ch) (redis_in_ ch)) as [[[p ps] n]|] eqn:Hn; [|done]. simpl.
  assert (needs UnpackOne (reply_parser_ ch) (redis_in_ ch) → needs UnpackOne p (redis_in_ ch)) as Hp.
  { destruct (unpack_run UnpackOne alloc (reply_parser_ ch) (redis_in_ ch) (ci_parser _ Hinv))
      as (r0 & p0 & Hu & Hl & Hf & _). unfold next_bytes in Hn. rewrite Hu in Hn. simpl in Hn.
    apply needs_parser; case_decide; by simplify_eq. }
  assert (∀ st, fed_channel (set_reader ReaderTop (failConnection st (set_input p (redis_in_ ch) ch)).1)) as Hfail.
  { intros st. apply fed_busy; [|done|]; unfold failConnection; case_decide; done. }
  destruct ps as [| | |]; [destruct n as [n|]|..].
  2,4,5: specialize (Hfail (Status_ProtocolError "bad redis reply"));
    destruct (failConnection _ _); intros [= <-]; exact Hfail.
  - intros [= <-]. apply fed_busy; unfold dispatchReply, failConnection;
      repeat case_match; simpl; rewrite ?Hpc; done.
  - intros [= <-]. split; simpl; [congruence|]. intros _. right. by eapply Hp, next_needs.
Qed.

Lemma fed_step o ch r :
  channel_inv ch → channel_step UnpackOne o ch = Some r → fed_channel ch → fed_channel r.1.
Proof.
  intros Hinv Hstep Hf. pose proof (ci_control _ Hinv) as Hctl.
  destruct o; cbn [channel_step] in Hstep; try case_decide; try done.
  - unfold BackendChannel_submit in Hstep. case_decide; simplify_eq; [done|by eapply fed_same].
  - injection Hstep as <-. unfold BackendChannel_detachOwner. destruct (erase_owner _ _ _). by eapply fed_same.
  - injection Hstep as <-. unfold BackendChannel_start. destruct (isStopped ch) eqn:Hst; [|done]. simpl.
    apply fed_empty. simpl. apply (fc_closed _ Hf). unfold isStopped in Hst. apply bool_decide_eq_true in Hst.
    by apply (co_stopped _ _ _ _ _ Hctl) in Hst as ->.
  - injection Hstep as <-. unfold BackendChannel_stop.
    pose proof (fed_fail (Status_Closed "backend stopped") (set_stop true ch)) as H.
    destruct (failConnection _ _) as [ch' es]. eapply fed_same; [by apply H; eapply fed_same|done..].
  - injection Hstep as <-. by apply fed_top.
  - injection Hstep as <-. unfold run_connected. destruct (_ && _); [|apply fed_close].
    apply fed_empty. simpl. apply (fc_closed _ Hf). by rewrite H.
  - eapply fed_writer; [|done|done]. by rewrite H.
  - destruct (cond_runnable _); [|done]. destruct (run_pc ch) eqn:Hpc; try done;
      [eapply fed_writer|eapply fed_wait_reader]; try exact Hstep; try done; eapply fed_same; try done; by rewrite Hpc.
  - injection Hstep as <-. unfold run_written. destruct (Status_ok st).
    + eapply fed_same; try done.
    + pose proof (fed_fail st ch Hf) as H1. destruct (failConnection st ch). by eapply fed_same.
  - injection Hstep as <-. eapply fed_same; try done. by rewrite H.
  - injection Hstep as <-. unfold reader_top. destruct (isHealthy ch) eqn:Hh.
    + split; simpl; [apply Hf|]. intros _. apply (fc_reader _ Hf). right. by rewrite <-healthy_ready.
    + split; simpl; [apply Hf|]. by intros [|[]].
  - injection Hstep as <-. destruct H as [H _]. assert (in_session (run_pc ch) = true) as Hs.
    { apply (co_reader _ _ _ _ _ Hctl). by rewrite H. }
    unfold BackendChannel.reader_read, failConnection. by repeat case_match; simplify_eq; apply fed_busy.
  - by eapply fed_parse.
  - injection Hstep as <-. split; simpl; [apply Hf|]. by intros [|[]].
Qed.
End channels.

(** ** Sessions *)

Section sessions.
Context {C N : Type} {cond : CoCond C} {laws : CoCondLaws C}.
Context {notifier : FdNotifier N} {nlaws : FdNotifierLaws N} {order : SetOrder} {Endpoint : Type}.
Context (UnpackOne : bytes → nat → RespLimits → RespResult) {uo : UnpackOneLaws UnpackOne}.
Context (PackError : string → bytes) (rules : CommandRules).
Implicit Types (w : Worker C N Endpoint) (s : ClientSession C Endpoint).

Local Abbreviation idle := (idle_input UnpackOne).

Lemma unpack_limits alloc p bs r p' :
  unpack UnpackOne alloc p bs = Some (r, p') →
  limits_ p' = limits_ p ∧ max_frame_bytes_ p' = max_frame_bytes_ p.
Proof.
  unfold unpack. case_decide; [by intros; simplify_eq|].
  destruct (unpack_loop _ _ _ _ _ _ _) as [[r0 s0]|]; simpl; intros; by simplify_eq.
Qed.

Lemma peek_limits alloc p bs off p' st info :
  peek_bytes UnpackOne alloc p bs off = Some (p', st, info) →
  limits_ p' = limits_ p ∧ max_frame_bytes_ p' = max_frame_bytes_ p.
Proof.
  unfold peek_bytes. case_decide; [by intros; simplify_eq|].
  destruct (unpack UnpackOne alloc p _) as [[r q]|] eqn:Hu; [|done]. apply unpack_limits in Hu. simpl.
  case_decide; [|by intros; simplify_eq]. destruct (rr_value r) as [v|]; [|done]. simpl.
  destruct (extractCommandInfo v) as [[i|]|]; simpl; intros; by simplify_eq.
Qed.

(** A scan without an error used up its budget, or the decoder asks for more. *)
Lemma scan_loop_needs fuel alloc max view sc sc' :
  scan_loop UnpackOne rules fuel alloc max view sc = Some sc' →
  (sc_parsed sc < max)%Z ∨ sc_status sc = pOk → sc_error sc' = ""%string →
  sc_status sc' = pOk ∨ needs UnpackOne (sc_parser sc') (drop (sc_consumed sc') view).
Proof.
  revert sc. induction fuel as [|fuel IH]; intros sc; simpl; case_decide as Hb; try done;
    try (intros [= <-] [?|?]; [lia|by left]).
  destruct (peek_bytes _ _ _ _ _) as [[[p ps] info]|] eqn:Hpeek; [|done]. simpl.
  destruct (peek_limits _ _ _ _ _ _ _ Hpeek) as [Hl Hf].
  destruct ps; [destruct info as [info|]|..]; try (by intros [= <-]).
  - destruct (Status_ok _); [intros Hs _; apply (IH _ Hs); by right|]. intros [= <-] _ _. by left.
  - intros [= <-] _ _. right. simpl. by eapply needs_parser, peek_needs.
Qed.

Definition budget s : Z := max_pipeline_commands_per_read (cs_config s).

Definition fed_session s : Prop := reader_at s = SrReading → idle (cs_parser s) (client_in_ s).

(** [X]: sessions whose reader is in the middle of a step. *)
Definition good (X : gset nat) (a : nat) s : Prop := (0 < budget s)%Z ∧ (a ∉ X → fed_session s).

Definition fed_upto (X : gset nat) w : Prop :=
  (0 < max_pipeline_commands_per_read (wk_config w))%Z ∧ map_Forall (good X) (sessions_ w).

Lemma good_same X a s s' :
  cs_config s' = cs_config s → cs_parser s' = cs_parser s → client_in_ s' = client_in_ s →
  reader_at s' = reader_at s → good X a s → good X a s'.
Proof. unfold good, fed_session, budget. by intros -> -> -> ->. Qed.

Lemma good_away X a s : (0 < budget s)%Z → reader_at s ≠ SrReading → good X a s.
Proof. intros Hb Hr. split; [done|]. by intros _ ?. Qed.

Lemma good_exempt X a s : (0 < budget s)%Z → a ∈ X → good X a s.
Proof. intros Hb Ha. by split. Qed.

(** *** Steps that leave the buffers of sessions alone *)

Section upto.
Context (X : gset nat).
Local Abbreviation pres := (preserves (fed_upto X)).

Lemma fed_modify f :
  (∀ w, sessions_ (f w) = sessions_ w ∧ wk_config (f w) = wk_config w) → pres (modify f).
Proof. intros Hf. apply preserves_modify. intros w. unfold fed_upto. by destruct (Hf w) as [-> ->]. Qed.

Lemma fed_emit es : pres (emit es).
Proof. by apply fed_modify. Qed.

Lemma fed_put a s : good X a s → pres (put_session a s).
Proof. intros Hs. apply preserves_modify. intros w [Hc Hw]. split; [done|]. by apply map_Forall_insert_2. Qed.

Lemma fed_get {A} a (k : ClientSession C Endpoint → ST (Worker C N Endpoint) A) :
  (∀ s, good X a s → pres (k s)) → pres (get_session a ≫= k).
Proof.
  intros Hk w x w' Hrun Hw. apply ST_bind_Some in Hrun as (s & w1 & Hs & Hrun).
  apply ST_bind_Some in Hs as (w2 & w3 & [= <- <-] & [Hs ->]%st_opt_Some).
  eapply Hk; [|done|done]. by eapply (proj2 Hw).
Qed.

Lemma fed_apply a r : good X a r.1 → pres (session_apply a r).
Proof. intros Hr. apply preserves_bind; [by apply fed_put|intros _; apply fed_emit]. Qed.

Lemma fed_do a f : (∀ s, good X a s → good X a (f s).1) → pres (session_do a f).
Proof. intros Hf. apply fed_get. intros s Hs. by apply fed_apply, Hf. Qed.

Lemma fed_detach a : pres (pool_detach a).
Proof. intros w x w' [= _ <-] Hw. exact Hw. Qed.

Lemma fed_abort a : pres (abort a).
Proof.
  apply fed_get. intros s Hs. case_decide; [apply preserves_ret|].
  apply preserves_bind; [by apply fed_put; eapply good_same|]. intros _.
  apply preserves_bind; [apply fed_detach|]. intros _. apply fed_do. intros s'. by apply good_same.
Qed.

Lemma fed_failures owners : pres (mapM onBackendFailure owners).
Proof.
  induction owners as [|a owners IH]; [apply preserves_ret|]. simpl.
  apply preserves_bind; [apply fed_abort|]. intros u. apply preserves_bind; [apply IH|intros; apply preserves_ret].
Qed.

Lemma reply_same reply s :
  let s' := (session_onBackendReply reply s).1 in
  cs_config s' = cs_config s ∧ cs_parser s' = cs_parser s ∧ client_in_ s' = client_in_ s ∧ reader_at s' = reader_at s.
Proof. unfold session_onBackendReply. by case_decide. Qed.

Lemma fed_deliver i es : pres (deliver i es).
Proof.
  induction es as [|e es IH]; [apply preserves_ret|]. simpl.
  apply preserves_bind; [apply fed_emit|]. intros _. apply preserves_bind; [|intros; exact IH].
  destruct e as [| | | | | |[b|] d|st owners|]; try apply preserves_ret.
  - apply fed_do. intros s. destruct (reply_same d s) as (? & ? & ? & ?). by apply good_same.
  - apply preserves_bind; [apply fed_failures|intros; apply preserves_ret].
Qed.

Lemma fed_channel_event i o : pres (channel_event UnpackOne i o).
Proof.
  intros w u w' Hrun Hw. apply ST_bind_Some in Hrun as (w1 & w2 & [= <- <-] & Hrun).
  apply ST_bind_Some in Hrun as (ch & w1 & [_ ->]%st_opt_Some & Hrun).
  apply ST_bind_Some in Hrun as ([ch' es] & w2 & [_ ->]%st_opt_Some & Hrun).
  apply ST_bind_Some in Hrun as (u1 & w3 & Hput & Hrun). injection Hput as _ <-.
  by eapply fed_deliver.
Qed.

Lemma fed_finish a : pres (finishLoop a).
Proof.
  apply fed_get. intros s Hs. apply preserves_bind; [by apply fed_put; eapply good_same|]. intros _.
  case_decide; [apply preserves_ret|]. apply preserves_bind; [apply fed_detach|]. intros _.
  apply preserves_bind; [apply fed_do; intros s'; destruct (CoSocket_close _); by apply good_same|]. intros _.
  apply preserves_bind; [by apply fed_modify|]. intros _. by apply fed_modify.
Qed.

Lemma fed_submit a data n : pres (submitBatch a data n).
Proof.
  unfold submitBatch. case_decide; [apply preserves_bind; [apply fed_emit|intros; apply preserves_ret]|].
  apply fed_get. intros s Hs w b w' Hrun Hw. apply ST_bind_Some in Hrun as (w1 & w2 & [= <- <-] & Hrun).
  destruct (BackendPool_submit _ _ _ _ _) as [[res pool] es].
  apply ST_bind_Some in Hrun as (u & w1 & Hput & Hrun). injection Hput as _ <-.
  refine ((_ : pres _) _ _ _ Hrun Hw).
  apply preserves_bind; [apply fed_emit|]. intros _. destruct res.
  - apply preserves_bind; [by apply fed_apply; eapply good_same|intros; apply preserves_ret].
  - apply preserves_bind; [apply fed_emit|]. intros _.
    apply preserves_bind; [apply fed_abort|intros; apply preserves_ret].
Qed.
End upto.

(** *** The reader's own steps *)

(** Code that ends the step of session [a]'s reader. *)
Definition restores {A} (a : nat) (m : ST (Worker C N Endpoint) A) : Prop :=
  ∀ w x w', m w = Some (x, w') → fed_upto {[a]} w → fed_upto ∅ w'.

Lemma fed_weaken X w : fed_upto ∅ w → fed_upto X w.
Proof.
  intros [Hc Hw]. split; [done|]. eapply map_Forall_impl; [exact Hw|]. intros b s [Hb Hs].
  split; [done|]. intros _. by apply Hs.
Qed.

Lemma restores_bind {A B} a (m : ST (Worker C N Endpoint) A) (k : A → ST (Worker C N Endpoint) B) :
  preserves (fed_upto {[a]}) m → (∀ x, restores a (k x)) → restores a (m ≫= k).
Proof.
  intros Hm Hk w b w' Hrun Hw. apply ST_bind_Some in Hrun as (x & w1 & Hrun & Hrun').
  by eapply Hk, Hm.
Qed.

Lemma restores_apply a r : good ∅ a r.1 → restores a (session_apply a r).
Proof.
  intros Hr w x w' [= _ <-] [Hc Hw]. split; [done|]. intros b s. simpl. rewrite lookup_insert_Some.
  intros [[<- <-]|[Hne Hb]]; [done|]. destruct (Hw b s Hb) as [Hbud Hs]. split; [done|]. intros _. apply Hs. set_solver.
Qed.

Lemma restores_get {A} a (k : ClientSession C Endpoint → ST (Worker C N Endpoint) A) :
  (∀ s, (0 < budget s)%Z → restores a (k s)) → restores a (get_session a ≫= k).
Proof.
  intros Hk w x w' Hrun Hw. apply ST_bind_Some in Hrun as (s & w1 & Hs & Hrun).
  apply ST_bind_Some in Hs as (w2 & w3 & [= <- <-] & [Hs ->]%st_opt_Some).
  eapply Hk; [|done|done]. by apply (proj2 Hw a s).
Qed.

Lemma restores_do a f :
  (∀ s, (0 < budget s)%Z → good ∅ a (f s).1) → restores a (session_do a f).
Proof. intros Hf. apply restores_get. intros s Hs. by apply restores_apply, Hf. Qed.

(** After [readSome] the reader looks at its buffer, or ends. *)
Lemma restores_read a st data : restores a (Worker.reader_read a st data).
Proof.
  assert (∀ pc, pc ≠ SrReading →
    restores a (session_do a (λ s : ClientSession C Endpoint, (with_reader pc s, [])))) as Hmove.
  { intros pc Hpc. apply restores_do. intros s Hs. by apply good_away. }
  apply restores_get. intros s Hs.
  apply restores_bind; [apply fed_apply, good_exempt; [done|set_solver]|]. intros _.
  case_decide; [by apply Hmove|]. destruct (Status_ok st); [by apply Hmove|].
  apply restores_bind; [|intros; by apply Hmove].
  case_decide; [|apply fed_abort]. apply fed_do. intros s' [Hs' _]. apply good_exempt; [|set_solver].
  unfold drain. by case_decide.
Qed.

Lemma await_away error s r :
  await_replies PackError 2 error s = Some r → reader_at r.1 ≠ SrReading ∧ cs_config r.1 = cs_config s.
Proof. simpl. unfold wait. repeat case_match; intros; by simplify_eq/=. Qed.

Lemma submit_input a data n w w' s :
  submitBatch a data n w = Some (true, w') → sessions_ w !! a = Some s →
  ∃ s', sessions_ w' !! a = Some s' ∧ cs_config s' = cs_config s ∧ cs_parser s' = cs_parser s ∧
    client_in_ s' = client_in_ s.
Proof.
  unfold submitBatch. case_decide; [intros [= <-] Hs; eauto|]. intros Hrun Hs.
  apply ST_bind_Some in Hrun as (s0 & w1 & Hs0 & Hrun).
  apply ST_bind_Some in Hs0 as (w2 & w3 & [= <- <-] & [Hs0 ->]%st_opt_Some). rewrite Hs in Hs0. injection Hs0 as <-.
  apply ST_bind_Some in Hrun as (w1 & w2 & [= <- <-] & Hrun).
  destruct (BackendPool_submit _ _ _ _ _) as [[res pool] es].
  apply ST_bind_Some in Hrun as (u & w1 & Hput & Hrun). injection Hput as _ <-.
  apply ST_bind_Some in Hrun as (u1 & w1 & Hput & Hrun). injection Hput as _ <-. destruct res as [i|].
  - apply ST_bind_Some in Hrun as (u2 & w1 & [= _ <-] & [= <-]). simpl. rewrite lookup_insert_eq. eauto 10.
  - apply ST_bind_Some in Hrun as (u2 & w1 & _ & Hrun). by apply ST_bind_Some in Hrun as (u3 & w2 & _ & [=]).
Qed.

(** The end of a round, with what the scan has left in the buffer. *)
Lemma rest_good a sc s view r :
  (0 < budget s)%Z → cs_parser s = sc_parser sc → client_in_ s = drop (sc_consumed sc) view →
  (sc_error sc = ""%string → sc_status sc = pOk ∨ needs UnpackOne (sc_parser sc) (drop (sc_consumed sc) view)) →
  reader_rest PackError sc s = Some r → good ∅ a r.1.
Proof.
  intros Hb Hp Hin Hneeds. unfold reader_rest. case_decide as He; [case_decide|case_decide as Hy].
  - assert (budget (drain (sc_error sc) s).1 = budget s) as Hd by (unfold drain; by case_decide).
    destruct (drain _ s). intros [= <-]. apply good_away; [|done]. simpl in *. unfold budget in *. simpl. by rewrite Hd.
  - destruct (await_replies _ _ _ _) as [[s1 es]|] eqn:Ha; [|done]. intros [= <-].
    apply await_away in Ha as [Hr Hc]. apply good_away; [|done]. simpl in *. unfold budget. by rewrite Hc.
  - intros [= <-]. by apply good_away.
  - intros [= <-]. split; [done|]. intros _ _. simpl. rewrite Hp, Hin.
    destruct Hneeds as [Hok|Hn]; [by destruct (decide (sc_error sc = ""%string)); [|tauto]|left|by right].
    rewrite <-Hin. destruct (decide (client_in_ s = [])); [done|tauto].
Qed.

Lemma restores_reader a alloc : restores a (readerLoop UnpackOne PackError rules a alloc).
Proof.
  apply restores_get. intros s Hs. case_decide; [by apply restores_apply, good_away|].
  intros w x w' Hrun Hw.
  apply ST_bind_Some in Hrun as (sc & w0 & [Hsc ->]%st_opt_Some & Hrun).
  apply ST_bind_Some in Hrun as (u & w1 & Hput & Hrun).
  pose proof (fed_put {[a]} a (with_input (sc_parser sc) (drop (sc_consumed sc) (client_in_ s)) s)) as Hp.
  eapply Hp in Hw as Hw1; [|apply good_exempt; [done|set_solver]|exact Hput]. clear Hp.
  injection Hput as _ <-. apply ST_bind_Some in Hrun as (ok & w2 & Hok & Hrun).
  assert (fed_upto {[a]} w2) as Hw2.
  { revert Hok. case_decide; [intros Hok; by eapply fed_submit|by intros [= _ <-]]. }
  destruct ok; [|eapply (restores_do a); [|exact Hrun|done]; intros s' Hb'; by apply good_away].
  assert (∃ s', sessions_ w2 !! a = Some s' ∧ cs_config s' = cs_config s ∧ cs_parser s' = sc_parser sc ∧
                client_in_ s' = drop (sc_consumed sc) (client_in_ s)) as (s' & Hs' & Hc' & Hp' & Hi').
  { revert Hok. case_decide; [intros Hok|intros [= <-]].
    - eapply submit_input in Hok as (s' & ? & ? & ? & ?); [|simpl; by rewrite lookup_insert_eq]. eauto.
    - simpl. rewrite lookup_insert_eq. eauto. }
  apply ST_bind_Some in Hrun as (s0 & w3 & Hs0 & Hrun).
  apply ST_bind_Some in Hs0 as (w4 & w5 & [= <- <-] & [Hs0 ->]%st_opt_Some). rewrite Hs' in Hs0. injection Hs0 as <-.
  apply ST_bind_Some in Hrun as (r & w3 & [Hr ->]%st_opt_Some & Hrun).
  eapply (restores_apply a r); [|exact Hrun|done].
  eapply (rest_good a sc s' (client_in_ s)); [unfold budget; by rewrite Hc'|done|done| |done].
  intros He. eapply scan_loop_needs; [exact Hsc|by left|done].
Qed.

(** *** All steps *)

Lemma writer_same s r :
  session_writerLoop PackError 2 s = Some r →
  cs_config r.1 = cs_config s ∧ cs_parser r.1 = cs_parser s ∧ client_in_ r.1 = client_in_ s ∧
  reader_at r.1 = reader_at s.
Proof. simpl. unfold wait. repeat case_match; intros; by simplify_eq/=. Qed.

Lemma fed_writer_loop a : preserves (fed_upto ∅) (Worker.writerLoop PackError a).
Proof.
  apply fed_get. intros s Hs. destruct (session_writerLoop PackError 2 s) as [r|] eqn:Hr; [|done].
  apply writer_same in Hr as (? & ? & ? & ?). intros w x w' Hrun. eapply fed_apply; [|exact Hrun].
  by eapply good_same.
Qed.

Lemma fed_open fds addrs : preserves (fed_upto ∅) (open_sessions fds addrs).
Proof.
  revert addrs. induction fds as [|fd fds IH]; intros [|a addrs]; try done; try apply preserves_ret.
  intros w x w' Hrun Hw. simpl in Hrun. apply ST_bind_Some in Hrun as (w1 & w2 & [= <- <-] & Hrun).
  apply ST_bind_Some in Hrun as (u & w1 & Hassert & Hrun).
  assert (w1 = w) as -> by (revert Hassert; unfold st_assert; case_decide; [by intros [= _ <-]|done]).
  apply ST_bind_Some in Hrun as (u1 & w1 & Happ & Hrun). eapply IH; [exact Hrun|].
  eapply fed_apply; [|exact Happ|done]. apply good_away; [apply Hw|done].
Qed.

Lemma fed_reap : preserves (fed_upto ∅) reapSessions.
Proof.
  apply preserves_modify. intros w [Hc Hw]. split; [done|]. intros a s. simpl.
  rewrite foldl_delete_lookup. case_decide; [done|]. apply Hw.
Qed.

Lemma fed_step_sessions o : preserves (fed_upto ∅) (worker_step UnpackOne PackError rules o).
Proof.
  assert (∀ a pc, pc ≠ SrReading →
    preserves (fed_upto ∅) (session_do a (λ s : ClientSession C Endpoint, (with_reader pc s, [])))) as Hmove.
  { intros a pc Hpc. apply fed_do. intros s [Hb _]. by apply good_away. }
  destruct o; cbn [worker_step].
  - intros w x w' Hrun Hw. by eapply restores_reader, fed_weaken.
  - intros w x w' Hrun Hw. by eapply restores_read, fed_weaken.
  - apply fed_get. intros s _. destruct (reader_at s); try done. apply fed_get. intros s1 [Hb _].
    destruct (await_replies _ _ _ _) as [r|] eqn:Ha; [|done]. intros w x w' Hrun.
    apply await_away in Ha as [Hr Hc]. eapply fed_apply; [|exact Hrun]. apply good_away; [|done].
    unfold budget. by rewrite Hc.
  - by apply Hmove.
  - apply preserves_bind; [by apply Hmove|intros; apply fed_finish].
  - apply fed_writer_loop.
  - apply fed_get. intros s Hs. apply preserves_bind; [by apply fed_put; eapply good_same|]. intros _. apply fed_writer_loop.
  - unfold writer_written. destruct (Status_ok st); [apply fed_do; intros s; by apply good_same|].
    apply preserves_bind; [apply fed_abort|]. intros _. apply fed_do. intros s. by apply good_same.
  - apply preserves_bind; [apply fed_do; intros s; by apply good_same|intros; apply fed_finish].
  - apply fed_channel_event.
  - apply preserves_bind; [by apply fed_modify|intros; apply fed_emit].
  - apply preserves_bind; [by apply fed_modify|intros; by apply fed_modify].
  - by apply fed_modify.
  - intros w x w' Hrun Hw. apply ST_bind_Some in Hrun as (w1 & w2 & [= <- <-] & Hrun).
    apply ST_bind_Some in Hrun as (u & w1 & Hput & Hrun). injection Hput as _ <-. by eapply fed_open.
  - apply fed_reap.
  - apply fed_modify. intros w. by case_decide.
Qed.

(** *** The channels of a worker *)

Definition fed_channels w : Prop := Forall (fed_channel UnpackOne) (chans w).

Lemma fed_detach_channel a (ch : BackendChannel C Endpoint) :
  fed_channel UnpackOne ch → fed_channel UnpackOne (BackendChannel_detachOwner a ch).1.
Proof. intros Hf. unfold BackendChannel_detachOwner. destruct (erase_owner _ _ _). by eapply fed_same. Qed.

#[local] Instance fed_framed : Framed fed_channels.
Proof.
  split; try done. intros w a Hf. unfold fed_channels, detached, chans in *. simpl.
  apply Forall_fmap. eapply Forall_impl; [exact Hf|]. intros ch. apply fed_detach_channel.
Qed.

Lemma channels_emit es : preserves fed_channels (emit es).
Proof. by apply preserves_modify. Qed.

Lemma channels_apply a r : preserves fed_channels (session_apply a r).
Proof. apply preserves_bind; [apply (preserves_put_session fed_channels)|intros; apply channels_emit]. Qed.

Lemma channels_deliver i es : preserves fed_channels (deliver i es).
Proof.
  induction es as [|e es IH]; [apply preserves_ret|]. simpl.
  apply preserves_bind; [apply channels_emit|]. intros _. apply preserves_bind; [|intros; exact IH].
  destruct e as [| | | | | |[b|] d|st owners|]; try apply preserves_ret.
  - apply preserves_bind; [apply (preserves_get_session fed_channels)|intros; apply channels_apply].
  - apply preserves_bind; [apply (preserves_failures fed_channels)|intros; apply preserves_ret].
Qed.

Lemma pool_submit_fed (pool : BackendPool C Endpoint) owner cur data n :
  Forall (fed_channel UnpackOne) (channels_ pool) →
  Forall (fed_channel UnpackOne) (channels_ (BackendPool_submit owner cur data n pool).1.2).
Proof.
  intros Hf. unfold BackendPool_submit. destruct (select pool cur) as [i|]; [|done].
  destruct (channels_ pool !! i) as [ch|] eqn:Hi; [|done].
  assert (fed_channel UnpackOne ch) as Hch by (by eapply Forall_lookup_1).
  unfold BackendChannel_submit. case_decide; simpl; apply Forall_insert; try done. by eapply fed_same.
Qed.

Lemma channels_submit a data n : preserves fed_channels (submitBatch a data n).
Proof.
  unfold submitBatch. case_decide; [apply preserves_bind; [apply channels_emit|intros; apply preserves_ret]|].
  apply preserves_bind; [apply (preserves_get_session fed_channels)|]. intros s w b w' Hrun Hw.
  apply ST_bind_Some in Hrun as (w1 & w2 & [= <- <-] & Hrun).
  pose proof (pool_submit_fed (backend_pool_ w) (Some a) (current_backend_ s) data n Hw) as Hp.
  destruct (BackendPool_submit _ _ _ _ _) as [[res pool] es].
  apply ST_bind_Some in Hrun as (u & w1 & Hput & Hrun). injection Hput as _ <-.
  refine ((_ : preserves fed_channels _) _ _ _ Hrun Hp).
  apply preserves_bind; [apply channels_emit|]. intros _. destruct res.
  - apply preserves_bind; [apply channels_apply|intros; apply preserves_ret].
  - apply preserves_bind; [apply channels_emit|]. intros _.
    apply preserves_bind; [apply (preserves_abort fed_channels)|intros; apply preserves_ret].
Qed.

Lemma channels_event i o w x w' :
  Forall channel_inv (chans w) → channel_event UnpackOne i o w = Some (x, w') → fed_channels w → fed_channels w'.
Proof.
  intros Hinv Hrun Hw. apply ST_bind_Some in Hrun as (w1 & w2 & [= <- <-] & Hrun).
  apply ST_bind_Some in Hrun as (ch & w1 & [Hi ->]%st_opt_Some & Hrun).
  apply ST_bind_Some in Hrun as ([ch' es] & w2 & [Hstep ->]%st_opt_Some & Hrun).
  apply ST_bind_Some in Hrun as (u1 & w3 & Hput & Hrun). injection Hput as _ <-.
  eapply channels_deliver; [exact Hrun|]. apply Forall_insert; [done|].
  eapply (fed_step UnpackOne o ch (ch', es)); [|done|]; by eapply Forall_lookup_1.
Qed.

Lemma channels_open fds addrs : preserves fed_channels (open_sessions fds addrs).
Proof.
  revert addrs. induction fds as [|fd fds IH]; intros [|a addrs]; try done; try apply preserves_ret.
  apply preserves_bind; [apply preserves_get|]. intros w.
  apply preserves_bind; [unfold st_assert; case_decide; [apply preserves_ret|done]|]. intros _.
  apply preserves_bind; [apply channels_apply|intros; apply IH].
Qed.

Lemma fed_step_channels o w x w' :
  Forall channel_inv (chans w) → worker_step UnpackOne PackError rules o w = Some (x, w') →
  fed_channels w → fed_channels w'.
Proof.
  intros Hinv Hstep Hw.
  destruct (special_em o) as [Ho|Ho]; [|by eapply (preserves_step UnpackOne PackError rules fed_channels)].
  destruct o; try (by destruct Ho); cbn [worker_step] in Hstep.
  - eapply (preserves_reader UnpackOne PackError rules fed_channels); [done|done|]. intros. by eapply channels_submit.
  - by eapply channels_event.
  - by injection Hstep as _ <-.
  - by injection Hstep as _ <-.
  - apply ST_bind_Some in Hstep as (w1 & w2 & [= <- <-] & Hrun).
    apply ST_bind_Some in Hrun as (u & w1 & Hput & Hrun). injection Hput as _ <-. by eapply channels_open.
Qed.

(** ** The invariant *)

Lemma reachable_fed config w :
  config_fits config → (0 < max_pipeline_commands_per_read config)%Z →
  worker_reachable UnpackOne PackError rules config w → fed_upto ∅ w ∧ fed_channels w.
Proof.
  intros Hfits Hpos. induction 1 as [|w o w' Hr [IHs IHc] Hen Hstep].
  - split; [by split|]. unfold fed_channels, chans. simpl. apply Forall_fmap, Forall_replicate.
    by apply fed_empty.
  - pose proof (worker_inv_reachable UnpackOne PackError rules config w Hfits Hr) as Hinv.
    split; [by eapply fed_step_sessions|]. eapply fed_step_channels; [apply Hinv|done|done].
Qed.

(** C20: Nobody waits for bytes that are already there.  In every reachable state of
    a worker with a positive parsing budget, a session whose reader waits for its
    client and a channel whose reader waits for Redis have nothing buffered that
    begins with a complete value; so no request that has arrived waits for the
    client to send more, and no reply for Redis to send more. *)
Theorem input_never_waits config w :
  config_fits config → (0 < max_pipeline_commands_per_read config)%Z →
  worker_reachable UnpackOne PackError rules config w →
  (∀ a s, sessions_ w !! a = Some s → reader_at s = SrReading →
     ¬ complete UnpackOne (limits_ (cs_parser s)) (client_in_ s)) ∧
  (∀ i ch, channels_ (backend_pool_ w) !! i = Some ch → reader_pc ch = ReaderReading →
     ¬ complete UnpackOne (limits_ (reply_parser_ ch)) (redis_in_ ch)).
Proof.
  intros Hfits Hpos Hr. destruct (reachable_fed config w Hfits Hpos Hr) as [[_ Hs] Hc]. split.
  - intros a s Ha Hread. destruct (Hs a s Ha) as [_ Hfed]. by apply idle_incomplete, Hfed.
  - intros i ch Hi Hread. eapply Forall_lookup_1 in Hc; [|exact Hi].
    apply (idle_incomplete UnpackOne), (fc_reader _ _ Hc). by left.
Qed.
End sessions.

(** ** Progress

    The other half: with memory for its arena, a reader that finds a complete value
    in its buffer takes it out with its next step. *)

Section progress.
Context (UnpackOne : bytes → nat → RespLimits → RespResult) {uo : UnpackOneLaws UnpackOne}.

Lemma complete_unpack alloc p bs :
  (∀ n, alloc n = true) → (Z.of_nat (length bs) <= max_frame_bytes_ p)%Z → complete UnpackOne (limits_ p) bs →
  ∃ r p', unpack UnpackOne alloc p bs = Some (r, p') ∧ rr_status r = rOk.
Proof.
  intros Halloc Hlen [n Hok]. destruct (unpack_run_ref UnpackOne alloc p bs) as [s Hu]; [by auto|].
  eexists _, _. split; [exact Hu|]. unfold unpack_ref. rewrite substr0_all by done.
  pose proof (uo_extend (take n bs) (drop n bs) _ _ Hok) as He. rewrite take_drop in He. rewrite He.
  rewrite decide_False by (by rewrite Hok). unfold unpack_finish. rewrite decide_False; [done|].
  rewrite Hok. by intros [? _].
Qed.

(** A complete reply is handed to the oldest request. *)
Theorem complete_reply_dispatched {C} {cond : CoCond C} {order : SetOrder} {Endpoint}
    alloc (ch : BackendChannel C Endpoint) :
  (∀ n, alloc n = true) → isHealthy ch = true →
  (Z.of_nat (length (redis_in_ ch)) <= max_frame_bytes_ (reply_parser_ ch))%Z →
  complete UnpackOne (limits_ (reply_parser_ ch)) (redis_in_ ch) →
  ∃ n p, 3 ≤ n ≤ length (redis_in_ ch) ∧
    reader_parse UnpackOne alloc ch =
      Some (dispatchReply (take n (redis_in_ ch)) (set_input p (drop n (redis_in_ ch)) ch)).
Proof.
  intros Halloc Hh Hlen Hc. destruct (complete_unpack alloc _ _ Halloc Hlen Hc) as (r & p & Hu & Hok).
  destruct (unpack_ok UnpackOne alloc (reply_parser_ ch) _ r p ltac:(lia) Hu Hok) as (Hn & _ & _).
  exists (rr_consumed r), p. split; [done|]. unfold reader_parse, next_bytes. rewrite Hh, Hu. simpl.
  by rewrite decide_True.
Qed.

Lemma scan_loop_parsed rules fuel alloc max view sc sc' :
  scan_loop UnpackOne rules fuel alloc max view sc = Some sc' → (sc_parsed sc <= sc_parsed sc')%Z.
Proof.
  revert sc. induction fuel as [|fuel IH]; intros sc; simpl; case_decide; try done; try (by intros [= <-]).
  destruct (peek_bytes _ _ _ _ _) as [[[p ps] info]|]; [|done]. simpl.
  destruct ps; [destruct info as [info|]|..]; try (by intros [= <-]). destruct (Status_ok _); [|by intros [= <-]].
  intros Hs%IH. simpl in Hs. lia.
Qed.

(** A refusal has a message. *)
Lemma refusal_message rules command argc :
  Status_ok (validate rules command argc) = false → message_ (validate rules command argc) ≠ ""%string.
Proof. unfold validate. by repeat case_match. Qed.

(** A complete request is accepted, or it is answered with an error. *)
Theorem complete_request_taken {C} {cond : CoCond C} {Endpoint} rules alloc (s : ClientSession C Endpoint) sc :
  (∀ n, alloc n = true) → (0 < max_pipeline_commands_per_read (cs_config s))%Z →
  (Z.of_nat (length (client_in_ s)) <= max_frame_bytes_ (cs_parser s))%Z →
  complete UnpackOne (limits_ (cs_parser s)) (client_in_ s) →
  scan UnpackOne rules alloc s = Some sc → (0 < sc_parsed sc)%Z ∨ sc_error sc ≠ ""%string.
Proof.
  intros Halloc Hb Hlen Hc Hscan.
  destruct (complete_unpack alloc _ _ Halloc Hlen Hc) as (r & p & Hu & Hok).
  destruct (unpack_ok UnpackOne alloc (cs_parser s) _ r p ltac:(lia) Hu Hok) as (Hn & _ & v & Hv & Hwf).
  assert (∃ st info, peek_bytes UnpackOne alloc (cs_parser s) (client_in_ s) 0 = Some (p, st, info) ∧
            (st = pOk ∧ is_Some info ∨ st = pError)) as (st & info & Hpeek & Hst).
  { unfold peek_bytes. rewrite decide_False by lia. rewrite drop_0, Hu. simpl. rewrite decide_True, Hv by done. simpl.
    destruct (extract_total v Hwf) as [->|(els & command & _ & _ & _ & _ & ->)]; simpl; eauto 10. }
  unfold scan in Hscan. cbn [scan_loop] in Hscan. rewrite decide_True in Hscan by done.
  cbn [sc_parser sc_consumed] in Hscan. rewrite Hpeek in Hscan. simpl in Hscan.
  destruct Hst as [[-> [i ->]]| ->]; [|injection Hscan as <-; by right].
  destruct (Status_ok _) eqn:Hval.
  - left. apply scan_loop_parsed in Hscan. simpl in Hscan. lia.
  - right. injection Hscan as <-. by apply refusal_message.
Qed.
End progress.

(** After the first command and half of a second one the session waits for the rest. *)
Definition demo_partial_ops : list (WorkerOp unit) :=
  take 14 demo_worker_ops ++ [WoRead 0 Status_Ok (ping_frame ++ take 5 ping_frame); WoReader 0 (λ _, true)].
Definition demo_partial : Worker demo_cond bool unit :=
  default demo_worker_start (worker_run demo_unpack demo_pack_error Default demo_partial_ops demo_worker_start).
Definition demo_partial_session : ClientSession demo_cond unit :=
  default (ClientSession_new 0 demo_worker_config) (sessions_ demo_partial !! 0).

Lemma demo_partial_reachable :
  worker_reachable demo_unpack demo_pack_error Default demo_worker_config demo_partial.
Proof.
  unfold demo_partial.
  destruct (worker_run _ _ _ demo_partial_ops demo_worker_start) as [w|] eqn:Hrun; simpl.
  - by eapply worker_run_reachable; [apply wr_init|].
  - apply wr_init.
Qed.

Lemma input_never_waits_witness :
  client_in_ demo_partial_session = take 5 ping_frame ∧
  ¬ complete demo_unpack (limits_ (cs_parser demo_partial_session)) (client_in_ demo_partial_session).
Proof.
  split; [vm_compute; reflexivity|].
  refine (proj1 (input_never_waits demo_unpack demo_pack_error Default demo_worker_config demo_partial
                   demo_fits _ demo_partial_reachable) 0 demo_partial_session _ _).
  - vm_compute. reflexivity.
  - vm_compute. reflexivity.
  - vm_compute. reflexivity.
Defined.

(** A whole frame counts as complete. *)
Example ping_complete : complete demo_unpack (mkRespLimits 1024 1024 8) (ping_frame ++ ping_frame).
Proof. exists 14. vm_compute. reflexivity. Qed.
