(* ===== verification/ProxyServer.v ===== *)
(** * ProxyServer: the acceptor and its workers
    (include/redis_proxy/proxy_server.h, src/proxy_server.cpp, src/main.cpp)

    The threads of the process: one that accepts clients and hands them to the
    workers in turn, and the workers.  A step is one of the acceptor, between two
    points where other threads may run, or one of a worker. *)
From S2P Require Import Prelude Status CommandRules RespParser CoSocket CoroutineSignal Config.
From S2P Require Import BackendChannel BackendPool ClientSession Worker ChannelProps WorkerInv.
From S2P Require Import WorkerSteps WorkerProps WorkerDemo.

(** Where the acceptor is: in [co_accept], between the unlock and the notification
    of [dispatchFd], in [co_poll]. *)
Inductive AcceptPc := AcAccept | AcNotify | AcPoll.

#[global] Instance AcceptPc_eq_dec : EqDecision AcceptPc.
Proof. solve_decision. Defined.

Section server.
Context {C N : Type} {cond : CoCond C} {notifier : FdNotifier N} {order : SetOrder}.
Context {Endpoint : Type}.

Record ProxyServer := mkProxyServer {
  ps_config : Config Endpoint;
  rules_ : CommandRules;
  listen_fd_ : Z;
  workers_ : list (Worker C N Endpoint);
  next_worker : nat;
  accept_pc : AcceptPc;
  accepted : list Z       (* the descriptors accepted so far *)
}.

(** The constructor. *)
Definition ProxyServer_new (config : Config Endpoint) : ProxyServer :=
  mkProxyServer config Default (-1) [] 0 AcAccept [].

(** [run] up to the acceptor; [listen_fd] is what [CreateTcpListenSocket] returns.
    A worker is shown as it is once its thread has started its pool; [dispatchFd]
    works on other members, so it does not matter which comes first. *)
Definition ProxyServer_run (listen_fd : Z) (s : ProxyServer) : Z + ProxyServer :=
  if decide (listen_fd < 0)%Z then inl 1%Z
  else inr (mkProxyServer (ps_config s) (rules_ s) listen_fd
              (workers_ s ++ ((λ _, Worker_new (ps_config s)) <$> seqZ 0 (workers (ps_config s))))
              0 AcAccept []).

(** [main]: an exit code, or the running proxy. *)
Definition main (Endpoint_parse : bytes → Endpoint → bool * Endpoint) (files : bytes → option bytes)
    (mk : string → Z → Endpoint) (listen : Endpoint → Z) (argv : list bytes) : Z + ProxyServer :=
  let '(ok, config) := LoadConfigFromArgs Endpoint_parse files mk argv (Config_default mk) in
  if negb ok then inl 2%Z else ProxyServer_run (listen (Config.listen config)) (ProxyServer_new config).

Definition set_acceptor (next : nat) (pc : AcceptPc) (fds : list Z) (s : ProxyServer) : ProxyServer :=
  mkProxyServer (ps_config s) (rules_ s) (listen_fd_ s) (workers_ s) next pc fds.

(** A step inside worker [i]; an index out of range is undefined. *)
Definition on_worker (i : nat) (m : ST (Worker C N Endpoint) unit) (s : ProxyServer) : option ProxyServer :=
  w ← workers_ s !! i;
  '(_, w) ← m w;
  Some (mkProxyServer (ps_config s) (rules_ s) (listen_fd_ s) (<[i := w]> (workers_ s))
          (next_worker s) (accept_pc s) (accepted s)).

(** [co_accept] returns [fd]. *)
Definition accept_return (fd : Z) (s : ProxyServer) : option ProxyServer :=
  if decide (fd < 0)%Z then Some (set_acceptor (next_worker s) AcPoll (accepted s) s)
  else s ← on_worker (next_worker s) (dispatch_push fd) s;
       Some (set_acceptor (next_worker s) AcNotify (accepted s ++ [fd]) s).

(** The notification of [dispatchFd], and the end of the loop body.  A remainder
    by zero is undefined. *)
Definition accept_notify (s : ProxyServer) : option ProxyServer :=
  s ← on_worker (next_worker s) dispatch_notify s;
  if decide (workers_ s = []) then None
  else Some (set_acceptor ((next_worker s + 1) mod length (workers_ s)) AcAccept (accepted s) s).

Context (UnpackOne : bytes → nat → RespLimits → RespResult).
Context (PackError : string → bytes).

Inductive ServerOp :=
  | SoAccept (fd : Z)
  | SoNotify
  | SoPolled
  | SoWorker (i : nat) (o : WorkerOp Endpoint).

Definition server_step (o : ServerOp) (s : ProxyServer) : option ProxyServer :=
  match o with
  | SoAccept fd => accept_return fd s
  | SoNotify => accept_notify s
  | SoPolled => Some (set_acceptor (next_worker s) AcAccept (accepted s) s)
  | SoWorker i o => on_worker i (worker_step UnpackOne PackError (rules_ s) o) s
  end.

(** Only the acceptor dispatches. *)
Definition server_enabled (o : ServerOp) (s : ProxyServer) : Prop :=
  match o with
  | SoAccept _ => accept_pc s = AcAccept
  | SoNotify => accept_pc s = AcNotify
  | SoPolled => accept_pc s = AcPoll
  | SoWorker i o =>
      ¬ dispatches o ∧ match workers_ s !! i with Some w => worker_enabled o w | None => False end
  end.

#[global] Instance server_enabled_dec o s : Decision (server_enabled o s).
Proof.
  destruct o as [fd| | |i o]; simpl; [apply _..|].
  apply and_dec; [destruct o; simpl; apply _|]. destruct (workers_ s !! i); apply _.
Defined.

(** A run that only takes enabled steps. *)
Fixpoint server_run (ops : list ServerOp) (s : ProxyServer) : option ProxyServer :=
  match ops with
  | [] => Some s
  | o :: ops => if decide (server_enabled o s) then s ← server_step o s; server_run ops s else None
  end.

Inductive server_reachable (s0 : ProxyServer) : ProxyServer → Prop :=
  | sr_init : server_reachable s0 s0
  | sr_step s o s' :
      server_reachable s0 s → server_enabled o s → server_step o s = Some s' → server_reachable s0 s'.

Lemma server_run_reachable s0 ops s s' :
  server_reachable s0 s → server_run ops s = Some s' → server_reachable s0 s'.
Proof.
  revert s. induction ops as [|o ops IH]; intros s Hr; simpl; [by intros [= <-]|].
  destruct (decide (server_enabled o s)); [|done].
  destruct (server_step o s) as [sn|] eqn:Hstep; simpl; [|done]. apply IH. by eapply sr_step.
Qed.
End server.
Arguments ProxyServer : clear implicits.
Arguments ServerOp : clear implicits.

(** The descriptors at the positions [i], [i + n], [i + 2n], ... *)
Definition round_robin (n i : nat) (fds : list Z) : list Z :=
  omap id (imap (λ k fd, if decide (k mod n = i) then Some fd else None) fds).

Lemma round_robin_snoc n i fds fd :
  round_robin n i (fds ++ [fd]) =
  round_robin n i fds ++ (if decide (length fds mod n = i) then [fd] else []).
Proof.
  unfold round_robin. rewrite imap_app, omap_app. simpl. rewrite Nat.add_0_r. by case_decide.
Qed.

(** ** The invariant *)

Section invariant.
Context {C N : Type} {cond : CoCond C} {laws : CoCondLaws C}.
Context {notifier : FdNotifier N} {nlaws : FdNotifierLaws N} {order : SetOrder} {Endpoint : Type}.
Context (UnpackOne : bytes → nat → RespLimits → RespResult) {uo : UnpackOneLaws UnpackOne}.
Context (PackError : string → bytes).
Implicit Types (s : ProxyServer C N Endpoint) (w : Worker C N Endpoint).

(** The number of descriptors whose dispatch is complete. *)
Definition handed_over s : nat :=
  if decide (accept_pc s = AcNotify) then pred (length (accepted s)) else length (accepted s).

(** Worker [i], as the acceptor knows it. *)
Record dispatch_ok s (i : nat) w : Prop := {
  do_reachable : worker_reachable UnpackOne PackError (rules_ s) (ps_config s) w;
  do_share : dispatched (trace w) = round_robin (length (workers_ s)) i (accepted s);
  do_notify : accept_pc s = AcNotify → i = next_worker s → 0 < dispatching w
}.

Record server_inv s : Prop := {
  si_workers : workers_ s ≠ [];
  si_next : next_worker s = handed_over s mod length (workers_ s);
  si_started : accept_pc s = AcNotify → accepted s ≠ [];
  si_each : ∀ i w, workers_ s !! i = Some w → dispatch_ok s i w
}.

Lemma si_range s : server_inv s → is_Some (workers_ s !! next_worker s).
Proof.
  intros [H1 H2 _ _]. apply lookup_lt_is_Some. rewrite H2. apply Nat.mod_upper_bound.
  by destruct (workers_ s).
Qed.

Lemma on_worker_run i w w' (m : ST (Worker C N Endpoint) unit) s :
  workers_ s !! i = Some w → m w = Some (tt, w') →
  on_worker i m s = Some (mkProxyServer (ps_config s) (rules_ s) (listen_fd_ s) (<[i := w']> (workers_ s))
                            (next_worker s) (accept_pc s) (accepted s)).
Proof. intros Hw Hm. unfold on_worker. by rewrite Hw; simpl; rewrite Hm. Qed.

Lemma lookup_worker (l : list (Worker C N Endpoint)) i j w' wj :
  <[i := w']> l !! j = Some wj → (i = j ∧ wj = w') ∨ (i ≠ j ∧ l !! j = Some wj).
Proof.
  destruct (decide (i = j)) as [<-|Hne].
  - intros Hj. left. split; [done|]. by apply list_lookup_insert_Some in Hj; naive_solver.
  - rewrite list_lookup_insert_ne by done. eauto.
Qed.

Lemma insert_not_nil (l : list (Worker C N Endpoint)) i w : l ≠ [] → <[i := w]> l ≠ [].
Proof. intros Hl He. apply Hl, length_zero_iff_nil. by rewrite <-(length_insert l i w), He. Qed.

Lemma accept_ok fd s :
  server_inv s → accept_pc s = AcAccept → ∃ s', accept_return fd s = Some s' ∧ server_inv s'.
Proof.
  intros Hinv Hpc. destruct (si_range s Hinv) as [w Hw]. destruct Hinv as [H1 H2 H3 H4].
  unfold handed_over in H2. rewrite decide_False in H2 by congruence.
  unfold accept_return. case_decide as Hfd; [eexists; split; [done|]|].
  { split; simpl; [done|by unfold handed_over|done|].
    intros i wi Hi. destruct (H4 i wi Hi). by split. }
  rewrite (on_worker_run _ w _ _ s Hw eq_refl). eexists. split; [done|].
  split; simpl.
  - by apply insert_not_nil.
  - unfold handed_over. simpl. rewrite length_app, length_insert. simpl. by rewrite Nat.add_1_r.
  - by intros _ [_ ?]%app_eq_nil.
  - intros i wi Hi. apply lookup_worker in Hi as [[<- ->]|[Hne Hi]].
    + destruct (H4 _ _ Hw) as [R1 R2 R3]. split; simpl; [|rewrite length_insert|lia].
      * by eapply (wr_step _ _ _ _ _ (WoDispatch fd)).
      * by rewrite round_robin_snoc, <-H2, decide_True, dispatched_app, R2 by done.
    + destruct (H4 _ _ Hi) as [R1 R2 R3]. split; simpl; [done|rewrite length_insert|by intros _ ->].
      by rewrite round_robin_snoc, <-H2, decide_False, app_nil_r, R2 by done.
Qed.

(** Any other step of a worker. *)
Lemma worker_ok i o w w' s :
  server_inv s → workers_ s !! i = Some w → ¬ dispatches o → worker_enabled o w →
  worker_step UnpackOne PackError (rules_ s) o w = Some (tt, w') →
  ∃ s', server_step UnpackOne PackError (SoWorker i o) s = Some s' ∧ server_inv s'.
Proof.
  intros [H1 H2 H3 H4] Hw Ho Hen Hstep.
  destruct (step_dispatched _ _ _ _ _ _ _ Ho Hstep) as [Hd Hn]. cbn [server_step].
  rewrite (on_worker_run _ w w' _ s Hw Hstep). eexists. split; [done|].
  split; simpl; [by apply insert_not_nil|by rewrite length_insert|done|].
  intros j wj Hj. apply lookup_worker in Hj as [[<- ->]|[Hne Hj]].
  - destruct (H4 _ _ Hw) as [R1 R2 R3]. split; simpl; [by eapply wr_step|by rewrite length_insert, Hd|].
    by rewrite Hn.
  - destruct (H4 _ _ Hj) as [R1 R2 R3]. split; simpl; [done|by rewrite length_insert|done].
Qed.

Lemma notify_ok s :
  server_inv s → accept_pc s = AcNotify → ∃ s', accept_notify s = Some s' ∧ server_inv s'.
Proof.
  intros Hinv Hpc. destruct (si_range s Hinv) as [w Hw]. destruct Hinv as [H1 H2 H3 H4].
  unfold handed_over in H2. rewrite decide_True in H2 by done.
  unfold accept_notify. rewrite (on_worker_run _ w _ _ s Hw eq_refl). simpl.
  rewrite decide_False by (by apply insert_not_nil). rewrite length_insert. eexists. split; [done|].
  split; simpl.
  - by apply insert_not_nil.
  - unfold handed_over. simpl. rewrite length_insert.
    rewrite H2, Nat.Div0.add_mod_idemp_l, Nat.add_1_r, Nat.succ_pred; [done|].
    by rewrite length_zero_iff_nil; apply H3.
  - done.
  - intros i wi Hi. apply lookup_worker in Hi as [[<- ->]|[Hne Hi]].
    + destruct (H4 _ _ Hw) as [R1 R2 R3]. split; simpl; [|by rewrite length_insert|done].
      eapply (wr_step _ _ _ _ _ WoDispatchNotify); [done| |done]. by apply R3.
    + destruct (H4 _ _ Hi) as [R1 R2 R3]. split; simpl; [done|by rewrite length_insert|done].
Qed.

Lemma server_step_ok o s :
  config_fits (ps_config s) → server_inv s → server_enabled o s →
  ∃ s', server_step UnpackOne PackError o s = Some s' ∧ server_inv s'.
Proof.
  intros Hc Hinv Hen. destruct o as [fd| | |i o]; simpl in Hen.
  - by apply accept_ok.
  - by apply notify_ok.
  - eexists. split; [done|]. destruct Hinv as [H1 H2 H3 H4]. split; simpl; [done| |done|].
    + rewrite H2. unfold handed_over. simpl. by rewrite Hen.
    + intros i w Hi. destruct (H4 i w Hi). by split.
  - destruct Hen as [Ho Hen]. destruct (workers_ s !! i) as [w|] eqn:Hw; [|done].
    pose proof (worker_inv_reachable _ _ _ _ _ Hc (do_reachable _ _ _ (si_each _ Hinv _ _ Hw))) as Hi.
    destruct (wp_run _ _ _ (worker_step_ok UnpackOne PackError (rules_ s) o w Hi Hen)) as ([] & w' & Hs & _).
    by eapply worker_ok.
Qed.
End invariant.

(** ** Claims *)

Section claims.
Context {C N : Type} {cond : CoCond C} {laws : CoCondLaws C}.
Context {notifier : FdNotifier N} {nlaws : FdNotifierLaws N} {order : SetOrder} {Endpoint : Type}.
Context (UnpackOne : bytes → nat → RespLimits → RespResult) {uo : UnpackOneLaws UnpackOne}.
Context (PackError : string → bytes).
Context (Endpoint_parse : bytes → Endpoint → bool * Endpoint) (files : bytes → option bytes).
Context (mk : string → Z → Endpoint) (listen : Endpoint → Z).
Implicit Types (s : ProxyServer C N Endpoint) (w : Worker C N Endpoint).

Local Abbreviation main_of := (main Endpoint_parse files mk listen).

Lemma main_running argv s0 :
  main_of argv = inr s0 →
  config_bounded (ps_config s0) ∧ server_inv UnpackOne PackError s0 ∧
  length (workers_ s0) = Z.to_nat (workers (ps_config s0)).
Proof.
  unfold main. destruct (LoadConfigFromArgs _ _ _ _ _) as [ok config] eqn:Hl.
  destruct ok; [|done]. unfold ProxyServer_run. simpl. case_decide; [done|]. intros [= <-].
  apply load_bounded in Hl. simpl. split; [done|]. rewrite length_fmap, length_seqZ. split; [|done].
  pose proof Hl as [Hw _]. split; cbn [workers_ next_worker accept_pc accepted].
  - intros He%(f_equal length). rewrite length_fmap, length_seqZ in He. simpl in He. lia.
  - symmetry. apply Nat.Div0.mod_0_l.
  - done.
  - intros i w (? & -> & _)%list_lookup_fmap_Some. split; simpl; [apply wr_init|done..].
Qed.

Lemma reachable_server s0 s :
  config_fits (ps_config s0) → server_inv UnpackOne PackError s0 →
  server_reachable UnpackOne PackError s0 s →
  server_inv UnpackOne PackError s ∧ ps_config s = ps_config s0 ∧
  length (workers_ s) = length (workers_ s0).
Proof.
  intros Hc H0. induction 1 as [|s o s' _ IH Hen Hstep]; [done|]. destruct IH as (Hinv & Hcfg & Hlen).
  destruct (server_step_ok UnpackOne PackError o s) as (s1 & Hs1 & Hinv1); [by rewrite Hcfg|done..|].
  assert (s1 = s') as -> by congruence. split; [done|].
  assert (∀ i m s1 s2, on_worker i m s1 = Some s2 →
            ps_config s2 = ps_config s1 ∧ length (workers_ s2) = length (workers_ s1)) as Hon.
  { clear. intros i m s1 s2. unfold on_worker. destruct (workers_ s1 !! i) as [w|]; simpl; [|done].
    destruct (m w) as [[u w']|]; simpl; [|done]. intros [= <-]. simpl. by rewrite length_insert. }
  rewrite <-Hcfg, <-Hlen. destruct o as [fd| | |i o]; simpl in Hstep; [| |by simplify_eq|by eapply Hon].
  - unfold accept_return in Hstep. case_decide; [by simplify_eq|].
    destruct (on_worker _ _ s) as [s2|] eqn:Hs2; simplify_eq/=. by eapply Hon.
  - unfold accept_notify in Hstep. destruct (on_worker _ _ s) as [s2|] eqn:Hs2; simplify_eq/=.
    case_decide; simplify_eq/=. by eapply Hon.
Qed.

Lemma fits_of_bounded (cfg : Config Endpoint) :
  config_bounded cfg → (max_pipeline_commands_per_read cfg < 2 ^ 32)%Z → config_fits cfg.
Proof. intros (_ & _ & Hf & _) Hm. inversion Hf. by split; [lia|]. Qed.

(** C8: The proxy never goes wrong.  Whatever the arguments and the
    configuration file, if [main] starts serving (with batches that fit 32
    bits), then in every state the process reaches, however its threads
    interleave, each step that the acceptor or a worker can take is carried
    out; and every worker is in a state that a worker on its own reaches. *)
Theorem proxy_never_goes_wrong argv s0 s o :
  main_of argv = inr s0 → (max_pipeline_commands_per_read (ps_config s0) < 2 ^ 32)%Z →
  server_reachable UnpackOne PackError s0 s → server_enabled o s →
  (∃ s', server_step UnpackOne PackError o s = Some s') ∧
  ∀ i w, workers_ s !! i = Some w →
    worker_reachable UnpackOne PackError (rules_ s) (ps_config s0) w.
Proof.
  intros (Hb & H0 & _)%main_running Hm Hr Hen. pose proof (fits_of_bounded _ Hb Hm) as Hc.
  destruct (reachable_server s0 s Hc H0 Hr) as (Hinv & Hcfg & _). rewrite <-Hcfg in *. split.
  - destruct (server_step_ok UnpackOne PackError o s Hc Hinv Hen) as (s' & ? & _). eauto.
  - intros i w Hw. apply (do_reachable _ _ _ _ _ (si_each _ _ _ Hinv i w Hw)).
Qed.

(** C24: Clients are shared out evenly and none is lost.  There are as many
    workers as configured, worker [i] of [n] is given exactly the accepted
    descriptors number [i], [i + n], [i + 2n], ..., and it has opened a session
    for each of them, in order, except for those still in its queue. *)
Theorem clients_round_robin argv s0 s i w :
  main_of argv = inr s0 → (max_pipeline_commands_per_read (ps_config s0) < 2 ^ 32)%Z →
  server_reachable UnpackOne PackError s0 s → workers_ s !! i = Some w →
  Z.of_nat (length (workers_ s)) = workers (ps_config s0) ∧
  opened (trace w) ++ pending_fds_ w = round_robin (length (workers_ s)) i (accepted s).
Proof.
  intros (Hb & H0 & Hlen)%main_running Hm Hr Hw. pose proof (fits_of_bounded _ Hb Hm) as Hc.
  destruct (reachable_server s0 s Hc H0 Hr) as (Hinv & Hcfg & Hl).
  destruct (si_each _ _ _ Hinv i w Hw) as [R1 R2 _]. split.
  - rewrite Hl, Hlen. destruct Hb as [? _]. lia.
  - rewrite <-R2. symmetry. by eapply reachable_fds.
Qed.
End claims.

(** ** A sample run: two workers, three clients *)

Definition demo_main : Z + ProxyServer demo_cond bool (bytes * Z) :=
  main demo_endpoint_parse demo_files (λ s p, (str s, p)) (λ _, 3%Z)
    [str "redis_proxy"; str "--workers"; str "2"].

Definition demo_server_start : ProxyServer demo_cond bool (bytes * Z) :=
  match demo_main with inr s => s | inl _ => ProxyServer_new (Config_default (λ s p, (str s, p))) end.

Definition demo_server_ops : list (ServerOp (bytes * Z)) :=
  [SoAccept 10; SoWorker 0 WoCheck; SoNotify; SoAccept (-1); SoPolled; SoAccept 11; SoNotify; SoAccept 12].

Definition demo_server : ProxyServer demo_cond bool (bytes * Z) :=
  default demo_server_start (server_run demo_unpack demo_pack_error demo_server_ops demo_server_start).

Lemma demo_server_reachable :
  server_reachable demo_unpack demo_pack_error demo_server_start demo_server.
Proof.
  unfold demo_server.
  destruct (server_run _ _ demo_server_ops demo_server_start) as [s|] eqn:Hrun; simpl; [|apply sr_init].
  by eapply server_run_reachable; [apply sr_init|].
Qed.

Lemma demo_main_running : demo_main = inr demo_server_start.
Proof.
  assert ((match demo_main with inr _ => true | inl _ => false end) = true) as Hm
    by (vm_compute; reflexivity).
  unfold demo_server_start. by destruct demo_main.
Qed.

Lemma proxy_never_goes_wrong_witness :
  ∃ s', server_step demo_unpack demo_pack_error SoNotify demo_server = Some s'.
Proof.
  refine (proj1 (proxy_never_goes_wrong demo_unpack demo_pack_error demo_endpoint_parse demo_files
    (λ s p, (str s, p)) (λ _, 3%Z) [str "redis_proxy"; str "--workers"; str "2"]
    demo_server_start demo_server SoNotify demo_main_running _ demo_server_reachable _));
    vm_compute; reflexivity.
Defined.

Lemma clients_round_robin_witness :
  ∃ w, workers_ demo_server !! 0 = Some w ∧ pending_fds_ w = [10%Z; 12%Z] ∧
    opened (trace w) ++ pending_fds_ w = round_robin (length (workers_ demo_server)) 0 (accepted demo_server).
Proof.
  assert (pending_fds_ <$> workers_ demo_server !! 0 = Some [10%Z; 12%Z]) as Hp
    by (vm_compute; reflexivity).
  apply fmap_Some in Hp as (w & Hw & Hp). exists w. split; [exact Hw|]. split; [by rewrite Hp|].
  refine (proj2 (clients_round_robin demo_unpack demo_pack_error demo_endpoint_parse demo_files
    (λ s p, (str s, p)) (λ _, 3%Z) [str "redis_proxy"; str "--workers"; str "2"]
    demo_server_start demo_server 0 w demo_main_running _ demo_server_reachable Hw)).
  vm_compute. reflexivity.
Defined.
