(* ===== verification/Double.v ===== *)
(** * Double: the floating-point arithmetic of the load generator

    [double] is the binary64 format of [SpecFloat].  The program converts two
    integers and divides them; this file bounds the error of each: a result is
    within 2^-53 of the exact one, relatively. *)
From Stdlib Require Import QArith Qabs Qpower Lqa SpecFloat.
From S2P Require Import Prelude.

(** [static_cast<double>] of an integer, and the division of doubles. *)
Definition double_of_Z (z : Z) : spec_float := binary_normalize 53 1024 z 0 false.
Definition double_div : spec_float → spec_float → spec_float := SFdiv 53 1024.

(** The number a finite double stands for. *)
Definition double_value (x : spec_float) : Q :=
  match x with
  | S754_finite s m e => (inject_Z (cond_Zopp s (Zpos m)) * 2 ^ e)%Q
  | _ => 0%Q
  end.

(** [a] is [b] up to the relative error [eps]. *)
Definition near (eps a b : Q) : Prop := (Qabs (a - b) <= eps * Qabs b)%Q.

(** Half a unit in the last of 53 places. *)
Definition ulp_half : Q := 1 # 2 ^ 53.

(** ** Shifting a number right

    [located r n d]: [n / d] lies between the mantissa of [r] and the next integer,
    and the two bits of [r] say where: below, on, or above the middle. *)
Definition located (r : shr_record) (n d : Z) : Prop :=
  (0 < d ∧ 0 <= shr_m r ∧
   match shr_r r, shr_s r with
   | false, false => n = shr_m r * d
   | false, true => shr_m r * d < n ∧ 2 * (n - shr_m r * d) < d
   | true, false => 2 * (n - shr_m r * d) = d
   | true, true => d < 2 * (n - shr_m r * d) ∧ n < (shr_m r + 1) * d
   end)%Z.

Lemma shr_1_located r n d : located r n d → located (shr_1 r) n (2 * d).
Proof.
  destruct r as [m rb sb]. unfold located. intros (Hd & Hm & Hn). simpl in *.
  destruct m as [|[p|p|]|p]; [..|lia]; simpl.
  all: destruct rb, sb; simpl in *; split_and!; lia.
Qed.

Lemma iter_located p r n d :
  located r n d → located (SpecFloat.iter_pos shr_1 p r) n (d * 2 ^ Zpos p).
Proof.
  revert r d. induction p as [p IH|p IH|]; intros r d Hr; simpl.
  - apply shr_1_located in Hr. apply IH, IH in Hr.
    replace (d * 2 ^ Z.pos p~1)%Z with (2 * d * 2 ^ Z.pos p * 2 ^ Z.pos p)%Z; [done|].
    replace (Z.pos p~1) with (1 + Z.pos p + Z.pos p)%Z by lia. rewrite !Z.pow_add_r by lia. lia.
  - apply IH, IH in Hr.
    replace (d * 2 ^ Z.pos p~0)%Z with (d * 2 ^ Z.pos p * 2 ^ Z.pos p)%Z; [done|].
    replace (Z.pos p~0) with (Z.pos p + Z.pos p)%Z by lia. rewrite Z.pow_add_r by lia. lia.
  - apply shr_1_located in Hr. by replace (d * 2 ^ 1)%Z with (2 * d)%Z by lia.
Qed.

(** Rounding to the nearest integer. *)
Lemma round_located r n d :
  located r n d →
  let q := round_nearest_even (shr_m r) (loc_of_shr_record r) in
  (shr_m r <= q <= shr_m r + 1 ∧ 2 * Z.abs (q * d - n) <= d ∧ shr_m r * d <= n < (shr_m r + 1) * d)%Z.
Proof.
  destruct r as [m rb sb]. unfold located. intros (Hd & Hm & Hn). simpl in *.
  destruct rb, sb; simpl in *; [..|destruct (Z.even m)| |]; try destruct (Z.even m); lia.
Qed.

Lemma digits2_log2 p : Zpos (digits2_pos p) = (Z.log2 (Zpos p) + 1)%Z.
Proof.
  induction p as [p IH|p IH|]; simpl digits2_pos; [..|done]; rewrite Pos2Z.inj_succ, IH.
  - rewrite Pos2Z.inj_xI, Z.log2_succ_double by lia. lia.
  - rewrite Pos2Z.inj_xO, Z.log2_double by lia. lia.
Qed.

Lemma Zdigits2_log2 m : (0 < m)%Z → Zdigits2 m = (Z.log2 m + 1)%Z.
Proof. destruct m as [|p|p]; [lia| |lia]. intros _. apply digits2_log2. Qed.

(** Away from the ends of the exponent range, a shift leaves 53 digits. *)
Lemma shr_fexp_shift m e l :
  (2 ^ 52 <= m)%Z → (-1000 <= e + Z.log2 m)%Z →
  shr_fexp 53 1024 m e l = shr (shr_record_of_loc m l) e (Z.log2 m - 52)%Z.
Proof.
  intros Hm He. unfold shr_fexp, fexp, emin. rewrite Zdigits2_log2 by lia. f_equal. lia.
Qed.

Lemma shr_located r e k n d :
  (0 <= k)%Z → located r n d →
  ∃ r', shr r e k = (r', e + k)%Z ∧ located r' n (d * 2 ^ k).
Proof.
  intros Hk Hr. destruct k as [|p|p]; [..|lia]; simpl.
  - exists r. rewrite Z.mul_1_r, Z.add_0_r. done.
  - eexists. split; [done|]. by apply iter_located.
Qed.

(** ** Rationals *)

Local Open Scope Q_scope.

Lemma pow_pos_Q (b : Q) e : 0 < b → 0 < b ^ e.
Proof. intros Hb. by apply Qpower_0_lt. Qed.

Lemma pow_add_Q (b : Q) e f : 0 < b → b ^ (e + f) == b ^ e * b ^ f.
Proof. intros Hb. apply Qpower_plus. lra. Qed.

Lemma pow_Z_Q (b e : Z) : (0 <= e)%Z → inject_Z (b ^ e) == inject_Z b ^ e.
Proof. intros He. by rewrite <-Zpower_Qpower. Qed.

Lemma near_scale eps a b c : 0 <= eps → near eps a b → near eps (a * c) (b * c).
Proof.
  unfold near. intros He Hab. assert (a * c - b * c == (a - b) * c) as -> by ring.
  rewrite !Qabs_Qmult. pose proof (Qabs_nonneg c). nra.
Qed.

Lemma near_trans eps1 eps2 a b c :
  0 <= eps1 → 0 <= eps2 → near eps1 a b → near eps2 b c → near (eps1 + eps2 + eps1 * eps2) a c.
Proof.
  unfold near. intros He1 He2 Hab Hbc.
  assert (Qabs (a - c) <= Qabs (a - b) + Qabs (b - c)) as Hac.
  { assert (a - c == (a - b) + (b - c)) as -> by ring. apply Qabs_triangle. }
  assert (Qabs b <= Qabs (b - c) + Qabs c) as Hb.
  { assert (b == (b - c) + c) as Hbb by ring. rewrite Hbb at 1. apply Qabs_triangle. }
  pose proof (Qabs_nonneg c). nra.
Qed.

#[global] Instance near_proper : Proper (Qeq ==> Qeq ==> Qeq ==> iff) near.
Proof. intros e e' He a a' Ha b b' Hb. unfold near. by rewrite He, Ha, Hb. Qed.

Lemma near_refl eps a : 0 <= eps → near eps a a.
Proof.
  intros He. unfold near. assert (a - a == 0) as -> by ring. change (Qabs 0) with 0. pose proof (Qabs_nonneg a). nra.
Qed.

Lemma near_weaken eps eps' a b : eps <= eps' → near eps a b → near eps' a b.
Proof. unfold near. intros He Hab. pose proof (Qabs_nonneg b). nra. Qed.

(** ** Rounding *)

(** The mantissa after rounding, in canonical form. *)
Lemma renormalize q e :
  (2 ^ 52 <= q <= 2 ^ 53)%Z → (-1000 <= e)%Z →
  ∃ m e', shr_fexp 53 1024 q e loc_Exact = (Build_shr_record (Zpos m) false false, e') ∧
    (2 ^ 52 <= Zpos m < 2 ^ 53)%Z ∧ (e <= e' <= e + 1)%Z ∧ inject_Z (Zpos m) * 2 ^ e' == inject_Z q * 2 ^ e.
Proof.
  intros Hq He. destruct (decide (q = 2 ^ 53)%Z) as [->|Hne].
  - rewrite shr_fexp_shift by (simpl; lia). exists (2 ^ 52)%positive, (e + 1)%Z.
    split; [reflexivity|]. split_and!; [done..|lia|lia|].
    rewrite pow_add_Q by lra. change (inject_Z (2 ^ 53)) with (inject_Z (2 * Zpos (2 ^ 52))).
    rewrite inject_Z_mult. change (inject_Z 2) with 2. change (2 ^ 1) with 2. ring.
  - assert (Z.log2 q = 52%Z) as Hl by (apply Z.log2_unique; lia).
    rewrite shr_fexp_shift, Hl by lia. destruct q as [|p|p]; [lia| |lia]. exists p, e. split; [reflexivity|].
    split_and!; [lia..|done].
Qed.

(** The distance to the nearest multiple of [K], for a number that is large. *)
Lemma near_multiple (q n D d k : Z) :
  (0 < d)%Z → (0 <= k)%Z → D = (d * 2 ^ k)%Z → (2 * Z.abs (q * D - n) <= D)%Z → (2 ^ 52 * D <= n)%Z →
  near ulp_half (inject_Z q * 2 ^ k) (inject_Z n / inject_Z d).
Proof.
  intros Hd Hk -> Hq Hn. unfold near, ulp_half.
  assert (0 < inject_Z d) as Hd' by (change 0 with (inject_Z 0); by rewrite <-Zlt_Qlt).
  assert (0 < inject_Z n / inject_Z d) as Hpos.
  { apply Qlt_shift_div_l; [done|]. rewrite Qmult_0_l. change 0 with (inject_Z 0). rewrite <-Zlt_Qlt.
    pose proof (Z.pow_pos_nonneg 2 k). nia. }
  rewrite (Qabs_pos (inject_Z n / inject_Z d)) by lra.
  assert (inject_Z q * 2 ^ k - inject_Z n / inject_Z d == inject_Z (q * (d * 2 ^ k) - n) / inject_Z d) as ->.
  { unfold Zminus. rewrite inject_Z_plus, inject_Z_opp, !inject_Z_mult, pow_Z_Q by done.
    change (inject_Z 2) with 2. field. lra. }
  unfold Qdiv. rewrite Qabs_Qmult, (Qabs_pos (/ inject_Z d)) by (apply Qlt_le_weak, Qinv_lt_0_compat; done).
  rewrite Qmult_assoc. apply Qmult_le_compat_r; [|apply Qlt_le_weak, Qinv_lt_0_compat; done].
  unfold Qle, Qmult, Qabs, inject_Z. cbn [Qnum Qden]. lia.
Qed.

(** [binary_round_aux] on a number of at least 53 digits whose place between two
    integers is known: the result is finite and within half a unit of it. *)
Lemma binary_round_aux_near sx mx ex lx n d :
  (2 ^ 52 <= mx)%Z → located (shr_record_of_loc mx lx) n d → (-900 <= ex + Z.log2 mx <= 900)%Z →
  ∃ m e, binary_round_aux 53 1024 sx mx ex lx = S754_finite sx m e ∧
    (2 ^ 52 <= Zpos m < 2 ^ 53)%Z ∧ (ex + Z.log2 mx - 52 <= e <= ex + Z.log2 mx - 51)%Z ∧
    near ulp_half (inject_Z (Zpos m) * 2 ^ e) (inject_Z n / inject_Z d * 2 ^ ex).
Proof.
  intros Hm Hl Hex. unfold binary_round_aux. rewrite shr_fexp_shift by lia.
  pose proof (Z.log2_le_mono _ _ Hm) as Hlog. rewrite Z.log2_pow2 in Hlog by lia.
  pose proof (Z.log2_spec mx ltac:(lia)) as [Hlo Hhi].
  set (k := (Z.log2 mx - 52)%Z) in *.
  destruct (shr_located (shr_record_of_loc mx lx) ex k n d ltac:(lia) Hl) as (r & -> & Hr).
  assert (shr_m (shr_record_of_loc mx lx) = mx) as Hmx by (by destruct lx as [|[]]).
  apply round_located in Hl as (_ & _ & Hn). rewrite Hmx in Hn.
  pose proof Hr as (Hd & _). apply round_located in Hr as (Hq & Herr & Hn').
  set (q := round_nearest_even _ _) in *. set (m' := shr_m r) in *.
  replace (Z.log2 mx) with (52 + k)%Z in * by lia. rewrite Z.pow_succ_r, Z.pow_add_r in Hhi by lia.
  rewrite Z.pow_add_r in Hlo by lia.
  pose proof (Z.pow_pos_nonneg 2 k ltac:(lia) ltac:(lia)) as Hk. assert (0 < d)%Z as Hd0 by nia.
  assert (2 ^ 52 <= m' < 2 ^ 53)%Z as Hm' by nia.
  destruct (renormalize q (ex + k)) as (m & e & -> & Hmb & He & Hval); [lia..|]. cbn [shr_m].
  replace (e <=? _)%Z with true by lia. exists m, e. split_and!; [done|lia..|].
  rewrite Hval, (Zplus_comm ex k), pow_add_Q, Qmult_assoc by lra.
  apply near_scale; [done|]. eapply near_multiple; [done|lia|done|done|nia].
Qed.

(** 53 digits need no rounding. *)
Lemma binary_round_aux_exact sx m ex :
  (2 ^ 52 <= Zpos m < 2 ^ 53)%Z → (-900 <= ex <= 900)%Z →
  binary_round_aux 53 1024 sx (Zpos m) ex loc_Exact = S754_finite sx m ex.
Proof.
  intros Hm Hex. assert (Z.log2 (Zpos m) = 52%Z) as Hl by (apply Z.log2_unique; lia).
  unfold binary_round_aux. rewrite shr_fexp_shift, Hl by lia. simpl.
  rewrite shr_fexp_shift, Hl by lia. simpl. by replace (ex <=? _)%Z with true by lia.
Qed.

Lemma iter_xO m d : Zpos (Pos.iter xO m d) = (Zpos m * 2 ^ Zpos d)%Z.
Proof.
  induction d as [|d IH] using Pos.peano_ind; [simpl; lia|].
  rewrite Pos.iter_succ, Pos2Z.inj_xO, IH, Pos2Z.inj_succ, Z.pow_succ_r by lia. lia.
Qed.

(** A small integer is converted exactly, a large one to the nearest double. *)
Lemma binary_round_exact sx p :
  (Zpos p < 2 ^ 53)%Z →
  ∃ m e, binary_round 53 1024 sx p 0 = S754_finite sx m e ∧
    (2 ^ 52 <= Zpos m < 2 ^ 53)%Z ∧ (-52 <= e <= 0)%Z ∧ inject_Z (Zpos m) * 2 ^ e == inject_Z (Zpos p).
Proof.
  intros Hp. pose proof (Z.log2_spec (Zpos p) ltac:(lia)) as [Hlo Hhi].
  assert (Z.log2 (Zpos p) < 53)%Z as Hl by (apply Z.log2_lt_pow2; lia).
  pose proof (Z.log2_nonneg (Zpos p)).
  unfold binary_round, fexp, emin. rewrite digits2_log2. set (l := Z.log2 (Zpos p)) in *.
  replace (Z.max (l + 1 + 0 - 53) (3 - 1024 - 53)) with (l - 52)%Z by lia. unfold shl_align.
  rewrite Z.pow_succ_r in Hhi by lia.
  destruct (l - 52 - 0)%Z as [|d|d] eqn:Hd; [|lia|].
  - replace l with 52%Z in * by lia. rewrite binary_round_aux_exact by lia. exists p, 0%Z.
    split_and!; [done|lia..|]. by rewrite Qmult_1_r.
  - pose proof (iter_xO p d) as Hi. set (m := Pos.iter xO p d) in *.
    assert (2 ^ 52 <= Zpos m < 2 ^ 53)%Z as Hm.
    { rewrite Hi. replace 52%Z with (l + Zpos d)%Z at 1 by lia. replace 53%Z with (1 + l + Zpos d)%Z by lia.
      rewrite !Z.pow_add_r by lia. pose proof (Z.pow_pos_nonneg 2 (Zpos d) ltac:(lia) ltac:(lia)). nia. }
    rewrite binary_round_aux_exact by lia. exists m, (l - 52)%Z. split_and!; [done|lia..|].
    rewrite Hi, inject_Z_mult, pow_Z_Q, <-Qmult_assoc by lia. change (inject_Z 2) with 2.
    rewrite <-pow_add_Q by lra. replace (Zpos d + (l - 52))%Z with 0%Z by lia. apply Qmult_1_r.
Qed.

Lemma binary_round_near sx p :
  (Zpos p <= 2 ^ 64)%Z →
  ∃ m e, binary_round 53 1024 sx p 0 = S754_finite sx m e ∧
    (2 ^ 52 <= Zpos m < 2 ^ 53)%Z ∧ (-52 <= e <= 13)%Z ∧
    near ulp_half (inject_Z (Zpos m) * 2 ^ e) (inject_Z (Zpos p)).
Proof.
  intros Hp. destruct (decide (Zpos p < 2 ^ 53)%Z) as [Hs|Hs].
  { destruct (binary_round_exact sx p Hs) as (m & e & -> & Hm & He & Hv). exists m, e.
    split_and!; [done|lia..|]. rewrite Hv. by apply near_refl. }
  pose proof (Z.log2_le_mono (2 ^ 53) (Zpos p) ltac:(lia)) as Hl. rewrite Z.log2_pow2 in Hl by lia.
  pose proof (Z.log2_le_mono _ _ Hp) as Hu. rewrite Z.log2_pow2 in Hu by lia.
  unfold binary_round, fexp, emin. rewrite digits2_log2. set (l := Z.log2 (Zpos p)) in *.
  replace (Z.max (l + 1 + 0 - 53) (3 - 1024 - 53)) with (l - 52)%Z by lia. unfold shl_align.
  destruct (l - 52 - 0)%Z as [|d|d] eqn:Hd; [lia| |lia].
  destruct (binary_round_aux_near sx (Zpos p) 0 loc_Exact (Zpos p) 1) as (m & e & -> & Hm & He & Hv);
    [lia|unfold located; simpl; lia|lia|]. exists m, e. split_and!; [done|lia..|].
  assert (inject_Z (Zpos p) / inject_Z 1 * 2 ^ 0 == inject_Z (Zpos p)) as Heq; [|by rewrite Heq in Hv].
  change (inject_Z 1) with 1. change (2 ^ 0) with 1. field.
Qed.

(** Where a quotient lies, from its remainder. *)
Lemma new_location_located q r m : (0 <= q)%Z → (0 <= r < m)%Z →
  located (shr_record_of_loc q (new_location m r)) (m * q + r) m.
Proof.
  intros Hq Hr. unfold new_location. destruct (Z.even m) eqn:Hm.
  - unfold new_location_even. destruct (Z.eqb_spec r 0) as [->|Hne]; [unfold located; simpl; lia|].
    destruct (Z.compare_spec (2 * r) m); unfold located; simpl; lia.
  - rewrite <-Z.negb_odd, negb_false_iff in Hm. apply Z.odd_spec in Hm as [k Hk]. unfold new_location_odd.
    destruct (Z.eqb_spec r 0) as [->|Hne]; [unfold located; simpl; lia|].
    destruct (Z.compare_spec (2 * r + 1) m); unfold located; simpl; lia.
Qed.

Lemma double_div_near sx m1 e1 sy m2 e2 :
  (2 ^ 52 <= Zpos m1 < 2 ^ 53)%Z → (2 ^ 52 <= Zpos m2 < 2 ^ 53)%Z →
  (-200 <= e1 <= 200)%Z → (-200 <= e2 <= 200)%Z →
  ∃ m e, double_div (S754_finite sx m1 e1) (S754_finite sy m2 e2) = S754_finite (xorb sx sy) m e ∧
    (2 ^ 52 <= Zpos m < 2 ^ 53)%Z ∧ (e1 - e2 - 53 <= e <= e1 - e2)%Z ∧
    near ulp_half (inject_Z (Zpos m) * 2 ^ e)
      (inject_Z (Zpos m1) * 2 ^ e1 / (inject_Z (Zpos m2) * 2 ^ e2)).
Proof.
  intros H1 H2 He1 He2. unfold double_div, SFdiv, SFdiv_core_binary, fexp, emin.
  rewrite !Zdigits2_log2 by lia.
  rewrite (Z.log2_unique (Zpos m1) 52), (Z.log2_unique (Zpos m2) 52) by lia.
  replace (Z.min _ _) with (e1 - e2 - 53)%Z by lia.
  replace (e1 - e2 - (e1 - e2 - 53))%Z with 53%Z by lia. rewrite Z.shiftl_mul_pow2 by lia.
  pose proof (Z_div_mod (Zpos m1 * 2 ^ 53) (Zpos m2) ltac:(lia)) as Hdm.
  destruct (Z.div_eucl _ _) as [q r]. destruct Hdm as [Hq Hr].
  assert (2 ^ 52 <= q < 2 ^ 55)%Z as Hqb by nia.
  pose proof (Z.log2_le_mono (2 ^ 52) q ltac:(lia)) as Hl. rewrite Z.log2_pow2 in Hl by lia.
  pose proof (proj1 (Z.log2_lt_pow2 q 55 ltac:(lia)) ltac:(lia)) as Hu.
  destruct (binary_round_aux_near (xorb sx sy) q (e1 - e2 - 53) (new_location (Zpos m2) r)
              (Zpos m1 * 2 ^ 53) (Zpos m2)) as (m & e & -> & Hm & He & Hv);
    [lia|rewrite Hq; apply new_location_located; lia|lia|].
  exists m, e. split_and!; [done|lia..|].
  assert (inject_Z (Zpos m1 * 2 ^ 53) / inject_Z (Zpos m2) * 2 ^ (e1 - e2 - 53) ==
          inject_Z (Zpos m1) * 2 ^ e1 / (inject_Z (Zpos m2) * 2 ^ e2)) as Heq; [|by rewrite Heq in Hv].
  rewrite inject_Z_mult, pow_Z_Q by lia. change (inject_Z 2) with 2.
  replace e1 with (53 + (e1 - e2 - 53) + e2)%Z at 2 by lia. rewrite !(pow_add_Q 2 _ _) by lra.
  pose proof (pow_pos_Q 2 e2 ltac:(lra)). field. split; [intros Heq; lra|].
  intros Heq. unfold Qeq in Heq. simpl in Heq. lia.
Qed.

(** ** The quotient of two integers *)

Lemma double_of_Z_sign z :
  z ≠ 0%Z → double_of_Z z = binary_round 53 1024 (bool_decide (z < 0)%Z) (Z.to_pos (Z.abs z)) 0.
Proof. by destruct z. Qed.

Lemma inject_pos p : 0 < inject_Z (Zpos p).
Proof. done. Qed.

(** Converting [n] and [s] and dividing loses less than 2^-51; the result has the
    sign of [s]. *)
Lemma double_quotient n s :
  (0 < n <= 2 ^ 64)%Z → s ≠ 0%Z → (Z.abs s <= 2 ^ 31)%Z →
  ∃ m e, double_div (double_of_Z n) (double_of_Z s) = S754_finite (bool_decide (s < 0)%Z) m e ∧
    (2 ^ 52 <= Zpos m < 2 ^ 53)%Z ∧ (-200 <= e <= 200)%Z ∧
    near (1 # 2 ^ 51) (inject_Z (Zpos m) * 2 ^ e) (inject_Z n / inject_Z (Z.abs s)).
Proof.
  intros Hn Hs Hs'. rewrite !double_of_Z_sign by lia. destruct n as [|n|n]; [lia| |lia].
  destruct (Z.abs s) as [|a|a] eqn:Ha; [lia| |lia]. simpl Z.abs. simpl Z.to_pos.
  rewrite (bool_decide_false (Zpos n < 0)%Z) by lia.
  destruct (binary_round_near false n) as (m1 & e1 & -> & Hm1 & He1 & Hv1); [lia|].
  destruct (binary_round_exact (bool_decide (s < 0)%Z) a) as (m2 & e2 & -> & Hm2 & He2 & Hv2); [lia|].
  destruct (double_div_near false m1 e1 (bool_decide (s < 0)%Z) m2 e2) as (m & e & -> & Hm & He & Hv); [lia..|].
  exists m, e. split_and!; [done|lia..|]. rewrite Hv2 in Hv.
  apply (near_scale _ _ _ (/ inject_Z (Zpos a))) in Hv1; [|done].
  pose proof (near_trans ulp_half ulp_half _ _ _ ltac:(done) ltac:(done) Hv Hv1) as Hall.
  eapply near_weaken; [|exact Hall]. by vm_compute.
Qed.

(** [0 / s] is a zero. *)
Lemma double_quotient_zero s : s ≠ 0%Z → (Z.abs s <= 2 ^ 31)%Z →
  double_div (double_of_Z 0) (double_of_Z s) = S754_zero (bool_decide (s < 0)%Z).
Proof.
  intros Hs Hs'. rewrite (double_of_Z_sign s) by done. destruct (Z.abs s) as [|a|a] eqn:Ha; [lia| |lia].
  destruct (binary_round_exact (bool_decide (s < 0)%Z) a) as (m2 & e2 & Hr & _); [lia|].
  simpl Z.to_pos. by rewrite Hr.
Qed.

(** [n / 0] is an infinity. *)
Lemma double_quotient_by_zero n :
  (0 < n <= 2 ^ 64)%Z → double_div (double_of_Z n) (double_of_Z 0) = S754_infinity false.
Proof.
  intros Hn. rewrite (double_of_Z_sign n) by lia. destruct n as [|n|n]; [lia| |lia]. simpl Z.abs. simpl Z.to_pos.
  rewrite bool_decide_false by lia. by destruct (binary_round_near false n) as (m & e & -> & _); [lia|].
Qed.
