(* ===== verification/NumberText.v ===== *)
(** * NumberText: how a stream prints numbers

    [std::ostream << int] and [std::ostream << double] with the default precision
    of six significant digits, which is the [%g] of [printf]; and a reader of such
    numbers, which says what a text means. *)
From Stdlib Require Import QArith Qround Qabs Qpower Lqa SpecFloat.
From S2P Require Import Prelude Config Double.

(** ** Six significant digits *)

(** The nearest integer, the even one of two. *)
Definition round_even (v : Q) : Z :=
  let f := Qfloor v in
  match Qcompare (v - inject_Z f) (1 # 2) with
  | Lt => f
  | Gt => f + 1
  | Eq => if Z.even f then f else f + 1
  end%Z.

(** The largest [x] with [10 ^ x <= v], from an upper bound downwards. *)
Fixpoint exponent10_from (fuel : nat) (x : Z) (v : Q) : Z :=
  match fuel with
  | 0 => x
  | S fuel => if Qle_bool (10 ^ x) v then x else exponent10_from fuel (x - 1) v
  end.

(** A double lies between 10^-324 and 10^309. *)
Definition exponent10 (v : Q) : Z := exponent10_from 633 308 v.

(** [(d, x)]: the digits of [v] and its exponent, in the form [d.ddddd * 10^x]; the
    rounding may carry into a new digit. *)
Definition scientific (v : Q) : Z * Z :=
  let x := exponent10 v in
  let d := round_even (v * 10 ^ (5 - x)) in
  if decide (d = 10 ^ 6)%Z then (10 ^ 5, x + 1)%Z else (d, x).

(** ** The text *)

Fixpoint strip_zeros (s : bytes) : bytes :=
  match s with
  | [] => []
  | c :: s =>
      match strip_zeros s with
      | [] => if decide (c = "0"%char) then [] else [c]
      | s => c :: s
      end
  end.

Definition sign_text (neg : bool) : bytes := if neg then str "-" else [].
Definition point_text (fraction : bytes) : bytes :=
  match fraction with [] => [] | _ => "."%char :: fraction end.
Definition exponent_text (x : Z) : bytes :=
  str "e" ++ (if decide (x < 0)%Z then str "-" else str "+") ++
  (if decide (Z.abs x < 10)%Z then str "0" else []) ++ decimal (Z.abs x).

(** [%g] of a positive number: fixed notation for exponents from -4 to 5, scientific
    notation otherwise, without trailing zeros. *)
Definition g_text (d x : Z) : bytes :=
  let ds := decimal d in
  if decide (-4 <= x < 6)%Z then
    if decide (x < 0)%Z then str "0" ++ point_text (strip_zeros (replicate (Z.to_nat (- x - 1)) "0"%char ++ ds))
    else take (Z.to_nat (x + 1)) ds ++ point_text (strip_zeros (drop (Z.to_nat (x + 1)) ds))
  else take 1 ds ++ point_text (strip_zeros (drop 1 ds)) ++ exponent_text x.

(** [<< double]; how a NaN is spelled is up to the C library. *)
Definition print_double (nan : bytes) (x : spec_float) : bytes :=
  match x with
  | S754_zero s => sign_text s ++ str "0"
  | S754_infinity s => sign_text s ++ str "inf"
  | S754_nan => nan
  | S754_finite s m e =>
      let '(d, x) := scientific (inject_Z (Zpos m) * 2 ^ e) in sign_text s ++ g_text d x
  end.

(** [<< int]. *)
Definition print_int (z : Z) : bytes := sign_text (bool_decide (z < 0)%Z) ++ decimal (Z.abs z).

(** ** Reading a number *)

Definition read_fraction (s : bytes) : option (bytes * bytes) :=
  match s with
  | c :: s' =>
      if decide (c = "."%char) then
        let '(ds, rest) := span isdigit s' in match ds with [] => None | _ => Some (ds, rest) end
      else Some ([], s)
  | [] => Some ([], s)
  end.

Definition read_exponent (s : bytes) : option Z :=
  match s with
  | [] => Some 0%Z
  | c :: sg :: ds =>
      if decide (c = "e"%char ∧ ds ≠ [] ∧ forallb isdigit ds = true) then
        if decide (sg = "+"%char) then Some (decimal_value ds)
        else if decide (sg = "-"%char) then Some (- decimal_value ds)%Z else None
      else None
  | _ => None
  end.

Definition read_number (s : bytes) : option Q :=
  let '(neg, s) := match s with
                   | c :: s' => if decide (c = "-"%char) then (true, s') else (false, s)
                   | [] => (false, s)
                   end in
  let '(ip, s) := span isdigit s in
  if decide (ip = []) then None else
  '(fp, s) ← read_fraction s;
  e ← read_exponent s;
  Some (inject_Z (cond_Zopp neg (decimal_value (ip ++ fp))) * 10 ^ (e - Z.of_nat (length fp)))%Q.

(** Examples: rounding, carries, both notations. *)
Example print_examples :
  (print_double [] ∘ double_of_Z) <$> [0; 7; -120000; 999999; 1000000; 1234565; 9999995; 18446744073709551615]%Z =
  str <$> ["0"; "7"; "-120000"; "999999"; "1e+06"; "1.23456e+06"; "1e+07"; "1.84467e+19"]%string.
Proof. vm_compute. reflexivity. Qed.

Example print_quotients :
  (λ s, print_double (str "nan") (double_div (double_of_Z 1) (double_of_Z s))) <$> [3; 8; 40000; -3000; 0]%Z =
  str <$> ["0.333333"; "0.125"; "2.5e-05"; "-0.000333333"; "inf"]%string.
Proof. vm_compute. reflexivity. Qed.

(** ** Rounding to six digits *)

Local Open Scope Q_scope.

Lemma round_even_spec v :
  (Qfloor v <= round_even v <= Qfloor v + 1)%Z ∧ Qabs (inject_Z (round_even v) - v) <= 1 # 2.
Proof.
  pose proof (Qfloor_le v) as Hlo. pose proof (Qlt_floor v) as Hhi. rewrite inject_Z_plus in Hhi.
  change (inject_Z 1) with 1 in Hhi. unfold round_even.
  destruct (Qcompare_spec (v - inject_Z (Qfloor v)) (1 # 2)); [destruct (Z.even (Qfloor v))|..].
  all: (split; [lia|]); rewrite ?inject_Z_plus; change (inject_Z 1) with 1; apply Qabs_case; lra.
Qed.

Lemma exponent10_from_spec fuel x v :
  v < 10 ^ (x + 1) → 10 ^ (x - Z.of_nat fuel) <= v →
  10 ^ exponent10_from fuel x v <= v < 10 ^ (exponent10_from fuel x v + 1).
Proof.
  revert x. induction fuel as [|fuel IH]; intros x Hhi Hlo; simpl.
  { by rewrite Z.sub_0_r in Hlo. }
  destruct (Qle_bool (10 ^ x) v) eqn:Hle.
  - split; [by apply Qle_bool_iff|done].
  - apply IH.
    + rewrite Z.sub_add. apply Qnot_le_lt. intros H%Qle_bool_iff. congruence.
    + by replace (x - 1 - Z.of_nat fuel)%Z with (x - Z.of_nat (S fuel))%Z by lia.
Qed.

Lemma pow10_pos e : 0 < 10 ^ e.
Proof. by apply pow_pos_Q. Qed.

Lemma pow10_add e f : 10 ^ (e + f) == 10 ^ e * 10 ^ f.
Proof. by apply pow_add_Q. Qed.

Lemma pow10_nat n : 10 ^ Z.of_nat n == inject_Z (10 ^ Z.of_nat n).
Proof. by rewrite pow_Z_Q by lia. Qed.

(** Six digits, and half a unit of the last one. *)
Lemma scientific_spec v :
  10 ^ (-325) <= v < 10 ^ 309 →
  let '(d, x) := scientific v in
  (10 ^ 5 <= d < 10 ^ 6)%Z ∧ near (1 # 200000) (inject_Z d * 10 ^ (x - 5)) v.
Proof.
  intros [Hlo Hhi]. destruct (exponent10_from_spec 633 308 v) as [Hx1 Hx2]; [done..|].
  unfold scientific. fold (exponent10 v) in *. set (x := exponent10 v) in *.
  set (y := v * 10 ^ (5 - x)). pose proof (pow10_pos (5 - x)) as Hp.
  assert (10 ^ x * 10 ^ (5 - x) == 100000) as H5.
  { rewrite <-pow10_add. by replace (x + (5 - x))%Z with 5%Z by lia. }
  assert (100000 <= y < 1000000) as Hy.
  { subst y. rewrite pow10_add in Hx2. change (10 ^ 1) with 10 in Hx2. split; nra. }
  destruct (round_even_spec y) as [Hr He]. set (d := round_even y) in *.
  assert (100000 <= Qfloor y < 1000000)%Z as Hf.
  { split; [|rewrite Zlt_Qlt; eapply Qle_lt_trans; [apply Qfloor_le|apply Hy]].
    change 100000%Z with (Qfloor 100000). apply Qfloor_resp_le, Hy. }
  assert (near (1 # 200000) (inject_Z d * 10 ^ (x - 5)) v) as Hn.
  { assert (v == y * 10 ^ (x - 5)) as Hv.
    { subst y. rewrite <-Qmult_assoc, <-pow10_add. replace (5 - x + (x - 5))%Z with 0%Z by lia. symmetry. apply Qmult_1_r. }
    rewrite Hv at 1. apply near_scale; [done|]. unfold near. rewrite (Qabs_pos y) by lra. lra. }
  case_decide as Hd; (split; [lia|]); [|done].
  assert (inject_Z (10 ^ 5) * 10 ^ (x + 1 - 5) == inject_Z d * 10 ^ (x - 5)) as ->; [|done].
  rewrite Hd. replace (x + 1 - 5)%Z with (x - 5 + 1)%Z by lia. rewrite pow10_add.
  change (inject_Z (10 ^ 5)) with 100000. change (inject_Z (10 ^ 6)) with 1000000. change (10 ^ 1) with 10. ring.
Qed.

(** ** Reading back *)

Lemma decimal_value_app a b :
  decimal_value (a ++ b) = (decimal_value a * 10 ^ Z.of_nat (length b) + decimal_value b)%Z.
Proof.
  induction b as [|c b IH] using rev_ind; [rewrite app_nil_r, Z.mul_1_r; by rewrite Z.add_0_r|].
  rewrite (assoc_L (++)), !decimal_value_snoc, IH, length_app, Nat2Z.inj_add, Z.pow_add_r by lia. simpl. lia.
Qed.

Lemma decimal_value_zeros n : decimal_value (replicate n "0"%char) = 0%Z.
Proof.
  induction n as [|n IH]; [done|]. rewrite replicate_S_end, decimal_value_snoc, IH. done.
Qed.

Lemma strip_zeros_app s : ∃ n, s = strip_zeros s ++ replicate n "0"%char.
Proof.
  induction s as [|c s [n Hs]]; [by exists 0%nat|]. simpl. revert Hs.
  destruct (strip_zeros s) as [|a r]; intros ->; [|by exists n]. case_decide as Hc; simpl.
  - exists (S n). by subst c.
  - by exists n.
Qed.

(** Trailing zeros of a fraction do not count. *)
Lemma strip_zeros_value ip f e :
  inject_Z (decimal_value (ip ++ strip_zeros f)) * 10 ^ (e - Z.of_nat (length (strip_zeros f))) ==
  inject_Z (decimal_value (ip ++ f)) * 10 ^ (e - Z.of_nat (length f)).
Proof.
  destruct (strip_zeros_app f) as [n Hn]. rewrite Hn at 3 4.
  rewrite (assoc_L (++)), (decimal_value_app _ (replicate n _)), decimal_value_zeros, Z.add_0_r.
  rewrite length_app, !length_replicate, inject_Z_mult, <-pow10_nat, <-Qmult_assoc, <-pow10_add.
  by replace (Z.of_nat n + (e - Z.of_nat (length (strip_zeros f) + n)))%Z
    with (e - Z.of_nat (length (strip_zeros f)))%Z by lia.
Qed.

(** What follows a number does not belong to it. *)
Definition stops (f : byte → bool) (s : bytes) : Prop := match s with [] => True | c :: _ => f c = false end.

Lemma isdigit_point : isdigit "."%char = false.
Proof. done. Qed.

Lemma read_pieces neg ip fp et e :
  ip ≠ [] → forallb isdigit ip = true → forallb isdigit fp = true →
  stops (λ c, isdigit c || bool_decide (c = "."%char)) et → read_exponent et = Some e →
  read_number (sign_text neg ++ (ip ++ point_text fp) ++ et) =
  Some (inject_Z (cond_Zopp neg (decimal_value (ip ++ fp))) * 10 ^ (e - Z.of_nat (length fp))).
Proof.
  intros Hne Hip Hfp Het He. unfold read_number.
  assert (stops isdigit et ∧ (∀ r, et ≠ "."%char :: r)) as [Hs1 Hs2].
  { destruct et as [|c et]; [done|]. simpl in *. apply orb_false_iff in Het as [? ?%bool_decide_eq_false].
    split; [done|]. naive_solver. }
  assert (∀ A (k : bool * bytes → A), k (neg, (ip ++ point_text fp) ++ et) =
    k (match sign_text neg ++ (ip ++ point_text fp) ++ et with
       | c :: s' => if decide (c = "-"%char) then (true, s')
                    else (false, sign_text neg ++ (ip ++ point_text fp) ++ et)
       | [] => (false, sign_text neg ++ (ip ++ point_text fp) ++ et) end)) as Hsign.
  { intros A k. destruct neg; [done|]. destruct ip as [|c ip]; [done|]. simpl.
    rewrite decide_False; [done|]. intros ->. simpl in Hip. done. }
  rewrite <-(Hsign _ (λ '(neg, s), _)), <-(assoc_L (++)).
  rewrite (span_all isdigit ip); [|done|destruct fp; [by destruct et|done]].
  rewrite decide_False by done.
  assert (read_fraction (point_text fp ++ et) = Some (fp, et)) as ->; [|simpl; by rewrite He].
  destruct fp as [|c fp].
  - destruct et as [|c et]; [done|]. simpl. rewrite decide_False; [done|]. intros ->. by eapply Hs2.
  - change (read_fraction _) with (let '(ds, rest) := span isdigit ((c :: fp) ++ et) in
      match ds with [] => None | _ => Some (ds, rest) end).
    rewrite span_all; [done|done|]. by destruct et.
Qed.

Lemma decimal_go_length fuel n acc k :
  (k < fuel)%nat → (10 ^ Z.of_nat k <= n < 10 ^ Z.of_nat (S k))%Z →
  length (decimal_go fuel n acc) = (S k + length acc)%nat.
Proof.
  revert n acc k. induction fuel as [|fuel IH]; intros n acc k Hk Hn; [lia|]. simpl.
  destruct k as [|k].
  - rewrite decide_True by (simpl in Hn; lia). done.
  - rewrite !Nat2Z.inj_succ, !Z.pow_succ_r in Hn by lia.
    pose proof (Z.pow_pos_nonneg 10 (Z.of_nat k) ltac:(lia) ltac:(lia)).
    rewrite decide_False by lia. rewrite (IH _ _ k); [simpl; lia|lia|].
    rewrite Nat2Z.inj_succ, Z.pow_succ_r by lia. split; [apply Z.div_le_lower_bound|apply Z.div_lt_upper_bound]; lia.
Qed.

(** The digits of a significand. *)
Lemma six_digits d :
  (10 ^ 5 <= d < 10 ^ 6)%Z →
  length (decimal d) = 6%nat ∧ forallb isdigit (decimal d) = true ∧ decimal_value (decimal d) = d.
Proof.
  intros Hd. split; [by apply (decimal_go_length 20 d [] 5); [lia|]|].
  destruct (decimal_spec d) as (_ & ? & ?); [unfold ullong_max; lia|done].
Qed.

Lemma exponent_text_read x : (-1000 <= x <= 1000)%Z → read_exponent (exponent_text x) = Some x.
Proof.
  intros Hx. destruct (decimal_spec (Z.abs x)) as (Hne & Hd & Hv); [unfold ullong_max; lia|].
  unfold exponent_text. set (ds := (if decide (Z.abs x < 10)%Z then str "0" else []) ++ decimal (Z.abs x)).
  assert (ds ≠ [] ∧ forallb isdigit ds = true ∧ decimal_value ds = Z.abs x) as (Hne' & Hd' & Hv').
  { subst ds. case_decide; [|done]. by split_and!. }
  case_decide; simpl; rewrite decide_True by done; simpl; rewrite Hv'; f_equal; lia.
Qed.

Lemma forallb_take (f : byte → bool) n s : forallb f s = true → forallb f (take n s) = true.
Proof. intros Hs. rewrite <-(take_drop n s), forallb_app in Hs. by apply andb_true_iff in Hs as [? _]. Qed.

Lemma forallb_drop (f : byte → bool) n s : forallb f s = true → forallb f (drop n s) = true.
Proof. intros Hs. rewrite <-(take_drop n s), forallb_app in Hs. by apply andb_true_iff in Hs as [_ ?]. Qed.

Lemma strip_zeros_digits s : forallb isdigit s = true → forallb isdigit (strip_zeros s) = true.
Proof.
  intros Hs. destruct (strip_zeros_app s) as [n Hn]. rewrite Hn, forallb_app in Hs.
  by apply andb_true_iff in Hs as [? _].
Qed.

Lemma zeros_digits n : forallb isdigit (replicate n "0"%char) = true.
Proof. induction n; [done|]. by simpl. Qed.

(** A number in [%g] is digits, perhaps a point and more digits, perhaps an exponent. *)
Lemma g_text_shape d x :
  (10 ^ 5 <= d < 10 ^ 6)%Z → (-1000 <= x <= 1000)%Z →
  ∃ ip fp, let e := if decide (-4 <= x < 6)%Z then 0%Z else x in
    g_text d x = (ip ++ point_text fp) ++ (if decide (-4 <= x < 6)%Z then [] else exponent_text x) ∧
    ip ≠ [] ∧ forallb isdigit ip = true ∧ forallb isdigit fp = true ∧
    inject_Z (decimal_value (ip ++ fp)) * 10 ^ (e - Z.of_nat (length fp)) == inject_Z d * 10 ^ (x - 5).
Proof.
  intros Hd Hx. destruct (six_digits d Hd) as (Hlen & Hds & Hv). unfold g_text.
  set (ds := decimal d) in *.
  assert (∀ k e, (0 < k ≤ 6)%nat → (e - (6 - Z.of_nat k) = x - 5)%Z →
    take k ds ≠ [] ∧ forallb isdigit (take k ds) = true ∧ forallb isdigit (strip_zeros (drop k ds)) = true ∧
    inject_Z (decimal_value (take k ds ++ strip_zeros (drop k ds))) *
      10 ^ (e - Z.of_nat (length (strip_zeros (drop k ds)))) == inject_Z d * 10 ^ (x - 5)) as Hcut.
  { intros k e Hk He. split_and!; [|by apply forallb_take|by apply strip_zeros_digits, forallb_drop|].
    - intros H%(f_equal length). rewrite length_take in H. simpl in H. lia.
    - rewrite strip_zeros_value, take_drop, Hv, length_drop, Hlen.
      by replace (e - Z.of_nat (6 - k))%Z with (x - 5)%Z by lia. }
  case_decide as Hr; [case_decide as Hneg|].
  - eexists (str "0"), _. rewrite app_nil_r. split; [reflexivity|]. split_and!; [done..| |].
    + apply strip_zeros_digits. rewrite forallb_app, zeros_digits. done.
    + rewrite strip_zeros_value, !decimal_value_app, decimal_value_zeros, Hv, length_app, length_replicate, Hlen.
      change (decimal_value (str "0")) with 0%Z. rewrite !Z.mul_0_l, !Z.add_0_l.
      by replace (0 - Z.of_nat (Z.to_nat (- x - 1) + 6))%Z with (x - 5)%Z by lia.
  - eexists _, _. rewrite app_nil_r. split; [reflexivity|]. apply Hcut; lia.
  - eexists (take 1 ds), _. rewrite <-(assoc_L (++)). split; [reflexivity|]. apply Hcut; lia.
Qed.

Lemma exponent10_from_range fuel x v : (x - Z.of_nat fuel <= exponent10_from fuel x v <= x)%Z.
Proof.
  revert x. induction fuel as [|fuel IH]; intros x; simpl; [lia|].
  destruct (Qle_bool _ _); [lia|]. specialize (IH (x - 1)%Z). lia.
Qed.

Lemma scientific_range v : (-1000 <= (scientific v).2 <= 1000)%Z.
Proof.
  pose proof (exponent10_from_range 633 308 v) as Hr. fold (exponent10 v) in Hr.
  unfold scientific. case_decide; simpl; lia.
Qed.

(** A normal double in the middle of the range. *)
Lemma double_range m e :
  (2 ^ 52 <= Zpos m < 2 ^ 53)%Z → (-200 <= e <= 200)%Z →
  10 ^ (-325) <= inject_Z (Zpos m) * 2 ^ e < 10 ^ 309.
Proof.
  intros Hm He.
  assert (1 <= inject_Z (Zpos m) < 2 ^ 53) as [Hm1 Hm2].
  { change 1 with (inject_Z 1). change (2 ^ 53) with (inject_Z (2 ^ 53)). rewrite <-Zle_Qle, <-Zlt_Qlt. lia. }
  pose proof (Qpower_le_compat_l 2 (-200) e ltac:(lia) ltac:(done)) as Hlo.
  pose proof (Qpower_le_compat_l 2 e 200 ltac:(lia) ltac:(done)) as Hhi.
  pose proof (pow_pos_Q 2 e ltac:(done)) as Hp. split.
  - apply Qle_trans with (2 ^ (-200)); [by vm_compute|]. nra.
  - apply Qle_lt_trans with (2 ^ 53 * 2 ^ 200); [nra|]. by vm_compute.
Qed.

(** The exponent that the text of a number with exponent [x] shows. *)
Definition shown (x : Z) : Z := if decide (-4 <= x < 6)%Z then 0%Z else x.
Definition shown_text (x : Z) : bytes := if decide (-4 <= x < 6)%Z then [] else exponent_text x.

(** A printed quotient of integers: its mantissa [t] and its exponent; together they
    are [d * 10 ^ (x - 5)], which is the quotient but for the sixth digit. *)
Lemma print_quotient nan n s :
  (0 < n <= 2 ^ 64)%Z → s ≠ 0%Z → (Z.abs s <= 2 ^ 31)%Z →
  ∃ ip fp d x,
    print_double nan (double_div (double_of_Z n) (double_of_Z s)) =
      sign_text (bool_decide (s < 0)%Z) ++ (ip ++ point_text fp) ++ shown_text x ∧
    ip ≠ [] ∧ forallb isdigit ip = true ∧ forallb isdigit fp = true ∧ (-1000 <= x <= 1000)%Z ∧
    inject_Z (decimal_value (ip ++ fp)) * 10 ^ (shown x - Z.of_nat (length fp)) == inject_Z d * 10 ^ (x - 5) ∧
    (10 ^ 5 <= d < 10 ^ 6)%Z ∧
    near (50001 # 10000000000) (inject_Z d * 10 ^ (x - 5)) (inject_Z n / inject_Z (Z.abs s)).
Proof.
  intros Hn Hs Hs'. destruct (double_quotient n s Hn Hs Hs') as (m & e & -> & Hm & He & Hv).
  simpl. pose proof (scientific_spec _ (double_range m e Hm He)) as Hsc.
  pose proof (scientific_range (inject_Z (Zpos m) * 2 ^ e)) as Hx.
  destruct (scientific _) as [d x]. destruct Hsc as [Hd Hnear]. simpl in Hx.
  destruct (g_text_shape d x Hd Hx) as (ip & fp & Ht & Hip & Hdi & Hdf & Hval).
  exists ip, fp, d, x. split_and!; [by rewrite Ht|done|done|done|lia..|exact Hval|lia|lia|].
  eapply near_weaken; [|eapply near_trans; [| |exact Hnear|exact Hv]]; by vm_compute.
Qed.
