(* ===== verification/ProxyBench.v ===== *)
(** * ProxyBench: the load generator (bench/proxy_bench.cpp)

    Each of its threads keeps [pipeline] requests in flight on one connection and
    counts the replies.  The kernel and the clock are an environment whose answers
    a thread meets one after the other; the RESP decoder and encoder are
    parameters, as in [RespParser]. *)
From S2P Require Import Prelude RespParser CoSocket Config.

(** ** Options *)

Record Options := mkOptions {
  port : Z;
  clients : Z;
  pipeline : Z;
  seconds : Z;
  command : bytes
}.

Definition Options_default : Options := mkOptions 6379 1 1 10 (str "PING").

(** A 32-bit [int] from a wider integer. *)
Definition s32 (z : Z) : Z := ((z + 2 ^ 31) `mod` 2 ^ 32 - 2 ^ 31)%Z.

(** [atoi]: the number [strtol] finds, as an [int]. *)
Definition atoi (s : bytes) : Z := s32 (strtol s).1.

(** What an argument does with its value; [None] for an argument that is ignored. *)
Definition Parse_option (arg : bytes) : option (bytes → Options → Options) :=
  if decide (arg = str "--port") then
    Some (λ v o, mkOptions (atoi v) (clients o) (pipeline o) (seconds o) (command o))
  else if decide (arg = str "--clients") then
    Some (λ v o, mkOptions (port o) (atoi v) (pipeline o) (seconds o) (command o))
  else if decide (arg = str "--pipeline") then
    Some (λ v o, mkOptions (port o) (clients o) (atoi v) (seconds o) (command o))
  else if decide (arg = str "--seconds") then
    Some (λ v o, mkOptions (port o) (clients o) (pipeline o) (atoi v) (command o))
  else if decide (arg = str "--command") then
    Some (λ v o, mkOptions (port o) (clients o) (pipeline o) (seconds o) v)
  else None.

(** The loop over [argv] from [i] on; a missing value is the empty string. *)
Fixpoint Parse_loop (args : list bytes) (o : Options) : Options :=
  match args with
  | [] => o
  | arg :: args =>
      match Parse_option arg, args with
      | None, _ => Parse_loop args o
      | Some set, [] => set [] o
      | Some set, value :: args => Parse_loop args (set value o)
      end
  end.

Definition Parse (args : list bytes) : Options := Parse_loop args Options_default.

(** ** Connect *)

(** How [socket], [connect] ([None] is 0), [poll] and [getsockopt] (its own
    failure, or the pending error) answer. *)
Record Dial := mkDial {
  d_socket : Z;
  d_connect : option Errno;
  d_poll : Z;
  d_getsockopt : option Z
}.

Definition htons_arg (port : Z) : Z := (port `mod` 2 ^ 16)%Z.

Inductive BenchCall :=
  | BcConnect (fd port : Z)
  | BcBlocking (fd : Z) (blocking : bool)
  | BcClose (fd : Z).

(** The descriptor or -1, and the calls that change it; [errno] is what earlier
    calls left, which a [connect] that succeeds does not change. *)
Definition Connect (errno : option Errno) (port : Z) (d : Dial) : Z * list BenchCall :=
  let fd := d_socket d in
  if decide (fd < 0)%Z then ((-1)%Z, []) else
  let dialled := [BcBlocking fd false; BcConnect fd (htons_arg port)] in
  let failed := ((-1)%Z, dialled ++ [BcClose fd]) in
  let connected := (fd, dialled ++ [BcBlocking fd true]) in
  let errno := match d_connect d with Some e => Some e | None => errno end in
  if decide (d_connect d ≠ None ∧ errno ≠ Some EINPROGRESS) then failed
  else if decide (errno = Some EINPROGRESS) then
    if decide (d_poll d <= 0)%Z then failed
    else if decide (d_getsockopt d ≠ Some 0%Z) then failed
    else connected
  else connected.

Section bench.
Context (UnpackOne : bytes → nat → RespLimits → RespResult).
Context (PackCommand : list bytes → bytes).
Context (limits : RespLimits).

(** ** CountReplies *)

(** The [for (;;)] loop: every round but the last takes a reply out of [pending]. *)
Fixpoint CountReplies_loop (fuel : nat) (pending : bytes) (replies : Z) : option (Z * bytes) :=
  match fuel with
  | 0 => None
  | S fuel =>
      let result := UnpackOne pending 256 limits in
      match rr_status result with
      | rNeedMore => Some (replies, pending)
      | rOk => CountReplies_loop fuel (drop (rr_consumed result) pending) (replies + 1)
      | _ => Some (replies, [])
      end
  end.

(** The number of replies and [*pending] afterwards. *)
Definition CountReplies (pending data : bytes) : option (Z * bytes) :=
  CountReplies_loop (S (length (pending ++ data))) (pending ++ data) 0.

(** ** MakeRequest *)

Definition request_args (command : bytes) : list bytes :=
  if decide (command = str "PING") then [str "PING"]
  else if decide (command = str "GET") then [str "GET"; str "bench:key"]
  else [str "SET"; str "bench:key"; str "0123456789abcdef"].

Definition MakeRequest (command : bytes) (pipeline : Z) : bytes :=
  Nat.iter (Z.to_nat pipeline) (λ req, req ++ PackCommand (request_args command)) [].

(** ** Worker *)

(** The points where a thread asks its environment; it has returned, or the
    process was killed by a signal it raised. *)
Inductive BenchPc := BeTop | BeWriting | BeReading | BeDone | BeKilled.

#[global] Instance BenchPc_eq_dec : EqDecision BenchPc.
Proof. solve_decision. Defined.

(** Whether [now() < end], what [write] returns, what [read] stores; no bytes
    are the end of the stream or an error.  A [write] on a connection the peer has
    reset does not return: SIGPIPE, which is not ignored, kills the process. *)
Inductive BenchEvent :=
  | BeNow (before_end : bool)
  | BeWrite (n : Z)
  | BeSigpipe
  | BeRead (data : bytes).

Record Bench := mkBench {
  be_pc : BenchPc;
  be_pending : bytes;
  be_replies : Z;
  be_local : Z;
  be_ops : Z;
  be_calls : list BenchCall
}.

Definition bench_close (fd : Z) (b : Bench) : Bench :=
  mkBench BeDone (be_pending b) (be_replies b) (be_local b) (be_local b)
    (be_calls b ++ [BcClose fd]).

(** The test of the inner loop, and the end of a round. *)
Definition bench_check (o : Options) (b : Bench) : Bench :=
  if decide (be_replies b < pipeline o)%Z
  then mkBench BeReading (be_pending b) (be_replies b) (be_local b) (be_ops b) (be_calls b)
  else mkBench BeTop (be_pending b) (be_replies b) (u64 (be_local b + u64 (pipeline o)))
         (be_ops b) (be_calls b).

Definition bench_step (o : Options) (fd : Z) (ev : BenchEvent) (b : Bench) : option Bench :=
  match be_pc b, ev with
  | BeTop, BeNow true =>
      Some (mkBench BeWriting (be_pending b) (be_replies b) (be_local b) (be_ops b) (be_calls b))
  | BeTop, BeNow false => Some (bench_close fd b)
  | BeWriting, BeWrite n =>
      if decide (n ≠ Z.of_nat (length (MakeRequest (command o) (pipeline o)))) then Some (bench_close fd b)
      else Some (bench_check o (mkBench BeWriting (be_pending b) 0 (be_local b) (be_ops b) (be_calls b)))
  | BeWriting, BeSigpipe =>
      Some (mkBench BeKilled (be_pending b) (be_replies b) (be_local b) (be_ops b) (be_calls b))
  | BeReading, BeRead [] => Some (bench_close fd b)
  | BeReading, BeRead data =>
      '(n, pending) ← CountReplies (be_pending b) data;
      Some (bench_check o (mkBench BeReading pending (be_replies b + n) (be_local b) (be_ops b) (be_calls b)))
  | _, _ => None
  end.

Fixpoint bench_run (o : Options) (fd : Z) (evs : list BenchEvent) (b : Bench) : option Bench :=
  match evs with
  | [] => Some b
  | ev :: evs => b ← bench_step o fd ev b; bench_run o fd evs b
  end.

(** A thread: it has failed to connect, or it is somewhere in its loop. *)
Definition bench_Worker (errno : option Errno) (o : Options) (d : Dial) (evs : list BenchEvent) :
    option Bench :=
  let '(fd, calls) := Connect errno (port o) d in
  if decide (fd < 0)%Z then Some (mkBench BeDone [] 0 0 0 calls)
  else bench_run o fd evs (mkBench BeTop [] 0 0 0 calls).

(** ** main *)

(** The total of what the threads have counted when all of them have returned;
    the vector [ops] cannot be made with a negative size. *)
Definition main_total (o : Options) (threads : list Bench) : option Z :=
  if decide (clients o < 0)%Z then None
  else if decide (Z.of_nat (length threads) = clients o ∧ Forall (λ b, be_pc b = BeDone) threads)
  then Some (foldl (λ total b, u64 (total + be_ops b)) 0%Z threads)
  else None.
End bench.

(** ** What counting means *)

(** What the counting relies on, besides [UnpackOneLaws]: a value is decoded from
    its own bytes alone, and the decoder asks for more when it has been given a
    beginning of something it would understand. *)
Class UnpackOneStreams (UnpackOne : bytes → nat → RespLimits → RespResult) : Prop := {
  us_own input slots lim :
    rr_status (UnpackOne input slots lim) = rOk →
    rr_status (UnpackOne (take (rr_consumed (UnpackOne input slots lim)) input) slots lim) = rOk;
  us_part input more slots lim :
    rr_status (UnpackOne (input ++ more) slots lim) = rOk →
    length input < rr_consumed (UnpackOne (input ++ more) slots lim) →
    rr_status (UnpackOne input slots lim) = rNeedMore;
  us_more input more slots lim :
    rr_status (UnpackOne (input ++ more) slots lim) = rNeedMore →
    rr_status (UnpackOne input slots lim) = rNeedMore
}.

(** [n] complete replies and the beginning of another one. *)
Inductive Decodes (UnpackOne : bytes → nat → RespLimits → RespResult) (limits : RespLimits) :
    bytes → Z → bytes → Prop :=
  | dec_rest rest :
      rr_status (UnpackOne rest 256 limits) = rNeedMore → Decodes UnpackOne limits rest 0 rest
  | dec_reply bs n rest :
      rr_status (UnpackOne bs 256 limits) = rOk →
      Decodes UnpackOne limits (drop (rr_consumed (UnpackOne bs 256 limits)) bs) n rest →
      Decodes UnpackOne limits bs (n + 1) rest.

Section count.
Context (UnpackOne : bytes → nat → RespLimits → RespResult) (limits : RespLimits).
Context `{Laws : !UnpackOneLaws UnpackOne} `{Streams : !UnpackOneStreams UnpackOne}.

(** A reply takes bytes, so the bytes bound the rounds. *)
Lemma loop_total fuel pending replies :
  length pending < fuel →
  ∃ n rest, CountReplies_loop UnpackOne limits fuel pending replies = Some (replies + n, rest)%Z ∧
    (0 <= n)%Z ∧ (3 * n <= Z.of_nat (length pending))%Z.
Proof.
  revert pending replies. induction fuel as [|fuel IH]; intros pending replies Hlen; [lia|]. simpl.
  destruct (rr_status (UnpackOne pending 256 limits)) eqn:Hst;
    try (eexists 0%Z, _; split_and!; [by rewrite Z.add_0_r|lia..]).
  destruct (uo_ok pending 256 limits Hst) as [Hc _].
  destruct (IH (drop (rr_consumed (UnpackOne pending 256 limits)) pending) (replies + 1)%Z)
    as (n & rest & -> & Hn & Hb); [rewrite length_drop; lia|].
  rewrite length_drop in Hb. exists (n + 1)%Z, rest. split_and!; [f_equal; f_equal; lia|lia..].
Qed.

Lemma Decodes_loop bs n rest fuel replies :
  Decodes UnpackOne limits bs n rest → length bs < fuel → CountReplies_loop UnpackOne limits fuel bs replies = Some (replies + n, rest)%Z.
Proof.
  intros Hd. revert fuel replies. induction Hd as [rest Hst|bs n rest Hst Hd IH];
    intros [|fuel] replies Hlen; try lia; simpl; rewrite Hst; [by rewrite Z.add_0_r|].
  destruct (uo_ok bs 256 limits Hst) as [Hc _]. rewrite IH by (rewrite length_drop; lia).
  f_equal. f_equal. lia.
Qed.

(** A reply is decoded the same when what follows it has not arrived. *)
Lemma decode_within a b :
  rr_status (UnpackOne (a ++ b) 256 limits) = rOk →
  rr_consumed (UnpackOne (a ++ b) 256 limits) ≤ length a →
  UnpackOne (a ++ b) 256 limits = UnpackOne a 256 limits.
Proof.
  intros Hst Hle. pose proof (us_own _ _ _ Hst) as Hown. rewrite take_app_le in Hown by done.
  set (c := rr_consumed (UnpackOne (a ++ b) 256 limits)) in *.
  rewrite <-(take_drop c a) at 1 2. rewrite <-(assoc_L (++)).
  by rewrite !(uo_extend (take c a)).
Qed.

(** A stream that decodes, decodes up to any point and from there on. *)
Lemma Decodes_app a b n rest :
  Decodes UnpackOne limits (a ++ b) n rest →
  ∃ k mid, Decodes UnpackOne limits a k mid ∧ Decodes UnpackOne limits (mid ++ b) (n - k) rest.
Proof.
  intros Hd. remember (a ++ b) as bs eqn:Hbs. revert a Hbs.
  induction Hd as [rest Hst|bs n rest Hst Hd IH]; intros a ->.
  { exists 0%Z, a. split; [by apply dec_rest, (us_more a b)|by apply dec_rest]. }
  destruct (decide (length a < rr_consumed (UnpackOne (a ++ b) 256 limits))) as [Hlt|Hge].
  - exists 0%Z, a. split; [by apply dec_rest, (us_part a b)|].
    rewrite Z.sub_0_r. by apply dec_reply.
  - pose proof (decode_within a b Hst ltac:(lia)) as Heq. rewrite Heq in *.
    destruct (IH (drop (rr_consumed (UnpackOne a 256 limits)) a)) as (k & mid & Hk & Hm).
    { by rewrite drop_app_le by lia. }
    exists (k + 1)%Z, mid. split; [by apply dec_reply|].
    by replace (n + 1 - (k + 1))%Z with (n - k)%Z by lia.
Qed.

Lemma Decodes_nonneg bs n rest : Decodes UnpackOne limits bs n rest → (0 <= n)%Z.
Proof. induction 1; lia. Qed.

Lemma Decodes_end bs n rest :
  Decodes UnpackOne limits bs n rest → rr_status (UnpackOne rest 256 limits) = rNeedMore.
Proof. by induction 1. Qed.

Lemma Decodes_count pending data n rest :
  Decodes UnpackOne limits (pending ++ data) n rest → CountReplies UnpackOne limits pending data = Some (n, rest).
Proof. intros Hd. unfold CountReplies. by rewrite (Decodes_loop _ _ _ _ _ Hd) by lia. Qed.
(** The replies in a stream that arrives in pieces. *)
Fixpoint count_chunks (pending : bytes) (chunks : list bytes) : option (Z * bytes) :=
  match chunks with
  | [] => Some (0%Z, pending)
  | data :: chunks =>
      '(n, pending) ← CountReplies UnpackOne limits pending data;
      '(m, pending) ← count_chunks pending chunks;
      Some ((n + m)%Z, pending)
  end.

Lemma Decodes_chunks pending chunks n rest :
  rr_status (UnpackOne pending 256 limits) = rNeedMore →
  Decodes UnpackOne limits (pending ++ concat chunks) n rest → count_chunks pending chunks = Some (n, rest).
Proof.
  revert pending n. induction chunks as [|data chunks IH]; intros pending n Hp Hd; simpl in *.
  { rewrite app_nil_r in Hd. inversion Hd; [done|congruence]. }
  rewrite (assoc_L (++)) in Hd. destruct (Decodes_app _ _ _ _ Hd) as (k & mid & Hk & Hm).
  rewrite (Decodes_count _ _ _ _ Hk). simpl. rewrite (IH mid (n - k)%Z); [|by eapply Decodes_end|done].
  simpl. f_equal. f_equal. lia.
Qed.

(** ** A thread *)

Context (PackCommand : list bytes → bytes) (o : Options) (fd : Z).

Definition received (evs : list BenchEvent) : bytes :=
  concat (omap (λ ev, match ev with BeRead data => Some data | _ => None end) evs).

(** Replies of the current round. *)
Definition credit (b : Bench) : Z := if decide (be_pc b = BeReading) then be_replies b else 0.

(** Clock readings, and whether one of them began a round that is not over. *)
Definition now (ev : BenchEvent) : Z := match ev with BeNow _ => 1 | _ => 0 end.
Definition nows (evs : list BenchEvent) : Z := foldr (λ ev n, now ev + n)%Z 0%Z evs.
Definition begun (b : Bench) : Z := if decide (be_pc b = BeTop) then 0 else 1.

(** A step completes a round when it leads back to the clock. *)
Lemma bench_step_rounds ev b b' :
  bench_step UnpackOne PackCommand limits o fd ev b = Some b' →
  let j := (now ev + begun b - begun b')%Z in
  (0 <= j)%Z ∧ be_local b' = u64 (be_local b + pipeline o * j) ∨ j = 0%Z ∧ be_local b' = be_local b.
Proof.
  unfold bench_step, bench_check, begun.
  destruct (be_pc b) eqn:Hpc, ev as [[]|n| |[|c data]]; try done; simpl; intros Hs.
  all: try (destruct (CountReplies _ _ _ _) as [[k p]|]; [|done]); simpl in Hs.
  all: repeat case_decide; simplify_eq/=; try (by right); try congruence.
  all: left; split; [lia|]; rewrite Z.mul_1_r; unfold u64; by rewrite Zplus_mod_idemp_r.
Qed.

Lemma bench_run_rounds evs b b' L :
  bench_run UnpackOne PackCommand limits o fd evs b = Some b' → be_local b = u64 L →
  (0 <= nows evs + begun b - begun b')%Z ∧
  be_local b' = u64 (L + pipeline o * (nows evs + begun b - begun b')).
Proof.
  revert b L. induction evs as [|ev evs IH]; intros b L Hrun HL; simpl in Hrun.
  { simplify_eq. replace (nows [] + begun b' - begun b')%Z with 0%Z by (simpl; lia).
    by rewrite Z.mul_0_r, Z.add_0_r. }
  destruct (bench_step _ _ _ _ _ ev b) as [b1|] eqn:Hstep; [|done]. simpl in *.
  apply bench_step_rounds in Hstep. set (j := (now ev + begun b - begun b1)%Z) in *.
  destruct (IH b1 (L + pipeline o * j)%Z Hrun) as [Hn ->].
  { destruct Hstep as [[_ ->]|[-> ->]]; rewrite HL; [|by rewrite Z.mul_0_r, Z.add_0_r].
    unfold u64. by rewrite Zplus_mod_idemp_l. }
  split; [lia|]. f_equal. unfold j. lia.
Qed.

(** What the inner loop has counted pays for the round that it completes. *)
Lemma bench_check_counts b :
  (0 <= be_replies b)%Z → be_pc b ≠ BeTop →
  let b' := bench_check o b in
  be_pending b' = be_pending b ∧ be_replies b' = be_replies b ∧
  (pipeline o * (begun b - begun b') + credit b' <= be_replies b)%Z.
Proof.
  intros Hr Hpc. unfold bench_check, begun. rewrite (decide_False (P := be_pc b = BeTop)) by done.
  case_decide; split_and!; try done; unfold credit; simpl; lia.
Qed.

Lemma bench_step_counts ev evs b b' total rest :
  bench_step UnpackOne PackCommand limits o fd ev b = Some b' → (0 <= be_replies b)%Z →
  Decodes UnpackOne limits (be_pending b ++ received (ev :: evs)) total rest →
  ∃ total', (0 <= be_replies b')%Z ∧ Decodes UnpackOne limits (be_pending b' ++ received evs) total' rest ∧
    (pipeline o * (now ev + begun b - begun b') + credit b' + total' <= credit b + total)%Z.
Proof.
  intros Hstep Hr Hd.
  assert (∀ pc ops calls, received (ev :: evs) = received evs → pc ≠ BeReading → pc ≠ BeTop →
    (now ev + begun b = 1)%Z → b' = mkBench pc (be_pending b) (be_replies b) (be_local b) ops calls →
    ∃ total', (0 <= be_replies b')%Z ∧ Decodes UnpackOne limits (be_pending b' ++ received evs) total' rest ∧
      (pipeline o * (now ev + begun b - begun b') + credit b' + total' <= credit b + total)%Z) as Hidle.
  { intros pc ops calls Hrec Hpc Htop Hnow ->. exists total. rewrite Hnow, <-Hrec. unfold begun, credit. simpl.
    rewrite (decide_False (P := pc = BeReading)), (decide_False (P := pc = BeTop)) by done.
    split_and!; [done..|case_decide; lia]. }
  assert (∀ pc pending replies, pc ≠ BeTop →
    begun (mkBench pc pending replies (be_local b) (be_ops b) (be_calls b)) = 1%Z) as Hbegun.
  { intros pc pending replies Hpc. unfold begun. by rewrite decide_False. }
  unfold bench_step in Hstep.
  assert (be_pc b ≠ BeTop → begun b = 1%Z) as Hb by (intros ?; unfold begun; by rewrite decide_False).
  destruct (be_pc b) eqn:Hpc, ev as [before|n| |data]; try done.
  - assert (begun b = 0%Z) as Hb0 by (unfold begun; by rewrite Hpc).
    destruct before; simplify_eq; (eapply Hidle; [..|reflexivity]); simpl; rewrite ?Hb0; done.
  - specialize (Hb ltac:(done)). case_decide; simplify_eq; [by eapply Hidle; [..|reflexivity]; simpl; rewrite ?Hb|].
    destruct (bench_check_counts (mkBench BeWriting (be_pending b) 0 (be_local b) (be_ops b) (be_calls b)))
      as (Hpen & Hrep & Hc); [done..|]. rewrite Hbegun in Hc by done. cbn [be_pending be_replies] in *.
    exists total. rewrite Hpen, Hrep, Hb. split_and!; [done..|]. unfold credit at 2. rewrite Hpc. simpl. lia.
  - specialize (Hb ltac:(done)). simplify_eq. by eapply Hidle; [..|reflexivity]; simpl; rewrite ?Hb.
  - specialize (Hb ltac:(done)).
    destruct data as [|c data]; [simplify_eq; by eapply Hidle; [..|reflexivity]; simpl; rewrite ?Hb|].
    change (received _) with ((c :: data) ++ received evs) in Hd. rewrite (assoc_L (++)) in Hd.
    apply Decodes_app in Hd as (k & mid & Hk & Hm). rewrite (Decodes_count _ _ _ _ Hk) in Hstep.
    pose proof (Decodes_nonneg _ _ _ Hk). simpl in Hstep. injection Hstep as <-.
    destruct (bench_check_counts (mkBench BeReading mid (be_replies b + k) (be_local b) (be_ops b) (be_calls b)))
      as (Hpen & Hrep & Hc); [simpl; lia|done|]. rewrite Hbegun in Hc by done. cbn [be_pending be_replies] in *.
    exists (total - k)%Z. rewrite Hpen, Hrep, Hb. split_and!; [lia|done|].
    unfold credit at 2. rewrite Hpc. simpl. lia.
Qed.

Lemma bench_run_counts evs b b' total rest :
  bench_run UnpackOne PackCommand limits o fd evs b = Some b' → (0 <= be_replies b)%Z →
  Decodes UnpackOne limits (be_pending b ++ received evs) total rest →
  (pipeline o * (nows evs + begun b - begun b') <= credit b + total)%Z.
Proof.
  revert b total. induction evs as [|ev evs IH]; intros b total Hrun Hr Hd; simpl in Hrun.
  { simplify_eq. pose proof (Decodes_nonneg _ _ _ Hd). unfold credit. simpl. case_decide; lia. }
  destruct (bench_step _ _ _ _ _ ev b) as [b1|] eqn:Hstep; [|done]. simpl in *.
  destruct (bench_step_counts ev evs b b1 total rest) as (t & Hr1 & Hd1 & Hle); [done..|].
  specialize (IH b1 t Hrun Hr1 Hd1). lia.
Qed.

(** The descriptor is closed by the step that ends the thread, which stores the
    result; nothing else touches either, and nothing follows. *)
Lemma bench_step_calls ev b b' :
  bench_step UnpackOne PackCommand limits o fd ev b = Some b' →
  be_pc b ≠ BeDone ∧
  (if decide (be_pc b' = BeDone) then be_calls b' = be_calls b ++ [BcClose fd] ∧ be_ops b' = be_local b'
   else be_calls b' = be_calls b ∧ be_ops b' = be_ops b).
Proof.
  unfold bench_step, bench_check. destruct (be_pc b), ev as [[]|n| |[|c data]]; try done; intros Hs; (split; [done|]).
  - by simplify_eq.
  - by simplify_eq.
  - repeat case_decide; by simplify_eq/=.
  - by simplify_eq.
  - by simplify_eq.
  - destruct (CountReplies _ _ _ _) as [[k p]|]; [|done]. simpl in Hs. repeat case_decide; by simplify_eq/=.
Qed.

Lemma bench_run_calls evs b b' :
  bench_run UnpackOne PackCommand limits o fd evs b = Some b' → be_pc b ≠ BeDone →
  if decide (be_pc b' = BeDone) then be_calls b' = be_calls b ++ [BcClose fd] ∧ be_ops b' = be_local b'
  else be_calls b' = be_calls b ∧ be_ops b' = be_ops b.
Proof.
  revert b. induction evs as [|ev evs IH]; intros b Hrun Hpc; simpl in Hrun.
  { simplify_eq. by rewrite decide_False. }
  destruct (bench_step _ _ _ _ _ ev b) as [b1|] eqn:Hstep; [|done]. simpl in Hrun.
  apply bench_step_calls in Hstep as [_ Hs]. destruct (decide (be_pc b1 = BeDone)) as [Hd|Hd].
  - destruct evs as [|ev' evs]; simpl in Hrun; [simplify_eq; by rewrite decide_True|].
    destruct (bench_step _ _ _ _ _ ev' b1) as [b2|] eqn:Hstep2; [|done].
    by apply bench_step_calls in Hstep2 as [? _].
  - destruct Hs as [Hc Ho]. specialize (IH b1 Hrun Hd). by rewrite Hc, Ho in IH.
Qed.
End count.

(** ** The sample decoder *)

Lemma demo_unpack_ok input slots lim :
  rr_status (demo_unpack input slots lim) = rOk →
  ∃ f, f `prefix_of` input ∧ (f = ping_frame ∨ f = pong_frame) ∧
    rr_consumed (demo_unpack input slots lim) = length f.
Proof. unfold demo_unpack. repeat case_decide; try done; eauto 10. Qed.

Lemma demo_unpack_part input f slots lim :
  f = ping_frame ∨ f = pong_frame → input `prefix_of` f → length input < length f →
  rr_status (demo_unpack input slots lim) = rNeedMore.
Proof.
  intros Hf Hp Hlen.
  assert (∀ g, g = ping_frame ∨ g = pong_frame → ¬ g `prefix_of` input) as Hno.
  { intros g Hg Hgi. pose proof (prefix_length _ _ Hgi). destruct (transitivity Hgi Hp) as [k Hk].
    destruct Hf as [-> | ->], Hg as [-> | ->]; simpl in *; (lia || by simplify_eq/=). }
  unfold demo_unpack. rewrite !decide_False by auto. rewrite decide_True; [done|].
  destruct Hf as [-> | ->]; auto.
Qed.

#[global] Instance demo_unpack_streams : UnpackOneStreams demo_unpack.
Proof.
  split.
  - intros input slots lim Hst. pose proof (demo_unpack_ok _ _ _ Hst) as (f & [k ->] & Hf & Hc).
    rewrite Hc, take_app_length. revert Hst. unfold demo_unpack.
    destruct Hf as [-> | ->]; simpl; repeat case_decide; try done.
  - intros input more slots lim (f & Hp & Hf & ->)%demo_unpack_ok Hlt.
    eapply demo_unpack_part; [exact Hf| |done].
    destruct Hp as [k Hk]. apply app_eq_inv in Hk as [(x & -> & _)|(x & -> & _)].
    + rewrite length_app in Hlt. lia.
    + by exists x.
  - intros input more slots lim Hst.
    assert (∃ f, (f = ping_frame ∨ f = pong_frame) ∧ input ++ more `prefix_of` f ∧ ¬ f `prefix_of` input ++ more)
      as (f & Hf & [k Hk] & Hn).
    { revert Hst. unfold demo_unpack. repeat case_decide; try done. intros _. naive_solver. }
    apply (demo_unpack_part input f); [done| |].
    + exists (more ++ k). by rewrite (assoc_L (++)).
    + destruct (decide (length input < length f)) as [|Hge]; [done|]. destruct Hn.
      subst f. exists []. rewrite !length_app in Hge. destruct more; simpl in *; [|lia].
      destruct k; simpl in *; [|lia]. by rewrite !app_nil_r.
Qed.

(** ** Properties *)

(** [CountReplies] always returns, having found at most one reply per three bytes. *)
Lemma CountReplies_total UnpackOne limits `{!UnpackOneLaws UnpackOne} pending data :
  ∃ k left, CountReplies UnpackOne limits pending data = Some (k, left) ∧
     (0 <= 3 * k <= Z.of_nat (length (pending ++ data)))%Z.
Proof.
  destruct (loop_total UnpackOne limits (S (length (pending ++ data))) (pending ++ data) 0)
    as (k & left & Hl & ? & ?); [lia|].
  exists k, left. split; [exact Hl|lia].
Qed.

(** A stream of replies that is read in pieces, cut anywhere: the pieces add up to
    the replies in the stream, and what is kept is the beginning of the next one. *)
Lemma count_replies_chunking UnpackOne limits `{!UnpackOneLaws UnpackOne, !UnpackOneStreams UnpackOne}
    chunks n rest :
  Decodes UnpackOne limits (concat chunks) n rest →
  count_chunks UnpackOne limits [] chunks = Some (n, rest).
Proof.
  intros Hd. apply Decodes_chunks; [done..| |done].
  destruct (Decodes_app UnpackOne limits [] (concat chunks) n rest Hd) as (k & mid & Hk & _).
  inversion Hk as [? Hst|? ? ? Hst]; subst; [done|].
  destruct (uo_ok _ _ _ Hst) as [? _]. simpl in *. lia.
Qed.

(** What the thread asks of its environment at [pc]. *)
Definition answers (pc : BenchPc) (ev : BenchEvent) : Prop :=
  match pc, ev with
  | BeTop, BeNow _ | BeWriting, (BeWrite _ | BeSigpipe) | BeReading, BeRead _ => True
  | _, _ => False
  end.

Lemma bench_step_total UnpackOne PackCommand limits `{!UnpackOneLaws UnpackOne} o fd ev b :
  answers (be_pc b) ev → is_Some (bench_step UnpackOne PackCommand limits o fd ev b).
Proof.
  unfold bench_step. destruct (be_pc b), ev as [[]|n| |[|c data]]; try done; intros _; [by case_decide|].
  destruct (CountReplies_total UnpackOne limits (be_pending b) (c :: data)) as (k & left & -> & _). done.
Qed.

Definition demo_limits : RespLimits := mkRespLimits 1024 1024 8.
Definition demo_chunks : list bytes := [take 10 (pong_frame ++ pong_frame); drop 10 (pong_frame ++ pong_frame) ++ [ch 43]].

Lemma demo_decodes : Decodes demo_unpack demo_limits (concat demo_chunks) 2 [ch 43].
Proof.
  assert (concat demo_chunks = pong_frame ++ pong_frame ++ [ch 43]) as -> by (vm_compute; reflexivity).
  apply (dec_reply _ _ _ 1); [vm_compute; reflexivity|].
  apply (dec_reply _ _ _ 0); [vm_compute; reflexivity|].
  apply dec_rest. vm_compute. reflexivity.
Qed.

Definition closed (calls : list BenchCall) : list Z :=
  omap (λ c, match c with BcClose fd => Some fd | _ => None end) calls.

Lemma Connect_closed errno port d :
  let '(fd, calls) := Connect errno port d in
  (fd < 0)%Z ∧ closed calls = (if decide (0 <= d_socket d)%Z then [d_socket d] else []) ∨
  fd = d_socket d ∧ closed calls = [] ∧ (0 <= d_socket d)%Z.
Proof. unfold Connect. repeat case_decide; simpl; try lia; auto 10 with lia. Qed.

(** Each reading of the clock begins a round or ends the loop; the round is complete
    when the thread is back at the clock.  A thread without a connection does not
    get there. *)
Definition rounds (fd : Z) (evs : list BenchEvent) (b : Bench) : Z :=
  if decide (fd < 0)%Z then 0 else nows evs - begun b.

Lemma bench_Worker_rounds UnpackOne PackCommand limits errno o d evs b :
  bench_Worker UnpackOne PackCommand limits errno o d evs = Some b →
  let n := rounds (Connect errno (port o) d).1 evs b in
  (0 <= n)%Z ∧ be_local b = u64 (pipeline o * n) ∧ be_ops b = (if decide (be_pc b = BeDone) then be_local b else 0%Z).
Proof.
  unfold bench_Worker, rounds. destruct (Connect errno (port o) d) as [fd calls]. simpl.
  case_decide as Hfd; [intros [= <-]; by rewrite Z.mul_0_r|]. intros Hw.
  destruct (bench_run_rounds UnpackOne limits PackCommand o fd evs _ b 0 Hw eq_refl) as [Hn Hl].
  pose proof (bench_run_calls UnpackOne limits PackCommand o fd evs _ b Hw ltac:(done)) as Hcalls.
  change (begun (mkBench BeTop [] 0 0 0 calls)) with 0%Z in *. rewrite Z.add_0_r in *. split_and!; [done..|].
  case_decide; by destruct Hcalls.
Qed.

Lemma bench_Worker_served UnpackOne PackCommand limits `{!UnpackOneLaws UnpackOne, !UnpackOneStreams UnpackOne}
    errno o d evs b total rest :
  bench_Worker UnpackOne PackCommand limits errno o d evs = Some b →
  Decodes UnpackOne limits (received evs) total rest →
  (pipeline o * rounds (Connect errno (port o) d).1 evs b <= total)%Z ∧
  ((0 <= pipeline o)%Z → (be_local b <= total)%Z).
Proof.
  intros Hw Hd. destruct (bench_Worker_rounds _ _ _ _ _ _ _ _ Hw) as (Hn & Hl & _).
  assert (pipeline o * rounds (Connect errno (port o) d).1 evs b <= total)%Z as Hle.
  { clear Hn Hl. pose proof (Decodes_nonneg _ _ _ _ _ Hd) as Hpos. unfold rounds, bench_Worker in *.
    destruct (Connect errno (port o) d) as [fd calls]. simpl. case_decide as Hfd; [lia|].
    pose proof (bench_run_counts UnpackOne limits PackCommand o fd evs _ b total rest Hw ltac:(done) Hd) as Hc.
    change (begun (mkBench BeTop [] 0 0 0 calls)) with 0%Z in Hc.
    change (credit (mkBench BeTop [] 0 0 0 calls)) with 0%Z in Hc. lia. }
  split; [done|]. intros Hp. rewrite Hl. etransitivity; [apply Z.mod_le; nia|done].
Qed.

(** C39: What a thread of the load generator counts.  Wherever the thread is, its
    count is the size of a round times the number of rounds it has completed, modulo
    2^64: all the rounds its readings of the clock began but the one it is in.
    [*ops] is that count when the thread has returned and 0 until then.  If the
    decoder reads streams piecewise and the bytes the thread read are well-formed
    replies and the beginning of another, the completed rounds account for no more
    replies than there were, and so does the count unless [--pipeline] is negative.
    The descriptor is closed once, when the thread returns or fails to connect;
    and whatever the clock and the kernel answer, the thread goes on. *)
Theorem bench_counts_served UnpackOne PackCommand limits errno o d evs b :
  UnpackOneLaws UnpackOne →
  bench_Worker UnpackOne PackCommand limits errno o d evs = Some b →
  let n := rounds (Connect errno (port o) d).1 evs b in
  (0 <= n)%Z ∧ be_local b = u64 (pipeline o * n) ∧
  be_ops b = (if decide (be_pc b = BeDone) then be_local b else 0%Z) ∧
  (UnpackOneStreams UnpackOne → ∀ total rest, Decodes UnpackOne limits (received evs) total rest →
     (pipeline o * n <= total)%Z ∧ ((0 <= pipeline o)%Z → (be_local b <= total)%Z)) ∧
  closed (be_calls b) = (if decide (0 <= d_socket d ∧ be_pc b = BeDone)%Z then [d_socket d] else []) ∧
  (∀ fd ev, answers (be_pc b) ev → is_Some (bench_step UnpackOne PackCommand limits o fd ev b)).
Proof.
  intros Laws Hw n. destruct (bench_Worker_rounds _ _ _ _ _ _ _ _ Hw) as (Hn & Hl & Ho).
  split_and!; [done..| | |by intros; apply bench_step_total].
  { intros Streams total rest Hd. by eapply bench_Worker_served. }
  clear n Hn Hl Ho. unfold bench_Worker in Hw. pose proof (Connect_closed errno (port o) d) as Hcon.
  destruct (Connect errno (port o) d) as [fd calls].
  destruct (decide (fd < 0)%Z) as [Hneg|Hneg].
  - injection Hw as <-. cbn [be_pc be_calls]. destruct Hcon as [[_ ->]|(-> & _ & ?)]; [|lia].
    repeat case_decide; naive_solver.
  - destruct Hcon as [[? _]|(-> & Hcl & Hs)]; [lia|].
    pose proof (bench_run_calls UnpackOne limits PackCommand o (d_socket d) evs _ b Hw ltac:(done)) as Hcalls.
    destruct (decide (be_pc b = BeDone)) as [Hdone|Hdone]; destruct Hcalls as [-> _]; simpl; unfold closed in *.
    + rewrite omap_app, Hcl. by rewrite decide_True.
    + rewrite Hcl. rewrite decide_False; [done|]. tauto.
Qed.

Definition demo_options : Options :=
  Parse [str "--pipeline"; str "2"; str "--verbose"; str "--command"; str "PING"; str "--seconds"].
Definition demo_pack (args : list bytes) : bytes := concat args.
Definition demo_dial : Dial := mkDial 7 (Some EINPROGRESS) 1 (Some 0%Z).
Definition demo_bench_events : list BenchEvent :=
  [BeNow true; BeWrite 8] ++ (BeRead <$> demo_chunks) ++ [BeNow false].

Lemma bench_counts_served_witness :
  ∃ b, bench_Worker demo_unpack demo_pack demo_limits None demo_options demo_dial demo_bench_events = Some b ∧
    rounds 7 demo_bench_events b = 1%Z ∧ be_ops b = 2%Z ∧ (be_local b <= 2)%Z ∧ closed (be_calls b) = [7%Z].
Proof.
  eexists. split; [vm_compute; reflexivity|]. split; [vm_compute; reflexivity|].
  match goal with |- be_ops ?b = _ ∧ _ =>
    destruct (bench_counts_served demo_unpack demo_pack demo_limits None demo_options demo_dial
                demo_bench_events b demo_unpack_laws ltac:(vm_compute; reflexivity))
      as (_ & _ & Hops & Hserved & Hcl & _)
  end.
  split; [rewrite Hops; reflexivity|]. split; [|rewrite Hcl; reflexivity].
  apply (Hserved demo_unpack_streams 2%Z [ch 43] demo_decodes). vm_compute. discriminate.
Defined.

(** With a negative size of rounds there is nothing to wait for: a round is over when
    its empty request has been written, and a thread that has read nothing reports
    2^64 - 1 operations. *)
Example negative_pipeline :
  be_ops <$> bench_Worker demo_unpack demo_pack demo_limits None (Parse [str "--pipeline"; str "-1"]) demo_dial
    [BeNow true; BeWrite 0; BeNow false] = Some (2 ^ 64 - 1)%Z.
Proof. vm_compute. reflexivity. Qed.

(** A connection that breaks between two rounds kills the process: what was counted
    is lost. *)
Example broken_connection :
  (λ b, (be_pc b, be_local b, be_ops b)) <$>
    bench_Worker demo_unpack demo_pack demo_limits None demo_options demo_dial
      ([BeNow true; BeWrite 8] ++ (BeRead <$> demo_chunks) ++ [BeNow true; BeSigpipe]) =
  Some (BeKilled, 2%Z, 0%Z).
Proof. vm_compute. reflexivity. Qed.

(** [main] adds up what the threads report. *)
Lemma main_total_sum o threads :
  clients o = Z.of_nat (length threads) → Forall (λ b, be_pc b = BeDone) threads →
  main_total o threads = Some (u64 (foldr Z.add 0 (be_ops <$> threads)))%Z.
Proof.
  intros Hc Hd. unfold main_total. rewrite (decide_False (P := (clients o < 0)%Z)) by lia.
  rewrite decide_True by done. f_equal.
  assert (∀ z, foldl (λ total b, u64 (total + be_ops b)) (u64 z) threads =
               u64 (z + foldr Z.add 0 (be_ops <$> threads)))%Z as Hsum; [|exact (Hsum 0%Z)].
  clear Hc Hd. induction threads as [|b threads IH]; intros z; simpl; [by rewrite Z.add_0_r|].
  replace (u64 (u64 z + be_ops b)) with (u64 (z + be_ops b)).
  - rewrite IH. csimpl. by rewrite (assoc_L Z.add).
  - unfold u64. by rewrite Zplus_mod_idemp_l.
Qed.
