(* ===== verification/BenchReport.v ===== *)
(** * BenchReport: what the load generator prints
    (bench/proxy_bench.cpp, [main]; bench/run_single_worker_qps.sh)

    [main] runs the threads, adds up their counts and prints a line; the script that
    drives it takes the rate out of that line.  Every thread has its own connection
    and its own counter, so each runs against an environment of its own. *)
From Stdlib Require Import QArith Qabs Qpower Lqa SpecFloat.
From S2P Require Import Prelude RespParser CoSocket Config Double NumberText ProxyBench.

(** ** main *)

(** [static_cast<double>(total) / options.seconds]. *)
Definition qps (total seconds : Z) : spec_float := double_div (double_of_Z total) (double_of_Z seconds).

(** A name in quotes and the colon after it. *)
Definition key (name : string) : bytes := [ch 34] ++ str name ++ [ch 34] ++ str ":".

(** The line up to the rate. *)
Definition report_head (o : Options) : bytes :=
  str "{" ++ key "clients" ++ print_int (clients o) ++
  str "," ++ key "pipeline" ++ print_int (pipeline o) ++
  str "," ++ key "seconds" ++ print_int (seconds o) ++
  str "," ++ key "command" ++ [ch 34] ++ command o ++ [ch 34] ++ str ",".

Definition report (nan : bytes) (o : Options) (total : Z) : bytes :=
  report_head o ++ key "qps" ++ print_double nan (qps total (seconds o)) ++ str "}" ++ [ch 10].

(** What a thread finds: [errno] when it starts, how its connection goes, and the
    answers of the clock and the socket. *)
Record BenchEnv := mkBenchEnv {
  en_errno : option Errno;
  en_dial : Dial;
  en_events : list BenchEvent
}.

(** [main] dies of an exception, the process of a signal a thread raised; or [main]
    waits for a thread in [join], or returns having printed [out]. *)
Inductive BenchOutcome := BoAborted | BoKilled | BoWaiting | BoExit (out : bytes) (code : Z).

Section main.
Context (UnpackOne : bytes → nat → RespLimits → RespResult).
Context (PackCommand : list bytes → bytes).
Context (limits : RespLimits).

Definition bench_main (nan : bytes) (args : list bytes) (envs : nat → BenchEnv) : option BenchOutcome :=
  let o := Parse args in
  if decide (clients o < 0)%Z then Some BoAborted else
  threads ← mapM (λ i, bench_Worker UnpackOne PackCommand limits (en_errno (envs i)) o
                         (en_dial (envs i)) (en_events (envs i))) (seq 0 (Z.to_nat (clients o)));
  if decide (Exists (λ b, be_pc b = BeKilled) threads) then Some BoKilled else
  match main_total o threads with
  | None => Some BoWaiting
  | Some total => Some (BoExit (report nan o total) 0)
  end.
End main.

(** ** The script *)

(** What follows the last occurrence of [pattern]. *)
Fixpoint after_last (pattern s : bytes) : option bytes :=
  match s with
  | [] => None
  | _ :: s' =>
      match after_last pattern s' with
      | Some rest => Some rest
      | None => if decide (pattern `prefix_of` s) then Some (drop (length pattern) s) else None
      end
  end.

(** The [sed] expression: the longest run of digits and points after the last
    [qps] key. *)
Definition script_qps (line : bytes) : option bytes :=
  (λ s, (span (λ c, isdigit c || bool_decide (c = "."%char)) s).1) <$> after_last (key "qps") line.

(** ** Lemmas *)

Lemma after_last_none c p s : c ∉ s → after_last (c :: p) s = None.
Proof.
  induction s as [|a s IH]; intros Hc; [done|]. cbn [after_last]. rewrite IH by set_solver.
  rewrite decide_False; [done|]. intros [k [= -> _]]. set_solver.
Qed.

Lemma after_last_app pattern pre s r :
  after_last pattern s = Some r → after_last pattern (pre ++ s) = Some r.
Proof. intros Hs. induction pre as [|c pre IH]; [done|]. simpl. by rewrite IH. Qed.

Lemma after_last_key pre t : ch 34 ∉ t → after_last (key "qps") (pre ++ key "qps" ++ t) = Some t.
Proof.
  intros Ht. apply after_last_app. change (key "qps") with (ch 34 :: str "qps" ++ [ch 34] ++ str ":").
  simpl app. cbn [after_last]. rewrite after_last_none by done.
  rewrite 5!decide_False by (intros [k Hk]; discriminate Hk).
  rewrite decide_True; [done|]. by exists t.
Qed.

Lemma digits_quote s : forallb isdigit s = true → ch 34 ∉ s.
Proof. intros Hs Hin%list_elem_of_In. eapply List.forallb_forall in Hs; [|done]. done. Qed.

Lemma shown_text_quote x : (-1000 <= x <= 1000)%Z → ch 34 ∉ shown_text x.
Proof.
  intros Hx. unfold shown_text, exponent_text.
  destruct (decimal_spec (Z.abs x)) as (_ & Hd & _); [unfold ullong_max; lia|]. apply digits_quote in Hd.
  repeat case_decide; cbn [str app String.list_ascii_of_string]; rewrite ?not_elem_of_cons;
    [apply not_elem_of_nil|by split_and!..].
Qed.

(** The mantissa is what the script sees. *)
Lemma script_mantissa pre ip fp x :
  forallb isdigit ip = true → forallb isdigit fp = true → (-1000 <= x <= 1000)%Z →
  script_qps (pre ++ key "qps" ++ ((ip ++ point_text fp) ++ shown_text x) ++ str "}" ++ [ch 10]) =
  Some (ip ++ point_text fp).
Proof.
  intros Hip Hfp Hx. unfold script_qps. rewrite after_last_key; simpl.
  - rewrite <-(assoc_L (++)), span_all; [done| |unfold shown_text, exponent_text; by repeat case_decide].
    assert (∀ s, forallb isdigit s = true → forallb (λ c, isdigit c || bool_decide (c = "."%char)) s = true) as Hd.
    { intros s Hs. apply List.forallb_forall. intros c Hc. eapply List.forallb_forall in Hs; [|done]. by rewrite Hs. }
    rewrite forallb_app, Hd by done. destruct fp as [|c fp]; [done|]. exact (Hd (c :: fp) Hfp).
  - pose proof (digits_quote _ Hip). pose proof (digits_quote _ Hfp). pose proof (shown_text_quote _ Hx).
    rewrite !elem_of_app. intros [[[?|Hp]|?]|Hp]; [done| |done|].
    + destruct fp; [by apply elem_of_nil in Hp|]. apply elem_of_cons in Hp as [?|?]; done.
    + repeat (apply elem_of_cons in Hp as [?|Hp]; [done|]). by apply elem_of_nil in Hp.
Qed.

(** ** The counts of the threads *)

Definition Zsum (zs : list Z) : Z := foldr Z.add 0%Z zs.

Section counts.
Context (UnpackOne : bytes → nat → RespLimits → RespResult) (limits : RespLimits).
Context `{Laws : !UnpackOneLaws UnpackOne} `{Streams : !UnpackOneStreams UnpackOne}.
Context (PackCommand : list bytes → bytes) (o : Options) (envs : nat → BenchEnv).
Context (served : nat → Z).

Definition thread (i : nat) : option Bench :=
  bench_Worker UnpackOne PackCommand limits (en_errno (envs i)) o (en_dial (envs i)) (en_events (envs i)).

(** The threads [ids] have read [served] replies each, and have returned. *)
Lemma threads_total threads (ids : list nat) :
  (0 <= pipeline o)%Z →
  Forall2 (λ i b, thread i = Some b) ids threads → Forall (λ b, be_pc b = BeDone) threads →
  Forall (λ i, ∃ rest, Decodes UnpackOne limits (received (en_events (envs i))) (served i) rest) ids →
  (0 <= Zsum (be_ops <$> threads) <= Zsum (served <$> ids))%Z.
Proof.
  intros Hp Hth. induction Hth as [|i b ids threads Hb Hth IH]; intros Hdone Hdec; [done|].
  apply Forall_cons in Hdone as [Hd Hdone], Hdec as [[rest Hrest] Hdec].
  pose proof (IH Hdone Hdec) as Ht.
  destruct (bench_Worker_rounds _ _ _ _ _ _ _ _ Hb) as (_ & Hl & Hops).
  destruct (bench_Worker_served _ _ _ _ _ _ _ _ _ _ Hb Hrest) as [_ Hle].
  csimpl. change (Zsum (?x :: ?l)) with (x + Zsum l)%Z. rewrite Hops, decide_True by done.
  pose proof (u64_range (pipeline o * rounds (Connect (en_errno (envs i)) (port o) (en_dial (envs i))).1
    (en_events (envs i)) b)). specialize (Hle Hp). lia.
Qed.
End counts.

(** The options are [int]s. *)
Definition int_seconds (o : Options) : Prop := (- 2 ^ 31 <= seconds o < 2 ^ 31)%Z.

Lemma Parse_option_int arg set v o : Parse_option arg = Some set → int_seconds o → int_seconds (set v o).
Proof.
  unfold Parse_option, int_seconds. intros Hs Ho. repeat case_decide; simplify_eq/=; try done.
  unfold atoi, s32. pose proof (Z.mod_pos_bound ((strtol v).1 + 2 ^ 31) (2 ^ 32)). lia.
Qed.

Lemma Parse_loop_int args o : int_seconds o → int_seconds (Parse_loop args o).
Proof.
  revert o. induction args as [args IH] using (induction_ltof1 _ length). unfold ltof in IH. intros o Ho.
  destruct args as [|arg args]; [done|]. simpl. destruct (Parse_option arg) as [set|] eqn:Hopt.
  - destruct args as [|v args]; [by eapply Parse_option_int|].
    apply IH; [simpl; lia|]. by eapply Parse_option_int.
  - by apply IH; [simpl; lia|].
Qed.

(** ** The text of the rate *)

Section rate.
Local Open Scope Q_scope.

(** Six digits: half a unit of the last one, and three roundings to 53 bits. *)
Definition rate_error : Q := 50001 # 10000000000.

Lemma significand_range d x :
  (10 ^ 5 <= d < 10 ^ 6)%Z → 10 ^ x <= inject_Z d * 10 ^ (x - 5) < 10 ^ (x + 1).
Proof.
  intros Hd. assert (100000 <= inject_Z d < 1000000) as [H1 H2].
  { change 100000 with (inject_Z (10 ^ 5)). change 1000000 with (inject_Z (10 ^ 6)).
    rewrite <-Zle_Qle, <-Zlt_Qlt. exact Hd. }
  replace x with (5 + (x - 5))%Z at 1 by lia. replace (x + 1)%Z with (6 + (x - 5))%Z by lia.
  rewrite !pow10_add. change (10 ^ 5) with 100000. change (10 ^ 6) with 1000000.
  pose proof (pow10_pos (x - 5)). split; nra.
Qed.

(** A rate that is neither small nor large is printed without an exponent, a large
    one with. *)
Lemma rate_exponent d x r :
  (10 ^ 5 <= d < 10 ^ 6)%Z → near rate_error (inject_Z d * 10 ^ (x - 5)) r →
  ((1 # 1000) <= r <= 999990 → (-4 <= x < 6)%Z) ∧ (1000010 <= r → (6 <= x)%Z).
Proof.
  intros Hd Hn. pose proof (significand_range d x Hd) as [Hlo Hhi]. unfold near, rate_error in Hn.
  set (v := inject_Z d * 10 ^ (x - 5)) in *.
  assert (∀ a b : Z, (a <= b)%Z → 10 ^ a <= 10 ^ b) as Hmono.
  { intros a b Hab. by apply Qpower_le_compat_l. }
  assert (∀ y, Qabs y <= rate_error * r → - (rate_error * r) <= y <= rate_error * r) as Habs.
  { intros y Hy. by apply Qabs_Qle_condition. }
  unfold rate_error in *. split; intros Hr; rewrite (Qabs_pos r) in Hn by lra; apply Habs in Hn.
  - split.
    + destruct (Z.lt_ge_cases x (-4)) as [Hx|]; [|done]. pose proof (Hmono (x + 1)%Z (-4)%Z ltac:(lia)) as H4.
      change (10 ^ (-4)) with (1 # 10000) in H4. lra.
    + destruct (Z.lt_ge_cases x 6) as [|Hx]; [done|]. pose proof (Hmono 6%Z x Hx) as H6.
      change (10 ^ 6) with 1000000 in H6. lra.
  - destruct (Z.lt_ge_cases x 6) as [Hx|]; [|done]. pose proof (Hmono (x + 1)%Z 6%Z ltac:(lia)) as H6.
    change (10 ^ 6) with 1000000 in H6. lra.
Qed.

(** [total / seconds]. *)
Definition rate (total seconds : Z) : Q := inject_Z total / inject_Z seconds.

Lemma inject_neq0 z : z ≠ 0%Z → ¬ inject_Z z == 0.
Proof. intros Hz H. apply Hz. by apply inject_Z_injective. Qed.

Lemma rate_sign total s : s ≠ 0%Z →
  rate total s == inject_Z total / inject_Z (Z.abs s) * inject_Z (Z.sgn s).
Proof.
  intros Hs. unfold rate. pose proof (inject_neq0 s Hs) as Hn.
  assert (inject_Z s == inject_Z (Z.abs s) * inject_Z (Z.sgn s)) as Heq by (by rewrite <-inject_Z_mult, Z.abs_sgn).
  assert (inject_Z (Z.sgn s) * inject_Z (Z.sgn s) == 1) as Hsq.
  { rewrite <-inject_Z_mult. by replace (Z.sgn s * Z.sgn s)%Z with 1%Z by lia. }
  assert (¬ inject_Z (Z.abs s) == 0) by (apply inject_neq0; lia).
  assert (¬ inject_Z (Z.sgn s) == 0) by (apply inject_neq0; lia).
  set (g := inject_Z (Z.sgn s)) in *. set (b := inject_Z (Z.abs s)) in *. rewrite Heq.
  transitivity (inject_Z total / b * (g * g) / g).
  - rewrite Hsq. by field.
  - by field.
Qed.

Lemma cond_Zopp_sgn s z :
  s ≠ 0%Z → inject_Z (cond_Zopp (bool_decide (s < 0)%Z) z) == inject_Z z * inject_Z (Z.sgn s).
Proof.
  intros Hs. rewrite <-inject_Z_mult. case_bool_decide; simpl.
  - by replace (z * Z.sgn s)%Z with (- z)%Z by lia.
  - by replace (z * Z.sgn s)%Z with z by lia.
Qed.

(** No operations: the text is a zero. *)
Lemma no_rate_text nan s : s ≠ 0%Z → (Z.abs s <= 2 ^ 31)%Z →
  ∃ q, read_number (print_double nan (qps 0 s)) = Some q ∧ near rate_error q (rate 0 s).
Proof.
  intros Hs Hs'. unfold qps. rewrite double_quotient_zero by done. simpl.
  assert (rate 0 s == 0) as Hz by (unfold rate; pose proof (inject_neq0 s Hs); by field).
  case_bool_decide; (eexists; split; [reflexivity|]); rewrite Hz; by vm_compute.
Qed.

(** The number in a text with mantissa and exponent. *)
Lemma signed_text neg ip fp x :
  ip ≠ [] → forallb isdigit ip = true → forallb isdigit fp = true → (-1000 <= x <= 1000)%Z →
  read_number (sign_text neg ++ (ip ++ point_text fp) ++ shown_text x) =
  Some (inject_Z (cond_Zopp neg (decimal_value (ip ++ fp))) * 10 ^ (shown x - Z.of_nat (length fp))).
Proof.
  intros Hne Hip Hfp Hx. apply read_pieces; [done..| |]; unfold shown_text, shown; case_decide; try done.
  by apply exponent_text_read.
Qed.

(** Without the exponent, a large number is cut to its first digits. *)
Lemma mantissa_small ip fp d x :
  (10 ^ 5 <= d < 10 ^ 6)%Z → (6 <= x)%Z →
  inject_Z (decimal_value (ip ++ fp)) * 10 ^ (shown x - Z.of_nat (length fp)) == inject_Z d * 10 ^ (x - 5) →
  inject_Z (decimal_value (ip ++ fp)) * 10 ^ (0 - Z.of_nat (length fp)) < 10.
Proof.
  intros Hd Hx Hval. unfold shown in Hval. rewrite decide_False in Hval by lia.
  pose proof (pow10_pos x) as Hp. pose proof (significand_range d x Hd) as [_ Hlt].
  rewrite pow10_add in Hlt. rewrite <-Hval in Hlt.
  replace (x - Z.of_nat (length fp))%Z with (0 - Z.of_nat (length fp) + x)%Z in Hlt by lia.
  rewrite pow10_add in Hlt. change (10 ^ 1) with 10 in Hlt. nra.
Qed.

(** In no time at all. *)
Lemma no_time_text nan total : (0 <= total < 2 ^ 64)%Z →
  print_double nan (qps total 0) = if decide (total = 0%Z) then nan else str "inf".
Proof.
  intros Ht. unfold qps. case_decide as Hz; [by subst|]. by rewrite double_quotient_by_zero by lia.
Qed.

(** What is printed for [total] operations, and what the script makes of it. *)
Lemma rate_text nan total s pre :
  (0 <= total < 2 ^ 64)%Z → s ≠ 0%Z → (Z.abs s <= 2 ^ 31)%Z →
  let text := print_double nan (qps total s) in
  let line := pre ++ key "qps" ++ text ++ str "}" ++ [ch 10] in
  (∃ q, read_number text = Some q ∧ near rate_error q (rate total s)) ∧
  ((1 # 1000) <= rate total s <= 999990 → script_qps line = Some text) ∧
  (1000010 <= rate total s → ∃ t q, script_qps line = Some t ∧ read_number t = Some q ∧ q < 10).
Proof.
  intros Ht Hs Hs' text line. destruct (decide (total = 0%Z)) as [->|Hpos].
  { split_and!; [by apply no_rate_text|..]; intros Hr;
      (assert (rate 0 s == 0) as Hz by (unfold rate; pose proof (inject_neq0 s Hs); by field)); lra. }
  destruct (print_quotient nan total s ltac:(lia) Hs Hs')
    as (ip & fp & d & x & Hprint & Hne & Hip & Hfp & Hx & Hval & Hd & Hnear).
  subst line. unfold text, qps. rewrite Hprint. clear text Hprint.
  pose proof (rate_sign total s Hs) as Hrs.
  set (r := inject_Z total / inject_Z (Z.abs s)) in *.
  assert (0 <= r) as Hr0.
  { subst r. apply Qle_shift_div_l; [change 0 with (inject_Z 0); rewrite <-Zlt_Qlt; lia|].
    rewrite Qmult_0_l. change 0 with (inject_Z 0). rewrite <-Zle_Qle. lia. }
  destruct (rate_exponent d x r Hd Hnear) as [Hmid Hbig].
  split; [|case_bool_decide as Hneg].
  - eexists. split; [by apply signed_text|]. rewrite Hrs.
    assert (∀ a b c, a * b * c == a * c * b) as Hcomm by (intros; ring).
    rewrite cond_Zopp_sgn, Hcomm, Hval by done. by apply near_scale.
  - split; intros Hr; rewrite Hrs in Hr; replace (Z.sgn s) with (-1)%Z in Hr by lia;
      change (inject_Z (-1)) with (-(1)) in Hr; lra.
  - replace (Z.sgn s) with 1%Z in Hrs by lia. change (inject_Z 1) with 1 in Hrs. rewrite Qmult_1_r in Hrs.
    rewrite !Hrs. simpl sign_text. rewrite !app_nil_l. rewrite script_mantissa by done. split.
    + intros Hr%Hmid. unfold shown_text. by rewrite decide_True, app_nil_r.
    + intros Hr%Hbig. eexists _, _. split; [done|]. split.
      * rewrite <-(app_nil_r (ip ++ _)). by apply (read_pieces false ip fp [] 0).
      * by eapply mantissa_small.
Qed.
End rate.

(** ** The program *)

Lemma bench_main_exit UnpackOne PackCommand limits nan args envs out code :
  bench_main UnpackOne PackCommand limits nan args envs = Some (BoExit out code) →
  let o := Parse args in
  ∃ threads,
    Forall2 (λ i b, thread UnpackOne limits PackCommand o envs i = Some b)
      (seq 0 (Z.to_nat (clients o))) threads ∧
    Forall (λ b, be_pc b = BeDone) threads ∧
    out = report nan o (u64 (Zsum (be_ops <$> threads))) ∧ code = 0%Z.
Proof.
  unfold bench_main. case_decide as Hc; [done|]. intros Hm.
  destruct (mapM _ _) as [threads|] eqn:Hth; [|done]. simpl in Hm. apply mapM_Some in Hth.
  case_decide; [done|]. exists threads. split; [done|]. apply Forall2_length in Hth as Hlen. rewrite length_seq in Hlen.
  destruct (decide (Forall (λ b, be_pc b = BeDone) threads)) as [Hd|Hd].
  - rewrite main_total_sum in Hm by (lia || done). simplify_eq. done.
  - unfold main_total in Hm. rewrite decide_False in Hm by done. rewrite decide_False in Hm by tauto. done.
Qed.

(** C40: What the load generator prints.  When [main] returns, every thread has
    returned, and [main] has printed its options and a rate, for the sum of the
    threads' counts, modulo 2^64.  For [--seconds 0] the rate is "inf", or not a number
    when the sum is 0.  Otherwise it reads as the sum divided by the seconds, up to a
    relative error of 5.0001e-6; the script that drives the program recovers the
    printed number as long as the rate lies between 0.001 and 999990, and from 1000010
    on it reads a number below 10, since such a rate is printed with an exponent.  If
    [--pipeline] is not negative, the decoder reads streams piecewise and the threads
    read well-formed replies, fewer than 2^64 in all, the sum has not wrapped around
    and is at most the number of these replies. *)
Theorem bench_rate_printed UnpackOne PackCommand limits nan args envs out code :
  bench_main UnpackOne PackCommand limits nan args envs = Some (BoExit out code) →
  let o := Parse args in
  let ids := seq 0 (Z.to_nat (clients o)) in
  ∃ threads text,
    Forall2 (λ i b, thread UnpackOne limits PackCommand o envs i = Some b) ids threads ∧
    Forall (λ b, be_pc b = BeDone) threads ∧
    let total := u64 (Zsum (be_ops <$> threads)) in
    out = report_head o ++ key "qps" ++ text ++ str "}" ++ [ch 10] ∧ code = 0%Z ∧
    (seconds o = 0%Z → text = if decide (total = 0%Z) then nan else str "inf") ∧
    (seconds o ≠ 0%Z →
       (∃ q, read_number text = Some q ∧ near rate_error q (rate total (seconds o))) ∧
       (((1 # 1000) <= rate total (seconds o) <= 999990)%Q → script_qps out = Some text) ∧
       ((1000010 <= rate total (seconds o))%Q →
          ∃ t q, script_qps out = Some t ∧ read_number t = Some q ∧ (q < 10)%Q)) ∧
    (∀ served, UnpackOneLaws UnpackOne → UnpackOneStreams UnpackOne → (0 <= pipeline o)%Z →
       Forall (λ i, ∃ rest, Decodes UnpackOne limits (received (en_events (envs i))) (served i) rest) ids →
       (Zsum (served <$> ids) < 2 ^ 64)%Z →
       total = Zsum (be_ops <$> threads) ∧ (total <= Zsum (served <$> ids))%Z).
Proof.
  intros Hm o ids. destruct (bench_main_exit _ _ _ _ _ _ _ _ Hm) as (threads & Hth & Hdone & -> & ->).
  fold o ids in Hth. exists threads. set (total := u64 (Zsum (be_ops <$> threads))).
  assert (0 <= total < 2 ^ 64)%Z as Ht by apply u64_range.
  exists (print_double nan (qps total (seconds o))). do 2 (split; [done|]). cbn zeta. fold total.
  split_and!; [done..| | |].
  - intros ->. by apply no_time_text.
  - intros Hs. pose proof (Parse_loop_int args Options_default ltac:(done)) as Hint.
    fold (Parse args) o in Hint. unfold int_seconds in Hint. apply rate_text; [done..|lia].
  - intros served Laws Streams Hp Hdec Hsum.
    pose proof (threads_total UnpackOne limits PackCommand o envs served threads ids Hp Hth Hdone Hdec) as Hle.
    assert (total = Zsum (be_ops <$> threads)) as Heq by (apply u64_small; lia). split; [done|lia].
Qed.

Definition demo_args : list bytes :=
  str <$> ["--clients"; "2"; "--pipeline"; "2"; "--seconds"; "3"]%string.
Definition demo_envs (i : nat) : BenchEnv := mkBenchEnv None demo_dial demo_bench_events.

(** Two threads, two replies each, in three seconds. *)
Lemma bench_rate_printed_witness :
  ∃ out, bench_main demo_unpack demo_pack demo_limits (str "nan") demo_args demo_envs = Some (BoExit out 0) ∧
    script_qps out = Some (str "1.33333") ∧
    ∃ threads text q, out = report_head (Parse demo_args) ++ key "qps" ++ text ++ str "}" ++ [ch 10] ∧
      read_number text = Some q ∧ near rate_error q (rate (u64 (Zsum (be_ops <$> threads))) 3) ∧
      (Zsum (be_ops <$> threads) <= 4)%Z.
Proof.
  eexists. split; [vm_compute; reflexivity|]. split; [vm_compute; reflexivity|].
  match goal with |- ∃ threads text q, ?out = _ ∧ _ =>
    destruct (bench_rate_printed demo_unpack demo_pack demo_limits (str "nan") demo_args demo_envs
                out 0 ltac:(vm_compute; reflexivity))
      as (threads & text & _ & _ & Hout & _ & _ & Hrate & Hserved)
  end.
  destruct Hrate as ((q & Hq & Hn) & _); [vm_compute; discriminate|].
  exists threads, text, q. split_and!; [exact Hout|exact Hq|exact Hn|].
  destruct (Hserved (λ _, 2%Z) demo_unpack_laws demo_unpack_streams) as [Heq Hle].
  - vm_compute. discriminate.
  - repeat constructor; exists [ch 43]; exact demo_decodes.
  - vm_compute. reflexivity.
  - rewrite <-Heq. exact Hle.
Defined.

(** A million and a half operations in a second. *)
Example script_misreads :
  script_qps (report [] (Parse (str <$> ["--seconds"; "1"]%string)) 1500000) = Some (str "1.5").
Proof. vm_compute. reflexivity. Qed.

(** No time at all, a negative number of clients. *)
Example no_seconds :
  drop (length (report_head demo_options)) (report (str "nan") demo_options 0) = key "qps" ++ str "nan}" ++ [ch 10].
Proof. vm_compute. reflexivity. Qed.

Example no_clients :
  bench_main demo_unpack demo_pack demo_limits [] [str "--clients"; str "-1"] demo_envs = Some BoAborted.
Proof. vm_compute. reflexivity. Qed.
